(* ===== verification/_CoqProject ===== *)
-Q . S2P
Prelude.v
Item.v
Queue.v
Table.v
TableInv.v
Policy.v
ClockPolicy.v
TwoQueue.v
S3Fifo.v
FreqSketch.v
WTinyLfu.v
Sieve.v
Shard.v
Lookup.v
ShardSteps.v
Rebuild.v
ShardInv.v
SetMemory.v
GetMemory.v
ShardSpec.v
ShardTheorems.v
Seqlock.v
Expiry.v
Components.v
Budget.v
Config.v
ConfigLaws.v
Options.v
HashSet.v
Stats.v
Rates.v
CacheState.v
WriteBack.v
Panics.v
WriteBackSteps.v
WriteBackTheorems.v
CacheLaws.v
CacheOps.v
WriteThrough.v
WriteBackReads.v
Flight.v
FlightTheorems.v
Wakeup.v
Batch.v
BatchTheorems.v
Loads.v
LoadTheorems.v
GetBatched.v
GetBatchedTheorems.v
Snapshot.v
SnapshotLaws.v
L2Util.v
L2UtilLaws.v
Redis.v
KvStore.v
GoRedis.v
RedisPipe.v
Redigo.v
Rueidis.v
Valkey.v
RedisLaws.v
RedisTheorems.v
Strconv.v
Dedup.v
Dynamo.v
DynamoLaws.v
DynamoTheorems.v
Sql.v
TimedStore.v
SqlLaws.v
Pgx.v
Mongo.v
Tarantool.v
Badger.v
Aerospike.v
Memcache.v
SimStores.v
TimedTheorems.v
MemcacheTheorems.v
AdapterCache.v
