(* ===== verification/Prelude.v ===== *)
(** * memstash: a two-level in-process cache

    The repository is a Go cache library.  A [Cache] (cache.go) splits its first level into shards; a
    key's hash picks the shard.  A shard owns an open-addressing table of items
    (internal/itemstore/map.go), an eviction policy with its queues (internal/eviction) and the
    counters behind one mutex; reads are lock-free and validate a copy of the item against its meta
    word (internal/itemstore/item.go).  Expiration is an offset on a wrapping 18-bit scale kept in
    the meta word and compared with a coarse clock.

    ** The files, in dependency order

    - Prelude: machine integers, bit lemmas and tactics, sums over index lists.
    - Item (item.go): the meta word, every operation on it, and what each does to each field.
    - Queue (queue.go): the chunked FIFO; [contents] is the list it stands for.
    - Table, TableInv (map.go): the flat table in its two layouts seen as one array; the table
      invariant (reachability of every live item from its home slot, exact overflow counters).
    - Policy (eviction.go): the policy interface, a class [EvictionPolicy] with the class
      [PolicyLaws] of what the shard relies on.  ClockPolicy, S3Fifo, WTinyLfu (with FreqSketch) and
      Sieve (internal/eviction/*.go) are its instances; TwoQueue has the eviction loop and
      the weighted sweeps the two two-queue policies share.
    - Shard (cache.go): the shard and every operation under its mutex, and the lock-free reads, as
      functions from the shard before to the shard after and the log of removals.
    - Lookup, ShardSteps, Rebuild, ShardInv, SetMemory, GetMemory: the shard invariant [shard_inv]
      and one specification per operation, for any policy with the laws.
    - ShardSpec: the abstract cache (a map from keys to a value and an expiration, with eviction and
      expiry as nondeterministic removals that are logged), and that runs of a shard are runs of it.
    - ShardTheorems: the theorems about a shard.
    - Seqlock: the lock-free snapshot against interleaved writers, one atomic step at a time.
    - Expiry (cache.go, the TTL parts): the unit, the clock and the offsets, and for how long an item
      is served.
    - Components: the theorems about the meta word, the snapshot, the queue and the policies.
    - Budget (budget.go): the automatic cost function.  Config, ConfigLaws (config.go): the checks, the
      defaults and the sizes the constructor derives.  Options (options.go): the option list.
    - HashSet (internal/itemstore/set.go): the open-addressed set of the loads.
    - Stats, Rates (stats.go): the counters, and the hit rates as IEEE floats.  CacheState (cache.go): the whole cache, a record [World] with the
      shards, the second level, the write queues and the counters, and the state monad [M] of its
      operations; the class [L2Cache] (l2.go) is the second level, whose operations change an abstract
      store and may fail.  [L2Laws] is what the interface documents of one that does not: rows of data with the
      lifetime their TTL asks for, which time takes away.
    - WriteBack (cache.go): queues, batching and delivery, overflow, Wait and Close;
      WriteBackSteps (clients and workers interleaved), WriteBackTheorems.  Panics: a worker whose second
      level and handlers may panic, with the deferred recovers.
    - CacheLaws, CacheOps (cache.go, batch.go): the facade over both levels (Get, Set, Delete, batches,
      loads); WriteThrough (the two levels against a book of what was written) and WriteBackReads: what it
      answers under the two write modes.
    - Flight, FlightTheorems (singleflight.go): the registry of running loads; Wakeup: its
      finish/wait protocol one atomic step at a time.
    - Batch, BatchTheorems (batch.go): the pipelined batch reads.
    - Loads, LoadTheorems (cache.go, batch.go, getandrefresh.go, loadable.go): GetOrLoad,
      BatchGetOrLoad, the refresh-ahead reads and LoadableCache over registry and cache; in a batch load the
      loader and the second level may panic.
    - GetBatched, GetBatchedTheorems (getbatched.go): coalesced reads; the pool with its
      slots, the queue, and the worker's turn.
    - Snapshot, SnapshotLaws (snapshot.go): the stream format, SaveTo and LoadFrom.
    - L2Util, L2UtilLaws (l2/l2.go): the adapters' helpers; concurrent batches as a step relation.

    The adapters (l2/*_adapter).  Each is a record of its fields, its New, one definition per method with
    the requests it sends and in which order, and its instance of [L2Cache]; the client library is a
    class whose operations change an abstract state and may fail, and a second class says what is relied on.

    - Redis: commands and replies, the parts of a batch.  GoRedis, RedisPipe, Redigo, Rueidis, Valkey: the five
      adapters.  KvStore: what an adapter over a table of bytes and lifetimes promises, and that this is [L2Laws];
      RedisLaws (the server and what each client promises), RedisTheorems.
    - Strconv (decimal numbers), Dedup (repeated keys); Dynamo: DynamoDB, with its request limits, retries
      and the chunks on their goroutines; DynamoLaws, DynamoTheorems.
    - TimedStore: what an adapter over a store of rows with deadlines promises.  Sql, SqlLaws: database/sql,
      with the texts of the statements.  Pgx, Mongo, Tarantool, Badger, Aerospike.
      TimedTheorems: the theorem over them.
    - Memcache, MemcacheTheorems: gomemcache, rainycape and mc, whose batches are concurrent.
    - SimStores: a store in memory behind each of these clients, with the laws.
    - AdapterCache: New of the cache and the constructors of the adapters over one option list.

    ** How the code is modelled

    Integers are [Z] with the wrap-around of their Go width written out ([u32], [u64], [i32],
    [i64]).  A slice or array is a list; reads and writes by index are in range under the invariants, and the
    default of an out-of-range read is never used there.  Pointers to items are table indices
    ([At], [alterAt]).  A loop of the source is a fixpoint with fuel (the table size for a probe, the
    number of queued nodes and chances for an eviction), and the answer is an [option] whose [None]
    stands for fuel that ran out; every theorem about an operation says it answers [Some].  The
    shard's mutex makes its mutating operations atomic, so a shard is modelled as a sequence of
    operations; what the mutex does not cover, a reader copying an entry while writers run, is
    Seqlock's step relation.  Hash functions, the cost function and the growth rule of [append] are
    parameters.

    ** What the theorems show

    - A shard, under any policy with the laws, implements the abstract cache: no stale reads, no
      silent loss, exact accounting, weight within capacity, integers within their Go types
      (ShardTheorems); each operation on every branch; the probe walks agree with an exhaustive search; eviction and rebuild terminate.
    - An item is served for exactly its TTL and then not, and a restored one for what was left of it (Expiry), with
      the two cases where the scale is too short: the longest TTL of a unit, and an expired item left alone for half a
      turn of the clock.
    - A validated lock-free copy is the entry at one moment (Components, Seqlock).
    - The queue is a FIFO; the policies terminate with a legitimate victim; S3-FIFO's ghost table
      readmits a key until its entry has aged out; the sketch counts and ages; SIEVE keeps the insertion order.
    - The constructor's sizes are consistent for every accepted configuration, options apply in order,
      the automatic cost is the footprint (Budget, ConfigLaws, Options); the hash set is membership.
    - Write-back: whatever the interleaving, Close leaves the second level with every accepted write in
      order per key, and Wait is a barrier; a write that finds its queue full overtakes, and a deleted key
      can be read again (WriteBackTheorems, WriteBackReads).  Write-through over a second level that does
      not fail refines the book of its writes: a read answers the value as long as its row lives, then nothing or still the
      value written last; without TTLs the cache is a plain map (WriteThrough).  A worker outlives every panic of the adapter and the handlers
      (Panics).
    - The flight registry is a map, no wake-up is lost, and a batch load settles every flight it started with its
      key's value, the loader's error or the panic, whatever the loader and the second level do (FlightTheorems,
      Wakeup, LoadTheorems).
    - Batch reads are single reads; coalesced reads settle every request once with its key's answer, also
      when the second level panics (BatchTheorems, GetBatchedTheorems).  The rates lie between 0 and 1
      (Rates).
    - A saved snapshot loads as the saved items; a truncated one loads a prefix and is reported
      (SnapshotLaws).
    - A concurrent batch ends, runs each index once, and answers what the sequential one answers
      (L2UtilLaws).
    - The Redis adapters refine a table of bytes and lifetimes, whatever commands a batch is made of.  Over one of them a
      value stored through the cache stays readable as long as the server keeps it, with the bytes and the lifetime it has
      there, and under write-back the server holds after Close the bytes and the lifetime written last (RedisTheorems).
    - DynamoDB batches end, whatever the service leaves unprocessed; writes touch only their keys, each with its last item,
      reads answer what the table holds (DynamoTheorems).
    - The adapters over stores with deadlines read only what is unexpired, miss nothing that is, write the deadline of
      the TTL, and leave no other key changed, also when a request fails (TimedTheorems); so do the memcached ones
      on every interleaving of a batch, except that of a key given twice an older value may stay
      (MemcacheTheorems).

    ** Bounds

    A shard holds fewer than 2^31 live items (the table doubles, and slot indices are 32-bit), and a
    generation repeats after 2^27 - 1 writes to one slot.  Hash sets hold up to 2^28 keys, a read pool
    fewer than 2^31 queued requests, as their indices are 32-bit.  With TTL refresh a TTL is at most
    ExpireMax - 2 units.  The theorems that need these say so.  Fuel is always a bound on the loop it
    drives (table size, queue length, number of tasks or keys), and the theorems say it is enough.

    ** Not modelled

    Of the adapters: the JSON codec (a parameter); cancelled contexts; a client that panics.  The clock is
    read from the client's state: it stands still while the adapter computes and may move with every
    request.  What the services are taken to do beyond the requests themselves is in the class of each client; two of these
    go beyond what the adapters ask for: DynamoDB reads are strongly consistent, and Tarantool runs the requests of
    a connection in order.  Of the cache itself: what the panic handler is told outside the write-back workers, a
    deletion or error handler that panics in a caller, a second level that panics in a single-key call, and the moment a
    goroutine starts.  Deletions are logged as they happen, where BatchDelete calls the handler after the last of its
    keys.  Benchmarks and load generators are
    not part of the cache. *)

From Stdlib Require Export ZArith Lia Bool Btauto.
From stdpp Require Export base list numbers decidable sets.

#[global] Open Scope Z_scope.

#[global] Arguments Z.testbit : simpl never.
#[global] Arguments Z.land : simpl never.
#[global] Arguments Z.lor : simpl never.
#[global] Arguments Z.ldiff : simpl never.
#[global] Arguments Z.lxor : simpl never.
#[global] Arguments Z.shiftl : simpl never.
#[global] Arguments Z.shiftr : simpl never.
#[global] Arguments Z.ones : simpl never.

(** ** Machine integers

    Go's [uint32] and [uint64] are the integers [0 <= x < 2^w]; every operation of the source that
    can leave that range is followed by [u32] or [u64]. *)

Definition u32 (x : Z) : Z := x mod 2 ^ 32.

Definition u64 (x : Z) : Z := x mod 2 ^ 64.

(** Go's [int64] (also [int] and [time.Duration]): two's complement. *)
Definition i64 (x : Z) : Z := (x + 2 ^ 63) mod 2 ^ 64 - 2 ^ 63.
Definition i32 (x : Z) : Z := (x + 2 ^ 31) mod 2 ^ 32 - 2 ^ 31.

Definition is_u32 (x : Z) : Prop := 0 ≤ x < 2 ^ 32.

Definition is_u64 (x : Z) : Prop := 0 ≤ x < 2 ^ 64.

Lemma u32_small (x : Z) : 0 ≤ x < 2 ^ 32 → u32 x = x.
Proof. apply Z.mod_small. Qed.

Lemma i32_small (x : Z) : - 2 ^ 31 ≤ x < 2 ^ 31 → i32 x = x.
Proof. intros H. unfold i32. rewrite Z.mod_small; lia. Qed.

Lemma i64_small (x : Z) : - 2 ^ 63 ≤ x < 2 ^ 63 → i64 x = x.
Proof. intros H. unfold i64. rewrite Z.mod_small; lia. Qed.

(** ** What the model needs to know of a Go type: its zero value and [unsafe.Sizeof]. *)

Class GoType (A : Type) := {
  go_zero : A;
  go_sizeof : Z
}.

#[global] Instance GoType_Z : GoType Z := {| go_zero := 0; go_sizeof := 8 |}.

(** ** Bits *)

Lemma testbit_lt (x w i : Z) : 0 ≤ x < 2 ^ w → 0 ≤ w ≤ i → Z.testbit x i = false.
Proof.
  intros Hx Hi. rewrite <- (Z.mod_small x (2 ^ w)) by lia.
  apply Z.mod_pow2_bits_high. lia.
Qed.

Lemma lt_pow2_bits (x w : Z) :
  0 ≤ x → 0 ≤ w → (∀ i, w ≤ i → Z.testbit x i = false) → x < 2 ^ w.
Proof.
  intros Hx Hw Hb.
  assert (x mod 2 ^ w = x) as <-.
  { apply Z.bits_inj'. intros i Hi.
    destruct (decide (i < w)).
    - by rewrite Z.mod_pow2_bits_low by lia.
    - rewrite Z.mod_pow2_bits_high by lia. symmetry. apply Hb. lia. }
  apply Z.mod_pos_bound. apply Z.pow_pos_nonneg; lia.
Qed.

Lemma testbit_shiftl_ones (w s i : Z) :
  0 ≤ w → 0 ≤ s → 0 ≤ i →
  Z.testbit (Z.shiftl (Z.ones w) s) i = (s <=? i) && (i <? s + w).
Proof.
  intros Hw Hs Hi. rewrite Z.shiftl_spec by lia.
  destruct (Z.leb_spec s i); simpl.
  - rewrite Z.testbit_ones_nonneg by lia.
    destruct (Z.ltb_spec (i - s) w), (Z.ltb_spec i (s + w)); lia.
  - rewrite Z.testbit_neg_r by lia. done.
Qed.

Lemma land_lor_distr_l (a b c : Z) :
  Z.land (Z.lor a b) c = Z.lor (Z.land a c) (Z.land b c).
Proof.
  apply Z.bits_inj'. intros i Hi.
  rewrite Z.land_spec, !Z.lor_spec, !Z.land_spec. btauto.
Qed.

Lemma land_ldiff_distr (a b c : Z) :
  Z.land (Z.ldiff a b) c = Z.land a (Z.ldiff c b).
Proof.
  apply Z.bits_inj'. intros i Hi.
  rewrite !Z.land_spec, !Z.ldiff_spec. btauto.
Qed.

Lemma land_mod_pow2 (x n : Z) : 0 ≤ n → Z.land x (2 ^ n - 1) = x mod 2 ^ n.
Proof.
  intros Hn. rewrite <- Z.land_ones by done. f_equal. rewrite Z.ones_equiv. lia.
Qed.

Lemma testbit_single (s i : Z) : 0 ≤ s → Z.testbit (Z.shiftl 1 s) i = (i =? s).
Proof.
  intros Hs. rewrite Z.shiftl_1_l, Z.pow2_bits_eqb by done. apply Z.eqb_sym.
Qed.

(** [land x (1 << s) != 0] is the code's test of bit [s]. *)
Lemma land_single (x s : Z) :
  0 ≤ s → Z.land x (Z.shiftl 1 s) = if Z.testbit x s then Z.shiftl 1 s else 0.
Proof.
  intros Hs. apply Z.bits_inj'. intros i Hi.
  rewrite Z.land_spec, testbit_single by done.
  destruct (Z.eqb_spec i s) as [->|Hne]; destruct (Z.testbit x s) eqn:E;
    rewrite ?testbit_single, ?Z.testbit_0_l, ?E, ?Z.eqb_refl by done; try done.
  - rewrite andb_false_r. by destruct (Z.eqb_spec i s).
  - by rewrite andb_false_r.
Qed.

Lemma shiftl_1_nonzero (s : Z) : 0 ≤ s → Z.shiftl 1 s ≠ 0.
Proof. intros Hs. rewrite Z.shiftl_1_l. pose proof (Z.pow_pos_nonneg 2 s). lia. Qed.

Lemma land_single_eqb0 (x s : Z) :
  0 ≤ s → (Z.land x (Z.shiftl 1 s) =? 0) = negb (Z.testbit x s).
Proof.
  intros Hs. rewrite land_single by done.
  destruct (Z.testbit x s); [|done].
  apply Z.eqb_neq, shiftl_1_nonzero, Hs.
Qed.

(** Splits every integer comparison of the goal. *)
Ltac split_cmp :=
  repeat match goal with
  | |- context [?a <=? ?b] => destruct (Z.leb_spec a b); simpl
  | |- context [?a <? ?b] => destruct (Z.ltb_spec a b); simpl
  | |- context [?a =? ?b] => destruct (Z.eqb_spec a b); simpl
  end.

Create Rewrite HintDb bits.
Create HintDb words discriminated.
Create HintDb table discriminated.
#[export] Hint Rewrite Z.land_spec Z.lor_spec Z.ldiff_spec Z.lxor_spec
  Z.testbit_0_l : bits.
#[export] Hint Rewrite Z.shiftl_spec Z.shiftr_spec testbit_single testbit_shiftl_ones
  using lia : bits.

(** [x] has no bit at or above [w]. *)
Definition narrow (x w : Z) : Prop := ∀ i, w ≤ i → Z.testbit x i = false.

Lemma narrow_intro (x w : Z) : 0 ≤ w → 0 ≤ x < 2 ^ w → narrow x w.
Proof. intros Hw Hx i Hi. apply (testbit_lt x w); lia. Qed.

(** Evaluates the test bits whose index is negative or above a known [narrow] width. *)
Ltac kill_bits :=
  repeat match goal with
  | |- context [Z.testbit ?x ?i] =>
    first [ rewrite (Z.testbit_neg_r x i) by lia
          | match goal with H : narrow x _ |- _ => rewrite (H i) by lia end ]
  end.

(** Identifies the test bits of one word at indices that [lia] proves equal. *)
Ltac merge_bits :=
  repeat match goal with
  | |- context [Z.testbit ?x ?i] =>
    match goal with
    | |- context [Z.testbit x ?j] =>
      tryif constr_eq i j then fail else replace (Z.testbit x j) with (Z.testbit x i) by (f_equal; lia)
    end
  end.

(** Decides the sign of a test bit's index. *)
Ltac split_index :=
  match goal with
  | |- context [Z.testbit _ (?i - ?k)] =>
    tryif first [assert (k ≤ i) by lia | assert (i < k) by lia] then fail
    else destruct (Z_lt_le_dec i k)
  end.

(** Proves an equation between words bit by bit. *)
Ltac bitwise_core :=
  repeat (progress (autorewrite with bits; split_cmp; subst; try lia; kill_bits; try split_index));
  try btauto; merge_bits; try btauto.

Ltac bitwise :=
  apply Z.bits_inj'; let i := fresh "i" in let Hi := fresh "Hi" in
  intros i Hi; bitwise_core.

(** ** Sums over index lists *)

Definition sumZ (f : Z → Z) (l : list Z) : Z := foldr (λ i a, f i + a) 0 l.

Lemma sumZ_cons f i l : sumZ f (i :: l) = f i + sumZ f l.
Proof. done. Qed.

Lemma sumZ_app f l k : sumZ f (l ++ k) = sumZ f l + sumZ f k.
Proof. induction l as [|i l IH]; [done|]. simpl app. rewrite !sumZ_cons, IH. lia. Qed.

Lemma sumZ_ext f g l : (∀ i, i ∈ l → f i = g i) → sumZ f l = sumZ g l.
Proof.
  induction l as [|i l IH]; intros H; [done|]. rewrite !sumZ_cons, IH, H; [done|set_solver|set_solver].
Qed.

Lemma sumZ_perm f l k : l ≡ₚ k → sumZ f l = sumZ f k.
Proof. induction 1; rewrite ?sumZ_cons in *; lia. Qed.

Lemma sumZ_update f g l i :
  NoDup l → i ∈ l → (∀ j, j ∈ l → j ≠ i → g j = f j) → sumZ g l = sumZ f l - f i + g i.
Proof.
  induction 1 as [|j l Hj Hnd IH]; intros Hi Hg; [set_solver|].
  rewrite !sumZ_cons. apply elem_of_cons in Hi as [->|Hi].
  - rewrite (sumZ_ext g f l); [lia|]. intros k Hk. apply Hg; set_solver.
  - rewrite (Hg j) by set_solver. rewrite IH by set_solver. lia.
Qed.

Lemma sumZ_le f g l : (∀ i, i ∈ l → f i ≤ g i) → sumZ f l ≤ sumZ g l.
Proof.
  induction l as [|i l IH]; intros H; [done|]. rewrite !sumZ_cons.
  pose proof (H i ltac:(set_solver)). pose proof (IH ltac:(set_solver)). lia.
Qed.

Lemma sumZ_const c l : sumZ (λ _, c) l = c * Z.of_nat (length l).
Proof. induction l as [|i l IH]; [simpl; lia|]. rewrite sumZ_cons, IH. simpl length. lia. Qed.

Lemma sumZ_nonneg f l : (∀ i, i ∈ l → 0 ≤ f i) → 0 ≤ sumZ f l.
Proof. intros H. pose proof (sumZ_le (λ _, 0) f l H) as H'. rewrite sumZ_const in H'. lia. Qed.

Lemma sumZ_plus f g l : sumZ (λ i, f i + g i) l = sumZ f l + sumZ g l.
Proof. induction l as [|i l IH]; [done|]. rewrite !sumZ_cons, IH. lia. Qed.

Lemma sumZ_sub f l k :
  NoDup l → NoDup k → (∀ i, i ∈ k → i ∈ l) → (∀ i, i ∈ l → i ∉ k → f i = 0) → sumZ f l = sumZ f k.
Proof.
  intros Hl Hk Hsub Hz. revert k Hk Hsub Hz.
  induction Hl as [|i l Hi Hl IH]; intros k Hk Hsub Hz.
  { destruct k as [|i k]; [done|]. exfalso. specialize (Hsub i). set_solver. }
  rewrite sumZ_cons. destruct (decide (i ∈ k)) as [Hik|Hik].
  - apply elem_of_Permutation in Hik as [k' Ek]. rewrite (sumZ_perm f k (i :: k') Ek), sumZ_cons.
    rewrite Ek in Hk. setoid_rewrite Ek in Hsub. setoid_rewrite Ek in Hz. apply NoDup_cons in Hk as [Hik' Hk'].
    f_equal. apply IH; [done| |].
    + intros j Hj. specialize (Hsub j). set_solver.
    + intros j Hj Hjk. apply Hz; set_solver.
  - rewrite Hz by set_solver. rewrite (IH k); [lia|done| |].
    + intros j Hj. specialize (Hsub j Hj). set_solver.
    + intros j Hj Hjk. apply Hz; set_solver.
Qed.

Lemma sumZ_pos_ex f l : (∀ i, i ∈ l → 0 ≤ f i) → sumZ f l = 0 → ∀ i, i ∈ l → f i = 0.
Proof.
  induction l as [|j l IH]; intros Hn H i Hi; [set_solver|]. rewrite sumZ_cons in H.
  pose proof (Hn j ltac:(set_solver)). pose proof (sumZ_nonneg f l ltac:(set_solver)).
  apply elem_of_cons in Hi as [->|Hi]; [lia|]. apply IH; [set_solver|lia|done].
Qed.

(** ** The least index with a property *)

Lemma least_nat (P : nat → Prop) `{∀ n, Decision (P n)} (n : nat) :
  P n → ∃ d, (d ≤ n)%nat ∧ P d ∧ ∀ d', (d' < d)%nat → ¬ P d'.
Proof.
  induction n as [n IH] using lt_wf_ind. intros Hn.
  destruct (decide (Exists P (seq 0 n))) as [(m & Hm & HP)%Exists_exists|Hno].
  - apply elem_of_seq in Hm. destruct (IH m ltac:(lia) HP) as (d & ? & ? & ?). exists d. split_and!; [lia|done..].
  - exists n. split_and!; [lia|done|]. intros d' Hd' HP. apply Hno. apply Exists_exists.
    exists d'. split; [|done]. apply elem_of_seq. lia.
Qed.

Lemma b2z_range (b : bool) : 0 ≤ Z.b2z b ≤ 1.
Proof. destruct b; simpl; lia. Qed.

Lemma b2z_mono (a b : bool) : (a = true → b = true) → Z.b2z a ≤ Z.b2z b.
Proof. destruct a, b; simpl; intros H; lia || (by discriminate H). Qed.

(** ** math/bits *)

(** [bits.Len]: the number of bits needed for [x]. *)
Definition bitsLen (x : Z) : Z := if x <=? 0 then 0 else Z.log2 x + 1.

(** [1 << bits.Len(uint(n-1))] is the least power of two that is at least [n]. *)
Lemma bitsLen_ceil n : 1 ≤ n → n ≤ 2 ^ bitsLen (n - 1) ∧ (1 < n → 2 ^ bitsLen (n - 1) < 2 * n).
Proof.
  intros Hn. unfold bitsLen. destruct (Z.leb_spec (n - 1) 0); [simpl; lia|].
  pose proof (Z.log2_spec (n - 1) ltac:(lia)) as [H1 H2]. rewrite Z.pow_succ_r in H2 by apply Z.log2_nonneg.
  rewrite Z.pow_add_r by (try apply Z.log2_nonneg; lia). lia.
Qed.

Lemma bitsLen_nonneg x : 0 ≤ bitsLen x.
Proof. unfold bitsLen. destruct (Z.leb_spec x 0); [lia|]. pose proof (Z.log2_nonneg x). lia. Qed.
