(* ===== verification/Item.v ===== *)
(** * The item: an atomic meta word and its entry (internal/itemstore/item.go)

    The 64-bit meta word packs a tombstone bit, a unary two-bit reference counter, a free bit, an
    18-bit expiration offset, a 14-bit tag and a 28-bit generation.  This file models every
    operation on it as a function on the item and proves what each one does to each field.  The
    atomic operations ([Load], [Store], [Or], [And], [CompareAndSwap]) are here single steps of one
    goroutine; Seqlock.v interleaves them. *)

From S2P Require Import Prelude.

(** ** The layout of the meta word *)

Definition Dead : Z := Z.shiftl 1 63.
Definition SecondChance : Z := Z.shiftl 1 62.
Definition ThirdChance : Z := Z.shiftl 1 61.
Definition ChanceMask : Z := Z.lor SecondChance ThirdChance.
Definition Free : Z := Z.shiftl 1 60.
Definition ExpireShift : Z := 42.
Definition ExpireMask : Z := Z.shiftl (Z.shiftl 1 18 - 1) ExpireShift.
Definition ExpireWrapMask : Z := Z.shiftl 1 18 - 1.
Definition ExpireMax : Z := Z.shiftl 1 17 - 1.
Definition TagShift : Z := 28.
Definition TagMask : Z := Z.shiftl (Z.shiftl 1 14 - 1) TagShift.
Definition DeadOrTag : Z := Z.lor Dead TagMask.
Definition GenMask : Z := Z.shiftl 1 28 - 1.
Definition AliveGenMask : Z := Z.lor Dead GenMask.

(** [hash >> 14 << TagShift & TagMask], on [uint64]. *)
Definition TagOf (hash : Z) : Z :=
  Z.land (u64 (Z.shiftl (Z.shiftr hash 14) TagShift)) TagMask.

Record Entry (K V : Type) := mkEntry { Key : K; Value : V }.
Arguments mkEntry {K V}.
Arguments Key {K V}.
Arguments Value {K V}.

Record Item (K V : Type) := mkItem { meta : Z; entry : Entry K V }.
Arguments mkItem {K V}.
Arguments meta {K V}.
Arguments entry {K V}.

Definition liveGen (gen : Z) : Z :=
  let gen := Z.land gen GenMask in
  if gen =? 0 then 2 else gen.

Definition Reusable (metaWord : Z) : bool :=
  Z.land metaWord (Z.lor Dead Free) =? Z.lor Dead Free.

(** The TTL test: offsets live on a wrapping 18-bit scale. *)
Definition Expired (metaWord nowOff : Z) : bool :=
  let expireOff := u32 (Z.shiftr (Z.land metaWord ExpireMask) ExpireShift) in
  if expireOff =? 0 then false
  else
    let diff := Z.land (u32 (expireOff - nowOff)) ExpireWrapMask in
    (diff =? 0) || (ExpireMax <? diff).

Section Operations.
Context {K V : Type} `{!GoType K} `{!GoType V}.
Implicit Types (s : Item K V).

Definition zeroEntry : Entry K V := mkEntry go_zero go_zero.

(** A slot as [make([]Item, n)] leaves it. *)
Definition zeroItem : Item K V := mkItem 0 zeroEntry.

Definition Metadata s : Z := meta s.

Definition Gen s : Z := u32 (Z.land (meta s) GenMask).

(** [SnapshotInto]: the copy and whether the word read after it validates it.  [s] is the item as
    the copy and the second load find it; Seqlock.v lets a writer run between the two. *)
Definition SnapshotInto s (metaWord : Z) : Entry K V * bool :=
  (entry s,
   (Z.land (Z.lxor (meta s) metaWord) AliveGenMask =? 0) && (Z.land metaWord 1 =? 0)).

Definition Publish s (e : Entry K V) (tag expireOff : Z) : Item K V :=
  mkItem
    (Z.lor (Z.lor (u64 (Z.shiftl expireOff ExpireShift)) tag)
           (liveGen (Z.ldiff (u64 (meta s + 2)) 1)))
    e.

Definition MakeFree s : Item K V := mkItem (Z.lor (meta s) Free) zeroEntry.

Definition beginWrite s : Item K V :=
  mkItem (Z.lor (Z.ldiff (meta s) GenMask) (Z.land (u64 (meta s + 1)) GenMask)) (entry s).

Definition endWrite s : Item K V :=
  mkItem (Z.lor (Z.ldiff (meta s) GenMask) (liveGen (u64 (meta s + 1)))) (entry s).

Definition storeValue s (value : V) : Item K V :=
  mkItem (meta s) (mkEntry (Key (entry s)) value).

(** A value of more than one machine word is written between the two generation steps. *)
Definition SetValue s (value : V) : Item K V :=
  if 8 <? go_sizeof (A := V) then endWrite (storeValue (beginWrite s) value)
  else storeValue s value.

Definition TouchWith s (metaWord : Z) : Item K V :=
  if Z.land metaWord SecondChance =? 0 then mkItem (Z.lor (meta s) SecondChance) (entry s)
  else if Z.land metaWord ThirdChance =? 0 then mkItem (Z.lor (meta s) ThirdChance) (entry s)
  else s.

(** [And(^mask)] on a [uint64] clears the bits of [mask]. *)
Definition RevokeChance s (metaWord : Z) : Item K V :=
  if negb (Z.land metaWord ThirdChance =? 0) then mkItem (Z.ldiff (meta s) ThirdChance) (entry s)
  else mkItem (Z.ldiff (meta s) SecondChance) (entry s).

Definition ResetChances s : Item K V := mkItem (Z.ldiff (meta s) ChanceMask) (entry s).

(** The new item, and whether this call made the alive -> dead transition. *)
Definition Kill s : Item K V * bool :=
  (mkItem (Z.lor (meta s) Dead) (entry s), Z.land (meta s) Dead =? 0).

Definition RefreshExpire s (expireOff : Z) : Item K V :=
  mkItem (Z.lor (Z.ldiff (meta s) ExpireMask) (u64 (Z.shiftl expireOff ExpireShift))) (entry s).

(** One compare-and-swap: the item is unchanged and the answer false when the word moved. *)
Definition TouchAndRefreshExpire s (metaWord expireOff : Z) : Item K V * bool :=
  let newWord := Z.lor (Z.ldiff metaWord ExpireMask) (u64 (Z.shiftl expireOff ExpireShift)) in
  let newWord :=
    if Z.land metaWord SecondChance =? 0 then Z.lor newWord SecondChance
    else if Z.land metaWord ThirdChance =? 0 then Z.lor newWord ThirdChance
    else newWord in
  if meta s =? metaWord then (mkItem newWord (entry s), true) else (s, false).

End Operations.

(** ** The fields of a meta word

    [decode] reads a word back as the record the layout comment draws; [encode] packs it.  Every
    operation is specified below by what it does to the record. *)

Record Fields := mkFields {
  f_dead : bool; f_second : bool; f_third : bool; f_free : bool;
  f_expire : Z; f_tag : Z; f_gen : Z
}.

Definition decode (m : Z) : Fields := {|
  f_dead := Z.testbit m 63; f_second := Z.testbit m 62; f_third := Z.testbit m 61;
  f_free := Z.testbit m 60;
  f_expire := Z.land (Z.shiftr m 42) (Z.ones 18);
  f_tag := Z.land (Z.shiftr m 28) (Z.ones 14);
  f_gen := Z.land m (Z.ones 28) |}.

Definition bit (b : bool) (s : Z) : Z := if b then Z.shiftl 1 s else 0.

Definition encode (f : Fields) : Z :=
  Z.lor (bit (f_dead f) 63) (Z.lor (bit (f_second f) 62) (Z.lor (bit (f_third f) 61)
    (Z.lor (bit (f_free f) 60) (Z.lor (Z.shiftl (f_expire f) 42)
      (Z.lor (Z.shiftl (f_tag f) 28) (f_gen f)))))).

Definition fields_ok (f : Fields) : Prop :=
  0 ≤ f_expire f < 2 ^ 18 ∧ 0 ≤ f_tag f < 2 ^ 14 ∧ 0 ≤ f_gen f < 2 ^ 28.

(** The field-level meaning of the generation step of [Publish]. *)
Definition nextGen (g : Z) : Z :=
  let g' := Z.ldiff ((g + 2) mod 2 ^ 28) 1 in if g' =? 0 then 2 else g'.

Lemma testbit_bit b s i : 0 ≤ s → Z.testbit (bit b s) i = b && (i =? s).
Proof.
  intros Hs. destruct b; simpl; [by apply testbit_single | apply Z.testbit_0_l].
Qed.

Lemma testbit_Dead i : Z.testbit Dead i = (i =? 63).
Proof. by apply testbit_single. Qed.

Lemma testbit_SecondChance i : Z.testbit SecondChance i = (i =? 62).
Proof. by apply testbit_single. Qed.

Lemma testbit_ThirdChance i : Z.testbit ThirdChance i = (i =? 61).
Proof. by apply testbit_single. Qed.

Lemma testbit_ChanceMask i : Z.testbit ChanceMask i = (i =? 62) || (i =? 61).
Proof.
  unfold ChanceMask. by rewrite Z.lor_spec, testbit_SecondChance, testbit_ThirdChance.
Qed.

Lemma testbit_Free i : Z.testbit Free i = (i =? 60).
Proof. by apply testbit_single. Qed.

Lemma testbit_ExpireMask i : 0 ≤ i → Z.testbit ExpireMask i = (42 <=? i) && (i <? 60).
Proof. intros. by apply (testbit_shiftl_ones 18 42). Qed.

Lemma testbit_TagMask i : 0 ≤ i → Z.testbit TagMask i = (28 <=? i) && (i <? 42).
Proof. intros. by apply (testbit_shiftl_ones 14 28). Qed.

Lemma testbit_GenMask i : 0 ≤ i → Z.testbit GenMask i = (i <? 28).
Proof. intros. by rewrite (Z.testbit_ones_nonneg 28). Qed.

#[export] Hint Rewrite testbit_Dead testbit_SecondChance testbit_ThirdChance testbit_ChanceMask
  testbit_Free : bits.
#[export] Hint Rewrite testbit_ExpireMask testbit_TagMask testbit_GenMask testbit_bit
  Z.testbit_ones_nonneg using lia : bits.

Lemma Fields_eq f g :
  f_dead f = f_dead g → f_second f = f_second g → f_third f = f_third g → f_free f = f_free g →
  f_expire f = f_expire g → f_tag f = f_tag g → f_gen f = f_gen g → f = g.
Proof. destruct f, g. simpl. congruence. Qed.

Lemma decode_ok m : fields_ok (decode m).
Proof. unfold fields_ok. simpl. rewrite !Z.land_ones by lia. repeat split; apply Z.mod_pos_bound; lia. Qed.

Lemma decode_encode f : fields_ok f → decode (encode f) = f.
Proof.
  intros (He & Ht & Hg).
  apply narrow_intro in He, Ht, Hg; [|lia..].
  apply Fields_eq; simpl; unfold encode; [bitwise_core..|bitwise|bitwise|bitwise].
Qed.

Lemma encode_decode m : is_u64 m → encode (decode m) = m.
Proof.
  intros Hm. apply narrow_intro in Hm; [|lia]. unfold encode, decode; simpl. bitwise.
Qed.

(** ** What each operation does to the fields *)

Lemma land_u64_gen (x : Z) : Z.land (u64 x) GenMask = x mod 2 ^ 28.
Proof.
  change GenMask with (Z.ones 28). rewrite Z.land_ones by lia. unfold u64.
  apply Z.mod_mod_divide. by exists (2 ^ 36).
Qed.

Lemma gen_add (m c : Z) : Z.land (u64 (m + c)) GenMask = (f_gen (decode m) + c) mod 2 ^ 28.
Proof.
  rewrite land_u64_gen. simpl. rewrite Z.land_ones by lia. by rewrite Zplus_mod_idemp_l.
Qed.

Lemma ldiff1_land_gen (x : Z) : Z.land (Z.ldiff x 1) GenMask = Z.ldiff (Z.land x GenMask) 1.
Proof.
  apply Z.bits_inj'. intros i Hi. rewrite !Z.land_spec, !Z.ldiff_spec, Z.land_spec. btauto.
Qed.

Lemma ldiff_le (a b : Z) : 0 ≤ a → 0 ≤ Z.ldiff a b ≤ a.
Proof.
  intros Ha. assert (0 ≤ Z.ldiff a b) by (apply Z.ldiff_nonneg; lia). split; [done|].
  apply Z.ldiff_le; [done|]. bitwise.
Qed.

Lemma nextGen_range g : 0 < nextGen g < 2 ^ 28.
Proof.
  unfold nextGen. cbv zeta.
  pose proof (ldiff_le ((g + 2) mod 2 ^ 28) 1 ltac:(apply Z.mod_pos_bound; lia)).
  pose proof (Z.mod_pos_bound (g + 2) (2 ^ 28) ltac:(lia)).
  destruct (Z.eqb_spec (Z.ldiff ((g + 2) mod 2 ^ 28) 1) 0); lia.
Qed.

Lemma liveGen_publish (m : Z) :
  liveGen (Z.ldiff (u64 (m + 2)) 1) = nextGen (f_gen (decode m)).
Proof. unfold liveGen, nextGen. cbv zeta. by rewrite ldiff1_land_gen, gen_add. Qed.

Lemma decode_word (e t g : Z) :
  0 ≤ e < 2 ^ 18 → 0 ≤ t < 2 ^ 14 → 0 ≤ g < 2 ^ 28 →
  decode (Z.lor (Z.lor (u64 (Z.shiftl e ExpireShift)) (Z.shiftl t 28)) g) =
    mkFields false false false false e t g.
Proof.
  intros He Ht Hg.
  rewrite <- (decode_encode (mkFields false false false false e t g)) by done.
  f_equal. unfold encode; simpl. rewrite !Z.lor_0_l, Z.lor_assoc.
  unfold u64. rewrite Z.mod_small; [done|].
  unfold ExpireShift. rewrite Z.shiftl_mul_pow2 by lia. lia.
Qed.

Lemma TagOf_shift (h : Z) : TagOf h = Z.shiftl (Z.land (Z.shiftr h 14) (Z.ones 14)) 28.
Proof.
  unfold TagOf, u64, TagShift. rewrite <- Z.land_ones by lia. bitwise.
Qed.

Lemma land_ones_range (x w : Z) : 0 ≤ w → 0 ≤ Z.land x (Z.ones w) < 2 ^ w.
Proof. intros. rewrite Z.land_ones by done. apply Z.mod_pos_bound. apply Z.pow_pos_nonneg; lia. Qed.

Section FieldSpecs.
Context {K V : Type} `{!GoType K} `{!GoType V}.
Implicit Types (s : Item K V).

Lemma Publish_fields s e h expireOff :
  0 ≤ expireOff < 2 ^ 18 →
  decode (meta (Publish s e (TagOf h) expireOff)) =
    mkFields false false false false expireOff (Z.land (Z.shiftr h 14) (Z.ones 14))
      (nextGen (f_gen (decode (meta s)))).
Proof.
  intros He. simpl meta. rewrite liveGen_publish, TagOf_shift. apply decode_word; [done| |].
  - apply (land_ones_range _ 14). lia.
  - pose proof (nextGen_range (f_gen (decode (meta s)))). lia.
Qed.

Lemma Kill_fields s :
  decode (meta (Kill s).1) =
    let f := decode (meta s) in
    mkFields true (f_second f) (f_third f) (f_free f) (f_expire f) (f_tag f) (f_gen f).
Proof. apply Fields_eq; simpl; [bitwise_core..|bitwise|bitwise|bitwise]. Qed.

Lemma MakeFree_fields s :
  decode (meta (MakeFree s)) =
    let f := decode (meta s) in
    mkFields (f_dead f) (f_second f) (f_third f) true (f_expire f) (f_tag f) (f_gen f).
Proof. apply Fields_eq; simpl; [bitwise_core..|bitwise|bitwise|bitwise]. Qed.

Lemma ResetChances_fields s :
  decode (meta (ResetChances s)) =
    let f := decode (meta s) in
    mkFields (f_dead f) false false (f_free f) (f_expire f) (f_tag f) (f_gen f).
Proof. apply Fields_eq; simpl; [bitwise_core..|bitwise|bitwise|bitwise]. Qed.

Lemma RefreshExpire_fields s expireOff :
  0 ≤ expireOff < 2 ^ 18 →
  decode (meta (RefreshExpire s expireOff)) =
    let f := decode (meta s) in
    mkFields (f_dead f) (f_second f) (f_third f) (f_free f) expireOff (f_tag f) (f_gen f).
Proof.
  intros He. unfold RefreshExpire, u64, ExpireShift.
  rewrite Z.mod_small by (rewrite Z.shiftl_mul_pow2 by lia; lia).
  apply narrow_intro in He; [|lia].
  apply Fields_eq; simpl; [bitwise_core..|bitwise|bitwise|bitwise].
Qed.

Lemma or_second_fields m :
  decode (Z.lor m SecondChance) =
    let f := decode m in
    mkFields (f_dead f) true (f_third f) (f_free f) (f_expire f) (f_tag f) (f_gen f).
Proof. apply Fields_eq; simpl; [bitwise_core..|bitwise|bitwise|bitwise]. Qed.

Lemma or_third_fields m :
  decode (Z.lor m ThirdChance) =
    let f := decode m in
    mkFields (f_dead f) (f_second f) true (f_free f) (f_expire f) (f_tag f) (f_gen f).
Proof. apply Fields_eq; simpl; [bitwise_core..|bitwise|bitwise|bitwise]. Qed.

Lemma diff_second_fields m :
  decode (Z.ldiff m SecondChance) =
    let f := decode m in
    mkFields (f_dead f) false (f_third f) (f_free f) (f_expire f) (f_tag f) (f_gen f).
Proof. apply Fields_eq; simpl; [bitwise_core..|bitwise|bitwise|bitwise]. Qed.

Lemma diff_third_fields m :
  decode (Z.ldiff m ThirdChance) =
    let f := decode m in
    mkFields (f_dead f) (f_second f) false (f_free f) (f_expire f) (f_tag f) (f_gen f).
Proof. apply Fields_eq; simpl; [bitwise_core..|bitwise|bitwise|bitwise]. Qed.

Lemma TouchWith_fields s :
  decode (meta (TouchWith s (meta s))) =
    let f := decode (meta s) in
    mkFields (f_dead f) true (f_third f || f_second f) (f_free f) (f_expire f) (f_tag f) (f_gen f).
Proof.
  unfold TouchWith, SecondChance, ThirdChance. rewrite !land_single_eqb0 by lia.
  destruct (Z.testbit (meta s) 62) eqn:E2; simpl negb; cbv iota.
  - destruct (Z.testbit (meta s) 61) eqn:E1; simpl negb; cbv iota.
    + apply Fields_eq; simpl; try done; by rewrite ?E1, ?E2.
    + simpl meta. rewrite or_third_fields. apply Fields_eq; simpl; try done; by rewrite ?E1, ?E2.
  - simpl meta. rewrite or_second_fields. apply Fields_eq; simpl; try done; by rewrite ?E2, ?orb_false_r.
Qed.

(** The number of chances left: the unary counter's value on its states 00, 10 and 11. *)
Definition chances (m : Z) : nat :=
  (if Z.testbit m 62 then 1 else 0) + (if Z.testbit m 61 then 1 else 0).

Lemma RevokeChance_fields s :
  decode (meta (RevokeChance s (meta s))) =
    let f := decode (meta s) in
    mkFields (f_dead f) (f_second f && f_third f) false (f_free f) (f_expire f) (f_tag f) (f_gen f).
Proof.
  unfold RevokeChance, ThirdChance. rewrite land_single_eqb0, negb_involutive by lia.
  destruct (Z.testbit (meta s) 61) eqn:E1; cbv iota; simpl meta.
  - change (Z.shiftl 1 61) with ThirdChance. rewrite diff_third_fields.
    apply Fields_eq; simpl; try done. by rewrite E1, andb_true_r.
  - rewrite diff_second_fields. apply Fields_eq; simpl; try done; by rewrite E1, ?andb_false_r.
Qed.

Lemma RevokeChance_entry s m : entry (RevokeChance s m) = entry s.
Proof. unfold RevokeChance. by case_match. Qed.

Lemma TouchWith_entry s m : entry (TouchWith s m) = entry s.
Proof. unfold TouchWith. by repeat case_match. Qed.

Lemma has_chance m : negb (Z.land m ChanceMask =? 0) = Z.testbit m 62 || Z.testbit m 61.
Proof.
  destruct (Z.eqb_spec (Z.land m ChanceMask) 0) as [E|E]; simpl.
  - assert (∀ i, 0 ≤ i → Z.testbit (Z.land m ChanceMask) i = false) as H
      by (intros; by rewrite E, Z.testbit_0_l).
    pose proof (H 62 ltac:(lia)) as H2. pose proof (H 61 ltac:(lia)) as H1.
    rewrite Z.land_spec, testbit_ChanceMask, andb_true_r in H1, H2. by rewrite H1, H2.
  - symmetry. apply not_false_iff_true. intros [H2 H1]%orb_false_iff.
    apply E. bitwise; by rewrite ?H2, ?H1.
Qed.

Lemma RevokeChance_chances s :
  (Z.land (meta s) ChanceMask =? 0) = false →
  chances (meta s) = S (chances (meta (RevokeChance s (meta s)))).
Proof.
  intros H. pose proof (has_chance (meta s)) as Hc. rewrite H in Hc. simpl in Hc.
  pose proof (RevokeChance_fields s) as Hf. unfold chances.
  assert (E2 := f_equal f_second Hf). assert (E1 := f_equal f_third Hf). simpl in E1, E2.
  rewrite E1, E2. by destruct (Z.testbit (meta s) 62), (Z.testbit (meta s) 61).
Qed.

Lemma set_gen_fields m g :
  0 ≤ g < 2 ^ 28 →
  decode (Z.lor (Z.ldiff m GenMask) g) =
    let f := decode m in
    mkFields (f_dead f) (f_second f) (f_third f) (f_free f) (f_expire f) (f_tag f) g.
Proof.
  intros Hg. apply narrow_intro in Hg; [|lia].
  apply Fields_eq; simpl; [bitwise_core..|bitwise|bitwise|bitwise].
Qed.

Lemma liveGen_range g : 0 < liveGen g < 2 ^ 28.
Proof.
  unfold liveGen. cbv zeta. change GenMask with (Z.ones 28). pose proof (land_ones_range g 28).
  destruct (Z.eqb_spec (Z.land g (Z.ones 28)) 0); lia.
Qed.

Lemma liveGen_mod a b : a mod 2 ^ 28 = b mod 2 ^ 28 → liveGen a = liveGen b.
Proof.
  intros H. unfold liveGen. cbv zeta. change GenMask with (Z.ones 28).
  by rewrite !Z.land_ones, H by lia.
Qed.

Lemma beginWrite_fields s :
  decode (meta (beginWrite s)) =
    let f := decode (meta s) in
    mkFields (f_dead f) (f_second f) (f_third f) (f_free f) (f_expire f) (f_tag f)
      ((f_gen f + 1) mod 2 ^ 28).
Proof.
  simpl meta. rewrite gen_add. apply set_gen_fields. apply Z.mod_pos_bound. lia.
Qed.

Lemma endWrite_fields s :
  decode (meta (endWrite s)) =
    let f := decode (meta s) in
    mkFields (f_dead f) (f_second f) (f_third f) (f_free f) (f_expire f) (f_tag f)
      (liveGen (f_gen f + 1)).
Proof.
  simpl meta. rewrite set_gen_fields by (pose proof (liveGen_range (u64 (meta s + 1))); lia).
  cbv zeta. f_equal. apply liveGen_mod.
  rewrite <- Z.land_ones by lia. apply gen_add.
Qed.

Lemma SetValue_fields s v :
  decode (meta (SetValue s v)) =
    let f := decode (meta s) in
    mkFields (f_dead f) (f_second f) (f_third f) (f_free f) (f_expire f) (f_tag f)
      (if 8 <? go_sizeof (A := V) then liveGen (f_gen f + 2) else f_gen f).
Proof.
  unfold SetValue. destruct (8 <? go_sizeof); [|by apply Fields_eq].
  rewrite endWrite_fields. assert (decode (meta (storeValue (beginWrite s) v)) = decode (meta (beginWrite s))) as -> by done.
  rewrite beginWrite_fields. cbv zeta. simpl. f_equal. apply liveGen_mod.
  rewrite Zplus_mod_idemp_l. f_equal. lia.
Qed.

Lemma SetValue_entry s v : entry (SetValue s v) = mkEntry (Key (entry s)) v.
Proof. unfold SetValue. by case_match. Qed.

(** The lock-free touch with a TTL refresh, on a word that did not move since it was loaded. *)
Lemma TouchAndRefreshExpire_fields s expireOff :
  0 ≤ expireOff < 2 ^ 18 →
  decode (meta (TouchAndRefreshExpire s (meta s) expireOff).1) =
    let f := decode (meta s) in
    mkFields (f_dead f) true (f_third f || f_second f) (f_free f) expireOff (f_tag f) (f_gen f).
Proof.
  intros He. unfold TouchAndRefreshExpire. rewrite Z.eqb_refl. simpl fst.
  change (Z.lor (Z.ldiff (meta s) ExpireMask) (u64 (Z.shiftl expireOff ExpireShift)))
    with (meta (RefreshExpire s expireOff)).
  unfold SecondChance, ThirdChance. rewrite !land_single_eqb0 by lia.
  change (Z.shiftl 1 62) with SecondChance. change (Z.shiftl 1 61) with ThirdChance.
  destruct (Z.testbit (meta s) 62) eqn:E2; [destruct (Z.testbit (meta s) 61) eqn:E1|];
    cbn [negb meta];
    rewrite ?or_second_fields, ?or_third_fields, RefreshExpire_fields by done;
    apply Fields_eq; simpl; try done; by rewrite ?E1, ?E2, ?orb_false_r.
Qed.

End FieldSpecs.

(** ** The code's tests on a loaded word, read on the fields *)

Definition tagBits (h : Z) : Z := Z.land (Z.shiftr h 14) (Z.ones 14).

Lemma dead_test m : negb (Z.land m Dead =? 0) = f_dead (decode m).
Proof. unfold Dead. by rewrite land_single_eqb0, negb_involutive by lia. Qed.

Lemma alive_test m : (Z.land m Dead =? 0) = negb (f_dead (decode m)).
Proof. rewrite <- dead_test. by rewrite negb_involutive. Qed.

Lemma eqb_iff (a b c d : Z) : (a = b ↔ c = d) → (a =? b) = (c =? d).
Proof. intros H. destruct (Z.eqb_spec a b), (Z.eqb_spec c d); tauto. Qed.

Lemma eqb_and_iff (a b c d : Z) (p : bool) :
  (a = b ↔ p = true ∧ c = d) → (a =? b) = p && (c =? d).
Proof. intros H. destruct (Z.eqb_spec a b), (Z.eqb_spec c d), p; simpl; intuition congruence. Qed.

Lemma Reusable_fields m : Reusable m = f_dead (decode m) && f_free (decode m).
Proof.
  unfold Reusable. simpl.
  destruct (Z.eqb_spec (Z.land m (Z.lor Dead Free)) (Z.lor Dead Free)) as [E|E].
  - pose proof (f_equal (λ x, Z.testbit x 63) E) as E1.
    pose proof (f_equal (λ x, Z.testbit x 60) E) as E2. simpl in E1, E2.
    autorewrite with bits in E1, E2. simpl in E1, E2. rewrite andb_true_r in E1, E2. by rewrite E1, E2.
  - symmetry. apply not_true_iff_false. intros [H1 H2]%andb_true_iff. apply E.
    bitwise; by rewrite ?H1, ?H2.
Qed.

Lemma tag_word m : Z.land m TagMask = Z.shiftl (f_tag (decode m)) 28.
Proof. simpl. bitwise. Qed.

Lemma shiftl_inj (a b s : Z) : 0 ≤ s → Z.shiftl a s = Z.shiftl b s → a = b.
Proof.
  intros Hs H. rewrite !Z.shiftl_mul_pow2 in H by done.
  pose proof (Z.pow_pos_nonneg 2 s). nia.
Qed.

Lemma tag_test m h :
  (Z.land m TagMask =? Z.land (TagOf h) TagMask) = (f_tag (decode m) =? tagBits h).
Proof.
  assert (Z.land (TagOf h) TagMask = TagOf h) as ->.
  { unfold TagOf. by rewrite <- Z.land_assoc, Z.land_diag. }
  rewrite tag_word, TagOf_shift. apply eqb_iff. split; [by apply shiftl_inj | by intros ->].
Qed.

Lemma candidate_test m h :
  (Z.land m DeadOrTag =? TagOf h) = negb (f_dead (decode m)) && (f_tag (decode m) =? tagBits h).
Proof.
  apply eqb_and_iff. rewrite TagOf_shift. fold (tagBits h).
  assert (narrow (tagBits h) 14) as Hn.
  { apply narrow_intro; [lia|]. by apply land_ones_range. }
  unfold DeadOrTag. rewrite Z.land_lor_distr_r, tag_word.
  assert (narrow (f_tag (decode m)) 14) as Hn'.
  { apply narrow_intro; [lia|]. apply decode_ok. }
  generalize dependent (f_tag (decode m)). intros t Hn'. split.
  - intros E. pose proof (f_equal (λ x, Z.testbit x 63) E) as E1. simpl in E1.
    autorewrite with bits in E1. simpl in E1.
    rewrite andb_true_r, Hn, Hn', orb_false_r in E1 by lia.
    split; [by simpl; rewrite E1|]. apply (shiftl_inj _ _ 28); [lia|]. rewrite <- E.
    change Dead with (Z.shiftl 1 63). by rewrite land_single, E1, Z.lor_0_l by lia.
  - intros [H1 ->]. change Dead with (Z.shiftl 1 63). apply negb_true_iff in H1. simpl in H1.
    by rewrite land_single, H1, Z.lor_0_l by lia.
Qed.

(** ** Words stay in range, generations stay even and non-zero *)

Definition gen_good (m : Z) : Prop :=
  f_gen (decode m) ≠ 0 ∧ Z.even (f_gen (decode m)) = true.

(** A meta word is the empty 0, or carries a non-zero even generation. *)
Definition gen_ok (m : Z) : Prop := m = 0 ∨ gen_good m.

Lemma gen_good_nonzero m : gen_good m → m ≠ 0.
Proof. intros [H _] ->. by apply H. Qed.

Lemma gen_ok_good m : gen_ok m → m ≠ 0 → gen_good m.
Proof. by intros [?|?] ?. Qed.

Lemma gen_good_same m m' : f_gen (decode m') = f_gen (decode m) → gen_good m → gen_good m'.
Proof. unfold gen_good. by intros ->. Qed.

Lemma lor_u64 a b : is_u64 a → is_u64 b → is_u64 (Z.lor a b).
Proof.
  intros Ha Hb. assert (0 ≤ Z.lor a b) by (apply Z.lor_nonneg; unfold is_u64 in *; lia).
  split; [done|]. apply narrow_intro in Ha, Hb; [|lia..]. apply lt_pow2_bits; [done|lia|].
  intros i Hi. by rewrite Z.lor_spec, Ha, Hb.
Qed.

Lemma ldiff_u64 a b : is_u64 a → is_u64 (Z.ldiff a b).
Proof. intros Ha. pose proof (ldiff_le a b ltac:(unfold is_u64 in *; lia)). unfold is_u64 in *. lia. Qed.

Lemma u64_u64 x : is_u64 (u64 x).
Proof. unfold is_u64, u64. apply Z.mod_pos_bound. lia. Qed.

Lemma small_u64 x n : 0 ≤ x < 2 ^ n → n ≤ 64 → is_u64 x.
Proof. intros Hx Hn. unfold is_u64. pose proof (Z.pow_le_mono_r 2 n 64). lia. Qed.

#[export] Hint Resolve lor_u64 ldiff_u64 u64_u64 : words.
#[export] Hint Extern 1 (is_u64 Dead) => done : words.
#[export] Hint Extern 1 (is_u64 Free) => done : words.
#[export] Hint Extern 1 (is_u64 SecondChance) => done : words.
#[export] Hint Extern 1 (is_u64 ThirdChance) => done : words.

Lemma TagOf_u64 h : is_u64 (TagOf h).
Proof.
  rewrite TagOf_shift. pose proof (land_ones_range (Z.shiftr h 14) 14 ltac:(lia)).
  unfold is_u64. rewrite Z.shiftl_mul_pow2 by lia. lia.
Qed.

Lemma liveGen_u64 g : is_u64 (liveGen g).
Proof. pose proof (liveGen_range g). apply (small_u64 _ 28); lia. Qed.

#[export] Hint Resolve TagOf_u64 liveGen_u64 : words.

Lemma even_mod_pow2 x : Z.even (x mod 2 ^ 28) = Z.even x.
Proof.
  rewrite <- !Z.negb_odd, <- !Z.bit0_odd. f_equal. by rewrite Z.mod_pow2_bits_low by lia.
Qed.

Lemma nextGen_even g : Z.even (nextGen g) = true.
Proof.
  unfold nextGen. cbv zeta. case_match; [done|].
  by rewrite <- Z.negb_odd, <- Z.bit0_odd, Z.ldiff_spec, andb_false_r.
Qed.

Lemma liveGen_even g : Z.even g = true → Z.even (liveGen g) = true.
Proof.
  intros Hg. unfold liveGen. cbv zeta. case_match; [done|].
  change GenMask with (Z.ones 28). by rewrite Z.land_ones, even_mod_pow2 by lia.
Qed.

Section Preservation.
Context {K V : Type} `{!GoType K} `{!GoType V}.
Implicit Types (s : Item K V).

Lemma Publish_u64 s e h x : is_u64 (meta (Publish s e (TagOf h) x)).
Proof. simpl. auto 6 with words. Qed.

Lemma Publish_gen s e h x :
  0 ≤ x < 2 ^ 18 → gen_good (meta (Publish s e (TagOf h) x)).
Proof.
  intros Hx. unfold gen_good. rewrite Publish_fields by done. simpl.
  pose proof (nextGen_range (Z.land (meta s) (Z.ones 28))). split; [lia|apply nextGen_even].
Qed.

Lemma Kill_u64 s : is_u64 (meta s) → is_u64 (meta (Kill s).1).
Proof. simpl. auto with words. Qed.

Lemma Kill_gen s : gen_good (meta s) → gen_good (meta (Kill s).1).
Proof. apply gen_good_same. by rewrite Kill_fields. Qed.

Lemma MakeFree_u64 s : is_u64 (meta s) → is_u64 (meta (MakeFree s)).
Proof. simpl. auto with words. Qed.

Lemma MakeFree_gen s : gen_good (meta s) → gen_good (meta (MakeFree s)).
Proof. apply gen_good_same. by rewrite MakeFree_fields. Qed.

Lemma SetValue_u64 s v : is_u64 (meta s) → is_u64 (meta (SetValue s v)).
Proof.
  intros Hs. unfold SetValue. case_match; [|done]. simpl meta.
  apply lor_u64; [|auto with words]. apply ldiff_u64, lor_u64; [auto with words|].
  change GenMask with (Z.ones 28). apply (small_u64 _ 28); [by apply land_ones_range|lia].
Qed.

Lemma SetValue_gen s v : gen_good (meta s) → gen_good (meta (SetValue s v)).
Proof.
  intros [Hn He]. unfold gen_good. rewrite SetValue_fields. cbv zeta. cbn [f_gen].
  destruct (8 <? go_sizeof); [|done]. pose proof (liveGen_range (f_gen (decode (meta s)) + 2)).
  split; [lia|]. apply liveGen_even. by rewrite Z.even_add, He.
Qed.

Lemma RefreshExpire_u64 s x : is_u64 (meta s) → is_u64 (meta (RefreshExpire s x)).
Proof. simpl. auto with words. Qed.

Lemma RefreshExpire_gen s x : 0 ≤ x < 2 ^ 18 → gen_good (meta s) → gen_good (meta (RefreshExpire s x)).
Proof. intros Hx. apply gen_good_same. by rewrite RefreshExpire_fields. Qed.

Lemma TouchWith_u64 s m : is_u64 (meta s) → is_u64 (meta (TouchWith s m)).
Proof. unfold TouchWith. repeat case_match; simpl; auto with words. Qed.

Lemma TouchAndRefreshExpire_u64 s x :
  is_u64 (meta s) → is_u64 (meta (TouchAndRefreshExpire s (meta s) x).1).
Proof.
  intros Hs. unfold TouchAndRefreshExpire. rewrite Z.eqb_refl. cbv zeta. repeat case_match; simpl; auto with words.
Qed.

Lemma RevokeChance_u64 s m : is_u64 (meta s) → is_u64 (meta (RevokeChance s m)).
Proof. unfold RevokeChance. case_match; simpl; auto with words. Qed.

Lemma ResetChances_u64 s : is_u64 (meta s) → is_u64 (meta (ResetChances s)).
Proof. simpl. auto with words. Qed.

End Preservation.
