(* ===== verification/Queue.v ===== *)
(** * The chunked FIFO queue of eviction nodes (internal/itemstore/queue.go)

    A queue is a chain of 127-node chunks with a read index into the first and a write index into
    the last.  [contents] reads it as a plain list; every operation is proved to be the obvious list
    operation, so the policies are verified against lists only. *)

From S2P Require Import Prelude.

Definition queueChunkSize : nat := 127.
#[global] Arguments queueChunkSize : simpl never.

Record QNode := mkQNode { Idx : Z; Cost : Z }.

#[global] Instance QNode_eq_dec : EqDecision QNode.
Proof. solve_decision. Defined.

Definition zeroNode : QNode := mkQNode 0 0.

(** The chain [head -> next -> ... -> tail] as a list; [nil] pointers are the empty list. *)
Record EvictQueue := mkQueue {
  chunks : list (list QNode);
  headIdx : nat;
  tailIdx : nat;
  qsize : nat
}.

Definition emptyQueue : EvictQueue := mkQueue [] 0 0 0.

Definition newChunk : list QNode := replicate queueChunkSize zeroNode.

(** A store through the [tail] pointer. *)
Fixpoint alterTail (f : list QNode → list QNode) (l : list (list QNode)) : list (list QNode) :=
  match l with
  | [] => []
  | [c] => [f c]
  | c :: l' => c :: alterTail f l'
  end.

Definition qLen (q : EvictQueue) : nat := qsize q.

(** [unsafe.Sizeof(queueChunk{})] is 127 nodes of 8 bytes and the next pointer. *)
Definition qBytes (q : EvictQueue) : Z := Z.of_nat (length (chunks q)) * 1024.

Definition Push (q : EvictQueue) (item : QNode) : EvictQueue :=
  let '(cs, ti) :=
    match chunks q with
    | [] => ([newChunk], tailIdx q)
    | _ :: _ =>
      if Nat.eqb (tailIdx q) queueChunkSize then (chunks q ++ [newChunk], 0%nat)
      else (chunks q, tailIdx q)
    end in
  mkQueue (alterTail (λ c, <[ti := item]> c) cs) (headIdx q) (S ti) (S (qsize q)).

Definition Peek (q : EvictQueue) : option QNode :=
  if Nat.eqb (qsize q) 0 then None
  else match chunks q with
  | [] => None
  | c :: _ => c !! headIdx q
  end.

(** [None] is [(QNode{}, false)].  A non-empty queue has a head chunk ([queue_wf]), so the [None]
    of the second match is never taken. *)
Definition Pop (q : EvictQueue) : EvictQueue * option QNode :=
  if Nat.eqb (qsize q) 0 then (q, None)
  else match chunks q with
  | [] => (q, None)
  | c :: cs =>
    let popped := c !! headIdx q in
    let c := <[headIdx q := zeroNode]> c in
    let hi := S (headIdx q) in
    let sz := pred (qsize q) in
    let '(cs, hi, ti) :=
      if Nat.eqb hi queueChunkSize
      then (cs, 0%nat, match cs with [] => 0%nat | _ => tailIdx q end)
      else (c :: cs, hi, tailIdx q) in
    let '(hi, ti) :=
      if Nat.eqb sz 0 && negb (match cs with [] => true | _ => false end)
      then (0%nat, 0%nat) else (hi, ti) in
    (mkQueue cs hi ti sz, popped)
  end.

(** [Range] in FIFO order: the nodes [f] is called on. *)
Fixpoint rangeChunks (start tail : nat) (cs : list (list QNode)) : list QNode :=
  match cs with
  | [] => []
  | [c] => drop start (take tail c)
  | c :: cs' => drop start (take queueChunkSize c) ++ rangeChunks 0 tail cs'
  end.

Definition qRange (q : EvictQueue) : list QNode := rangeChunks (headIdx q) (tailIdx q) (chunks q).

Section Rotations.
Context {A : Type}.

(** The bodies of [SweepQueue] and [RebuildQueue]: [n] is the loop counter, [a] the state the
    callbacks act on (the item table, and what else they capture). *)
Fixpoint sweepLoop (n : nat) (dead : A → Z → bool) (onDrop : A → QNode → A)
    (q : EvictQueue) (a : A) : EvictQueue * A :=
  match n with
  | O => (q, a)
  | S n =>
    match Pop q with
    | (q, None) => (q, a)
    | (q, Some node) =>
      if dead a (Idx node) then sweepLoop n dead onDrop q (onDrop a node)
      else sweepLoop n dead onDrop (Push q node) a
    end
  end.

Definition SweepQueue (dead : A → Z → bool) (onDrop : A → QNode → A)
    (q : EvictQueue) (a : A) : EvictQueue * A :=
  sweepLoop (qsize q) dead onDrop q a.

Fixpoint rebuildLoop (n : nat) (remap : A → Z → A * option Z) (onDrop : A → QNode → A)
    (q : EvictQueue) (a : A) : EvictQueue * A :=
  match n with
  | O => (q, a)
  | S n =>
    match Pop q with
    | (q, None) => (q, a)
    | (q, Some node) =>
      match remap a (Idx node) with
      | (a, Some newIdx) =>
        rebuildLoop n remap onDrop (Push q (mkQNode newIdx (Cost node))) a
      | (a, None) => rebuildLoop n remap onDrop q (onDrop a node)
      end
    end
  end.

Definition RebuildQueue (remap : A → Z → A * option Z) (onDrop : A → QNode → A)
    (q : EvictQueue) (a : A) : EvictQueue * A :=
  rebuildLoop (qsize q) remap onDrop q a.

End Rotations.

(** ** The abstraction *)

Definition contents (q : EvictQueue) : list QNode :=
  take (qsize q) (drop (headIdx q) (concat (chunks q))).

Definition queue_wf (q : EvictQueue) : Prop :=
  Forall (λ c, length c = queueChunkSize) (chunks q) ∧
  match chunks q with
  | [] => headIdx q = 0%nat ∧ tailIdx q = 0%nat ∧ qsize q = 0%nat
  | _ :: cs =>
    (headIdx q < queueChunkSize)%nat ∧ (tailIdx q ≤ queueChunkSize)%nat ∧
    (headIdx q + qsize q = queueChunkSize * length cs + tailIdx q)%nat
  end.

Ltac qlia := unfold queueChunkSize in *; lia.

Lemma concat_length_chunks (cs : list (list QNode)) :
  Forall (λ c, length c = queueChunkSize) cs →
  length (concat cs) = (queueChunkSize * length cs)%nat.
Proof. induction 1 as [|c cs Hc Hcs IH]; [done|]. simpl. rewrite length_app, IH, Hc. qlia. Qed.

Lemma alterTail_app (f : list QNode → list QNode) cs c : alterTail f (cs ++ [c]) = cs ++ [f c].
Proof.
  induction cs as [|d cs IH]; [done|]. simpl. rewrite IH.
  destruct cs; done.
Qed.

Lemma concat_alterTail (cs : list (list QNode)) c (i : nat) (x : QNode) :
  Forall (λ c, length c = queueChunkSize) cs →
  concat (alterTail (λ c, <[i := x]> c) (cs ++ [c])) =
    <[(queueChunkSize * length cs + i)%nat := x]> (concat (cs ++ [c])).
Proof.
  intros Hcs. rewrite alterTail_app, !concat_app. cbn [concat]. rewrite !app_nil_r.
  rewrite <- (concat_length_chunks cs Hcs). symmetry. apply insert_app_r.
Qed.

Lemma take_drop_snoc {A} (l : list A) (h s : nat) (x : A) :
  (h + s < length l)%nat →
  take (S s) (drop h (<[(h + s)%nat := x]> l)) = take s (drop h l) ++ [x].
Proof.
  intros Hl. rewrite drop_insert_ge by lia. replace (h + s - h)%nat with s by lia.
  rewrite (take_S_r _ _ x); [f_equal; apply take_insert_ge; lia|].
  apply list_lookup_insert_eq. rewrite length_drop. lia.
Qed.

(** The chain [Push] writes into: a last chunk with room at the write index. *)
Definition pushChunks (q : EvictQueue) : list (list QNode) * nat :=
  match chunks q with
  | [] => ([newChunk], tailIdx q)
  | _ :: _ =>
    if Nat.eqb (tailIdx q) queueChunkSize then (chunks q ++ [newChunk], 0%nat)
    else (chunks q, tailIdx q)
  end.

Lemma take_drop_app {A} (l k : list A) (h s : nat) :
  (h + s ≤ length l)%nat → take s (drop h (l ++ k)) = take s (drop h l).
Proof.
  intros Hl. rewrite drop_app_le by lia. apply take_app_le. rewrite length_drop. lia.
Qed.

Lemma pushChunks_spec q :
  queue_wf q →
  ∃ cs c, (pushChunks q).1 = cs ++ [c] ∧ Forall (λ c, length c = queueChunkSize) (cs ++ [c]) ∧
    (headIdx q < queueChunkSize)%nat ∧ ((pushChunks q).2 < queueChunkSize)%nat ∧
    (headIdx q + qsize q = queueChunkSize * length cs + (pushChunks q).2)%nat ∧
    contents q = take (qsize q) (drop (headIdx q) (concat (cs ++ [c]))).
Proof.
  intros [Hall Hwf]. unfold pushChunks, contents.
  assert (length newChunk = queueChunkSize) as Hn by apply length_replicate.
  destruct (chunks q) as [|c0 cs0] eqn:E.
  - destruct Hwf as (Hh & Ht & Hs). exists [], newChunk. rewrite Hh, Ht, Hs. simpl.
    split_and!; try done; try qlia. by repeat constructor.
  - destruct Hwf as (Hh & Ht & Heq). destruct (Nat.eqb_spec (tailIdx q) queueChunkSize) as [E'|E']; cbn [fst snd].
    + exists (c0 :: cs0), newChunk. split_and!; try done; try qlia.
      * apply (Forall_app _ (c0 :: cs0)). split; [done|]. by constructor.
      * cbn [length] in *. qlia.
      * rewrite concat_app. rewrite take_drop_app; [done|].
        rewrite (concat_length_chunks _ Hall). simpl length. qlia.
    + destruct (exists_last (l := c0 :: cs0)) as (cs & c & Hcs); [done|].
      exists cs, c. rewrite <- Hcs. split_and!; try done; try qlia.
      apply (f_equal length) in Hcs. rewrite length_app in Hcs. simpl in Hcs. qlia.
Qed.

Lemma Push_spec q x :
  queue_wf q → queue_wf (Push q x) ∧ contents (Push q x) = contents q ++ [x].
Proof.
  intros Hwf. pose proof (pushChunks_spec q Hwf) as (cs & c & Ecs & Hall & Hh & Ht & Heq & Hc).
  assert (Push q x = mkQueue (alterTail (λ c, <[(pushChunks q).2 := x]> c) (cs ++ [c]))
    (headIdx q) (S (pushChunks q).2) (S (qsize q))) as ->.
  { rewrite <- Ecs. unfold Push, pushChunks. destruct (chunks q); [done|].
    by destruct (Nat.eqb (tailIdx q) queueChunkSize). }
  apply Forall_app in Hall as Hall2. destruct Hall2 as [Hcs Hc1].
  split.
  - unfold queue_wf. simpl. rewrite alterTail_app. split.
    + apply Forall_app. split; [done|]. constructor; [|done].
      rewrite length_insert. by inversion Hc1.
    + destruct (cs ++ [<[(pushChunks q).2:=x]> c]) as [|d ds] eqn:E; [by destruct cs|].
      apply (f_equal length) in E. rewrite length_app in E. simpl in E. qlia.
  - rewrite Hc. unfold contents; simpl. rewrite concat_alterTail by done.
    rewrite <- Heq. apply take_drop_snoc.
    rewrite (concat_length_chunks _ Hall), length_app. simpl. qlia.
Qed.

Lemma drop_insert_head {A} (l : list A) (h : nat) (x : A) : drop (S h) (<[h := x]> l) = drop (S h) l.
Proof. apply drop_insert_lt. lia. Qed.

Lemma take_drop_uncons {A} (l : list A) (h s : nat) (x : A) :
  l !! h = Some x → take (S s) (drop h l) = x :: take s (drop (S h) l).
Proof. intros Hx. by rewrite (drop_S _ x h). Qed.

Lemma Pop_nil q : qsize q = 0%nat → Pop q = (q, None) ∧ contents q = [].
Proof. intros H. unfold Pop, contents. by rewrite H. Qed.

Lemma reset_wf q :
  queue_wf q → qsize q = 0%nat → chunks q ≠ [] → queue_wf (mkQueue (chunks q) 0 0 0).
Proof.
  intros [Hall Hwf] Hs Hne. split; [done|]. simpl.
  destruct (chunks q) as [|c cs]; [done|]. destruct Hwf as (Hh & Ht & Heq). qlia.
Qed.

(** The first half of [Pop]: past the head node, before the reset of a drained queue. *)
Definition advance (q : EvictQueue) (c : list QNode) (cs : list (list QNode)) : EvictQueue :=
  if Nat.eqb (S (headIdx q)) queueChunkSize
  then mkQueue cs 0 (match cs with [] => 0%nat | _ => tailIdx q end) (pred (qsize q))
  else mkQueue (<[headIdx q := zeroNode]> c :: cs) (S (headIdx q)) (tailIdx q) (pred (qsize q)).

Lemma advance_spec q c cs :
  queue_wf q → chunks q = c :: cs → qsize q ≠ 0%nat →
  ∃ x, c !! headIdx q = Some x ∧ queue_wf (advance q c cs) ∧
    contents q = x :: contents (advance q c cs).
Proof.
  intros [Hall Hwf] E Hs. rewrite E in *. destruct Hwf as (Hh & Ht & Heq).
  inversion Hall as [|? ? Hc Hcs]; subst.
  destruct (lookup_lt_is_Some_2 c (headIdx q)) as [x Hx]; [qlia|].
  exists x. split; [done|]. unfold contents, advance. rewrite E.
  destruct (qsize q) as [|sz] eqn:Esz; [done|]. cbn [pred concat].
  rewrite (take_drop_uncons _ _ _ x) by (by apply lookup_app_l_Some).
  destruct (Nat.eqb_spec (S (headIdx q)) queueChunkSize) as [Eh|Eh]; cbn [chunks headIdx tailIdx qsize].
  - split; [|rewrite drop_app_length' by qlia; done].
    split; [done|]. cbn [chunks headIdx tailIdx qsize]. destruct cs as [|c' cs']; simpl in *; qlia.
  - split; [split|].
    + constructor; [by rewrite length_insert|done].
    + cbn [chunks headIdx tailIdx qsize]. qlia.
    + f_equal. simpl concat. rewrite !drop_app_le by (rewrite ?length_insert; qlia).
      by rewrite drop_insert_head.
Qed.

Lemma Pop_spec q :
  queue_wf q → qsize q ≠ 0%nat →
  ∃ x q', Pop q = (q', Some x) ∧ queue_wf q' ∧ contents q = x :: contents q' ∧
    qsize q = S (qsize q').
Proof.
  intros Hwf Hs. destruct (chunks q) as [|c cs] eqn:E.
  { destruct Hwf as [_ Hwf]. rewrite E in Hwf. lia. }
  destruct (advance_spec q c cs Hwf E Hs) as (x & Hx & Hwf' & Hc).
  set (q1 := advance q c cs) in *.
  exists x, (if Nat.eqb (qsize q1) 0 && negb (match chunks q1 with [] => true | _ => false end)
             then mkQueue (chunks q1) 0 0 (qsize q1) else q1).
  assert (qsize q = S (qsize q1)) as Hsz by (subst q1; unfold advance; case_match; simpl; lia).
  split_and!.
  - unfold Pop. destruct (Nat.eqb_spec (qsize q) 0) as [|_]; [done|]. rewrite E, Hx.
    subst q1. unfold advance. destruct (Nat.eqb (S (headIdx q)) queueChunkSize);
      cbn [chunks headIdx tailIdx qsize]; [destruct cs|];
      destruct (Nat.eqb (pred (qsize q)) 0); done.
  - case_match eqn:B; [|done]. apply andb_true_iff in B as [B1 B2]. apply Nat.eqb_eq in B1.
    rewrite B1. apply reset_wf; [done..|]. by destruct (chunks q1).
  - rewrite Hc. f_equal. case_match eqn:B; [|done]. apply andb_true_iff in B as [B1 _].
    apply Nat.eqb_eq in B1. unfold contents; simpl. by rewrite B1.
  - by case_match.
Qed.

Lemma contents_length q : queue_wf q → length (contents q) = qsize q.
Proof.
  intros [Hall Hwf]. unfold contents. rewrite length_take, length_drop.
  rewrite (concat_length_chunks _ Hall). destruct (chunks q) as [|c cs]; simpl length; qlia.
Qed.

Lemma emptyQueue_wf : queue_wf emptyQueue.
Proof. by repeat split. Qed.

Lemma Peek_spec q : queue_wf q → Peek q = head (contents q).
Proof.
  intros Hwf. unfold Peek. destruct (Nat.eqb_spec (qsize q) 0) as [E|E].
  { by destruct (Pop_nil q E) as [_ ->]. }
  destruct (chunks q) as [|c cs] eqn:Ec.
  { destruct Hwf as [_ Hwf]. rewrite Ec in Hwf. lia. }
  destruct (advance_spec q c cs Hwf Ec E) as (x & Hx & _ & ->). done.
Qed.

(** The queue as the policies use it: one rewrite rule per operation. *)
Lemma Pop_contents q :
  queue_wf q →
  match contents q with
  | [] => Pop q = (q, None)
  | x :: l => ∃ q', Pop q = (q', Some x) ∧ queue_wf q' ∧ contents q' = l
  end.
Proof.
  intros Hwf. destruct (decide (qsize q = 0%nat)) as [E|E].
  - by destruct (Pop_nil q E) as [-> ->].
  - destruct (Pop_spec q Hwf E) as (x & q' & -> & Hq' & -> & _). eauto.
Qed.

Section RotationSpecs.
Context {A : Type}.

(** The list versions of the two rotations. *)
Fixpoint sweepList (dead : A → Z → bool) (onDrop : A → QNode → A) (l : list QNode) (a : A)
    : list QNode * A :=
  match l with
  | [] => ([], a)
  | x :: l =>
    if dead a (Idx x) then sweepList dead onDrop l (onDrop a x)
    else let '(k, a) := sweepList dead onDrop l a in (x :: k, a)
  end.

Fixpoint rebuildList (remap : A → Z → A * option Z) (onDrop : A → QNode → A) (l : list QNode)
    (a : A) : list QNode * A :=
  match l with
  | [] => ([], a)
  | x :: l =>
    match remap a (Idx x) with
    | (a, Some i) =>
      let '(k, a) := rebuildList remap onDrop l a in (mkQNode i (Cost x) :: k, a)
    | (a, None) => rebuildList remap onDrop l (onDrop a x)
    end
  end.

Lemma sweepLoop_spec dead onDrop (l : list QNode) : ∀ q (a : A) k,
  queue_wf q → contents q = l ++ k →
  ∃ q', sweepLoop (length l) dead onDrop q a = (q', (sweepList dead onDrop l a).2) ∧ queue_wf q' ∧
    contents q' = k ++ (sweepList dead onDrop l a).1.
Proof.
  induction l as [|x l IH]; intros q a k Hwf Hc; simpl.
  { exists q. by rewrite app_nil_r. }
  pose proof (Pop_contents q Hwf) as Hp. rewrite Hc in Hp. simpl in Hp.
  destruct Hp as (q1 & -> & Hwf1 & Hc1). destruct (dead a (Idx x)); [by apply IH|].
  destruct (Push_spec q1 x Hwf1) as [Hwf2 Hc2].
  destruct (IH (Push q1 x) a (k ++ [x])) as (q' & -> & Hwf' & Hc'); [done| |].
  { by rewrite Hc2, Hc1, app_assoc. }
  exists q'. destruct (sweepList dead onDrop l a) as [k' a'] eqn:E; simpl in *.
  split_and!; [done..|]. by rewrite Hc', <- app_assoc.
Qed.

Lemma SweepQueue_spec dead onDrop q (a : A) :
  queue_wf q →
  ∃ q', SweepQueue dead onDrop q a = (q', (sweepList dead onDrop (contents q) a).2) ∧
    queue_wf q' ∧ contents q' = (sweepList dead onDrop (contents q) a).1.
Proof.
  intros Hwf. unfold SweepQueue. rewrite <- (contents_length q Hwf).
  apply (sweepLoop_spec dead onDrop (contents q) q a []); [done|]. by rewrite app_nil_r.
Qed.

Lemma rebuildLoop_spec remap onDrop (l : list QNode) : ∀ q (a : A) k,
  queue_wf q → contents q = l ++ k →
  ∃ q', rebuildLoop (length l) remap onDrop q a = (q', (rebuildList remap onDrop l a).2) ∧
    queue_wf q' ∧ contents q' = k ++ (rebuildList remap onDrop l a).1.
Proof.
  induction l as [|x l IH]; intros q a k Hwf Hc; simpl.
  { exists q. by rewrite app_nil_r. }
  pose proof (Pop_contents q Hwf) as Hp. rewrite Hc in Hp. simpl in Hp.
  destruct Hp as (q1 & -> & Hwf1 & Hc1). destruct (remap a (Idx x)) as [a1 [i|]]; [|by apply IH].
  destruct (Push_spec q1 (mkQNode i (Cost x)) Hwf1) as [Hwf2 Hc2].
  destruct (IH (Push q1 (mkQNode i (Cost x))) a1 (k ++ [mkQNode i (Cost x)]))
    as (q' & -> & Hwf' & Hc'); [done| |].
  { by rewrite Hc2, Hc1, app_assoc. }
  exists q'. destruct (rebuildList remap onDrop l a1) as [k' a'] eqn:E; simpl in *.
  split_and!; [done..|]. by rewrite Hc', <- app_assoc.
Qed.

Lemma RebuildQueue_spec remap onDrop q (a : A) :
  queue_wf q →
  ∃ q', RebuildQueue remap onDrop q a = (q', (rebuildList remap onDrop (contents q) a).2) ∧
    queue_wf q' ∧ contents q' = (rebuildList remap onDrop (contents q) a).1.
Proof.
  intros Hwf. unfold RebuildQueue. rewrite <- (contents_length q Hwf).
  apply (rebuildLoop_spec remap onDrop (contents q) q a []); [done|]. by rewrite app_nil_r.
Qed.

End RotationSpecs.

Lemma rangeChunks_spec cs : ∀ c h t,
  Forall (λ c, length c = queueChunkSize) (c :: cs) → (h ≤ queueChunkSize)%nat →
  (t ≤ queueChunkSize)%nat →
  rangeChunks h t (c :: cs) =
    take (queueChunkSize * length cs + t - h) (drop h (concat (c :: cs))).
Proof.
  induction cs as [|c' cs IH]; intros c h t Hall Hh Ht; inversion Hall as [|? ? Hc Hcs]; subst.
  - cbn [rangeChunks concat length]. rewrite app_nil_r. destruct (decide (h ≤ t)%nat).
    + rewrite take_drop_commute. f_equal. f_equal. qlia.
    + rewrite drop_ge by (rewrite length_take; lia). symmetry. apply length_zero_iff_nil.
      rewrite length_take, length_drop. qlia.
  - change (rangeChunks h t (c :: c' :: cs))
      with (drop h (take queueChunkSize c) ++ rangeChunks 0 t (c' :: cs)).
    rewrite IH by (done || qlia). rewrite (take_ge c) by qlia. cbn [concat length] in *.
    rewrite (drop_app_le c) by qlia. rewrite (take_app_ge (drop h c)) by (rewrite length_drop; qlia).
    f_equal. rewrite length_drop, drop_0. f_equal. qlia.
Qed.

(** [Range] visits exactly the queued nodes, in FIFO order. *)
Lemma qRange_spec q : queue_wf q → qRange q = contents q.
Proof.
  intros [Hall Hwf]. unfold qRange, contents. destruct (chunks q) as [|c cs].
  - destruct Hwf as (_ & _ & ->). done.
  - destruct Hwf as (Hh & Ht & Heq). rewrite rangeChunks_spec by (done || lia). f_equal. lia.
Qed.

Section SweepFilter.
Context {A : Type} (I : A → Prop) (dead : A → Z → bool) (onDrop : A → QNode → A).
Hypothesis drop_ok : ∀ a x, I a → I (onDrop a x) ∧ ∀ j, dead (onDrop a x) j = dead a j.

(** When dropping a node changes nobody's deadness, a sweep is a partition. *)
Lemma sweepList_filter l : ∀ a,
  I a →
  sweepList dead onDrop l a =
    (filter (λ n, dead a (Idx n) = false) l,
     foldl onDrop a (filter (λ n, dead a (Idx n) = true) l)).
Proof using A I dead drop_ok onDrop.
  induction l as [|x l IH]; intros a Ha; [done|]. simpl sweepList. rewrite !filter_cons.
  destruct (dead a (Idx x)) eqn:E.
  - rewrite decide_False by done. rewrite decide_True by done. simpl.
    destruct (drop_ok a x Ha) as [Ha' Hd]. rewrite IH by done. f_equal.
    + apply list_filter_iff. intros n. by rewrite Hd.
    + f_equal. apply list_filter_iff. intros n. by rewrite Hd.
  - rewrite decide_True by done. rewrite decide_False by done. by rewrite IH.
Qed.

End SweepFilter.

Lemma rebuildList_app {A} (remap : A → Z → A * option Z) onDrop l k (a : A) :
  rebuildList remap onDrop (l ++ k) a =
    ((rebuildList remap onDrop l a).1 ++
       (rebuildList remap onDrop k (rebuildList remap onDrop l a).2).1,
     (rebuildList remap onDrop k (rebuildList remap onDrop l a).2).2).
Proof.
  revert a. induction l as [|x l IH]; intros a; simpl; [by destruct (rebuildList _ _ k a)|].
  destruct (remap a (Idx x)) as [a' [i|]]; [|apply IH].
  rewrite IH. by destruct (rebuildList remap onDrop l a').
Qed.
