(* ===== verification/Table.v ===== *)
(** * The slot table (internal/itemstore/map.go)

    [FlatHashMap] is an open-addressing table whose slots are the items themselves, in one run or in
    64Ki chunks, with a per-group count of the keys that live past their home group.  The two
    layouts are proved to be one flat array, and the probe loop of the cache gets one rule,
    [probe_spec], used by every lookup and insert. *)

From S2P Require Import Prelude Item.

Definition groupShift : Z := 3.
Definition chunkShift : Z := 16.
Definition chunkSlots : Z := Z.shiftl 1 chunkShift.
Definition chunkMask : Z := chunkSlots - 1.
Definition MaxItems : Z := Z.shiftl 3 30.

#[global] Arguments chunkSlots : simpl never.

Record FlatHashMap (K V : Type) := mkTable {
  short : list (Item K V);
  tchunks : list (list (Item K V));
  overflows : list Z;
  mask : Z
}.
Arguments mkTable {K V}.
Arguments short {K V}.
Arguments tchunks {K V}.
Arguments overflows {K V}.
Arguments mask {K V}.

(** ** The loop [for pos := home; ; pos++ { body }]

    [body] answers [inr r] where the source returns or breaks, [inl s] where it goes on with the
    loop's local state [s]; [None] is a loop cut short by its fuel. *)
Fixpoint probe {S R : Type} (fuel : nat) (body : S → Z → S + R) (s : S) (pos : Z) : option R :=
  match fuel with
  | O => None
  | Datatypes.S fuel =>
    match body s pos with
    | inl s => probe fuel body s (u32 (pos + 1))
    | inr r => Some r
    end
  end.

Section Operations.
Context {K V : Type} `{!GoType K} `{!GoType V}.
Implicit Types (t : FlatHashMap K V) (it : Item K V).

Definition NewFlatHashMap (itemCount : Z) : FlatHashMap K V :=
  let over := replicate (Z.to_nat (Z.shiftr itemCount groupShift)) 0 in
  if itemCount <=? chunkSlots
  then mkTable (replicate (Z.to_nat itemCount) zeroItem) [] over (u32 (itemCount - 1))
  else mkTable []
    (replicate (Z.to_nat (Z.shiftr itemCount chunkShift))
       (replicate (Z.to_nat chunkSlots) zeroItem)) over (u32 (itemCount - 1)).

(** [At] resolves any probe position.  The index is in range on every well-formed table
    ([table_shape]), so the default is never read there. *)
Definition At t (idx : Z) : Item K V :=
  let idx := Z.land idx (mask t) in
  if mask t <? chunkSlots
  then default zeroItem (short t !! Z.to_nat idx)
  else default zeroItem
    (default [] (tchunks t !! Z.to_nat (Z.shiftr idx chunkShift))
       !! Z.to_nat (Z.land idx chunkMask)).

(** A method call through the pointer [At] returns. *)
Definition alterAt t (idx : Z) (f : Item K V → Item K V) : FlatHashMap K V :=
  let idx := Z.land idx (mask t) in
  if mask t <? chunkSlots
  then mkTable (alter f (Z.to_nat idx) (short t)) (tchunks t) (overflows t) (mask t)
  else mkTable (short t)
    (alter (alter f (Z.to_nat (Z.land idx chunkMask))) (Z.to_nat (Z.shiftr idx chunkShift))
       (tchunks t)) (overflows t) (mask t).

Definition Home t (hash : Z) : Z := Z.land (u32 (Z.shiftr hash 32)) (mask t).

Definition Wrap t (pos : Z) : Z := Z.land pos (mask t).

(** The group of a position: the index [overflowAt] turns into an address. *)
Definition groupOf t (pos : Z) : Z := Z.shiftr (Z.land pos (mask t)) groupShift.

Definition overflowAt t (home : Z) : Z := default 0 (overflows t !! Z.to_nat (groupOf t home)).

(** [overflowAt(home).Add(delta)], an atomic [uint32]. *)
Definition addOverflow t (home delta : Z) : FlatHashMap K V :=
  mkTable (short t) (tchunks t)
    (alter (λ c, u32 (c + delta)) (Z.to_nat (groupOf t home)) (overflows t)) (mask t).

Definition Overflowed t (home : Z) : bool := negb (overflowAt t home =? 0).

Definition NoteDisplaced t (home pos : Z) : FlatHashMap K V :=
  if negb (groupOf t home =? groupOf t pos) then addOverflow t home 1 else t.

(** [^uint32(0)] is [2^32 - 1]. *)
Definition ForgetDisplaced t (home pos : Z) : FlatHashMap K V :=
  if negb (groupOf t home =? groupOf t pos) then addOverflow t home (2 ^ 32 - 1) else t.

Definition tLen t : Z := mask t + 1.

(** The footprint: the struct (the two slice headers, the pointer and the padded mask), the chunk
    pointers, the items and the group counters. *)
Definition tBytes t (itemSize : Z) : Z :=
  64 + Z.of_nat (length (tchunks t)) * 8 + tLen t * itemSize + Z.shiftr (tLen t) groupShift * 4.

(** [InsertFresh]: the first empty slot from the key's home takes the copy.  The answer is [None]
    only when the table has no empty slot. *)
Definition InsertFresh t (keyHash : Z) (src : Item K V) : option (FlatHashMap K V * Z) :=
  let home := Home t keyHash in
  probe (Z.to_nat (tLen t))
    (λ (_ : unit) pos,
       if meta (At t pos) =? 0
       then inr (NoteDisplaced (alterAt t pos (λ _, mkItem (meta src) (entry src))) home pos,
                 Z.land pos (mask t))
       else inl tt) tt home.

End Operations.

(** ** The rule of the probe loop *)

Lemma probe_spec {S R} (body : S → Z → S + R) (I : Z → S → Prop) (Q : R → Prop) (N fuel : nat) s pos :
  (N ≤ fuel)%nat → I 0 s →
  (∀ d s, 0 ≤ d < Z.of_nat N → I d s →
    match body s (u32 (pos + d)) with inl s' => I (d + 1) s' | inr r => Q r end) →
  (∀ s, ¬ I (Z.of_nat N) s) → is_u32 pos →
  ∃ r, probe fuel body s pos = Some r ∧ Q r.
Proof.
  intros Hf HI Hstep Hend Hpos.
  assert (∀ k d s, Z.of_nat k + d = Z.of_nat N → 0 ≤ d → I d s →
    ∃ r, probe (fuel - Z.to_nat d) body s (u32 (pos + d)) = Some r ∧ Q r) as H.
  { intros k. induction k as [|k IH]; intros d s' Hk Hd HI'.
    - replace d with (Z.of_nat N) in HI' by lia. by apply Hend in HI'.
    - replace (fuel - Z.to_nat d)%nat with (Datatypes.S (fuel - Z.to_nat (d + 1))) by lia.
      simpl. specialize (Hstep d s' ltac:(lia) HI').
      destruct (body s' (u32 (pos + d))) as [s''|r]; [|eauto].
      destruct (IH (d + 1) s'' ltac:(lia) ltac:(lia) Hstep) as (r & Hr & HQ).
      exists r. split; [|done]. rewrite <- Hr. f_equal. unfold u32.
      rewrite Zplus_mod_idemp_l. f_equal. lia. }
  destruct (H N 0 s) as (r & Hr & HQ); [lia|lia|done|].
  exists r. split; [|done]. rewrite <- Hr. simpl. f_equal; [lia|].
  unfold u32. rewrite Z.add_0_r, Z.mod_small; done.
Qed.

(** ** Shape: the two layouts are one array *)

Section Shape.
Context {K V : Type} `{!GoType K} `{!GoType V}.
Implicit Types (t : FlatHashMap K V).

(** A table of [2^k] slots, between the 64 of a new shard and the whole [uint32] index space. *)
Definition table_shape t : Prop :=
  ∃ k : Z, 6 ≤ k ≤ 32 ∧ mask t = 2 ^ k - 1 ∧
    Z.of_nat (length (overflows t)) = 2 ^ (k - 3) ∧
    if mask t <? chunkSlots then Z.of_nat (length (short t)) = 2 ^ k
    else Forall (λ c, Z.of_nat (length c) = chunkSlots) (tchunks t) ∧
         Z.of_nat (length (tchunks t)) = 2 ^ (k - 16).

Definition flat t : list (Item K V) :=
  if mask t <? chunkSlots then short t else concat (tchunks t).

Lemma lookup_concat_chunks {A} (n : nat) (ls : list (list A)) (i j : nat) :
  Forall (λ c, length c = n) ls → (j < n)%nat →
  concat ls !! (i * n + j)%nat = (default [] (ls !! i)) !! j.
Proof.
  intros H Hj. revert i. induction H as [|l ls Hl Hls IH]; intros i; [by destruct i|].
  destruct i as [|i]; simpl.
  - by rewrite lookup_app_l by lia.
  - rewrite lookup_app_r by lia. rewrite <- IH. f_equal. lia.
Qed.

Lemma alter_concat_chunks {A} (f : A → A) (n : nat) (ls : list (list A)) (i j : nat) :
  Forall (λ c, length c = n) ls → (j < n)%nat →
  concat (alter (alter f j) i ls) = alter f (i * n + j)%nat (concat ls).
Proof.
  intros H Hj. revert i. induction H as [|l ls Hl Hls IH]; intros i; [by destruct i|].
  destruct i as [|i].
  - cbn. symmetry. apply alter_app_l. lia.
  - change (l ++ concat (alter (alter f j) i ls) = alter f (S i * n + j)%nat (l ++ concat ls)).
    rewrite IH. rewrite alter_app_r_alt by lia. do 2 f_equal. lia.
Qed.

Lemma tLen_pow t k : mask t = 2 ^ k - 1 → tLen t = 2 ^ k.
Proof. unfold tLen. lia. Qed.

Lemma Wrap_mod t pos : table_shape t → Wrap t pos = pos mod tLen t.
Proof.
  intros (k & Hk & Hm & _). unfold Wrap. rewrite (tLen_pow t k Hm), Hm. apply land_mod_pow2. lia.
Qed.

Lemma tLen_pos t : table_shape t → 64 ≤ tLen t ≤ 2 ^ 32.
Proof.
  intros (k & Hk & Hm & _). rewrite (tLen_pow t k Hm).
  pose proof (Z.pow_le_mono_r 2 6 k). pose proof (Z.pow_le_mono_r 2 k 32). lia.
Qed.

Lemma tLen_divides t : table_shape t → (tLen t | 2 ^ 32).
Proof.
  intros (k & Hk & Hm & _). rewrite (tLen_pow t k Hm). exists (2 ^ (32 - k)).
  rewrite <- Z.pow_add_r by lia. f_equal. lia.
Qed.

Lemma Wrap_range t pos : table_shape t → 0 ≤ Wrap t pos < tLen t.
Proof. intros Hs. rewrite Wrap_mod by done. apply Z.mod_pos_bound. pose proof (tLen_pos t Hs). lia. Qed.

Lemma Wrap_u32 t pos : table_shape t → Wrap t (u32 pos) = Wrap t pos.
Proof. intros Hs. rewrite !Wrap_mod by done. unfold u32. by apply Z.mod_mod_divide, tLen_divides. Qed.

Lemma chunk_split (idx : Z) :
  0 ≤ idx →
  Z.to_nat idx = (Z.to_nat (Z.shiftr idx chunkShift) * Z.to_nat chunkSlots +
                  Z.to_nat (Z.land idx chunkMask))%nat ∧
  (Z.to_nat (Z.land idx chunkMask) < Z.to_nat chunkSlots)%nat.
Proof.
  intros Hi. change chunkMask with (2 ^ 16 - 1). change chunkSlots with (2 ^ 16).
  unfold chunkShift. rewrite land_mod_pow2, Z.shiftr_div_pow2 by lia.
  pose proof (Z.div_pos idx (2 ^ 16) Hi ltac:(lia)).
  pose proof (Z.mod_pos_bound idx (2 ^ 16) ltac:(lia)).
  pose proof (Z.div_mod idx (2 ^ 16) ltac:(lia)).
  split; [|lia]. rewrite <- Z2Nat.inj_mul, <- Z2Nat.inj_add by lia. f_equal. lia.
Qed.

Lemma At_flat t idx : table_shape t → At t idx = default zeroItem (flat t !! Z.to_nat (Wrap t idx)).
Proof.
  intros Hs. pose proof (Wrap_range t idx Hs) as Hr. destruct Hs as (k & Hk & Hm & _ & Hl).
  unfold At, flat. fold (Wrap t idx). destruct (mask t <? chunkSlots); [done|].
  destruct Hl as [Hc _]. destruct (chunk_split (Wrap t idx)) as [E Hlt]; [lia|].
  rewrite E. rewrite lookup_concat_chunks; [done| |done].
  eapply Forall_impl; [exact Hc|]. simpl. intros; lia.
Qed.

Lemma flat_alterAt t idx f :
  table_shape t → flat (alterAt t idx f) = alter f (Z.to_nat (Wrap t idx)) (flat t).
Proof.
  intros Hs. pose proof (Wrap_range t idx Hs) as Hr. destruct Hs as (k & Hk & Hm & _ & Hl).
  unfold alterAt, flat. fold (Wrap t idx). destruct (mask t <? chunkSlots) eqn:E; simpl mask; rewrite E; [done|].
  destruct Hl as [Hc _]. destruct (chunk_split (Wrap t idx)) as [E' Hlt]; [lia|].
  simpl tchunks. rewrite E'. apply alter_concat_chunks; [|done].
  eapply Forall_impl; [exact Hc|]. simpl. intros; lia.
Qed.

Lemma mask_alterAt t idx f : mask (alterAt t idx f) = mask t.
Proof. unfold alterAt. by case_match. Qed.

Lemma Wrap_alterAt t idx f pos : Wrap (alterAt t idx f) pos = Wrap t pos.
Proof. unfold Wrap. by rewrite mask_alterAt. Qed.

Lemma overflows_alterAt t idx f : overflows (alterAt t idx f) = overflows t.
Proof. unfold alterAt. by case_match. Qed.

Lemma shape_alterAt t idx f : table_shape t → table_shape (alterAt t idx f).
Proof.
  intros (k & Hk & Hm & Ho & Hl). exists k. rewrite mask_alterAt, overflows_alterAt.
  split_and!; [lia..|done|]. unfold alterAt. destruct (mask t <? chunkSlots); simpl.
  - by rewrite length_alter.
  - destruct Hl as [Hc Hn]. rewrite length_alter. split; [|done].
    apply Forall_alter; [done|]. intros c _ Hlen. by rewrite length_alter.
Qed.

Lemma flat_length t : table_shape t → Z.of_nat (length (flat t)) = tLen t.
Proof.
  intros (k & Hk & Hm & Ho & Hl). rewrite (tLen_pow t k Hm). unfold flat.
  destruct (mask t <? chunkSlots) eqn:E; [done|]. destruct Hl as [Hc Hn].
  assert (Z.of_nat (length (concat (tchunks t))) = chunkSlots * Z.of_nat (length (tchunks t))) as ->.
  { clear Hn. induction Hc as [|c cs Hc Hcs IH]; [done|]. simpl. rewrite length_app. lia. }
  rewrite Hn. change chunkSlots with (2 ^ 16). rewrite <- Z.pow_add_r; [f_equal; lia|lia|].
  apply Z.ltb_ge in E. rewrite Hm in E. change chunkSlots with (2 ^ 16) in E.
  destruct (Z_lt_le_dec k 16); [|lia]. pose proof (Z.pow_lt_mono_r 2 k 16). lia.
Qed.

(** The table seen as an array: reading after an update. *)
Lemma At_alterAt t i j f :
  table_shape t →
  At (alterAt t i f) j = if decide (Wrap t i = Wrap t j) then f (At t j) else At t j.
Proof.
  intros Hs. rewrite At_flat by (by apply shape_alterAt). rewrite (At_flat t j Hs).
  rewrite flat_alterAt, Wrap_alterAt by done.
  pose proof (Wrap_range t j Hs). pose proof (Wrap_range t i Hs).
  destruct (decide (Wrap t i = Wrap t j)) as [->|Hne].
  - rewrite list_lookup_alter_eq. pose proof (flat_length t Hs).
    destruct (lookup_lt_is_Some_2 (flat t) (Z.to_nat (Wrap t j))) as [x Hx]; [lia|]. by rewrite Hx.
  - rewrite list_lookup_alter_ne by lia. done.
Qed.

Lemma At_addOverflow t home delta i : At (addOverflow t home delta) i = At t i.
Proof. done. Qed.

Lemma shape_addOverflow t home delta : table_shape t → table_shape (addOverflow t home delta).
Proof. intros (k & H). exists k. simpl. by rewrite length_alter. Qed.

(** The overflow count of group [g]. *)
Definition ovf t (g : Z) : Z := default 0 (overflows t !! Z.to_nat g).

Lemma overflowAt_ovf t home : overflowAt t home = ovf t (groupOf t home).
Proof. done. Qed.

Lemma groupOf_range t pos : table_shape t → 0 ≤ groupOf t pos < tLen t / 8.
Proof.
  intros Hs. unfold groupOf. fold (Wrap t pos). pose proof (Wrap_range t pos Hs).
  unfold groupShift. rewrite Z.shiftr_div_pow2 by lia. change (2 ^ 3) with 8.
  split; [apply Z.div_pos; lia|]. destruct Hs as (k & Hk & Hm & _).
  rewrite (tLen_pow t k Hm) in *. apply Z.div_lt_upper_bound; [lia|].
  replace (8 * (2 ^ k / 8)) with (2 ^ k); [lia|].
  replace k with (3 + (k - 3)) by lia. rewrite Z.pow_add_r by lia. change (2 ^ 3) with 8.
  rewrite Z.mul_comm, Z.div_mul by lia. lia.
Qed.

Lemma overflows_length t : table_shape t → Z.of_nat (length (overflows t)) = tLen t / 8.
Proof.
  intros (k & Hk & Hm & Ho & _). rewrite Ho, (tLen_pow t k Hm).
  replace k with (3 + (k - 3)) at 2 by lia. rewrite Z.pow_add_r by lia. change (2 ^ 3) with 8.
  rewrite Z.mul_comm, Z.div_mul; lia.
Qed.

Lemma ovf_addOverflow t home delta g :
  table_shape t → 0 ≤ g →
  ovf (addOverflow t home delta) g =
    if decide (g = groupOf t home) then u32 (ovf t g + delta) else ovf t g.
Proof.
  intros Hs Hg. unfold ovf, addOverflow. simpl. pose proof (groupOf_range t home Hs).
  pose proof (overflows_length t Hs). destruct (decide (g = groupOf t home)) as [->|Hne].
  - rewrite list_lookup_alter_eq.
    destruct (lookup_lt_is_Some_2 (overflows t) (Z.to_nat (groupOf t home))) as [x Hx]; [lia|].
    by rewrite Hx.
  - by rewrite list_lookup_alter_ne by lia.
Qed.

Lemma At_Wrap t i : table_shape t → At t (Wrap t i) = At t i.
Proof.
  intros Hs. rewrite !At_flat by done. do 3 f_equal. unfold Wrap. by rewrite <- Z.land_assoc, Z.land_diag.
Qed.

Lemma Wrap_small t i : table_shape t → 0 ≤ i < tLen t → Wrap t i = i.
Proof. intros Hs Hi. rewrite Wrap_mod by done. by apply Z.mod_small. Qed.

Lemma At_u32 t i : table_shape t → At t (u32 i) = At t i.
Proof. intros Hs. rewrite <- (At_Wrap t (u32 i)), <- (At_Wrap t i) by done. by rewrite Wrap_u32. Qed.

Lemma NewFlatHashMap_shape k :
  6 ≤ k ≤ 32 → table_shape (NewFlatHashMap (K := K) (V := V) (2 ^ k)).
Proof.
  intros Hk. assert (u32 (2 ^ k - 1) = 2 ^ k - 1) as Hm.
  { unfold u32. apply Z.mod_small. pose proof (Z.pow_le_mono_r 2 k 32). pose proof (Z.pow_pos_nonneg 2 k). lia. }
  assert (0 < 2 ^ k) as Hp by (apply Z.pow_pos_nonneg; lia).
  exists k. unfold NewFlatHashMap. destruct (Z.leb_spec (2 ^ k) chunkSlots); cbn [mask overflows short tchunks];
    rewrite Hm, !length_replicate; (split_and!; [lia|lia|done| |]).
  1,3: unfold groupShift; rewrite Z.shiftr_div_pow2, <- Z.pow_sub_r by lia;
    rewrite Z2Nat.id; [done|apply Z.pow_nonneg; lia].
  - destruct (Z.ltb_spec (2 ^ k - 1) chunkSlots); lia.
  - destruct (Z.ltb_spec (2 ^ k - 1) chunkSlots) as [Hlt|Hge]; [lia|].
    assert (16 ≤ k).
    { destruct (Z_lt_le_dec k 16); [|lia]. pose proof (Z.pow_lt_mono_r 2 k 16).
      change chunkSlots with (2 ^ 16) in *. lia. }
    split.
    + apply Forall_replicate. rewrite length_replicate. by rewrite Z2Nat.id.
    + unfold chunkShift. rewrite Z.shiftr_div_pow2, <- Z.pow_sub_r by lia.
      rewrite Z2Nat.id; [done|apply Z.pow_nonneg; lia].
Qed.

Lemma NewFlatHashMap_At n i : At (NewFlatHashMap (K := K) (V := V) n) i = zeroItem.
Proof.
  unfold NewFlatHashMap, At. destruct (n <=? chunkSlots); cbn [mask short tchunks]; case_match.
  - destruct (replicate _ _ !! _) as [x|] eqn:E; [|done]. by apply lookup_replicate_1 in E as [-> _].
  - done.
  - done.
  - destruct (replicate (Z.to_nat (Z.shiftr n chunkShift)) _ !! _) as [c|] eqn:E; [|done].
    apply lookup_replicate_1 in E as [-> _]. cbn [from_option id].
    destruct (replicate (Z.to_nat chunkSlots) _ !! _) as [x|] eqn:E; [|done].
    by apply lookup_replicate_1 in E as [-> _].
Qed.

Lemma NewFlatHashMap_ovf n g : ovf (NewFlatHashMap (K := K) (V := V) n) g = 0.
Proof.
  assert (overflows (NewFlatHashMap (K := K) (V := V) n) =
    replicate (Z.to_nat (Z.shiftr n groupShift)) 0) as E by (unfold NewFlatHashMap; by case_match).
  unfold ovf. rewrite E. destruct (replicate _ _ !! _) as [x|] eqn:E'; [|done].
  by apply lookup_replicate_1 in E' as [-> _].
Qed.

End Shape.
