(* ===== verification/TableInv.v ===== *)
(** * The invariant of the slot table, and what keeps it

    A retained slot (alive, or dead with its queue node still there) is reachable from its key's
    home over occupied slots, keys are unique among the retained slots, and each group's overflow
    count is the number of live keys that left the group.  One lemma, [table_inv_update], covers
    every single-slot change of the cache. *)

From S2P Require Import Prelude Item Table.

Section Slots.
Context {K V : Type}.
Implicit Types (it : Item K V).

Definition ikey it : K := Key (entry it).
Definition ival it : V := Value (entry it).
Definition occupied it : bool := negb (meta it =? 0).
Definition alive it : bool := occupied it && negb (f_dead (decode (meta it))).
Definition tomb it : bool := occupied it && f_dead (decode (meta it)).
Definition retained it : bool := occupied it && negb (Reusable (meta it)).

Lemma alive_retained it : alive it = true → retained it = true.
Proof.
  unfold alive, retained. rewrite Reusable_fields. destruct (occupied it); [|done].
  by destruct (f_dead (decode (meta it))).
Qed.

Lemma retained_occupied it : retained it = true → occupied it = true.
Proof. unfold retained. by intros [? _]%andb_true_iff. Qed.

Lemma alive_occupied it : alive it = true → occupied it = true.
Proof. unfold alive. by intros [? _]%andb_true_iff. Qed.

Lemma occupied_split it : occupied it = alive it || tomb it.
Proof. unfold alive, tomb. destruct (occupied it), (f_dead (decode (meta it))); done. Qed.

End Slots.

(** A word in range, with a proper generation, free only when dead. *)
Definition meta_ok (m : Z) : Prop :=
  is_u64 m ∧ gen_ok m ∧ (f_free (decode m) = true → f_dead (decode m) = true).

Lemma meta_ok_intro m f :
  is_u64 m → gen_good m → f_free (decode m) = f → (f = true → f_dead (decode m) = true) → meta_ok m.
Proof. intros H1 H2 H3 H4. split_and!; [done|by right|]. rewrite H3. done. Qed.

Section Invariant.
Context {K V : Type} `{!EqDecision K} `{!GoType K} `{!GoType V} (hash : K → Z).
Implicit Types (t : FlatHashMap K V).

Definition homeOf t (k : K) : Z := Home t (hash k).

Definition slots t : list Z := seqZ 0 (tLen t).

(** The number of occupied slots. *)
Definition occ t : Z := sumZ (λ i, Z.b2z (occupied (At t i))) (slots t).

(** Slot [i] holds a live key whose home group is [g], outside that group. *)
Definition displaced t (g i : Z) : bool :=
  alive (At t i) && (groupOf t (homeOf t (ikey (At t i))) =? g) && negb (groupOf t i =? g).

Record table_inv t : Prop := {
  ti_shape : table_shape t;
  ti_meta i : meta_ok (meta (At t i));
  ti_tag i : retained (At t i) = true →
    f_tag (decode (meta (At t i))) = tagBits (hash (ikey (At t i)));
  ti_chain i d : retained (At t i) = true →
    0 ≤ d < (i - homeOf t (ikey (At t i))) mod tLen t →
    occupied (At t (homeOf t (ikey (At t i)) + d)) = true;
  ti_uniq i j : retained (At t i) = true → retained (At t j) = true →
    ikey (At t i) = ikey (At t j) → Wrap t i = Wrap t j;
  ti_over g : 0 ≤ g < tLen t / 8 → ovf t g = sumZ (λ i, Z.b2z (displaced t g i)) (slots t)
}.

Lemma elem_of_slots t i : i ∈ slots t ↔ 0 ≤ i < tLen t.
Proof. unfold slots. rewrite elem_of_seqZ. lia. Qed.

Lemma NoDup_slots t : NoDup (slots t).
Proof. apply NoDup_seqZ. Qed.

Lemma length_slots t : table_shape t → Z.of_nat (length (slots t)) = tLen t.
Proof. intros Hs. pose proof (tLen_pos t Hs). unfold slots. rewrite length_seqZ. lia. Qed.

Lemma sumZ_subset f (l k : list Z) :
  NoDup l → NoDup k → (∀ i, i ∈ k → i ∈ l) → (∀ i, i ∈ l → 0 ≤ f i) → sumZ f k ≤ sumZ f l.
Proof.
  intros Hl Hk Hsub Hpos. set (f' := λ i, if bool_decide (i ∈ k) then f i else 0).
  assert (sumZ f k = sumZ f' k) as ->.
  { apply sumZ_ext. intros i Hi. unfold f'. by rewrite bool_decide_eq_true_2. }
  rewrite <- (sumZ_sub f' l k Hl Hk Hsub).
  - apply sumZ_le. intros i Hi. unfold f'. case_bool_decide; [done|]. by apply Hpos.
  - intros i _ Hi. unfold f'. by rewrite bool_decide_eq_false_2.
Qed.

(** An occupied run is no longer than the number of occupied slots. *)
Lemma chain_le_occ t h D :
  table_shape t → 0 ≤ D ≤ tLen t → (∀ d, 0 ≤ d < D → occupied (At t (h + d)) = true) → D ≤ occ t.
Proof.
  intros Hs HD Hocc. set (k := (λ d, Wrap t (h + d)) <$> seqZ 0 D).
  assert (NoDup k) as Hk.
  { apply NoDup_fmap_2_strong; [|apply NoDup_seqZ]. intros a b Ha%elem_of_seqZ Hb%elem_of_seqZ E.
    rewrite !Wrap_mod in E by done. pose proof (tLen_pos t Hs).
    assert ((a - b) mod tLen t = 0) as Hm.
    { replace (a - b) with ((h + a) - (h + b)) by lia. rewrite Zminus_mod, E, Z.sub_diag. done. }
    apply Z.mod_divide in Hm as [q Hq]; [|lia]. assert (-1 < q < 1) by nia. nia. }
  assert (sumZ (λ i, Z.b2z (occupied (At t i))) k = D) as HD'.
  { rewrite (sumZ_ext _ (λ _, 1)).
    - rewrite sumZ_const. unfold k. rewrite length_fmap, length_seqZ. lia.
    - intros i (d & -> & Hd%elem_of_seqZ)%list_elem_of_fmap.
      rewrite At_Wrap by done. by rewrite Hocc by lia. }
  etrans; [apply Z.eq_le_incl; symmetry; exact HD'|].
  apply sumZ_subset; [apply NoDup_slots|done| |].
  - intros i (d & -> & _)%list_elem_of_fmap. apply elem_of_slots. by apply Wrap_range.
  - intros i _. apply b2z_range.
Qed.

Lemma ovf_bound t g : table_inv t → 0 ≤ g < tLen t / 8 → 0 ≤ ovf t g ≤ occ t.
Proof.
  intros Hi Hg. rewrite (ti_over t Hi g Hg). split.
  - apply sumZ_nonneg. intros i _. apply b2z_range.
  - apply sumZ_le. intros i _. apply b2z_mono.
    intros [[Ha _]%andb_true_iff _]%andb_true_iff. by apply alive_occupied.
Qed.

Lemma occ_range t : table_shape t → 0 ≤ occ t ≤ tLen t.
Proof.
  intros Hs. rewrite <- (length_slots t Hs). split.
  - apply sumZ_nonneg. intros i _. apply b2z_range.
  - etrans; [apply (sumZ_le _ (λ _, 1))|rewrite sumZ_const; lia]. intros i _. apply b2z_range.
Qed.

Lemma homeOf_range t k : table_shape t → 0 ≤ homeOf t k < tLen t.
Proof. apply Wrap_range. Qed.

(** ** A change of one slot *)

(** [t'] is [t] with slot [p] holding [x]; the overflow counts are constrained separately. *)
Definition slot_set t t' (p : Z) (x : Item K V) : Prop :=
  table_shape t' ∧ mask t' = mask t ∧
  ∀ i, At t' i = if decide (Wrap t i = p) then x else At t i.

Lemma table_inv_update t t' p x :
  table_inv t → 0 ≤ p < tLen t → slot_set t t' p x → meta_ok (meta x) → occupied x = true →
  (retained x = true →
     f_tag (decode (meta x)) = tagBits (hash (ikey x)) ∧
     (∀ d, 0 ≤ d < (p - homeOf t (ikey x)) mod tLen t →
        occupied (At t (homeOf t (ikey x) + d)) = true) ∧
     (∀ j, 0 ≤ j < tLen t → j ≠ p → retained (At t j) = true → ikey (At t j) ≠ ikey x)) →
  (∀ g, 0 ≤ g < tLen t / 8 →
     ovf t' g = ovf t g - Z.b2z (displaced t g p) + Z.b2z (displaced t' g p)) →
  table_inv t'.
Proof.
  intros [Hs Hmeta Htag Hchain Huniq Hover] Hp (Hs' & Hm & HAt) Hx Ho Hret Hov.
  assert (tLen t' = tLen t) as Hl by (unfold tLen; by rewrite Hm).
  assert (∀ i, Wrap t' i = Wrap t i) as Hw by (intros; unfold Wrap; by rewrite Hm).
  assert (∀ k, homeOf t' k = homeOf t k) as Hh by (intros; unfold homeOf, Home; by rewrite Hm).
  assert (∀ i, occupied (At t i) = true → occupied (At t' i) = true) as Hocc.
  { intros i Hi. rewrite HAt. by case_decide. }
  split; [done|..].
  - intros i. rewrite HAt. case_decide; [done|apply Hmeta].
  - intros i. rewrite HAt. case_decide; [intros Hr; by apply Hret|apply Htag].
  - intros i d. rewrite HAt, Hl. case_decide as E; rewrite Hh.
    + intros Hr Hd. apply Hocc. destruct (Hret Hr) as (_ & Hc & _). apply Hc.
      rewrite <- E, Wrap_mod, Zminus_mod_idemp_l by done. done.
    + intros Hr Hd. apply Hocc. by apply Hchain.
  - intros i j. rewrite !HAt, !Hw. case_decide as Ei; case_decide as Ej; [congruence|..].
    + intros Hr Hrj E. exfalso. destruct (Hret Hr) as (_ & _ & Hu).
      apply (Hu (Wrap t j)); [by apply Wrap_range|done|by rewrite At_Wrap|by rewrite At_Wrap].
    + intros Hri Hr E. exfalso. destruct (Hret Hr) as (_ & _ & Hu).
      apply (Hu (Wrap t i)); [by apply Wrap_range|done|by rewrite At_Wrap|by rewrite At_Wrap].
    + apply Huniq.
  - intros g Hg'. rewrite Hl in Hg'. rewrite Hov, Hover by done. unfold slots. rewrite Hl.
    fold (slots t). symmetry.
    rewrite (sumZ_update (λ i, Z.b2z (displaced t g i)) (λ i, Z.b2z (displaced t' g i)) (slots t) p).
    + done.
    + apply NoDup_slots.
    + by apply elem_of_slots.
    + intros j Hj%elem_of_slots Hne. unfold displaced, groupOf.
      rewrite HAt, Hh, Hm. rewrite decide_False; [done|]. by rewrite Wrap_small.
Qed.

Lemma slot_set_alterAt t p f :
  table_shape t → 0 ≤ p < tLen t → slot_set t (alterAt t p f) p (f (At t p)).
Proof.
  intros Hs Hp. split_and!; [by apply shape_alterAt|apply mask_alterAt|].
  intros i. rewrite At_alterAt by done. rewrite (Wrap_small t p) by done.
  case_decide as E; case_decide as E'; try congruence.
  rewrite <- (At_Wrap t i), <- E by done. done.
Qed.

Lemma sum_slot_set (f : Z → Item K V → Z) t t' p x :
  table_shape t → 0 ≤ p < tLen t → slot_set t t' p x →
  sumZ (λ i, f i (At t' i)) (slots t') = sumZ (λ i, f i (At t i)) (slots t) - f p (At t p) + f p x.
Proof.
  intros Hs Hp (Hs' & Hm & HAt). unfold slots. assert (tLen t' = tLen t) as -> by (unfold tLen; by rewrite Hm).
  fold (slots t).
  rewrite (sumZ_update (λ i, f i (At t i)) _ (slots t) p).
  - rewrite HAt. rewrite decide_True by (by apply Wrap_small). done.
  - apply NoDup_slots.
  - by apply elem_of_slots.
  - intros j Hj%elem_of_slots Hne. rewrite HAt. rewrite decide_False; [done|]. by rewrite Wrap_small.
Qed.

(** The displacement counters. *)
Lemma slot_set_overflow t t' p x home delta :
  slot_set t t' p x → slot_set t (addOverflow t' home delta) p x.
Proof. intros (Hs & Hm & HAt). split_and!; [by apply shape_addOverflow|done|done]. Qed.

Lemma NoteDisplaced_ovf t home pos g :
  table_shape t → 0 ≤ g →
  ovf (NoteDisplaced t home pos) g =
    if (groupOf t home =? g) && negb (groupOf t pos =? g) then u32 (ovf t g + 1) else ovf t g.
Proof.
  intros Hs Hg. unfold NoteDisplaced.
  destruct (Z.eqb_spec (groupOf t home) (groupOf t pos)) as [->|Hne]; cbn [negb].
  - by destruct (groupOf t pos =? g).
  - rewrite ovf_addOverflow by done. destruct (Z.eqb_spec (groupOf t home) g) as [E1|H1]; cbn [andb].
    + rewrite decide_True by done. destruct (Z.eqb_spec (groupOf t pos) g); [congruence|done].
    + by rewrite decide_False.
Qed.

Lemma ForgetDisplaced_ovf t home pos g :
  table_shape t → 0 ≤ g →
  ovf (ForgetDisplaced t home pos) g =
    if (groupOf t home =? g) && negb (groupOf t pos =? g) then u32 (ovf t g + (2 ^ 32 - 1))
    else ovf t g.
Proof.
  intros Hs Hg. unfold ForgetDisplaced.
  destruct (Z.eqb_spec (groupOf t home) (groupOf t pos)) as [->|Hne]; cbn [negb].
  - by destruct (groupOf t pos =? g).
  - rewrite ovf_addOverflow by done. destruct (Z.eqb_spec (groupOf t home) g) as [E1|H1]; cbn [andb].
    + rewrite decide_True by done. destruct (Z.eqb_spec (groupOf t pos) g); [congruence|done].
    + by rewrite decide_False.
Qed.

Lemma slot_set_Note t t' p x home pos :
  slot_set t t' p x → slot_set t (NoteDisplaced t' home pos) p x.
Proof. intros H. unfold NoteDisplaced. case_match; [by apply slot_set_overflow|done]. Qed.

Lemma slot_set_Forget t t' p x home pos :
  slot_set t t' p x → slot_set t (ForgetDisplaced t' home pos) p x.
Proof. intros H. unfold ForgetDisplaced. case_match; [by apply slot_set_overflow|done]. Qed.

Lemma slot_set_geometry t t' p x :
  slot_set t t' p x →
  tLen t' = tLen t ∧ (∀ i, Wrap t' i = Wrap t i) ∧ (∀ i, groupOf t' i = groupOf t i) ∧
  (∀ k, homeOf t' k = homeOf t k).
Proof.
  intros (_ & Hm & _). unfold tLen, Wrap, groupOf, homeOf, Home. by rewrite Hm.
Qed.

Lemma slot_set_pos t pos f :
  table_shape t → slot_set t (alterAt t pos f) (Wrap t pos) (f (At t pos)).
Proof.
  intros Hs. split_and!; [by apply shape_alterAt|apply mask_alterAt|].
  intros i. rewrite At_alterAt by done. case_decide as E; case_decide as E'; try congruence.
  by rewrite <- (At_Wrap t pos), E, At_Wrap.
Qed.

Lemma slot_set_at t t' p x : slot_set t t' p x → table_shape t → 0 ≤ p < tLen t → At t' p = x.
Proof. intros (_ & _ & H) Hs Hp. rewrite H. rewrite decide_True; [done|by apply Wrap_small]. Qed.

Lemma groupOf_Wrap t pos : groupOf t (Wrap t pos) = groupOf t pos.
Proof. unfold groupOf, Wrap. by rewrite <- Z.land_assoc, Z.land_diag. Qed.

Lemma ovf_slot_set t pos f g : ovf (alterAt t pos f) g = ovf t g.
Proof. unfold ovf. by rewrite overflows_alterAt. Qed.

(** A slot that is not alive takes a live item for a key no retained slot holds. *)
Lemma publish_inv t pos f :
  let p := Wrap t pos in let x := f (At t pos) in
  table_inv t → occ t * 4 < tLen t * 3 → alive (At t p) = false →
  alive x = true → meta_ok (meta x) →
  f_tag (decode (meta x)) = tagBits (hash (ikey x)) →
  (∀ d, 0 ≤ d < (p - homeOf t (ikey x)) mod tLen t →
     occupied (At t (homeOf t (ikey x) + d)) = true) →
  (∀ j, 0 ≤ j < tLen t → j ≠ p → retained (At t j) = true → ikey (At t j) ≠ ikey x) →
  table_inv (NoteDisplaced (alterAt t pos f) (homeOf t (ikey x)) pos).
Proof.
  intros p x Hi Hocc Hold Hx Hmeta Htag Hchain Huniq. pose proof (ti_shape t Hi) as Hs.
  pose proof (slot_set_pos t pos f Hs) as Hset. fold p x in Hset.
  pose proof (slot_set_Note _ _ _ _ (homeOf t (ikey x)) pos Hset) as Hset'.
  assert (0 ≤ p < tLen t) as Hp by by apply Wrap_range.
  eapply table_inv_update; [done|exact Hp|exact Hset'|done|by apply alive_occupied|done|].
  intros g Hg. destruct (slot_set_geometry _ _ _ _ Hset') as (_ & _ & Hgr & Hho).
  destruct (slot_set_geometry _ _ _ _ Hset) as (_ & _ & Hgr' & _).
  unfold displaced. rewrite Hold. rewrite (slot_set_at _ _ _ _ Hset') by done.
  rewrite !Hgr, Hho, Hx. cbn [andb Z.b2z].
  rewrite NoteDisplaced_ovf by (apply Hset || lia). rewrite !Hgr', ovf_slot_set.
  unfold p. rewrite groupOf_Wrap. pose proof (ovf_bound t g Hi Hg). pose proof (tLen_pos t Hs).
  destruct (_ && _); cbn [Z.b2z]; [|lia]. unfold u32. rewrite Z.mod_small; lia.
Qed.

(** A live slot becomes a tombstone that keeps its key. *)
Lemma kill_inv t p f :
  let x := f (At t p) in
  table_inv t → 0 ≤ p < tLen t → alive (At t p) = true → occupied x = true → alive x = false →
  meta_ok (meta x) → ikey x = ikey (At t p) →
  f_tag (decode (meta x)) = f_tag (decode (meta (At t p))) →
  table_inv (ForgetDisplaced (alterAt t p f) (homeOf t (ikey x)) p).
Proof.
  intros x Hi Hp Hold Ho Hx Hmeta Hkey Htag. pose proof (ti_shape t Hi) as Hs.
  pose proof (slot_set_alterAt t p f Hs Hp) as Hset. fold x in Hset.
  pose proof (slot_set_Forget _ _ _ _ (homeOf t (ikey x)) p Hset) as Hset'.
  pose proof (alive_retained _ Hold) as Hret.
  eapply table_inv_update; [done|exact Hp|exact Hset'|done|done|..].
  - intros _. rewrite Hkey, Htag. split_and!; [by apply ti_tag|intros d; by apply ti_chain|].
    intros j Hj Hne Hr E. apply Hne. apply (ti_uniq t Hi) in E; [|done..].
    by rewrite !Wrap_small in E.
  - intros g Hg. destruct (slot_set_geometry _ _ _ _ Hset') as (_ & _ & Hgr & Hho).
    destruct (slot_set_geometry _ _ _ _ Hset) as (_ & _ & Hgr' & _).
    unfold displaced at 2. rewrite (slot_set_at _ _ _ _ Hset') by done. rewrite Hx. cbn [andb Z.b2z].
    rewrite ForgetDisplaced_ovf by (apply Hset || lia). rewrite !Hgr', ovf_slot_set.
    assert (displaced t g p = (groupOf t (homeOf t (ikey x)) =? g) && negb (groupOf t p =? g)) as Hd.
    { unfold displaced. by rewrite Hold, Hkey. }
    rewrite <- Hd. destruct (displaced t g p) eqn:E; cbn [Z.b2z]; [|lia].
    pose proof (ovf_bound t g Hi Hg). pose proof (occ_range t Hs). pose proof (tLen_pos t Hs).
    assert (1 ≤ ovf t g).
    { rewrite (ti_over t Hi g Hg).
      etrans; [|apply (sumZ_subset _ _ [p]); [apply NoDup_slots|apply NoDup_singleton|..]].
      - simpl. rewrite E. simpl. lia.
      - intros i ->%list_elem_of_singleton. by apply elem_of_slots.
      - intros i _. apply b2z_range. }
    unfold u32. replace (ovf t g + (2 ^ 32 - 1)) with (ovf t g - 1 + 1 * 2 ^ 32) by lia.
    rewrite Z_mod_plus_full, Z.mod_small; lia.
Qed.

(** A tombstone changes without coming back to life, and stays occupied: it may drop its key. *)
Lemma tomb_inv t p f :
  let x := f (At t p) in
  table_inv t → 0 ≤ p < tLen t → alive (At t p) = false → occupied x = true → alive x = false →
  retained x = false → meta_ok (meta x) →
  table_inv (alterAt t p f).
Proof.
  intros x Hi Hp Hold Ho Hx Hr Hmeta. pose proof (ti_shape t Hi) as Hs.
  pose proof (slot_set_alterAt t p f Hs Hp) as Hset. fold x in Hset.
  eapply table_inv_update; [done|exact Hp|exact Hset|done|done|congruence|].
  intros g Hg. unfold displaced. rewrite Hold, (slot_set_at _ _ _ _ Hset), Hx by done.
  cbn [andb Z.b2z]. rewrite ovf_slot_set. lia.
Qed.

(** ** Changes that keep every slot's identity: values, reference counters, expirations *)

Definition same_slot (it it' : Item K V) : Prop :=
  ikey it' = ikey it ∧ occupied it' = occupied it ∧
  f_dead (decode (meta it')) = f_dead (decode (meta it)) ∧
  f_free (decode (meta it')) = f_free (decode (meta it)) ∧
  f_tag (decode (meta it')) = f_tag (decode (meta it)) ∧
  (is_u64 (meta it) → gen_ok (meta it) → is_u64 (meta it') ∧ gen_ok (meta it')).

Definition same_table t t' : Prop :=
  (table_shape t → table_shape t') ∧ mask t' = mask t ∧ overflows t' = overflows t ∧
  ∀ i, same_slot (At t i) (At t' i).

#[global] Instance same_slot_refl : Reflexive same_slot.
Proof. intros it. unfold same_slot. split_and!; done. Qed.

#[global] Instance same_slot_trans : Transitive same_slot.
Proof.
  intros a b c (K1 & O1 & D1 & F1 & T1 & M1) (K2 & O2 & D2 & F2 & T2 & M2). unfold same_slot.
  rewrite K2, O2, D2, F2, T2. split_and!; [done..|]. intros H1 H2. by destruct (M1 H1 H2); apply M2.
Qed.

#[global] Instance same_table_refl : Reflexive same_table.
Proof. intros t. split_and!; done. Qed.

#[global] Instance same_table_trans : Transitive same_table.
Proof.
  intros a b c (S1 & M1 & O1 & A1) (S2 & M2 & O2 & A2).
  split_and!; [by auto|congruence|congruence|]. intros i. etrans; [apply A1|apply A2].
Qed.

Lemma same_slot_alive it it' : same_slot it it' → alive it' = alive it.
Proof. intros (_ & Ho & Hd & _). unfold alive. by rewrite Ho, Hd. Qed.

Lemma same_slot_tomb it it' : same_slot it it' → tomb it' = tomb it.
Proof. intros (_ & Ho & Hd & _). unfold tomb. by rewrite Ho, Hd. Qed.

Lemma same_slot_retained it it' : same_slot it it' → retained it' = retained it.
Proof. intros (_ & Ho & Hd & Hf & _). unfold retained. by rewrite !Reusable_fields, Ho, Hd, Hf. Qed.

Lemma same_table_geometry t t' :
  same_table t t' →
  tLen t' = tLen t ∧ slots t' = slots t ∧ (∀ i, Wrap t' i = Wrap t i) ∧
  (∀ i, groupOf t' i = groupOf t i) ∧ (∀ k, homeOf t' k = homeOf t k) ∧ (∀ g, ovf t' g = ovf t g).
Proof.
  intros (_ & Hm & Ho & _). unfold slots, tLen, Wrap, groupOf, homeOf, Home, ovf. by rewrite Hm, Ho.
Qed.

Lemma same_table_inv t t' : same_table t t' → table_inv t → table_inv t'.
Proof.
  intros Hsame [Hs Hmeta Htag Hchain Huniq Hover].
  destruct (same_table_geometry t t' Hsame) as (Hl & Hsl & Hw & Hg & Hh & Hov).
  destruct Hsame as (Hs' & _ & _ & HA). split; [by auto|..].
  - intros i. destruct (HA i) as (_ & _ & Hd & Hf & _ & H). destruct (Hmeta i) as (H1 & H2 & H3).
    destruct (H H1 H2). unfold meta_ok. by rewrite Hd, Hf.
  - intros i. rewrite (same_slot_retained _ _ (HA i)). destruct (HA i) as (-> & _ & _ & _ & -> & _). apply Htag.
  - intros i d. rewrite (same_slot_retained _ _ (HA i)). destruct (HA i) as (-> & _).
    rewrite Hh, Hl. destruct (HA (homeOf t (ikey (At t i)) + d)) as (_ & -> & _). apply Hchain.
  - intros i j. rewrite (same_slot_retained _ _ (HA i)), (same_slot_retained _ _ (HA j)), !Hw.
    destruct (HA i) as (-> & _), (HA j) as (-> & _). apply Huniq.
  - intros g. rewrite Hl, Hov, Hsl. intros Hr. rewrite Hover by done. apply sumZ_ext. intros i _.
    unfold displaced. rewrite (same_slot_alive _ _ (HA i)). destruct (HA i) as (-> & _). by rewrite Hh, !Hg.
Qed.

Lemma same_table_occ t t' : same_table t t' → occ t' = occ t.
Proof.
  intros Hsame. destruct (same_table_geometry t t' Hsame) as (_ & Hsl & _).
  destruct Hsame as (_ & _ & _ & HA). unfold occ. rewrite Hsl. apply sumZ_ext. intros i _.
  by destruct (HA i) as (_ & -> & _).
Qed.

Lemma same_table_alterAt t p f :
  table_shape t → same_slot (At t p) (f (At t p)) → same_table t (alterAt t p f).
Proof.
  intros Hs Hf. split_and!; [by apply shape_alterAt|apply mask_alterAt|apply overflows_alterAt|].
  intros i. rewrite At_alterAt by done. case_decide as E; [|done].
  by rewrite <- (At_Wrap t i), <- E, At_Wrap.
Qed.

End Invariant.

#[export] Hint Resolve ti_shape : table.
