(* ===== verification/Policy.v ===== *)
(** * The eviction-policy interface (eviction.go, EvictionPolicy)

    A policy owns queues of nodes and reaches the items through the shard's current table, which is
    passed to every call here; what it writes there are reference counters only.  [PolicyLaws] is
    what the shard relies on: nodes are never lost or duplicated, eviction terminates, and its
    victim is dead, expired or out of chances. *)

From S2P Require Import Prelude Item Queue Table TableInv.

Class EvictionPolicy (K V P : Type) := {
  pAdd : P → FlatHashMap K V → QNode → P;
  (** The new policy and table, and the victim's index; [None] inside is [(0, false)], the outer
      [None] a loop cut short by its fuel. *)
  pEvict : P → FlatHashMap K V → Z → option (P * FlatHashMap K V * option Z);
  pLen : P → nat;
  pSweep : P → FlatHashMap K V → (FlatHashMap K V → Z → FlatHashMap K V) → P * FlatHashMap K V;
  pRebuild : ∀ {A : Type}, P → (A → Z → A * option Z) → A → P * A;
  pBytes : P → Z
}.

Section Chances.
Context {K V : Type} `{!GoType K} `{!GoType V}.
Implicit Types (it : Item K V) (t : FlatHashMap K V).

Definition isDead t (i : Z) : bool := negb (Z.land (meta (At t i)) Dead =? 0).

(** [it'] is [it] with reference-counter bits cleared. *)
Definition fewer_chances it it' : Prop :=
  entry it' = entry it ∧
  ∃ b, meta it' = Z.ldiff (meta it) b ∧ Z.ldiff b ChanceMask = 0.

Definition fewer_table t t' : Prop :=
  (table_shape t → table_shape t') ∧ mask t' = mask t ∧ overflows t' = overflows t ∧
  ∀ i, fewer_chances (At t i) (At t' i).

#[global] Instance fewer_chances_refl : Reflexive fewer_chances.
Proof. intros it. split; [done|]. exists 0. by rewrite Z.ldiff_0_r. Qed.

#[global] Instance fewer_chances_trans : Transitive fewer_chances.
Proof.
  intros x y z [E1 (b1 & M1 & H1)] [E2 (b2 & M2 & H2)]. split; [congruence|].
  exists (Z.lor b1 b2). rewrite M2, M1. split.
  - apply Z.bits_inj'. intros i Hi. rewrite !Z.ldiff_spec, Z.lor_spec. btauto.
  - apply Z.bits_inj'. intros i Hi.
    apply (f_equal (λ x, Z.testbit x i)) in H1, H2. rewrite Z.ldiff_spec, Z.testbit_0_l in H1, H2.
    rewrite Z.ldiff_spec, Z.lor_spec, Z.testbit_0_l.
    destruct (Z.testbit b1 i), (Z.testbit b2 i), (Z.testbit ChanceMask i); done.
Qed.

#[global] Instance fewer_table_refl : Reflexive fewer_table.
Proof. intros t. by split_and!. Qed.

#[global] Instance fewer_table_trans : Transitive fewer_table.
Proof.
  intros a b c (S1 & M1 & O1 & A1) (S2 & M2 & O2 & A2).
  split_and!; [by auto|congruence|congruence|]. intros i. etrans; [apply A1|apply A2].
Qed.

Lemma only_chances_bit b i :
  Z.ldiff b ChanceMask = 0 → i ≠ 61 → i ≠ 62 → Z.testbit b i = false.
Proof.
  intros H H1 H2. apply (f_equal (λ x, Z.testbit x i)) in H.
  rewrite Z.ldiff_spec, Z.testbit_0_l, testbit_ChanceMask in H.
  destruct (Z.eqb_spec i 62), (Z.eqb_spec i 61); try done. by rewrite andb_true_r in H.
Qed.

Lemma ldiff_chances_fields m b :
  Z.ldiff b ChanceMask = 0 →
  f_dead (decode (Z.ldiff m b)) = f_dead (decode m) ∧
  f_free (decode (Z.ldiff m b)) = f_free (decode m) ∧
  f_expire (decode (Z.ldiff m b)) = f_expire (decode m) ∧
  f_tag (decode (Z.ldiff m b)) = f_tag (decode m) ∧
  f_gen (decode (Z.ldiff m b)) = f_gen (decode m).
Proof.
  intros Hb. pose proof (λ i, only_chances_bit b i Hb) as Hz. simpl.
  rewrite !Z.ldiff_spec, !Hz, !andb_true_r by lia.
  split_and!; [done|done|..]; apply Z.bits_inj'; intros i Hi; autorewrite with bits;
    split_cmp; rewrite ?andb_false_r; try done; rewrite Hz by lia; btauto.
Qed.

Lemma fewer_same_slot it it' :
  gen_ok (meta it) → fewer_chances it it' → same_slot it it'.
Proof.
  intros Hgen [He (b & Hm & Hb)].
  destruct (ldiff_chances_fields (meta it) b Hb) as (Hd & Hf & _ & Ht & Hg).
  rewrite <- Hm in *. unfold same_slot, ikey. rewrite He. split_and!; try done.
  - unfold occupied. destruct Hgen as [Hz|Hgood].
    + by rewrite Hm, Hz, Z.ldiff_0_l.
    + pose proof (gen_good_nonzero _ (gen_good_same _ _ Hg Hgood)).
      pose proof (gen_good_nonzero _ Hgood). f_equal. apply eqb_iff. tauto.
  - intros H64 _. split; [rewrite Hm; by apply ldiff_u64|].
    destruct Hgen as [Hz|Hgood]; [left; by rewrite Hm, Hz, Z.ldiff_0_l|right; by eapply gen_good_same].
Qed.

Lemma fewer_same_table (hash : K → Z) t t' :
  table_inv hash t → fewer_table t t' → same_table t t'.
Proof.
  intros Hi (Hs & Hm & Ho & HA). split_and!; try done. intros i. apply fewer_same_slot; [|done].
  by destruct (ti_meta hash t Hi i) as (_ & ? & _).
Qed.

Lemma fewer_isDead t t' i : fewer_table t t' → isDead t' i = isDead t i.
Proof.
  intros (_ & _ & _ & HA). destruct (HA i) as [_ (b & Hm & Hb)]. unfold isDead.
  rewrite !dead_test, Hm. by destruct (ldiff_chances_fields (meta (At t i)) b Hb) as (-> & _).
Qed.

Lemma expire_word m : u32 (Z.shiftr (Z.land m ExpireMask) ExpireShift) = f_expire (decode m).
Proof.
  simpl. unfold u32, ExpireShift. rewrite Z.mod_small.
  - bitwise.
  - assert (Z.shiftr (Z.land m ExpireMask) 42 = Z.land (Z.shiftr m 42) (Z.ones 18)) as -> by bitwise.
    pose proof (land_ones_range (Z.shiftr m 42) 18). lia.
Qed.

Lemma Expired_fields m now :
  0 ≤ now < 2 ^ 18 →
  Expired m now =
    negb (f_expire (decode m) =? 0) &&
    (let d := (f_expire (decode m) - now) mod 2 ^ 18 in (d =? 0) || (ExpireMax <? d)).
Proof.
  intros Hn. unfold Expired. rewrite expire_word. destruct (f_expire (decode m) =? 0); [done|]. cbn [negb andb]. cbv zeta.
  change ExpireWrapMask with (2 ^ 18 - 1). rewrite land_mod_pow2 by lia.
  unfold u32. rewrite Z.mod_mod_divide; [done|]. by exists (2 ^ 14).
Qed.

Lemma fewer_Expired it it' now :
  fewer_chances it it' → Expired (meta it') now = Expired (meta it) now.
Proof.
  intros [_ (b & Hm & Hb)]. rewrite Hm. unfold Expired.
  assert (Z.land (Z.ldiff (meta it) b) ExpireMask = Z.land (meta it) ExpireMask) as ->; [|done].
  pose proof (λ i, only_chances_bit b i Hb) as Hz.
  apply Z.bits_inj'; intros i Hi; autorewrite with bits; split_cmp; rewrite ?andb_false_r; try done.
  rewrite Hz by lia. btauto.
Qed.

Lemma fewer_alterAt t p f :
  table_shape t → fewer_chances (At t p) (f (At t p)) → fewer_table t (alterAt t p f).
Proof.
  intros Hs Hf. split_and!; [by apply shape_alterAt|apply mask_alterAt|apply overflows_alterAt|].
  intros i. rewrite At_alterAt by done. case_decide as E; [|done].
  by rewrite <- (At_Wrap t i), <- E, At_Wrap.
Qed.

Lemma RevokeChance_fewer it m : fewer_chances it (RevokeChance it m).
Proof.
  split; [apply RevokeChance_entry|]. unfold RevokeChance.
  case_match; [exists ThirdChance|exists SecondChance]; done.
Qed.

Lemma ResetChances_fewer it : fewer_chances it (ResetChances it).
Proof. split; [done|]. by exists ChanceMask. Qed.

Lemma fewer_chances_le it it' : fewer_chances it it' → (chances (meta it') ≤ chances (meta it))%nat.
Proof.
  intros [_ (b & -> & _)]. unfold chances. rewrite !Z.ldiff_spec.
  destruct (Z.testbit (meta it) 62), (Z.testbit (meta it) 61), (Z.testbit b 62), (Z.testbit b 61);
    simpl; lia.
Qed.

Lemma chances_le2 m : (chances m ≤ 2)%nat.
Proof. unfold chances. destruct (Z.testbit m 62), (Z.testbit m 61); simpl; lia. Qed.

Lemma ResetChances_chances it : chances (meta (ResetChances it)) = 0%nat.
Proof.
  unfold chances. cbn [ResetChances meta]. rewrite !Z.ldiff_spec, !testbit_ChanceMask.
  cbn. by rewrite !andb_false_r.
Qed.

(** The chances the queued items still have: what the GCLOCK loops consume. *)
Definition chanceSum t (l : list QNode) : nat :=
  sum_list_with (λ n, chances (meta (At t (Idx n)))) l.

Lemma chanceSum_le t l : (chanceSum t l ≤ 2 * length l)%nat.
Proof.
  unfold chanceSum. induction l as [|n l IH]; simpl; [lia|].
  pose proof (chances_le2 (meta (At t (Idx n)))). lia.
Qed.

Lemma chanceSum_fewer t t' l : fewer_table t t' → (chanceSum t' l ≤ chanceSum t l)%nat.
Proof.
  intros (_ & _ & _ & HA). unfold chanceSum. induction l as [|n l IH]; simpl; [lia|].
  pose proof (fewer_chances_le _ _ (HA (Idx n))). lia.
Qed.

(** Taking one chance from the head node and moving it to the tail lowers the sum. *)
Lemma chanceSum_revoke t n l :
  table_shape t → (Z.land (meta (At t (Idx n))) ChanceMask =? 0) = false →
  let t' := alterAt t (Idx n) (λ it, RevokeChance it (meta (At t (Idx n)))) in
  (chanceSum t' (l ++ [n]) < chanceSum t (n :: l))%nat.
Proof.
  intros Hs Hc t'. pose proof (RevokeChance_chances _ Hc) as Hr.
  assert (fewer_table t t') as Hf by (by apply fewer_alterAt, RevokeChance_fewer).
  pose proof (chanceSum_fewer t t' l Hf) as Hl. unfold chanceSum in *.
  rewrite sum_list_with_app. simpl. unfold t' at 2. rewrite At_alterAt, decide_True by done.
  rewrite Hr. lia.
Qed.

Lemma sum_list_with_perm {A} (f : A → nat) (l k : list A) :
  l ≡ₚ k → sum_list_with f l = sum_list_with f k.
Proof. induction 1; cbn in *; lia. Qed.

(** Clearing the counter of one queued item that had chances. *)
Lemma chanceSum_reset t n l :
  table_shape t → n ∈ l → (Z.land (meta (At t (Idx n))) ChanceMask =? 0) = false →
  (chanceSum (alterAt t (Idx n) ResetChances) l < chanceSum t l)%nat.
Proof.
  intros Hs Hin Hc. set (t' := alterAt t (Idx n) ResetChances).
  assert (fewer_table t t') as Hf by (by apply fewer_alterAt, ResetChances_fewer).
  apply elem_of_Permutation in Hin as [l' El]. unfold chanceSum.
  assert (∀ u : FlatHashMap K V, sum_list_with (λ n, chances (meta (At u (Idx n)))) l =
    (chances (meta (At u (Idx n))) + sum_list_with (λ n, chances (meta (At u (Idx n)))) l')%nat) as Hsum.
  { intros u. by rewrite (sum_list_with_perm _ _ _ El). }
  rewrite (Hsum t), (Hsum t'). pose proof (chanceSum_fewer t t' l' Hf) as Hl. unfold chanceSum in Hl.
  assert (chances (meta (At t' (Idx n))) = 0%nat) as ->.
  { unfold t'. rewrite At_alterAt, decide_True by done. apply ResetChances_chances. }
  pose proof (has_chance (meta (At t (Idx n)))) as Hh. rewrite Hc in Hh. cbn [negb] in Hh.
  unfold chances at 2. symmetry in Hh. apply orb_true_iff in Hh as [-> | ->]; cbn; [lia|].
  destruct (Z.testbit _ 62); cbn; lia.
Qed.

End Chances.

(** ** Sweeping and rebuilding one queue *)

Section OneQueue.
Context {K V : Type} `{!GoType K} `{!GoType V}.
Implicit Types (t : FlatHashMap K V).

(** Releasing a slot changes nobody's deadness. *)
Definition release_ok (release : FlatHashMap K V → Z → FlatHashMap K V) : Prop :=
  ∀ t i, table_shape t → table_shape (release t i) ∧ ∀ j, isDead (release t i) j = isDead t j.

Lemma release_foldl release (l : list Z) t :
  release_ok release → table_shape t →
  table_shape (foldl release t l) ∧ ∀ j, isDead (foldl release t l) j = isDead t j.
Proof.
  intros Hr. revert t. induction l as [|i l IH]; intros t Ht; [done|]. cbn [foldl].
  destruct (Hr t i Ht) as [Ht' Hd]. destruct (IH _ Ht') as [Hs Hj]. split; [done|].
  intros j. by rewrite Hj, Hd.
Qed.

Lemma SweepQueue_laws q t release :
  queue_wf q → table_shape t → release_ok release →
  let dead := filter (λ n, isDead t (Idx n) = true) (contents q) in
  ∃ q', SweepQueue isDead (λ t node, release t (Idx node)) q t = (q', foldl release t (Idx <$> dead)) ∧
    queue_wf q' ∧ contents q' = filter (λ n, isDead t (Idx n) = false) (contents q).
Proof.
  intros Hq Ht Hrel dead.
  destruct (SweepQueue_spec isDead (λ t node, release t (Idx node)) q t Hq) as (q' & E & Hq' & Hc).
  pose proof (sweepList_filter table_shape isDead (λ t node, release t (Idx node))
    ltac:(intros; by apply Hrel) (contents q) t Ht) as Hsw. rewrite Hsw in *.
  exists q'. split_and!; [|done|done]. rewrite E. cbn [snd]. f_equal. unfold dead. by rewrite foldl_fmap.
Qed.

Lemma RebuildQueue_laws {A} q (remap : A → Z → A * option Z) a :
  queue_wf q →
  ∃ q', RebuildQueue remap (λ a _, a) q a = (q', (rebuildList remap (λ a _, a) (contents q) a).2) ∧
    queue_wf q' ∧ contents q' = (rebuildList remap (λ a _, a) (contents q) a).1.
Proof.
  intros Hq. destruct (RebuildQueue_spec remap (λ a _, a) q a Hq) as (q' & E & Hq' & Hc). by exists q'.
Qed.

End OneQueue.

(** ** The laws *)

Class PolicyLaws (K V P : Type) `{!GoType K} `{!GoType V} `{!EvictionPolicy K V P} := {
  pInv : P → Prop;
  pNodes : P → list QNode;
  pAdd_laws p t n : pInv p → pInv (pAdd p t n) ∧ pNodes (pAdd p t n) ≡ₚ n :: pNodes p;
  pLen_laws p : pInv p → pLen p = length (pNodes p);
  pEvict_laws p (t : FlatHashMap K V) now :
    pInv p → table_shape t →
    ∃ p' t' r, pEvict p t now = Some (p', t', r) ∧ pInv p' ∧ fewer_table t t' ∧
      match r with
      | None => pNodes p = [] ∧ pNodes p' = []
      | Some i =>
        (∃ c, pNodes p ≡ₚ mkQNode i c :: pNodes p') ∧
        (isDead t i = true ∨ Expired (meta (At t i)) now = true ∨
         Z.land (meta (At t' i)) ChanceMask = 0)
      end;
  pSweep_laws p (t : FlatHashMap K V) release :
    pInv p → table_shape t →
    release_ok release →
    ∃ l p', pSweep p t release = (p', foldl release t (Idx <$> l)) ∧ pInv p' ∧
      l ≡ₚ filter (λ n, isDead t (Idx n) = true) (pNodes p) ∧
      pNodes p' ≡ₚ filter (λ n, isDead t (Idx n) = false) (pNodes p);
  pRebuild_laws A p (remap : A → Z → A * option Z) (a : A) :
    pInv p →
    ∃ l p', l ≡ₚ pNodes p ∧
      pRebuild p remap a = (p', (rebuildList remap (λ a _, a) l a).2) ∧ pInv p' ∧
      pNodes p' ≡ₚ (rebuildList remap (λ a _, a) l a).1
}.
