(* ===== verification/ClockPolicy.v ===== *)
(** * The Clock policy (internal/eviction/clock_policy.go)

    GCLOCK over one queue: a node with a chance loses it and goes to the tail, the first node
    without one is the victim. *)

From S2P Require Import Prelude Item Queue Table TableInv Policy.

Record ClockPolicy := mkClock { clk_q : EvictQueue }.

Definition NewClockPolicy : ClockPolicy := mkClock emptyQueue.

Section Clock.
Context {K V : Type} `{!GoType K} `{!GoType V}.
Implicit Types (t : FlatHashMap K V).

Definition clockAdd (p : ClockPolicy) t (node : QNode) : ClockPolicy := mkClock (Push (clk_q p) node).

Definition clockLen (p : ClockPolicy) : nat := qLen (clk_q p).

(** The struct itself is 48 bytes: the proxy pointer, two chunk pointers and three ints. *)
Definition clockBytes (p : ClockPolicy) : Z := 48 + qBytes (clk_q p).

Definition clockSweep (p : ClockPolicy) t (release : FlatHashMap K V → Z → FlatHashMap K V)
    : ClockPolicy * FlatHashMap K V :=
  let '(q, t) := SweepQueue isDead (λ t node, release t (Idx node)) (clk_q p) t in (mkClock q, t).

Definition clockRebuild {A} (p : ClockPolicy) (remap : A → Z → A * option Z) (a : A)
    : ClockPolicy * A :=
  let '(q, a) := RebuildQueue remap (λ a _, a) (clk_q p) a in (mkClock q, a).

(** The loop of [Evict]; every turn removes a node for good or spends one of its chances. *)
Fixpoint clockEvictLoop (fuel : nat) (q : EvictQueue) t (nowOff : Z)
    : option (EvictQueue * FlatHashMap K V * option Z) :=
  match fuel with
  | O => None
  | S fuel =>
    match Pop q with
    | (q, None) => Some (q, t, None)
    | (q, Some candidate) =>
      let metaWord := Metadata (At t (Idx candidate)) in
      if negb (Z.land metaWord Dead =? 0) || Expired metaWord nowOff
      then Some (q, t, Some (Idx candidate))
      else if negb (Z.land metaWord ChanceMask =? 0)
      then clockEvictLoop fuel (Push q candidate)
             (alterAt t (Idx candidate) (λ item, RevokeChance item metaWord)) nowOff
      else Some (q, t, Some (Idx candidate))
    end
  end.

(** A queue of [n] nodes holds at most [2n] chances. *)
Definition clockEvict (p : ClockPolicy) t (nowOff : Z)
    : option (ClockPolicy * FlatHashMap K V * option Z) :=
  match clockEvictLoop (2 * qsize (clk_q p) + 1) (clk_q p) t nowOff with
  | Some (q, t, r) => Some (mkClock q, t, r)
  | None => None
  end.

#[global] Instance ClockPolicy_ops : EvictionPolicy K V ClockPolicy := {|
  pAdd := clockAdd; pEvict := clockEvict; pLen := clockLen; pSweep := clockSweep;
  pRebuild := @clockRebuild; pBytes := clockBytes |}.

(** The loop finds a victim, or an empty queue, within the chances there are. *)
Lemma clockEvictLoop_spec fuel : ∀ q t nowOff,
  queue_wf q → table_shape t → (chanceSum t (contents q) < fuel)%nat →
  ∃ q' t' r, clockEvictLoop fuel q t nowOff = Some (q', t', r) ∧ queue_wf q' ∧ fewer_table t t' ∧
    match r with
    | None => contents q = [] ∧ contents q' = []
    | Some i =>
      (∃ c, contents q ≡ₚ mkQNode i c :: contents q') ∧
      (isDead t i = true ∨ Expired (meta (At t i)) nowOff = true ∨
       Z.land (meta (At t' i)) ChanceMask = 0)
    end.
Proof.
  induction fuel as [|fuel IH]; intros q t nowOff Hq Ht Hf; [lia|].
  simpl clockEvictLoop. pose proof (Pop_contents q Hq) as Hp.
  destruct (contents q) as [|[i c] l] eqn:El.
  { rewrite Hp. exists q, t, None. by rewrite El. }
  destruct Hp as (q1 & -> & Hq1 & Hc1). cbn [Idx].
  assert (∃ c, mkQNode i c :: l ≡ₚ mkQNode i c :: contents q1) as Hperm by (exists c; by rewrite Hc1).
  destruct (negb (Z.land (Metadata (At t i)) Dead =? 0) || Expired (Metadata (At t i)) nowOff) eqn:E1.
  { exists q1, t, (Some i). split_and!; [done..|exists c; by rewrite Hc1|].
    apply orb_true_iff in E1 as [E1|E1]; auto. }
  destruct (negb (Z.land (Metadata (At t i)) ChanceMask =? 0)) eqn:E2.
  2:{ apply negb_false_iff, Z.eqb_eq in E2.
      exists q1, t, (Some i). split_and!; [done..|exists c; by rewrite Hc1|by auto]. }
  apply negb_true_iff in E2. destruct (Push_spec q1 (mkQNode i c) Hq1) as [Hq2 Hc2].
  pose proof (chanceSum_revoke t (mkQNode i c) l Ht E2) as Hdec. cbn [Idx] in Hdec.
  set (t1 := alterAt t i (λ item, RevokeChance item (Metadata (At t i)))) in *.
  assert (fewer_table t t1) as Hf1 by (by apply fewer_alterAt, RevokeChance_fewer).
  destruct (IH (Push q1 (mkQNode i c)) t1 nowOff) as (q' & t' & r & E & Hq' & Hf' & Hr).
  { done. } { by apply Hf1. } { rewrite Hc2, Hc1. change t1 with (alterAt t i (λ item, RevokeChance item (meta (At t i)))). lia. }
  exists q', t', r. split_and!; [done|done|by etrans|].
  rewrite Hc2, Hc1 in Hr. destruct r as [j|]; [|by destruct l; destruct Hr].
  destruct Hr as [[c' Hp'] Hv]. split.
  - exists c'. rewrite <- Hp'. by rewrite Permutation_app_comm.
  - rewrite (fewer_isDead t t1), (fewer_Expired (At t j)) in Hv; [done|by apply Hf1|done].
Qed.

Definition clockInv (p : ClockPolicy) : Prop := queue_wf (clk_q p).
Definition clockNodes (p : ClockPolicy) : list QNode := contents (clk_q p).

Lemma clockAdd_laws p t n :
  clockInv p → clockInv (clockAdd p t n) ∧ clockNodes (clockAdd p t n) ≡ₚ n :: clockNodes p.
Proof.
  intros Hp. destruct (Push_spec (clk_q p) n Hp) as [Hq Hc]. split; [done|]. unfold clockNodes. cbn.
  rewrite Hc. by rewrite Permutation_app_comm.
Qed.

Lemma clockEvict_laws p t now :
  clockInv p → table_shape t →
  ∃ p' t' r, clockEvict p t now = Some (p', t', r) ∧ clockInv p' ∧ fewer_table t t' ∧
    match r with
    | None => clockNodes p = [] ∧ clockNodes p' = []
    | Some i =>
      (∃ c, clockNodes p ≡ₚ mkQNode i c :: clockNodes p') ∧
      (isDead t i = true ∨ Expired (meta (At t i)) now = true ∨
       Z.land (meta (At t' i)) ChanceMask = 0)
    end.
Proof.
  intros Hp Ht. unfold clockEvict.
  destruct (clockEvictLoop_spec (2 * qsize (clk_q p) + 1) (clk_q p) t now Hp Ht)
    as (q' & t' & r & -> & Hq' & Hf & Hr).
  { pose proof (chanceSum_le t (contents (clk_q p))) as H. rewrite contents_length in H by done. lia. }
  by exists (mkClock q'), t', r.
Qed.

Lemma clockSweep_laws p t release :
  clockInv p → table_shape t → release_ok release →
  ∃ l p', clockSweep p t release = (p', foldl release t (Idx <$> l)) ∧ clockInv p' ∧
    l ≡ₚ filter (λ n, isDead t (Idx n) = true) (clockNodes p) ∧
    clockNodes p' ≡ₚ filter (λ n, isDead t (Idx n) = false) (clockNodes p).
Proof.
  intros Hp Ht Hrel. destruct (SweepQueue_laws (clk_q p) t release Hp Ht Hrel) as (q' & E & Hq' & Hc).
  eexists _, (mkClock q'). split_and!; [unfold clockSweep; by rewrite E|done|done|].
  unfold clockNodes. cbn. by rewrite Hc.
Qed.

Lemma clockRebuild_laws A p (remap : A → Z → A * option Z) (a : A) :
  clockInv p →
  ∃ l p', l ≡ₚ clockNodes p ∧
    clockRebuild p remap a = (p', (rebuildList remap (λ a _, a) l a).2) ∧ clockInv p' ∧
    clockNodes p' ≡ₚ (rebuildList remap (λ a _, a) l a).1.
Proof.
  intros Hp. destruct (RebuildQueue_laws (clk_q p) remap a Hp) as (q' & E & Hq' & Hc).
  exists (contents (clk_q p)), (mkClock q').
  split_and!; [done|unfold clockRebuild; by rewrite E|done|unfold clockNodes; cbn; by rewrite Hc].
Qed.

#[global] Instance ClockPolicy_laws : PolicyLaws K V ClockPolicy := {|
  pInv := clockInv; pNodes := clockNodes; pAdd_laws := clockAdd_laws;
  pLen_laws p Hp := eq_sym (contents_length (clk_q p) Hp);
  pEvict_laws := clockEvict_laws; pSweep_laws := clockSweep_laws; pRebuild_laws := clockRebuild_laws |}.

End Clock.
