(* ===== verification/TwoQueue.v ===== *)
(** * What S3-FIFO and W-TinyLFU share

    Both policies keep a small queue in front of a main one, with the weight of the small queue, and
    their [Evict], [Sweep] and [Rebuild] have the same shape.  The eviction loop is written once over
    the two single steps, and proved to end for any steps that behave like a quarantine and a GCLOCK
    queue. *)

From S2P Require Import Prelude Item Queue Table TableInv Policy.

Definition sumCost (l : list QNode) : Z := foldr (λ n a, Cost n + a) 0 l.

#[global] Arguments sumCost : simpl never.

Lemma sumCost_cons n l : sumCost (n :: l) = Cost n + sumCost l.
Proof. done. Qed.

Lemma sumCost_app l k : sumCost (l ++ k) = sumCost l + sumCost k.
Proof. induction l as [|n l IH]; [done|]. cbn [app]. rewrite !sumCost_cons. lia. Qed.

Lemma sumCost_partition (f : QNode → bool) l :
  sumCost (filter (λ n, f n = true) l) + sumCost (filter (λ n, f n = false) l) = sumCost l.
Proof.
  induction l as [|n l IH]; [done|]. rewrite !filter_cons.
  destruct (f n); [rewrite decide_True, decide_False by done|rewrite decide_False, decide_True by done];
    rewrite !sumCost_cons; lia.
Qed.

Section Loop.
Context {K V P : Type} `{!GoType K} `{!GoType V}.
Context (small main : P → EvictQueue) (over : P → bool).
Context (smallOnce mainOnce : P → FlatHashMap K V → Z → P * FlatHashMap K V * option Z).
Implicit Types (t : FlatHashMap K V) (p : P).

(** The loop of [Evict] in both policies. *)
Fixpoint twoEvictLoop (fuel : nat) p t (nowOff : Z) : option (P * FlatHashMap K V * option Z) :=
  match fuel with
  | O => None
  | S fuel =>
    let fromSmall := over p && (0 <? qLen (small p))%nat in
    if negb fromSmall && (qLen (main p) =? 0)%nat && (qLen (small p) =? 0)%nat then Some (p, t, None)
    else
      let fromSmall := fromSmall || (qLen (main p) =? 0)%nat in
      let '(p, t, r) := if fromSmall then smallOnce p t nowOff else mainOnce p t nowOff in
      match r with
      | Some victim => Some (p, t, Some victim)
      | None => twoEvictLoop fuel p t nowOff
      end
  end.

Definition victim_ok t t' (i now : Z) : Prop :=
  isDead t i = true ∨ Expired (meta (At t i)) now = true ∨ Z.land (meta (At t' i)) ChanceMask = 0.

Context (inv : P → Prop).
Hypothesis inv_wf : ∀ p, inv p → queue_wf (small p) ∧ queue_wf (main p).

(** The head of the small queue is the victim, or moves to main without chances. *)
Hypothesis smallOnce_spec : ∀ p t now n l,
  inv p → table_shape t → contents (small p) = n :: l →
  ∃ p' t' r, smallOnce p t now = (p', t', r) ∧ inv p' ∧ fewer_table t t' ∧ contents (small p') = l ∧
    match r with
    | Some i => i = Idx n ∧ contents (main p') = contents (main p) ∧ victim_ok t t' i now
    | None => contents (main p') = contents (main p) ++ [n] ∧ chances (meta (At t' (Idx n))) = 0%nat
    end.

(** The head of main is the victim, or goes to its tail with one chance less. *)
Hypothesis mainOnce_spec : ∀ p t now n l,
  inv p → table_shape t → contents (main p) = n :: l →
  ∃ p' t' r, mainOnce p t now = (p', t', r) ∧ inv p' ∧ fewer_table t t' ∧ contents (small p') = contents (small p) ∧
    match r with
    | Some i => i = Idx n ∧ contents (main p') = l ∧ victim_ok t t' i now
    | None => contents (main p') = l ++ [n] ∧ (chanceSum t' (l ++ [n]) < chanceSum t (n :: l))%nat
    end.

(** Promotions shorten the small queue, and every other step spends a chance of main. *)
Definition twoMeasure p t : nat := length (contents (small p)) + chanceSum t (contents (main p)).

Definition twoNodes p : list QNode := contents (small p) ++ contents (main p).

Lemma victim_ok_fewer t t1 t' i now : fewer_table t t1 → victim_ok t1 t' i now → victim_ok t t' i now.
Proof.
  intros Hf Hv. unfold victim_ok in *. rewrite (fewer_isDead t t1), (fewer_Expired (At t i)) in Hv; [done|by apply Hf|done].
Qed.

(** What the laws ask of an eviction that started at [p] and [t]. *)
Definition evict_post p t now p' t' (r : option Z) : Prop :=
  inv p' ∧ fewer_table t t' ∧
  match r with
  | None => twoNodes p = [] ∧ twoNodes p' = []
  | Some i => (∃ c, twoNodes p ≡ₚ mkQNode i c :: twoNodes p') ∧ victim_ok t t' i now
  end.

Lemma evict_post_perm p t p1 t1 now p' t' r :
  fewer_table t t1 → twoNodes p ≡ₚ twoNodes p1 → evict_post p1 t1 now p' t' r → evict_post p t now p' t' r.
Proof using Type.
  intros Hf Hperm (Hp' & Hf' & Hr). split_and!; [done|by etrans|]. destruct r as [i|].
  - destruct Hr as [[c Hn] Hv]. split; [exists c; by rewrite Hperm|by eapply victim_ok_fewer].
  - destruct Hr as [Hn Hn']. rewrite Hn in Hperm. by apply Permutation_nil_r in Hperm.
Qed.

(** A turn ends the eviction or makes progress. *)
Definition turn_ok p t now (res : P * FlatHashMap K V * option Z) : Prop :=
  let '(p1, t1, r) := res in
  match r with
  | Some i => evict_post p t now p1 t1 (Some i)
  | None => inv p1 ∧ fewer_table t t1 ∧ twoNodes p ≡ₚ twoNodes p1 ∧ (twoMeasure p1 t1 < twoMeasure p t)%nat
  end.

Lemma smallTurn p t now n l :
  inv p → table_shape t → contents (small p) = n :: l → turn_ok p t now (smallOnce p t now).
Proof using smallOnce_spec.
  intros Hp Ht El. destruct (smallOnce_spec p t now n l Hp Ht El) as (p1 & t1 & [i|] & -> & Hp1 & Hf1 & Es & Hr).
  - destruct Hr as (-> & Em & Hv). split_and!; try done.
    exists (Cost n). unfold twoNodes. rewrite El, Es, Em. by destruct n.
  - destruct Hr as (Em & Hc0). split_and!; try done.
    + unfold twoNodes. rewrite El, Es, Em, app_assoc. by rewrite <- (Permutation_cons_append (l ++ _)).
    + unfold twoMeasure. rewrite Es, Em, El. cbn. pose proof (chanceSum_fewer t t1 (contents (main p)) Hf1).
      unfold chanceSum in *. rewrite sum_list_with_app. cbn. rewrite Hc0. lia.
Qed.

Lemma mainTurn p t now n l :
  inv p → table_shape t → contents (main p) = n :: l → turn_ok p t now (mainOnce p t now).
Proof using mainOnce_spec.
  intros Hp Ht El. destruct (mainOnce_spec p t now n l Hp Ht El) as (p1 & t1 & [i|] & -> & Hp1 & Hf1 & Es & Hr).
  - destruct Hr as (-> & Em & Hv). split_and!; try done.
    exists (Cost n). unfold twoNodes. rewrite El, Es, Em. destruct n. by rewrite <- Permutation_middle.
  - destruct Hr as (Em & Hdec). split_and!; try done.
    + unfold twoNodes. rewrite El, Es, Em. by rewrite <- (Permutation_cons_append l).
    + unfold twoMeasure. rewrite Es, Em, El. lia.
Qed.

Lemma twoEvictLoop_spec fuel : ∀ p t now,
  inv p → table_shape t → (twoMeasure p t < fuel)%nat →
  ∃ p' t' r, twoEvictLoop fuel p t now = Some (p', t', r) ∧ evict_post p t now p' t' r.
Proof using All.
  induction fuel as [|fuel IH]; intros p t now Hp Ht Hf; [lia|]. cbn [twoEvictLoop].
  destruct (inv_wf p Hp) as [Hws Hwm]. unfold qLen.
  rewrite <- (contents_length (small p)), <- (contents_length (main p)) by done.
  assert (∀ res, turn_ok p t now res → ∃ p' t' r,
    (let '(p, t, r) := res in
     match r with Some v => Some (p, t, Some v) | None => twoEvictLoop fuel p t now end) = Some (p', t', r) ∧
    evict_post p t now p' t' r) as Hturn.
  { intros [[p1 t1] [i|]] Hres; cbn in Hres; [by exists p1, t1, (Some i)|].
    destruct Hres as (Hp1 & Hf1 & Hperm & Hlt).
    destruct (IH p1 t1 now Hp1) as (p' & t' & r & E & Hpost); [by apply Hf1|lia|].
    exists p', t', r. split; [done|]. by eapply evict_post_perm. }
  destruct (contents (small p)) as [|n l] eqn:El; destruct (contents (main p)) as [|n' l'] eqn:El'; cbn [length].
  - cbn. rewrite !andb_false_r. cbn. exists p, t, None. unfold evict_post, twoNodes. by rewrite El, El'.
  - cbn. rewrite !andb_false_r. cbn. by eapply Hturn, mainTurn.
  - cbn. rewrite andb_false_r, orb_true_r. by eapply Hturn, smallTurn.
  - cbn. rewrite andb_true_r, !andb_false_r, orb_false_r. cbn.
    destruct (over p); eapply Hturn; [by eapply smallTurn|by eapply mainTurn].
Qed.

End Loop.

(** ** The weight of the small queue *)

Section Weighted.
Context {K V A : Type} `{!GoType K} `{!GoType V}.
Implicit Types (t : FlatHashMap K V) (w : Z).

(** The [onDrop] closures of the small queue: they give the node's cost back. *)
Definition dropSwept (release : FlatHashMap K V → Z → FlatHashMap K V) (a : FlatHashMap K V * Z) (node : QNode)
    : FlatHashMap K V * Z := (release a.1 (Idx node), a.2 - Cost node).

Definition dropRebuilt (a : A * Z) (node : QNode) : A * Z := (a.1, a.2 - Cost node).

(** The caller's [remap] does not touch the weight. *)
Definition remapKeeping (remap : A → Z → A * option Z) (a : A * Z) (i : Z) : A * Z * option Z :=
  let '(a', r) := remap a.1 i in ((a', a.2), r).

Lemma foldl_dropSwept release (l : list QNode) t w :
  foldl (dropSwept release) (t, w) l = (foldl release t (Idx <$> l), w - sumCost l).
Proof.
  revert t w. induction l as [|n l IH]; intros t w; cbn; [change (sumCost []) with 0; f_equal; lia|].
  unfold dropSwept at 2. cbn [fst snd]. rewrite IH, sumCost_cons. f_equal. lia.
Qed.

Lemma SweepQueue_weighted q t w release :
  queue_wf q → table_shape t → release_ok release →
  let dead := filter (λ n, isDead t (Idx n) = true) (contents q) in
  ∃ q', SweepQueue (λ a i, isDead a.1 i) (dropSwept release) q (t, w) =
      (q', (foldl release t (Idx <$> dead), w - sumCost dead)) ∧
    queue_wf q' ∧ contents q' = filter (λ n, isDead t (Idx n) = false) (contents q).
Proof.
  intros Hq Ht Hrel dead.
  destruct (SweepQueue_spec (λ a i, isDead a.1 i) (dropSwept release) q (t, w) Hq) as (q' & E & Hq' & Hc).
  pose proof (sweepList_filter (λ a : FlatHashMap K V * Z, table_shape a.1) (λ a i, isDead a.1 i) (dropSwept release)
    ltac:(intros a x Ha; cbn; by apply Hrel) (contents q) (t, w) Ht) as Hsw.
  rewrite Hsw in *. cbn [fst snd] in *. rewrite foldl_dropSwept in E. by exists q'.
Qed.

(** The two sweeps one after the other. *)
Lemma twoSweep_laws qs qm t w release :
  queue_wf qs → queue_wf qm → table_shape t → release_ok release →
  ∃ small main w' l,
    let t1 := foldl release t (Idx <$> filter (λ n, isDead t (Idx n) = true) (contents qs)) in
    SweepQueue (λ a i, isDead a.1 i) (dropSwept release) qs (t, w) = (small, (t1, w')) ∧
    SweepQueue isDead (λ t node, release t (Idx node)) qm t1 = (main, foldl release t (Idx <$> l)) ∧
    queue_wf small ∧ queue_wf main ∧ w' - sumCost (contents small) = w - sumCost (contents qs) ∧
    l ≡ₚ filter (λ n, isDead t (Idx n) = true) (contents qs ++ contents qm) ∧
    contents small ++ contents main ≡ₚ filter (λ n, isDead t (Idx n) = false) (contents qs ++ contents qm).
Proof.
  intros Hs Hm Ht Hrel. destruct (SweepQueue_weighted qs t w release Hs Ht Hrel) as (small & E1 & Hs' & Hc1).
  set (t1 := foldl release t _) in *. destruct (release_foldl release (Idx <$> filter (λ n, isDead t (Idx n) = true) (contents qs)) t Hrel Ht) as [Ht1 Hd1]. fold t1 in Ht1, Hd1.
  destruct (SweepQueue_laws qm t1 release Hm Ht1 Hrel) as (main & E2 & Hm' & Hc2).
  assert (∀ b, filter (λ n, isDead t1 (Idx n) = b) (contents qm) = filter (λ n, isDead t (Idx n) = b) (contents qm)) as Hf.
  { intros b. apply list_filter_iff. intros n. by rewrite Hd1. }
  rewrite Hf in E2, Hc2.
  eexists small, main, _, _. split_and!; [exact E1| |done|done| |done|].
  - rewrite E2. rewrite filter_app, fmap_app, foldl_app. done.
  - rewrite Hc1. pose proof (sumCost_partition (λ n, isDead t (Idx n)) (contents qs)) as H.
    cbv beta in H. lia.
  - by rewrite Hc1, Hc2, filter_app.
Qed.

Lemma rebuildList_weighted (remap : A → Z → A * option Z) l : ∀ a w,
  rebuildList (remapKeeping remap) dropRebuilt l (a, w) =
    let r := rebuildList remap (λ a _, a) l a in (r.1, (r.2, w - sumCost l + sumCost r.1)).
Proof.
  induction l as [|n l IH]; intros a w; cbn; [change (sumCost []) with 0; repeat f_equal; lia|].
  unfold remapKeeping at 1. cbn [fst snd]. rewrite sumCost_cons. destruct (remap a (Idx n)) as [a' [i|]].
  - rewrite IH. cbn. destruct (rebuildList remap _ l a') as [k b]. cbn. rewrite sumCost_cons. cbn [Cost].
    do 2 f_equal. lia.
  - unfold dropRebuilt at 2. cbn [fst snd]. rewrite IH. cbn. do 2 f_equal. lia.
Qed.

Lemma RebuildQueue_weighted q (remap : A → Z → A * option Z) a w :
  queue_wf q →
  let r := rebuildList remap (λ a _, a) (contents q) a in
  ∃ q', RebuildQueue (remapKeeping remap) dropRebuilt q (a, w) =
      (q', (r.2, w - sumCost (contents q) + sumCost r.1)) ∧
    queue_wf q' ∧ contents q' = r.1.
Proof.
  intros Hq r. destruct (RebuildQueue_spec (remapKeeping remap) dropRebuilt q (a, w) Hq) as (q' & E & Hq' & Hc).
  rewrite rebuildList_weighted in E, Hc. by exists q'.
Qed.

End Weighted.
