(* ===== verification/S3Fifo.v ===== *)
(** * The S3-FIFO policy and its ghost table (internal/eviction/s3fifo_policy.go) *)

From S2P Require Import Prelude Item Queue Table TableInv Policy TwoQueue.

(** ** The ghost table *)

Record ghostSlot := mkGhostSlot { shortHash : Z; gseq : Z }.

(** The seed is represented by the hash function it selects. *)
Record ghostTable (K : Type) := mkGhost {
  gseed : K → Z;
  gslots : list ghostSlot;
  gmask : Z;
  seqNo : Z;
  ageWindow : Z
}.
Arguments mkGhost {K}.
Arguments gseed {K}.
Arguments gslots {K}.
Arguments gmask {K}.
Arguments seqNo {K}.
Arguments ageWindow {K}.

Definition emptyGhost : ghostSlot := mkGhostSlot 0 0.

Section Ghost.
Context {K : Type}.
Implicit Types (g : ghostTable K) (key : K).

Definition newGhostTable (seed : K → Z) (capacity : Z) : ghostTable K :=
  if capacity <=? 0 then mkGhost seed [] 0 0 0
  else
    let slots := Z.shiftl 1 (bitsLen (capacity - 1)) in
    let slots := if slots <? 2 then 2 else slots in
    mkGhost seed (replicate (Z.to_nat slots) emptyGhost) (u32 (slots / 2 - 1)) 0 (u32 slots).

(** The index of the bucket's first slot, and the fingerprint. *)
Definition locate g key : Z * Z :=
  let hash := gseed g key in
  let short := u32 (Z.shiftr hash 32) in
  let short := if short =? 0 then 1 else short in
  (u32 (Z.land (u32 hash) (gmask g) * 2), short).

Definition ghostAt g (i : Z) : ghostSlot := default emptyGhost (gslots g !! Z.to_nat i).

Definition ghostStore g (i : Z) (s : ghostSlot) : ghostTable K :=
  mkGhost (gseed g) (<[Z.to_nat i := s]> (gslots g)) (gmask g) (seqNo g) (ageWindow g).

Definition ghostPush g key : ghostTable K :=
  if (length (gslots g) =? 0)%nat then g
  else
    let '(first, short) := locate g key in
    let g := mkGhost (gseed g) (gslots g) (gmask g) (u32 (seqNo g + 1)) (ageWindow g) in
    let a := ghostAt g first in
    let b := ghostAt g (u32 (first + 1)) in
    let target :=
      if shortHash a =? short then first
      else if shortHash b =? short then u32 (first + 1)
      else if u32 (seqNo g - gseq a) <? u32 (seqNo g - gseq b) then u32 (first + 1)
      else first in
    ghostStore g target (mkGhostSlot short (seqNo g)).

(** One turn of the loop of [hit]. *)
Definition ghostFresh g (fp i : Z) : bool :=
  (shortHash (ghostAt g i) =? fp) && (u32 (seqNo g - gseq (ghostAt g i)) <? ageWindow g).

Definition ghostHit g key : ghostTable K * bool :=
  if (length (gslots g) =? 0)%nat then (g, false)
  else
    let '(first, fp) := locate g key in
    if ghostFresh g fp first then (ghostStore g first emptyGhost, true)
    else if ghostFresh g fp (u32 (first + 1)) then (ghostStore g (u32 (first + 1)) emptyGhost, true)
    else (g, false).

Definition ghostBytes g : Z := Z.of_nat (length (gslots g)) * 8.

End Ghost.

(** ** What the ghost remembers *)

Section GhostSpec.
Context {K : Type}.
Implicit Types (g : ghostTable K) (key : K).

(** A table of [2^m] slots in which no bucket holds a fingerprint twice. *)
Record ghost_wf g : Prop := {
  gw_size : ∃ m, 1 ≤ m ≤ 31 ∧ Z.of_nat (length (gslots g)) = 2 ^ m ∧ gmask g = 2 ^ (m - 1) - 1 ∧
    ageWindow g = 2 ^ m;
  gw_uniq i : 0 ≤ i → shortHash (ghostAt g (2 * i)) = shortHash (ghostAt g (2 * i + 1)) →
    shortHash (ghostAt g (2 * i)) = 0
}.

Lemma newGhostTable_wf seed capacity :
  1 ≤ capacity ≤ 2 ^ 31 → ghost_wf (newGhostTable (K := K) seed capacity).
Proof.
  intros Hc. destruct (bitsLen_ceil capacity ltac:(lia)) as [Hle Hlt].
  pose proof (bitsLen_nonneg (capacity - 1)) as Hn. unfold newGhostTable.
  destruct (Z.leb_spec capacity 0); [lia|]. cbv zeta. rewrite Z.shiftl_1_l.
  set (m0 := bitsLen (capacity - 1)) in *.
  assert (∃ m, 1 ≤ m ≤ 31 ∧ (if 2 ^ m0 <? 2 then 2 else 2 ^ m0) = 2 ^ m) as (m & Hm & ->).
  { destruct (Z.ltb_spec (2 ^ m0) 2) as [|H2]; [by exists 1|]. exists m0. split; [|done]. split.
    - destruct (Z_lt_le_dec m0 1); [|done]. replace m0 with 0 in H2 by lia. simpl in H2. lia.
    - destruct (Z_lt_le_dec 31 m0) as [H31|]; [|done]. pose proof (Z.pow_le_mono_r 2 32 m0) as H32.
      destruct (Z.eq_dec capacity 1) as [->|]; [by cbn in H31|]. specialize (Hlt ltac:(lia)). lia. }
  assert (0 < 2 ^ m ≤ 2 ^ 31) as Hp by (split; [apply Z.pow_pos_nonneg; lia|apply Z.pow_le_mono_r; lia]).
  assert (2 ^ m / 2 = 2 ^ (m - 1)) as Hh.
  { replace m with (m - 1 + 1) at 1 by lia. rewrite Z.pow_add_r by lia. by apply Z.div_mul. }
  assert (0 < 2 ^ (m - 1) ≤ 2 ^ m) by (split; [apply Z.pow_pos_nonneg; lia|apply Z.pow_le_mono_r; lia]).
  split; cbn [gslots gmask ageWindow].
  - exists m. rewrite length_replicate, Hh. unfold u32. rewrite !Z.mod_small by lia. split_and!; try done; lia.
  - intros i _ _. unfold ghostAt. cbn [gslots].
    destruct (replicate _ _ !! _) eqn:E; [|done]. by apply lookup_replicate_1 in E as [-> _].
Qed.

(** The bucket of a key. *)
Lemma locate_spec g key :
  ghost_wf g →
  ∃ i fp, locate g key = (2 * i, fp) ∧ 0 ≤ i ∧ 2 * i + 1 < Z.of_nat (length (gslots g)) ∧
    u32 (2 * i + 1) = 2 * i + 1 ∧ fp ≠ 0.
Proof.
  intros [(m & Hm & Hl & Hmask & _) _]. unfold locate. rewrite Hmask, land_mod_pow2 by lia.
  set (i := u32 (gseed g key) mod 2 ^ (m - 1)).
  assert (0 ≤ i < 2 ^ (m - 1)) as Hi by (apply Z.mod_pos_bound, Z.pow_pos_nonneg; lia).
  assert (2 ^ m = 2 * 2 ^ (m - 1)) as Hpow.
  { replace m with (m - 1 + 1) at 1 by lia. rewrite Z.pow_add_r by lia. lia. }
  assert (2 ^ m ≤ 2 ^ 31) by (apply Z.pow_le_mono_r; lia).
  exists i. eexists. split_and!; [|lia|lia| |].
  - rewrite (Z.mul_comm i 2). unfold u32 at 1. rewrite Z.mod_small by lia. done.
  - unfold u32. rewrite Z.mod_small; lia.
  - case_match eqn:E; [done|]. by apply Z.eqb_neq in E.
Qed.

Lemma ghostAt_store g i j s :
  0 ≤ i < Z.of_nat (length (gslots g)) → 0 ≤ j →
  ghostAt (ghostStore g i s) j = if decide (i = j) then s else ghostAt g j.
Proof.
  intros Hi Hj. unfold ghostAt, ghostStore. cbn [gslots]. case_decide as E.
  - subst j. by rewrite list_lookup_insert_eq by lia.
  - by rewrite list_lookup_insert_ne by lia.
Qed.

Lemma ghost_wf_store g g' i s :
  ghost_wf g → gslots g' = gslots g → gmask g' = gmask g → ageWindow g' = ageWindow g →
  0 ≤ i < Z.of_nat (length (gslots g)) →
  (shortHash s = 0 ∨ shortHash (ghostAt g (if Z.even i then i + 1 else i - 1)) ≠ shortHash s) →
  ghost_wf (ghostStore g' i s).
Proof.
  intros [Hsize Huniq] Es Em Ea Hi Hs. split.
  - destruct Hsize as (m & Hm & Hl & Hmask & Hage). exists m. cbn. rewrite length_insert, Es, Em, Ea. done.
  - intros j Hj. rewrite !ghostAt_store by (rewrite ?Es; lia).
    assert (∀ x, ghostAt g' x = ghostAt g x) as Hat by (intros; unfold ghostAt; by rewrite Es). rewrite !Hat.
    destruct (Z.eq_dec i (2 * j)) as [->|H1]; [|destruct (Z.eq_dec i (2 * j + 1)) as [->|H2]].
    + rewrite decide_True, decide_False by lia. rewrite Z.even_mul in Hs. cbn in Hs. destruct Hs as [Hs|Hs]; [by intros|].
      intros E. congruence.
    + rewrite decide_False, decide_True by lia. rewrite Z.even_add, Z.even_mul in Hs. cbn in Hs.
      replace (2 * j + 1 - 1) with (2 * j) in Hs by lia. destruct Hs as [Hs|Hs]; [congruence|]. intros E. congruence.
    + rewrite !decide_False by done. by apply Huniq.
Qed.

(** Remembering a key: it is hit once, by either slot of its bucket, and then forgotten. *)
Lemma ghost_push_wf g key :
  ghost_wf g →
  let g1 := ghostPush g key in
  ghost_wf g1 ∧ ∃ i fp j, locate g1 key = (2 * i, fp) ∧ (j = 2 * i ∨ j = 2 * i + 1) ∧ 0 ≤ i ∧
    2 * i + 1 < Z.of_nat (length (gslots g1)) ∧ u32 (2 * i + 1) = 2 * i + 1 ∧ fp ≠ 0 ∧
    ghostAt g1 j = mkGhostSlot fp (seqNo g1) ∧
    (∀ j', (j' = 2 * i ∨ j' = 2 * i + 1) → j' ≠ j → shortHash (ghostAt g1 j') ≠ fp).
Proof.
  intros Hwf g1. destruct (locate_spec g key Hwf) as (i & fp & El & Hi & Hr & Hu & Hfp).
  unfold g1, ghostPush. destruct (Nat.eqb_spec (length (gslots g)) 0); [lia|]. rewrite El, Hu.
  set (g0 := mkGhost (gseed g) (gslots g) (gmask g) (u32 (seqNo g + 1)) (ageWindow g)).
  assert (∀ x, ghostAt g0 x = ghostAt g x) as Hat by done. rewrite !Hat.
  set (a := ghostAt g (2 * i)). set (b := ghostAt g (2 * i + 1)).
  set (j := if shortHash a =? fp then 2 * i else if shortHash b =? fp then 2 * i + 1
    else if u32 (seqNo g0 - gseq a) <? u32 (seqNo g0 - gseq b) then 2 * i + 1 else 2 * i).
  assert ((j = 2 * i ∧ shortHash b ≠ fp) ∨ (j = 2 * i + 1 ∧ shortHash a ≠ fp)) as Hj.
  { unfold j. destruct (Z.eqb_spec (shortHash a) fp) as [Ea|Ea].
    - left. split; [done|]. intros Eb. destruct Hfp. rewrite <- Ea. apply (gw_uniq _ Hwf i Hi). fold a b. congruence.
    - destruct (Z.eqb_spec (shortHash b) fp); [by right|]. case_match; [by right|by left]. }
  assert (0 ≤ j < Z.of_nat (length (gslots g))) as Hjr by (destruct Hj as [[-> _]|[-> _]]; lia).
  split.
  - apply (ghost_wf_store g); try done. right. cbn [shortHash]. destruct Hj as [[-> Hn]|[-> Hn]].
    + rewrite Z.even_mul. done.
    + rewrite Z.even_add, Z.even_mul. cbn. by replace (2 * i + 1 - 1) with (2 * i) by lia.
  - exists i, fp, j. cbn [ghostStore gslots]. rewrite length_insert. split_and!; try done; [tauto| |].
    + rewrite ghostAt_store, decide_True by (done || lia). done.
    + intros j' Hj' Hne. rewrite ghostAt_store, decide_False, Hat by (try done; lia).
      destruct Hj as [[-> Hn]|[-> Hn]], Hj' as [-> | ->]; done.
Qed.

Lemma ghostHit_wf g key : ghost_wf g → ghost_wf (ghostHit g key).1.
Proof.
  intros Hwf. destruct (locate_spec g key Hwf) as (i & fp & El & Hi & Hr & Hu & _). unfold ghostHit.
  destruct (Nat.eqb_spec (length (gslots g)) 0); [done|]. rewrite El, Hu.
  repeat case_match; [apply (ghost_wf_store g); try done; [lia|by left]..|done].
Qed.

Lemma ghost_push_then_hit g key :
  ghost_wf g →
  let g1 := ghostPush g key in let '(g2, h) := ghostHit g1 key in
  h = true ∧ ghost_wf g2 ∧ ghostHit g2 key = (g2, false).
Proof.
  intros Hwf g1. destruct (ghost_push_wf g key Hwf) as (Hwf1 & i & fp & j & El & Hj & Hi & Hr & Hu & Hfp & Hat & Hother).
  fold g1 in Hwf1, El, Hr, Hat, Hother.
  assert (∀ x, (x = 2 * i ∨ x = 2 * i + 1) → ghostFresh g1 fp x = bool_decide (x = j)) as Hfresh.
  { intros x Hx. unfold ghostFresh. case_bool_decide as E.
    - subst x. rewrite Hat. cbn. rewrite Z.eqb_refl, Z.sub_diag. cbn.
      destruct (gw_size _ Hwf1) as (m & Hm & _ & _ & ->). apply Z.ltb_lt. apply Z.pow_pos_nonneg; lia.
    - destruct (Z.eqb_spec (shortHash (ghostAt g1 x)) fp) as [E'|]; [|done]. by destruct (Hother x Hx E). }
  assert (ghostHit g1 key = (ghostStore g1 j emptyGhost, true)) as Eh.
  { unfold ghostHit. destruct (Nat.eqb_spec (length (gslots g1)) 0); [lia|]. rewrite El, Hu, !Hfresh by auto.
    destruct Hj as [-> | ->]; [by rewrite bool_decide_eq_true_2|].
    by rewrite bool_decide_eq_false_2, bool_decide_eq_true_2 by lia. }
  rewrite Eh. set (g2 := ghostStore g1 j emptyGhost).
  assert (0 ≤ j < Z.of_nat (length (gslots g1))) as Hjr by (destruct Hj as [-> | ->]; lia).
  split_and!; [done|apply (ghost_wf_store g1); try done; by left|].
  assert (∀ x, (x = 2 * i ∨ x = 2 * i + 1) → ghostFresh g2 fp x = false) as Hno.
  { intros x Hx. unfold ghostFresh, g2. rewrite ghostAt_store by lia. case_decide as E; cbn [emptyGhost shortHash gseq].
    - destruct (Z.eqb_spec 0 fp); [congruence|done].
    - destruct (Z.eqb_spec (shortHash (ghostAt g1 x)) fp) as [E'|]; [|done]. by destruct (Hother x Hx ltac:(congruence)). }
  unfold ghostHit. replace (length (gslots g2)) with (length (gslots g1)) by (symmetry; apply length_insert).
  destruct (Nat.eqb_spec (length (gslots g1)) 0); [done|].
  change (locate g2 key) with (locate g1 key). by rewrite El, Hu, !Hno by auto.
Qed.

(** A key in the table: its fingerprint is in slot [x] of its bucket and not in the other slot [y], and [age] keys were
    remembered since. *)
Definition remembers g key (age x y : Z) : Prop :=
  ∃ i fp, locate g key = (2 * i, fp) ∧ 0 ≤ i ∧ 2 * i + 1 < Z.of_nat (length (gslots g)) ∧ u32 (2 * i + 1) = 2 * i + 1 ∧
    ((x = 2 * i ∧ y = 2 * i + 1) ∨ (x = 2 * i + 1 ∧ y = 2 * i)) ∧
    shortHash (ghostAt g x) = fp ∧ shortHash (ghostAt g y) ≠ fp ∧ u32 (seqNo g - gseq (ghostAt g x)) = age.

Lemma remembers_pushed g key : ghost_wf g → ∃ x y, remembers (ghostPush g key) key 0 x y.
Proof.
  intros Hwf. destruct (ghost_push_wf g key Hwf) as (_ & i & fp & j & El & Hj & Hi & Hr & Hu & _ & Hat & Hother).
  exists j, (4 * i + 1 - j), i, fp. rewrite Hat. cbn [shortHash gseq]. rewrite Z.sub_diag.
  split_and!; try done; [destruct Hj as [-> | ->]; [left|right]; lia|]. apply Hother; destruct Hj as [-> | ->]; lia.
Qed.

(** Asking for another key takes nothing from this one. *)
Lemma remembers_hit g key key' age x y :
  ghost_wf g → remembers g key age x y → locate g key' ≠ locate g key → remembers (ghostHit g key').1 key age x y.
Proof.
  intros Hwf (i & fp & El & Hi & Hr & Hu & Hxy & Hx & Hy & Ha) Hne.
  destruct (locate_spec g key' Hwf) as (i' & fp' & El' & Hi' & Hr' & Hu' & Hfp').
  assert (fp ≠ 0) as Hfp by (destruct (locate_spec g key Hwf) as (? & ? & E & _ & _ & _ & ?); congruence).
  assert (∀ z, 0 ≤ z < Z.of_nat (length (gslots g)) → ghostFresh g fp' z = true → (z = 2 * i' ∨ z = 2 * i' + 1) →
    remembers (ghostStore g z emptyGhost) key age x y) as Hst.
  { intros z Hz [Hz1%Z.eqb_eq _]%andb_true_iff Hzi. assert (z ≠ x) as Hzx.
    { intros ->. destruct Hne. rewrite El, El'. f_equal; [|congruence]. lia. }
    exists i, fp. cbn [ghostStore gslots]. rewrite length_insert, !ghostAt_store by lia. rewrite (decide_False (P := z = x)) by done.
    split_and!; try done. case_decide; [|done]. cbn. congruence. }
  unfold ghostHit. destruct (Nat.eqb_spec (length (gslots g)) 0); [lia|]. rewrite El', Hu'.
  destruct (ghostFresh g fp' (2 * i')) eqn:E1; [apply Hst; [lia|done|by left]|].
  destruct (ghostFresh g fp' (2 * i' + 1)) eqn:E2; [apply Hst; [lia|done|by right]|]. by exists i, fp.
Qed.

(** Remembering another key ages this one and leaves it, unless both compete for the last slot of a bucket. *)
Lemma remembers_push g key key' age x y :
  ghost_wf g → remembers g key age x y → age + 1 < 2 ^ 32 → locate g key' ≠ locate g key →
  ((locate g key').1 = (locate g key).1 → age < u32 (u32 (seqNo g + 1) - gseq (ghostAt g y)) - 1) →
  remembers (ghostPush g key') key (age + 1) x y.
Proof.
  intros Hwf (i & fp & El & Hi & Hr & Hu & Hxy & Hx & Hy & Ha) Hage Hne Hold.
  destruct (locate_spec g key' Hwf) as (i' & fp' & El' & Hi' & Hr' & Hu' & Hfp').
  assert (u32 (u32 (seqNo g + 1) - gseq (ghostAt g x)) = age + 1) as Ha'.
  { assert (0 ≤ age) by (rewrite <- Ha; apply Z.mod_pos_bound; lia). unfold u32 in *. rewrite Zminus_mod_idemp_l.
    replace (seqNo g + 1 - _) with (seqNo g - gseq (ghostAt g x) + 1) by lia. rewrite <- Zplus_mod_idemp_l, Ha. apply Z.mod_small. lia. }
  rewrite El, El' in *. cbn [fst] in *.
  unfold ghostPush. destruct (Nat.eqb_spec (length (gslots g)) 0); [lia|]. rewrite El', Hu'.
  set (g0 := mkGhost (gseed g) (gslots g) (gmask g) (u32 (seqNo g + 1)) (ageWindow g)).
  assert (∀ z, ghostAt g0 z = ghostAt g z) as Hat by done. rewrite !Hat. cbn [seqNo g0].
  set (z := if shortHash (ghostAt g (2 * i')) =? fp' then _ else _).
  assert (0 ≤ z < Z.of_nat (length (gslots g)) ∧ (z = 2 * i' ∨ z = 2 * i' + 1)) as [Hz Hzi] by (unfold z; repeat case_match; lia).
  assert (z ≠ x) as Hzx.
  { intros Ez. assert (i' = i) as -> by lia. assert (fp' ≠ fp) as Hf by congruence. specialize (Hold eq_refl).
    unfold z in Ez. destruct Hxy as [[-> ->]|[-> ->]]; rewrite Hx, (proj2 (Z.eqb_neq fp fp')) in Ez by done; repeat case_match; lia. }
  exists i, fp. cbn [ghostStore gslots seqNo]. rewrite length_insert, !ghostAt_store by (cbn; lia).
  rewrite (decide_False (P := z = x)) by done. rewrite !Hat. split_and!; try done.
  case_decide as Ezy; [|done]. cbn [shortHash]. intros ->. destruct Hne. f_equal. lia.
Qed.

(** It is found again exactly as long as it is not too old. *)
Lemma remembers_found g key age x y :
  ghost_wf g → remembers g key age x y → (ghostHit g key).2 = (age <? ageWindow g).
Proof.
  intros Hwf (i & fp & El & Hi & Hr & Hu & Hxy & Hx & Hy & Ha). unfold ghostHit.
  destruct (Nat.eqb_spec (length (gslots g)) 0); [lia|]. rewrite El, Hu.
  assert (ghostFresh g fp x = (age <? ageWindow g)) as Ex by (unfold ghostFresh; by rewrite Hx, Z.eqb_refl, Ha).
  assert (ghostFresh g fp y = false) as Ey by (unfold ghostFresh; by rewrite (proj2 (Z.eqb_neq _ _) Hy)).
  destruct Hxy as [[-> ->]|[-> ->]]; rewrite Ex, Ey; by destruct (age <? ageWindow g).
Qed.

(** Stamps of a table that has not gone round its sequence numbers. *)
Definition ghost_stamps g : Prop := 0 ≤ seqNo g < 2 ^ 32 ∧ ∀ z, 0 ≤ z → 0 ≤ gseq (ghostAt g z) ≤ seqNo g.

Lemma newGhostTable_stamps seed capacity : ghost_stamps (newGhostTable (K := K) seed capacity).
Proof.
  unfold newGhostTable. case_match; (split; [done|]); intros z _; unfold ghostAt; cbn [gslots]; [done|].
  destruct (replicate _ _ !! _) eqn:E; [|done]. by apply lookup_replicate_1 in E as [-> _].
Qed.

(** What the two operations write. *)
Lemma ghostPush_at g key z :
  ghost_wf g → 0 ≤ z →
  let g' := ghostPush g key in
  seqNo g' = u32 (seqNo g + 1) ∧ locate g' = locate g ∧ ageWindow g' = ageWindow g ∧
  (ghostAt g' z = ghostAt g z ∨ ghostAt g' z = mkGhostSlot (locate g key).2 (seqNo g')) ∧
  (z < (locate g key).1 ∨ (locate g key).1 + 1 < z → ghostAt g' z = ghostAt g z).
Proof.
  intros Hwf Hz g'. destruct (locate_spec g key Hwf) as (i & fp & El & Hi & Hr & Hu & _). rewrite El. cbn [fst snd]. unfold g', ghostPush.
  destruct (Nat.eqb_spec (length (gslots g)) 0); [lia|]. rewrite El, Hu. set (g0 := mkGhost _ _ _ _ _). set (j := if _ =? fp then _ else _).
  assert (j = 2 * i ∨ j = 2 * i + 1) as Hj by (unfold j; repeat case_match; lia).
  split_and!; [done..| |]; rewrite ghostAt_store by (cbn; lia); case_decide; subst; [by right|by left|lia|done].
Qed.

Lemma ghostHit_at g key z :
  ghost_wf g → 0 ≤ z →
  let g' := (ghostHit g key).1 in
  seqNo g' = seqNo g ∧ locate g' = locate g ∧ ageWindow g' = ageWindow g ∧ (ghostAt g' z = ghostAt g z ∨ ghostAt g' z = emptyGhost).
Proof.
  intros Hwf Hz g'. destruct (locate_spec g key Hwf) as (i & fp & El & Hi & Hr & Hu & _). unfold g', ghostHit.
  destruct (Nat.eqb_spec (length (gslots g)) 0); [lia|]. rewrite El, Hu.
  repeat case_match; split_and!; try done; cbn [fst]; try (by left); rewrite ghostAt_store by lia; case_decide; auto.
Qed.

(** A table [g'] some steps after [g] was told to remember a key: [n] bounds the keys remembered since; [alone] says that none of
    them shares the key's bucket. *)
Record kept g key (n : nat) (alone : Prop) g' : Prop := {
  ke_wf : ghost_wf g';
  ke_same : locate g' = locate g ∧ ageWindow g' = ageWindow g;
  ke_slot : ∃ age x y, remembers g' key age x y ∧ age = u32 (seqNo g' - seqNo (ghostPush g key)) ∧ age ≤ Z.of_nat n ∧
    (ghost_stamps g → seqNo g + 1 + Z.of_nat n < 2 ^ 32 →
      ghost_stamps g' ∧ seqNo g' ≤ seqNo g + 1 + Z.of_nat n ∧ (alone → gseq (ghostAt g' y) < gseq (ghostAt g' x)))
}.

Lemma stamps_push g key : ghost_wf g → ghost_stamps g → seqNo g + 1 < 2 ^ 32 → ghost_stamps (ghostPush g key) ∧ seqNo (ghostPush g key) = seqNo g + 1.
Proof.
  intros Hwf [Hs Hz] Hn. destruct (ghostPush_at g key 0 Hwf ltac:(done)) as (Es & _). rewrite u32_small in Es by lia.
  split; [|done]. split; [lia|]. intros z Hz0. specialize (Hz z Hz0).
  destruct (ghostPush_at g key z Hwf Hz0) as (_ & _ & _ & [-> | ->] & _); cbn [gseq]; lia.
Qed.

Lemma stamps_hit g key : ghost_wf g → ghost_stamps g → ghost_stamps (ghostHit g key).1.
Proof.
  intros Hwf [Hs Hz]. destruct (ghostHit_at g key 0 Hwf ltac:(done)) as (Es & _). split; [by rewrite Es|]. intros z Hz0.
  destruct (ghostHit_at g key z Hwf Hz0) as (-> & _ & _ & [-> | ->]); [by apply Hz|cbn; lia].
Qed.

Lemma remembers_slots g key age x y : remembers g key age x y → 0 ≤ x ∧ 0 ≤ y ∧ x ≠ y ∧ (locate g key).1 ≤ x ≤ (locate g key).1 + 1 ∧ (locate g key).1 ≤ y ≤ (locate g key).1 + 1.
Proof. intros (i & fp & -> & Hi & _ & _ & Hxy & _). cbn [fst]. lia. Qed.

Lemma kept_pushed g key : ghost_wf g → kept g key 0 True (ghostPush g key).
Proof.
  intros Hwf. destruct (remembers_pushed g key Hwf) as (x & y & Hr). pose proof (remembers_slots _ _ _ _ _ Hr) as (Hx & Hy & _).
  destruct (ghostPush_at g key y Hwf Hy) as (Es & El & Ew & Hat & _). split; [by apply ghost_push_wf|done|].
  exists 0, x, y. split_and!; [done|by rewrite Z.sub_diag|done|]. intros Hst Hn. destruct (stamps_push g key Hwf Hst ltac:(lia)) as [Hst' En].
  split_and!; [done|lia|]. intros _. destruct Hr as (i & fp & El' & Hi & _ & _ & _ & Hfx & Hfy & Ha). rewrite El in El'.
  destruct Hat as [-> |Hat]; [|rewrite Hat, El' in Hfy; done]. destruct Hst as [Hs Hz]. specialize (Hz y Hy).
  destruct Hst' as [Hs' Hz']. specialize (Hz' x Hx). unfold u32 in Ha. rewrite Z.mod_small in Ha by lia. lia.
Qed.

Lemma kept_mono g key n n' (alone alone' : Prop) g' :
  kept g key n alone g' → (n ≤ n')%nat → (alone' → alone) → kept g key n' alone' g'.
Proof.
  intros [H1 H2 (age & x & y & Hr & Ha & Hb & Hst)] Hn Hal. split; [done|done|]. exists age, x, y. split_and!; [done|done|lia|].
  intros Hs Hs'. destruct (Hst Hs ltac:(lia)) as (? & ? & ?). split_and!; [done|lia|auto].
Qed.

Lemma kept_hit g key n alone g' key' :
  kept g key n alone g' → locate g key' ≠ locate g key → kept g key n alone (ghostHit g' key').1.
Proof.
  intros [Hwf [El Ew] (age & x & y & Hr & Ha & Hn & Hst)] Hne. pose proof (remembers_slots _ _ _ _ _ Hr) as (Hx & Hy & _).
  destruct (ghostHit_at g' key' y Hwf Hy) as (Es & El' & Ew' & Haty). destruct (ghostHit_at g' key' x Hwf Hx) as (_ & _ & _ & Hatx).
  split; [by apply ghostHit_wf|split; congruence|]. exists age, x, y.
  assert (remembers (ghostHit g' key').1 key age x y) as Hr' by (apply remembers_hit; [done|done|by rewrite El]).
  split_and!; [done|by rewrite Es|done|]. intros H1 H2. destruct (Hst H1 H2) as (H3 & H4 & H5).
  split_and!; [by apply stamps_hit|lia|]. intros Hal. specialize (H5 Hal). destruct H3 as [Hs Hz]. pose proof (Hz y Hy).
  destruct Hatx as [-> |Hatx].
  - destruct Haty as [-> | ->]; cbn; lia.
  - exfalso. destruct Hr' as (i & fp & Elk & _ & _ & _ & _ & Hfx & _). rewrite Hatx in Hfx. cbn in Hfx.
    destruct (locate_spec _ key (ghostHit_wf g' key' Hwf)) as (? & ? & E' & _ & _ & _ & Hf). congruence.
Qed.

Lemma kept_push g key n (alone alone' : Prop) g' key' :
  kept g key n alone g' → locate g key' ≠ locate g key → Z.of_nat n + 1 < 2 ^ 32 → (alone' → alone) →
  (((locate g key').1 ≠ (locate g key).1) ∨ (alone ∧ ¬ alone' ∧ ghost_stamps g ∧ seqNo g + 1 + Z.of_nat (S n) < 2 ^ 32)) →
  kept g key (S n) alone' (ghostPush g' key').
Proof.
  intros [Hwf [El Ew] (age & x & y & Hr & Ha & Hn & Hst)] Hne Hbound Hal Hcase. pose proof (remembers_slots _ _ _ _ _ Hr) as (Hx & Hy & Hxy & Hlx & Hly).
  destruct (ghostPush_at g' key' y Hwf Hy) as (Es & El' & Ew' & _ & Haty). destruct (ghostPush_at g' key' x Hwf Hx) as (_ & _ & _ & _ & Hatx).
  assert (0 ≤ age) by (subst age; apply Z.mod_pos_bound; lia).
  assert (u32 (seqNo (ghostPush g' key') - seqNo (ghostPush g key)) = age + 1) as Ha'.
  { rewrite Es. unfold u32 in *. rewrite Zminus_mod_idemp_l. replace (seqNo g' + 1 - _) with (seqNo g' - seqNo (ghostPush g key) + 1) by lia.
    rewrite <- Zplus_mod_idemp_l, <- Ha. apply Z.mod_small. lia. }
  split; [by apply ghost_push_wf|split; congruence|]. exists (age + 1), x, y. split_and!; [|done|lia|].
  - apply remembers_push; [done|done|lia|by rewrite El|]. rewrite El. intros Esame. destruct Hcase as [|(Ha1 & _ & H1 & H2)]; [done|].
    destruct (Hst H1 ltac:(lia)) as ([Hs Hz] & H4 & H5). specialize (H5 Ha1). pose proof (Hz y Hy). pose proof (Hz x Hx).
    destruct Hr as (i & fp & _ & _ & _ & _ & _ & _ & _ & Hax). unfold u32 in Hax. rewrite Z.mod_small in Hax by lia.
    rewrite !u32_small by (rewrite ?u32_small; lia). lia.
  - intros H1 H2. destruct (Hst H1 ltac:(lia)) as (H3 & H4 & H5). destruct (stamps_push g' key' Hwf H3 ltac:(lia)) as [H6 H7].
    split_and!; [done|lia|]. intros Hal'. destruct Hcase as [Hb|(_ & Hno & _)]; [|done]. rewrite El in Hatx, Haty, Hlx, Hly.
    destruct (locate_spec g' key' Hwf) as (i & fp & E1 & _). destruct (locate_spec g' key Hwf) as (i2 & fp2 & E2 & _).
    rewrite El in E1, E2. rewrite E1, E2 in *. cbn [fst] in *. rewrite Hatx, Haty by lia. by apply H5, Hal.
Qed.

Lemma kept_found g key n alone g' :
  kept g key n alone g' → (ghostHit g' key).2 = (u32 (seqNo g' - seqNo (ghostPush g key)) <? ageWindow g).
Proof. intros [Hwf [El Ew] (age & x & y & Hr & <- & _)]. rewrite <- Ew. by eapply remembers_found. Qed.

End GhostSpec.

(** ** The policy *)

Record S3FIFOPolicy (K : Type) := mkS3 {
  s3small : EvictQueue;
  s3main : EvictQueue;
  s3ghost : ghostTable K;
  smallWeight : Z;
  smallCap : Z
}.
Arguments mkS3 {K}.
Arguments s3small {K}.
Arguments s3main {K}.
Arguments s3ghost {K}.
Arguments smallWeight {K}.
Arguments smallCap {K}.

Section S3FIFO.
Context {K V : Type} `{!GoType K} `{!GoType V}.
Implicit Types (t : FlatHashMap K V) (p : S3FIFOPolicy K).

Definition NewS3FIFO (seed : K → Z) (shardCap ghostSize : Z) : S3FIFOPolicy K :=
  let smallCap := Z.quot shardCap 10 in
  let smallCap := if smallCap <? 1 then 1 else smallCap in
  mkS3 emptyQueue emptyQueue (newGhostTable seed ghostSize) 0 smallCap.

Definition s3Add p t (node : QNode) : S3FIFOPolicy K :=
  let '(ghost, hit) := ghostHit (s3ghost p) (Key (entry (At t (Idx node)))) in
  if hit then mkS3 (s3small p) (Push (s3main p) node) ghost (smallWeight p) (smallCap p)
  else mkS3 (Push (s3small p) node) (s3main p) ghost (smallWeight p + Cost node) (smallCap p).

Definition s3Len p : nat := qLen (s3small p) + qLen (s3main p).

(** The struct itself is 152 bytes. *)
Definition s3Bytes p : Z := 152 + qBytes (s3small p) + qBytes (s3main p) + ghostBytes (s3ghost p).

Definition s3Sweep p t (release : FlatHashMap K V → Z → FlatHashMap K V)
    : S3FIFOPolicy K * FlatHashMap K V :=
  let '(small, (t, w)) :=
    SweepQueue (λ a i, isDead a.1 i) (dropSwept release) (s3small p) (t, smallWeight p) in
  let '(main, t) := SweepQueue isDead (λ t node, release t (Idx node)) (s3main p) t in
  (mkS3 small main (s3ghost p) w (smallCap p), t).

Definition s3Rebuild {A} p (remap : A → Z → A * option Z) (a : A) : S3FIFOPolicy K * A :=
  let '(small, (a, w)) := RebuildQueue (remapKeeping remap) dropRebuilt (s3small p) (a, smallWeight p) in
  let '(main, a) := RebuildQueue remap (λ a _, a) (s3main p) a in
  (mkS3 small main (s3ghost p) w (smallCap p), a).

(** [evictSmallOnce]: the reclaimed slot, or [None] when the node was promoted. *)
Definition s3EvictSmallOnce p t (nowOff : Z) : S3FIFOPolicy K * FlatHashMap K V * option Z :=
  match Pop (s3small p) with
  | (small, None) => (mkS3 small (s3main p) (s3ghost p) (smallWeight p) (smallCap p), t, None)
  | (small, Some candidate) =>
    let p := mkS3 small (s3main p) (s3ghost p) (smallWeight p - Cost candidate) (smallCap p) in
    let item := At t (Idx candidate) in
    let metaWord := Metadata item in
    if negb (Z.land metaWord Dead =? 0) || Expired metaWord nowOff then (p, t, Some (Idx candidate))
    else if negb (Z.land metaWord ChanceMask =? 0) then
      (mkS3 (s3small p) (Push (s3main p) candidate) (s3ghost p) (smallWeight p) (smallCap p),
       alterAt t (Idx candidate) ResetChances, None)
    else
      (mkS3 (s3small p) (s3main p) (ghostPush (s3ghost p) (Key (entry item))) (smallWeight p) (smallCap p),
       t, Some (Idx candidate))
  end.

(** [evictMainOnce]: a GCLOCK step over main. *)
Definition s3EvictMainOnce p t (nowOff : Z) : S3FIFOPolicy K * FlatHashMap K V * option Z :=
  match Pop (s3main p) with
  | (main, None) => (mkS3 (s3small p) main (s3ghost p) (smallWeight p) (smallCap p), t, None)
  | (main, Some candidate) =>
    let p := mkS3 (s3small p) main (s3ghost p) (smallWeight p) (smallCap p) in
    let metaWord := Metadata (At t (Idx candidate)) in
    if negb (Z.land metaWord Dead =? 0) || Expired metaWord nowOff then (p, t, Some (Idx candidate))
    else if negb (Z.land metaWord ChanceMask =? 0) then
      (mkS3 (s3small p) (Push (s3main p) candidate) (s3ghost p) (smallWeight p) (smallCap p),
       alterAt t (Idx candidate) (λ item, RevokeChance item metaWord), None)
    else (p, t, Some (Idx candidate))
  end.

(** Each turn shortens small, or spends one of the at most two chances of a node of main. *)
Definition s3Evict p t (nowOff : Z) : option (S3FIFOPolicy K * FlatHashMap K V * option Z) :=
  twoEvictLoop s3small s3main (λ p, smallCap p <? smallWeight p) s3EvictSmallOnce s3EvictMainOnce
    (qLen (s3small p) + 2 * qLen (s3main p) + 1) p t nowOff.

#[global] Instance S3FIFO_ops : EvictionPolicy K V (S3FIFOPolicy K) := {|
  pAdd := s3Add; pEvict := s3Evict; pLen := s3Len; pSweep := s3Sweep;
  pRebuild := @s3Rebuild; pBytes := s3Bytes |}.

(** ** The laws *)

Record s3Inv p : Prop := {
  s3_small : queue_wf (s3small p);
  s3_main : queue_wf (s3main p);
  s3_weight : smallWeight p = sumCost (contents (s3small p))
}.

Definition s3Nodes p : list QNode := twoNodes s3small s3main p.

Lemma s3Add_laws p t n : s3Inv p → s3Inv (s3Add p t n) ∧ s3Nodes (s3Add p t n) ≡ₚ n :: s3Nodes p.
Proof.
  intros [Hs Hm Hw]. unfold s3Add. destruct (ghostHit _ _) as [g []].
  - destruct (Push_spec (s3main p) n Hm) as [Hq Hc]. split; [by split|].
    unfold s3Nodes, twoNodes. cbn. rewrite Hc, app_assoc. by rewrite <- Permutation_cons_append.
  - destruct (Push_spec (s3small p) n Hs) as [Hq Hc]. split.
    + split; cbn; [done|done|]. rewrite Hc, sumCost_app, sumCost_cons. change (sumCost []) with 0. lia.
    + unfold s3Nodes, twoNodes. cbn. rewrite Hc. by rewrite <- (Permutation_cons_append (contents (s3small p))).
Qed.

Lemma s3Add_ghost p t n : ghost_wf (s3ghost p) → ghost_wf (s3ghost (s3Add p t n)).
Proof.
  intros Hg. apply (ghostHit_wf _ (Key (entry (At t (Idx n))))) in Hg. unfold s3Add.
  by destruct (ghostHit _ _) as [g []].
Qed.

Lemma s3Len_laws p : s3Inv p → s3Len p = length (s3Nodes p).
Proof.
  intros [Hs Hm _]. unfold s3Len, s3Nodes, twoNodes, qLen. rewrite length_app, !contents_length; done.
Qed.

Lemma s3SmallOnce_spec p t now n l :
  s3Inv p → table_shape t → contents (s3small p) = n :: l →
  ∃ p' t' r, s3EvictSmallOnce p t now = (p', t', r) ∧ s3Inv p' ∧ fewer_table t t' ∧ contents (s3small p') = l ∧
    match r with
    | Some i => i = Idx n ∧ contents (s3main p') = contents (s3main p) ∧ victim_ok t t' i now
    | None => contents (s3main p') = contents (s3main p) ++ [n] ∧ chances (meta (At t' (Idx n))) = 0%nat
    end.
Proof.
  intros [Hs Hm Hw] Ht El. pose proof (Pop_contents (s3small p) Hs) as Hp. rewrite El in Hp.
  destruct Hp as (q1 & E & Hq1 & Hc1). unfold s3EvictSmallOnce. rewrite E. cbv zeta.
  assert (smallWeight p - Cost n = sumCost l) as Hw' by (rewrite Hw, El, sumCost_cons; lia).
  destruct (negb (Z.land (Metadata (At t (Idx n))) Dead =? 0) || Expired (Metadata (At t (Idx n))) now) eqn:E1;
    [|destruct (negb (Z.land (Metadata (At t (Idx n))) ChanceMask =? 0)) eqn:E2]; cbn.
  - eexists _, _, _. split_and!; try done; [by split; cbn; rewrite ?Hc1|].
    apply orb_true_iff in E1 as [E1|E1]; unfold victim_ok, isDead; auto.
  - destruct (Push_spec (s3main p) n Hm) as [Hq2 Hc2].
    eexists _, _, _. split_and!; try done; [by split; cbn; rewrite ?Hc1| |].
    + by apply fewer_alterAt, ResetChances_fewer.
    + split; [done|]. rewrite At_alterAt, decide_True by done. apply ResetChances_chances.
  - eexists _, _, _. split_and!; try done; [by split; cbn; rewrite ?Hc1|].
    apply negb_false_iff, Z.eqb_eq in E2. unfold victim_ok. auto.
Qed.

Lemma s3MainOnce_spec p t now n l :
  s3Inv p → table_shape t → contents (s3main p) = n :: l →
  ∃ p' t' r, s3EvictMainOnce p t now = (p', t', r) ∧ s3Inv p' ∧ fewer_table t t' ∧
    contents (s3small p') = contents (s3small p) ∧
    match r with
    | Some i => i = Idx n ∧ contents (s3main p') = l ∧ victim_ok t t' i now
    | None => contents (s3main p') = l ++ [n] ∧ (chanceSum t' (l ++ [n]) < chanceSum t (n :: l))%nat
    end.
Proof.
  intros [Hs Hm Hw] Ht El. pose proof (Pop_contents (s3main p) Hm) as Hp. rewrite El in Hp.
  destruct Hp as (q1 & E & Hq1 & Hc1). unfold s3EvictMainOnce. rewrite E. cbv zeta.
  destruct (negb (Z.land (Metadata (At t (Idx n))) Dead =? 0) || Expired (Metadata (At t (Idx n))) now) eqn:E1;
    [|destruct (negb (Z.land (Metadata (At t (Idx n))) ChanceMask =? 0)) eqn:E2]; cbn.
  - eexists _, _, _. split_and!; try done. apply orb_true_iff in E1 as [E1|E1]; unfold victim_ok, isDead; auto.
  - destruct (Push_spec q1 n Hq1) as [Hq2 Hc2]. apply negb_true_iff in E2.
    eexists _, _, _. split_and!; try done; [by apply fewer_alterAt, RevokeChance_fewer|].
    cbn. rewrite Hc2, Hc1. split; [done|]. by apply chanceSum_revoke.
  - eexists _, _, _. split_and!; try done. apply negb_false_iff, Z.eqb_eq in E2. unfold victim_ok. auto.
Qed.

Lemma s3Evict_laws p t now :
  s3Inv p → table_shape t →
  ∃ p' t' r, s3Evict p t now = Some (p', t', r) ∧ s3Inv p' ∧ fewer_table t t' ∧
    match r with
    | None => s3Nodes p = [] ∧ s3Nodes p' = []
    | Some i => (∃ c, s3Nodes p ≡ₚ mkQNode i c :: s3Nodes p') ∧
      (isDead t i = true ∨ Expired (meta (At t i)) now = true ∨ Z.land (meta (At t' i)) ChanceMask = 0)
    end.
Proof.
  intros Hp Ht. apply (twoEvictLoop_spec s3small s3main _ _ _ s3Inv); try done.
  - intros p' []. done.
  - apply s3SmallOnce_spec.
  - apply s3MainOnce_spec.
  - destruct Hp as [Hs Hm _]. unfold twoMeasure, qLen. pose proof (chanceSum_le t (contents (s3main p))).
    rewrite !contents_length in * by done. lia.
Qed.

Lemma s3Sweep_laws p t release :
  s3Inv p → table_shape t → release_ok release →
  ∃ l p', s3Sweep p t release = (p', foldl release t (Idx <$> l)) ∧ s3Inv p' ∧
    l ≡ₚ filter (λ n, isDead t (Idx n) = true) (s3Nodes p) ∧
    s3Nodes p' ≡ₚ filter (λ n, isDead t (Idx n) = false) (s3Nodes p).
Proof.
  intros [Hs Hm Hw] Ht Hrel.
  destruct (twoSweep_laws (s3small p) (s3main p) t (smallWeight p) release Hs Hm Ht Hrel)
    as (small & main & w & l & E1 & E2 & Hs' & Hm' & Hw' & Hl & Hn).
  exists l, (mkS3 small main (s3ghost p) w (smallCap p)). split_and!.
  - unfold s3Sweep. rewrite E1. cbn [fst snd] in E2. by rewrite E2.
  - split; cbn; [done|done|lia].
  - done.
  - done.
Qed.

Lemma s3Rebuild_laws A p (remap : A → Z → A * option Z) (a : A) :
  s3Inv p →
  ∃ l p', l ≡ₚ s3Nodes p ∧
    s3Rebuild p remap a = (p', (rebuildList remap (λ a _, a) l a).2) ∧ s3Inv p' ∧
    s3Nodes p' ≡ₚ (rebuildList remap (λ a _, a) l a).1.
Proof.
  intros [Hs Hm Hw].
  destruct (RebuildQueue_weighted (s3small p) remap a (smallWeight p) Hs) as (q1 & E1 & Hq1 & Hc1).
  destruct (RebuildQueue_laws (s3main p) remap (rebuildList remap (λ a _, a) (contents (s3small p)) a).2 Hm)
    as (q2 & E2 & Hq2 & Hc2).
  eexists (s3Nodes p), (mkS3 q1 q2 (s3ghost p) _ (smallCap p)). split_and!; [done|..].
  - unfold s3Rebuild, s3Nodes, twoNodes. rewrite E1, E2, rebuildList_app. cbn. done.
  - split; cbn; [done|done|]. rewrite Hc1, Hw. lia.
  - unfold s3Nodes, twoNodes. cbn. by rewrite rebuildList_app, Hc1, Hc2.
Qed.

#[global] Instance S3FIFO_laws : PolicyLaws K V (S3FIFOPolicy K) := {|
  pInv := s3Inv; pNodes := s3Nodes; pAdd_laws := s3Add_laws; pLen_laws := s3Len_laws;
  pEvict_laws := s3Evict_laws; pSweep_laws := s3Sweep_laws; pRebuild_laws := s3Rebuild_laws |}.

(** ** What the policy's operations do to the ghost table *)

Definition keyAt t (i : Z) : K := Key (entry (At t i)).

Lemma alterAt_entry t i f : table_shape t → (∀ it, entry (f it) = entry it) → ∀ j, entry (At (alterAt t i f) j) = entry (At t j).
Proof. intros Ht Hf j. rewrite At_alterAt by done. case_decide; [apply Hf|done]. Qed.

(** One turn of [Evict] leaves the keys, and remembers at most the victim's. *)
Definition ghost_turn p t (res : S3FIFOPolicy K * FlatHashMap K V * option Z) : Prop :=
  let '(p', t', r) := res in
  table_shape t' ∧ (∀ j, entry (At t' j) = entry (At t j)) ∧
  (s3ghost p' = s3ghost p ∨ ∃ i, r = Some i ∧ s3ghost p' = ghostPush (s3ghost p) (keyAt t i)).

Lemma s3SmallOnce_ghost p t now : table_shape t → ghost_turn p t (s3EvictSmallOnce p t now).
Proof.
  intros Ht. unfold s3EvictSmallOnce. destruct (Pop (s3small p)) as [q [n|]]; [|by split_and!; [..|left]]. cbv zeta.
  repeat case_match; split_and!; try done; try (by left); [by apply shape_alterAt|by apply alterAt_entry|]. right. by eexists.
Qed.

Lemma s3MainOnce_ghost p t now : table_shape t → ghost_turn p t (s3EvictMainOnce p t now).
Proof.
  intros Ht. unfold s3EvictMainOnce. destruct (Pop (s3main p)) as [q [n|]]; [|by split_and!; [..|left]]. cbv zeta.
  repeat case_match; split_and!; try done; try (by left); [by apply shape_alterAt|].
  apply alterAt_entry; [done|]. intros it. unfold RevokeChance. by repeat case_match.
Qed.

Lemma s3Evict_ghost p t now p' t' r :
  table_shape t → s3Evict p t now = Some (p', t', r) →
  s3ghost p' = s3ghost p ∨ ∃ i, r = Some i ∧ s3ghost p' = ghostPush (s3ghost p) (keyAt t i).
Proof.
  unfold s3Evict. generalize (qLen (s3small p) + 2 * qLen (s3main p) + 1)%nat as fuel. intros fuel. revert p t.
  induction fuel as [|fuel IH]; intros p t Ht; cbn [twoEvictLoop]; [done|]. case_match; [intros [= <- _ _]; by left|].
  set (turn := if _ : bool then s3EvictSmallOnce p t now else s3EvictMainOnce p t now).
  assert (ghost_turn p t turn) as Hturn by (unfold turn; case_match; [by apply s3SmallOnce_ghost|by apply s3MainOnce_ghost]).
  destruct turn as [[p1 t1] [i|]]; destruct Hturn as (Ht1 & He & Hg).
  - intros [= <- _ <-]. done.
  - intros E1. destruct Hg as [Hg|(? & ? & _)]; [|done]. rewrite <- Hg. destruct (IH p1 t1 Ht1 E1) as [|(i & -> & Hi)]; [by left|].
    right. exists i. split; [done|]. rewrite Hi. unfold keyAt. by rewrite He.
Qed.

(** The policy at work after [p], with [n] evictions since; no added and no evicted key is taken for [key], and [m] evicted
    keys share its bucket of the ghost table. *)
Inductive s3_run p (key : K) : nat → nat → S3FIFOPolicy K → Prop :=
| s3_start : s3_run p key 0 0 p
| s3_added n m p1 t node : s3_run p key n m p1 → locate (s3ghost p) (keyAt t (Idx node)) ≠ locate (s3ghost p) key →
    s3_run p key n m (s3Add p1 t node)
| s3_evicted n m p1 t now p2 t' i : s3_run p key n m p1 → table_shape t → s3Evict p1 t now = Some (p2, t', Some i) →
    locate (s3ghost p) (keyAt t i) ≠ locate (s3ghost p) key →
    s3_run p key (S n) (if (locate (s3ghost p) (keyAt t i)).1 =? (locate (s3ghost p) key).1 then S m else m) p2
| s3_swept n m p1 t release : s3_run p key n m p1 → table_shape t → release_ok release → s3_run p key n m (s3Sweep p1 t release).1
| s3_rebuilt n m p1 A (remap : A → Z → A * option Z) a : s3_run p key n m p1 → s3_run p key n m (s3Rebuild p1 remap a).1.

Lemma s3Sweep_ghost p t release : s3ghost (s3Sweep p t release).1 = s3ghost p.
Proof. unfold s3Sweep. destruct (SweepQueue _ _ _ _) as [small [t1 w]]. by destruct (SweepQueue _ _ _ _). Qed.

Lemma s3Rebuild_ghost A p (remap : A → Z → A * option Z) a : s3ghost (s3Rebuild p remap a).1 = s3ghost p.
Proof. unfold s3Rebuild. destruct (RebuildQueue _ _ _ _) as [small [a1 w]]. by destruct (RebuildQueue _ _ _ _). Qed.

Lemma s3_run_inv p key n m p' : s3Inv p → s3_run p key n m p' → s3Inv p'.
Proof.
  intros Hp. induction 1 as [|n m p1 t node _ IH _|n m p1 t now p2 t' i _ IH Ht He _|n m p1 t release _ IH Ht Hrel|n m p1 A remap a _ IH].
  - done.
  - by apply s3Add_laws.
  - destruct (s3Evict_laws p1 t now IH Ht) as (p3 & t3 & r & E3 & Hp3 & _). congruence.
  - destruct (s3Sweep_laws p1 t release IH Ht Hrel) as (l & p3 & -> & Hp3 & _). done.
  - destruct (s3Rebuild_laws A p1 remap a IH) as (l & p3 & _ & -> & Hp3 & _). done.
Qed.

(** A key the table was told to remember just before such a run is still there after it. *)
Lemma s3_run_keeps g p key n m p' :
  ghost_wf g → s3ghost p = ghostPush g key → s3_run p key n m p' → Z.of_nat n < 2 ^ 32 →
  (m ≤ 1)%nat → (m = 1%nat → ghost_stamps g ∧ seqNo g + 1 + Z.of_nat n < 2 ^ 32) → kept g key n (m = 0%nat) (s3ghost p').
Proof.
  intros Hwf Hp Hrun. assert (locate (s3ghost p) = locate g) as El by (rewrite Hp; by apply (ghostPush_at g key 0)).
  induction Hrun as [|n m p1 t node Hrun IH Hne|n m p1 t now p2 t' i Hrun IH Ht He Hne|n m p1 t release Hrun IH _ _|n m p1 A remap a Hrun IH];
    intros Hn Hm Hm1.
  - rewrite Hp. by eapply kept_mono; [by apply kept_pushed|..].
  - specialize (IH Hn Hm Hm1). unfold s3Add. pose proof (kept_hit _ _ _ _ _ (keyAt t (Idx node)) IH) as Hk. rewrite El in Hne.
    specialize (Hk Hne). unfold keyAt in Hk. by destruct (ghostHit _ _) as [g1 []].
  - rewrite El in *. destruct (Z.eqb_spec (locate g (keyAt t i)).1 (locate g key).1) as [Eb|Eb].
    + assert (m = 0%nat) as -> by lia. destruct (Hm1 eq_refl) as [Hst Hs]. specialize (IH ltac:(lia) ltac:(lia) ltac:(done)).
      destruct (s3Evict_ghost _ _ _ _ _ _ Ht He) as [-> |(j & [= <-] & ->)].
      * eapply kept_mono; [exact IH|lia..].
      * eapply kept_push; [exact IH|done|lia|lia|]. right. split_and!; [done|lia|done|lia].
    + specialize (IH ltac:(lia) Hm). assert (m = 1%nat → ghost_stamps g ∧ seqNo g + 1 + Z.of_nat n < 2 ^ 32) as Hm' by (intros E; destruct (Hm1 E); split; [done|lia]).
      specialize (IH Hm'). destruct (s3Evict_ghost _ _ _ _ _ _ Ht He) as [-> |(j & [= <-] & ->)].
      * eapply kept_mono; [exact IH|lia|done].
      * eapply kept_push; [exact IH|done|lia|done|by left].
  - rewrite s3Sweep_ghost. by apply IH.
  - rewrite s3Rebuild_ghost. by apply IH.
Qed.

End S3FIFO.
