(* ===== verification/FreqSketch.v ===== *)
(** * The frequency sketch of W-TinyLFU (internal/eviction/wtinylfu_policy.go, freqSketch)

    A Count-Min sketch of 4-bit saturating counters, sixteen to a word.  The packed words are shown
    to behave like an array of independent counters: an increment raises the key's four counters by
    one up to 15 and touches no other, so the key's estimate goes up by exactly one until it saturates
    and nobody's estimate goes down; ageing halves every counter. *)

From S2P Require Import Prelude Item.

Record freqSketch := mkSketch {
  sktable : list Z;
  skmask : Z;
  additions : Z;
  sampleSize : Z
}.

Definition counterMax : Z := 15.

Definition newFreqSketch (keys : Z) : freqSketch :=
  if keys <=? 0 then mkSketch [] 0 0 0
  else
    let words := Z.shiftl 1 (bitsLen (keys - 1)) in
    mkSketch (replicate (Z.to_nat words) 0) (u32 (words - 1)) 0 (u32 (Z.min (words * 10) (Z.shiftl 1 30))).

Definition sketchBytes (s : freqSketch) : Z := Z.of_nat (length (sktable s)) * 8.

(** The [i]-th probe of a hash. *)
Definition probeHash (hash i : Z) : Z :=
  let lo := u32 hash in
  let hi := Z.lor (u32 (Z.shiftr hash 32)) 1 in
  u32 (lo + u32 (i * hi)).

(** One turn of the loop of [increment]: the table, and whether a counter was raised. *)
Definition incrementOnce (mask hash : Z) (st : list Z * bool) (i : Z) : list Z * bool :=
  let '(table, added) := st in
  let h := probeHash hash i in
  let shift := Z.land h 15 * 4 in
  let j := Z.to_nat (Z.land (Z.shiftr h 4) mask) in
  let word := default 0 (table !! j) in
  if Z.land (Z.shiftr word shift) counterMax <? counterMax
  then (<[j := u64 (word + Z.shiftl 1 shift)]> table, true)
  else (table, added).

Definition sketchReset (s : freqSketch) : freqSketch :=
  mkSketch ((λ w, Z.land (Z.shiftr w 1) 0x7777777777777777) <$> sktable s) (skmask s)
    (Z.shiftr (additions s) 1) (sampleSize s).

Definition increment (s : freqSketch) (hash : Z) : freqSketch :=
  if (length (sktable s) =? 0)%nat then s
  else
    let '(table, added) := foldl (incrementOnce (skmask s) hash) (sktable s, false) [0; 1; 2; 3] in
    let s := mkSketch table (skmask s) (additions s) (sampleSize s) in
    if added then
      let s := mkSketch (sktable s) (skmask s) (u32 (additions s + 1)) (sampleSize s) in
      if sampleSize s <=? additions s then sketchReset s else s
    else s.

Definition estimate (s : freqSketch) (hash : Z) : Z :=
  if (length (sktable s) =? 0)%nat then 0
  else
    foldl (λ est i,
      let h := probeHash hash i in
      let c := Z.land (u32 (Z.shiftr (default 0 (sktable s !! Z.to_nat (Z.land (Z.shiftr h 4) (skmask s))))
                                     (Z.land h 15 * 4))) counterMax in
      if c <? est then c else est) counterMax [0; 1; 2; 3].

(** ** Counters packed in a word *)

(** Counter [k] of a word. *)
Definition nib (w k : Z) : Z := (w / 16 ^ k) mod 16.

Lemma nib_range w k : 0 ≤ nib w k < 16.
Proof. apply Z.mod_pos_bound. lia. Qed.

Lemma pow16_shift k : 0 ≤ k → 2 ^ (k * 4) = 16 ^ k.
Proof. intros Hk. rewrite Z.mul_comm, Z.pow_mul_r by lia. done. Qed.

Lemma nib_land w k : 0 ≤ k → Z.land (Z.shiftr w (k * 4)) 15 = nib w k.
Proof.
  intros Hk. change 15 with (2 ^ 4 - 1). rewrite land_mod_pow2 by lia.
  rewrite Z.shiftr_div_pow2, pow16_shift by lia. done.
Qed.

(** Raising a counter that is not full changes no other counter, and does not overflow the word. *)
Lemma nib_above w k n : 0 ≤ k → 0 ≤ n → nib w k < 15 → (w + 16 ^ k) / 16 ^ (k + 1 + n) = w / 16 ^ (k + 1 + n).
Proof.
  intros Hk Hn Hlt. unfold nib in Hlt. rewrite !Z.pow_add_r by lia. change (16 ^ 1) with 16.
  pose proof (Z.pow_pos_nonneg 16 k ltac:(lia) ltac:(lia)) as HA.
  pose proof (Z.pow_pos_nonneg 16 n ltac:(lia) ltac:(lia)) as HB.
  set (A := 16 ^ k) in *. set (B := 16 ^ n) in *. rewrite <- !(Z.div_div _ (A * 16) B), <- !(Z.div_div _ A 16) by lia.
  assert ((w + A) / A = w / A + 1) as ->.
  { replace (w + A) with (w + 1 * A) by lia. rewrite Z.div_add; lia. }
  assert ((w / A + 1) / 16 = w / A / 16) as ->; [|done].
  pose proof (Z.div_mod (w / A) 16 ltac:(lia)). pose proof (Z.mod_pos_bound (w / A) 16 ltac:(lia)).
  symmetry. apply Z.div_unique with ((w / A) mod 16 + 1); lia.
Qed.

Lemma nib_add w k k' :
  0 ≤ k → 0 ≤ k' → nib w k < 15 → nib (w + 16 ^ k) k' = nib w k' + Z.b2z (k =? k').
Proof.
  intros Hk Hk' Hlt. destruct (Z.eqb_spec k k') as [<-|Hne]; cbn [Z.b2z].
  - unfold nib in *. replace (w + 16 ^ k) with (w + 1 * 16 ^ k) by lia.
    rewrite Z.div_add by (apply Z.pow_nonzero; lia). rewrite <- Zplus_mod_idemp_l, Z.mod_small; [lia|].
    pose proof (Z.mod_pos_bound (w / 16 ^ k) 16 ltac:(lia)). lia.
  - rewrite Z.add_0_r. unfold nib. destruct (Z_lt_le_dec k' k) as [Hl|Hg].
    + replace k with (k' + (1 + (k - k' - 1))) by lia. rewrite !(Z.pow_add_r 16 k'), (Z.mul_comm (16 ^ k')) by lia.
      rewrite Z.div_add by (apply Z.pow_nonzero; lia). rewrite Z.pow_add_r by lia.
      change (16 ^ 1) with 16. by rewrite (Z.mul_comm 16), Z_mod_plus_full.
    + replace k' with (k + 1 + (k' - k - 1)) by lia. by rewrite nib_above by lia.
Qed.

Lemma nib_u64 w k : is_u64 w → 0 ≤ k < 16 → nib w k < 15 → is_u64 (w + 16 ^ k).
Proof.
  intros [H0 H1] Hk Hlt. pose proof (Z.pow_pos_nonneg 16 k ltac:(lia) ltac:(lia)). split; [lia|].
  pose proof (nib_above w k (15 - k) ltac:(lia) ltac:(lia) Hlt) as E.
  replace (k + 1 + (15 - k)) with 16 in E by lia. rewrite (Z.div_small w) in E by (change (16 ^ 16) with (2 ^ 64); lia).
  apply Z.div_small_iff in E; [|lia]. change (16 ^ 16) with (2 ^ 64) in E. lia.
Qed.

(** ** The table as an array of counters *)

Definition wordAt (tb : list Z) (j : Z) : Z := default 0 (tb !! Z.to_nat j).
Definition counter (tb : list Z) (j k : Z) : Z := nib (wordAt tb j) k.

Record sketch_wf (s : freqSketch) : Prop := {
  sk_size : ∃ m, 0 ≤ m ≤ 32 ∧ Z.of_nat (length (sktable s)) = 2 ^ m ∧ skmask s = 2 ^ m - 1;
  sk_words : Forall is_u64 (sktable s)
}.

Lemma wordAt_u64 tb j : Forall is_u64 tb → is_u64 (wordAt tb j).
Proof.
  intros H. unfold wordAt. destruct (tb !! Z.to_nat j) as [w|] eqn:E; [|done]. cbn.
  by eapply Forall_lookup in E.
Qed.

(** The cell a probe lands on. *)
Definition cellWord (mask h : Z) : Z := Z.land (Z.shiftr h 4) mask.
Definition cellNib (h : Z) : Z := Z.land h 15.

Lemma cellNib_range h : 0 ≤ cellNib h < 16.
Proof. unfold cellNib. change 15 with (2 ^ 4 - 1). rewrite land_mod_pow2 by lia. apply Z.mod_pos_bound. lia. Qed.

Lemma incrementOnce_spec n mask hash tb added i :
  0 ≤ n ≤ 32 → Z.of_nat (length tb) = 2 ^ n → mask = 2 ^ n - 1 → Forall is_u64 tb →
  let h := probeHash hash i in
  ∃ tb' a', incrementOnce mask hash (tb, added) i = (tb', a') ∧ length tb' = length tb ∧ Forall is_u64 tb' ∧
    ∀ j k, 0 ≤ j → 0 ≤ k → counter tb' j k =
      counter tb j k + Z.b2z ((j =? cellWord mask h) && (k =? cellNib h) && (counter tb j k <? 15)).
Proof.
  intros Hn Hl Hm Hw h. set (j0 := cellWord mask h). set (k0 := cellNib h).
  pose proof (cellNib_range h) as Hk0. fold k0 in Hk0.
  assert (0 ≤ j0 < 2 ^ n) as Hj0.
  { unfold j0, cellWord. rewrite Hm, land_mod_pow2 by lia. apply Z.mod_pos_bound, Z.pow_pos_nonneg; lia. }
  assert (Z.shiftl 1 (k0 * 4) = 16 ^ k0) as Hsh by (rewrite Z.shiftl_1_l; apply pow16_shift; lia).
  unfold incrementOnce. fold h. change (Z.land (Z.shiftr h 4) mask) with j0. change (Z.land h 15) with k0.
  fold (wordAt tb j0). unfold counterMax. rewrite nib_land by lia. fold (counter tb j0 k0).
  destruct (Z.ltb_spec (counter tb j0 k0) 15) as [Hlt|Hge].
  - pose proof (nib_u64 _ _ (wordAt_u64 tb j0 Hw) Hk0 Hlt) as H64. rewrite Hsh. unfold u64 at 1.
    rewrite Z.mod_small by exact H64. eexists _, _. split_and!; [done|apply length_insert|by apply Forall_insert|].
    intros j k Hj Hk. unfold counter at 1, wordAt. destruct (Z.eqb_spec j j0) as [->|Hne]; cbn [andb].
    + rewrite list_lookup_insert_eq by lia. cbn. fold (wordAt tb j0). rewrite nib_add by (lia || done).
      rewrite (Z.eqb_sym k0 k). unfold counter in *. destruct (Z.eqb_spec k k0) as [->|]; cbn [andb]; [|done].
      f_equal. by rewrite (proj2 (Z.ltb_lt _ _) Hlt).
    + rewrite list_lookup_insert_ne by lia. fold (wordAt tb j). unfold counter. cbn. lia.
  - eexists _, _. split_and!; [done..|]. intros j k Hj Hk.
    destruct (Z.eqb_spec j j0) as [->|], (Z.eqb_spec k k0) as [->|]; cbn; try lia.
    destruct (Z.ltb_spec (counter tb j0 k0) 15); cbn; lia.
Qed.

(** ** The four probes *)

Lemma cellNib_probe hash i :
  cellNib (probeHash hash i) = (u32 hash + i * Z.lor (u32 (Z.shiftr hash 32)) 1) mod 16.
Proof.
  unfold cellNib, probeHash. change 15 with (2 ^ 4 - 1). rewrite land_mod_pow2 by lia. change (2 ^ 4) with 16.
  unfold u32 at 1 3. rewrite Z.mod_mod_divide by (by exists (2 ^ 28)).
  rewrite <- Zplus_mod_idemp_r, Z.mod_mod_divide by (by exists (2 ^ 28)). by rewrite Zplus_mod_idemp_r.
Qed.

Lemma lor_1_odd x : 0 ≤ x → ∃ q, Z.lor x 1 = 2 * q + 1.
Proof.
  intros Hx. exists (Z.lor x 1 / 2). pose proof (Z.div_mod (Z.lor x 1) 2 ltac:(lia)) as H.
  rewrite Zmod_odd, <- Z.bit0_odd, Z.lor_spec, orb_true_r in H. lia.
Qed.

(** An odd step keeps the four positions within a word distinct. *)
Lemma probes_distinct hash : NoDup (cellNib ∘ probeHash hash <$> [0; 1; 2; 3]).
Proof.
  destruct (lor_1_odd (u32 (Z.shiftr hash 32))) as [q Hq]; [apply Z.mod_pos_bound; lia|].
  cbn. rewrite !cellNib_probe, Hq. generalize (u32 hash). intros lo.
  repeat (apply NoDup_cons; split; [rewrite ?elem_of_cons, elem_of_nil; intros H;
    repeat (destruct H as [H|H]; [Z.to_euclidean_division_equations; lia|]); done|]). constructor.
Qed.

Definition hits (mask hash : Z) (l : list Z) (j k : Z) : bool :=
  existsb (λ i, (j =? cellWord mask (probeHash hash i)) && (k =? cellNib (probeHash hash i))) l.

Lemma hits_false mask hash l j k :
  k ∉ (cellNib ∘ probeHash hash <$> l) → hits mask hash l j k = false.
Proof.
  intros Hno. apply not_true_iff_false. intros (i & Hi & [_ Hk%Z.eqb_eq]%andb_true_iff)%existsb_exists.
  apply Hno. subst k. by apply (list_elem_of_fmap_2 (cellNib ∘ probeHash hash)), list_elem_of_In.
Qed.

Lemma incrementAll_spec n mask hash l : ∀ tb added,
  0 ≤ n ≤ 32 → Z.of_nat (length tb) = 2 ^ n → mask = 2 ^ n - 1 → Forall is_u64 tb →
  NoDup (cellNib ∘ probeHash hash <$> l) →
  ∃ tb' a', foldl (incrementOnce mask hash) (tb, added) l = (tb', a') ∧ length tb' = length tb ∧
    Forall is_u64 tb' ∧ ∀ j k, 0 ≤ j → 0 ≤ k →
      counter tb' j k = counter tb j k + Z.b2z (hits mask hash l j k && (counter tb j k <? 15)).
Proof.
  induction l as [|i l IH]; intros tb added Hn Hl Hm Hw Hnd; cbn [foldl].
  { exists tb, added. split_and!; try done. intros. cbn. lia. }
  cbn in Hnd. apply NoDup_cons in Hnd as [Hno Hnd].
  destruct (incrementOnce_spec n mask hash tb added i Hn Hl Hm Hw) as (tb1 & a1 & -> & Hl1 & Hw1 & Hc1).
  destruct (IH tb1 a1) as (tb2 & a2 & -> & Hl2 & Hw2 & Hc2); [done|lia|done|done|done|].
  exists tb2, a2. split_and!; [done|lia|done|]. intros j k Hj Hk. rewrite Hc2, Hc1 by done. unfold hits at 2. cbn [existsb].
  fold (hits mask hash l j k).
  destruct (Z.eqb_spec k (cellNib (probeHash hash i))) as [->|Hne]; [|by rewrite andb_false_r; cbn; rewrite Z.add_0_r].
  rewrite hits_false, orb_false_r, andb_true_r by done. cbn. lia.
Qed.

(** ** Estimates *)

Definition cellOf (s : freqSketch) (hash i : Z) : Z :=
  counter (sktable s) (cellWord (skmask s) (probeHash hash i)) (cellNib (probeHash hash i)).

Definition estimateOf (s : freqSketch) (hash : Z) : Z :=
  Z.min (Z.min (cellOf s hash 0) (cellOf s hash 1)) (Z.min (cellOf s hash 2) (cellOf s hash 3)).

Lemma counter_u32 w k : 0 ≤ k → Z.land (u32 (Z.shiftr w (k * 4))) 15 = nib w k.
Proof.
  intros Hk. rewrite <- nib_land by done. change 15 with (2 ^ 4 - 1). rewrite !land_mod_pow2 by lia.
  unfold u32. apply Z.mod_mod_divide. by exists (2 ^ 28).
Qed.

Lemma estimate_min s hash : sketch_wf s → estimate s hash = estimateOf s hash.
Proof.
  intros [(m & Hm & Hl & _) _]. unfold estimate.
  destruct (Nat.eqb_spec (length (sktable s)) 0); [pose proof (Z.pow_pos_nonneg 2 m); lia|].
  cbn [foldl]. unfold counterMax.
  assert (∀ i, Z.land (u32 (Z.shiftr (default 0 (sktable s !! Z.to_nat (Z.land (Z.shiftr (probeHash hash i) 4) (skmask s))))
    (Z.land (probeHash hash i) 15 * 4))) 15 = cellOf s hash i) as Hc.
  { intros i. rewrite counter_u32; [done|]. pose proof (cellNib_range (probeHash hash i)). unfold cellNib in *. lia. }
  rewrite !Hc. unfold estimateOf. assert (∀ i, 0 ≤ cellOf s hash i < 16) as Hr by (intros; apply nib_range).
  pose proof (Hr 0). pose proof (Hr 1). pose proof (Hr 2). pose proof (Hr 3).
  assert (∀ a b, (if a <? b then a else b) = Z.min a b) as Hmin by (intros a b; destruct (Z.ltb_spec a b); lia).
  rewrite !Hmin. lia.
Qed.

Lemma cellWord_range s hash i : sketch_wf s → 0 ≤ cellWord (skmask s) (probeHash hash i).
Proof.
  intros [(m & Hm & _ & ->) _]. unfold cellWord. rewrite land_mod_pow2 by lia.
  apply Z.mod_pos_bound, Z.pow_pos_nonneg; lia.
Qed.

Lemma increment_cells s hash :
  sketch_wf s → u32 (additions s + 1) < sampleSize s →
  sketch_wf (increment s hash) ∧ skmask (increment s hash) = skmask s ∧
  ∀ j k, 0 ≤ j → 0 ≤ k → counter (sktable (increment s hash)) j k =
    counter (sktable s) j k + Z.b2z (hits (skmask s) hash [0; 1; 2; 3] j k && (counter (sktable s) j k <? 15)).
Proof.
  intros [(m & Hm & Hl & Hmask) Hw] Hage. unfold increment.
  destruct (Nat.eqb_spec (length (sktable s)) 0); [pose proof (Z.pow_pos_nonneg 2 m); lia|].
  destruct (incrementAll_spec m (skmask s) hash [0; 1; 2; 3] (sktable s) false Hm Hl Hmask Hw (probes_distinct hash))
    as (tb & a & -> & Hl' & Hw' & Hc).
  assert (∀ n, sketch_wf (mkSketch tb (skmask s) n (sampleSize s))) as Hwf.
  { intros n'. split; [|done]. exists m. cbn. split_and!; try done; lia. }
  destruct a; cbn [additions sampleSize]; [rewrite (proj2 (Z.leb_gt _ _) Hage)|]; by split_and!.
Qed.

(** An increment raises the key's estimate by one, up to 15, and nobody else's goes down. *)
Lemma increment_estimates s hash :
  sketch_wf s → u32 (additions s + 1) < sampleSize s →
  estimate (increment s hash) hash = Z.min 15 (estimate s hash + 1) ∧
  ∀ hash', estimate s hash' ≤ estimate (increment s hash) hash' ≤ estimate s hash' + 1.
Proof.
  intros Hwf Hage. destruct (increment_cells s hash Hwf Hage) as (Hwf' & Hm & Hc).
  assert (∀ h i, cellOf (increment s hash) h i = cellOf s h i + Z.b2z
    (hits (skmask s) hash [0; 1; 2; 3] (cellWord (skmask s) (probeHash h i)) (cellNib (probeHash h i)) && (cellOf s h i <? 15)))
    as Hcell.
  { intros h i. unfold cellOf. rewrite Hm. apply Hc; [by apply cellWord_range|apply cellNib_range]. }
  assert (∀ h i, 0 ≤ cellOf s h i < 16) as Hr by (intros; apply nib_range). split.
  - rewrite !estimate_min by done. unfold estimateOf. rewrite !Hcell. unfold hits. cbn [existsb].
    rewrite !Z.eqb_refl. cbn [andb orb]. rewrite !orb_true_r. cbn [andb].
    pose proof (Hr hash 0). pose proof (Hr hash 1). pose proof (Hr hash 2). pose proof (Hr hash 3).
    repeat match goal with |- context [?a <? ?b] => destruct (Z.ltb_spec a b) end; cbn [Z.b2z]; lia.
  - intros h. rewrite !estimate_min by done. unfold estimateOf.
    assert (∀ i, cellOf s h i ≤ cellOf (increment s hash) h i ≤ cellOf s h i + 1) as Hb.
    { intros i. rewrite Hcell. pose proof (b2z_range (hits (skmask s) hash [0; 1; 2; 3]
        (cellWord (skmask s) (probeHash h i)) (cellNib (probeHash h i)) && (cellOf s h i <? 15))). lia. }
    pose proof (Hb 0). pose proof (Hb 1). pose proof (Hb 2). pose proof (Hb 3). lia.
Qed.

(** ** Ageing *)

Lemma testbit_sevens i : 0 ≤ i < 64 → Z.testbit 0x7777777777777777 i = negb (i mod 4 =? 3).
Proof.
  intros Hi. assert (forallb (λ i, eqb (Z.testbit 0x7777777777777777 i) (negb (i mod 4 =? 3))) (seqZ 0 64) = true) as H
    by (vm_compute; reflexivity).
  rewrite forallb_forall in H. apply eqb_prop, H. apply list_elem_of_In, elem_of_seqZ. lia.
Qed.

(** Halving all sixteen counters of a word at once. *)
Lemma nib_halved w k : 0 ≤ k < 16 → nib (Z.land (Z.shiftr w 1) 0x7777777777777777) k = nib w k / 2.
Proof.
  intros Hk. rewrite <- !nib_land by lia. change 2 with (2 ^ 1). rewrite <- Z.shiftr_div_pow2 by lia.
  apply Z.bits_inj'. intros i Hi. rewrite Z.shiftr_spec, !Z.land_spec, !Z.shiftr_spec, Z.land_spec, Z.shiftr_spec by lia.
  change 15 with (Z.ones 4). rewrite !Z.testbit_ones_nonneg by lia.
  destruct (Z.ltb_spec i 4).
  - rewrite testbit_sevens, andb_true_r by lia. replace ((i + k * 4) mod 4) with i
      by (rewrite Z.mod_add, Z.mod_small; lia).
    replace (i + 1 + k * 4) with (i + k * 4 + 1) by lia.
    f_equal. destruct (Z.eqb_spec i 3), (Z.ltb_spec (i + 1) 4); done || lia.
  - rewrite andb_false_r. destruct (Z.ltb_spec (i + 1) 4); [lia|]. by rewrite andb_false_r.
Qed.

Lemma sketchReset_wf s : sketch_wf s → sketch_wf (sketchReset s).
Proof.
  intros [(m & Hm & Hl & Hmask) Hw]. split.
  - exists m. cbn. by rewrite length_fmap.
  - cbn. apply Forall_fmap. eapply Forall_impl; [exact Hw|]. intros w [H0 H1]. cbn.
    split; [apply Z.land_nonneg; left; by apply Z.shiftr_nonneg|].
    assert (0 ≤ Z.shiftr w 1 ≤ w) by (rewrite Z.shiftr_div_pow2 by lia; split; [apply Z.div_pos; lia|
      apply Z.div_le_upper_bound; lia]).
    pose proof (ldiff_le (Z.shiftr w 1) (Z.lnot 0x7777777777777777)) as Hle.
    rewrite Z.ldiff_land, Z.lnot_involutive in Hle. lia.
Qed.

(** The ageing step halves every estimate. *)
Lemma reset_estimate s hash : sketch_wf s → estimate (sketchReset s) hash = estimate s hash / 2.
Proof.
  intros Hwf. rewrite !estimate_min by (done || by apply sketchReset_wf). unfold estimateOf.
  assert (∀ i, cellOf (sketchReset s) hash i = cellOf s hash i / 2) as Hc.
  { intros i. unfold cellOf, counter, wordAt. cbn. rewrite list_lookup_fmap.
    destruct (sktable s !! _) as [w|]; cbn; [apply nib_halved, cellNib_range|].
    unfold nib. by rewrite !Z.div_0_l by (apply Z.pow_nonzero; pose proof (cellNib_range (probeHash hash i)); lia). }
  rewrite !Hc. Z.to_euclidean_division_equations. lia.
Qed.

Lemma newFreqSketch_wf keys : 1 ≤ keys ≤ 2 ^ 32 → sketch_wf (newFreqSketch keys).
Proof.
  intros Hk. destruct (bitsLen_ceil keys ltac:(lia)) as [Hle Hlt]. pose proof (bitsLen_nonneg (keys - 1)) as Hn.
  unfold newFreqSketch. destruct (Z.leb_spec keys 0); [lia|]. cbv zeta. rewrite Z.shiftl_1_l.
  set (m := bitsLen (keys - 1)) in *. assert (m ≤ 32) as Hm.
  { destruct (Z_lt_le_dec 32 m) as [H32|]; [|done]. pose proof (Z.pow_le_mono_r 2 33 m).
    destruct (Z.eq_dec keys 1) as [->|]; [by cbn in H32|]. specialize (Hlt ltac:(lia)). lia. }
  assert (0 < 2 ^ m ≤ 2 ^ 32) by (split; [apply Z.pow_pos_nonneg|apply Z.pow_le_mono_r]; lia).
  split; cbn [sktable skmask].
  - exists m. rewrite length_replicate. unfold u32. rewrite Z.mod_small by lia. split_and!; try done; lia.
  - by apply Forall_replicate.
Qed.
