(* ===== verification/WTinyLfu.v ===== *)
(** * The W-TinyLFU policy (internal/eviction/wtinylfu_policy.go) *)

From S2P Require Import Prelude Item Queue Table TableInv Policy TwoQueue FreqSketch.

(** The seed is represented by the hash function it selects. *)
Record WTinyLFUPolicy (K : Type) := mkLfu {
  wseed : K → Z;
  window : EvictQueue;
  wmain : EvictQueue;
  sketch : freqSketch;
  windowWeight : Z;
  windowCap : Z
}.
Arguments mkLfu {K}.
Arguments wseed {K}.
Arguments window {K}.
Arguments wmain {K}.
Arguments sketch {K}.
Arguments windowWeight {K}.
Arguments windowCap {K}.

Section WTinyLFU.
Context {K V : Type} `{!GoType K} `{!GoType V}.
Implicit Types (t : FlatHashMap K V) (p : WTinyLFUPolicy K).

Definition NewWTinyLFU (seed : K → Z) (shardCap sketchKeys : Z) : WTinyLFUPolicy K :=
  let windowCap := Z.quot shardCap 100 in
  let windowCap := if windowCap <? 1 then 1 else windowCap in
  mkLfu seed emptyQueue emptyQueue (newFreqSketch sketchKeys) 0 windowCap.

Definition lfuKeyHash p (key : K) : Z := wseed p key.

Definition withSketch p (s : freqSketch) : WTinyLFUPolicy K :=
  mkLfu (wseed p) (window p) (wmain p) s (windowWeight p) (windowCap p).

Definition withMain p (q : EvictQueue) : WTinyLFUPolicy K :=
  mkLfu (wseed p) (window p) q (sketch p) (windowWeight p) (windowCap p).

Definition lfuAdd p t (node : QNode) : WTinyLFUPolicy K :=
  let p := withSketch p (increment (sketch p) (lfuKeyHash p (Key (entry (At t (Idx node)))))) in
  mkLfu (wseed p) (Push (window p) node) (wmain p) (sketch p) (windowWeight p + Cost node) (windowCap p).

Definition lfuLen p : nat := qLen (window p) + qLen (wmain p).

(** The struct itself is 152 bytes. *)
Definition lfuBytes p : Z := 152 + qBytes (window p) + qBytes (wmain p) + sketchBytes (sketch p).

Definition lfuSweep p t (release : FlatHashMap K V → Z → FlatHashMap K V)
    : WTinyLFUPolicy K * FlatHashMap K V :=
  let '(win, (t, w)) :=
    SweepQueue (λ a i, isDead a.1 i) (dropSwept release) (window p) (t, windowWeight p) in
  let '(main, t) := SweepQueue isDead (λ t node, release t (Idx node)) (wmain p) t in
  (mkLfu (wseed p) win main (sketch p) w (windowCap p), t).

Definition lfuRebuild {A} p (remap : A → Z → A * option Z) (a : A) : WTinyLFUPolicy K * A :=
  let '(win, (a, w)) := RebuildQueue (remapKeeping remap) dropRebuilt (window p) (a, windowWeight p) in
  let '(main, a) := RebuildQueue remap (λ a _, a) (wmain p) a in
  (mkLfu (wseed p) win main (sketch p) w (windowCap p), a).

(** [admit]: the candidate must beat the next victim of main, unless there is none of value. *)
Definition lfuAdmit p t (candidateKey : K) : bool :=
  match Peek (wmain p) with
  | None => true
  | Some victim =>
    let victimState := At t (Idx victim) in
    if negb (Z.land (Metadata victimState) Dead =? 0) then true
    else estimate (sketch p) (lfuKeyHash p (Key (entry victimState))) <?
         estimate (sketch p) (lfuKeyHash p candidateKey)
  end.

(** [evictWindowOnce]: the reclaimed slot, or [None] when the candidate was admitted to main. *)
Definition lfuEvictWindowOnce p t (nowOff : Z) : WTinyLFUPolicy K * FlatHashMap K V * option Z :=
  match Pop (window p) with
  | (win, None) => (mkLfu (wseed p) win (wmain p) (sketch p) (windowWeight p) (windowCap p), t, None)
  | (win, Some candidate) =>
    let p := mkLfu (wseed p) win (wmain p) (sketch p) (windowWeight p - Cost candidate) (windowCap p) in
    let item := At t (Idx candidate) in
    let metaWord := Metadata item in
    if negb (Z.land metaWord Dead =? 0) || Expired metaWord nowOff then (p, t, Some (Idx candidate))
    else if negb (Z.land metaWord ChanceMask =? 0) then
      let p := withSketch p (increment (sketch p) (lfuKeyHash p (Key (entry item)))) in
      (withMain p (Push (wmain p) candidate), alterAt t (Idx candidate) ResetChances, None)
    else if lfuAdmit p t (Key (entry item)) then (withMain p (Push (wmain p) candidate), t, None)
    else (p, t, Some (Idx candidate))
  end.

(** [evictMainOnce]: a GCLOCK step over main that feeds the reuse it sees into the sketch. *)
Definition lfuEvictMainOnce p t (nowOff : Z) : WTinyLFUPolicy K * FlatHashMap K V * option Z :=
  match Pop (wmain p) with
  | (main, None) => (withMain p main, t, None)
  | (main, Some candidate) =>
    let p := withMain p main in
    let item := At t (Idx candidate) in
    let metaWord := Metadata item in
    if negb (Z.land metaWord Dead =? 0) || Expired metaWord nowOff then (p, t, Some (Idx candidate))
    else if negb (Z.land metaWord ChanceMask =? 0) then
      let p := withSketch p (increment (sketch p) (lfuKeyHash p (Key (entry item)))) in
      (withMain p (Push (wmain p) candidate),
       alterAt t (Idx candidate) (λ item, RevokeChance item metaWord), None)
    else (p, t, Some (Idx candidate))
  end.

(** Each turn shortens the window, or spends one of the at most two chances of a node of main. *)
Definition lfuEvict p t (nowOff : Z) : option (WTinyLFUPolicy K * FlatHashMap K V * option Z) :=
  twoEvictLoop window wmain (λ p, windowCap p <? windowWeight p) lfuEvictWindowOnce lfuEvictMainOnce
    (qLen (window p) + 2 * qLen (wmain p) + 1) p t nowOff.

#[global] Instance WTinyLFU_ops : EvictionPolicy K V (WTinyLFUPolicy K) := {|
  pAdd := lfuAdd; pEvict := lfuEvict; pLen := lfuLen; pSweep := lfuSweep;
  pRebuild := @lfuRebuild; pBytes := lfuBytes |}.

(** ** The laws *)

Record lfuInv p : Prop := {
  lfu_window : queue_wf (window p);
  lfu_main : queue_wf (wmain p);
  lfu_weight : windowWeight p = sumCost (contents (window p))
}.

Definition lfuNodes p : list QNode := twoNodes window wmain p.

Lemma lfuAdd_laws p t n : lfuInv p → lfuInv (lfuAdd p t n) ∧ lfuNodes (lfuAdd p t n) ≡ₚ n :: lfuNodes p.
Proof.
  intros [Hs Hm Hw]. destruct (Push_spec (window p) n Hs) as [Hq Hc]. split.
  - split; cbn; [done|done|]. rewrite Hc, sumCost_app, sumCost_cons. change (sumCost []) with 0. lia.
  - unfold lfuNodes, twoNodes. cbn. rewrite Hc. by rewrite <- (Permutation_cons_append (contents (window p))).
Qed.

Lemma lfuLen_laws p : lfuInv p → lfuLen p = length (lfuNodes p).
Proof.
  intros [Hs Hm _]. unfold lfuLen, lfuNodes, twoNodes, qLen. rewrite length_app, !contents_length; done.
Qed.

Lemma no_chance m : Z.land m ChanceMask = 0 → chances m = 0%nat.
Proof.
  intros E. pose proof (has_chance m) as H. rewrite E in H. cbn in H. symmetry in H.
  apply orb_false_iff in H as [H1 H2]. unfold chances. by rewrite H1, H2.
Qed.

Lemma lfuWindowOnce_spec p t now n l :
  lfuInv p → table_shape t → contents (window p) = n :: l →
  ∃ p' t' r, lfuEvictWindowOnce p t now = (p', t', r) ∧ lfuInv p' ∧ fewer_table t t' ∧ contents (window p') = l ∧
    match r with
    | Some i => i = Idx n ∧ contents (wmain p') = contents (wmain p) ∧ victim_ok t t' i now
    | None => contents (wmain p') = contents (wmain p) ++ [n] ∧ chances (meta (At t' (Idx n))) = 0%nat
    end.
Proof.
  intros [Hs Hm Hw] Ht El. pose proof (Pop_contents (window p) Hs) as Hp. rewrite El in Hp.
  destruct Hp as (q1 & E & Hq1 & Hc1). unfold lfuEvictWindowOnce. rewrite E. cbv zeta.
  assert (windowWeight p - Cost n = sumCost l) as Hw' by (rewrite Hw, El, sumCost_cons; lia).
  destruct (Push_spec (wmain p) n Hm) as [Hq2 Hc2].
  destruct (negb (Z.land (Metadata (At t (Idx n))) Dead =? 0) || Expired (Metadata (At t (Idx n))) now) eqn:E1;
    [|destruct (negb (Z.land (Metadata (At t (Idx n))) ChanceMask =? 0)) eqn:E2; [|destruct (lfuAdmit _ _ _)]]; cbn.
  - eexists _, _, _. split_and!; try done; [by split; cbn; rewrite ?Hc1|].
    apply orb_true_iff in E1 as [E1|E1]; unfold victim_ok, isDead; auto.
  - eexists _, _, _. split_and!; try done; [by split; cbn; rewrite ?Hc1| |].
    + by apply fewer_alterAt, ResetChances_fewer.
    + split; [done|]. rewrite At_alterAt, decide_True by done. apply ResetChances_chances.
  - apply negb_false_iff, Z.eqb_eq in E2.
    eexists _, _, _. split_and!; try done; [by split; cbn; rewrite ?Hc1|]. split; [done|]. by apply no_chance.
  - apply negb_false_iff, Z.eqb_eq in E2.
    eexists _, _, _. split_and!; try done; [by split; cbn; rewrite ?Hc1|]. unfold victim_ok. auto.
Qed.

Lemma lfuMainOnce_spec p t now n l :
  lfuInv p → table_shape t → contents (wmain p) = n :: l →
  ∃ p' t' r, lfuEvictMainOnce p t now = (p', t', r) ∧ lfuInv p' ∧ fewer_table t t' ∧
    contents (window p') = contents (window p) ∧
    match r with
    | Some i => i = Idx n ∧ contents (wmain p') = l ∧ victim_ok t t' i now
    | None => contents (wmain p') = l ++ [n] ∧ (chanceSum t' (l ++ [n]) < chanceSum t (n :: l))%nat
    end.
Proof.
  intros [Hs Hm Hw] Ht El. pose proof (Pop_contents (wmain p) Hm) as Hp. rewrite El in Hp.
  destruct Hp as (q1 & E & Hq1 & Hc1). unfold lfuEvictMainOnce. rewrite E. cbv zeta.
  destruct (negb (Z.land (Metadata (At t (Idx n))) Dead =? 0) || Expired (Metadata (At t (Idx n))) now) eqn:E1;
    [|destruct (negb (Z.land (Metadata (At t (Idx n))) ChanceMask =? 0)) eqn:E2]; cbn.
  - eexists _, _, _. split_and!; try done. apply orb_true_iff in E1 as [E1|E1]; unfold victim_ok, isDead; auto.
  - destruct (Push_spec q1 n Hq1) as [Hq2 Hc2]. apply negb_true_iff in E2.
    eexists _, _, _. split_and!; try done; [by apply fewer_alterAt, RevokeChance_fewer|].
    cbn. rewrite Hc2, Hc1. split; [done|]. by apply chanceSum_revoke.
  - eexists _, _, _. split_and!; try done. apply negb_false_iff, Z.eqb_eq in E2. unfold victim_ok. auto.
Qed.

Lemma lfuEvict_laws p t now :
  lfuInv p → table_shape t →
  ∃ p' t' r, lfuEvict p t now = Some (p', t', r) ∧ lfuInv p' ∧ fewer_table t t' ∧
    match r with
    | None => lfuNodes p = [] ∧ lfuNodes p' = []
    | Some i => (∃ c, lfuNodes p ≡ₚ mkQNode i c :: lfuNodes p') ∧
      (isDead t i = true ∨ Expired (meta (At t i)) now = true ∨ Z.land (meta (At t' i)) ChanceMask = 0)
    end.
Proof.
  intros Hp Ht. apply (twoEvictLoop_spec window wmain _ _ _ lfuInv); try done.
  - intros p' []. done.
  - apply lfuWindowOnce_spec.
  - apply lfuMainOnce_spec.
  - destruct Hp as [Hs Hm _]. unfold twoMeasure, qLen. pose proof (chanceSum_le t (contents (wmain p))).
    rewrite !contents_length in * by done. lia.
Qed.

Lemma lfuSweep_laws p t release :
  lfuInv p → table_shape t → release_ok release →
  ∃ l p', lfuSweep p t release = (p', foldl release t (Idx <$> l)) ∧ lfuInv p' ∧
    l ≡ₚ filter (λ n, isDead t (Idx n) = true) (lfuNodes p) ∧
    lfuNodes p' ≡ₚ filter (λ n, isDead t (Idx n) = false) (lfuNodes p).
Proof.
  intros [Hs Hm Hw] Ht Hrel.
  destruct (twoSweep_laws (window p) (wmain p) t (windowWeight p) release Hs Hm Ht Hrel)
    as (win & main & w & l & E1 & E2 & Hs' & Hm' & Hw' & Hl & Hn).
  exists l, (mkLfu (wseed p) win main (sketch p) w (windowCap p)). split_and!; [|split; cbn; [done|done|lia]|done|done].
  unfold lfuSweep. rewrite E1. by rewrite E2.
Qed.

Lemma lfuRebuild_laws A p (remap : A → Z → A * option Z) (a : A) :
  lfuInv p →
  ∃ l p', l ≡ₚ lfuNodes p ∧
    lfuRebuild p remap a = (p', (rebuildList remap (λ a _, a) l a).2) ∧ lfuInv p' ∧
    lfuNodes p' ≡ₚ (rebuildList remap (λ a _, a) l a).1.
Proof.
  intros [Hs Hm Hw].
  destruct (RebuildQueue_weighted (window p) remap a (windowWeight p) Hs) as (q1 & E1 & Hq1 & Hc1).
  destruct (RebuildQueue_laws (wmain p) remap (rebuildList remap (λ a _, a) (contents (window p)) a).2 Hm)
    as (q2 & E2 & Hq2 & Hc2).
  eexists (lfuNodes p), (mkLfu (wseed p) q1 q2 (sketch p) _ (windowCap p)). split_and!; [done|..].
  - unfold lfuRebuild, lfuNodes, twoNodes. rewrite E1, E2, rebuildList_app. done.
  - split; cbn; [done|done|]. rewrite Hc1, Hw. lia.
  - unfold lfuNodes, twoNodes. cbn. by rewrite rebuildList_app, Hc1, Hc2.
Qed.

#[global] Instance WTinyLFU_laws : PolicyLaws K V (WTinyLFUPolicy K) := {|
  pInv := lfuInv; pNodes := lfuNodes; pAdd_laws := lfuAdd_laws; pLen_laws := lfuLen_laws;
  pEvict_laws := lfuEvict_laws; pSweep_laws := lfuSweep_laws; pRebuild_laws := lfuRebuild_laws |}.

End WTinyLFU.
