(* ===== verification/Sieve.v ===== *)
(** * The SIEVE policy (internal/eviction/sieve_policy.go)

    One insertion-ordered list, doubly linked through the indices of a slice with an intrusive
    freelist, and a hand that scans from the oldest item to the newest.  The invariant relates the
    links to the list they stand for. *)

From S2P Require Import Prelude Item Queue Table TableInv Policy.

Definition noLink : Z := -1.

Record sieveNode := mkSieveNode { sitem : QNode; sprev : Z; snext : Z }.

Definition zeroSieveNode : sieveNode := mkSieveNode zeroNode 0 0.

(** [svcap] is the capacity of the slice, [svgrow] the growth rule of the runtime's [append]. *)
Record SievePolicy := mkSieve {
  svnodes : list sieveNode;
  svfree : Z;
  svhead : Z;
  svtail : Z;
  svhand : Z;
  svsize : nat;
  svcap : Z;
  svgrow : Z → Z
}.

Definition NewSieve (grow : Z → Z) : SievePolicy := mkSieve [] noLink noLink noLink noLink 0 0 grow.

Definition nodeAt (ns : list sieveNode) (i : Z) : sieveNode := default zeroSieveNode (ns !! Z.to_nat i).
Definition setNode (ns : list sieveNode) (i : Z) (f : sieveNode → sieveNode) : list sieveNode :=
  alter f (Z.to_nat i) ns.

Definition withPrev (x : Z) (n : sieveNode) : sieveNode := mkSieveNode (sitem n) x (snext n).
Definition withNext (x : Z) (n : sieveNode) : sieveNode := mkSieveNode (sitem n) (sprev n) x.

(** [alloc]; the [int32] of the new index is exact below [2^31] nodes. *)
Definition sieveAlloc (p : SievePolicy) : SievePolicy * Z :=
  if negb (svfree p =? noLink) then
    let cur := svfree p in
    (mkSieve (svnodes p) (snext (nodeAt (svnodes p) cur)) (svhead p) (svtail p) (svhand p) (svsize p)
       (svcap p) (svgrow p), cur)
  else
    let c := if Z.of_nat (length (svnodes p)) <? svcap p then svcap p else svgrow p (svcap p) in
    let ns := svnodes p ++ [zeroSieveNode] in
    (mkSieve ns (svfree p) (svhead p) (svtail p) (svhand p) (svsize p) c (svgrow p),
     Z.of_nat (length ns) - 1).

(** [unlink]: the fields of [node] are read again after each store, as through the pointer. *)
Definition unlink (p : SievePolicy) (cur : Z) : SievePolicy :=
  let ns := svnodes p in
  let '(ns, head) :=
    if negb (sprev (nodeAt ns cur) =? noLink)
    then (setNode ns (sprev (nodeAt ns cur)) (withNext (snext (nodeAt ns cur))), svhead p)
    else (ns, snext (nodeAt ns cur)) in
  let '(ns, tail) :=
    if negb (snext (nodeAt ns cur) =? noLink)
    then (setNode ns (snext (nodeAt ns cur)) (withPrev (sprev (nodeAt ns cur))), svtail p)
    else (ns, sprev (nodeAt ns cur)) in
  let ns := setNode ns cur (λ node, mkSieveNode zeroNode (sprev node) (svfree p)) in
  mkSieve ns cur head tail (svhand p) (svsize p - 1) (svcap p) (svgrow p).

Definition setHand (p : SievePolicy) (hand : Z) : SievePolicy :=
  mkSieve (svnodes p) (svfree p) (svhead p) (svtail p) hand (svsize p) (svcap p) (svgrow p).

Definition removeAt (p : SievePolicy) (cur : Z) : SievePolicy * Z :=
  let node := nodeAt (svnodes p) cur in
  (unlink (setHand p (sprev node)) cur, Idx (sitem node)).

Section Sieve.
Context {K V : Type} `{!GoType K} `{!GoType V}.
Implicit Types (t : FlatHashMap K V) (p : SievePolicy).

Definition sieveAdd p t (node : QNode) : SievePolicy :=
  let '(p, cur) := sieveAlloc p in
  let ns := setNode (svnodes p) cur (λ _, mkSieveNode node noLink (svhead p)) in
  let '(ns, tail) :=
    if negb (svhead p =? noLink) then (setNode ns (svhead p) (withPrev cur), svtail p) else (ns, cur) in
  mkSieve ns (svfree p) cur tail (svhand p) (S (svsize p)) (svcap p) (svgrow p).

Definition sieveLen p : nat := svsize p.

(** The struct is 56 bytes, a node 16. *)
Definition sieveBytes p : Z := 56 + svcap p * 16.

(** The loop of [Evict]: each turn removes a node for good or clears its reference counter. *)
Fixpoint sieveEvictLoop (fuel : nat) p t (nowOff : Z) : option (SievePolicy * FlatHashMap K V * option Z) :=
  match fuel with
  | O => None
  | S fuel =>
    if (0 <? svsize p)%nat then
      let cur := if svhand p =? noLink then svtail p else svhand p in
      let node := nodeAt (svnodes p) cur in
      let metaWord := Metadata (At t (Idx (sitem node))) in
      if negb (Z.land metaWord Dead =? 0) || Expired metaWord nowOff then
        let '(p, idx) := removeAt p cur in Some (p, t, Some idx)
      else if negb (Z.land metaWord ChanceMask =? 0) then
        sieveEvictLoop fuel (setHand p (sprev node)) (alterAt t (Idx (sitem node)) ResetChances) nowOff
      else let '(p, idx) := removeAt p cur in Some (p, t, Some idx)
    else Some (p, t, None)
  end.

Definition sieveEvict p t (nowOff : Z) : option (SievePolicy * FlatHashMap K V * option Z) :=
  sieveEvictLoop (2 * svsize p + 1) p t nowOff.

(** The walk of [Sweep] from the head, and that of [Rebuild] from the tail, one turn per node. *)
Fixpoint sieveSweepLoop (fuel : nat) (release : FlatHashMap K V → Z → FlatHashMap K V) (cur : Z) p t
    : SievePolicy * FlatHashMap K V :=
  match fuel with
  | O => (p, t)
  | S fuel =>
    if negb (cur =? noLink) then
      let node := nodeAt (svnodes p) cur in
      let next := snext node in
      if negb (Z.land (Metadata (At t (Idx (sitem node)))) Dead =? 0) then
        let p := if svhand p =? cur then setHand p (sprev node) else p in
        sieveSweepLoop fuel release next (unlink p cur) (release t (Idx (sitem node)))
      else sieveSweepLoop fuel release next p t
    else (p, t)
  end.

Definition sieveSweep p t (release : FlatHashMap K V → Z → FlatHashMap K V) : SievePolicy * FlatHashMap K V :=
  sieveSweepLoop (svsize p) release (svhead p) p t.

Fixpoint sieveRebuildLoop {A} (fuel : nat) (remap : A → Z → A * option Z) (cur : Z) p (a : A) : SievePolicy * A :=
  match fuel with
  | O => (p, a)
  | S fuel =>
    if negb (cur =? noLink) then
      let node := nodeAt (svnodes p) cur in
      let prev := sprev node in
      match remap a (Idx (sitem node)) with
      | (a, Some newIdx) =>
        let ns := setNode (svnodes p) cur
          (λ n, mkSieveNode (mkQNode newIdx (Cost (sitem n))) (sprev n) (snext n)) in
        sieveRebuildLoop fuel remap prev
          (mkSieve ns (svfree p) (svhead p) (svtail p) (svhand p) (svsize p) (svcap p) (svgrow p)) a
      | (a, None) =>
        let p := if svhand p =? cur then setHand p prev else p in
        sieveRebuildLoop fuel remap prev (unlink p cur) a
      end
    else (p, a)
  end.

Definition sieveRebuild {A} p (remap : A → Z → A * option Z) (a : A) : SievePolicy * A :=
  sieveRebuildLoop (svsize p) remap (svtail p) p a.

#[global] Instance Sieve_ops : EvictionPolicy K V SievePolicy := {|
  pAdd := sieveAdd; pEvict := sieveEvict; pLen := sieveLen; pSweep := sieveSweep;
  pRebuild := @sieveRebuild; pBytes := sieveBytes |}.

End Sieve.

(** ** The SIEVE list keeps the policy laws *)

Definition firstOr (l : list Z) (d : Z) : Z := default d (head l).
Definition lastOr (l : list Z) (d : Z) : Z := default d (last l).

Lemma firstOr_app A B d : firstOr (A ++ B) d = firstOr A (firstOr B d).
Proof. by destruct A. Qed.

Lemma lastOr_cons i L d : lastOr (i :: L) d = lastOr L i.
Proof. unfold lastOr. rewrite last_cons. by destruct (last L). Qed.

Lemma lastOr_snoc L i d : lastOr (L ++ [i]) d = i.
Proof. unfold lastOr. by rewrite last_snoc. Qed.

(** The nodes of [L] are linked in this order, with [p] before and [q] after. *)
Fixpoint seg (ns : list sieveNode) (p : Z) (L : list Z) (q : Z) : Prop :=
  match L with
  | [] => True
  | i :: L => sprev (nodeAt ns i) = p ∧ snext (nodeAt ns i) = firstOr L q ∧ seg ns i L q
  end.

Lemma seg_app ns A : ∀ p B q,
  seg ns p (A ++ B) q ↔ seg ns p A (firstOr B q) ∧ seg ns (lastOr A p) B q.
Proof.
  induction A as [|i A IH]; intros p B q; cbn [app seg]; [cbn; tauto|].
  rewrite IH, firstOr_app, lastOr_cons. tauto.
Qed.

(** Only the last node sees what comes after, only the first what came before. *)
Lemma seg_relink_next ns ns' A : ∀ p q q',
  NoDup A → seg ns p A q →
  (∀ i, i ∈ A → sprev (nodeAt ns' i) = sprev (nodeAt ns i)) →
  (∀ i, i ∈ A → snext (nodeAt ns' i) = if decide (last A = Some i) then q' else snext (nodeAt ns i)) →
  seg ns' p A q'.
Proof.
  induction A as [|i A IH]; intros p q q' Hnd Hseg Hp Hn; [done|]. cbn [seg] in *.
  apply NoDup_cons in Hnd as [Hi Hnd]. destruct Hseg as (E1 & E2 & Hseg). split_and!.
  - by rewrite Hp by set_solver.
  - rewrite Hn by set_solver. destruct A as [|j A]; [by rewrite decide_True by done|].
    rewrite decide_False; [done|]. rewrite last_cons_cons. intros Hl.
    by apply Hi, last_Some_elem_of.
  - apply (IH i q); [done|done| |]; intros j Hj; [apply Hp; set_solver|].
    rewrite Hn by set_solver. destruct A as [|j' A]; [set_solver|]. by rewrite last_cons_cons.
Qed.

Lemma seg_relink_prev ns ns' B p p' q :
  NoDup B → seg ns p B q →
  (∀ i, i ∈ B → snext (nodeAt ns' i) = snext (nodeAt ns i)) →
  (∀ i, i ∈ B → sprev (nodeAt ns' i) = if decide (head B = Some i) then p' else sprev (nodeAt ns i)) →
  seg ns' p' B q.
Proof.
  destruct B as [|j B]; [done|]. cbn [seg]. intros [Hj Hnd]%NoDup_cons (E1 & E2 & Hseg) Hn Hp. split_and!.
  - rewrite Hp, decide_True by (done || set_solver). done.
  - by rewrite Hn by set_solver.
  - clear E2. assert (∀ i, i ∈ B → sprev (nodeAt ns' i) = sprev (nodeAt ns i)) as Hp'.
    { intros i Hi. rewrite Hp, decide_False; [done| |set_solver]. cbn. intros [= ->]. done. }
    assert (∀ i, i ∈ B → snext (nodeAt ns' i) = snext (nodeAt ns i)) as Hn' by set_solver.
    clear Hn Hp Hj E1 p. revert j Hseg. induction B as [|i B IH]; intros j; cbn [seg]; [done|].
    intros (E1 & E2 & Hseg). apply NoDup_cons in Hnd as [_ Hnd].
    split_and!; [by rewrite Hp' by set_solver|by rewrite Hn' by set_solver|].
    apply IH; [done|set_solver|set_solver|done].
Qed.

(** A freelist through [snext]. *)
Fixpoint freeSeg (ns : list sieveNode) (F : list Z) : Prop :=
  match F with
  | [] => True
  | i :: F => snext (nodeAt ns i) = firstOr F noLink ∧ freeSeg ns F
  end.

Lemma freeSeg_ext ns ns' F :
  freeSeg ns F → (∀ i, i ∈ F → snext (nodeAt ns' i) = snext (nodeAt ns i)) → freeSeg ns' F.
Proof.
  induction F as [|i F IH]; [done|]. cbn [freeSeg]. intros [E H] Hn.
  split; [by rewrite Hn by set_solver|]. apply IH; [done|set_solver].
Qed.

(** The links stand for the list [L], newest first, and the freelist [F]. *)
Record sieve_ok (p : SievePolicy) (L F : list Z) : Prop := {
  so_seg : seg (svnodes p) noLink L noLink;
  so_free : freeSeg (svnodes p) F;
  so_head : svhead p = firstOr L noLink;
  so_tail : svtail p = lastOr L noLink;
  so_first : svfree p = firstOr F noLink;
  so_nodup : NoDup (L ++ F);
  so_range i : i ∈ L ++ F → 0 ≤ i < Z.of_nat (length (svnodes p));
  so_hand : svhand p = noLink ∨ svhand p ∈ L;
  so_size : svsize p = length L
}.

Definition sieveItems (p : SievePolicy) (L : list Z) : list QNode := (λ i, sitem (nodeAt (svnodes p) i)) <$> L.

Lemma nodeAt_set ns i j f :
  0 ≤ i < Z.of_nat (length ns) → 0 ≤ j →
  nodeAt (setNode ns i f) j = if decide (i = j) then f (nodeAt ns j) else nodeAt ns j.
Proof.
  intros Hi Hj. unfold nodeAt, setNode. case_decide as E.
  - subst j. rewrite list_lookup_alter_eq. destruct (lookup_lt_is_Some_2 ns (Z.to_nat i)) as [n Hn]; [lia|].
    by rewrite Hn.
  - by rewrite list_lookup_alter_ne by lia.
Qed.

Lemma firstOr_elem B j : 0 ≤ j → head B = Some j ↔ firstOr B noLink = j.
Proof. unfold firstOr, noLink. intros Hj. destruct B as [|b B]; cbn; [split; [done|lia]|]. split; congruence. Qed.

Lemma lastOr_elem A j : 0 ≤ j → last A = Some j ↔ lastOr A noLink = j.
Proof. unfold lastOr, noLink. intros Hj. destruct (last A) as [a|]; cbn; [split; congruence|]. split; [done|lia]. Qed.

Lemma firstOr_cases B : firstOr B noLink = noLink ∨ firstOr B noLink ∈ B.
Proof. destruct B as [|b B]; [by left|right; cbn; set_solver]. Qed.

Lemma lastOr_cases A : lastOr A noLink = noLink ∨ lastOr A noLink ∈ A.
Proof. unfold lastOr. destruct (last A) as [a|] eqn:E; [right; by apply last_Some_elem_of|by left]. Qed.

(** A conditional store through a link. *)
Lemma nodeAt_link ns x j f :
  x = noLink ∨ 0 ≤ x < Z.of_nat (length ns) → 0 ≤ j →
  nodeAt (if negb (x =? noLink) then setNode ns x f else ns) j =
    if decide (x = j) then f (nodeAt ns j) else nodeAt ns j.
Proof.
  intros Hx Hj. destruct (Z.eqb_spec x noLink) as [->|Hne]; cbn [negb].
  - rewrite decide_False; [done|]. unfold noLink. lia.
  - rewrite nodeAt_set; [done| |done]. by destruct Hx.
Qed.

Lemma length_link ns x f :
  length (if negb (x =? noLink) then setNode ns x f else ns) = length ns.
Proof. case_match; [apply length_alter|done]. Qed.

(** What [unlink] does to the nodes: the neighbours are joined and [cur] is freed. *)
Lemma unlink_nodes p A cur B F :
  sieve_ok p (A ++ cur :: B) F →
  length (svnodes (unlink p cur)) = length (svnodes p) ∧
  (∀ j, j ∈ A ++ B ++ F →
    sitem (nodeAt (svnodes (unlink p cur)) j) = sitem (nodeAt (svnodes p) j) ∧
    sprev (nodeAt (svnodes (unlink p cur)) j) =
      (if decide (head B = Some j) then lastOr A noLink else sprev (nodeAt (svnodes p) j)) ∧
    snext (nodeAt (svnodes (unlink p cur)) j) =
      (if decide (last A = Some j) then firstOr B noLink else snext (nodeAt (svnodes p) j))) ∧
  snext (nodeAt (svnodes (unlink p cur)) cur) = svfree p ∧
  svhead (unlink p cur) = firstOr (A ++ B) noLink ∧ svtail (unlink p cur) = lastOr (A ++ B) noLink.
Proof.
  intros [Hseg Hfree Hh Ht _ Hnd Hr _ _]. apply seg_app in Hseg as [HsA HsB].
  cbn [seg] in HsB. destruct HsB as (Ep & En & _). set (ns := svnodes p) in *.
  set (pv := lastOr A noLink) in *. set (nx := firstOr B noLink) in *.
  assert (0 ≤ cur < Z.of_nat (length ns)) as Hcur by (apply Hr; set_solver).
  assert (pv = noLink ∨ 0 ≤ pv < Z.of_nat (length ns)) as Hpv.
  { destruct (lastOr_cases A) as [|Hin]; [by left|right; apply Hr; set_solver]. }
  assert (nx = noLink ∨ 0 ≤ nx < Z.of_nat (length ns)) as Hnx.
  { destruct (firstOr_cases B) as [|Hin]; [by left|right; apply Hr; set_solver]. }
  assert (¬ cur ∈ A ∧ ¬ cur ∈ B ∧ ¬ cur ∈ F) as (HcA & HcB & HcF).
  { rewrite <- app_assoc in Hnd. apply NoDup_app in Hnd as (_ & Hd & Hnd). cbn in Hnd.
    apply NoDup_cons in Hnd as [Hn _]. split; [intros Hin; by apply (Hd cur Hin); set_solver|set_solver]. }
  assert (pv ≠ cur) as Hpc.
  { intros E. destruct (lastOr_cases A) as [E'|Hin]; [unfold pv, noLink in *; lia|]. fold pv in Hin. by rewrite E in Hin. }
  assert (nx ≠ cur) as Hnc.
  { intros E. destruct (firstOr_cases B) as [E'|Hin]; [unfold nx, noLink in *; lia|]. fold nx in Hin. by rewrite E in Hin. }
  set (ns1 := if negb (pv =? noLink) then setNode ns pv (withNext nx) else ns).
  assert (∀ j, 0 ≤ j → nodeAt ns1 j = if decide (pv = j) then withNext nx (nodeAt ns j) else nodeAt ns j) as H1
    by (intros; by apply nodeAt_link).
  assert (length ns1 = length ns) as Hl1 by apply length_link.
  set (ns2 := if negb (nx =? noLink) then setNode ns1 nx (withPrev pv) else ns1).
  assert (∀ j, 0 ≤ j → nodeAt ns2 j = if decide (nx = j) then withPrev pv (nodeAt ns1 j) else nodeAt ns1 j) as H2
    by (intros; apply nodeAt_link; [by rewrite Hl1|done]).
  assert (length ns2 = length ns) as Hl2 by (unfold ns2; by rewrite length_link).
  assert (nodeAt ns1 cur = nodeAt ns cur) as Ec1 by (rewrite H1, decide_False; [done|done|lia]).
  assert (unlink p cur = mkSieve (setNode ns2 cur (λ node, mkSieveNode zeroNode (sprev node) (svfree p))) cur
    (if negb (pv =? noLink) then svhead p else nx) (if negb (nx =? noLink) then svtail p else pv)
    (svhand p) (svsize p - 1) (svcap p) (svgrow p)) as ->.
  { unfold unlink. fold ns. rewrite Ep, En. change (firstOr B noLink) with nx.
    unfold ns2, ns1 in *. destruct (negb (pv =? noLink)); rewrite ?Ec1, ?Ep, ?En; fold nx;
      destruct (negb (nx =? noLink)); done. }
  cbn [svnodes svhead svtail]. split_and!.
  - by rewrite <- Hl2; apply length_alter.
  - intros j Hj. assert (0 ≤ j) as Hj0 by (apply Hr; set_solver). assert (j ≠ cur) by (intros ->; set_solver).
    rewrite nodeAt_set, decide_False by (done || lia). rewrite H2, H1 by done.
    rewrite (decide_ext (head B = Some j) (nx = j)) by (by apply firstOr_elem).
    rewrite (decide_ext (last A = Some j) (pv = j)) by (by apply lastOr_elem).
    repeat case_decide; done.
  - rewrite nodeAt_set, decide_True by (done || lia). done.
  - destruct A as [|a A]; [done|]. destruct (Z.eqb_spec pv noLink) as [E|E]; [|done].
    unfold pv in E.
    destruct (last (a :: A)) as [x|] eqn:El; [|by apply last_None in El].
    assert (0 ≤ x) by (apply Hr; apply last_Some_elem_of in El; set_solver).
    unfold lastOr in E. rewrite El in E. cbn in E. unfold noLink in E. lia.
  - destruct B as [|b B]; [by rewrite app_nil_r|]. assert (0 ≤ b) by (apply Hr; set_solver).
    destruct (Z.eqb_spec nx noLink) as [E|E]; [cbn in E; unfold noLink in E; lia|]. cbn [negb].
    rewrite Ht. unfold lastOr. by rewrite !last_app_cons, last_cons_cons.
Qed.

Lemma unlink_ok p A cur B F :
  sieve_ok p (A ++ cur :: B) F → svhand p ≠ cur →
  sieve_ok (unlink p cur) (A ++ B) (cur :: F) ∧ sieveItems (unlink p cur) (A ++ B) = sieveItems p (A ++ B) ∧
  svhand (unlink p cur) = svhand p ∧
  (∀ j, j ∈ A ++ B → sitem (nodeAt (svnodes (unlink p cur)) j) = sitem (nodeAt (svnodes p) j)).
Proof.
  intros Hok Hhand. destruct (unlink_nodes p A cur B F Hok) as (Hl & Hns & Hc & Hh & Ht).
  assert (svhand (unlink p cur) = svhand p ∧ svfree (unlink p cur) = cur ∧ svsize (unlink p cur) = (svsize p - 1)%nat)
    as (Eh & Ef & Es) by (unfold unlink; repeat case_match; done).
  destruct Hok as [Hseg Hfree _ _ Hff Hnd Hr Hha Hsz].
  assert (NoDup (A ++ B ++ F) ∧ ¬ cur ∈ A ++ B ++ F) as [Hnd' Hcno].
  { assert ((A ++ cur :: B) ++ F ≡ₚ cur :: (A ++ B ++ F)) as Hp.
    { rewrite <- app_assoc. cbn. by rewrite <- Permutation_middle. }
    rewrite Hp in Hnd. by apply NoDup_cons in Hnd as [? ?]. }
  apply seg_app in Hseg as [HsA (_ & _ & HsB)].
  assert (∀ i, i ∈ A → ¬ i ∈ B ++ F) as HdA by (intros i Hi; by apply NoDup_app in Hnd' as (_ & Hd & _); apply Hd).
  assert (∀ i, i ∈ F → ¬ i ∈ A ++ B) as HdF.
  { intros i Hi Hin. rewrite app_assoc in Hnd'. apply NoDup_app in Hnd' as (_ & Hd & _). by apply (Hd i). }
  split_and!; [|apply list_fmap_ext; intros j x Hx%list_elem_of_lookup_2; apply Hns; set_solver|done|intros j Hj; apply Hns; set_solver].
  split.
  - apply seg_app. split.
    + apply (seg_relink_next (svnodes p) _ A noLink cur); [by apply NoDup_app in Hnd' as (? & _)|done| |].
      * intros i Hi. destruct (Hns i ltac:(set_solver)) as (_ & -> & _). rewrite decide_False; [done|].
        intros Hb%head_Some_elem_of. set_solver.
      * intros i Hi. by destruct (Hns i ltac:(set_solver)) as (_ & _ & ->).
    + apply (seg_relink_prev (svnodes p) _ B cur); [by apply NoDup_app in Hnd' as (_ & _ & (? & _)%NoDup_app)|done| |].
      * intros i Hi. destruct (Hns i ltac:(set_solver)) as (_ & _ & ->). rewrite decide_False; [done|].
        intros Ha%last_Some_elem_of. set_solver.
      * intros i Hi. by destruct (Hns i ltac:(set_solver)) as (_ & -> & _).
  - split; [by rewrite Hc, Hff|]. eapply freeSeg_ext; [exact Hfree|]. intros i Hi.
    destruct (Hns i ltac:(set_solver)) as (_ & _ & ->). rewrite decide_False; [done|].
    intros Ha%last_Some_elem_of. set_solver.
  - done.
  - done.
  - done.
  - rewrite <- Permutation_middle, <- app_assoc. by apply NoDup_cons.
  - intros i Hi. rewrite Hl. apply Hr. set_solver.
  - rewrite Eh. destruct Hha as [|Hin]; [by left|right]. set_solver.
  - rewrite Es, Hsz, !length_app. cbn. lia.
Qed.

(** ** Reading the list back from the links *)

Fixpoint walk (fuel : nat) (ns : list sieveNode) (cur : Z) : list Z :=
  match fuel with
  | O => []
  | S fuel => cur :: walk fuel ns (snext (nodeAt ns cur))
  end.

Definition sieveOrder (p : SievePolicy) : list Z := walk (svsize p) (svnodes p) (svhead p).

Lemma walk_seg ns L : ∀ p q, seg ns p L q → walk (length L) ns (firstOr L q) = L.
Proof.
  induction L as [|i L IH]; intros p q; [done|]. cbn [seg length walk]. intros (_ & E & Hseg).
  change (firstOr (i :: L) q) with i. f_equal. rewrite E. by eapply IH.
Qed.

Lemma sieveOrder_ok p L F : sieve_ok p L F → sieveOrder p = L.
Proof.
  intros Hok. unfold sieveOrder. rewrite (so_size _ _ _ Hok), (so_head _ _ _ Hok). eapply walk_seg, Hok.
Qed.

Definition sieveInv (p : SievePolicy) : Prop := ∃ F, sieve_ok p (sieveOrder p) F.
Definition sieveNodes (p : SievePolicy) : list QNode := sieveItems p (sieveOrder p).

Lemma sieveInv_intro p L F : sieve_ok p L F → sieveInv p ∧ sieveNodes p = sieveItems p L.
Proof.
  intros Hok. pose proof (sieveOrder_ok p L F Hok) as E. split; [exists F; by rewrite E|].
  unfold sieveNodes. by rewrite E.
Qed.

Lemma seg_ext ns ns' L p q :
  (∀ i, i ∈ L → nodeAt ns' i = nodeAt ns i) → seg ns p L q → seg ns' p L q.
Proof.
  revert p. induction L as [|i L IH]; intros p He; [done|]. cbn [seg]. intros (E1 & E2 & Hseg).
  rewrite He by set_solver. split_and!; [done|done|]. apply IH; [set_solver|done].
Qed.

(** ** Insertion *)

Lemma sieveAlloc_ok p L F :
  sieve_ok p L F →
  let '(p1, cur) := sieveAlloc p in
  ∃ F', sieve_ok p1 L F' ∧ ¬ cur ∈ L ++ F' ∧ 0 ≤ cur < Z.of_nat (length (svnodes p1)) ∧
    sieveItems p1 L = sieveItems p L.
Proof.
  intros [Hseg Hfree Hh Ht Hff Hnd Hr Hha Hsz]. unfold sieveAlloc. rewrite Hff.
  destruct F as [|cur F]; cbn [firstOr head default from_option id].
  - change (negb (noLink =? noLink)) with false. cbv iota. exists []. set (ns' := svnodes p ++ [zeroSieveNode]).
    assert (∀ i, i ∈ L ++ [] → nodeAt ns' i = nodeAt (svnodes p) i) as Hat.
    { intros i Hi. apply Hr in Hi. unfold nodeAt, ns'. by rewrite lookup_app_l by lia. }
    assert (length ns' = S (length (svnodes p))) as Hl by (unfold ns'; rewrite length_app; cbn; lia).
    cbn [svnodes]. split_and!; [|intros Hin%Hr; lia|lia|lia|].
    + split; cbn [svnodes svhead svtail svfree svhand svsize]; try done.
      * eapply seg_ext; [|done]. intros i Hi. apply Hat. set_solver.
      * intros i Hi%Hr. lia.
    + apply list_fmap_ext. intros j x Hx%list_elem_of_lookup_2. cbn. rewrite Hat; [done|set_solver].
  - assert (0 ≤ cur < Z.of_nat (length (svnodes p))) as Hc by (apply Hr; set_solver).
    destruct (Z.eqb_spec cur noLink) as [->|_]; [unfold noLink in Hc; lia|]. cbn [negb].
    exists F. cbn [svnodes]. split_and!; [|..|lia|lia|done].
    + split; cbn [svnodes svhead svtail svfree svhand svsize]; try done.
      * by destruct Hfree.
      * by destruct Hfree.
      * by rewrite <- Permutation_middle in Hnd; apply NoDup_cons in Hnd as [_ ?].
      * intros i Hi. apply Hr. set_solver.
    + rewrite <- Permutation_middle in Hnd. by apply NoDup_cons in Hnd as [? _].
Qed.

Section Laws.
Context {K V : Type} `{!GoType K} `{!GoType V}.
Implicit Types (t : FlatHashMap K V) (p : SievePolicy).

Lemma sieveAdd_ok p t n L F :
  sieve_ok p L F → ∃ cur F', sieve_ok (sieveAdd p t n) (cur :: L) F' ∧
    sieveItems (sieveAdd p t n) (cur :: L) = n :: sieveItems p L.
Proof.
  intros Hok. pose proof (sieveAlloc_ok p L F Hok) as Hal. unfold sieveAdd.
  destruct (sieveAlloc p) as [p1 cur]. destruct Hal as (F' & Hok1 & Hno & Hc & <-).
  pose proof Hok1 as [Hseg Hfree Hh Ht Hff Hnd Hr Hha Hsz].
  set (ns := setNode (svnodes p1) cur (λ _, mkSieveNode n noLink (svhead p1))).
  set (ns' := if negb (svhead p1 =? noLink) then setNode ns (svhead p1) (withPrev cur) else ns).
  assert (length ns = length (svnodes p1)) as Hl by apply length_alter.
  assert (length ns' = length (svnodes p1)) as Hl' by (unfold ns'; by rewrite length_link).
  assert (∀ j, 0 ≤ j → nodeAt ns' j = if decide (svhead p1 = j) then withPrev cur (nodeAt ns j) else nodeAt ns j) as H2.
  { intros j Hj. apply nodeAt_link; [|done]. rewrite Hh, Hl. destruct (firstOr_cases L); [by left|right; apply Hr; set_solver]. }
  assert (∀ j, j ∈ L ++ F' → nodeAt ns j = nodeAt (svnodes p1) j) as H1.
  { intros j Hj. assert (j ≠ cur) by (intros ->; done). apply Hr in Hj. unfold ns. by rewrite nodeAt_set, decide_False by (done || lia). }
  assert (svhead p1 ≠ cur) as Hhc.
  { rewrite Hh. destruct (firstOr_cases L) as [E|Hin]; [rewrite E; unfold noLink; lia|]. intros E. rewrite E in Hin. set_solver. }
  assert (nodeAt ns' cur = mkSieveNode n noLink (svhead p1)) as Hcur.
  { rewrite H2, decide_False by (done || lia). unfold ns. by rewrite nodeAt_set, decide_True by (done || lia). }
  assert (∀ j, j ∈ L → head L = Some j ↔ svhead p1 = j) as Hhead.
  { intros j Hj. rewrite Hh. apply firstOr_elem. apply Hr. set_solver. }
  exists cur, F'.
  match goal with |- sieve_ok ?q _ _ ∧ _ => assert (svnodes q = ns' ∧ svhead q = cur ∧ svfree q = svfree p1 ∧
    svhand q = svhand p1 ∧ svsize q = S (svsize p1) ∧ svtail q = (if negb (svhead p1 =? noLink) then svtail p1 else cur))
    as (E1 & E2 & E3 & E4 & E5 & E6) by (unfold ns'; by destruct (negb (svhead p1 =? noLink))); set (p2 := q) in * end.
  split.
  - split; rewrite ?E1, ?E2, ?E3, ?E4, ?E5, ?E6; try done.
    + cbn [seg]. rewrite Hcur. cbn. split_and!; [done|by rewrite Hh|].
      apply (seg_relink_prev (svnodes p1) ns' L noLink cur); [by apply NoDup_app in Hnd as (? & _)|done| |].
      * intros i Hi. rewrite H2 by (apply Hr; set_solver). rewrite H1 by set_solver. by case_decide.
      * intros i Hi. rewrite H2 by (apply Hr; set_solver). rewrite H1 by set_solver.
        rewrite (decide_ext _ _ _ _ (Hhead i Hi)). by case_decide.
    + eapply freeSeg_ext; [exact Hfree|]. intros i Hi. rewrite H2 by (apply Hr; set_solver). rewrite H1 by set_solver.
      by case_decide.
    + rewrite lastOr_cons. destruct L as [|x L]; [by rewrite Hh|]. rewrite Hh, Ht. cbn [firstOr head default from_option id].
      assert (0 ≤ x) by (apply Hr; set_solver). destruct (Z.eqb_spec x noLink); [unfold noLink in *; lia|]. by rewrite !lastOr_cons.
    + cbn. apply NoDup_cons. done.
    + intros i [->|Hi]%elem_of_cons; rewrite Hl'; [lia|by apply Hr].
    + destruct Hha; [by left|right; set_solver].
    + cbn. by rewrite Hsz.
  - unfold sieveItems. rewrite E1. cbn [fmap list_fmap]. rewrite Hcur. cbn [sitem]. f_equal.
    apply list_fmap_ext. intros j x Hx%list_elem_of_lookup_2. rewrite H2 by (apply Hr; set_solver).
    rewrite H1 by set_solver. by case_decide.
Qed.

(** ** Eviction *)

Lemma setHand_ok p L F h : sieve_ok p L F → (h = noLink ∨ h ∈ L) → sieve_ok (setHand p h) L F.
Proof. intros [] Hh. by split. Qed.

Lemma prev_of p A cur B F : sieve_ok p (A ++ cur :: B) F → sprev (nodeAt (svnodes p) cur) = lastOr A noLink.
Proof. intros [Hseg _ _ _ _ _ _ _ _]. by apply seg_app in Hseg as [_ (? & _)]. Qed.

Lemma next_of p A cur B F : sieve_ok p (A ++ cur :: B) F → snext (nodeAt (svnodes p) cur) = firstOr B noLink.
Proof. intros [Hseg _ _ _ _ _ _ _ _]. by apply seg_app in Hseg as [_ (_ & ? & _)]. Qed.

Lemma prev_in A cur B : lastOr A noLink = noLink ∨ lastOr A noLink ∈ A ++ cur :: B.
Proof. destruct (lastOr_cases A); [by left|right; set_solver]. Qed.

Lemma prev_ne p A cur B F : sieve_ok p (A ++ cur :: B) F → lastOr A noLink ≠ cur.
Proof.
  intros [_ _ _ _ _ Hnd Hr _ _] E. destruct (lastOr_cases A) as [E'|Hin].
  - assert (0 ≤ cur) by (apply Hr; set_solver). unfold noLink in *. lia.
  - rewrite E in Hin. rewrite <- app_assoc in Hnd. apply NoDup_app in Hnd as (_ & Hd & _). apply (Hd cur Hin). set_solver.
Qed.

Lemma removeAt_ok p A cur B F :
  sieve_ok p (A ++ cur :: B) F →
  ∃ p' F', removeAt p cur = (p', Idx (sitem (nodeAt (svnodes p) cur))) ∧ sieve_ok p' (A ++ B) F' ∧
    sieveItems p' (A ++ B) = sieveItems p (A ++ B).
Proof.
  intros Hok. unfold removeAt. rewrite (prev_of p A cur B F Hok).
  pose proof (setHand_ok p _ F (lastOr A noLink) Hok (prev_in A cur B)) as Hok'.
  destruct (unlink_ok _ A cur B F Hok') as (Hok2 & Hit & _ & _); [by eapply prev_ne|].
  eexists _, _. split_and!; [done|exact Hok2|exact Hit].
Qed.

Lemma sieve_cur p L F :
  sieve_ok p L F → L ≠ [] → (if svhand p =? noLink then svtail p else svhand p) ∈ L.
Proof.
  intros Hok Hne. destruct (Z.eqb_spec (svhand p) noLink) as [E|E].
  - rewrite (so_tail _ _ _ Hok). unfold lastOr. destruct (last L) as [x|] eqn:El; [by apply last_Some_elem_of|].
    by apply last_None in El.
  - by destruct (so_hand _ _ _ Hok).
Qed.

Lemma sieveItems_middle p A cur B :
  sieveItems p (A ++ cur :: B) ≡ₚ sitem (nodeAt (svnodes p) cur) :: sieveItems p (A ++ B).
Proof. unfold sieveItems. by rewrite <- Permutation_middle. Qed.

(** The evicted node leaves its place; the others keep their order. *)
Lemma sieveEvictLoop_spec fuel : ∀ p t now L F,
  sieve_ok p L F → table_shape t → (chanceSum t (sieveItems p L) < fuel)%nat →
  ∃ p' t' r L' F', sieveEvictLoop fuel p t now = Some (p', t', r) ∧ sieve_ok p' L' F' ∧ fewer_table t t' ∧
    match r with
    | None => L = [] ∧ L' = []
    | Some i => (∃ l1 c l2, sieveItems p L = l1 ++ mkQNode i c :: l2 ∧ sieveItems p' L' = l1 ++ l2) ∧
      (isDead t i = true ∨ Expired (meta (At t i)) now = true ∨ Z.land (meta (At t' i)) ChanceMask = 0)
    end.
Proof.
  induction fuel as [|fuel IH]; intros p t now L F Hok Ht Hf; [lia|]. cbn [sieveEvictLoop].
  rewrite (so_size _ _ _ Hok). destruct L as [|x L0]; [by exists p, t, None, [], F|].
  change (0 <? length (x :: L0))%nat with true. cbv iota.
  set (cur := if svhand p =? noLink then svtail p else svhand p).
  assert (cur ∈ x :: L0) as Hcur by (by eapply sieve_cur). clearbody cur. set (L := x :: L0) in *. clearbody L.
  apply list_elem_of_split in Hcur as (A & B & ->).
  set (n := sitem (nodeAt (svnodes p) cur)).
  destruct (removeAt_ok p A cur B F Hok) as (p1 & F1 & -> & Hok1 & Hit1). fold n.
  assert (∃ l1 c l2, sieveItems p (A ++ cur :: B) = l1 ++ mkQNode (Idx n) c :: l2 ∧
    sieveItems p1 (A ++ B) = l1 ++ l2) as Hord.
  { exists (sieveItems p A), (Cost n), (sieveItems p B). rewrite Hit1. unfold sieveItems. rewrite !fmap_app, fmap_cons.
    fold n. by destruct n. }
  unfold Metadata.
  destruct (negb (Z.land (meta (At t (Idx n))) Dead =? 0) || Expired (meta (At t (Idx n))) now) eqn:E1.
  { exists p1, t, (Some (Idx n)), (A ++ B), F1. split_and!; try done.
    apply orb_true_iff in E1 as [E1|E1]; unfold isDead; auto. }
  destruct (negb (Z.land (meta (At t (Idx n))) ChanceMask =? 0)) eqn:E2.
  2:{ exists p1, t, (Some (Idx n)), (A ++ B), F1. split_and!; try done. apply negb_false_iff, Z.eqb_eq in E2. auto. }
  rewrite (prev_of p A cur B F Hok).
  pose proof (setHand_ok p _ F (lastOr A noLink) Hok (prev_in A cur B)) as Hok2.
  set (t1 := alterAt t (Idx n) ResetChances).
  assert (fewer_table t t1) as Hf1 by (by apply fewer_alterAt, ResetChances_fewer).
  destruct (IH (setHand p (lastOr A noLink)) t1 now _ F Hok2) as (p' & t' & r & L' & F' & E & Hok' & Hf' & Hr).
  - by apply Hf1.
  - apply negb_true_iff in E2. change (sieveItems (setHand p (lastOr A noLink))) with (sieveItems p).
    pose proof (chanceSum_reset t n (sieveItems p (A ++ cur :: B)) Ht) as Hlt. fold t1 in Hlt.
    specialize (Hlt ltac:(rewrite sieveItems_middle; set_solver) E2). lia.
  - exists p', t', r, L', F'. split_and!; [done|done|by etrans|]. destruct r as [i|]; [|done].
    destruct Hr as [Hc Hv]. split; [done|].
    rewrite (fewer_isDead t t1), (fewer_Expired (At t i)) in Hv; [done|by apply Hf1|done].
Qed.

(** ** Sweeping *)

(** Taking [cur] out, with the hand moved off it first. *)
Lemma drop_ok p A cur B F :
  sieve_ok p (A ++ cur :: B) F →
  let p1 := unlink (if svhand p =? cur then setHand p (lastOr A noLink) else p) cur in
  ∃ F', sieve_ok p1 (A ++ B) F' ∧ sieveItems p1 A = sieveItems p A ∧ sieveItems p1 B = sieveItems p B.
Proof.
  intros Hok p1. set (p0 := if svhand p =? cur then setHand p (lastOr A noLink) else p).
  assert (sieve_ok p0 (A ++ cur :: B) F ∧ svhand p0 ≠ cur ∧ svnodes p0 = svnodes p) as (Hok0 & Hh & Hns).
  { unfold p0. destruct (Z.eqb_spec (svhand p) cur); [|done].
    split_and!; [apply setHand_ok; [done|apply prev_in]|by eapply prev_ne|done]. }
  destruct (unlink_ok p0 A cur B F Hok0 Hh) as (Hok1 & _ & _ & Hit). exists (cur :: F).
  split_and!; [done|..]; apply list_fmap_ext; intros j x Hx%list_elem_of_lookup_2; unfold p1; fold p0;
    rewrite Hit, Hns by set_solver; done.
Qed.

Lemma noLink_first x B F p A : sieve_ok p (A ++ x :: B) F → (x =? noLink) = false.
Proof.
  intros [_ _ _ _ _ _ Hr _ _]. apply Z.eqb_neq. intros ->. pose proof (Hr noLink ltac:(set_solver)) as [H _].
  unfold noLink in H. lia.
Qed.

Lemma sieveSweepLoop_spec release B : ∀ fuel p t A F,
  release_ok release → sieve_ok p (A ++ B) F → table_shape t → (length B ≤ fuel)%nat →
  ∃ p' B' F', sieveSweepLoop fuel release (firstOr B noLink) p t =
      (p', foldl release t (Idx <$> filter (λ n, isDead t (Idx n) = true) (sieveItems p B))) ∧
    sieve_ok p' (A ++ B') F' ∧
    sieveItems p' (A ++ B') = sieveItems p A ++ filter (λ n, isDead t (Idx n) = false) (sieveItems p B).
Proof.
  induction B as [|b B IH]; intros fuel p t A F Hrel Hok Ht Hfuel.
  { exists p, [], F. unfold sieveItems. rewrite !app_nil_r. cbn. split_and!; [by destruct fuel|by rewrite app_nil_r in Hok|done]. }
  destruct fuel as [|fuel]; [cbn in Hfuel; lia|]. cbn [sieveSweepLoop firstOr head default from_option id].
  rewrite (noLink_first b B F p A Hok), (next_of p A b B F Hok), (prev_of p A b B F Hok). cbn [negb].
  set (n := sitem (nodeAt (svnodes p) b)). change (sieveItems p (b :: B)) with (n :: sieveItems p B).
  unfold Metadata. fold (isDead t (Idx n)). rewrite !filter_cons. destruct (isDead t (Idx n)) eqn:Ed.
  - rewrite decide_True, decide_False by done. destruct (drop_ok p A b B F Hok) as (F' & Hok1 & HiA & HiB).
    set (p1 := unlink _ b) in *. destruct (Hrel t (Idx n) Ht) as [Ht1 Hd1].
    destruct (IH fuel p1 (release t (Idx n)) A F' Hrel Hok1 Ht1 ltac:(cbn in Hfuel; lia)) as (p' & B' & F'' & -> & Hok' & Hit).
    exists p', B', F''. rewrite HiB in *. cbn [fmap list_fmap foldl].
    assert (∀ b0, filter (λ m, isDead (release t (Idx n)) (Idx m) = b0) (sieveItems p B) =
      filter (λ m, isDead t (Idx m) = b0) (sieveItems p B)) as Hfl.
    { intros b0. apply list_filter_iff. intros m. by rewrite Hd1. }
    rewrite Hfl in Hit |- *. split_and!; [done|done|]. by rewrite Hit, HiA.
  - rewrite decide_False, decide_True by done. rewrite cons_middle, app_assoc in Hok.
    destruct (IH fuel p t (A ++ [b]) F Hrel Hok Ht ltac:(cbn in Hfuel; lia)) as (p' & B' & F'' & -> & Hok' & Hit).
    exists p', (b :: B'), F''. rewrite cons_middle, app_assoc. split_and!; [done|done|]. rewrite Hit.
    unfold sieveItems. rewrite fmap_app, <- app_assoc. done.
Qed.

(** ** Rebuilding *)

Lemma seg_links ns ns' L (x y : Z) :
  (∀ i, i ∈ L → sprev (nodeAt ns' i) = sprev (nodeAt ns i) ∧ snext (nodeAt ns' i) = snext (nodeAt ns i)) →
  seg ns x L y → seg ns' x L y.
Proof.
  revert x. induction L as [|i L IH]; intros x He; [done|]. cbn [seg]. intros (E1 & E2 & Hseg).
  destruct (He i ltac:(set_solver)) as [-> ->]. split_and!; [done|done|]. apply IH; [set_solver|done].
Qed.

(** A node keeps its place and gets a new slot index. *)
Definition relabel p (cur newIdx : Z) : SievePolicy :=
  mkSieve (setNode (svnodes p) cur (λ n, mkSieveNode (mkQNode newIdx (Cost (sitem n))) (sprev n) (snext n)))
    (svfree p) (svhead p) (svtail p) (svhand p) (svsize p) (svcap p) (svgrow p).

Lemma relabel_ok p R x D F newIdx :
  sieve_ok p (R ++ x :: D) F →
  let p1 := relabel p x newIdx in
  sieve_ok p1 (R ++ x :: D) F ∧ sieveItems p1 R = sieveItems p R ∧
  sieveItems p1 (x :: D) = mkQNode newIdx (Cost (sitem (nodeAt (svnodes p) x))) :: sieveItems p D.
Proof.
  intros Hok p1. pose proof Hok as [Hseg Hfree Hh Ht Hff Hnd Hr Hha Hsz].
  assert (0 ≤ x < Z.of_nat (length (svnodes p))) as Hx by (apply Hr; set_solver).
  assert (∀ j, 0 ≤ j → nodeAt (svnodes p1) j = if decide (x = j) then
    mkSieveNode (mkQNode newIdx (Cost (sitem (nodeAt (svnodes p) j)))) (sprev (nodeAt (svnodes p) j)) (snext (nodeAt (svnodes p) j))
    else nodeAt (svnodes p) j) as Hat by (intros j Hj; by apply nodeAt_set).
  assert (¬ x ∈ R ∧ ¬ x ∈ D) as [HxR HxD].
  { apply NoDup_app in Hnd as (Hnd & _). rewrite <- Permutation_middle in Hnd. apply NoDup_cons in Hnd as [? _]. set_solver. }
  assert (∀ j, j ∈ R ++ x :: D ++ F → sprev (nodeAt (svnodes p1) j) = sprev (nodeAt (svnodes p) j) ∧
    snext (nodeAt (svnodes p1) j) = snext (nodeAt (svnodes p) j)) as Hlinks.
  { intros j Hj. rewrite Hat by (apply Hr; set_solver). by case_decide. }
  split_and!.
  - split; try done.
    + eapply seg_links; [|exact Hseg]. intros i Hi. apply Hlinks. set_solver.
    + eapply freeSeg_ext; [exact Hfree|]. intros i Hi. apply Hlinks. set_solver.
    + intros i Hi. unfold p1, relabel. cbn [svnodes]. unfold setNode. rewrite length_alter. by apply Hr.
  - apply list_fmap_ext. intros j y Hy%list_elem_of_lookup_2. rewrite Hat by (apply Hr; set_solver).
    rewrite decide_False; [done|]. by intros ->.
  - unfold sieveItems. cbn [fmap list_fmap]. rewrite Hat, decide_True by lia || done. cbn [sitem]. f_equal.
    apply list_fmap_ext. intros j y Hy%list_elem_of_lookup_2. rewrite Hat by (apply Hr; set_solver).
    rewrite decide_False; [done|]. by intros ->.
Qed.

Lemma sieveRebuildLoop_spec {A} (remap : A → Z → A * option Z) : ∀ R fuel p (a : A) D F,
  sieve_ok p (R ++ D) F → (length R ≤ fuel)%nat →
  let r := rebuildList remap (λ a _, a) (reverse (sieveItems p R)) a in
  ∃ p' R' F', sieveRebuildLoop fuel remap (lastOr R noLink) p a = (p', r.2) ∧
    sieve_ok p' (R' ++ D) F' ∧ sieveItems p' (R' ++ D) = reverse r.1 ++ sieveItems p D.
Proof.
  induction R as [|x R IH] using rev_ind; intros fuel p a D F Hok Hfuel r.
  { exists p, [], F. split_and!; [by destruct fuel|done|]. cbn. done. }
  rewrite length_app in Hfuel. cbn in Hfuel. destruct fuel as [|fuel]; [lia|].
  rewrite <- app_assoc in Hok. cbn [app] in Hok. subst r.
  set (n := sitem (nodeAt (svnodes p) x)).
  assert (reverse (sieveItems p (R ++ [x])) = n :: reverse (sieveItems p R)) as ->.
  { unfold sieveItems. rewrite fmap_app, reverse_app. done. }
  cbn [sieveRebuildLoop rebuildList]. rewrite lastOr_snoc, (noLink_first x D F p R Hok), (prev_of p R x D F Hok). cbn [negb].
  fold n. destruct (remap a (Idx n)) as [a' [newIdx|]].
  - fold (relabel p x newIdx). set (p1 := relabel p x newIdx).
    destruct (relabel_ok p R x D F newIdx Hok) as (Hok1 & HiR & HiD). fold p1 in Hok1, HiR, HiD.
    destruct (IH fuel p1 a' (x :: D) F Hok1 ltac:(lia)) as (p' & R' & F'' & -> & Hok' & Hit). rewrite HiR, HiD in *.
    exists p', (R' ++ [x]), F''. rewrite <- app_assoc. cbn [app].
    destruct (rebuildList remap (λ a _, a) (reverse (sieveItems p R)) a') as [k b]. cbn [fst snd] in *.
    split_and!; [done|done|]. rewrite Hit, reverse_cons, <- app_assoc. done.
  - destruct (drop_ok p R x D F Hok) as (F' & Hok1 & HiR & HiD). set (p1 := unlink _ x) in *.
    destruct (IH fuel p1 a' D F' Hok1 ltac:(lia)) as (p' & R' & F'' & -> & Hok' & Hit). rewrite HiR, HiD in *.
    by exists p', R', F''.
Qed.

(** ** The instance *)

Lemma sieveAdd_laws p t n : sieveInv p → sieveInv (sieveAdd p t n) ∧ sieveNodes (sieveAdd p t n) ≡ₚ n :: sieveNodes p.
Proof.
  intros [F Hok]. destruct (sieveAdd_ok p t n _ F Hok) as (cur & F' & Hok' & Hit).
  destruct (sieveInv_intro _ _ _ Hok') as [Hinv ->]. split; [done|]. by rewrite Hit.
Qed.

Lemma NewSieve_inv grow : sieveInv (NewSieve grow) ∧ sieveNodes (NewSieve grow) = [].
Proof.
  split; [|done]. exists []. split; try done; [by constructor|set_solver|by left].
Qed.

Lemma sieveLen_laws p : sieveInv p → sieveLen p = length (sieveNodes p).
Proof. intros [F Hok]. unfold sieveLen, sieveNodes, sieveItems. rewrite length_fmap. by apply Hok. Qed.

Lemma sieveEvict_order p t now :
  sieveInv p → table_shape t →
  ∃ p' t' r, sieveEvict p t now = Some (p', t', r) ∧ sieveInv p' ∧ fewer_table t t' ∧
    match r with
    | None => sieveNodes p = [] ∧ sieveNodes p' = []
    | Some i => (∃ l1 c l2, sieveNodes p = l1 ++ mkQNode i c :: l2 ∧ sieveNodes p' = l1 ++ l2) ∧
      (isDead t i = true ∨ Expired (meta (At t i)) now = true ∨ Z.land (meta (At t' i)) ChanceMask = 0)
    end.
Proof.
  intros [F Hok] Ht. unfold sieveEvict.
  destruct (sieveEvictLoop_spec (2 * svsize p + 1) p t now _ F Hok Ht) as (p' & t' & r & L' & F' & -> & Hok' & Hf & Hr).
  { pose proof (chanceSum_le t (sieveItems p (sieveOrder p))) as H. unfold sieveItems in *.
    rewrite length_fmap, <- (so_size _ _ _ Hok) in H. lia. }
  destruct (sieveInv_intro _ _ _ Hok') as [Hinv Hn]. exists p', t', r. split_and!; [done|done|done|].
  destruct r as [i|]; [by rewrite <- Hn in Hr|]. destruct Hr as [El ->]. split; [|by rewrite Hn].
  unfold sieveNodes. by rewrite El.
Qed.

Lemma sieveEvict_laws p t now :
  sieveInv p → table_shape t →
  ∃ p' t' r, sieveEvict p t now = Some (p', t', r) ∧ sieveInv p' ∧ fewer_table t t' ∧
    match r with
    | None => sieveNodes p = [] ∧ sieveNodes p' = []
    | Some i => (∃ c, sieveNodes p ≡ₚ mkQNode i c :: sieveNodes p') ∧
      (isDead t i = true ∨ Expired (meta (At t i)) now = true ∨ Z.land (meta (At t' i)) ChanceMask = 0)
    end.
Proof.
  intros Hp Ht. destruct (sieveEvict_order p t now Hp Ht) as (p' & t' & r & E & Hp' & Hf & Hr).
  exists p', t', r. split_and!; [done..|]. destruct r as [i|]; [|done].
  destruct Hr as [(l1 & c & l2 & -> & ->) Hv]. split; [|done]. exists c. by rewrite <- Permutation_middle.
Qed.

Lemma sieveSweep_laws p t release :
  sieveInv p → table_shape t → release_ok release →
  ∃ l p', sieveSweep p t release = (p', foldl release t (Idx <$> l)) ∧ sieveInv p' ∧
    l ≡ₚ filter (λ n, isDead t (Idx n) = true) (sieveNodes p) ∧
    sieveNodes p' ≡ₚ filter (λ n, isDead t (Idx n) = false) (sieveNodes p).
Proof.
  intros [F Hok] Ht Hrel. unfold sieveSweep. rewrite (so_head _ _ _ Hok).
  destruct (sieveSweepLoop_spec release (sieveOrder p) (svsize p) p t [] F Hrel Hok Ht) as (p' & B' & F' & -> & Hok' & Hit).
  { by rewrite <- (so_size _ _ _ Hok). }
  destruct (sieveInv_intro _ _ _ Hok') as [Hinv Hn]. eexists _, p'. split_and!; [done|done|done|]. by rewrite Hn, Hit.
Qed.

Lemma sieveRebuild_laws A p (remap : A → Z → A * option Z) (a : A) :
  sieveInv p →
  ∃ l p', l ≡ₚ sieveNodes p ∧
    sieveRebuild p remap a = (p', (rebuildList remap (λ a _, a) l a).2) ∧ sieveInv p' ∧
    sieveNodes p' ≡ₚ (rebuildList remap (λ a _, a) l a).1.
Proof.
  intros [F Hok]. unfold sieveRebuild. rewrite (so_tail _ _ _ Hok). pose proof Hok as Hok0.
  rewrite <- (app_nil_r (sieveOrder p)) in Hok0.
  destruct (sieveRebuildLoop_spec remap (sieveOrder p) (svsize p) p a [] F Hok0) as (p' & R' & F' & -> & Hok' & Hit).
  { by rewrite <- (so_size _ _ _ Hok). }
  destruct (sieveInv_intro _ _ _ Hok') as [Hinv Hn]. exists (reverse (sieveNodes p)), p'.
  split_and!; [apply reverse_Permutation|done|done|]. rewrite Hn, Hit. cbn. rewrite app_nil_r. apply reverse_Permutation.
Qed.

#[global] Instance Sieve_laws : PolicyLaws K V SievePolicy :=
  Build_PolicyLaws K V SievePolicy _ _ Sieve_ops sieveInv sieveNodes sieveAdd_laws sieveLen_laws
    sieveEvict_laws sieveSweep_laws sieveRebuild_laws.

End Laws.
