(* ===== verification/Shard.v ===== *)
(** * One shard of the first level (cache.go)

    The item table, the eviction policy and the counters behind one shard mutex, and every
    operation that runs on them: lookups, inserts, overwrites, deletes, eviction, tombstone sweeps
    and table rebuilds.  An operation is a function from the shard before it to the shard after it
    and the removals it recorded for the deletion handler; the outer [option] is [None] only if a
    loop does not end within its fuel, which ShardInv.v proves impossible. *)

From S2P Require Import Prelude Item Queue Table TableInv Policy.

(** Why an item left the first level (eviction.go). *)
Inductive DeletionCause :=
  CauseInvalidation | CauseReplacement | CauseExpiration | CauseEviction | CauseOverflow.

#[global] Instance DeletionCause_eq_dec : EqDecision DeletionCause.
Proof. solve_decision. Defined.

Definition Automatic (c : DeletionCause) : bool :=
  match c with
  | CauseExpiration | CauseEviction | CauseOverflow => true
  | CauseInvalidation | CauseReplacement => false
  end.

Record deletion (K V : Type) := mkDeletion { dkey : K; dvalue : V; dcause : DeletionCause }.
Arguments mkDeletion {K V}.
Arguments dkey {K V}.
Arguments dvalue {K V}.
Arguments dcause {K V}.

(** The fields of [Cache] a shard operation reads.  [onDeletion] says whether a handler is set. *)
Record Env (K V : Type) := mkEnv {
  costFunc : option (K → V → Z);
  onDeletion : bool;
  nowOff : Z;
  ttlOff : Z;
  refreshOnGet : bool
}.
Arguments mkEnv {K V}.
Arguments costFunc {K V}.
Arguments onDeletion {K V}.
Arguments nowOff {K V}.
Arguments ttlOff {K V}.
Arguments refreshOnGet {K V}.

Record shard (K V P : Type) := mkShard {
  items : FlatHashMap K V;
  policy : P;
  weight : Z;
  cap : Z;
  live : Z;
  dirty : Z;
  deadCount : Z
}.
Arguments mkShard {K V P}.
Arguments items {K V P}.
Arguments policy {K V P}.
Arguments weight {K V P}.
Arguments cap {K V P}.
Arguments live {K V P}.
Arguments dirty {K V P}.
Arguments deadCount {K V P}.

Definition sweepMinDead : Z := 128.

(** Expiration offsets live on an 18-bit wrapping scale; 0 is "no TTL". *)
Definition expireOffsetAt {K V} (c : Env K V) (nowOff : Z) : Z :=
  let expireOff := Z.land (u32 (u32 (nowOff + ttlOff c) + 1)) ExpireWrapMask in
  if expireOff =? 0 then 1 else expireOff.

Definition expireOffset {K V} (c : Env K V) : Z :=
  if ttlOff c =? 0 then 0 else expireOffsetAt c (nowOff c).

Section Shard.
Context {K V P : Type} `{!EqDecision K} `{!GoType K} `{!GoType V} `{!EvictionPolicy K V P}.
(** [maphash.Comparable] under the cache's seed. *)
Context (hash : K → Z).
Implicit Types (c : Env K V) (sh : shard K V P) (key : K) (value : V).

Definition rawCost c key value : Z :=
  match costFunc c with
  | None => 1
  | Some f => let weight := f key value in if 0 <? weight then weight else 1
  end.

(** [if c.onDeletion != nil { c.addDeletion(...) }] *)
Definition addDeletion c (ds : list (deletion K V)) key value cause : list (deletion K V) :=
  if onDeletion c then ds ++ [mkDeletion key value cause] else ds.

Definition withItems sh (t : FlatHashMap K V) : shard K V P :=
  mkShard t (policy sh) (weight sh) (cap sh) (live sh) (dirty sh) (deadCount sh).

(** [findSlot]: the index of the key's live slot. *)
Definition findSlot sh (keyHash : Z) key : option (option Z) :=
  let storage := items sh in
  let tagged := TagOf keyHash in
  let home := Home storage keyHash in
  let groupEnd := u32 (Z.lor home 7 + 1) in
  probe (Z.to_nat (tLen storage))
    (λ (_ : unit) pos,
       if (pos =? groupEnd) && negb (Overflowed storage home) then inr None
       else
         let item := At storage pos in
         let metaWord := Metadata item in
         if metaWord =? 0 then inr None
         else if negb (Z.land metaWord DeadOrTag =? tagged) then inl tt
         else if decide (Key (entry item) = key) then inr (Some (Wrap storage pos))
         else inl tt) tt home.

(** [noteDead]: accounts a queued tombstone and sweeps when they outnumber the live nodes. *)
Definition noteDead sh : shard K V P :=
  let dead := deadCount sh + 1 in
  if (sweepMinDead <=? dead) && (Z.of_nat (pLen (policy sh)) <=? dead * 2) then
    let '(p, t) := pSweep (policy sh) (items sh) (λ t idx, alterAt t idx MakeFree) in
    mkShard t p (weight sh) (cap sh) (live sh) (dirty sh) 0
  else mkShard (items sh) (policy sh) (weight sh) (cap sh) (live sh) (dirty sh) dead.

(** [killAt]: the slot becomes a tombstone that keeps its queue node. *)
Definition killAt c sh (keyHash idx : Z) cause (ds : list (deletion K V))
    : shard K V P * list (deletion K V) :=
  let storage := items sh in
  let e := entry (At storage idx) in
  let w := weight sh - rawCost c (Key e) (Value e) in
  let ds := addDeletion c ds (Key e) (Value e) cause in
  let storage := alterAt storage idx (λ item, (Kill item).1) in
  let storage := ForgetDisplaced storage (Home storage keyHash) idx in
  (noteDead (mkShard storage (policy sh) w (cap sh) (live sh - 1) (dirty sh + 1) (deadCount sh)), ds).

Definition deleteLocked c sh (keyHash : Z) key cause (ds : list (deletion K V))
    : option (shard K V P * list (deletion K V)) :=
  match findSlot sh keyHash key with
  | None => None
  | Some (Some idx) => Some (killAt c sh keyHash idx cause ds)
  | Some None => Some (sh, ds)
  end.

(** One turn of [evictShard]'s loop on the victim the policy handed over. *)
Definition evictVictim c sh (victimIdx : Z) (ds : list (deletion K V))
    : shard K V P * list (deletion K V) :=
  let storage := items sh in
  let '(item, killed) := Kill (At storage victimIdx) in
  let storage := alterAt storage victimIdx (λ item, (Kill item).1) in
  let '(sh, ds) :=
    if killed then
      let e := entry item in
      let w := weight sh - rawCost c (Key e) (Value e) in
      let storage := ForgetDisplaced storage (Home storage (hash (Key e))) victimIdx in
      let cause := if Expired (Metadata item) (nowOff c) then CauseExpiration else CauseEviction in
      (mkShard storage (policy sh) w (cap sh) (live sh - 1) (dirty sh + 1) (deadCount sh),
       addDeletion c ds (Key e) (Value e) cause)
    else (withItems sh storage, ds) in
  (withItems sh (alterAt (items sh) victimIdx MakeFree), ds).

Fixpoint evictLoop (fuel : nat) c sh (ds : list (deletion K V))
    : option (shard K V P * list (deletion K V)) :=
  match fuel with
  | O => None
  | S fuel =>
    if cap sh <? weight sh then
      match pEvict (policy sh) (items sh) (nowOff c) with
      | None => None
      | Some (p, t, r) =>
        let sh := mkShard t p (weight sh) (cap sh) (live sh) (dirty sh) (deadCount sh) in
        match r with
        | None => Some (sh, ds)
        | Some victimIdx => let '(sh, ds) := evictVictim c sh victimIdx ds in evictLoop fuel c sh ds
        end
      end
    else Some (sh, ds)
  end.

(** Every turn takes one node out of the policy. *)
Definition evictShard c sh (ds : list (deletion K V)) : option (shard K V P * list (deletion K V)) :=
  evictLoop (S (pLen (policy sh))) c sh ds.

(** The [remap] closure of [maybeRebuild] over its captured [fresh] and [live]; [None] is an
    [InsertFresh] that found no empty slot. *)
Definition remapLive (t : FlatHashMap K V) (st : option (FlatHashMap K V * Z)) (oldIdx : Z)
    : option (FlatHashMap K V * Z) * option Z :=
  match st with
  | None => (None, None)
  | Some (fresh, live) =>
    let item := At t oldIdx in
    if negb (Z.land (Metadata item) Dead =? 0) then (Some (fresh, live), None)
    else match InsertFresh fresh (hash (Key (entry item))) item with
    | None => (None, None)
    | Some (fresh, newIdx) => (Some (fresh, live + 1), Some newIdx)
    end
  end.

Definition maybeRebuild sh : option (shard K V P) :=
  let t := items sh in
  if (live sh + dirty sh) * 4 <? tLen t * 3 then Some sh
  else
    let newSize := if tLen t <=? live sh * 2 then tLen t * 2 else tLen t in
    let fresh := NewFlatHashMap newSize in
    match pRebuild (policy sh) (remapLive t) (Some (fresh, 0)) with
    | (_, None) => None
    | (p, Some (fresh, l)) => Some (mkShard fresh p (weight sh) (cap sh) l 0 0)
    end.

(** The three ways out of the probe loop of [setMemory]: the shard, the weight delta and the
    removals so far. *)
Definition claimSlot c sh (keyHash : Z) key value (expireOff pos : Z) (reuse : option Z)
    : option (shard K V P * Z * list (deletion K V)) :=
  let storage := items sh in
  let w := rawCost c key value in
  let '(pos, dirty') :=
    match reuse with Some r => (r, dirty sh - 1) | None => (pos, dirty sh) end in
  let storage := alterAt storage pos (λ item, Publish item (mkEntry key value) (TagOf keyHash) expireOff) in
  let storage := NoteDisplaced storage (Home storage keyHash) pos in
  let p := pAdd (policy sh) storage (mkQNode (Wrap storage pos) (u32 w)) in
  match maybeRebuild (mkShard storage p (weight sh) (cap sh) (live sh + 1) dirty' (deadCount sh)) with
  | None => None
  | Some sh => Some (sh, w, [])
  end.

Definition resurrectSlot c sh (keyHash : Z) key value (expireOff pos : Z)
    : shard K V P * Z * list (deletion K V) :=
  let storage := items sh in
  let storage := alterAt storage pos (λ item, Publish item (mkEntry key value) (TagOf keyHash) expireOff) in
  let storage := NoteDisplaced storage (Home storage keyHash) pos in
  (mkShard storage (policy sh) (weight sh) (cap sh) (live sh + 1) (dirty sh - 1)
     (if 0 <? deadCount sh then deadCount sh - 1 else deadCount sh), rawCost c key value, []).

Definition overwriteSlot c sh key value (expireOff pos : Z)
    : shard K V P * Z * list (deletion K V) :=
  let storage := items sh in
  let old := Value (entry (At storage pos)) in
  let delta := rawCost c key value - rawCost c key old in
  let ds := addDeletion c [] key old CauseReplacement in
  let storage := alterAt storage pos (λ item, SetValue item value) in
  let storage :=
    if negb (expireOff =? 0) then alterAt storage pos (λ item, RefreshExpire item expireOff)
    else storage in
  (withItems sh storage, delta, ds).

(** [setMemory] on the key's shard. *)
Definition setMemory c sh key value (expireOff : Z) : option (shard K V P * list (deletion K V)) :=
  let w := rawCost c key value in
  let keyHash := hash key in
  if cap sh <? w then deleteLocked c sh keyHash key CauseOverflow []
  else
    let storage := items sh in
    let tagged := TagOf keyHash in
    let home := Home storage keyHash in
    let stored :=
      probe (Z.to_nat (tLen storage))
        (λ (reuse : option Z) pos,
           let item := At storage pos in
           let metaWord := Metadata item in
           if metaWord =? 0 then inr (claimSlot c sh keyHash key value expireOff pos reuse)
           else if negb (Z.land metaWord Dead =? 0) then
             if negb (Reusable metaWord) && (Z.land metaWord TagMask =? Z.land tagged TagMask) &&
                bool_decide (Key (entry item) = key)
             then inr (Some (resurrectSlot c sh keyHash key value expireOff pos))
             else match reuse with
             | None => if Reusable metaWord then inl (Some pos) else inl None
             | Some _ => inl reuse
             end
           else if negb (Z.land metaWord TagMask =? Z.land tagged TagMask) then inl reuse
           else if negb (bool_decide (Key (entry item) = key)) then inl reuse
           else inr (Some (overwriteSlot c sh key value expireOff pos))) None home in
    match stored with
    | Some (Some (sh, delta, ds)) =>
      let sh := mkShard (items sh) (policy sh) (weight sh + delta) (cap sh) (live sh) (dirty sh) (deadCount sh) in
      if cap sh <? weight sh then evictShard c sh ds else Some (sh, ds)
    | _ => None
    end.

(** [dropExpired]: the index match and the second TTL test reject what a race would have changed. *)
Definition dropExpired c sh (h : Z) key (idx : Z) : option (shard K V P * list (deletion K V)) :=
  match findSlot sh h key with
  | None => None
  | Some (Some foundIdx) =>
    if (foundIdx =? idx) && Expired (Metadata (At (items sh) foundIdx)) (nowOff c)
    then Some (killAt c sh h foundIdx CauseExpiration [])
    else Some (sh, [])
  | Some None => Some (sh, [])
  end.

(** [getMemory] from the key match on: [e] is the snapshot, [metaWord] the word it was taken at. *)
Definition getHit c sh (keyHash : Z) key (pos metaWord : Z) (e : Entry K V)
    : option (shard K V P * list (deletion K V) * option V) :=
  let storage := items sh in
  let item := At storage pos in
  if negb (Expired metaWord (nowOff c)) then
    let touched := withItems sh (alterAt storage pos (λ item, TouchWith item metaWord)) in
    if refreshOnGet c then
      let expireOff := u32 (Z.shiftr (Z.land metaWord ExpireMask) ExpireShift) in
      let newOff := expireOffsetAt c (nowOff c) in
      if negb (newOff =? expireOff) && (TouchAndRefreshExpire item metaWord newOff).2
      then Some (withItems sh
                   (alterAt storage pos (λ item, (TouchAndRefreshExpire item metaWord newOff).1)),
                 [], Some (Value e))
      else Some (touched, [], Some (Value e))
    else Some (touched, [], Some (Value e))
  else
    match dropExpired c sh keyHash key (Wrap storage pos) with
    | None => None
    | Some (sh, ds) => Some (sh, ds, None)
    end.

(** [getMemory].  A failed snapshot sends the source back to the same slot; with no writer between,
    that would go on for ever, so it is [None] here. *)
Definition getMemory c sh key : option (shard K V P * list (deletion K V) * option V) :=
  let keyHash := hash key in
  let storage := items sh in
  let tagged := TagOf keyHash in
  let home := Home storage keyHash in
  let groupEnd := u32 (Z.lor home 7 + 1) in
  match
    probe (Z.to_nat (tLen storage))
      (λ (_ : unit) pos,
         if (pos =? groupEnd) && negb (Overflowed storage home) then inr (Some (sh, [], None))
         else
           let item := At storage pos in
           let metaWord := Metadata item in
           if metaWord =? 0 then inr (Some (sh, [], None))
           else if negb (Z.land metaWord DeadOrTag =? tagged) then inl tt
           else match SnapshotInto item metaWord with
           | (_, false) => inr None
           | (e, true) =>
             if decide (Key e = key) then inr (getHit c sh keyHash key pos metaWord e) else inl tt
           end) tt home
  with
  | Some r => r
  | None => None
  end.

(** [livePresent] and [peekMemory]: the same walk, without the TTL rules. *)
Definition livePresent sh (keyHash : Z) key : option bool :=
  let storage := items sh in
  let tagged := TagOf keyHash in
  let home := Home storage keyHash in
  let groupEnd := u32 (Z.lor home 7 + 1) in
  match
    probe (Z.to_nat (tLen storage))
      (λ (_ : unit) pos,
         if (pos =? groupEnd) && negb (Overflowed storage home) then inr (Some false)
         else
           let item := At storage pos in
           let metaWord := Metadata item in
           if metaWord =? 0 then inr (Some false)
           else if negb (Z.land metaWord DeadOrTag =? tagged) then inl tt
           else match SnapshotInto item metaWord with
           | (_, false) => inr None
           | (e, true) => if decide (Key e = key) then inr (Some true) else inl tt
           end) tt home
  with
  | Some r => r
  | None => None
  end.

Definition peekMemory sh key : option (option V) :=
  let keyHash := hash key in
  let storage := items sh in
  let tagged := TagOf keyHash in
  let home := Home storage keyHash in
  let groupEnd := u32 (Z.lor home 7 + 1) in
  match
    probe (Z.to_nat (tLen storage))
      (λ (_ : unit) pos,
         if (pos =? groupEnd) && negb (Overflowed storage home) then inr (Some None)
         else
           let item := At storage pos in
           let metaWord := Metadata item in
           if metaWord =? 0 then inr (Some None)
           else if negb (Z.land metaWord DeadOrTag =? tagged) then inl tt
           else match SnapshotInto item metaWord with
           | (_, false) => inr None
           | (e, true) => if decide (Key e = key) then inr (Some (Some (Value e))) else inl tt
           end) tt home
  with
  | Some r => r
  | None => None
  end.

(** The first-level half of [Delete] for one key. *)
Definition deleteMemory c sh key (ds : list (deletion K V))
    : option (shard K V P * list (deletion K V)) :=
  match livePresent sh (hash key) key with
  | None => None
  | Some true => deleteLocked c sh (hash key) key CauseInvalidation ds
  | Some false => Some (sh, ds)
  end.

End Shard.
