(* ===== verification/Lookup.v ===== *)
(** * Probing finds exactly the live keys

    The abstract reading of a table is the map [content] from keys to the values of live slots.
    [lookup_probe] is the one correctness argument of the read-side walks ([findSlot], [getMemory],
    [livePresent], [peekMemory]): the tag prefilter loses nothing, a never-occupied slot ends the
    chain, and stopping at the home group's edge when its overflow count is zero is sound, because
    at a load under 3/4 no key can have wrapped around the whole table back into its home group. *)

From S2P Require Import Prelude Item Queue Table TableInv Policy Shard.

Section Lookup.
Context {K V P : Type} `{!EqDecision K} `{!GoType K} `{!GoType V} `{!EvictionPolicy K V P}.
Context (hash : K → Z).
Implicit Types (t : FlatHashMap K V) (k : K).

(** The live slot of a key, by exhaustive search; and the map a table stands for. *)
Definition slotOf t k : option Z :=
  snd <$> list_find (λ i, alive (At t i) = true ∧ ikey (At t i) = k) (slots t).

(** What a live item stands for: its value and its expiration offset. *)
Definition icell (it : Item K V) : V * Z := (ival it, f_expire (decode (meta it))).

Definition content t k : option (V * Z) := (λ i, icell (At t i)) <$> slotOf t k.

Lemma slotOf_Some_1 t k i :
  slotOf t k = Some i → 0 ≤ i < tLen t ∧ alive (At t i) = true ∧ ikey (At t i) = k.
Proof.
  unfold slotOf. intros ([j i'] & Hf & ->)%fmap_Some.
  apply list_find_Some in Hf as (Hj & [Ha Hk] & _).
  apply list_elem_of_lookup_2, elem_of_slots in Hj. done.
Qed.

Lemma slotOf_None t k :
  slotOf t k = None ↔ ∀ i, 0 ≤ i < tLen t → alive (At t i) = true → ikey (At t i) ≠ k.
Proof.
  unfold slotOf. rewrite fmap_None, list_find_None, Forall_forall. split.
  - intros H i Hi Ha Hk. apply (H i); [by apply elem_of_slots|done].
  - intros H i Hi%elem_of_slots [Ha Hk]. by apply (H i).
Qed.

Lemma slotOf_Some t k i :
  table_inv hash t → 0 ≤ i < tLen t → alive (At t i) = true → ikey (At t i) = k → slotOf t k = Some i.
Proof.
  intros Hi Hr Ha Hk. destruct (slotOf t k) as [j|] eqn:E.
  - apply slotOf_Some_1 in E as (Hj & Haj & Hkj). f_equal. pose proof (ti_shape _ t Hi) as Hs.
    rewrite <- (Wrap_small t i), <- (Wrap_small t j) by done.
    apply (ti_uniq hash t Hi); [by apply alive_retained..|congruence].
  - rewrite slotOf_None in E. by destruct (E i Hr Ha).
Qed.

Lemma content_Some t k v :
  table_inv hash t →
  content t k = Some v ↔
    ∃ i, 0 ≤ i < tLen t ∧ alive (At t i) = true ∧ ikey (At t i) = k ∧ icell (At t i) = v.
Proof.
  intros Hi. unfold content. rewrite fmap_Some. split.
  - intros (i & (Hr & Ha & Hk)%slotOf_Some_1 & ->). by exists i.
  - intros (i & Hr & Ha & Hk & Hv). exists i. split; [by apply slotOf_Some|done].
Qed.

(** What a change of one slot does to the map. *)
Lemma content_update t t' p x k :
  table_inv hash t → table_inv hash t' → 0 ≤ p < tLen t → slot_set t t' p x →
  content t' k =
    if alive x && bool_decide (ikey x = k) then Some (icell x)
    else if alive (At t p) && bool_decide (ikey (At t p) = k) then None
    else content t k.
Proof.
  intros Hi Hi' Hp Hset. pose proof (ti_shape _ t Hi) as Hs.
  destruct (slot_set_geometry hash _ _ _ _ Hset) as (Hl & _).
  pose proof (slot_set_at t t' p x Hset Hs Hp) as HAtp.
  assert (∀ i, 0 ≤ i < tLen t → i ≠ p → At t' i = At t i) as HAt.
  { intros i Hr Hne. destruct Hset as (_ & _ & ->). rewrite decide_False; [done|]. by rewrite Wrap_small. }
  destruct (alive x && bool_decide (ikey x = k)) eqn:Ex.
  { apply andb_true_iff in Ex as [Hax Hkx%bool_decide_eq_true]. apply content_Some; [done|].
    exists p. rewrite Hl, HAtp. done. }
  apply andb_false_iff in Ex. rewrite bool_decide_eq_false in Ex.
  assert (∀ v, content t' k = Some v ↔
    ∃ i, 0 ≤ i < tLen t ∧ i ≠ p ∧ alive (At t i) = true ∧ ikey (At t i) = k ∧ icell (At t i) = v) as Hc'.
  { intros v. rewrite content_Some by done. rewrite Hl. split.
    - intros (i & Hr & Ha & Hk & Hv). destruct (decide (i = p)) as [->|Hne].
      + rewrite HAtp in *. destruct Ex; congruence.
      + rewrite HAt in * by done. eauto 10.
    - intros (i & Hr & Hne & Ha & Hk & Hv). exists i. by rewrite HAt. }
  destruct (alive (At t p) && bool_decide (ikey (At t p) = k)) eqn:Ep.
  - apply andb_true_iff in Ep as [Hap Hkp%bool_decide_eq_true].
    apply eq_None_not_Some. intros [v (i & Hr & Hne & Ha & Hk & _)%Hc']. apply Hne.
    rewrite <- (Wrap_small t i), <- (Wrap_small t p) by done.
    apply (ti_uniq hash t Hi); [by apply alive_retained..|congruence].
  - apply andb_false_iff in Ep. rewrite bool_decide_eq_false in Ep.
    apply option_eq. intros v. rewrite Hc', content_Some by done.
    split; [intros (i & ? & _ & ?); by exists i|].
    intros (i & Hr & Ha & Hk & Hv). exists i. split; [done|]. split; [|done].
    intros ->. destruct Ep; congruence.
Qed.

(** ** The read-side walk *)

Lemma dist_reach t h i : table_shape t → 0 ≤ i < tLen t →
  0 ≤ (i - h) mod tLen t < tLen t ∧ Wrap t (h + (i - h) mod tLen t) = i.
Proof.
  intros Hs Hi. pose proof (tLen_pos t Hs). split; [apply Z.mod_pos_bound; lia|].
  rewrite Wrap_mod by done. rewrite Zplus_mod_idemp_r. replace (h + (i - h)) with i by lia.
  by apply Z.mod_small.
Qed.

Lemma At_reach t h i : table_shape t → 0 ≤ i < tLen t → At t (h + (i - h) mod tLen t) = At t i.
Proof. intros Hs Hi. rewrite <- At_Wrap by done. by destruct (dist_reach t h i Hs Hi) as [_ ->]. Qed.

(** Steps from [home] to the edge of its group. *)
Lemma group_end home : 0 ≤ home → Z.lor home 7 + 1 = home + (8 - home mod 8).
Proof.
  intros Hh. assert (∀ a b, Z.land a b = 0 → a + b = Z.lor a b) as Hadd.
  { intros a b H. by rewrite Z.add_nocarry_lxor, Z.lxor_lor. }
  assert (Z.lor home 7 = Z.ldiff home 7 + 7) as ->.
  { change 7 with (Z.ones 3). rewrite Hadd; bitwise. }
  assert (home = Z.ldiff home 7 + home mod 8) as H; [|lia].
  change 7 with (Z.ones 3). change 8 with (2 ^ 3). rewrite <- Z.land_ones by lia.
  rewrite Hadd; bitwise.
Qed.

Lemma u32_pos_eqb a b d :
  0 ≤ a < 2 ^ 32 → 0 ≤ d < 2 ^ 32 → 0 ≤ b < 2 ^ 32 → (u32 (a + d) =? u32 (a + b)) = (d =? b).
Proof.
  intros Ha Hd Hb. apply eqb_iff. split; [|by intros ->]. intros E.
  assert ((d - b) mod 2 ^ 32 = 0) as Hm.
  { replace (d - b) with ((a + d) - (a + b)) by lia. unfold u32 in E.
    by rewrite Zminus_mod, E, Z.sub_diag. }
  apply Z.mod_divide in Hm as [q Hq]; [|lia]. assert (-1 < q < 1) by nia. lia.
Qed.

(** A live key outside its home group's window is counted there, so a zero count proves absence. *)
Lemma no_overflow_absent t k i :
  table_inv hash t → occ t * 4 < tLen t * 3 → 0 ≤ i < tLen t → alive (At t i) = true →
  ikey (At t i) = k → Overflowed t (homeOf hash t k) = false →
  (i - homeOf hash t k) mod tLen t < 8 - homeOf hash t k mod 8.
Proof.
  intros Hi Hload Hr Ha <- Hov. pose proof (ti_shape _ t Hi) as Hs. pose proof (tLen_pos t Hs).
  set (h := homeOf hash t (ikey (At t i))) in *.
  pose proof (homeOf_range hash t (ikey (At t i)) Hs) as Hh. fold h in Hh.
  set (D := (i - h) mod tLen t) in *.
  assert (D ≤ occ t) as HD.
  { apply (chain_le_occ t h); [done|subst D; pose proof (Z.mod_pos_bound (i - h) (tLen t)); lia|].
    intros d Hd. apply (ti_chain hash t Hi); [by apply alive_retained|exact Hd]. }
  assert (groupOf t i = groupOf t h) as Hg.
  { apply negb_false_iff, Z.eqb_eq in Hov. rewrite overflowAt_ovf in Hov.
    pose proof (groupOf_range t h Hs) as Hgr. rewrite (ti_over hash t Hi _ Hgr) in Hov.
    pose proof (sumZ_pos_ex _ _ (λ j _, proj1 (b2z_range _)) Hov i) as Hd.
    rewrite elem_of_slots in Hd. specialize (Hd Hr). unfold displaced in Hd.
    rewrite Ha in Hd. fold h in Hd. rewrite Z.eqb_refl in Hd. cbn [andb] in Hd.
    destruct (Z.eqb_spec (groupOf t i) (groupOf t h)); [done|]. discriminate Hd. }
  unfold groupOf in Hg. fold (Wrap t i) (Wrap t h) in Hg. rewrite !Wrap_small in Hg by done.
  unfold groupShift in Hg. rewrite !Z.shiftr_div_pow2 in Hg by lia. change (2 ^ 3) with 8 in Hg.
  pose proof (Z.div_mod i 8 ltac:(lia)). pose proof (Z.div_mod h 8 ltac:(lia)).
  pose proof (Z.mod_pos_bound i 8 ltac:(lia)). pose proof (Z.mod_pos_bound h 8 ltac:(lia)).
  destruct (Z_le_gt_dec h i).
  - subst D. rewrite Z.mod_small; lia.
  - exfalso. assert (D = i - h + tLen t).
    { subst D. rewrite <- (Z_mod_plus_full (i - h) 1), Z.mod_small; lia. }
    lia.
Qed.

(** The common shape of the read-side loops, on a table [t] and a key [k]. *)
Definition walk_body {R} t k (absent : R) (found : Z → R) (pos : Z) : unit + R :=
  if (pos =? u32 (Z.lor (homeOf hash t k) 7 + 1)) && negb (Overflowed t (homeOf hash t k)) then inr absent
  else if meta (At t pos) =? 0 then inr absent
  else if negb (Z.land (meta (At t pos)) DeadOrTag =? TagOf (hash k)) then inl tt
  else if decide (ikey (At t pos) = k) then inr (found pos) else inl tt.

Lemma lookup_probe {R} t k (absent : R) (found : Z → R) (body : unit → Z → unit + R) :
  table_inv hash t → occ t * 4 < tLen t * 3 →
  (∀ pos, body tt pos = walk_body t k absent found pos) →
  ∃ r, probe (Z.to_nat (tLen t)) body tt (homeOf hash t k) = Some r ∧
    match slotOf t k with
    | None => r = absent
    | Some i => ∃ pos, is_u32 pos ∧ Wrap t pos = i ∧ r = found pos
    end.
Proof.
  intros Hi Hload Hbody. pose proof (ti_shape _ t Hi) as Hs. pose proof (tLen_pos t Hs) as Hn.
  pose proof (homeOf_range hash t k Hs) as Hh. set (h := homeOf hash t k) in *.
  pose proof (Z.mod_pos_bound h 8 ltac:(lia)) as Hm8.
  apply (probe_spec body (λ d _, ∀ d', 0 ≤ d' < d → occupied (At t (h + d')) = true ∧
    ¬ (alive (At t (h + d')) = true ∧ ikey (At t (h + d')) = k)) _ (Z.to_nat (tLen t))).
  - lia.
  - intros d' Hd'. lia.
  - intros d [] Hd HI. rewrite Z2Nat.id in Hd by lia. rewrite Hbody. unfold walk_body. fold h.
    rewrite group_end, u32_pos_eqb, At_u32 by (done || lia).
    (* a live slot with the key lies at a distance not scanned yet *)
    assert (∀ i, slotOf t k = Some i → d ≤ (i - h) mod tLen t) as Hfar.
    { intros i (Hr & Ha & Hk)%slotOf_Some_1. destruct (dist_reach t h i Hs Hr) as [[? ?] _].
      destruct (Z_lt_le_dec ((i - h) mod tLen t) d) as [Hlt|]; [|done].
      destruct (HI ((i - h) mod tLen t) ltac:(lia)) as [_ []]. by rewrite At_reach. }
    destruct ((d =? 8 - h mod 8) && negb (Overflowed t h)) eqn:E1.
    { apply andb_true_iff in E1 as [->%Z.eqb_eq Hov%negb_true_iff].
      destruct (slotOf t k) as [i|] eqn:E; [|done]. specialize (Hfar i eq_refl).
      apply slotOf_Some_1 in E as (Hr & Ha & Hk).
      pose proof (no_overflow_absent t k i Hi Hload Hr Ha Hk Hov). fold h in H. lia. }
    destruct (Z.eqb_spec (meta (At t (h + d))) 0) as [E2|E2].
    { destruct (slotOf t k) as [i|] eqn:E; [|done]. specialize (Hfar i eq_refl).
      apply slotOf_Some_1 in E as (Hr & Ha & Hk).
      assert (occupied (At t (h + d)) = true) as Hocc; [|unfold occupied in Hocc; by rewrite E2 in Hocc].
      destruct (Z.eq_dec d ((i - h) mod tLen t)) as [->|Hne].
      - rewrite At_reach by done. by apply alive_occupied.
      - subst h. rewrite <- Hk in *. apply (ti_chain hash t Hi); [by apply alive_retained|lia]. }
    assert (occupied (At t (h + d)) = true) as Hocc by (unfold occupied; by apply negb_true_iff, Z.eqb_neq).
    assert (¬ (alive (At t (h + d)) = true ∧ ikey (At t (h + d)) = k) →
      ∀ d', 0 ≤ d' < d + 1 → occupied (At t (h + d')) = true ∧
        ¬ (alive (At t (h + d')) = true ∧ ikey (At t (h + d')) = k)) as Hnext.
    { intros Hno d' Hd'. destruct (Z.eq_dec d' d) as [->|]; [done|]. apply HI. lia. }
    rewrite candidate_test. destruct (negb (f_dead (decode (meta (At t (h + d))))) &&
      (f_tag (decode (meta (At t (h + d)))) =? tagBits (hash k))) eqn:E3; cbn [negb].
    + apply andb_true_iff in E3 as [Hal _]. destruct (decide (ikey (At t (h + d)) = k)) as [Hk|Hk].
      * rewrite (slotOf_Some t k (Wrap t (h + d))).
        -- exists (u32 (h + d)). split_and!; [apply Z.mod_pos_bound; lia|by apply Wrap_u32|done].
        -- done.
        -- by apply Wrap_range.
        -- rewrite At_Wrap by done. unfold alive. by rewrite Hocc.
        -- by rewrite At_Wrap.
      * apply Hnext. by intros [_ ?].
    + apply Hnext. intros [Ha Hk]. apply not_true_iff_false in E3. apply E3.
      unfold alive in Ha. apply andb_true_iff in Ha as [_ Hal]. rewrite Hal. cbn [andb].
      apply Z.eqb_eq. rewrite <- Hk. apply (ti_tag hash t Hi). apply alive_retained.
      unfold alive. by rewrite Hocc.
  - intros [] HI. rewrite Z2Nat.id in HI by lia.
    pose proof (chain_le_occ t h (tLen t) Hs ltac:(lia) (λ d Hd, proj1 (HI d Hd))). lia.
  - unfold is_u32. lia.
Qed.

(** With no writer running, a snapshot of an occupied slot validates. *)
Lemma snapshot_ok (it : Item K V) :
  gen_ok (meta it) → meta it ≠ 0 → SnapshotInto it (meta it) = (entry it, true).
Proof.
  intros Hg Hm. destruct (gen_ok_good _ Hg Hm) as [_ He]. unfold SnapshotInto.
  rewrite Z.lxor_nilpotent, Z.land_0_l. cbn [andb]. f_equal.
  rewrite <- Z.negb_odd, <- Z.bit0_odd in He. apply negb_true_iff in He. cbn [decode f_gen] in He.
  rewrite Z.land_spec in He. rewrite (Z.testbit_ones_nonneg 28) in He by lia.
  change (0 <? 28) with true in He. rewrite andb_true_r in He.
  apply Z.eqb_eq. change 1 with (Z.ones 1). rewrite Z.land_ones by lia. change (2 ^ 1) with 2.
  rewrite Zmod_odd, <- Z.bit0_odd, He. done.
Qed.

Implicit Types (sh : shard K V P).

Lemma findSlot_spec sh k :
  table_inv hash (items sh) → occ (items sh) * 4 < tLen (items sh) * 3 →
  findSlot sh (hash k) k = Some (slotOf (items sh) k).
Proof.
  intros Hi Hl. unfold findSlot.
  match goal with |- probe _ ?body _ _ = _ =>
    destruct (lookup_probe (items sh) k None (λ pos, Some (Wrap (items sh) pos)) body Hi Hl) as (r & Hr & Hs)
  end; [done|].
  etrans; [exact Hr|]. f_equal. destruct (slotOf (items sh) k) as [i|]; [|done].
  by destruct Hs as (pos & _ & <- & ->).
Qed.

Lemma snapshot_walk {R} t pos k (absent : R) (found : Z → Entry K V → option R) :
  table_inv hash t →
  (if (pos =? u32 (Z.lor (homeOf hash t k) 7 + 1)) && negb (Overflowed t (homeOf hash t k))
   then inr (Some absent)
   else if meta (At t pos) =? 0 then inr (Some absent)
   else if negb (Z.land (meta (At t pos)) DeadOrTag =? TagOf (hash k)) then inl tt
   else match SnapshotInto (At t pos) (meta (At t pos)) with
   | (_, false) => inr None
   | (e, true) => if decide (Key e = k) then inr (found pos e) else inl tt
   end) = walk_body t k (Some absent) (λ pos, found pos (entry (At t pos))) pos.
Proof.
  intros Hi. unfold walk_body. case_match; [done|]. destruct (Z.eqb_spec (meta (At t pos)) 0); [done|].
  case_match; [done|]. rewrite snapshot_ok; [done| |done]. by destruct (ti_meta hash t Hi pos) as (_ & ? & _).
Qed.

Lemma livePresent_spec sh k :
  table_inv hash (items sh) → occ (items sh) * 4 < tLen (items sh) * 3 →
  livePresent sh (hash k) k = Some (bool_decide (is_Some (slotOf (items sh) k))).
Proof.
  intros Hi Hl. unfold livePresent.
  match goal with |- match probe _ ?body _ _ with _ => _ end = _ =>
    destruct (lookup_probe (items sh) k (Some false) (λ _, Some true) body Hi Hl) as (r & Hr & Hs)
  end; [intros pos; apply (snapshot_walk _ _ _ false (λ _ _, Some true) Hi)|].
  unfold homeOf in Hr. rewrite Hr.
  destruct (slotOf (items sh) k) as [i|]; [|done]. by destruct Hs as (pos & _ & _ & ->).
Qed.

Lemma peekMemory_spec sh k :
  table_inv hash (items sh) → occ (items sh) * 4 < tLen (items sh) * 3 →
  peekMemory hash sh k = Some (fst <$> content (items sh) k).
Proof.
  intros Hi Hl. pose proof (ti_shape _ _ Hi) as Hs'. unfold peekMemory.
  match goal with |- match probe _ ?body _ _ with _ => _ end = _ =>
    destruct (lookup_probe (items sh) k (Some None)
      (λ pos, Some (Some (Value (entry (At (items sh) pos))))) body Hi Hl) as (r & Hr & Hs)
  end; [intros pos; apply (snapshot_walk _ _ _ None (λ _ e, Some (Some (Value e))) Hi)|].
  unfold homeOf in Hr. rewrite Hr.
  unfold content. destruct (slotOf (items sh) k) as [i|]; [|by rewrite Hs].
  destruct Hs as (pos & _ & <- & ->). simpl. by rewrite At_Wrap.
Qed.

End Lookup.
