(* ===== verification/ShardSteps.v ===== *)
(** * Single steps on a shard's table, and what they do to its counts and its contents

    Killing a live slot, freeing a tombstone, publishing into a slot, and copying a live item into
    a fresh table: the steps the shard operations are made of. *)

From S2P Require Import Prelude Item Queue Table TableInv Policy Shard Lookup.

Section Steps.
Context {K V P : Type} `{!EqDecision K} `{!GoType K} `{!GoType V}.
Context (hash : K → Z) (c : Env K V).
Implicit Types (t : FlatHashMap K V) (it : Item K V) (k : K).

(** ** Counts *)

Definition nLive t : Z := sumZ (λ i, Z.b2z (alive (At t i))) (slots t).
Definition nTomb t : Z := sumZ (λ i, Z.b2z (tomb (At t i))) (slots t).

(** The weight an item is charged for: only live items count. *)
Definition charge it : Z := if alive it then rawCost c (ikey it) (ival it) else 0.
Definition sumW t : Z := sumZ (λ i, charge (At t i)) (slots t).

Lemma rawCost_pos k v : 1 ≤ rawCost c k v.
Proof.
  unfold rawCost. destruct (costFunc c) as [f|]; [|lia]. cbv zeta.
  destruct (Z.ltb_spec 0 (f k v)); lia.
Qed.

Lemma occ_split t : occ t = nLive t + nTomb t.
Proof.
  unfold occ, nLive, nTomb. rewrite <- sumZ_plus. apply sumZ_ext. intros i _.
  rewrite occupied_split. unfold alive, tomb.
  by destruct (occupied (At t i)), (f_dead (decode (meta (At t i)))).
Qed.

Lemma nLive_le_sumW t : nLive t ≤ sumW t.
Proof.
  apply sumZ_le. intros i _. unfold charge. pose proof (rawCost_pos (ikey (At t i)) (ival (At t i))).
  destruct (alive (At t i)); cbn [Z.b2z]; lia.
Qed.

Lemma nLive_nonneg t : 0 ≤ nLive t.
Proof. apply sumZ_nonneg. intros. apply b2z_range. Qed.

Lemma nTomb_nonneg t : 0 ≤ nTomb t.
Proof. apply sumZ_nonneg. intros. apply b2z_range. Qed.

(** The effect of a one-slot change on all three. *)
Lemma counts_slot_set t t' p x :
  table_shape t → 0 ≤ p < tLen t → slot_set t t' p x →
  nLive t' = nLive t - Z.b2z (alive (At t p)) + Z.b2z (alive x) ∧
  nTomb t' = nTomb t - Z.b2z (tomb (At t p)) + Z.b2z (tomb x) ∧
  sumW t' = sumW t - charge (At t p) + charge x.
Proof.
  intros Hs Hp Hset. split_and!.
  - exact (sum_slot_set (λ _ it, Z.b2z (alive it)) t t' p x Hs Hp Hset).
  - exact (sum_slot_set (λ _ it, Z.b2z (tomb it)) t t' p x Hs Hp Hset).
  - exact (sum_slot_set (λ _ it, charge it) t t' p x Hs Hp Hset).
Qed.

(** ** Changes that keep the live items *)

Definition same_live t t' : Prop :=
  tLen t' = tLen t ∧
  ∀ i, alive (At t' i) = alive (At t i) ∧ tomb (At t' i) = tomb (At t i) ∧
    (alive (At t i) = true →
       entry (At t' i) = entry (At t i) ∧ f_expire (decode (meta (At t' i))) = f_expire (decode (meta (At t i)))).

#[global] Instance same_live_refl : Reflexive same_live.
Proof. intros t. by split. Qed.

#[global] Instance same_live_trans : Transitive same_live.
Proof.
  intros t1 t2 t3 [L1 A1] [L2 A2]. split; [congruence|]. intros i.
  destruct (A1 i) as (Ha1 & Ht1 & He1), (A2 i) as (Ha2 & Ht2 & He2).
  split_and!; [congruence|congruence|]. intros Ha.
  destruct (He1 Ha), He2; [congruence|]. split; congruence.
Qed.

Lemma same_live_counts t t' :
  same_live t t' → nLive t' = nLive t ∧ nTomb t' = nTomb t ∧ sumW t' = sumW t.
Proof.
  intros [Hl HA]. unfold nLive, nTomb, sumW, slots. rewrite Hl. split_and!; apply sumZ_ext; intros i _;
    destruct (HA i) as (Ha & Ht & He); [by rewrite Ha|by rewrite Ht|].
  unfold charge. rewrite Ha. destruct (alive (At t i)); [|done]. unfold ikey, ival.
  by destruct He as [-> _].
Qed.

Lemma same_live_content t t' k :
  table_inv hash t → table_inv hash t' → same_live t t' → content t' k = content t k.
Proof.
  intros Hi Hi' [Hl HA]. apply option_eq. intros v. rewrite !(content_Some hash) by done. rewrite Hl.
  f_equiv. intros i. destruct (HA i) as (-> & _ & He). unfold icell, ikey, ival.
  split; intros (? & Ha & ? & ?); destruct (He Ha) as [-> ->] || destruct (He Ha) as [E1 E2];
    rewrite ?E1, ?E2 in *; done.
Qed.

Lemma fewer_same_live t t' : table_inv hash t → fewer_table t t' → same_live t t'.
Proof.
  intros Hi Hf. pose proof (fewer_same_table hash t t' Hi Hf) as Hst.
  split; [by apply (same_table_geometry hash t t')|]. intros i.
  destruct Hst as (_ & _ & _ & HA). split_and!; [by apply same_slot_alive|by apply same_slot_tomb|].
  intros _. destruct Hf as (_ & _ & _ & Hf). destruct (Hf i) as [-> (b & -> & Hb)].
  split; [done|]. by destruct (ldiff_chances_fields (meta (At t i)) b Hb) as (_ & _ & ? & _).
Qed.

(** ** The policy's nodes and the table *)

(** Each retained slot has exactly one node, and each node a retained slot. *)
Definition queue_ok t (l : list QNode) : Prop :=
  NoDup (Idx <$> l) ∧ ∀ i, i ∈ Idx <$> l ↔ 0 ≤ i < tLen t ∧ retained (At t i) = true.

Lemma queue_ok_perm t l l' : l ≡ₚ l' → queue_ok t l → queue_ok t l'.
Proof.
  intros H [Hn Hq]. pose proof (fmap_Permutation Idx _ _ H) as Hp. split; [by rewrite <- Hp|].
  intros i. by rewrite <- Hp.
Qed.

Lemma queue_ok_retained t t' l :
  tLen t' = tLen t → (∀ i, 0 ≤ i < tLen t → retained (At t' i) = retained (At t i)) →
  queue_ok t l → queue_ok t' l.
Proof.
  intros Hl Hr [Hn Hq]. split; [done|]. intros i. rewrite Hq, Hl.
  split; intros [? ?]; (split; [done|]); [by rewrite Hr|by rewrite <- Hr].
Qed.

Lemma queue_ok_same t t' l : same_table t t' → queue_ok t l → queue_ok t' l.
Proof.
  intros Hst. destruct (same_table_geometry hash t t' Hst) as (Hl & _).
  apply queue_ok_retained; [done|]. intros i _. destruct Hst as (_ & _ & _ & HA). by apply same_slot_retained.
Qed.

(** ** Killing *)

Definition killSlot t (keyHash p : Z) : FlatHashMap K V :=
  let t' := alterAt t p (λ it, (Kill it).1) in ForgetDisplaced t' (Home t' keyHash) p.

Lemma Kill_dead it : f_dead (decode (meta (Kill it).1)) = true.
Proof. by rewrite Kill_fields. Qed.

Lemma Kill_meta_ok it : meta_ok (meta it) → meta it ≠ 0 → meta_ok (meta (Kill it).1).
Proof.
  intros (H64 & Hg & _) Hne. split_and!; [by apply Kill_u64|right; by apply Kill_gen, gen_ok_good|].
  intros _. apply Kill_dead.
Qed.

Lemma alive_nonzero it : alive it = true → meta it ≠ 0.
Proof. intros H%alive_occupied. unfold occupied in H. by apply negb_true_iff, Z.eqb_neq in H. Qed.

Lemma kill_step t p :
  table_inv hash t → 0 ≤ p < tLen t → alive (At t p) = true →
  let t' := killSlot t (hash (ikey (At t p))) p in
  table_inv hash t' ∧ slot_set t t' p (Kill (At t p)).1 ∧
  (∀ i, 0 ≤ i < tLen t → retained (At t' i) = retained (At t i)) ∧
  alive (At t' p) = false ∧ tomb (At t' p) = true.
Proof.
  intros Hi Hp Ha t'. pose proof (ti_shape _ t Hi) as Hs. pose proof (alive_nonzero _ Ha) as Hne.
  pose proof (ti_meta _ t Hi p) as Hm. pose proof (Kill_meta_ok _ Hm Hne) as Hm'.
  assert (slot_set t t' p (Kill (At t p)).1) as Hset.
  { apply slot_set_Forget. by apply (slot_set_alterAt t p (λ it, (Kill it).1)). }
  assert (occupied (Kill (At t p)).1 = true) as Ho.
  { apply negb_true_iff, Z.eqb_neq, gen_good_nonzero. destruct Hm as (_ & Hg & _).
    by apply Kill_gen, gen_ok_good. }
  assert (alive (Kill (At t p)).1 = false) as Hx by (unfold alive; by rewrite Kill_dead, andb_false_r).
  split_and!.
  - assert (t' = ForgetDisplaced (alterAt t p (λ it, (Kill it).1))
      (homeOf hash t (ikey (Kill (At t p)).1)) p) as ->.
    { unfold t', killSlot, homeOf, Home. by rewrite mask_alterAt. }
    apply (kill_inv hash t p (λ it, (Kill it).1)); try done. by rewrite Kill_fields.
  - done.
  - intros i Hr. destruct Hset as (_ & _ & ->). case_decide as E; [|done].
    rewrite Wrap_small in E by done. subst i. unfold retained.
    rewrite !Reusable_fields, Kill_fields, Ho. rewrite (alive_occupied _ Ha). cbn [f_dead f_free].
    destruct Hm as (_ & _ & Hfree). unfold alive in Ha. apply andb_true_iff in Ha as [_ Hd%negb_true_iff].
    rewrite Hd in *. destruct (f_free (decode (meta (At t p)))); [by discriminate Hfree|done].
  - by rewrite (slot_set_at _ _ _ _ Hset).
  - rewrite (slot_set_at _ _ _ _ Hset) by done. unfold tomb. by rewrite Ho, Kill_dead.
Qed.

(** ** Freeing a tombstone *)

Lemma free_step t p :
  table_inv hash t → 0 ≤ p < tLen t → tomb (At t p) = true →
  let t' := alterAt t p MakeFree in
  table_inv hash t' ∧ same_live t t' ∧
  (∀ i, 0 ≤ i < tLen t → retained (At t' i) = retained (At t i) && negb (i =? p)) ∧
  (∀ i, isDead t' i = isDead t i).
Proof.
  intros Hi Hp Ht t'. pose proof (ti_shape _ t Hi) as Hs. pose proof (ti_meta _ t Hi p) as (H64 & Hg & _).
  unfold tomb in Ht. apply andb_true_iff in Ht as [Ho Hd].
  assert (meta (At t p) ≠ 0) as Hne by (by apply negb_true_iff, Z.eqb_neq in Ho).
  pose proof (MakeFree_gen _ (gen_ok_good _ Hg Hne)) as Hg'.
  assert (occupied (MakeFree (At t p)) = true) as Ho'
    by (by apply negb_true_iff, Z.eqb_neq, gen_good_nonzero).
  assert (alive (MakeFree (At t p)) = false) as Hx.
  { unfold alive. rewrite MakeFree_fields. cbn [f_dead]. by rewrite Hd, andb_false_r. }
  assert (retained (MakeFree (At t p)) = false) as Hr.
  { unfold retained. rewrite Reusable_fields, MakeFree_fields, Ho'. cbn [f_dead f_free]. by rewrite Hd. }
  pose proof (slot_set_alterAt t p MakeFree Hs Hp) as Hset.
  assert (alive (At t p) = false) as Hal by (unfold alive; by rewrite Hd, andb_false_r).
  split_and!.
  - apply (tomb_inv hash t p MakeFree); try done. eapply meta_ok_intro; [by apply MakeFree_u64|done|done|].
    intros _. by rewrite MakeFree_fields.
  - split; [by destruct (slot_set_geometry hash _ _ _ _ Hset)|]. intros i.
    destruct Hset as (_ & _ & ->). case_decide as E; [|done].
    assert (At t i = At t p) as -> by (by rewrite <- (At_Wrap t i), E).
    rewrite Hx, Hal. unfold tomb. rewrite Ho, Hd, Ho', MakeFree_fields. cbn [f_dead]. by rewrite Hd.
  - intros i Hri. destruct Hset as (_ & _ & ->). rewrite Wrap_small by done.
    case_decide as E; destruct (Z.eqb_spec i p); try congruence; cbn [negb];
      [by rewrite andb_false_r|by rewrite andb_true_r].
  - intros i. unfold isDead. rewrite !dead_test. destruct Hset as (_ & _ & ->). case_decide as E; [|done].
    assert (At t i = At t p) as -> by (by rewrite <- (At_Wrap t i), E). by rewrite MakeFree_fields.
Qed.

(** ** Publishing *)

Definition publishSlot t (keyHash : Z) (e : Entry K V) (expireOff pos : Z) : FlatHashMap K V :=
  let t' := alterAt t pos (λ it, Publish it e (TagOf keyHash) expireOff) in
  NoteDisplaced t' (Home t' keyHash) pos.

Lemma Publish_alive it e h x : 0 ≤ x < 2 ^ 18 → alive (Publish it e (TagOf h) x) = true.
Proof.
  intros Hx. unfold alive. rewrite Publish_fields by done. cbn [f_dead negb]. rewrite andb_true_r.
  by apply negb_true_iff, Z.eqb_neq, gen_good_nonzero, Publish_gen.
Qed.

Lemma publish_step t pos k v x :
  let p := Wrap t pos in
  table_inv hash t → occ t * 4 < tLen t * 3 → 0 ≤ x < 2 ^ 18 → alive (At t p) = false →
  (∀ d, 0 ≤ d < (p - homeOf hash t k) mod tLen t → occupied (At t (homeOf hash t k + d)) = true) →
  (∀ j, 0 ≤ j < tLen t → j ≠ p → retained (At t j) = true → ikey (At t j) ≠ k) →
  let t' := publishSlot t (hash k) (mkEntry k v) x pos in
  table_inv hash t' ∧ slot_set t t' p (Publish (At t pos) (mkEntry k v) (TagOf (hash k)) x).
Proof.
  intros p Hi Hocc Hx Hold Hchain Huniq t'. pose proof (ti_shape _ t Hi) as Hs.
  set (f := λ it : Item K V, Publish it (mkEntry k v) (TagOf (hash k)) x).
  split.
  - assert (t' = NoteDisplaced (alterAt t pos f) (homeOf hash t k) pos) as ->.
    { unfold t', publishSlot, homeOf, Home. by rewrite mask_alterAt. }
    apply (publish_inv hash t pos f); try done.
    + by apply Publish_alive.
    + apply (meta_ok_intro _ false); [by apply Publish_u64|by apply Publish_gen| |done].
      subst f. cbv beta. by rewrite Publish_fields.
    + subst f. cbv beta. rewrite Publish_fields by done. done.
  - apply slot_set_Note. by apply (slot_set_pos t pos f).
Qed.

End Steps.
