(* ===== verification/Rebuild.v ===== *)
(** * Copying the live items into a fresh table

    [InsertFresh] and the [remap] closure of [maybeRebuild]: the rebuilt table satisfies the
    invariant, holds exactly the live items of the old one, and the policy's nodes point into it. *)

From S2P Require Import Prelude Item Queue Table TableInv Policy Shard Lookup ShardSteps.

Section RebuildList.
Context {A : Type} (remap : A → Z → A * option Z).

(** A rebuild processes the nodes in order: [done] ones went in, [outs] came out. *)
Lemma rebuildList_ind (I : list QNode → list QNode → A → Prop) (l : list QNode) (a : A) :
  I [] [] a →
  (∀ l1 x l2 outs a, l = l1 ++ x :: l2 → I l1 outs a →
    match remap a (Idx x) with
    | (a', Some i) => I (l1 ++ [x]) (outs ++ [mkQNode i (Cost x)]) a'
    | (a', None) => I (l1 ++ [x]) outs a'
    end) →
  I l (rebuildList remap (λ a _, a) l a).1 (rebuildList remap (λ a _, a) l a).2.
Proof.
  intros H0 Hstep.
  assert (∀ l2 l1 outs a, l = l1 ++ l2 → I l1 outs a →
    I l (outs ++ (rebuildList remap (λ a _, a) l2 a).1) (rebuildList remap (λ a _, a) l2 a).2) as H.
  { intros l2. induction l2 as [|x l2 IH]; intros l1 outs a' E HI.
    - rewrite app_nil_r in *. by subst.
    - specialize (Hstep l1 x l2 outs a' E HI). simpl.
      destruct (remap a' (Idx x)) as [a'' [i|]].
      + specialize (IH (l1 ++ [x]) _ a'' ltac:(by rewrite <- app_assoc) Hstep).
        destruct (rebuildList remap _ l2 a'') as [k b]. simpl in *. by rewrite <- app_assoc in IH.
      + apply (IH (l1 ++ [x])); [by rewrite <- app_assoc|done]. }
  apply (H l [] [] a); done.
Qed.

End RebuildList.

Section Rebuild.
Context {K V P : Type} `{!EqDecision K} `{!GoType K} `{!GoType V}.
Context (hash : K → Z) (c : Env K V).
Implicit Types (t : FlatHashMap K V) (it : Item K V) (k : K).

(** [InsertFresh] finds a slot and links the copy in. *)
Lemma InsertFresh_spec t (src : Item K V) :
  table_inv hash t → occ t * 4 < tLen t * 3 → alive src = true → meta_ok (meta src) →
  f_tag (decode (meta src)) = tagBits (hash (ikey src)) →
  (∀ j, 0 ≤ j < tLen t → retained (At t j) = true → ikey (At t j) ≠ ikey src) →
  ∃ t' i, InsertFresh t (hash (ikey src)) src = Some (t', i) ∧ table_inv hash t' ∧
    0 ≤ i < tLen t ∧ occupied (At t i) = false ∧ slot_set t t' i src.
Proof.
  intros Hi Hload Ha Hm Htag Hno. pose proof (ti_shape _ t Hi) as Hs. pose proof (tLen_pos t Hs) as Hn.
  set (h := homeOf hash t (ikey src)).
  destruct (probe_spec (λ (_ : unit) pos,
       if meta (At t pos) =? 0
       then inr (NoteDisplaced (alterAt t pos (λ _, mkItem (meta src) (entry src))) h pos,
                 Z.land pos (mask t))
       else inl tt)
    (λ d _, ∀ d', 0 ≤ d' < d → occupied (At t (h + d')) = true)
    (λ r, table_inv hash r.1 ∧ 0 ≤ r.2 < tLen t ∧ occupied (At t r.2) = false ∧ slot_set t r.1 r.2 src)
    (Z.to_nat (tLen t)) (Z.to_nat (tLen t)) tt h) as ([t' i] & Hr & Hq).
  - lia.
  - intros d' Hd'. lia.
  - intros d [] Hd HI. rewrite Z2Nat.id in Hd by lia. set (pos := u32 (h + d)).
    assert (Wrap t pos = Wrap t (h + d)) as Hw by by apply Wrap_u32.
    assert (At t pos = At t (h + d)) as Hat by by apply At_u32.
    rewrite Hat. destruct (Z.eqb_spec (meta (At t (h + d))) 0) as [E|E].
    + assert (occupied (At t (Wrap t pos)) = false) as Hfree.
      { rewrite At_Wrap, Hat by done. unfold occupied. by rewrite E. }
      cbn [fst snd]. fold (Wrap t pos). split_and!; [|by apply Wrap_range..|done|].
      * assert (mkItem (meta src) (entry src) = src) as Esrc by by destruct src.
        subst h. change (homeOf hash t (ikey src)) with
          (homeOf hash t (ikey ((λ _ : Item K V, mkItem (meta src) (entry src)) (At t pos)))).
        apply (publish_inv hash t pos (λ _, mkItem (meta src) (entry src))); try (rewrite ?Esrc; done).
        -- unfold alive. by rewrite Hfree.
        -- cbv beta. rewrite Esrc. intros d' Hd'. apply HI.
           rewrite Hw, Wrap_mod, Zminus_mod_idemp_l in Hd' by done.
           rewrite (Z.add_comm _ d), Z.add_simpl_r, Z.mod_small in Hd'; lia.
        -- cbv beta. rewrite Esrc. intros j Hj _. by apply Hno.
      * apply slot_set_Note. destruct src. by apply slot_set_pos.
    + intros d' Hd'. destruct (Z.eq_dec d' d) as [->|]; [by apply negb_true_iff, Z.eqb_neq|apply HI; lia].
  - intros [] HI. rewrite Z2Nat.id in HI by lia.
    pose proof (chain_le_occ t h (tLen t) Hs ltac:(lia) HI). lia.
  - pose proof (homeOf_range hash t (ikey src) Hs). unfold is_u32. subst h. lia.
  - exists t', i. split; [exact Hr|exact Hq].
Qed.

(** The table of a new shard, or of a rebuild before its first copy. *)
Lemma fresh_table size :
  (∃ n, 6 ≤ n ≤ 32 ∧ size = 2 ^ n) →
  let t := NewFlatHashMap (K := K) (V := V) size in
  table_inv hash t ∧ tLen t = size ∧ nLive t = 0 ∧ nTomb t = 0 ∧ sumW c t = 0 ∧ queue_ok t [].
Proof.
  intros (n & Hn & En) t. assert (∀ i, At t i = zeroItem) as HA by (intros; apply NewFlatHashMap_At).
  assert (table_shape t) as Hs by (unfold t; subst; by apply NewFlatHashMap_shape).
  assert (∀ f : Item K V → Z, f zeroItem = 0 → sumZ (λ i, f (At t i)) (slots t) = 0) as Hz.
  { intros f Hf. rewrite (sumZ_ext _ (λ _, 0)); [by rewrite sumZ_const|]. intros i _. by rewrite HA. }
  split_and!.
  - split; [done|..].
    + intros i. rewrite HA. split_and!; [done|by left|done].
    + intros i. by rewrite HA.
    + intros i d. by rewrite HA.
    + intros i j. by rewrite HA.
    + intros g _. unfold t. rewrite NewFlatHashMap_ovf. symmetry.
      rewrite (sumZ_ext _ (λ _, 0)); [by rewrite sumZ_const|]. intros i _. unfold displaced. by rewrite HA.
  - unfold tLen, t, NewFlatHashMap. case_match; cbn [mask]; subst size; unfold u32; rewrite Z.mod_small; try lia;
      pose proof (Z.pow_le_mono_r 2 n 32); pose proof (Z.pow_pos_nonneg 2 n); lia.
  - by apply (Hz (λ it, Z.b2z (alive it))).
  - by apply (Hz (λ it, Z.b2z (tomb it))).
  - by apply (Hz (charge c)).
  - split; [constructor|]. intros i. rewrite HA. cbn. split; [set_solver|]. by intros [_ ?].
Qed.

(** ** The invariant of the copy loop *)

Section Copy.
Context (t : FlatHashMap K V) (size : Z).
Hypotheses (Hinv : table_inv hash t) (Hsize : nLive t * 4 < size * 3).

Record copied (l1 outs : list QNode) (st : option (FlatHashMap K V * Z)) (t' : FlatHashMap K V) : Prop := {
  cp_st : st = Some (t', nLive t');
  cp_inv : table_inv hash t';
  cp_size : tLen t' = size;
  cp_tomb : nTomb t' = 0;
  cp_live : nLive t' = sumZ (λ i, Z.b2z (alive (At t i))) (Idx <$> l1);
  cp_weight : sumW c t' = sumZ (λ i, charge c (At t i)) (Idx <$> l1);
  cp_nodes : queue_ok t' outs;
  cp_to x : x ∈ l1 → alive (At t (Idx x)) = true →
    ∃ i, 0 ≤ i < size ∧ At t' i = At t (Idx x);
  cp_from i : 0 ≤ i < size → alive (At t' i) = true →
    ∃ x, x ∈ l1 ∧ At t' i = At t (Idx x)
}.

Lemma no_tomb t' i : nTomb t' = 0 → 0 ≤ i < tLen t' → tomb (At t' i) = false.
Proof.
  intros H Hi. pose proof (sumZ_pos_ex _ _ (λ j _, proj1 (b2z_range _)) H i) as Hz.
  rewrite elem_of_slots in Hz. specialize (Hz Hi). by destruct (tomb (At t' i)).
Qed.

Lemma retained_alive it : retained it = true → tomb it = false → alive it = true.
Proof.
  intros Hr Ht. apply retained_occupied in Hr. rewrite occupied_split, Ht, orb_false_r in Hr. done.
Qed.

Lemma copied_start : (∃ n, 6 ≤ n ≤ 32 ∧ size = 2 ^ n) →
  copied [] [] (Some (NewFlatHashMap size, 0)) (NewFlatHashMap size).
Proof.
  intros Hn. destruct (fresh_table size Hn) as (Hi & Hlen & Hl & Ht & Hw & Hq).
  split; try done.
  - by rewrite Hl.
  - set_solver.
  - intros i _. by rewrite NewFlatHashMap_At.
Qed.

(** The facts about a node that the loop meets. *)
Lemma node_facts l l1 x l2 :
  queue_ok t l → l = l1 ++ x :: l2 →
  0 ≤ Idx x < tLen t ∧ retained (At t (Idx x)) = true ∧ NoDup (Idx <$> l1 ++ [x]) ∧
  (∀ y, y ∈ l1 → 0 ≤ Idx y < tLen t ∧ Idx y ≠ Idx x).
Proof.
  intros [Hnd Hq] ->.
  assert (NoDup (Idx <$> l1 ++ [x])) as Hnd'.
  { rewrite (cons_middle x l1 l2), app_assoc, fmap_app in Hnd. by apply NoDup_app in Hnd as (? & _). }
  destruct (Hq (Idx x)) as [[Hxr Hret] _]; [rewrite fmap_app; set_solver|].
  split_and!; [lia|lia|done|done|]. intros y Hy. split.
  - apply Hq. rewrite fmap_app. apply elem_of_app. left. by apply list_elem_of_fmap_2.
  - intros E. rewrite fmap_app in Hnd'. apply NoDup_app in Hnd' as (_ & Hd & _).
    apply (Hd (Idx y)); [by apply list_elem_of_fmap_2|]. rewrite E. set_solver.
Qed.

Lemma sum_snoc (f : Z → Z) l1 x : sumZ f (Idx <$> l1 ++ [x]) = sumZ f (Idx <$> l1) + f (Idx x).
Proof. rewrite fmap_app, sumZ_app. cbn. lia. Qed.

Lemma nLive_room l l1 x l2 :
  queue_ok t l → l = l1 ++ x :: l2 → alive (At t (Idx x)) = true →
  sumZ (λ i, Z.b2z (alive (At t i))) (Idx <$> l1) < nLive t.
Proof.
  intros Hq El Ha. destruct (node_facts l l1 x l2 Hq El) as (Hxr & _ & Hnd & Hl1).
  assert (sumZ (λ i, Z.b2z (alive (At t i))) (Idx <$> l1 ++ [x]) ≤ nLive t) as Hle.
  { apply sumZ_subset; [apply NoDup_slots|done| |intros; apply b2z_range].
    intros i (y & -> & Hy)%list_elem_of_fmap. apply elem_of_slots.
    apply elem_of_app in Hy as [Hy| ->%list_elem_of_singleton]; [by apply Hl1|done]. }
  rewrite sum_snoc, Ha in Hle. cbn [Z.b2z] in Hle. lia.
Qed.

(** A live item is copied to a slot of its own. *)
Lemma copied_insert l l1 x l2 outs t' :
  queue_ok t l → l = l1 ++ x :: l2 → copied l1 outs (Some (t', nLive t')) t' → alive (At t (Idx x)) = true →
  ∃ t'' i, InsertFresh t' (hash (ikey (At t (Idx x)))) (At t (Idx x)) = Some (t'', i) ∧
    copied (l1 ++ [x]) (outs ++ [mkQNode i (Cost x)]) (Some (t'', nLive t' + 1)) t''.
Proof.
  intros Hq El [_ Hi' Hsz Htomb Hlive Hw [Hnd' Hq'] Hto Hfrom] Ha.
  destruct (node_facts l l1 x l2 Hq El) as (Hxr & _ & _ & Hl1).
  pose proof (nLive_room l l1 x l2 Hq El Ha) as Hroom. rewrite <- Hlive in Hroom.
  pose proof (ti_shape _ _ Hi') as Hs'. pose proof (ti_shape _ _ Hinv) as Hs.
  destruct (InsertFresh_spec t' (At t (Idx x))) as (t'' & i & HI & Hi'' & Hr & Hfree & Hset); [done|..].
  { rewrite occ_split, Htomb, Hsz. lia. }
  { done. }
  { apply Hinv. }
  { apply Hinv. by apply alive_retained. }
  { intros j Hj Hret E. rewrite Hsz in Hj.
    assert (alive (At t' j) = true) as Haj by (apply retained_alive; [done|apply no_tomb; [done|lia]]).
    destruct (Hfrom j Hj Haj) as (y & Hy & Ey). rewrite Ey in *. destruct (Hl1 y Hy) as [Hyr Hne].
    apply Hne. rewrite <- (Wrap_small t (Idx y)), <- (Wrap_small t (Idx x)) by done.
    by apply (ti_uniq hash t Hinv); [..|by apply alive_retained|]. }
  destruct (counts_slot_set c t' t'' i _ Hs' Hr Hset) as (Hn1 & Hn2 & Hn3).
  destruct (slot_set_geometry hash _ _ _ _ Hset) as (Hl'' & Hwr & _).
  pose proof (slot_set_at _ _ _ _ Hset Hs' Hr) as Hat.
  assert (∀ j, 0 ≤ j < size → j ≠ i → At t'' j = At t' j) as Hother.
  { intros j Hj Hne. destruct Hset as (_ & _ & ->). rewrite decide_False; [done|].
    rewrite Wrap_small; [done|done|lia]. }
  assert (alive (At t' i) = false ∧ tomb (At t' i) = false ∧ retained (At t' i) = false) as (Ha0 & Ht0 & Hr0)
    by (unfold alive, tomb, retained; by rewrite Hfree).
  assert (tomb (At t (Idx x)) = false) as Htx.
  { unfold alive in Ha. unfold tomb. apply andb_true_iff in Ha as [_ Hd%negb_true_iff]. by rewrite Hd, andb_false_r. }
  rewrite Ha, Ha0 in Hn1. rewrite Ht0, Htx in Hn2. assert (charge c (At t' i) = 0) as Hc0 by (unfold charge; by rewrite Ha0).
  cbn [Z.b2z] in Hn1, Hn2.
  exists t'', i. split; [done|]. split.
  - do 2 f_equal. lia.
  - done.
  - lia.
  - lia.
  - rewrite sum_snoc, <- Hlive, Ha. cbn [Z.b2z]. lia.
  - rewrite sum_snoc, <- Hw. lia.
  - split.
    + rewrite fmap_app. apply NoDup_app. split_and!; [done| |apply NoDup_singleton].
      intros j Hj ->%list_elem_of_singleton. apply Hq' in Hj as [_ Hj]. cbn in Hj. congruence.
    + intros j. rewrite fmap_app, elem_of_app, Hq', Hl''. cbn. rewrite list_elem_of_singleton.
      destruct (decide (j = i)) as [->|Hne].
      * rewrite Hat. pose proof (alive_retained _ Ha). tauto.
      * split; [intros [[? ?]|]; [|done]|intros [? Hret]; left]; rewrite Hother in * by lia; done.
  - intros y Hy Hay. apply elem_of_app in Hy as [Hy| ->%list_elem_of_singleton].
    + destruct (Hto y Hy Hay) as (j & Hj & E). exists j. split; [done|]. rewrite Hother; [done|done|].
      intros ->. congruence.
    + exists i. split; [lia|done].
  - intros j Hj Haj. destruct (decide (j = i)) as [->|Hne].
    + exists x. split; [set_solver|done].
    + rewrite Hother in * by done. destruct (Hfrom j Hj Haj) as (y & Hy & E). exists y. split; [set_solver|done].
Qed.

(** A node of a dead slot is dropped, a live one copied. *)
Lemma copied_step l l1 x l2 outs st t' :
  queue_ok t l → l = l1 ++ x :: l2 → copied l1 outs st t' →
  match remapLive hash t st (Idx x) with
  | (st', Some i) => ∃ t'', copied (l1 ++ [x]) (outs ++ [mkQNode i (Cost x)]) st' t''
  | (st', None) => ∃ t'', copied (l1 ++ [x]) outs st' t''
  end.
Proof.
  intros Hq El Hcp. pose proof (cp_st _ _ _ _ Hcp) as ->.
  destruct (node_facts l l1 x l2 Hq El) as (_ & Hret & _ & _).
  assert (alive (At t (Idx x)) = negb (f_dead (decode (meta (At t (Idx x)))))) as Hal.
  { unfold alive. by rewrite (retained_occupied _ Hret). }
  unfold remapLive, Metadata. rewrite dead_test.
  destruct (f_dead (decode (meta (At t (Idx x))))) eqn:Hd; cbn [negb] in Hal.
  - destruct Hcp as [_ Hi' Hsz Htomb Hlive Hw Hnodes Hto Hfrom]. exists t'. split; try done.
    + rewrite sum_snoc, Hal, Hlive. cbn [Z.b2z]. lia.
    + rewrite sum_snoc, Hw. unfold charge at 3. rewrite Hal. lia.
    + intros y Hy Hay. apply Hto; [|done].
      apply elem_of_app in Hy as [| ->%list_elem_of_singleton]; [done|congruence].
    + intros i Hr Ha. destruct (Hfrom i Hr Ha) as (y & Hy & E). exists y. split; [set_solver|done].
  - destruct (copied_insert l l1 x l2 outs t' Hq El Hcp Hal) as (t'' & i & HI & Hcp').
    unfold ikey in HI. rewrite HI. by exists t''.
Qed.

(** The whole rebuild. *)
Lemma rebuild_copies l :
  (∃ n, 6 ≤ n ≤ 32 ∧ size = 2 ^ n) → queue_ok t l →
  ∃ t', let r := rebuildList (remapLive hash t) (λ a _, a) l (Some (NewFlatHashMap size, 0)) in
    r.2 = Some (t', nLive t) ∧ table_inv hash t' ∧ tLen t' = size ∧ nTomb t' = 0 ∧
    nLive t' = nLive t ∧ sumW c t' = sumW c t ∧ queue_ok t' r.1 ∧ ∀ k, content t' k = content t k.
Proof.
  intros Hn Hq.
  destruct (rebuildList_ind (remapLive hash t) (λ l1 outs st, ∃ t', copied l1 outs st t')
    l (Some (NewFlatHashMap size, 0))) as (t' & [Hst Hi' Hsz Htomb Hlive Hw Hnodes Hto Hfrom]).
  { eexists. by apply copied_start. }
  { intros l1 x l2 outs st El (t' & Hcp). by apply (copied_step l l1 x l2 outs st t'). }
  assert (∀ f : Z → Z, (∀ i, 0 ≤ i < tLen t → alive (At t i) = false → f i = 0) →
    sumZ f (slots t) = sumZ f (Idx <$> l)) as Hsum.
  { intros f Hf. destruct Hq as [Hnd Hq]. apply sumZ_sub; [apply NoDup_slots|done|..].
    - intros i Hi. apply elem_of_slots. by apply Hq.
    - intros i Hi%elem_of_slots Hno. apply Hf; [done|]. destruct (alive (At t i)) eqn:Ha; [|done].
      destruct Hno. apply Hq. split; [done|]. by apply alive_retained. }
  assert (nLive t' = nLive t) as Hl.
  { rewrite Hlive. symmetry. apply Hsum. intros i _ Ha. by rewrite Ha. }
  exists t'. cbv zeta. rewrite <- Hl at 1. split_and!; try done.
  - rewrite Hw. symmetry. apply Hsum. intros i _ Ha. unfold charge. by rewrite Ha.
  - intros k. apply option_eq. intros v. rewrite !(content_Some hash) by done. rewrite Hsz. split.
    + intros (i & Hr & Ha & Hk & Hv). destruct (Hfrom i Hr Ha) as (x & Hx & E). exists (Idx x).
      rewrite <- E. split; [|done]. apply (proj2 Hq). by apply list_elem_of_fmap_2.
    + intros (i & Hr & Ha & Hk & Hv).
      assert (i ∈ Idx <$> l) as (x & -> & Hx)%list_elem_of_fmap.
      { apply (proj2 Hq). split; [done|]. by apply alive_retained. }
      destruct (Hto x Hx Ha) as (j & Hj & E). exists j. rewrite E. done.
Qed.

End Copy.
End Rebuild.
