(* ===== verification/ShardInv.v ===== *)
(** * The invariant of a shard, and the operations that remove items

    [shard_wf] ties the table, the policy's nodes and the counters of a shard together;
    [shard_inv] adds the load limit of the table and the weight limit of the shard.  This file
    proves that killing, sweeping, evicting and rebuilding keep it, and exactly which keys go. *)

From S2P Require Import Prelude Item Queue Table TableInv Policy Shard Lookup ShardSteps Rebuild.

(** What the deletion handler is told about [gone]: nothing when no handler is set. *)
Definition logged {K V} (c : Env K V) (gone : list (deletion K V)) : list (deletion K V) :=
  if onDeletion c then gone else [].

Section Removed.
Context {K V : Type} `{!EqDecision K}.
Implicit Types (gone : list (deletion K V)) (k : K) (m : K → option (V * Z)).

(** The keys of [gone] left the map [m], each with the value it had; nothing else changed. *)
Record removed (m m' : K → option (V * Z)) gone : Prop := {
  rm_nodup : NoDup (dkey <$> gone);
  rm_had d : d ∈ gone → fst <$> m (dkey d) = Some (dvalue d);
  rm_after k : m' k = if decide (k ∈ dkey <$> gone) then None else m k
}.

Lemma removed_nil m m' : (∀ k, m' k = m k) → removed m m' [].
Proof. intros H. split; [constructor|set_solver|]. intros k. by rewrite H, decide_False by set_solver. Qed.

Lemma removed_trans m1 m2 m3 g1 g2 : removed m1 m2 g1 → removed m2 m3 g2 → removed m1 m3 (g1 ++ g2).
Proof.
  intros [N1 H1 A1] [N2 H2 A2].
  assert (∀ d, d ∈ g2 → dkey d ∉ dkey <$> g1) as Hdis.
  { intros d Hd Hin. specialize (H2 d Hd). rewrite A1, decide_True in H2 by done. done. }
  split.
  - rewrite fmap_app. apply NoDup_app. split_and!; [done| |done].
    intros k Hk (d & -> & Hd)%list_elem_of_fmap. by apply (Hdis d).
  - intros d [Hd|Hd]%elem_of_app; [by apply H1|].
    specialize (H2 d Hd). rewrite A1, decide_False in H2 by (by apply Hdis). done.
  - intros k. rewrite fmap_app, A2, A1. repeat case_decide; set_solver.
Qed.

End Removed.

Section ShardInv.
Context {K V P : Type} `{!EqDecision K} `{!GoType K} `{!GoType V}.
Context `{!EvictionPolicy K V P} `{!PolicyLaws K V P}.
Context (hash : K → Z) (c : Env K V).
Implicit Types (t : FlatHashMap K V) (sh : shard K V P) (k : K) (gone : list (deletion K V)).

(** [delta] is weight already in the table and not yet in the counter. *)
Record shard_wf sh (delta : Z) : Prop := {
  sw_table : table_inv hash (items sh);
  sw_policy : pInv (K := K) (V := V) (policy sh);
  sw_nodes : queue_ok (items sh) (pNodes (K := K) (V := V) (policy sh));
  sw_live : live sh = nLive (items sh);
  sw_dirty : dirty sh = nTomb (items sh);
  sw_weight : weight sh + delta = sumW c (items sh);
  sw_dead : 0 ≤ deadCount sh
}.

Definition loaded sh : Prop := (live sh + dirty sh) * 4 < tLen (items sh) * 3.

Record shard_inv sh : Prop := {
  si_wf : shard_wf sh 0;
  si_load : loaded sh;
  si_cap : 0 ≤ weight sh ≤ cap sh
}.

Lemma wf_shape sh delta : shard_wf sh delta → table_shape (items sh).
Proof. intros H. by apply (ti_shape hash), H. Qed.

Lemma wf_load sh delta : shard_wf sh delta → loaded sh → occ (items sh) * 4 < tLen (items sh) * 3.
Proof. intros H Hl. rewrite occ_split, <- (sw_live _ _ H), <- (sw_dirty _ _ H). exact Hl. Qed.

(** ** Removals *)

Definition costs gone : Z := foldr (λ d a, rawCost c (dkey d) (dvalue d) + a) 0 gone.

Lemma costs_app g1 g2 : costs (g1 ++ g2) = costs g1 + costs g2.
Proof. induction g1 as [|d g1 IH]; cbn; [done|]. fold (costs (g1 ++ g2)) (costs g1). lia. Qed.

Lemma logged_nil : logged c [] = [].
Proof. unfold logged. by destruct (onDeletion c). Qed.

Lemma logged_app g1 g2 : logged c (g1 ++ g2) = logged c g1 ++ logged c g2.
Proof. unfold logged. by destruct (onDeletion c). Qed.

Lemma addDeletion_logged ds k v cause :
  addDeletion c ds k v cause = ds ++ logged c [mkDeletion k v cause].
Proof. unfold addDeletion, logged. destruct (onDeletion c); [done|by rewrite app_nil_r]. Qed.

(** The common form of the results below. *)
Record shrunk (delta : Z) sh sh' gone : Prop := {
  sk_wf : shard_wf sh' delta;
  sk_removed : removed (content (items sh)) (content (items sh')) gone;
  sk_cap : cap sh' = cap sh;
  sk_load : loaded sh → loaded sh';
  sk_weight : weight sh' = weight sh - costs gone
}.

Lemma shrunk_refl delta sh : shard_wf sh delta → shrunk delta sh sh [].
Proof. intros H. split; [done|by apply removed_nil|done|done|cbn; lia]. Qed.

Lemma shrunk_trans delta s1 s2 s3 g1 g2 :
  shrunk delta s1 s2 g1 → shrunk delta s2 s3 g2 → shrunk delta s1 s3 (g1 ++ g2).
Proof.
  intros [W1 R1 C1 L1 S1] [W2 R2 C2 L2 S2]. split; [done|by eapply removed_trans|congruence|by auto|].
  rewrite costs_app. lia.
Qed.

(** ** Sweeping *)

Lemma sweep_frees t (l : list Z) :
  table_inv hash t → NoDup l → (∀ i, i ∈ l → 0 ≤ i < tLen t ∧ tomb (At t i) = true) →
  let t' := foldl (λ t i, alterAt t i MakeFree) t l in
  table_inv hash t' ∧ same_live t t' ∧
  (∀ i, 0 ≤ i < tLen t → retained (At t' i) = retained (At t i) && negb (bool_decide (i ∈ l))).
Proof.
  revert t. induction l as [|p l IH]; intros t Hi Hnd Hl; cbn [foldl].
  { split_and!; [done|done|]. intros i Hr. by rewrite bool_decide_eq_false_2, andb_true_r by set_solver. }
  apply NoDup_cons in Hnd as [Hp Hnd]. destruct (Hl p) as [Hpr Hpt]; [set_solver|].
  destruct (free_step hash t p Hi Hpr Hpt) as (Hi' & Hsl & Hret & _).
  destruct (IH (alterAt t p MakeFree)) as (Hi'' & Hsl' & Hret'); [done|done| |].
  { intros i Hin. destruct (Hl i) as [Hr Ht]; [set_solver|].
    destruct Hsl as [Hlen HA]. rewrite Hlen. destruct (HA i) as (_ & -> & _). done. }
  split_and!; [done|by etrans|]. intros i Hr. destruct Hsl as [Hlen _].
  rewrite Hret', Hret by (rewrite ?Hlen; done). rewrite <- andb_assoc. f_equal.
  destruct (Z.eqb_spec i p); cbn [negb andb]; repeat case_bool_decide; set_solver.
Qed.

Lemma isDead_tomb t i : retained (At t i) = true → isDead t i = tomb (At t i).
Proof. intros Hr. unfold isDead, tomb. by rewrite dead_test, (retained_occupied _ Hr). Qed.

(** A sweep drops exactly the nodes of the dead and frees their slots. *)
Lemma sweep_ok sh delta :
  shard_wf sh delta →
  ∃ p' t', pSweep (policy sh) (items sh) (λ t idx, alterAt t idx MakeFree) = (p', t') ∧
    pInv (K := K) (V := V) p' ∧ queue_ok t' (pNodes (K := K) (V := V) p') ∧
    table_inv hash t' ∧ same_live (items sh) t'.
Proof.
  intros [Hi Hp [Hnd Hq] _ _ _ _].
  destruct (pSweep_laws (policy sh) (items sh) (λ t idx, alterAt t idx MakeFree))
    as (l & p' & E & Hp' & El & En); [done|by eapply ti_shape|..].
  { intros t i Hs. split; [by apply shape_alterAt|]. intros j. unfold isDead. rewrite !dead_test.
    rewrite At_alterAt by done. case_decide; [|done]. by rewrite MakeFree_fields. }
  assert (NoDup (Idx <$> l)) as Hndl.
  { rewrite El. eapply sublist_NoDup; [exact Hnd|]. apply fmap_sublist, sublist_filter. }
  destruct (sweep_frees (items sh) (Idx <$> l)) as (Hi' & Hsl & Hret); [done|done| |].
  { intros i (n & -> & Hn)%list_elem_of_fmap. rewrite El in Hn. apply list_elem_of_filter in Hn as [Hd Hn].
    destruct (Hq (Idx n)) as [[Hr Hre] _]; [by apply list_elem_of_fmap_2|]. split; [done|].
    by rewrite <- isDead_tomb. }
  exists p', (foldl (λ t i, alterAt t i MakeFree) (items sh) (Idx <$> l)).
  split_and!; [done|done| |done|done]. split.
  - rewrite En. eapply sublist_NoDup; [exact Hnd|]. apply fmap_sublist, sublist_filter.
  - intros i. destruct Hsl as [Hlen _]. rewrite En, Hlen. split.
    + intros (n & -> & [Hd Hn]%list_elem_of_filter)%list_elem_of_fmap.
      destruct (Hq (Idx n)) as [[Hr Hre] _]; [by apply list_elem_of_fmap_2|]. split; [done|].
      rewrite Hret, Hre, bool_decide_eq_false_2; [done| |done]. rewrite El.
      intros (m & E' & [Hdm _]%list_elem_of_filter)%list_elem_of_fmap. congruence.
    + intros [Hr Hre]. rewrite Hret in Hre by done. apply andb_true_iff in Hre as [Hre Hno].
      apply negb_true_iff, bool_decide_eq_false in Hno.
      pose proof (proj2 (Hq i) (conj Hr Hre)) as (n & -> & Hn)%list_elem_of_fmap.
      apply list_elem_of_fmap_2, list_elem_of_filter. split; [|done].
      destruct (isDead (items sh) (Idx n)) eqn:E'; [|done]. destruct Hno. rewrite El.
      by apply list_elem_of_fmap_2, list_elem_of_filter.
Qed.

(** ** noteDead and killAt *)

Lemma noteDead_spec sh delta :
  shard_wf sh delta → shrunk delta sh (noteDead sh) [].
Proof.
  intros Hwf. pose proof Hwf as [Hi Hp Hq Hl Hd Hw Hdc]. unfold noteDead. case_match.
  - destruct (sweep_ok sh delta Hwf) as (p' & t' & -> & Hp' & Hq' & Hi' & Hsl).
    destruct (same_live_counts c _ _ Hsl) as (E1 & E2 & E3).
    split; [split|..]; cbn [items policy live dirty weight deadCount cap]; try congruence; try done.
    + apply removed_nil. intros k. by apply (same_live_content hash).
    + unfold loaded. cbn [items live dirty]. destruct Hsl as [-> _]. done.
    + cbn. lia.
  - split; [split|..]; cbn [items policy live dirty weight deadCount cap]; try done; try lia.
    + by apply removed_nil.
    + cbn. lia.
Qed.

(** What a kill does to the contents and the counts. *)
Lemma kill_effect t p cause :
  table_inv hash t → 0 ≤ p < tLen t → alive (At t p) = true →
  let t' := killSlot t (hash (ikey (At t p))) p in
  removed (content t) (content t') [mkDeletion (ikey (At t p)) (ival (At t p)) cause] ∧ tLen t' = tLen t ∧
  nLive t' = nLive t - 1 ∧ nTomb t' = nTomb t + 1 ∧
  sumW c t' = sumW c t - rawCost c (ikey (At t p)) (ival (At t p)).
Proof.
  intros Hi Hp Ha t'. pose proof (ti_shape _ _ Hi) as Hs.
  destruct (kill_step hash t p Hi Hp Ha) as (Hi' & Hset & _ & Ha' & Ht'). fold t' in Hi', Hset, Ha', Ht'.
  rewrite (slot_set_at _ _ _ _ Hset) in Ha', Ht' by done.
  destruct (counts_slot_set c _ _ _ _ Hs Hp Hset) as (E1 & E2 & E3).
  assert (tomb (At t p) = false) as Ht.
  { unfold tomb. unfold alive in Ha. apply andb_true_iff in Ha as [_ Hd%negb_true_iff]. by rewrite Hd, andb_false_r. }
  rewrite Ha, Ha' in E1. rewrite Ht, Ht' in E2. unfold charge in E3. rewrite Ha, Ha' in E3.
  cbn [Z.b2z] in *. split_and!; [|by destruct (slot_set_geometry hash _ _ _ _ Hset)|lia|lia|lia].
  split; cbn.
  - apply NoDup_singleton.
  - intros d ->%list_elem_of_singleton. cbn. unfold content.
    by rewrite (slotOf_Some hash t _ p).
  - intros k. rewrite (content_update hash t t' p _ k Hi Hi' Hp Hset), Ha', Ha. cbn [andb].
    case_bool_decide; case_decide as E; rewrite list_elem_of_singleton in E; congruence.
Qed.

(** The shard with its live slot [p] killed and accounted. *)
Definition killed sh (p : Z) : shard K V P :=
  let it := At (items sh) p in
  mkShard (killSlot (items sh) (hash (ikey it)) p) (policy sh) (weight sh - rawCost c (ikey it) (ival it))
    (cap sh) (live sh - 1) (dirty sh + 1) (deadCount sh).

Lemma killed_shrunk sh delta p cause :
  shard_wf sh delta → 0 ≤ p < tLen (items sh) → alive (At (items sh) p) = true →
  shrunk delta sh (killed sh p) [mkDeletion (ikey (At (items sh) p)) (ival (At (items sh) p)) cause].
Proof.
  intros [Hi Hp Hq Hl Hd Hw Hdc] Hr Ha.
  destruct (kill_effect (items sh) p cause Hi Hr Ha) as (Hrm & Hlen & E1 & E2 & E3).
  destruct (kill_step hash (items sh) p Hi Hr Ha) as (Hi' & _ & Hret & _).
  split; [split|..]; cbn [killed items policy live dirty weight deadCount cap]; try done; try lia.
  - by apply (queue_ok_retained (items sh)).
  - unfold loaded. cbn [killed items live dirty]. cbv zeta in Hlen. rewrite Hlen. lia.
  - cbn. lia.
Qed.

(** [killAt] on a live slot. *)
Lemma killAt_spec sh delta p cause ds :
  shard_wf sh delta → 0 ≤ p < tLen (items sh) → alive (At (items sh) p) = true →
  let d := mkDeletion (ikey (At (items sh) p)) (ival (At (items sh) p)) cause in
  ∃ sh', killAt c sh (hash (dkey d)) p cause ds = (sh', ds ++ logged c [d]) ∧ shrunk delta sh sh' [d].
Proof.
  intros Hwf Hr Ha d. pose proof (killed_shrunk sh delta p cause Hwf Hr Ha) as Hsk.
  exists (noteDead (killed sh p)). split.
  - unfold killAt. rewrite addDeletion_logged. done.
  - change [d] with ([d] ++ []). eapply shrunk_trans; [exact Hsk|]. apply noteDead_spec, Hsk.
Qed.

(** [deleteLocked]: the key goes if it is there. *)
Lemma deleteLocked_spec sh delta k cause ds :
  shard_wf sh delta → loaded sh →
  let gone := match content (items sh) k with
    | Some (v, _) => [mkDeletion k v cause] | None => [] end in
  ∃ sh', deleteLocked c sh (hash k) k cause ds = Some (sh', ds ++ logged c gone) ∧ shrunk delta sh sh' gone.
Proof.
  intros Hwf Hload gone. unfold deleteLocked.
  rewrite (findSlot_spec hash) by (apply Hwf || by eapply wf_load).
  unfold gone, content. destruct (slotOf (items sh) k) as [i|] eqn:E; cbn [fmap option_fmap option_map].
  - apply slotOf_Some_1 in E as (Hr & Ha & <-).
    destruct (killAt_spec sh delta i cause ds Hwf Hr Ha) as (sh' & E & Hsk). exists sh'. split; [by f_equal|done].
  - exists sh. split; [|by apply shrunk_refl]. by rewrite logged_nil, app_nil_r.
Qed.

(** ** Eviction *)

Lemma queue_ok_drop t t' (n : QNode) (l l' : list QNode) :
  queue_ok t l → l ≡ₚ n :: l' → tLen t' = tLen t →
  (∀ j, 0 ≤ j < tLen t → retained (At t' j) = retained (At t j) && negb (j =? Idx n)) → queue_ok t' l'.
Proof.
  intros Hq Hl Hlen Hret. apply (queue_ok_perm _ _ _ Hl) in Hq as [Hnd Hq]. cbn in Hnd, Hq.
  apply NoDup_cons in Hnd as [Hno Hnd]. split; [done|]. intros j. rewrite Hlen. specialize (Hq j).
  rewrite elem_of_cons in Hq. split.
  - intros Hj. destruct (proj1 Hq (or_intror Hj)) as [Hr Hre]. split; [done|]. rewrite Hret, Hre by done.
    apply negb_true_iff, Z.eqb_neq. intros ->. done.
  - intros [Hr Hre]. rewrite Hret in Hre by done. apply andb_true_iff in Hre as [Hre Hne%negb_true_iff%Z.eqb_neq].
    destruct (proj2 Hq (conj Hr Hre)); done.
Qed.

Lemma Kill_killed (it : Item K V) : (Kill it).2 = negb (f_dead (decode (meta it))).
Proof. unfold Kill. cbn [snd]. apply alive_test. Qed.

(** The slot of a dequeued victim: killed if it was alive, then free either way. *)
Lemma free_victim sh sh1 p' i q gone :
  shard_wf sh1 0 → shrunk 0 sh sh1 gone → tomb (At (items sh1) i) = true →
  pInv (K := K) (V := V) p' → pNodes (K := K) (V := V) (policy sh1) ≡ₚ mkQNode i q :: pNodes (K := K) (V := V) p' →
  0 ≤ i < tLen (items sh1) →
  let sh2 := mkShard (alterAt (items sh1) i MakeFree) p' (weight sh1) (cap sh1) (live sh1) (dirty sh1) (deadCount sh1) in
  shrunk 0 sh sh2 gone.
Proof.
  intros Hwf Hsk Ht Hp' Hn Hr sh2. pose proof Hwf as [Hi Hp Hq Hl Hd Hw Hdc].
  destruct (free_step hash _ _ Hi Hr Ht) as (Hi' & Hsl & Hret & _).
  destruct (same_live_counts c _ _ Hsl) as (E1 & E2 & E3).
  replace gone with (gone ++ []) by apply app_nil_r. eapply shrunk_trans; [exact Hsk|].
  split; [split|..]; cbn [sh2 items policy live dirty weight deadCount cap]; try congruence; try done.
  - eapply queue_ok_drop; [exact Hq|exact Hn|by destruct Hsl|exact Hret].
  - apply removed_nil. intros k. by apply (same_live_content hash).
  - unfold loaded. cbn [sh2 items live dirty]. by destruct Hsl as [-> _].
  - cbn. lia.
Qed.

(** Reference counters may change under the policy's hands: nothing else does. *)
Lemma fewer_shrunk sh t' :
  shard_wf sh 0 → fewer_table (items sh) t' → shrunk 0 sh (withItems sh t') [].
Proof.
  intros [Hi Hp Hq Hl Hd Hw Hdc] Hf. pose proof (fewer_same_table hash _ _ Hi Hf) as Hst.
  pose proof (same_table_inv hash _ _ Hst Hi) as Hi'. pose proof (fewer_same_live hash _ _ Hi Hf) as Hsl.
  destruct (same_live_counts c _ _ Hsl) as (E1 & E2 & E3).
  split; [split|..]; cbn [withItems items policy live dirty weight deadCount cap]; try congruence; try done.
  - by apply (queue_ok_same hash (items sh)).
  - apply removed_nil. intros k. by apply (same_live_content hash).
  - unfold loaded. cbn [withItems items live dirty]. by destruct Hsl as [-> _].
  - cbn. lia.
Qed.

Lemma Kill_again (it : Item K V) : f_dead (decode (meta it)) = true → (Kill it).1 = it.
Proof.
  intros Hd. destruct it as [m e]. cbn in *. f_equal. rewrite <- (Z.lor_0_r m) at 2.
  apply Z.bits_inj'. intros j Hj. rewrite !Z.lor_spec, testbit_Dead, Z.testbit_0_l.
  destruct (Z.eqb_spec j 63) as [->|]; [by rewrite Hd|done].
Qed.

Definition evicted (d : deletion K V) : Prop := dcause d = CauseEviction ∨ dcause d = CauseExpiration.

(** One turn of the eviction loop. *)
Lemma evictVictim_spec sh t' p' i q ds :
  shard_wf sh 0 → fewer_table (items sh) t' → pInv (K := K) (V := V) p' →
  pNodes (K := K) (V := V) (policy sh) ≡ₚ mkQNode i q :: pNodes (K := K) (V := V) p' →
  let sh1 := mkShard t' p' (weight sh) (cap sh) (live sh) (dirty sh) (deadCount sh) in
  ∃ sh2 gone, evictVictim hash c sh1 i ds = (sh2, ds ++ logged c gone) ∧
    shrunk 0 sh sh2 gone ∧ policy sh2 = p' ∧ Forall evicted gone.
Proof.
  intros Hwf Hf Hp' Hn sh1. pose proof (fewer_shrunk sh t' Hwf Hf) as Hsk0.
  pose proof (sk_wf _ _ _ _ Hsk0) as Hwf0. pose proof Hwf0 as [Hi Hp Hq Hl Hd Hw Hdc].
  cbn [withItems items policy live dirty weight deadCount cap] in *.
  destruct (queue_ok_perm _ _ _ Hn Hq) as [_ Hq']. destruct (proj1 (Hq' i)) as [Hr Hret]; [cbn; set_solver|].
  pose proof (retained_occupied _ Hret) as Hocc. unfold evictVictim.
  rewrite (surjective_pairing (Kill _)), Kill_killed. cbn [sh1 items].
  destruct (f_dead (decode (meta (At t' i)))) eqn:Edead; cbn [negb].
  - exists (mkShard (alterAt (alterAt t' i (λ it, (Kill it).1)) i MakeFree) p' (weight sh) (cap sh)
      (live sh) (dirty sh) (deadCount sh)), [].
    split_and!; [|..|done|constructor].
    { by rewrite logged_nil, app_nil_r. }
    assert (fewer_table t' (alterAt t' i (λ it, (Kill it).1))) as Hf'.
    { apply fewer_alterAt; [by eapply ti_shape|]. by rewrite Kill_again. }
    pose proof (fewer_shrunk sh _ Hwf ltac:(by etrans)) as Hsk1.
    apply (free_victim sh (withItems sh (alterAt t' i (λ it, (Kill it).1))) p' i q []); try done.
    + apply Hsk1.
    + cbn [withItems items]. rewrite At_alterAt, decide_True by (done || by eapply ti_shape).
      rewrite Kill_again by done. unfold tomb. by rewrite Hocc, Edead.
    + cbn [withItems items]. unfold tLen. by rewrite mask_alterAt.
  - set (d := mkDeletion (ikey (At t' i)) (ival (At t' i))
      (if Expired (Metadata (Kill (At t' i)).1) (nowOff c) then CauseExpiration else CauseEviction)).
    assert (alive (At t' i) = true) as Ha by (unfold alive; by rewrite Hocc, Edead).
    pose proof (killed_shrunk (withItems sh t') 0 i (dcause d) Hwf0 Hr Ha) as Hsk1.
    destruct (kill_step hash t' i Hi Hr Ha) as (_ & Hset & _ & _ & Ht).
    exists (mkShard (alterAt (items (killed (withItems sh t') i)) i MakeFree) p' (weight sh - rawCost c (dkey d) (dvalue d))
      (cap sh) (live sh - 1) (dirty sh + 1) (deadCount sh)), [d].
    split_and!; [|..|done|].
    + rewrite addDeletion_logged. done.
    + apply (free_victim sh (killed (withItems sh t') i) p' i q [d]); try done.
      * apply Hsk1.
      * change [d] with ([] ++ [d]). by eapply shrunk_trans.
      * cbn [killed withItems items]. by destruct (slot_set_geometry hash _ _ _ _ Hset) as (-> & _).
    + constructor; [|constructor]. unfold evicted. cbn. case_match; auto.
Qed.

(** With no node left there is no live item, so the weight is 0. *)
Lemma no_nodes_weight sh : shard_wf sh 0 → pNodes (K := K) (V := V) (policy sh) = [] → weight sh = 0.
Proof.
  intros [_ _ [_ Hq] _ _ Hw _] E. rewrite E in Hq. rewrite Z.add_0_r in Hw. rewrite Hw. unfold sumW.
  rewrite (sumZ_ext _ (λ _, 0)); [by rewrite sumZ_const|]. intros i Hi%elem_of_slots. unfold charge.
  destruct (alive (At (items sh) i)) eqn:Ha; [|done]. apply alive_retained in Ha.
  pose proof (proj2 (Hq i) (conj Hi Ha)). set_solver.
Qed.

Lemma evictLoop_spec fuel : ∀ sh ds,
  shard_wf sh 0 → 0 ≤ cap sh → (length (pNodes (K := K) (V := V) (policy sh)) < fuel)%nat →
  ∃ sh' gone, evictLoop hash fuel c sh ds = Some (sh', ds ++ logged c gone) ∧
    shrunk 0 sh sh' gone ∧ Forall evicted gone ∧ weight sh' ≤ cap sh'.
Proof.
  induction fuel as [|fuel IH]; intros sh ds Hwf Hcap Hfuel; [lia|]. cbn [evictLoop].
  destruct (Z.ltb_spec (cap sh) (weight sh)) as [Hlt|Hge].
  2:{ exists sh, []. rewrite logged_nil, app_nil_r. split_and!; [done|by apply shrunk_refl|constructor|done]. }
  destruct (pEvict_laws (policy sh) (items sh) (nowOff c)) as (p' & t' & r & E & Hp' & Hf & Hr);
    [apply Hwf|by eapply wf_shape|]. rewrite E. destruct r as [i|].
  2:{ destruct Hr as [Hn _]. pose proof (no_nodes_weight sh Hwf Hn). lia. }
  destruct Hr as [[q Hn] _].
  destruct (evictVictim_spec sh t' p' i q ds Hwf Hf Hp' Hn) as (sh2 & g1 & E2 & Hsk & Ep & Hg1). rewrite E2.
  destruct (IH sh2 (ds ++ logged c g1)) as (sh3 & g2 & E3 & Hsk3 & Hg2 & Hw).
  - apply Hsk.
  - by rewrite (sk_cap _ _ _ _ Hsk).
  - rewrite Ep. apply Permutation_length in Hn. cbn in Hn. lia.
  - exists sh3, (g1 ++ g2). rewrite logged_app, app_assoc.
    split_and!; [done|by eapply shrunk_trans|by apply Forall_app|done].
Qed.

Lemma evictShard_spec sh ds :
  shard_wf sh 0 → 0 ≤ cap sh →
  ∃ sh' gone, evictShard hash c sh ds = Some (sh', ds ++ logged c gone) ∧
    shrunk 0 sh sh' gone ∧ Forall evicted gone ∧ weight sh' ≤ cap sh'.
Proof.
  intros Hwf Hcap. apply evictLoop_spec; [done|done|]. rewrite <- (pLen_laws (policy sh)); [lia|]. apply Hwf.
Qed.

(** ** Rebuilding *)

Lemma shape_pow t : table_shape t → ∃ n, 6 ≤ n ≤ 32 ∧ tLen t = 2 ^ n.
Proof. intros (n & Hn & Hm & _). exists n. split; [done|]. by apply tLen_pow. Qed.

(** The size of the new table is a power of two again, and leaves room. *)
Lemma rebuild_size t n :
  table_shape t → n ≤ tLen t → n < 2 ^ 31 →
  let size := if tLen t <=? n * 2 then tLen t * 2 else tLen t in
  (∃ m, 6 ≤ m ≤ 32 ∧ size = 2 ^ m) ∧ n * 4 < size * 3.
Proof.
  intros Hs Hn Hb size. destruct (shape_pow t Hs) as (m & Hm & E). pose proof (tLen_pos t Hs).
  subst size. destruct (Z.leb_spec (tLen t) (n * 2)) as [Hle|Hgt]; [|split; [by exists m|lia]].
  split; [|lia]. exists (m + 1). rewrite Z.pow_add_r, <- E by lia. split; [|lia].
  assert (m ≠ 32); [|lia]. intros ->. lia.
Qed.

Record rebuilt (delta : Z) sh sh' : Prop := {
  rb_wf : shard_wf sh' delta;
  rb_load : loaded sh';
  rb_content k : content (items sh') k = content (items sh) k;
  rb_weight : weight sh' = weight sh;
  rb_cap : cap sh' = cap sh;
  rb_live : live sh' = live sh
}.

Lemma nLive_le_tLen t : table_shape t → nLive t ≤ tLen t.
Proof. intros Hs. pose proof (occ_range t Hs). rewrite occ_split in *. pose proof (nTomb_nonneg t). lia. Qed.

Lemma maybeRebuild_spec sh delta :
  shard_wf sh delta → live sh < 2 ^ 31 → ∃ sh', maybeRebuild hash sh = Some sh' ∧ rebuilt delta sh sh'.
Proof.
  intros Hwf Hb. pose proof Hwf as [Hi Hp Hq Hl Hd Hw Hdc]. pose proof (wf_shape _ _ Hwf) as Hs.
  unfold maybeRebuild. destruct (Z.ltb_spec ((live sh + dirty sh) * 4) (tLen (items sh) * 3)) as [Hlt|Hge].
  { exists sh. split; [done|]. by split. }
  destruct (rebuild_size (items sh) (live sh) Hs) as [Hsize Hroom]; [by rewrite Hl; apply nLive_le_tLen|done|].
  set (size := if tLen (items sh) <=? live sh * 2 then _ else _) in *.
  destruct (pRebuild_laws _ (policy sh) (remapLive hash (items sh)) (Some (NewFlatHashMap size, 0)) Hp)
    as (l & p' & El & E & Hp' & En).
  destruct (rebuild_copies hash c (items sh) size Hi) with l as (t' & Er & Hi' & Hlen & Ht & Hl' & Hw' & Hq' & Hc).
  { lia. }
  { done. }
  { by eapply queue_ok_perm; [symmetry|]. }
  rewrite E, Er. eexists. split; [done|].
  split; [split|..]; cbn [items policy live dirty weight deadCount cap]; try done; try lia.
  - by eapply queue_ok_perm; [symmetry|].
  - unfold loaded. cbn [items live dirty]. lia.
Qed.

End ShardInv.
