(* ===== verification/SetMemory.v ===== *)
(** * setMemory: storing a key

    The probe loop ends in one of three stores (a new slot, a resurrected tombstone, an overwrite in
    place); each is shown to put exactly the new cell into the table, and the eviction that may
    follow brings the weight back under the capacity. *)

From S2P Require Import Prelude Item Queue Table TableInv Policy Shard Lookup ShardSteps Rebuild ShardInv.

Section SetMemory.
Context {K V P : Type} `{!EqDecision K} `{!GoType K} `{!GoType V}.
Context `{!EvictionPolicy K V P} `{!PolicyLaws K V P}.
Context (hash : K → Z) (c : Env K V).
Implicit Types (t : FlatHashMap K V) (sh : shard K V P) (k : K) (gone : list (deletion K V)).

(** No retained slot other than [p] has the key, and the way to [p] is occupied. *)
Definition slot_for t (p : Z) k : Prop :=
  0 ≤ p < tLen t ∧ alive (At t p) = false ∧
  (∀ d, 0 ≤ d < (p - homeOf hash t k) mod tLen t → occupied (At t (homeOf hash t k + d)) = true) ∧
  (∀ j, 0 ≤ j < tLen t → j ≠ p → retained (At t j) = true → ikey (At t j) ≠ k).

Lemma publish_effect t pos k v x :
  let p := Wrap t pos in
  table_inv hash t → occ t * 4 < tLen t * 3 → 0 ≤ x < 2 ^ 18 → slot_for t p k →
  let t' := publishSlot t (hash k) (mkEntry k v) x pos in
  table_inv hash t' ∧ tLen t' = tLen t ∧ content t k = None ∧
  (∀ k', content t' k' = if decide (k' = k) then Some (v, x) else content t k') ∧
  nLive t' = nLive t + 1 ∧ nTomb t' = nTomb t - Z.b2z (tomb (At t p)) ∧
  sumW c t' = sumW c t + rawCost c k v ∧
  (∀ j, 0 ≤ j < tLen t → retained (At t' j) = retained (At t j) || (j =? p)).
Proof.
  intros p Hi Hload Hx (Hp & Hold & Hchain & Huniq) t'. pose proof (ti_shape _ _ Hi) as Hs.
  destruct (publish_step hash t pos k v x Hi Hload Hx Hold Hchain Huniq) as [Hi' Hset].
  fold p t' in Hi', Hset. set (y := Publish (At t pos) (mkEntry k v) (TagOf (hash k)) x) in *.
  assert (alive y = true) as Hy by (by apply Publish_alive).
  destruct (counts_slot_set c _ _ _ _ Hs Hp Hset) as (E1 & E2 & E3).
  assert (tomb y = false) as Hty.
  { unfold tomb. unfold alive in Hy. apply andb_true_iff in Hy as [_ Hd%negb_true_iff]. by rewrite Hd, andb_false_r. }
  assert (icell y = (v, x)) as Hcell.
  { unfold icell, y. rewrite Publish_fields by done. done. }
  rewrite Hy, Hold in E1. rewrite Hty in E2. unfold charge in E3. rewrite Hy, Hold in E3. cbn [Z.b2z] in *.
  split_and!; [done|by destruct (slot_set_geometry hash _ _ _ _ Hset)|..|lia|lia|cbn in E3; lia|].
  - unfold content. replace (slotOf t k) with (@None Z); [done|]. symmetry. apply slotOf_None.
    intros j Hj Ha. destruct (decide (j = p)) as [->|Hne]; [congruence|].
    apply Huniq; [done|done|by apply alive_retained].
  - intros k'. rewrite (content_update hash t t' p y k' Hi Hi' Hp Hset), Hy, Hold, Hcell. cbn [andb].
    change (ikey y) with k. case_bool_decide; case_decide; congruence.
  - intros j Hj. destruct Hset as (_ & _ & ->). rewrite Wrap_small by done.
    case_decide; destruct (Z.eqb_spec j p); try congruence; [|by rewrite orb_false_r].
    rewrite (alive_retained _ Hy). by rewrite orb_true_r.
Qed.

Lemma queue_ok_cons t t' (n : QNode) (l l' : list QNode) :
  queue_ok t l → l' ≡ₚ n :: l → tLen t' = tLen t → 0 ≤ Idx n < tLen t → retained (At t (Idx n)) = false →
  (∀ j, 0 ≤ j < tLen t → retained (At t' j) = retained (At t j) || (j =? Idx n)) → queue_ok t' l'.
Proof.
  intros [Hnd Hq] Hl Hlen Hn Hno Hret. apply (queue_ok_perm _ (n :: l)); [done|]. split; cbn.
  - apply NoDup_cons. split; [|done]. rewrite Hq. intros [_ ?]. congruence.
  - intros j. rewrite elem_of_cons, Hq, Hlen. destruct (Z.eqb_spec j (Idx n)) as [->|Hne].
    + split; [|by left]. intros _. rewrite Hret, Z.eqb_refl, orb_true_r by done. done.
    + split; [intros [|[Hr Hre]]; [done|]|intros [Hr Hre]; right]; (split; [done|]).
      * by rewrite Hret, Hre.
      * rewrite Hret in Hre by done. destruct (Z.eqb_spec j (Idx n)); [done|]. by rewrite orb_false_r in Hre.
Qed.

(** The expiration a store leaves: overwriting with no TTL keeps the old one. *)
Definition newExpire (old : option (V * Z)) (x : Z) : Z :=
  match old with
  | Some (_, e) => if x =? 0 then e else x
  | None => x
  end.

Definition replaced k (old : option (V * Z)) : list (deletion K V) :=
  match old with Some (v, _) => [mkDeletion k v CauseReplacement] | None => [] end.

(** What each way out of the probe loop establishes. *)
Record stored sh k v x (sh' : shard K V P) (delta : Z) (ds : list (deletion K V)) : Prop := {
  so_wf : shard_wf hash c sh' delta;
  so_load : loaded sh';
  so_content k' : content (items sh') k' =
    if decide (k' = k) then Some (v, newExpire (content (items sh) k) x) else content (items sh) k';
  so_weight : weight sh' = weight sh;
  so_cap : cap sh' = cap sh;
  so_delta : delta = rawCost c k v - costs c (replaced k (content (items sh) k));
  so_log : ds = logged c (replaced k (content (items sh) k))
}.

(** A new key: in the empty slot [pos] or in the first free tombstone met. *)
Lemma claimSlot_spec sh k v x pos reuse :
  shard_wf hash c sh 0 → loaded sh → live sh < 2 ^ 31 - 1 → 0 ≤ x < 2 ^ 18 →
  let q := default pos reuse in
  slot_for (items sh) (Wrap (items sh) q) k → retained (At (items sh) q) = false →
  tomb (At (items sh) q) = bool_decide (is_Some reuse) →
  ∃ sh' delta ds, claimSlot hash c sh (hash k) k v x pos reuse = Some (sh', delta, ds) ∧
    stored sh k v x sh' delta ds.
Proof.
  intros Hwf Hload Hb Hx q Hslot Hnret Htomb. pose proof Hwf as [Hi Hp Hq Hl Hd Hw Hdc].
  pose proof (wf_shape _ _ _ _ Hwf) as Hs.
  destruct (publish_effect (items sh) q k v x Hi) as (Hi' & Hlen & Hnone & Hc & E1 & E2 & E3 & Hret);
    [by eapply wf_load|done|done|]. rewrite At_Wrap, Htomb in E2 by done.
  unfold claimSlot.
  destruct (match reuse with Some r => (r, dirty sh - 1) | None => (pos, dirty sh) end) as [q' dirty'] eqn:Eq.
  assert (q' = q ∧ dirty' = dirty sh - Z.b2z (bool_decide (is_Some reuse))) as [-> Ed].
  { destruct reuse; injection Eq as <- <-; cbn; (split; [done|lia]). }
  fold (publishSlot (items sh) (hash k) (mkEntry k v) x q).
  set (t' := publishSlot (items sh) (hash k) (mkEntry k v) x q) in *.
  assert (Wrap t' q = Wrap (items sh) q) as Hwq.
  { unfold Wrap. f_equal. unfold tLen in Hlen. lia. }
  set (n := mkQNode (Wrap t' q) (u32 (rawCost c k v))).
  destruct (pAdd_laws (policy sh) t' n Hp) as [Hp' Hn'].
  match goal with |- context [maybeRebuild hash ?s] => set (sh1 := s) end.
  assert (shard_wf hash c sh1 (rawCost c k v)) as Hwf1.
  { split; cbn [sh1 items policy live dirty weight deadCount]; try done; try lia.
    eapply (queue_ok_cons (items sh) t' n); try done; cbn [n Idx]; rewrite Hwq.
    - by apply Wrap_range.
    - by rewrite At_Wrap.
    - done. }
  destruct (maybeRebuild_spec hash c sh1 _ Hwf1) as (sh' & Er & [Rwf Rload Rc Rw Rcap _]); [cbn; lia|].
  exists sh', (rawCost c k v), []. rewrite Er. split; [done|].
  split; [done|done|..]; rewrite ?Hnone; cbn; try done; [|lia|by rewrite logged_nil].
  intros k'. rewrite Rc. cbn [sh1 items]. rewrite Hc. done.
Qed.

(** A tombstone of the key that still has its queue node comes back to life. *)
Lemma resurrectSlot_spec sh k v x pos :
  shard_wf hash c sh 0 → loaded sh → 0 ≤ x < 2 ^ 18 →
  slot_for (items sh) (Wrap (items sh) pos) k →
  retained (At (items sh) pos) = true → tomb (At (items sh) pos) = true →
  ∃ sh' delta ds, resurrectSlot c sh (hash k) k v x pos = (sh', delta, ds) ∧ stored sh k v x sh' delta ds.
Proof.
  intros Hwf Hload Hx Hslot Hre Htomb. pose proof Hwf as [Hi Hp Hq Hl Hd Hw Hdc].
  pose proof (wf_shape _ _ _ _ Hwf) as Hs.
  destruct (publish_effect (items sh) pos k v x Hi) as (Hi' & Hlen & Hnone & Hc & E1 & E2 & E3 & Hret);
    [by eapply wf_load|done|done|]. rewrite At_Wrap, Htomb in E2 by done. cbn [Z.b2z] in E2.
  eexists _, _, _. split; [done|]. fold (publishSlot (items sh) (hash k) (mkEntry k v) x pos).
  set (t' := publishSlot (items sh) (hash k) (mkEntry k v) x pos) in *.
  split; [split|..]; cbn [items policy live dirty weight deadCount cap]; try done; try lia.
  - eapply queue_ok_retained; [done| |done]. intros j Hj. rewrite Hret by done.
    destruct (Z.eqb_spec j (Wrap (items sh) pos)) as [->|]; [|by rewrite orb_false_r].
    by rewrite orb_true_r, At_Wrap.
  - case_match; lia.
  - unfold loaded in *. cbn [items live dirty]. lia.
  - intros k'. rewrite Hc, Hnone. done.
  - rewrite Hnone. cbn. lia.
  - rewrite Hnone. cbn [replaced]. by rewrite logged_nil.
Qed.

(** ** Overwriting in place *)

Lemma same_slot_live (it it' : Item K V) :
  ikey it' = ikey it → gen_good (meta it) → gen_good (meta it') → is_u64 (meta it') →
  f_dead (decode (meta it')) = f_dead (decode (meta it)) →
  f_free (decode (meta it')) = f_free (decode (meta it)) →
  f_tag (decode (meta it')) = f_tag (decode (meta it)) → same_slot it it'.
Proof.
  intros Hk Hg Hg' H64 Hd Hf Ht. unfold same_slot. split_and!; try done.
  - unfold occupied. f_equal. apply eqb_iff. pose proof (gen_good_nonzero _ Hg).
    pose proof (gen_good_nonzero _ Hg'). tauto.
  - intros _ _. split; [done|by right].
Qed.

Definition overwritten (it : Item K V) (v : V) (x : Z) : Item K V :=
  if negb (x =? 0) then RefreshExpire (SetValue it v) x else SetValue it v.

Lemma SetValue_same (it : Item K V) v :
  is_u64 (meta it) → gen_good (meta it) → same_slot it (SetValue it v).
Proof.
  intros H64 Hg. apply same_slot_live; rewrite ?SetValue_fields; try done.
  - unfold ikey. by rewrite SetValue_entry.
  - by apply SetValue_gen.
  - by apply SetValue_u64.
Qed.

Lemma RefreshExpire_same (it : Item K V) x :
  is_u64 (meta it) → gen_good (meta it) → 0 ≤ x < 2 ^ 18 → same_slot it (RefreshExpire it x).
Proof.
  intros H64 Hg Hx. apply same_slot_live; rewrite ?RefreshExpire_fields by done; try done.
  - by apply RefreshExpire_gen.
  - by apply RefreshExpire_u64.
Qed.

Lemma overwritten_spec (it : Item K V) v x :
  is_u64 (meta it) → gen_good (meta it) → 0 ≤ x < 2 ^ 18 →
  same_slot it (overwritten it v x) ∧
  icell (overwritten it v x) = (v, if x =? 0 then f_expire (decode (meta it)) else x).
Proof.
  intros H64 Hg Hx. pose proof (SetValue_same it v H64 Hg) as Hs.
  unfold overwritten. destruct (Z.eqb_spec x 0) as [->|Hne]; cbn [negb].
  - split; [done|]. unfold icell, ival. by rewrite SetValue_fields, SetValue_entry.
  - split.
    + etrans; [exact Hs|]. apply RefreshExpire_same; [by apply SetValue_u64|by apply SetValue_gen|done].
    + unfold icell, ival. rewrite RefreshExpire_fields by done. cbn. by rewrite SetValue_entry.
Qed.

Lemma slot_set_trans t t1 t2 p x y : slot_set t t1 p x → slot_set t1 t2 p y → slot_set t t2 p y.
Proof.
  intros (S1 & M1 & A1) (S2 & M2 & A2). split_and!; [done|congruence|]. intros i. rewrite A2, A1.
  unfold Wrap. rewrite M1. by case_decide.
Qed.

Lemma overwrite_table t pos v x :
  table_inv hash t → alive (At t pos) = true → 0 ≤ x < 2 ^ 18 →
  let t1 := alterAt t pos (λ item, SetValue item v) in
  let t' := if negb (x =? 0) then alterAt t1 pos (λ item, RefreshExpire item x) else t1 in
  same_table t t' ∧ slot_set t t' (Wrap t pos) (overwritten (At t pos) v x).
Proof.
  intros Hi Ha Hx t1 t'. pose proof (ti_shape _ _ Hi) as Hs. destruct (ti_meta _ _ Hi pos) as (H64 & Hg & _).
  pose proof (gen_ok_good _ Hg (alive_nonzero _ Ha)) as Hg'.
  assert (same_table t t1) as Hst1 by by apply same_table_alterAt, SetValue_same.
  assert (slot_set t t1 (Wrap t pos) (SetValue (At t pos) v)) as Hset1 by by apply (slot_set_pos t pos (λ it, SetValue it v)).
  assert (At t1 pos = SetValue (At t pos) v) as Hat by (unfold t1; by rewrite At_alterAt, decide_True).
  assert (table_shape t1) as Hs1 by by apply shape_alterAt.
  unfold overwritten. subst t'. destruct (negb (x =? 0)); [|done]. split.
  - etrans; [exact Hst1|]. apply same_table_alterAt; [done|]. rewrite Hat.
    apply RefreshExpire_same; [by apply SetValue_u64|by apply SetValue_gen|done].
  - eapply slot_set_trans; [exact Hset1|]. pose proof (slot_set_pos t1 pos (λ it, RefreshExpire it x) Hs1) as H.
    unfold t1 at 3 in H. by rewrite Wrap_alterAt, Hat in H.
Qed.

Lemma overwriteSlot_spec sh k v x pos :
  shard_wf hash c sh 0 → loaded sh → 0 ≤ x < 2 ^ 18 →
  alive (At (items sh) pos) = true → ikey (At (items sh) pos) = k →
  ∃ sh' delta ds, overwriteSlot c sh k v x pos = (sh', delta, ds) ∧ stored sh k v x sh' delta ds.
Proof.
  intros Hwf Hload Hx Ha Hk. pose proof Hwf as [Hi Hp Hq Hl Hd Hw Hdc]. pose proof (wf_shape _ _ _ _ Hwf) as Hs.
  destruct (ti_meta _ _ Hi pos) as (H64 & Hg & _). pose proof (gen_ok_good _ Hg (alive_nonzero _ Ha)) as Hg'.
  destruct (overwritten_spec (At (items sh) pos) v x H64 Hg' Hx) as (Hss & Hcell). pose proof (proj1 Hss) as Hik.
  destruct (overwrite_table (items sh) pos v x Hi Ha Hx) as [Hst Hset].
  eexists _, _, _. split; [done|]. cbv zeta in *.
  match goal with |- stored _ _ _ _ (withItems _ ?t) _ _ => set (t' := t) in * end.
  set (p := Wrap (items sh) pos) in *. assert (0 ≤ p < tLen (items sh)) as Hpr by by apply Wrap_range.
  pose proof (same_table_inv hash _ _ Hst Hi) as Hi'.
  destruct (counts_slot_set c _ _ _ _ Hs Hpr Hset) as (E1 & E2 & E3).
  unfold charge in E3. unfold p in E1, E2, E3. rewrite At_Wrap in E1, E2, E3 by done.
  rewrite (same_slot_alive _ _ Hss) in E1, E3. rewrite (same_slot_tomb _ _ Hss) in E2. rewrite Ha, Hik, Hk in E3.
  assert (ival (overwritten (At (items sh) pos) v x) = v) as Hv by (unfold icell in Hcell; congruence).
  rewrite Hv in E3.
  assert (content (items sh) k = Some (ival (At (items sh) pos), f_expire (decode (meta (At (items sh) pos))))) as Hold.
  { apply (content_Some hash); [done|]. exists p. unfold p. rewrite At_Wrap by done. done. }
  split; [split|..]; cbn [withItems items policy live dirty weight deadCount cap]; rewrite ?Hold; try done; try lia.
  - by apply (queue_ok_same hash (items sh)).
  - unfold ival in E3. lia.
  - unfold loaded in *. cbn [withItems items live dirty].
    destruct (slot_set_geometry hash _ _ _ _ Hset) as (-> & _). done.
  - intros k'. rewrite (content_update hash _ _ p _ k' Hi Hi' Hpr Hset).
    rewrite (same_slot_alive _ _ Hss), Ha, Hik, Hk, Hcell. unfold p. rewrite At_Wrap, Ha, Hk by done. cbn [andb newExpire].
    repeat case_bool_decide; case_decide; congruence.
  - cbn. unfold ival. lia.
Qed.

(** ** The probe loop *)

Lemma dist_pos t h d :
  table_shape t → 0 ≤ d < tLen t → (Wrap t (u32 (h + d)) - h) mod tLen t = d.
Proof.
  intros Hs Hd. rewrite Wrap_u32, Wrap_mod, Zminus_mod_idemp_l by done.
  replace (h + d - h) with d by lia. by apply Z.mod_small.
Qed.

(** The slots passed so far are occupied and none keeps the key. *)
Definition passed t k (d : Z) : Prop :=
  ∀ d', 0 ≤ d' < d → occupied (At t (homeOf hash t k + d')) = true ∧
    ¬ (retained (At t (homeOf hash t k + d')) = true ∧ ikey (At t (homeOf hash t k + d')) = k).

Lemma passed_next t k d :
  passed t k d → occupied (At t (homeOf hash t k + d)) = true →
  ¬ (retained (At t (homeOf hash t k + d)) = true ∧ ikey (At t (homeOf hash t k + d)) = k) →
  passed t k (d + 1).
Proof. intros H Ho Hn d' Hd'. destruct (Z.eq_dec d' d) as [->|]; [done|]. apply H. lia. Qed.

Lemma passed_far t k d j :
  table_shape t → passed t k d → 0 ≤ j < tLen t → retained (At t j) = true → ikey (At t j) = k →
  d ≤ (j - homeOf hash t k) mod tLen t.
Proof.
  intros Hs H Hj Hr Hk. destruct (dist_reach t (homeOf hash t k) j Hs Hj) as [[? ?] _].
  destruct (Z_lt_le_dec ((j - homeOf hash t k) mod tLen t) d); [|done].
  destruct (H ((j - homeOf hash t k) mod tLen t)) as [_ []]; [lia|]. by rewrite At_reach.
Qed.

(** At an empty slot the key is nowhere. *)
Lemma passed_absent t k d :
  table_inv hash t → 0 ≤ d → passed t k d → occupied (At t (homeOf hash t k + d)) = false →
  ∀ j, 0 ≤ j < tLen t → retained (At t j) = true → ikey (At t j) ≠ k.
Proof.
  intros Hi Hd H Ho j Hj Hr Hk. pose proof (ti_shape _ _ Hi) as Hs.
  pose proof (passed_far t k d j Hs H Hj Hr Hk) as Hfar.
  assert (occupied (At t (homeOf hash t k + d)) = true); [|congruence].
  destruct (Z.eq_dec d ((j - homeOf hash t k) mod tLen t)) as [->|Hne].
  - rewrite At_reach by done. by apply retained_occupied.
  - rewrite <- Hk in *. apply (ti_chain hash t Hi); [done|lia].
Qed.

(** A slot on the way is a place for the key when nobody else keeps it. *)
Lemma passed_slot_for t k d e :
  table_shape t → 0 ≤ e ≤ d → e < tLen t → passed t k d →
  alive (At t (homeOf hash t k + e)) = false →
  (∀ j, 0 ≤ j < tLen t → retained (At t j) = true → ikey (At t j) = k → j = Wrap t (homeOf hash t k + e)) →
  slot_for t (Wrap t (u32 (homeOf hash t k + e))) k.
Proof.
  intros Hs He Het H Ha Hno. split_and!.
  - by apply Wrap_range.
  - by apply Wrap_range.
  - by rewrite At_Wrap, At_u32.
  - rewrite dist_pos by (done || lia). intros d' Hd'. apply H. lia.
  - intros j Hj Hne Hr Hk. apply Hne. rewrite Wrap_u32 by done. by apply Hno.
Qed.

(** The body of the loop, on the shard it started with. *)
Definition setBody sh k v x (reuse : option Z) (pos : Z)
    : option Z + option (shard K V P * Z * list (deletion K V)) :=
  let item := At (items sh) pos in
  if meta item =? 0 then inr (claimSlot hash c sh (hash k) k v x pos reuse)
  else if negb (Z.land (meta item) Dead =? 0) then
    if negb (Reusable (meta item)) && (Z.land (meta item) TagMask =? Z.land (TagOf (hash k)) TagMask) &&
       bool_decide (ikey item = k)
    then inr (Some (resurrectSlot c sh (hash k) k v x pos))
    else match reuse with
    | None => if Reusable (meta item) then inl (Some pos) else inl None
    | Some _ => inl reuse
    end
  else if negb (Z.land (meta item) TagMask =? Z.land (TagOf (hash k)) TagMask) then inl reuse
  else if negb (bool_decide (ikey item = k)) then inl reuse
  else inr (Some (overwriteSlot c sh k v x pos)).

Definition reuse_ok t k (d : Z) (reuse : option Z) : Prop :=
  match reuse with
  | None => True
  | Some r => ∃ e, 0 ≤ e < d ∧ r = u32 (homeOf hash t k + e) ∧
      occupied (At t (homeOf hash t k + e)) = true ∧ Reusable (meta (At t (homeOf hash t k + e))) = true
  end.

Lemma reuse_ok_next t k d reuse : reuse_ok t k d reuse → reuse_ok t k (d + 1) reuse.
Proof. destruct reuse; [|done]. intros (e & ? & ?). exists e. split; [lia|done]. Qed.

Lemma setBody_claim sh k v x d reuse :
  shard_wf hash c sh 0 → loaded sh → live sh < 2 ^ 31 - 1 → 0 ≤ x < 2 ^ 18 → 0 ≤ d < tLen (items sh) →
  passed (items sh) k d → reuse_ok (items sh) k d reuse →
  occupied (At (items sh) (homeOf hash (items sh) k + d)) = false →
  ∃ sh' delta ds,
    claimSlot hash c sh (hash k) k v x (u32 (homeOf hash (items sh) k + d)) reuse = Some (sh', delta, ds) ∧
    stored sh k v x sh' delta ds.
Proof.
  intros Hwf Hload Hb Hx Hd Hpass Hreuse Ho. pose proof (wf_shape _ _ _ _ Hwf) as Hs.
  pose proof (passed_absent _ k d (sw_table _ _ _ _ Hwf) (proj1 Hd) Hpass Ho) as Habs.
  assert (∃ e, 0 ≤ e ≤ d ∧ default (u32 (homeOf hash (items sh) k + d)) reuse = u32 (homeOf hash (items sh) k + e) ∧
    alive (At (items sh) (homeOf hash (items sh) k + e)) = false ∧
    retained (At (items sh) (homeOf hash (items sh) k + e)) = false ∧
    tomb (At (items sh) (homeOf hash (items sh) k + e)) = bool_decide (is_Some reuse))
    as (e & He & Eq & Ha & Hr & Ht).
  { destruct reuse as [r|]; cbn.
    - destruct Hreuse as (e & He & -> & Hoe & Hre). exists e. split_and!; [lia|lia|done|..].
      all: unfold alive, retained, tomb; rewrite Hoe, ?Hre; try done.
      all: rewrite Reusable_fields in Hre; apply andb_true_iff in Hre as [-> _]; done.
    - exists d. unfold alive, retained, tomb. rewrite Ho. split_and!; [lia|lia|done..]. }
  apply claimSlot_spec; try done; rewrite Eq, ?At_u32; try done.
  apply (passed_slot_for _ _ d); try done; [lia|]. intros j Hj Hrj Hk. by destruct (Habs j Hj Hrj).
Qed.

(** One turn of the loop. *)
Lemma setBody_spec sh k v x d reuse :
  shard_wf hash c sh 0 → loaded sh → live sh < 2 ^ 31 - 1 → 0 ≤ x < 2 ^ 18 → 0 ≤ d < tLen (items sh) →
  passed (items sh) k d → reuse_ok (items sh) k d reuse →
  match setBody sh k v x reuse (u32 (homeOf hash (items sh) k + d)) with
  | inl r => passed (items sh) k (d + 1) ∧ reuse_ok (items sh) k (d + 1) r
  | inr r => ∃ sh' delta ds, r = Some (sh', delta, ds) ∧ stored sh k v x sh' delta ds
  end.
Proof.
  intros Hwf Hload Hb Hx Hd Hpass Hreuse. pose proof (wf_shape _ _ _ _ Hwf) as Hs.
  pose proof (sw_table _ _ _ _ Hwf) as Hi. unfold setBody. rewrite At_u32, tag_test, dead_test by done.
  set (h := homeOf hash (items sh) k) in *. set (it := At (items sh) (h + d)) in *.
  destruct (Z.eqb_spec (meta it) 0) as [E0|E0].
  { apply setBody_claim; try done. unfold occupied. fold h it. by rewrite E0. }
  assert (occupied it = true) as Ho by (by apply negb_true_iff, Z.eqb_neq).
  pose proof (reuse_ok_next _ _ _ _ Hreuse) as Hreuse'.
  assert (¬ (retained it = true ∧ ikey it = k) → passed (items sh) k (d + 1)) as Hnext.
  { intros Hno. by apply passed_next. }
  assert (retained it = true → ikey it = k → (f_tag (decode (meta it)) =? tagBits (hash k)) = true) as Htag.
  { intros Hr Hk. rewrite <- Hk. apply Z.eqb_eq. by apply (ti_tag hash _ Hi). }
  destruct (f_dead (decode (meta it))) eqn:Edead.
  - destruct (Reusable (meta it)) eqn:Er; cbn [negb andb].
    + assert (retained it = false) as Hnr by (unfold retained; by rewrite Ho, Er).
      destruct reuse as [r|]; (split; [apply Hnext; intros []; congruence|]); [done|].
      exists d. fold h it. split_and!; [lia|lia|done..].
    + assert (retained it = true) as Hr by (unfold retained; by rewrite Ho, Er).
      destruct ((f_tag (decode (meta it)) =? tagBits (hash k)) && bool_decide (ikey it = k)) eqn:E.
      * apply andb_true_iff in E as [_ Hk%bool_decide_eq_true].
        destruct (resurrectSlot_spec sh k v x (u32 (h + d))) as (sh' & delta & ds & -> & Hst); try done.
        -- apply (passed_slot_for _ _ d); try done; [lia|lia|fold h it; unfold alive; by rewrite Ho, Edead|].
           intros j Hj Hrj Hkj. rewrite <- (Wrap_small _ j Hs Hj).
           apply (ti_uniq hash _ Hi); [done|done|]. fold h it. congruence.
        -- by rewrite At_u32.
        -- rewrite At_u32 by done. fold it. unfold tomb. by rewrite Ho, Edead.
        -- by exists sh', delta, ds.
      * assert (¬ (retained it = true ∧ ikey it = k)) as Hno.
        { intros [_ Hk]. rewrite (Htag Hr Hk), bool_decide_eq_true_2 in E by done. done. }
        destruct reuse as [r|]; split; auto.
  - destruct ((f_tag (decode (meta it)) =? tagBits (hash k))) eqn:Et; cbn [negb].
    2:{ split; [|done]. apply Hnext. intros [Hr Hk]. specialize (Htag Hr Hk). congruence. }
    destruct (decide (ikey it = k)) as [Ek|Ek];
      [rewrite bool_decide_eq_true_2 by done|rewrite bool_decide_eq_false_2 by done]; cbn [negb].
    + destruct (overwriteSlot_spec sh k v x (u32 (h + d))) as (sh' & delta & ds & -> & Hst); try done.
      * rewrite At_u32 by done. fold it. unfold alive. by rewrite Ho, Edead.
      * by rewrite At_u32.
      * by exists sh', delta, ds.
    + split; [|done]. apply Hnext. by intros [].
Qed.

(** ** The whole operation *)

(** The contents with the new cell in, before any eviction. *)
Definition put (m : K → option (V * Z)) k (v : V) (x : Z) : K → option (V * Z) :=
  λ k', if decide (k' = k) then Some (v, newExpire (m k) x) else m k'.

Lemma wf_weight_nonneg sh : shard_wf hash c sh 0 → 0 ≤ weight sh.
Proof.
  intros H. pose proof (sw_weight _ _ _ _ H). pose proof (nLive_le_sumW c (items sh)).
  pose proof (nLive_nonneg (items sh)). lia.
Qed.

Lemma shrunk_inv sh sh' gone :
  shrunk hash c 0 sh sh' gone → loaded sh → weight sh' ≤ cap sh' → shard_inv hash c sh'.
Proof.
  intros [Hwf _ _ Hl _] Hload Hw. split; [done|by auto|]. pose proof (wf_weight_nonneg _ Hwf). lia.
Qed.

Lemma costs_nonneg gone : 0 ≤ costs c gone.
Proof.
  induction gone as [|d gone IH]; cbn; [done|]. fold (costs c gone).
  pose proof (rawCost_pos c (dkey d) (dvalue d)). lia.
Qed.

Lemma shrunk_keeps_inv sh sh' gone :
  shrunk hash c 0 sh sh' gone → shard_inv hash c sh → shard_inv hash c sh'.
Proof.
  intros Hsk [_ Hload Hcap]. eapply shrunk_inv; [done|done|].
  rewrite (sk_weight _ _ _ _ _ _ Hsk), (sk_cap _ _ _ _ _ _ Hsk). pose proof (costs_nonneg gone). lia.
Qed.

(** The store: the loop ends, and ends in a stored cell. *)
Lemma set_probe sh k v x :
  shard_wf hash c sh 0 → loaded sh → live sh < 2 ^ 31 - 1 → 0 ≤ x < 2 ^ 18 →
  ∃ sh' delta ds,
    probe (Z.to_nat (tLen (items sh))) (setBody sh k v x) None (homeOf hash (items sh) k)
      = Some (Some (sh', delta, ds)) ∧ stored sh k v x sh' delta ds.
Proof.
  intros Hwf Hload Hb Hx. pose proof (wf_shape _ _ _ _ Hwf) as Hs. pose proof (tLen_pos _ Hs).
  destruct (probe_spec (setBody sh k v x)
    (λ d reuse, passed (items sh) k d ∧ reuse_ok (items sh) k d reuse)
    (λ r, ∃ sh' delta ds, r = Some (sh', delta, ds) ∧ stored sh k v x sh' delta ds)
    (Z.to_nat (tLen (items sh))) (Z.to_nat (tLen (items sh))) None (homeOf hash (items sh) k))
    as (r & Hr & sh' & delta & ds & -> & Hst).
  - lia.
  - split; [intros d'; lia|done].
  - intros d reuse Hd [Hp Hre]. rewrite Z2Nat.id in Hd by lia. by apply setBody_spec.
  - intros reuse [Hp _]. rewrite Z2Nat.id in Hp by lia.
    pose proof (chain_le_occ _ _ (tLen (items sh)) Hs ltac:(lia) (λ d Hd, proj1 (Hp d Hd))).
    pose proof (wf_load _ _ _ _ Hwf Hload). lia.
  - pose proof (homeOf_range hash (items sh) k Hs). unfold is_u32. lia.
  - by exists sh', delta, ds.
Qed.

Lemma setMemory_fits sh k v x :
  shard_inv hash c sh → live sh < 2 ^ 31 - 1 → 0 ≤ x < 2 ^ 18 → rawCost c k v ≤ cap sh →
  ∃ sh' ev, setMemory hash c sh k v x = Some (sh', logged c (replaced k (content (items sh) k) ++ ev)) ∧
    shard_inv hash c sh' ∧ cap sh' = cap sh ∧ Forall evicted ev ∧
    removed (put (content (items sh)) k v x) (content (items sh')) ev ∧
    weight sh' = weight sh + rawCost c k v - costs c (replaced k (content (items sh) k)) - costs c ev ∧
    (weight sh + rawCost c k v - costs c (replaced k (content (items sh) k)) ≤ cap sh → ev = []).
Proof.
  intros [Hwf Hload Hcap] Hb Hx Hfit. unfold setMemory.
  destruct (Z.ltb_spec (cap sh) (rawCost c k v)) as [|_]; [lia|].
  destruct (set_probe sh k v x Hwf Hload Hb Hx) as (sh1 & delta & ds & Hpr & [Swf Sload Sc Sw Scap Sd Sl]).
  change (probe _ _ None (Home (items sh) (hash k)))
    with (probe (Z.to_nat (tLen (items sh))) (setBody sh k v x) None (homeOf hash (items sh) k)).
  rewrite Hpr. cbn [items policy weight cap live dirty deadCount].
  set (sh2 := mkShard (items sh1) (policy sh1) (weight sh1 + delta) (cap sh1) (live sh1) (dirty sh1) (deadCount sh1)).
  assert (shard_wf hash c sh2 0) as Hwf2 by (destruct Swf; split; cbn; try done; lia).
  assert (∀ k', content (items sh2) k' = put (content (items sh)) k v x k') as Hput by exact Sc.
  rewrite Sl. destruct (Z.ltb_spec (cap sh1) (weight sh1 + delta)) as [Hlt|Hge].
  - destruct (evictShard_spec hash c sh2 (logged c (replaced k (content (items sh) k))) Hwf2)
      as (sh' & ev & E & Hsk & Hev & Hw); [cbn; lia|].
    exists sh', ev. rewrite logged_app. split_and!; [done|by eapply shrunk_inv| |done|..].
    + rewrite (sk_cap _ _ _ _ _ _ Hsk). done.
    + change ev with ([] ++ ev). apply removed_trans with (m2 := content (items sh2)); [|apply Hsk].
      apply removed_nil. exact Hput.
    + rewrite (sk_weight _ _ _ _ _ _ Hsk). cbn [sh2 weight]. lia.
    + intros. exfalso. lia.
  - exists sh2, []. rewrite app_nil_r. split_and!; [done| |done|constructor| | |done].
    + split; [done|done|]. pose proof (wf_weight_nonneg _ Hwf2). cbn [sh2 weight cap] in *. lia.
    + by apply removed_nil.
    + cbn. lia.
Qed.

(** A value heavier than the whole shard is not stored; it drops the old one. *)
Lemma setMemory_overflow sh k v x :
  shard_inv hash c sh → cap sh < rawCost c k v →
  let gone := match content (items sh) k with
    | Some (old, _) => [mkDeletion k old CauseOverflow] | None => [] end in
  ∃ sh', setMemory hash c sh k v x = Some (sh', logged c gone) ∧ shard_inv hash c sh' ∧
    cap sh' = cap sh ∧ removed (content (items sh)) (content (items sh')) gone.
Proof.
  intros Hinv Hbig gone. pose proof Hinv as [Hwf Hload Hcap]. unfold setMemory.
  destruct (Z.ltb_spec (cap sh) (rawCost c k v)) as [_|]; [|lia].
  destruct (deleteLocked_spec hash c sh 0 k CauseOverflow [] Hwf Hload) as (sh' & E & Hsk). fold gone in E, Hsk.
  exists sh'. split_and!; [done|by eapply shrunk_keeps_inv|apply Hsk|apply Hsk].
Qed.

End SetMemory.
