(* ===== verification/GetMemory.v ===== *)
(** * getMemory, dropExpired and deletion

    A read answers what the shard's contents say, less what has expired; a hit changes reference
    counters and, with TTL refresh, the expiration of that key; an expired key is dropped. *)

From S2P Require Import Prelude Item Queue Table TableInv Policy Shard Lookup ShardSteps Rebuild ShardInv SetMemory.

(** The TTL rule on an expiration offset (0 is "never"). *)
Definition expiredAt (e now : Z) : bool :=
  negb (e =? 0) && (let d := (e - now) mod 2 ^ 18 in (d =? 0) || (ExpireMax <? d)).

Lemma expireOffsetAt_range {K V} (c : Env K V) now : 0 < expireOffsetAt c now < 2 ^ 18.
Proof.
  unfold expireOffsetAt. change ExpireWrapMask with (2 ^ 18 - 1). rewrite land_mod_pow2 by lia.
  pose proof (Z.mod_pos_bound (u32 (u32 (now + ttlOff c) + 1)) (2 ^ 18) ltac:(lia)).
  destruct (Z.eqb_spec (u32 (u32 (now + ttlOff c) + 1) mod 2 ^ 18) 0); lia.
Qed.

Section GetMemory.
Context {K V P : Type} `{!EqDecision K} `{!GoType K} `{!GoType V}.
Context `{!EvictionPolicy K V P} `{!PolicyLaws K V P}.
Context (hash : K → Z) (c : Env K V).
Implicit Types (t : FlatHashMap K V) (sh : shard K V P) (k : K) (it : Item K V).

(** A touch of the key's slot. *)
Lemma touch_spec sh pos (f : Item K V → Item K V) e :
  let it := At (items sh) pos in
  shard_inv hash c sh → alive it = true → same_slot it (f it) → entry (f it) = entry it →
  f_expire (decode (meta (f it))) = e →
  let sh' := withItems sh (alterAt (items sh) pos f) in
  shard_inv hash c sh' ∧
  ∀ k', content (items sh') k' = if decide (k' = ikey it) then Some (ival it, e) else content (items sh) k'.
Proof.
  intros it [Hwf Hload Hcap] Ha Hss Hent He sh'. pose proof Hwf as [Hi Hp Hq Hl Hd Hw Hdc].
  pose proof (wf_shape _ _ _ _ Hwf) as Hs. set (p := Wrap (items sh) pos).
  assert (0 ≤ p < tLen (items sh)) as Hpr by by apply Wrap_range.
  assert (same_table (items sh) (alterAt (items sh) pos f)) as Hst by by apply same_table_alterAt.
  pose proof (slot_set_pos (items sh) pos f Hs) as Hset. fold p it in Hset.
  pose proof (same_table_inv hash _ _ Hst Hi) as Hi'.
  destruct (counts_slot_set c _ _ _ _ Hs Hpr Hset) as (E1 & E2 & E3). unfold p in E1, E2, E3.
  rewrite At_Wrap in E1, E2, E3 by done. fold it in E1, E2, E3.
  unfold charge, ikey, ival in E3. rewrite Hent in E3.
  rewrite (same_slot_alive _ _ Hss) in E1, E3. rewrite (same_slot_tomb _ _ Hss) in E2.
  split.
  - split; [split|..]; cbn [sh' withItems items policy live dirty weight deadCount cap]; try done; try lia.
    + by apply (queue_ok_same hash (items sh)).
    + unfold loaded in *. cbn [sh' withItems items live dirty].
      destruct (slot_set_geometry hash _ _ _ _ Hset) as (-> & _). done.
  - intros k'. cbn [sh' withItems items]. rewrite (content_update hash _ _ p _ k' Hi Hi' Hpr Hset).
    rewrite (same_slot_alive _ _ Hss), Ha. unfold p. rewrite At_Wrap by done. fold it. rewrite Ha.
    unfold icell, ikey, ival. rewrite Hent, He. cbn [andb]. repeat case_bool_decide; case_decide; congruence.
Qed.

Lemma TouchWith_same it :
  is_u64 (meta it) → gen_good (meta it) → same_slot it (TouchWith it (meta it)).
Proof.
  intros H64 Hg. apply same_slot_live; rewrite ?TouchWith_fields; try done.
  - unfold ikey. by rewrite TouchWith_entry.
  - by eapply gen_good_same; [rewrite TouchWith_fields|].
  - by apply TouchWith_u64.
Qed.

Lemma TouchAndRefreshExpire_same it x :
  is_u64 (meta it) → gen_good (meta it) → 0 ≤ x < 2 ^ 18 →
  same_slot it (TouchAndRefreshExpire it (meta it) x).1.
Proof.
  intros H64 Hg Hx. apply same_slot_live; rewrite ?TouchAndRefreshExpire_fields by done; try done.
  - unfold TouchAndRefreshExpire. by rewrite Z.eqb_refl.
  - by eapply gen_good_same; [rewrite TouchAndRefreshExpire_fields by done|].
  - by apply TouchAndRefreshExpire_u64.
Qed.

(** ** Removals by key *)

Lemma dropExpired_spec sh k i :
  shard_inv hash c sh → slotOf (items sh) k = Some i → Expired (meta (At (items sh) i)) (nowOff c) = true →
  let d := mkDeletion k (ival (At (items sh) i)) CauseExpiration in
  ∃ sh', dropExpired c sh (hash k) k i = Some (sh', logged c [d]) ∧ shrunk hash c 0 sh sh' [d].
Proof.
  intros [Hwf Hload _] Hi He d. unfold dropExpired.
  rewrite (findSlot_spec hash) by (apply Hwf || by eapply wf_load). rewrite Hi, Z.eqb_refl.
  unfold Metadata. rewrite He. cbn [andb]. apply slotOf_Some_1 in Hi as (Hr & Ha & <-).
  destruct (killAt_spec hash c sh 0 i CauseExpiration [] Hwf Hr Ha) as (sh' & E & Hsk).
  exists sh'. split; [by f_equal|done].
Qed.

(** The deletion half of [Delete]. *)
Lemma deleteMemory_spec sh k ds :
  shard_inv hash c sh →
  let gone := match content (items sh) k with
    | Some (v, _) => [mkDeletion k v CauseInvalidation] | None => [] end in
  ∃ sh', deleteMemory hash c sh k ds = Some (sh', ds ++ logged c gone) ∧ shard_inv hash c sh' ∧
    cap sh' = cap sh ∧ weight sh' ≤ weight sh ∧ removed (content (items sh)) (content (items sh')) gone.
Proof.
  intros Hinv gone. pose proof Hinv as [Hwf Hload Hcap]. unfold deleteMemory.
  rewrite (livePresent_spec hash) by (apply Hwf || by eapply wf_load).
  destruct (deleteLocked_spec hash c sh 0 k CauseInvalidation ds Hwf Hload) as (sh' & E & Hsk). fold gone in E, Hsk.
  unfold gone, content in *. destruct (slotOf (items sh) k) as [i|]; cbn [fmap option_fmap option_map] in *.
  - rewrite bool_decide_eq_true_2 by done. exists sh'.
    split_and!; [done|by eapply shrunk_keeps_inv|apply Hsk| |apply Hsk].
    rewrite (sk_weight _ _ _ _ _ _ Hsk). match goal with |- context [costs c ?g] => pose proof (costs_nonneg c g) end. lia.
  - rewrite bool_decide_eq_false_2 by (by intros []). exists sh. rewrite logged_nil, app_nil_r.
    split_and!; [done|done|done|lia|]. by apply removed_nil.
Qed.

(** ** Reads *)

(** The expiration a hit leaves. *)
Definition hitExpire (e : Z) : Z := if refreshOnGet c then expireOffsetAt c (nowOff c) else e.

(** A read of a key the shard holds, once the probe is at its slot. *)
Lemma getHit_spec sh k i pos :
  shard_inv hash c sh → 0 ≤ nowOff c < 2 ^ 18 → slotOf (items sh) k = Some i → Wrap (items sh) pos = i →
  let it := At (items sh) i in let e := f_expire (decode (meta it)) in
  ∃ sh', getHit c sh (hash k) k pos (meta (At (items sh) pos)) (entry (At (items sh) pos)) =
      Some (sh', (if expiredAt e (nowOff c) then logged c [mkDeletion k (ival it) CauseExpiration] else []),
            (if expiredAt e (nowOff c) then None else Some (ival it))) ∧
    shard_inv hash c sh' ∧ cap sh' = cap sh ∧
    ∀ k', content (items sh') k' =
      if decide (k' = k) then if expiredAt e (nowOff c) then None else Some (ival it, hitExpire e)
      else content (items sh) k'.
Proof.
  intros Hinv Hnow Hslot Hw it e. pose proof Hinv as [Hwf Hload Hcap]. pose proof (wf_shape _ _ _ _ Hwf) as Hs.
  assert (At (items sh) pos = it) as Hat by (unfold it; by rewrite <- Hw, At_Wrap).
  pose proof (slotOf_Some_1 _ _ _ Hslot) as (Hr & Ha & Hk). fold it in Ha, Hk.
  destruct (ti_meta _ _ (sw_table _ _ _ _ Hwf) i) as (H64 & Hg & _). fold it in H64, Hg.
  pose proof (gen_ok_good _ Hg (alive_nonzero _ Ha)) as Hg'.
  assert (Expired (meta it) (nowOff c) = expiredAt e (nowOff c)) as Hex by by apply Expired_fields.
  unfold getHit. rewrite Hat, Hex, Hw. destruct (expiredAt e (nowOff c)) eqn:Ee; cbn [negb].
  - destruct (dropExpired_spec sh k i Hinv Hslot) as (sh' & -> & Hsk); [by rewrite <- Hex in Ee|].
    exists sh'. split_and!; [done|by eapply shrunk_keeps_inv|apply Hsk|].
    intros k'. rewrite (rm_after _ _ _ (sk_removed _ _ _ _ _ _ Hsk)). cbn.
    repeat case_decide; set_solver.
  - pose proof (expireOffsetAt_range c (nowOff c)) as Hrange.
    assert (∀ f, same_slot it (f it) → entry (f it) = entry it → f_expire (decode (meta (f it))) = hitExpire e →
      ∃ sh', Some (withItems sh (alterAt (items sh) pos f), @nil (deletion K V), Some (Value (entry it))) =
          Some (sh', [], Some (ival it)) ∧ shard_inv hash c sh' ∧ cap sh' = cap sh ∧
        ∀ k', content (items sh') k' = if decide (k' = k) then Some (ival it, hitExpire e) else content (items sh) k')
      as Htouch.
    { intros f Hss Hent Hexp. eexists. split; [done|].
      destruct (touch_spec sh pos f (hitExpire e) Hinv) as [Hinv' Hc]; rewrite ?Hat; try done.
      split_and!; [done|done|]. intros k'. rewrite Hc, Hat, Hk. done. }
    destruct (refreshOnGet c) eqn:Eref.
    + rewrite expire_word. fold e. destruct (Z.eqb_spec (expireOffsetAt c (nowOff c)) e) as [E|E]; cbn [negb andb].
      * apply Htouch; [by apply TouchWith_same|apply TouchWith_entry|].
        rewrite TouchWith_fields. unfold hitExpire. by rewrite Eref, E.
      * assert ((TouchAndRefreshExpire it (meta it) (expireOffsetAt c (nowOff c))).2 = true) as ->.
        { unfold TouchAndRefreshExpire. by rewrite Z.eqb_refl. }
        apply (Htouch (λ item, (TouchAndRefreshExpire item (meta it) (expireOffsetAt c (nowOff c))).1)).
        -- by apply TouchAndRefreshExpire_same; [..|lia].
        -- unfold TouchAndRefreshExpire. by rewrite Z.eqb_refl.
        -- rewrite TouchAndRefreshExpire_fields by lia. unfold hitExpire. by rewrite Eref.
    + apply Htouch; [by apply TouchWith_same|apply TouchWith_entry|].
      rewrite TouchWith_fields. unfold hitExpire. by rewrite Eref.
Qed.

(** What a read answers, removes and leaves behind. *)
Lemma getMemory_spec sh k :
  shard_inv hash c sh → 0 ≤ nowOff c < 2 ^ 18 →
  match content (items sh) k with
  | None => getMemory hash c sh k = Some (sh, [], None)
  | Some (v, e) =>
    ∃ sh', getMemory hash c sh k =
        Some (sh', (if expiredAt e (nowOff c) then logged c [mkDeletion k v CauseExpiration] else []),
              (if expiredAt e (nowOff c) then None else Some v)) ∧
      shard_inv hash c sh' ∧ cap sh' = cap sh ∧
      ∀ k', content (items sh') k' =
        if decide (k' = k) then if expiredAt e (nowOff c) then None else Some (v, hitExpire e)
        else content (items sh) k'
  end.
Proof.
  intros Hinv Hnow. pose proof Hinv as [Hwf Hload Hcap]. unfold getMemory.
  match goal with |- context [probe _ ?body _ _] =>
    destruct (lookup_probe hash (items sh) k (Some (sh, [], None))
      (λ pos, getHit c sh (hash k) k pos (meta (At (items sh) pos)) (entry (At (items sh) pos))) body)
      as (r & Hr & Hs)
  end; [apply Hwf|by eapply wf_load| |].
  { intros pos. apply (snapshot_walk hash (items sh) pos k (sh, [], None)
      (λ pos e, getHit c sh (hash k) k pos (meta (At (items sh) pos)) e)). apply Hwf. }
  unfold homeOf in Hr. rewrite Hr. unfold content at 1.
  destruct (slotOf (items sh) k) as [i|] eqn:Hslot; cbn [fmap option_fmap option_map]; [|done].
  destruct Hs as (pos & _ & Hw & ->). by apply (getHit_spec sh k i pos).
Qed.

End GetMemory.
