(* ===== verification/ShardSpec.v ===== *)
(** * The abstract cache, and that a shard implements it

    The specification of one shard is a map from keys to a value and an expiration offset.  A store
    puts a cell and may evict; a read answers the cell unless it has expired; a deletion removes.
    Every removal is what the deletion handler hears.  [runOp_refines] shows that each shard
    operation is such a step, [runOps_refines] that whole runs are; [tracks] relates what a client
    stored last to what the cache holds and what the deletion handler heard. *)

From S2P Require Import Prelude Item Queue Table TableInv Policy Shard Lookup ShardSteps Rebuild ShardInv SetMemory GetMemory.

(** The first-level operations. *)
Inductive op (K V : Type) :=
| OSet (k : K) (v : V) (expireOff : Z)
| OGet (k : K)
| OPeek (k : K)
| ODelete (k : K).
Arguments OSet {K V}.
Arguments OGet {K V}.
Arguments OPeek {K V}.
Arguments ODelete {K V}.

(** The same cache at another moment of its coarse clock. *)
Definition atTime {K V} (c : Env K V) (now : Z) : Env K V :=
  mkEnv (costFunc c) (onDeletion c) now (ttlOff c) (refreshOnGet c).

(** A new shard: an empty table of [slots] slots, an empty policy and zero counters. *)
Definition newShard {K V P} `{!GoType K} `{!GoType V} (slots capacity : Z) (p : P) : shard K V P :=
  mkShard (NewFlatHashMap slots) p 0 capacity 0 0 0.

Section Spec.
Context {K V : Type} `{!EqDecision K}.
Implicit Types (m : K → option (V * Z)) (k : K) (c : Env K V).

Definition overflowed k (old : option (V * Z)) (cause : DeletionCause) : list (deletion K V) :=
  match old with Some (v, _) => [mkDeletion k v cause] | None => [] end.

Inductive spec_step c (capacity : Z) m : op K V → option V → list (deletion K V) → (K → option (V * Z)) → Prop :=
| spec_store k v x ev m' :
    rawCost c k v ≤ capacity → Forall evicted ev → removed (put m k v x) m' ev →
    spec_step c capacity m (OSet k v x) None (logged c (replaced k (m k) ++ ev)) m'
| spec_too_big k v x m' :
    capacity < rawCost c k v → removed m m' (overflowed k (m k) CauseOverflow) →
    spec_step c capacity m (OSet k v x) None (logged c (overflowed k (m k) CauseOverflow)) m'
| spec_miss k m' :
    m k = None → (∀ k', m' k' = m k') → spec_step c capacity m (OGet k) None [] m'
| spec_hit k v e m' :
    m k = Some (v, e) → expiredAt e (nowOff c) = false →
    (∀ k', m' k' = if decide (k' = k) then Some (v, hitExpire c e) else m k') →
    spec_step c capacity m (OGet k) (Some v) [] m'
| spec_expire k v e m' :
    m k = Some (v, e) → expiredAt e (nowOff c) = true →
    removed m m' [mkDeletion k v CauseExpiration] →
    spec_step c capacity m (OGet k) None (logged c [mkDeletion k v CauseExpiration]) m'
| spec_peek k m' :
    (∀ k', m' k' = m k') → spec_step c capacity m (OPeek k) (fst <$> m k) [] m'
| spec_delete k m' :
    removed m m' (overflowed k (m k) CauseInvalidation) →
    spec_step c capacity m (ODelete k) None (logged c (overflowed k (m k) CauseInvalidation)) m'.

(** Runs: each operation with the clock reading it saw; the answers and the log of removals. *)
Inductive spec_run c (capacity : Z) m : list (Z * op K V) → list (option V) → list (deletion K V) → (K → option (V * Z)) → Prop :=
| spec_nil m' : (∀ k, m' k = m k) → spec_run c capacity m [] [] [] m'
| spec_cons now o l r rs ds ds' m1 m2 :
    spec_step (atTime c now) capacity m o r ds m1 → spec_run c capacity m1 l rs ds' m2 →
    spec_run c capacity m ((now, o) :: l) (r :: rs) (ds ++ ds') m2.

End Spec.

(** ** What the specification means for a client *)

Section Client.
Context {K V : Type} `{!EqDecision K} (c : Env K V) (capacity : Z).
Implicit Types (m : K → option (V * Z)) (k : K) (o : op K V) (w : option V).

(** The value of [k] the cache accepted last, if it was not deleted since. *)
Definition afterOp o k w : option V :=
  match o with
  | OSet k' v _ => if decide (k = k') then if rawCost c k' v <=? capacity then Some v else None else w
  | ODelete k' => if decide (k = k') then None else w
  | OGet _ | OPeek _ => w
  end.

Definition lastStored (l : list (Z * op K V)) k : option V := foldl (λ w '(_, o), afterOp o k w) None l.

(** [w] is what the client last stored; the cache has it, or told the handler it went. *)
Definition tracks m (log : list (deletion K V)) k w : Prop :=
  match m k with
  | Some (v, _) => w = Some v
  | None => onDeletion c = true → ∀ v, w = Some v →
      ∃ cause, Automatic cause = true ∧ mkDeletion k v cause ∈ log
  end.

Lemma removed_tracks m m' gone log k w :
  removed m m' gone → tracks m log k w → (∀ d, d ∈ gone → Automatic (dcause d) = true) →
  tracks m' (log ++ logged c gone) k w.
Proof.
  intros [_ Hhad Hafter] Ht Hauto. unfold tracks in *. rewrite Hafter. case_decide as Hin.
  - intros Hon v ->. unfold logged. rewrite Hon. apply list_elem_of_fmap in Hin as (d & -> & Hd).
    specialize (Hhad d Hd). destruct (m (dkey d)) as [[v' e]|]; [|done]. cbn in Hhad.
    exists (dcause d). split; [by apply Hauto|]. apply elem_of_app. right. destruct d; cbn in *. congruence.
  - destruct (m k) as [[v' e]|]; [done|]. intros Hon v Hv. destruct (Ht Hon v Hv) as (cause & ? & ?).
    exists cause. set_solver.
Qed.

Lemma tracks_more m log log' k w : tracks m log k w → tracks m (log ++ log') k w.
Proof.
  unfold tracks. destruct (m k) as [[v e]|]; [done|]. intros H Hon v Hv.
  destruct (H Hon v Hv) as (cause & ? & ?). exists cause. set_solver.
Qed.

Lemma tracks_ext m m' log k w : m' k = m k → tracks m log k w → tracks m' log k w.
Proof. unfold tracks. by intros ->. Qed.

Lemma put_tracks m log k k' v x w :
  tracks m log k w → tracks (put m k' v x) log k (if decide (k = k') then Some v else w).
Proof. intros H. unfold tracks, put in *. by case_decide. Qed.

Lemma evicted_automatic (d : deletion K V) : evicted d → Automatic (dcause d) = true.
Proof. by intros [->| ->]. Qed.

(** A removal of [k] itself that leaves nothing stored. *)
Lemma drop_tracks m m' log k k' w cause :
  removed m m' (overflowed k' (m k') cause) → tracks m log k w →
  tracks m' log k (if decide (k = k') then None else w).
Proof.
  intros [_ _ Hafter] Ht. unfold tracks in *. rewrite Hafter. unfold overflowed.
  destruct (decide (k = k')) as [->|Hne].
  - destruct (m k') as [[v e]|]; cbn; case_decide; set_solver.
  - destruct (m k') as [[v e]|]; cbn; (rewrite decide_False by set_solver); done.
Qed.

Lemma spec_step_tracks now m o r ds m' log k w :
  spec_step (atTime c now) capacity m o r ds m' → tracks m log k w →
  tracks m' (log ++ ds) k (afterOp o k w).
Proof.
  intros Hstep Ht. inversion Hstep as [k' v x ev ? Hfit Hev Hrm|k' v x ? Hbig Hrm|k' ? Hm Hm'|k' v e ? Hm Hex Hm'
    |k' v e ? Hm Hex Hrm|k' ? Hm'|k' ? Hrm]; subst; cbn [afterOp].
  - change (rawCost (atTime c now)) with (rawCost c) in Hfit. rewrite (proj2 (Z.leb_le _ _) Hfit). change (logged (atTime c now)) with (logged c).
    rewrite logged_app, app_assoc. eapply removed_tracks; [exact Hrm| |].
    + by apply put_tracks, tracks_more.
    + intros d Hd. apply evicted_automatic. by eapply Forall_forall.
  - change (rawCost (atTime c now)) with (rawCost c) in Hbig. rewrite (proj2 (Z.leb_gt _ _) Hbig). apply tracks_more. by eapply drop_tracks.
  - rewrite app_nil_r. by apply (tracks_ext m).
  - rewrite app_nil_r. unfold tracks in *. rewrite Hm'. case_decide as E; [|done]. subst. by rewrite Hm in Ht.
  - eapply removed_tracks; [exact Hrm|done|]. by intros d ->%list_elem_of_singleton.
  - rewrite app_nil_r. by apply (tracks_ext m).
  - apply tracks_more. by eapply drop_tracks.
Qed.

Lemma spec_run_tracks m l rs ds m' log k w :
  spec_run c capacity m l rs ds m' → tracks m log k w →
  tracks m' (log ++ ds) k (foldl (λ w '(_, o), afterOp o k w) w l).
Proof.
  intros Hrun. revert log w. induction Hrun as [m m' Hm|m now o l r rs ds ds' m1 m2 Hstep Hrun IH]; intros log w Ht.
  - rewrite app_nil_r. by apply (tracks_ext m).
  - rewrite app_assoc. cbn [foldl]. apply IH. by eapply spec_step_tracks.
Qed.

(** A read answers the last stored value or nothing. *)
Lemma spec_get_fresh now m k r ds m' log w :
  spec_step (atTime c now) capacity m (OGet k) r ds m' → tracks m log k w → r = None ∨ r = w.
Proof.
  intros Hstep Ht. inversion Hstep; subst; [by left| |by left].
  right. unfold tracks in Ht. by rewrite H0 in Ht.
Qed.

End Client.

Section Refinement.
Context {K V P : Type} `{!EqDecision K} `{!GoType K} `{!GoType V}.
Context `{!EvictionPolicy K V P} `{!PolicyLaws K V P}.
Context (hash : K → Z).
Implicit Types (sh : shard K V P) (k : K) (c : Env K V).

Definition runOp c sh (o : op K V) : option (shard K V P * list (deletion K V) * option V) :=
  match o with
  | OSet k v x =>
    match setMemory hash c sh k v x with Some (sh, ds) => Some (sh, ds, None) | None => None end
  | OGet k => getMemory hash c sh k
  | OPeek k => match peekMemory hash sh k with Some r => Some (sh, [], r) | None => None end
  | ODelete k =>
    match deleteMemory hash c sh k [] with Some (sh, ds) => Some (sh, ds, None) | None => None end
  end.

Fixpoint runOps c sh (l : list (Z * op K V)) : option (shard K V P * list (deletion K V) * list (option V)) :=
  match l with
  | [] => Some (sh, [], [])
  | (now, o) :: l =>
    match runOp (atTime c now) sh o with
    | None => None
    | Some (sh, ds, r) =>
      match runOps c sh l with
      | None => None
      | Some (sh, ds', rs) => Some (sh, ds ++ ds', r :: rs)
      end
    end
  end.

(** Offsets are on the 18-bit scale. *)
Definition op_ok (o : op K V) : Prop :=
  match o with OSet _ _ x => 0 ≤ x < 2 ^ 18 | _ => True end.

Definition ops_ok (l : list (Z * op K V)) : Prop :=
  Forall (λ '(now, o), 0 ≤ now < 2 ^ 18 ∧ op_ok o) l.

Lemma live_le_weight c sh : shard_inv hash c sh → 0 ≤ live sh ≤ weight sh.
Proof.
  intros [Hwf _ _]. pose proof (nLive_le_sumW c (items sh)) as H.
  rewrite <- (sw_live _ _ _ _ Hwf), <- (sw_weight _ _ _ _ Hwf) in H. pose proof (sw_live _ _ _ _ Hwf) as Hl.
  pose proof (nLive_nonneg (items sh)). lia.
Qed.

Lemma live_le_cap c sh : shard_inv hash c sh → live sh ≤ cap sh.
Proof. intros Hinv. pose proof (live_le_weight c sh Hinv). destruct Hinv. lia. Qed.

Lemma inv_atTime c now sh : shard_inv hash c sh → shard_inv hash (atTime c now) sh.
Proof. intros [[] ? ?]. by split; [split|..]. Qed.

Lemma inv_atTime_back c now sh : shard_inv hash (atTime c now) sh → shard_inv hash c sh.
Proof. intros [[] ? ?]. by split; [split|..]. Qed.

Lemma runOp_refines c sh o :
  shard_inv hash c sh → cap sh < 2 ^ 31 - 1 → 0 ≤ nowOff c < 2 ^ 18 → op_ok o →
  ∃ sh' ds r, runOp c sh o = Some (sh', ds, r) ∧ shard_inv hash c sh' ∧ cap sh' = cap sh ∧
    spec_step c (cap sh) (content (items sh)) o r ds (content (items sh')).
Proof.
  intros Hinv Hcap Hnow Hop. pose proof (live_le_cap c sh Hinv) as Hlive. destruct o as [k v x|k|k|k]; cbn [runOp].
  - destruct (Z_le_gt_dec (rawCost c k v) (cap sh)) as [Hfit|Hbig].
    + destruct (setMemory_fits hash c sh k v x Hinv) as (sh' & ev & -> & Hinv' & Hc & Hev & Hrm & _); [lia|done|done|].
      eexists _, _, _. split_and!; [done|done|done|]. by apply spec_store.
    + destruct (setMemory_overflow hash c sh k v x Hinv) as (sh' & -> & Hinv' & Hc & Hrm); [lia|].
      eexists _, _, _. split_and!; [done|done|done|]. apply spec_too_big; [lia|done].
  - pose proof (getMemory_spec hash c sh k Hinv Hnow) as Hg.
    destruct (content (items sh) k) as [[v e]|] eqn:Ek.
    + destruct Hg as (sh' & -> & Hinv' & Hc & Hcon). eexists _, _, _. split_and!; [done|done|done|].
      destruct (expiredAt e (nowOff c)) eqn:Ee; [|by eapply spec_hit].
      eapply spec_expire; [done|done|]. split; cbn.
      * apply NoDup_singleton.
      * intros d ->%list_elem_of_singleton. cbn. by rewrite Ek.
      * intros k'. rewrite Hcon. repeat case_decide; set_solver.
    + rewrite Hg. eexists _, _, _. split_and!; [done|done|done|]. by apply spec_miss.
  - pose proof Hinv as [Hwf Hload _]. rewrite (peekMemory_spec hash) by (apply Hwf || by eapply wf_load).
    eexists _, _, _. split_and!; [done|done|done|]. by apply spec_peek.
  - destruct (deleteMemory_spec hash c sh k [] Hinv) as (sh' & -> & Hinv' & Hc & _ & Hrm).
    eexists _, _, _. split_and!; [done|done|done|]. by apply spec_delete.
Qed.

Lemma runOps_refines c l : ∀ sh,
  shard_inv hash c sh → cap sh < 2 ^ 31 - 1 → ops_ok l →
  ∃ sh' ds rs, runOps c sh l = Some (sh', ds, rs) ∧ shard_inv hash c sh' ∧ cap sh' = cap sh ∧
    spec_run c (cap sh) (content (items sh)) l rs ds (content (items sh')).
Proof.
  induction l as [|[now o] l IH]; intros sh Hinv Hcap Hl; cbn [runOps].
  { eexists _, _, _. split_and!; [done|done|done|]. by constructor. }
  apply Forall_cons in Hl as [[Hnow Hop] Hl].
  destruct (runOp_refines (atTime c now) sh o) as (sh1 & ds & r & -> & Hinv1 & Hc1 & Hstep);
    [by apply inv_atTime|done|done|done|].
  destruct (IH sh1) as (sh2 & ds' & rs & -> & Hinv2 & Hc2 & Hrun); [by eapply inv_atTime_back|lia|done|].
  eexists _, _, _. split_and!; [done|done|congruence|]. econstructor; [done|]. by rewrite <- Hc1.
Qed.

(** ** The initial state *)

Lemma newShard_inv c n capacity p :
  6 ≤ n ≤ 32 → 0 ≤ capacity → pInv (K := K) (V := V) p → pNodes (K := K) (V := V) p = [] →
  shard_inv hash c (newShard (2 ^ n) capacity p) ∧
  ∀ k, content (items (newShard (P := P) (V := V) (2 ^ n) capacity p)) k = None.
Proof.
  intros Hn Hcap Hp Hnodes.
  destruct (fresh_table hash c (2 ^ n)) as (Hi & Hlen & Hl & Ht & Hw & Hq); [by exists n|]. split.
  - split; [split|..]; cbn [newShard items policy live dirty weight deadCount cap]; try done; try lia.
    + by rewrite Hnodes.
    + unfold loaded. cbn [newShard items live dirty]. pose proof (tLen_pos _ (ti_shape _ _ Hi)). lia.
  - intros k. cbn [newShard items]. unfold content. replace (slotOf (NewFlatHashMap (2 ^ n)) k) with (@None Z); [done|].
    symmetry. apply slotOf_None. intros i _. by rewrite NewFlatHashMap_At.
Qed.

(** ** Runs from a new shard *)

(** A run from a new shard succeeds, keeps the invariant, and the contents track the client. *)
Lemma run_from_new c n capacity p l :
  6 ≤ n ≤ 32 → 0 ≤ capacity < 2 ^ 31 - 1 → pInv (K := K) (V := V) p → pNodes (K := K) (V := V) p = [] → ops_ok l →
  ∃ sh ds rs, runOps c (newShard (2 ^ n) capacity p) l = Some (sh, ds, rs) ∧ shard_inv hash c sh ∧
    cap sh = capacity ∧ ∀ k, tracks c (content (items sh)) ds k (lastStored c capacity l k).
Proof.
  intros Hn Hcap Hp Hnodes Hl. destruct (newShard_inv c n capacity p Hn ltac:(lia) Hp Hnodes) as [Hinv Hempty].
  destruct (runOps_refines c l _ Hinv) as (sh & ds & rs & E & Hinv' & Hc & Hrun); [cbn; lia|done|].
  exists sh, ds, rs. split_and!; [done|done|done|]. intros k.
  apply (spec_run_tracks c capacity _ _ _ _ _ [] k None Hrun). unfold tracks. by rewrite Hempty.
Qed.

Lemma runOps_app c l1 : ∀ sh l2,
  runOps c sh (l1 ++ l2) =
    match runOps c sh l1 with
    | None => None
    | Some (sh1, ds1, rs1) =>
      match runOps c sh1 l2 with
      | None => None
      | Some (sh2, ds2, rs2) => Some (sh2, ds1 ++ ds2, rs1 ++ rs2)
      end
    end.
Proof.
  induction l1 as [|[now o] l1 IH]; intros sh l2; cbn [runOps app].
  - by destruct (runOps c sh l2) as [[[? ?] ?]|].
  - destruct (runOp (atTime c now) sh o) as [[[sh1 ds1] r]|]; [|done]. rewrite IH.
    destruct (runOps c sh1 l1) as [[[sh2 ds2] rs2]|]; [|done].
    destruct (runOps c sh2 l2) as [[[sh3 ds3] rs3]|]; [|done]. by rewrite app_assoc.
Qed.

(** A read at the end of a run. *)
Lemma read_after_run c n capacity p l now k :
  6 ≤ n ≤ 32 → 0 ≤ capacity < 2 ^ 31 - 1 → pInv (K := K) (V := V) p → pNodes (K := K) (V := V) p = [] →
  ops_ok l → 0 ≤ now < 2 ^ 18 →
  ∃ sh ds rs r, runOps c (newShard (2 ^ n) capacity p) (l ++ [(now, OGet k)]) = Some (sh, ds, rs ++ [r]) ∧
    (r = None ∨ r = lastStored c capacity l k).
Proof.
  intros Hn Hcap Hp Hnodes Hl Hnow.
  destruct (run_from_new c n capacity p l Hn Hcap Hp Hnodes Hl) as (sh & ds & rs & E & Hinv & Hc & Ht).
  destruct (runOp_refines (atTime c now) sh (OGet k)) as (sh' & ds' & r & E' & _ & _ & Hstep);
    [by apply inv_atTime|lia|done|done|].
  exists sh', (ds ++ (ds' ++ [])), rs, r. rewrite runOps_app, E. cbn [runOps]. rewrite E'. split; [done|].
  rewrite Hc in Hstep. by eapply spec_get_fresh.
Qed.

End Refinement.
