(* ===== verification/ShardTheorems.v ===== *)
(** * The theorems about one shard

    The properties of the first level, stated on the operations of cache.go and proved from the
    component lemmas, each with an instance on a concrete shard under the GCLOCK policy. *)

From S2P Require Import Prelude Item Queue Table TableInv Policy ClockPolicy Shard Lookup ShardSteps Rebuild ShardInv SetMemory GetMemory ShardSpec.

Section Theorems.
Context {K V P : Type} `{!EqDecision K} `{!GoType K} `{!GoType V}.
Context `{!EvictionPolicy K V P} `{!PolicyLaws K V P}.
Context (hash : K → Z) (c : Env K V).
Implicit Types (sh : shard K V P) (k : K).

(** A policy with nothing in it. *)
Definition empty_policy (p : P) : Prop := pInv (K := K) (V := V) p ∧ pNodes (K := K) (V := V) p = [].

(** C1: A new shard of a capacity below 2^31 - 1 under any policy that keeps the policy laws, driven by any sequence of stores,
    reads, peeks and deletions, runs to the end (every loop terminates), and its answers, its
    deletion log and its contents are a run of the abstract cache specification. *)
Theorem shard_implements_cache n capacity p l :
  6 ≤ n ≤ 32 → 0 ≤ capacity < 2 ^ 31 - 1 → empty_policy p → ops_ok l →
  ∃ sh ds rs, runOps hash c (newShard (2 ^ n) capacity p) l = Some (sh, ds, rs) ∧
    spec_run c capacity (content (items (newShard (V := V) (2 ^ n) capacity p))) l rs ds (content (items sh)) ∧
    ∀ k, content (items (newShard (V := V) (2 ^ n) capacity p)) k = None.
Proof.
  intros Hn Hcap [Hp Hnodes] Hl.
  destruct (newShard_inv hash c n capacity p Hn ltac:(lia) Hp Hnodes) as [Hinv Hempty].
  destruct (runOps_refines hash c l _ Hinv) as (sh & ds & rs & E & _ & _ & Hrun); [cbn; lia|done|].
  by exists sh, ds, rs.
Qed.

(** C2: No stale reads.  Whatever happened before, a read of a key answers nothing or the value the
    cache accepted last for that key and that was not deleted since. *)
Theorem no_stale_reads n capacity p l now k :
  6 ≤ n ≤ 32 → 0 ≤ capacity < 2 ^ 31 - 1 → empty_policy p → ops_ok l → 0 ≤ now < 2 ^ 18 →
  ∃ sh ds rs r, runOps hash c (newShard (2 ^ n) capacity p) (l ++ [(now, OGet k)]) = Some (sh, ds, rs ++ [r]) ∧
    (r = None ∨ r = lastStored c capacity l k).
Proof. intros Hn Hcap [Hp Hnodes] Hl Hnow. by apply read_after_run. Qed.

(** C3: No silent loss.  With a deletion handler set, a key whose last accepted value was not deleted
    is still there with that value, or the handler was told of that value with an automatic cause. *)
Theorem no_silent_loss n capacity p l :
  6 ≤ n ≤ 32 → 0 ≤ capacity < 2 ^ 31 - 1 → empty_policy p → ops_ok l → onDeletion c = true →
  ∃ sh ds rs, runOps hash c (newShard (2 ^ n) capacity p) l = Some (sh, ds, rs) ∧
    ∀ k v, lastStored c capacity l k = Some v →
      fst <$> content (items sh) k = Some v ∨ ∃ cause, Automatic cause = true ∧ mkDeletion k v cause ∈ ds.
Proof.
  intros Hn Hcap [Hp Hnodes] Hl Hon.
  destruct (run_from_new hash c n capacity p l Hn Hcap Hp Hnodes Hl) as (sh & ds & rs & E & _ & _ & Ht).
  exists sh, ds, rs. split; [done|]. intros k v Hv. specialize (Ht k). unfold tracks in Ht.
  destruct (content (items sh) k) as [[v' e]|]; [left; cbn; congruence|right; by apply Ht].
Qed.

(** C4: After any run the counters of the shard are exact: the weight is the sum of the costs of the
    live items and never exceeds the capacity, [live] and [dirty] count the live and the dead slots,
    fewer than 3/4 of the slots are taken, and each retained slot has exactly one queue node. *)
Theorem shard_accounting n capacity p l :
  6 ≤ n ≤ 32 → 0 ≤ capacity < 2 ^ 31 - 1 → empty_policy p → ops_ok l →
  ∃ sh ds rs, runOps hash c (newShard (2 ^ n) capacity p) l = Some (sh, ds, rs) ∧
    weight sh = sumW c (items sh) ∧ 0 ≤ weight sh ≤ capacity ∧ live sh ≤ capacity ∧
    live sh = nLive (items sh) ∧ dirty sh = nTomb (items sh) ∧ 0 ≤ deadCount sh ∧
    (live sh + dirty sh) * 4 < tLen (items sh) * 3 ∧
    NoDup (Idx <$> pNodes (K := K) (V := V) (policy sh)) ∧
    ∀ i, i ∈ Idx <$> pNodes (K := K) (V := V) (policy sh) ↔
      0 ≤ i < tLen (items sh) ∧ retained (At (items sh) i) = true.
Proof.
  intros Hn Hcap [Hp Hnodes] Hl.
  destruct (run_from_new hash c n capacity p l Hn Hcap Hp Hnodes Hl) as (sh & ds & rs & E & Hinv & Hc & _).
  exists sh, ds, rs. pose proof (live_le_cap hash c sh Hinv). destruct Hinv as [[Hi Hpi [Hnd Hq] Hl' Hd Hw Hdc] Hload Hwc].
  rewrite Hc in *. split_and!; try done; lia.
Qed.

(** The integers a shard holds are of their Go types: [weight] and [cap] are int64, [live] and [dirty] int, the mask, the group
    counters and the slot of a queue node uint32, the meta words uint64. *)
Record shard_typed (sh : shard K V P) : Prop := {
  st_weight : - 2 ^ 63 ≤ weight sh < 2 ^ 63;
  st_cap : - 2 ^ 63 ≤ cap sh < 2 ^ 63;
  st_live : 0 ≤ live sh < 2 ^ 31;
  st_dirty : 0 ≤ dirty sh < 2 ^ 32;
  st_dead : 0 ≤ deadCount sh;
  st_mask : is_u32 (mask (items sh)) ∧ ∃ b : Z, 6 ≤ b ≤ 32 ∧ mask (items sh) + 1 = 2 ^ b;
  st_meta i : is_u64 (meta (At (items sh) i)) ∧ encode (decode (meta (At (items sh) i))) = meta (At (items sh) i);
  st_overflows : Forall is_u32 (overflows (items sh));
  st_nodes : Forall (λ node, is_u32 (Idx node)) (pNodes (K := K) (V := V) (policy sh))
}.

Lemma shard_inv_typed sh : shard_inv hash c sh → cap sh < 2 ^ 31 - 1 → shard_typed sh.
Proof.
  intros Hinv Hcap. pose proof (live_le_cap hash c sh Hinv) as Hlc. destruct Hinv as [Hwf Hload Hw].
  pose proof (wf_load hash c sh 0 Hwf Hload) as Hocc. destruct Hwf as [Hi _ [_ Hq] Hl Hd _ Hdc].
  destruct (ti_shape _ _ Hi) as (b & Hk & Hm & _). assert (tLen (items sh) = 2 ^ b) as HL by (unfold tLen; lia).
  pose proof (Z.pow_le_mono_r 2 b 32 ltac:(lia) ltac:(lia)) as Hk32. pose proof (Z.pow_le_mono_r 2 6 b ltac:(lia) ltac:(lia)) as Hk6.
  change (2 ^ 32) with 4294967296 in *. change (2 ^ 6) with 64 in *. change (2 ^ 31) with 2147483648 in *. rewrite occ_split in Hocc.
  assert (0 ≤ nLive (items sh) ∧ 0 ≤ nTomb (items sh)) as [Hl0 Hd0] by (split; apply sumZ_nonneg; intros i _; apply b2z_range).
  split; try lia.
  - unfold is_u32. split; [lia|]. exists b. lia.
  - intros i. destruct (ti_meta _ _ Hi i) as [Hu _]. split; [done|by apply encode_decode].
  - apply Forall_lookup. intros i x Hx. pose proof (lookup_lt_Some _ _ _ Hx) as Hlt. pose proof (overflows_length _ (ti_shape _ _ Hi)) as Hlen.
    pose proof (ovf_bound _ _ (Z.of_nat i) Hi ltac:(lia)) as Hb. unfold ovf in Hb. rewrite Nat2Z.id, Hx in Hb. cbn in Hb. rewrite occ_split in Hb. unfold is_u32. lia.
  - apply Forall_forall. intros node Hn. unfold is_u32.
    destruct (proj1 (Hq (Idx node)) (list_elem_of_fmap_2 Idx _ _ Hn)) as [Hr _]. lia.
Qed.

(** C28: The integers of a shard stay in their Go types.  After any run the weight and the capacity are int64, the counts of live and
    dead slots are not negative and below 2^32, the mask is a uint32 one below a power of two, every meta word is a uint64 that its fields make up,
    every group counter and every slot number in a queue is a uint32: the arithmetic of the shard never wraps where the code
    does not mean it to. *)
Theorem shard_fields_typed n capacity p l :
  6 ≤ n ≤ 32 → 0 ≤ capacity < 2 ^ 31 - 1 → empty_policy p → ops_ok l →
  ∃ sh ds rs, runOps hash c (newShard (2 ^ n) capacity p) l = Some (sh, ds, rs) ∧ shard_typed sh.
Proof.
  intros Hn Hcap [Hp Hnodes] Hl.
  destruct (run_from_new hash c n capacity p l Hn Hcap Hp Hnodes Hl) as (sh & ds & rs & E & Hinv & Hc & _).
  exists sh, ds, rs. split; [done|]. apply shard_inv_typed; [done|lia].
Qed.

(** C5: Storing.  A value heavier than the whole shard is not stored, and the key's old value is dropped
    with cause Overflow.  Any other value is stored: the key holds it with the given expiration (an
    overwrite without a TTL keeps the old one), everything else is unchanged except for evicted keys,
    which are logged with the value they had; the replaced value is logged; the weight ends within the
    capacity, and nothing is evicted when there was room. *)
Theorem setMemory_stores sh k v x :
  shard_inv hash c sh → live sh < 2 ^ 31 - 1 → 0 ≤ x < 2 ^ 18 →
  let old := content (items sh) k in
  if cap sh <? rawCost c k v then
    let gone := overflowed k old CauseOverflow in
    ∃ sh', setMemory hash c sh k v x = Some (sh', logged c gone) ∧ shard_inv hash c sh' ∧
      cap sh' = cap sh ∧ removed (content (items sh)) (content (items sh')) gone
  else
    ∃ sh' ev, setMemory hash c sh k v x = Some (sh', logged c (replaced k old ++ ev)) ∧
      shard_inv hash c sh' ∧ cap sh' = cap sh ∧ Forall evicted ev ∧
      removed (put (content (items sh)) k v x) (content (items sh')) ev ∧
      weight sh' = weight sh + rawCost c k v - costs c (replaced k old) - costs c ev ∧
      (weight sh + rawCost c k v - costs c (replaced k old) ≤ cap sh → ev = []).
Proof.
  intros Hinv Hl Hx. cbv zeta. destruct (Z.ltb_spec (cap sh) (rawCost c k v)).
  - by apply setMemory_overflow.
  - by apply setMemory_fits.
Qed.

(** C7: Reading.  An absent key misses and changes nothing; a present one whose TTL has not elapsed
    answers its value and changes no other key (with TTL refresh, its expiration moves); an elapsed
    one misses, is removed, and is logged as expired. *)
Theorem getMemory_reads sh k :
  shard_inv hash c sh → 0 ≤ nowOff c < 2 ^ 18 →
  match content (items sh) k with
  | None => getMemory hash c sh k = Some (sh, [], None)
  | Some (v, e) =>
    ∃ sh', getMemory hash c sh k =
        Some (sh', (if expiredAt e (nowOff c) then logged c [mkDeletion k v CauseExpiration] else []),
              (if expiredAt e (nowOff c) then None else Some v)) ∧
      shard_inv hash c sh' ∧ cap sh' = cap sh ∧
      ∀ k', content (items sh') k' =
        if decide (k' = k) then if expiredAt e (nowOff c) then None else Some (v, hitExpire c e)
        else content (items sh) k'
  end.
Proof. apply getMemory_spec. Qed.

(** Deleting removes exactly that key, if it is there, and logs its value as invalidated. *)
Theorem deleteMemory_deletes sh k ds :
  shard_inv hash c sh →
  let gone := overflowed k (content (items sh) k) CauseInvalidation in
  ∃ sh', deleteMemory hash c sh k ds = Some (sh', ds ++ logged c gone) ∧ shard_inv hash c sh' ∧
    cap sh' = cap sh ∧ weight sh' ≤ weight sh ∧ removed (content (items sh)) (content (items sh')) gone.
Proof. apply deleteMemory_spec. Qed.

(** C9: Eviction terminates, whatever the policy, within one turn per queued node, brings the weight
    within the capacity, and logs every item it removes as evicted or expired. *)
Theorem evictShard_reaches_capacity sh ds :
  shard_wf hash c sh 0 → 0 ≤ cap sh →
  ∃ sh' gone, evictShard hash c sh ds = Some (sh', ds ++ logged c gone) ∧ weight sh' ≤ cap sh' ∧
    shard_wf hash c sh' 0 ∧ cap sh' = cap sh ∧ Forall evicted gone ∧
    removed (content (items sh)) (content (items sh')) gone ∧ weight sh' = weight sh - costs c gone.
Proof.
  intros Hwf Hcap. destruct (evictShard_spec hash c sh ds Hwf Hcap) as (sh' & gone & E & [] & Hev & Hw).
  by exists sh', gone.
Qed.

(** C10: A rebuild never fails to place an item, keeps the contents, the weight and the live count,
    and leaves the table under its load limit. *)
Theorem maybeRebuild_keeps_contents sh delta :
  shard_wf hash c sh delta → live sh < 2 ^ 31 →
  ∃ sh', maybeRebuild hash sh = Some sh' ∧ shard_wf hash c sh' delta ∧
    (∀ k, content (items sh') k = content (items sh) k) ∧
    weight sh' = weight sh ∧ cap sh' = cap sh ∧ live sh' = live sh ∧
    (live sh' + dirty sh') * 4 < tLen (items sh') * 3.
Proof.
  intros Hwf Hl. destruct (maybeRebuild_spec hash c sh delta Hwf Hl) as (sh' & E & []). by exists sh'.
Qed.

(** C11: The three probe walks (under the lock, lock-free presence, lock-free peek) agree with an
    exhaustive search of the table: the overflow counters, tags and empty slots never cut a probe
    short of the key. *)
Theorem probes_agree_with_search sh k :
  shard_inv hash c sh →
  findSlot sh (hash k) k = Some (slotOf (items sh) k) ∧
  livePresent sh (hash k) k = Some (bool_decide (is_Some (slotOf (items sh) k))) ∧
  peekMemory hash sh k = Some (fst <$> content (items sh) k).
Proof.
  intros [Hwf Hload _]. pose proof (sw_table _ _ _ _ Hwf). pose proof (wf_load _ _ _ _ Hwf Hload).
  split_and!; [by apply findSlot_spec|by apply livePresent_spec|by apply peekMemory_spec].
Qed.

(** The bulk reclaim of tombstones triggered by deletions keeps the shard well formed, its
    contents and its accounting. *)
Theorem noteDead_keeps_contents sh delta :
  shard_wf hash c sh delta →
  shard_wf hash c (noteDead sh) delta ∧ weight (noteDead sh) = weight sh ∧ cap (noteDead sh) = cap sh ∧
  ∀ k, content (items (noteDead sh)) k = content (items sh) k.
Proof.
  intros Hwf. destruct (noteDead_spec hash c sh delta Hwf) as [Hwf' [_ _ Ha] Hc _ Hw]. cbn in Hw.
  split_and!; [done|lia|done|]. intros k. by rewrite Ha.
Qed.

End Theorems.

(** ** Instances: a shard of integers under GCLOCK, with a cost function and a deletion handler *)

Definition hashZ (k : Z) : Z := u64 (k * 11400714819323198485).

Definition exEnv : Env Z Z := mkEnv (Some (λ _ v, v)) true 5 10 true.

Definition exNew : shard Z Z ClockPolicy := newShard (2 ^ 6) 100 NewClockPolicy.

Definition exOps : list (Z * op Z Z) := [(5, OSet 1 30 0); (5, OSet 2 50 7); (6, OGet 1); (6, ODelete 3)].

(** The shard after [exOps]: key 1 weighs 30 and has no TTL, key 2 weighs 50 and expires at 7. *)
Definition exShard : shard Z Z ClockPolicy :=
  match runOps hashZ exEnv exNew exOps with Some (sh, _, _) => sh | None => exNew end.

Lemma empty_clock : empty_policy (K := Z) (V := Z) NewClockPolicy.
Proof. split; [apply emptyQueue_wf|done]. Qed.

Lemma exOps_ok : ops_ok exOps.
Proof. repeat constructor; cbn; lia. Qed.

Lemma exShard_inv : shard_inv hashZ exEnv exShard.
Proof.
  destruct (newShard_inv hashZ exEnv 6 100 NewClockPolicy) as [Hinv _]; [lia|lia|apply empty_clock..|].
  destruct (runOps_refines hashZ exEnv exOps _ Hinv) as (sh & ds & rs & E & Hinv' & _ & _);
    [cbn; lia|apply exOps_ok|].
  unfold exShard, exNew. rewrite E. done.
Qed.

Example exShard_contents :
  content (items exShard) 1 = Some (30, 17) ∧ content (items exShard) 2 = Some (50, 7) ∧
  content (items exShard) 3 = None ∧ weight exShard = 80 ∧ live exShard = 2.
Proof. vm_compute. done. Qed.

Lemma shard_implements_cache_witness :
  ∃ sh ds rs, runOps hashZ exEnv exNew exOps = Some (sh, ds, rs) ∧
    spec_run exEnv 100 (content (items exNew)) exOps rs ds (content (items sh)).
Proof.
  destruct (shard_implements_cache hashZ exEnv 6 100 NewClockPolicy exOps) as (sh & ds & rs & E & Hrun & _);
    [lia|lia|apply empty_clock|apply exOps_ok|].
  exists sh, ds, rs. split; [exact E|exact Hrun].
Defined.

Example exOps_answers : snd <$> runOps hashZ exEnv exNew exOps = Some [None; None; Some 30; None].
Proof. vm_compute. reflexivity. Qed.

Lemma no_stale_reads_witness :
  ∃ sh ds rs r, runOps hashZ exEnv exNew (exOps ++ [(6, OGet 2)]) = Some (sh, ds, rs ++ [r]) ∧
    (r = None ∨ r = lastStored exEnv 100 exOps 2).
Proof.
  apply (no_stale_reads hashZ exEnv 6 100 NewClockPolicy exOps 6 2);
    [lia|lia|apply empty_clock|apply exOps_ok|lia].
Defined.

Example exOps_last : lastStored exEnv 100 exOps 2 = Some 50.
Proof. vm_compute. reflexivity. Qed.

(** Storing key 4 overflows the shard: key 2 has expired, key 1 was read and keeps its chance, so the
    new key itself goes; the handler hears of both. *)
Definition exEvict : list (Z * op Z Z) := exOps ++ [(7, OSet 4 90 0)].

Lemma no_silent_loss_witness :
  ∃ sh ds rs, runOps hashZ exEnv exNew exEvict = Some (sh, ds, rs) ∧
    (fst <$> content (items sh) 2 = Some 50 ∨ ∃ cause, Automatic cause = true ∧ mkDeletion 2 50 cause ∈ ds).
Proof.
  destruct (no_silent_loss hashZ exEnv 6 100 NewClockPolicy exEvict) as (sh & ds & rs & E & H);
    [lia|lia|apply empty_clock|repeat constructor; cbn; lia|reflexivity|].
  exists sh, ds, rs. split; [exact E|]. apply H. vm_compute. reflexivity.
Defined.

Example exEvict_log :
  snd <$> (fst <$> runOps hashZ exEnv exNew exEvict) =
    Some [mkDeletion 2 50 CauseExpiration; mkDeletion 4 90 CauseEviction].
Proof. vm_compute. reflexivity. Qed.

Lemma shard_accounting_witness :
  ∃ sh ds rs, runOps hashZ exEnv exNew exEvict = Some (sh, ds, rs) ∧ weight sh = sumW exEnv (items sh) ∧
    weight sh ≤ 100 ∧ live sh = nLive (items sh).
Proof.
  destruct (shard_accounting hashZ exEnv 6 100 NewClockPolicy exEvict)
    as (sh & ds & rs & E & Hw & Hc & _ & Hl & _);
    [lia|lia|apply empty_clock|repeat constructor; cbn; lia|].
  exists sh, ds, rs. split_and!; [exact E|exact Hw|lia|exact Hl].
Defined.

Lemma shard_fields_typed_witness :
  ∃ sh ds rs, runOps hashZ exEnv exNew exEvict = Some (sh, ds, rs) ∧ shard_typed sh.
Proof.
  apply (shard_fields_typed hashZ exEnv 6 100 NewClockPolicy exEvict); [lia|lia|apply empty_clock|repeat constructor; cbn; lia].
Defined.

Lemma setMemory_stores_witness :
  (∃ sh', setMemory hashZ exEnv exShard 1 101 0 = Some (sh', [mkDeletion 1 30 CauseOverflow]) ∧ shard_inv hashZ exEnv sh') ∧
  ∃ sh' ev, setMemory hashZ exEnv exShard 1 40 0 = Some (sh', mkDeletion 1 30 CauseReplacement :: ev) ∧
    shard_inv hashZ exEnv sh' ∧ ev = [].
Proof.
  assert (live exShard < 2 ^ 31 - 1) as Hl by (vm_compute; reflexivity).
  assert ((cap exShard <? rawCost exEnv 1 101) = true) as H1 by (vm_compute; reflexivity).
  assert ((cap exShard <? rawCost exEnv 1 40) = false) as H2 by (vm_compute; reflexivity).
  pose proof (setMemory_stores hashZ exEnv exShard 1 101 0 exShard_inv Hl ltac:(lia)) as Hbig. cbv zeta in Hbig. rewrite H1 in Hbig.
  pose proof (setMemory_stores hashZ exEnv exShard 1 40 0 exShard_inv Hl ltac:(lia)) as Hfit. cbv zeta in Hfit. rewrite H2 in Hfit. split.
  - destruct Hbig as (sh' & E & Hinv & _). exists sh'. split; [exact E|exact Hinv].
  - destruct Hfit as (sh' & ev & E & Hinv & _ & _ & _ & _ & Hno).
    exists sh', ev. split; [exact E|]. split; [exact Hinv|]. apply Hno. vm_compute. discriminate.
Defined.

Lemma getMemory_reads_witness :
  ∃ sh', getMemory hashZ exEnv exShard 1 = Some (sh', [], Some 30) ∧ content (items sh') 1 = Some (30, 16).
Proof.
  pose proof (getMemory_reads hashZ exEnv exShard 1 exShard_inv) as H.
  rewrite (proj1 exShard_contents) in H. destruct H as (sh' & E & _ & _ & Hc);
    [vm_compute; split; [discriminate|reflexivity]|].
  exists sh'. split; [exact E|]. rewrite Hc. vm_compute. reflexivity.
Defined.

Lemma evictShard_reaches_capacity_witness :
  ∃ sh' gone, evictShard hashZ exEnv exShard [] = Some (sh', gone) ∧ weight sh' ≤ 100.
Proof.
  destruct (evictShard_reaches_capacity hashZ exEnv exShard []) as (sh' & gone & E & Hw & _ & Hc & _);
    [apply exShard_inv|vm_compute; discriminate|].
  exists sh', gone. split; [exact E|]. rewrite Hc in Hw. exact Hw.
Defined.

Lemma maybeRebuild_keeps_contents_witness :
  ∃ sh', maybeRebuild hashZ exShard = Some sh' ∧ content (items sh') 1 = Some (30, 17).
Proof.
  destruct (maybeRebuild_keeps_contents hashZ exEnv exShard 0) as (sh' & E & _ & Hc & _);
    [apply exShard_inv|vm_compute; reflexivity|].
  exists sh'. split; [exact E|]. rewrite Hc. vm_compute. reflexivity.
Defined.

Lemma probes_agree_with_search_witness :
  livePresent exShard (hashZ 2) 2 = Some true ∧ peekMemory hashZ exShard 2 = Some (Some 50).
Proof.
  destruct (probes_agree_with_search hashZ exEnv exShard 2) as (_ & Hl & Hp); [apply exShard_inv|].
  rewrite Hl, Hp. vm_compute. split; reflexivity.
Defined.
