(* ===== verification/Seqlock.v ===== *)
(** * Lock-free snapshots (internal/itemstore/item.go: SnapshotInto against the writers)

    A reader loads the meta word, copies the entry word by word, and loads the meta word again.  The
    writers of the slot run in between, one atomic step at a time: the generation steps that bracket
    an overwrite, the stores of single words, kills, frees and publications.  A validated copy is the
    entry as it stood at one moment of the reader's window. *)

From S2P Require Import Prelude Item Table TableInv.

Section Seqlock.
Context {W : Type}.

(** One slot as other threads see it: the meta word and the machine words of its entry. *)
Record cell := mkCell { cmeta : Z; cwords : list W }.

(** The meta words the operations of item.go store. *)
Definition metaOf (f : Item Z Z → Item Z Z) (m : Z) : Z := meta (f (mkItem m (mkEntry 0 0))).

Definition cgen (c : cell) : Z := f_gen (decode (cmeta c)).
Definition cdead (c : cell) : bool := f_dead (decode (cmeta c)).
Definition codd (c : cell) : bool := Z.odd (cgen c).

(** The entry may be written: a write is in progress, or the slot holds no live item. *)
Definition writable (c : cell) : Prop := codd c = true ∨ cdead c = true ∨ cmeta c = 0.

(** Steps of the threads around the reader.  The flag marks the steps that complete a write: the end
    of an overwrite and a publication.  [small] is a value of one machine word, which SetValue
    stores without the bracket; it is the last word of the entry. *)
Inductive cstep (small : bool) : cell → bool → cell → Prop :=
| cs_counter m m' ws :
    f_gen (decode m') = f_gen (decode m) → f_dead (decode m') = f_dead (decode m) → (m' = 0 ↔ m = 0) →
    cstep small (mkCell m ws) false (mkCell m' ws)
| cs_begin m ws :
    Z.odd (f_gen (decode m)) = false → f_dead (decode m) = false → gen_good m → small = false →
    cstep small (mkCell m ws) false (mkCell (metaOf beginWrite m) ws)
| cs_store m ws i w :
    writable (mkCell m ws) → cstep small (mkCell m ws) false (mkCell m (<[i := w]> ws))
| cs_store_small m ws w :
    small = true → cstep small (mkCell m ws) false (mkCell m (<[(length ws - 1)%nat := w]> ws))
| cs_end m ws :
    Z.odd (f_gen (decode m)) = true → cstep small (mkCell m ws) true (mkCell (metaOf endWrite m) ws)
| cs_kill m ws :
    Z.odd (f_gen (decode m)) = false → gen_good m →
    cstep small (mkCell m ws) false (mkCell (metaOf (λ s, (Kill s).1) m) ws)
| cs_free m ws :
    f_dead (decode m) = true → gen_good m →
    cstep small (mkCell m ws) false (mkCell (metaOf MakeFree m) ws)
| cs_publish m ws h x :
    f_dead (decode m) = true ∨ m = 0 → Z.odd (f_gen (decode m)) = false → 0 ≤ x < 2 ^ 18 →
    cstep small (mkCell m ws) true (mkCell (metaOf (λ s, Publish s (mkEntry 0 0) (TagOf h) x) m) ws).

(** A run of the slot: the cells it went through after the first, and how many writes completed. *)
Inductive cruns (small : bool) : cell → list cell → nat → Prop :=
| cr_nil c : cruns small c [] 0
| cr_cons c done c' l n :
    cstep small c done c' → cruns small c' l n → cruns small c (c' :: l) (if done then S n else n).

(** The validation of SnapshotInto. *)
Definition validates (metaWord now : Z) : bool :=
  (Z.land (Z.lxor now metaWord) AliveGenMask =? 0) && (Z.land metaWord 1 =? 0).

(** ** Generations *)

(** The even generation a cell has, or had when its write began; and its place in the cycle
    2, 4, ..., 2^28 - 2, 2, ... *)
Definition base (c : cell) : Z := cgen c - cgen c mod 2.
Definition place (g : Z) : Z := g / 2 - 1.
Definition cycle : Z := 2 ^ 27 - 1.

Lemma ldiff1_even x : 0 ≤ x → Z.even x = true → Z.ldiff x 1 = x.
Proof.
  intros Hx He. apply Z.bits_inj'. intros i Hi. rewrite Z.ldiff_spec. destruct (Z.eq_dec i 0) as [->|].
  - by rewrite Z.bit0_odd, <- Z.negb_even, He.
  - rewrite (Z.bits_above_log2 1 i) by (simpl; lia). btauto.
Qed.

Lemma nextGen_cases g :
  0 < g < 2 ^ 28 → Z.even g = true → nextGen g = if decide (g = 2 ^ 28 - 2) then 2 else g + 2.
Proof.
  intros Hg He. unfold nextGen. cbv zeta.
  assert (Z.even ((g + 2) mod 2 ^ 28) = true) as He' by (by rewrite even_mod_pow2, Z.even_add, He).
  rewrite ldiff1_even by (done || apply Z.mod_pos_bound; lia). case_decide as E.
  - subst g. done.
  - assert (g < 2 ^ 28 - 2).
    { apply Z.even_spec in He as [q ->]. lia. }
    rewrite Z.mod_small by lia. destruct (Z.eqb_spec (g + 2) 0); lia.
Qed.

Lemma nextGen_place g :
  0 < g < 2 ^ 28 → Z.even g = true →
  place (nextGen g) = (place g + 1) mod cycle ∧ 0 < nextGen g < 2 ^ 28 ∧ Z.even (nextGen g) = true.
Proof.
  intros Hg He. split_and!; [|apply nextGen_range..|apply nextGen_even]. rewrite nextGen_cases by done.
  apply Z.even_spec in He as [q ->]. unfold place, cycle. case_decide as E.
  - replace q with (2 ^ 27 - 1) by lia. done.
  - replace (2 * q + 2) with ((q + 1) * 2) by lia. rewrite (Z.mul_comm 2 q), !Z.div_mul by lia.
    rewrite Z.mod_small; lia.
Qed.

Lemma liveGen_next g : 0 < g < 2 ^ 28 → Z.even g = true → liveGen (g + 1 + 1) = nextGen g.
Proof.
  intros Hg He. unfold liveGen, nextGen. change GenMask with (Z.ones 28). rewrite Z.land_ones by lia.
  replace (g + 1 + 1) with (g + 2) by lia. rewrite ldiff1_even; [done|apply Z.mod_pos_bound; lia|].
  by rewrite even_mod_pow2, Z.even_add, He.
Qed.

Lemma cgen_range c : 0 ≤ cgen c < 2 ^ 28.
Proof. apply decode_ok. Qed.

Lemma base_parity c : codd c = false → base c = cgen c.
Proof. unfold base, codd. intros H. rewrite Zmod_odd, H. lia. Qed.

Lemma base_odd c : codd c = true → cgen c = base c + 1.
Proof. unfold base, codd. intros H. rewrite Zmod_odd, H. lia. Qed.

Lemma base_even c : Z.even (base c) = true.
Proof.
  unfold base. rewrite Z.even_sub, Zmod_odd, <- Z.negb_even. by destruct (Z.even (cgen c)).
Qed.

(** Each completed write moves the generation one place on. *)
Lemma cstep_base small c done c' :
  cstep small c done c' → 0 < base c →
  0 < base c' ∧ place (base c') = (place (base c) + Z.b2z done) mod cycle.
Proof.
  intros Hstep Hb. assert (base c < 2 ^ 28) as Hlt by (pose proof (cgen_range c); unfold base;
    pose proof (Z.mod_pos_bound (cgen c) 2 ltac:(lia)); lia).
  pose proof (base_even c) as He. apply Z.even_spec in He as [q Hq].
  assert (∀ x, cgen x = cgen c → base x = base c) as Hsame by (intros x Hx; unfold base; by rewrite Hx).
  assert (∀ x, base x = base c → 0 < base x ∧ place (base x) = (place (base c) + 0) mod cycle) as Hkeep.
  { intros x ->. split; [done|]. rewrite Z.add_0_r, Hq. unfold place, cycle.
    rewrite (Z.mul_comm 2), Z.div_mul by lia. rewrite Z.mod_small; lia. }
  assert (∀ x, cgen x = nextGen (base c) → 0 < base x ∧ place (base x) = (place (base c) + 1) mod cycle) as Hnext.
  { intros x Hx. destruct (nextGen_place (base c)) as (Hp & Hr & He'); [lia|apply base_even|].
    rewrite (base_parity x) by (unfold codd; by rewrite Hx, <- Z.negb_even, He'). rewrite Hx. split; [lia|done]. }
  destruct Hstep as [m m' ws Eg Ed Ez|m ws Ho Hd Hg Hs|m ws i w Hw|m ws w Hs|m ws Ho|m ws Ho Hg|m ws Hd Hg|m ws h x Hd Ho Hx];
    cbn [Z.b2z].
  - by apply Hkeep, Hsame.
  - apply Hkeep. set (c := mkCell m ws) in *. assert (codd c = false) as Hc by done. pose proof (base_parity c Hc) as Hbc.
    assert (cgen (mkCell (metaOf beginWrite m) ws) = base c + 1) as Hcg.
    { unfold cgen, metaOf. cbn [cmeta]. rewrite beginWrite_fields. cbn [f_gen meta]. change (f_gen (decode m)) with (cgen c). rewrite <- Hbc.
      apply Z.mod_small. rewrite Hq in *. lia. }
    unfold base at 1. rewrite Hcg, Hq. Z.to_euclidean_division_equations. lia.
  - by apply Hkeep, Hsame.
  - by apply Hkeep, Hsame.
  - apply Hnext. set (c := mkCell m ws) in *. assert (codd c = true) as Hc by done.
    unfold cgen, metaOf. cbn [cmeta]. rewrite endWrite_fields. cbn [f_gen meta]. change (f_gen (decode m)) with (cgen c).
    rewrite (base_odd c Hc). apply liveGen_next; [lia|apply base_even].
  - apply Hkeep, Hsame. unfold cgen, metaOf. cbn [cmeta]. by rewrite Kill_fields.
  - apply Hkeep, Hsame. unfold cgen, metaOf. cbn [cmeta]. by rewrite MakeFree_fields.
  - apply Hnext. set (c := mkCell m ws) in *. assert (codd c = false) as Hc by done.
    unfold cgen, metaOf. cbn [cmeta]. rewrite Publish_fields by done. cbn [f_gen meta]. change (f_gen (decode m)) with (cgen c).
    by rewrite (base_parity c Hc).
Qed.

Lemma cruns_base small c l n :
  cruns small c l n → 0 < base c →
  place (base (default c (last l))) = (place (base c) + Z.of_nat n) mod cycle ∧ 0 < base (default c (last l)).
Proof.
  induction 1 as [c|c done c' l n Hstep Hrun IH]; intros Hb.
  - cbn. split; [|done]. rewrite Z.add_0_r. symmetry. apply Z.mod_small.
    pose proof (cgen_range c). pose proof (base_even c) as [q Hq]%Z.even_spec. unfold place, cycle.
    assert (base c < 2 ^ 28) by (unfold base; pose proof (Z.mod_pos_bound (cgen c) 2 ltac:(lia)); lia).
    rewrite Hq in *. rewrite (Z.mul_comm 2), Z.div_mul by lia. lia.
  - destruct (cstep_base _ _ _ _ Hstep Hb) as [Hb' Hp]. destruct (IH Hb') as [IHp IHb].
    rewrite last_cons. assert (default c (Some (default c' (last l))) = default c' (last l)) as E by done.
    replace (match last l with Some y => Some y | None => Some c' end) with (Some (default c' (last l))) by (by destruct (last l)).
    rewrite E. split; [|done]. rewrite IHp, Hp. rewrite Zplus_mod_idemp_l. f_equal. destruct done; cbn; lia.
Qed.

(** ** The window of a validated copy *)

(** Alive with no write in progress. *)
Definition clean (c : cell) : Prop := codd c = false ∧ cdead c = false ∧ cmeta c ≠ 0.

(** Without a completed write, a cell that stopped being clean does not become clean again. *)
Lemma unclean_step small c c' : cstep small c false c' → ¬ clean c → ¬ clean c'.
Proof.
  intros Hstep Hc Hc'. apply Hc. remember false as done eqn:Edone.
  destruct Hstep as [m m' ws Eg Ed Ez|m ws Ho Hd Hg Hs|m ws i w Hw|m ws w Hs|m ws Ho|m ws Ho Hg|m ws Hd Hg|m ws h x Hd Ho Hx];
    try done; unfold clean, codd, cdead, cgen in *; cbn [cmeta] in *.
  - rewrite Eg, Ed in Hc'. destruct Hc' as (? & ? & ?). split_and!; [done|done|]. by rewrite <- Ez.
  - split_and!; [done|done|]. by apply gen_good_nonzero.
  - destruct Hc' as (_ & Hd & _). unfold metaOf in Hd. by rewrite Kill_fields in Hd.
  - destruct Hc' as (_ & Hd' & _). unfold metaOf in Hd'. rewrite MakeFree_fields in Hd'. cbn [f_dead meta] in Hd'. congruence.
Qed.

Lemma clean_run small c l n : cruns small c l n → n = 0%nat → clean (default c (last l)) → Forall clean (c :: l).
Proof.
  induction 1 as [c|c done c' l n Hstep Hrun IH]; intros Hn Hlast; [by constructor|].
  destruct done; [done|]. rewrite last_cons in Hlast.
  replace (match last l with Some y => Some y | None => Some c' end) with (Some (default c' (last l))) in Hlast by (by destruct (last l)).
  specialize (IH Hn Hlast). constructor; [|done]. apply Forall_cons in IH as [Hc' _].
  destruct (decide (codd c = false ∧ cdead c = false ∧ cmeta c ≠ 0)) as [|Hno]; [done|].
  by apply (unclean_step small c c' Hstep) in Hno.
Qed.

(** Two states of the entry that differ at most in a one-word value. *)
Definition agree (small : bool) (ws ws' : list W) : Prop :=
  length ws' = length ws ∧ ∀ i, (small = true → i ≠ (length ws - 1)%nat) → ws' !! i = ws !! i.

Lemma clean_words small c l n :
  cruns small c l n → n = 0%nat → Forall clean (c :: l) → Forall (λ c', agree small (cwords c) (cwords c')) (c :: l).
Proof.
  induction 1 as [c|c done c' l n Hstep Hrun IH]; intros Hn Hcl.
  { constructor; [|constructor]. by split. }
  destruct done; [done|]. apply Forall_cons in Hcl as [Hc Hcl]. specialize (IH Hn Hcl).
  assert (agree small (cwords c) (cwords c')) as Ha.
  { destruct Hc as (Hodd & Hdead & Hz). remember false as done eqn:Edone. destruct Hstep; cbn [cwords]; try done.
    - destruct H as [H|[H|H]]; cbn in *; congruence.
    - split; [apply length_insert|]. intros j Hj. rewrite list_lookup_insert_ne; [done|].
      intros <-. by apply (Hj H). }
  constructor; [by split|]. eapply Forall_impl; [exact IH|]. intros x [Hl Hx]. destruct Ha as [Hl' Ha]. split; [congruence|].
  intros i Hi. rewrite Hx, Ha by (rewrite ?Hl'; done). done.
Qed.

(** Every word of the copy was read at some moment of the window. *)
Definition copied_from (cells : list cell) (copy : list W) : Prop :=
  ∀ i, ∃ c, c ∈ cells ∧ copy !! i = cwords c !! i.

Lemma validates_fields m m' :
  validates m m' = true → f_gen (decode m') = f_gen (decode m) ∧ f_dead (decode m') = f_dead (decode m) ∧
    Z.odd (f_gen (decode m)) = false.
Proof.
  unfold validates. intros [E1%Z.eqb_eq E2%Z.eqb_eq]%andb_true_iff.
  assert (∀ i, 0 ≤ i → Z.testbit AliveGenMask i = true → Z.testbit m' i = Z.testbit m i) as Hb.
  { intros i Hi Hm. apply (f_equal (λ x, Z.testbit x i)) in E1. rewrite Z.land_spec, Z.lxor_spec, Hm, andb_true_r, Z.testbit_0_l in E1.
    by destruct (Z.testbit m' i), (Z.testbit m i). }
  assert (∀ i, 0 ≤ i → Z.testbit AliveGenMask i = (i =? 63) || (i <? 28)) as Hmask.
  { intros i Hi. unfold AliveGenMask. rewrite Z.lor_spec, testbit_Dead, testbit_GenMask by done. done. }
  cbn [decode f_gen f_dead]. split_and!.
  - apply Z.bits_inj'. intros i Hi. rewrite !Z.land_spec, !Z.testbit_ones_nonneg by lia.
    destruct (Z.ltb_spec i 28); [|by rewrite !andb_false_r]. rewrite Hb; [done|done|]. rewrite Hmask by done.
    destruct (Z.ltb_spec i 28); [by rewrite orb_true_r|lia].
  - apply Hb; [lia|]. by rewrite Hmask by lia.
  - rewrite <- Z.bit0_odd, Z.land_spec. apply (f_equal (λ x, Z.testbit x 0)) in E2. rewrite Z.land_spec, Z.testbit_0_l in E2.
    change (Z.testbit 1 0) with true in E2. rewrite andb_true_r in E2. by rewrite E2.
Qed.

Lemma snapshot_consistent small c0 l n copy :
  cruns small c0 l n → Z.of_nat n < cycle → cdead c0 = false → (codd c0 = false → cgen c0 ≠ 0) →
  copied_from (c0 :: l) copy → validates (cmeta c0) (cmeta (default c0 (last l))) = true →
  ∃ c, c ∈ c0 :: l ∧ copy = cwords c ∧ clean c.
Proof.
  intros Hrun Hn Hd Hg Hcopy Hval. destruct (validates_fields _ _ Hval) as (Eg & Ed & Hodd).
  assert (codd c0 = false) as Hc0 by done. specialize (Hg Hc0). pose proof (cgen_range c0).
  assert (0 < base c0) as Hb by (rewrite base_parity by done; lia).
  set (cn := default c0 (last l)) in *. assert (cgen cn = cgen c0) as Egn by done.
  assert (codd cn = false) as Hcn by (unfold codd; by rewrite Egn).
  destruct (cruns_base _ _ _ _ Hrun Hb) as [Hp _]. fold cn in Hp.
  rewrite (base_parity cn Hcn), (base_parity c0 Hc0), Egn in Hp.
  assert (n = 0%nat) as Hn0.
  { assert (0 ≤ place (cgen c0) < cycle) as Hpl.
    { unfold place, cycle. rewrite <- (base_parity c0 Hc0) in *. pose proof (base_even c0) as [q Hq]%Z.even_spec.
      rewrite Hq in *. rewrite (Z.mul_comm 2), Z.div_mul by lia. lia. }
    assert (Z.of_nat n mod cycle = 0) as Hm.
    { replace (Z.of_nat n) with ((place (cgen c0) + Z.of_nat n) - place (cgen c0)) by lia.
      rewrite Zminus_mod, <- Hp. rewrite (Z.mod_small (place (cgen c0))) by lia. by rewrite Z.sub_diag. }
    rewrite Z.mod_small in Hm; lia. }
  assert (clean cn) as Hcln.
  { split_and!; [done|unfold cdead; by rewrite Ed|]. intros Hz. unfold cgen in Egn. rewrite Hz in Egn. by destruct Hg. }
  pose proof (clean_run _ _ _ _ Hrun Hn0 Hcln) as Hclean.
  pose proof (clean_words _ _ _ _ Hrun Hn0 Hclean) as Hwords. rewrite Forall_forall in Hclean, Hwords.
  destruct (Hcopy (length (cwords c0) - 1)%nat) as (c & Hin & Ec). exists c. split_and!; [done| |by apply Hclean].
  apply list_eq. intros i. destruct (decide (i = (length (cwords c0) - 1)%nat)) as [->|Hne]; [done|].
  destruct (Hcopy i) as (c' & Hin' & ->). destruct (Hwords c Hin) as [_ H1], (Hwords c' Hin') as [_ H2].
  by rewrite H1, H2.
Qed.

End Seqlock.
