(* ===== verification/Expiry.v ===== *)
(** * Time to live (cache.go: the TTL scale, the coarse clock and the expiration offsets)

    A TTL is a number of clock units on an 18-bit wrapping scale, the unit chosen so that the TTL fits
    half of it.  The theorems say for how long an item written at one moment is served; the last ones
    show the two places where the scale is too short. *)

From S2P Require Import Prelude Item Queue Table TableInv Policy ClockPolicy Shard Lookup ShardSteps Rebuild ShardInv SetMemory GetMemory ShardSpec ShardTheorems.

Definition second : Z := 1000000000.

(** The TTL block of [NewWithConfig]: the clock unit and the TTL in units.  Durations are [int64]
    nanoseconds; Go's division truncates. *)
Definition ttlScale (ttl : Z) : Z * Z :=
  let ttlSec := i64 (ttl + second - 1) ÷ second in
  let unitSec := Z.max (i64 (ttlSec + ExpireMax - 1) ÷ ExpireMax) 1 in
  (i64 (unitSec * second), u32 (Z.min (i64 (ttlSec + unitSec - 1) ÷ unitSec) (ExpireMax - 1))).

(** What [clockLoop] stores at each tick, for the time since the cache's epoch. *)
Definition clockTick (sinceEpoch expireUnit : Z) : Z :=
  Z.land (u32 (sinceEpoch ÷ expireUnit)) ExpireWrapMask.

(** [expireOffsetOf]: the offset for a caller-supplied lifetime, and the lifetime it got. *)
Definition expireOffsetOf (nowOff expireUnit ttl : Z) : Z * Z :=
  let units := Z.min (i64 (ttl + expireUnit - 1) ÷ expireUnit) (ExpireMax - 1) in
  let expireOff := Z.land (u32 (u32 (nowOff + u32 units) + 1)) ExpireWrapMask in
  (if expireOff =? 0 then 1 else expireOff, i64 (units * expireUnit)).

(** [lifeLeft]: the wall time an alive item has left; 0 is "no TTL". *)
Definition lifeLeft (expireUnit metaWord nowOff : Z) : Z :=
  let expireOff := u32 (Z.shiftr (Z.land metaWord ExpireMask) ExpireShift) in
  if expireOff =? 0 then 0
  else i64 (Z.land (u32 (expireOff - nowOff)) ExpireWrapMask * expireUnit).

(** [expireOffsetIn]: the offset of a restored item. *)
Definition expireOffsetIn (ttlOff nowOff expireUnit remaining : Z) : Z :=
  if (ttlOff =? 0) || (remaining <=? 0) then 0
  else
    let units := Z.min (u32 (i64 (remaining + expireUnit - 1) ÷ expireUnit)) ttlOff in
    let expireOff := Z.land (u32 (u32 (nowOff + units) + 1)) ExpireWrapMask in
    if expireOff =? 0 then 1 else expireOff.

(** ** The scale *)

(** The clock at absolute unit [u]. *)
Definition clockAt (u : Z) : Z := u mod 2 ^ 18.

Lemma clockTick_at since unit : 0 < unit → 0 ≤ since → clockTick since unit = clockAt (since / unit).
Proof.
  intros Hu Hs. unfold clockTick, clockAt. rewrite Z.quot_div_nonneg by lia. change ExpireWrapMask with (2 ^ 18 - 1). rewrite land_mod_pow2 by lia.
  unfold u32. apply Z.mod_mod_divide. by exists (2 ^ 14).
Qed.

(** The shift away from the reserved offset 0. *)
Definition skip0 (x : Z) : Z := if x mod 2 ^ 18 =? 0 then 1 else 0.

Lemma offset_at u k :
  (let e := Z.land (u32 (u32 (clockAt u + k) + 1)) ExpireWrapMask in if e =? 0 then 1 else e) =
    (u + k + 1 + skip0 (u + k + 1)) mod 2 ^ 18.
Proof.
  change ExpireWrapMask with (2 ^ 18 - 1). rewrite land_mod_pow2 by lia.
  assert (u32 (u32 (clockAt u + k) + 1) mod 2 ^ 18 = (u + k + 1) mod 2 ^ 18) as E.
  { unfold u32, clockAt. rewrite Zplus_mod_idemp_l. rewrite Z.mod_mod_divide by (by exists (2 ^ 14)).
    replace (u + k + 1) with (u + (k + 1)) by lia. rewrite <- (Zplus_mod_idemp_l u).
    f_equal. lia. }
  cbv zeta. rewrite E. unfold skip0. destruct (Z.eqb_spec ((u + k + 1) mod 2 ^ 18) 0) as [H0|H0].
  - rewrite Zplus_mod, H0. done.
  - by rewrite Z.add_0_r.
Qed.

Lemma skip0_nonzero x : (x + skip0 x) mod 2 ^ 18 ≠ 0.
Proof.
  unfold skip0. destruct (Z.eqb_spec (x mod 2 ^ 18) 0) as [H0|H0]; [|by rewrite Z.add_0_r].
  by rewrite Zplus_mod, H0.
Qed.

Lemma skip0_range x : 0 ≤ skip0 x ≤ 1.
Proof. unfold skip0. case_match; lia. Qed.

(** The item's expiration seen from [d] units after the write. *)
Lemma expired_after u k d :
  0 ≤ d → 0 ≤ k →
  let e := (u + k + 1 + skip0 (u + k + 1)) mod 2 ^ 18 in
  let left := k + 1 + skip0 (u + k + 1) - d in
  expiredAt e (clockAt (u + d)) = (left mod 2 ^ 18 =? 0) || (ExpireMax <? left mod 2 ^ 18).
Proof.
  intros Hd Hk e left. unfold expiredAt.
  destruct (Z.eqb_spec e 0) as [H0|_]; [by apply skip0_nonzero in H0|]. cbn [negb andb]. cbv zeta.
  assert ((e - clockAt (u + d)) mod 2 ^ 18 = left mod 2 ^ 18) as ->; [|done].
  unfold e, clockAt, left. rewrite <- Zminus_mod. f_equal. lia.
Qed.

(** Whether an item given [k] units at [u] is within its life [d] units later: through [k] units, and one more when the offset would be
    the reserved 0; except that there the longest lifetime does not fit the scale, and is over at the moment it begins. *)
Definition inLife (u k d : Z) : bool :=
  (d <=? k + skip0 (u + k + 1)) && negb ((d =? 0) && (k =? ExpireMax - 1) && (clockAt (u + k + 1) =? 0)).

Lemma window_exact u k d :
  0 ≤ k ≤ ExpireMax - 1 → 0 ≤ d ≤ k + 1 + 2 ^ 17 →
  expiredAt ((u + k + 1 + skip0 (u + k + 1)) mod 2 ^ 18) (clockAt (u + d)) = negb (inLife u k d).
Proof.
  intros Hk Hd. rewrite expired_after by lia. unfold inLife.
  assert ((clockAt (u + k + 1) =? 0) = (skip0 (u + k + 1) =? 1)) as -> by (unfold skip0, clockAt; by case_match).
  pose proof (skip0_range (u + k + 1)) as Hs. set (s := skip0 (u + k + 1)) in *. clearbody s. unfold ExpireMax in *. change (Z.shiftl 1 17 - 1) with 131071 in *.
  assert ((k + 1 + s - d) mod 2 ^ 18 = if 0 <=? k + 1 + s - d then k + 1 + s - d else k + 1 + s - d + 2 ^ 18) as ->.
  { destruct (Z.leb_spec 0 (k + 1 + s - d)); [apply Z.mod_small; lia|]. rewrite <- (Z_mod_plus_full _ 1), Z.mod_small; lia. }
  destruct (Z.leb_spec 0 (k + 1 + s - d)), (Z.leb_spec d (k + s)), (Z.eqb_spec d 0), (Z.eqb_spec k (131071 - 1)), (Z.eqb_spec s 1);
    cbn [andb negb]; (apply orb_true_iff || apply orb_false_iff); rewrite ?Z.eqb_eq, ?Z.ltb_lt, ?Z.eqb_neq, ?Z.ltb_ge; lia.
Qed.

Lemma window_again u k d :
  0 ≤ k → k + 3 + 2 ^ 17 ≤ d → d < k + 1 + 2 ^ 18 →
  expiredAt ((u + k + 1 + skip0 (u + k + 1)) mod 2 ^ 18) (clockAt (u + d)) = false.
Proof.
  intros Hk Hd Hd'. rewrite expired_after by lia. pose proof (skip0_range (u + k + 1)).
  set (left := k + 1 + skip0 (u + k + 1) - d).
  assert (left mod 2 ^ 18 = left + 2 ^ 18) as ->.
  { rewrite <- (Z_mod_plus_full left 1), Z.mod_small; lia. }
  apply orb_false_iff. unfold ExpireMax. change (Z.shiftl 1 17 - 1) with 131071.
  split; [apply Z.eqb_neq|apply Z.ltb_ge]; lia.
Qed.

(** ** The offsets the cache computes *)

Lemma expireOffset_at {K V} (c : Env K V) u :
  0 < ttlOff c →
  expireOffset (atTime c (clockAt u)) = (u + ttlOff c + 1 + skip0 (u + ttlOff c + 1)) mod 2 ^ 18.
Proof.
  intros Ht. unfold expireOffset, expireOffsetAt, atTime. cbn [ttlOff nowOff].
  destruct (Z.eqb_spec (ttlOff c) 0); [lia|]. apply (offset_at u (ttlOff c)).
Qed.

Lemma offset_range x : 0 ≤ x mod 2 ^ 18 < 2 ^ 18.
Proof. apply Z.mod_pos_bound. lia. Qed.

(** The number of units of a positive lifetime, rounded up. *)
Lemma units_up ttl unit :
  0 < ttl → 0 < unit → ttl + unit ≤ 2 ^ 63 →
  let n := i64 (ttl + unit - 1) ÷ unit in 1 ≤ n ∧ ttl ≤ n * unit < ttl + unit.
Proof.
  intros Ht Hu Hw n. unfold n. rewrite i64_small, Z.quot_div_nonneg by lia. clear n.
  set (n := (ttl + unit - 1) / unit). pose proof (Z.div_mod (ttl + unit - 1) unit ltac:(lia)) as E.
  pose proof (Z.mod_pos_bound (ttl + unit - 1) unit Hu). fold n in E.
  assert (1 ≤ n) by (apply Z.div_le_lower_bound; lia). split; [done|]. lia.
Qed.

Section Life.
Context {K V P : Type} `{!EqDecision K} `{!GoType K} `{!GoType V}.
Context `{!EvictionPolicy K V P} `{!PolicyLaws K V P}.
Context (hash : K → Z) (c : Env K V).
Implicit Types (sh : shard K V P) (k : K).

(** The same cache [d] units after the clock showed [u]. *)
Definition later (u d : Z) : Env K V := atTime c (clockAt (u + d)).

(** What a read of [k] answers at that moment. *)
Definition answer (u d : Z) sh k : option (option V) := snd <$> getMemory hash (later u d) sh k.

(** A value that fits, stored with offset [e], is read back or was evicted at once. *)
Lemma store_then_read u sh k v e :
  shard_inv hash c sh → live sh < 2 ^ 31 - 1 → rawCost c k v ≤ cap sh → 0 < e < 2 ^ 18 →
  ∃ sh' ds, setMemory hash (later u 0) sh k v e = Some (sh', ds) ∧
    (content (items sh') k = None ∨ content (items sh') k = Some (v, e)) ∧
    ∀ d, answer u d sh' k =
      Some (match content (items sh') k with
            | Some _ => if expiredAt e (clockAt (u + d)) then None else Some v
            | None => None
            end).
Proof.
  intros Hinv Hl Hfit He.
  destruct (setMemory_fits hash (later u 0) sh k v e) as (sh' & ev & E & Hinv' & _ & _ & Hrm & _);
    [by apply inv_atTime|done|lia|exact Hfit|].
  apply inv_atTime_back in Hinv'. exists sh'. eexists. split; [exact E|].
  assert (content (items sh') k = None ∨ content (items sh') k = Some (v, e)) as Hc.
  { rewrite (rm_after _ _ _ Hrm). case_decide; [by left|right]. unfold put. rewrite decide_True by done.
    unfold newExpire. destruct (content (items sh) k) as [[v' e']|]; [|done].
    by destruct (Z.eqb_spec e 0); [lia|]. }
  split; [done|]. intros d. unfold answer.
  pose proof (getMemory_spec hash (later u d) sh' k (inv_atTime _ _ _ _ Hinv') (offset_range (u + d))) as Hg.
  destruct Hc as [Hc|Hc]; rewrite Hc in *.
  - by rewrite Hg.
  - destruct Hg as (sh'' & E' & _). by rewrite E'.
Qed.

Lemma later_offset u :
  0 < ttlOff c →
  expireOffset (later u 0) = (u + ttlOff c + 1 + skip0 (u + ttlOff c + 1)) mod 2 ^ 18 ∧
  0 < expireOffset (later u 0) < 2 ^ 18.
Proof.
  intros Ht. assert (expireOffset (later u 0) = (u + ttlOff c + 1 + skip0 (u + ttlOff c + 1)) mod 2 ^ 18) as E.
  { unfold later. rewrite Z.add_0_r. by apply expireOffset_at. }
  split; [done|]. pose proof (skip0_nonzero (u + ttlOff c + 1)) as H0. pose proof (offset_range (u + ttlOff c + 1 + skip0 (u + ttlOff c + 1))).
  rewrite E. lia.
Qed.

(** C13: How long a value stored with the cache's TTL is served, for every TTL the constructor may choose and at any clock value: it is
    read back through that many clock units (one more when its expiration would fall on the reserved offset 0), and is not served after
    that until half the scale has gone by.  The one exception: a value with the longest TTL, [ExpireMax - 1] units, stored when its
    expiration falls on the reserved offset, is missed by a read at that same moment. *)
Theorem ttl_served_then_gone u sh k v :
  shard_inv hash c sh → live sh < 2 ^ 31 - 1 → rawCost c k v ≤ cap sh → 0 < ttlOff c ≤ ExpireMax - 1 →
  let e := expireOffset (later u 0) in
  ∃ sh' ds, setMemory hash (later u 0) sh k v e = Some (sh', ds) ∧
    (content (items sh') k = None ∨ content (items sh') k = Some (v, e)) ∧
    (∀ d, 0 ≤ d ≤ ttlOff c + 1 + 2 ^ 17 →
      answer u d sh' k = Some (if bool_decide (content (items sh') k ≠ None) && inLife u (ttlOff c) d then Some v else None)).
Proof.
  intros Hinv Hl Hfit Ht e.
  pose proof (later_offset u ltac:(lia)) as [Ee He]. fold e in Ee, He.
  destruct (store_then_read u sh k v e Hinv Hl Hfit He) as (sh' & ds & E & Hc & Hr).
  exists sh', ds. split_and!; [done|done|]. intros d Hd. rewrite Hr. destruct Hc as [Hc|Hc]; rewrite Hc; [done|].
  rewrite Ee, window_exact by lia. by destruct (inLife u (ttlOff c) d).
Qed.

(** The same for a caller's own TTL (SetWithTTL): the offset it is given serves the value for the
    lifetime the call reports, which is the TTL rounded up to whole units unless the scale caps it. *)
Theorem own_ttl_served_then_gone u unit sh k v ttl :
  shard_inv hash c sh → live sh < 2 ^ 31 - 1 → rawCost c k v ≤ cap sh →
  0 < unit → 0 < ttl ≤ (ExpireMax - 1) * unit → ttl + unit ≤ 2 ^ 63 →
  let '(e, actual) := expireOffsetOf (clockAt u) unit ttl in
  ttl ≤ actual < ttl + unit ∧ (unit | actual) ∧
  ∃ sh' ds, setMemory hash (later u 0) sh k v e = Some (sh', ds) ∧
    (∀ d, 0 ≤ d * unit ≤ actual + (1 + 2 ^ 17) * unit →
      answer u d sh' k = Some (if bool_decide (content (items sh') k ≠ None) && inLife u (actual / unit) d then Some v else None)).
Proof.
  intros Hinv Hl Hfit Hu Ht Hw. destruct (units_up ttl unit ltac:(lia) Hu Hw) as [Hn1 Hn2].
  unfold expireOffsetOf. set (n := i64 (ttl + unit - 1) ÷ unit) in *.
  assert (n ≤ ExpireMax - 1) as Hn by nia.
  rewrite Z.min_l, i64_small by lia. assert (u32 n = n) as ->.
  { unfold u32. apply Z.mod_small. unfold ExpireMax in *. change (Z.shiftl 1 17 - 1) with 131071 in *. lia. }
  pose proof (offset_at u n) as Ee. cbv zeta in Ee. rewrite Ee.
  assert (0 < (u + n + 1 + skip0 (u + n + 1)) mod 2 ^ 18 < 2 ^ 18) as He.
  { pose proof (skip0_nonzero (u + n + 1)). pose proof (offset_range (u + n + 1 + skip0 (u + n + 1))). lia. }
  split; [lia|]. split; [by exists n|].
  destruct (store_then_read u sh k v _ Hinv Hl Hfit He) as (sh' & ds & E & Hc & Hr).
  exists sh', ds. split; [done|]. intros d Hd. rewrite Hr. destruct Hc as [Hc|Hc]; rewrite Hc; [done|].
  rewrite Z.div_mul, window_exact by nia. by destruct (inLife u n d).
Qed.

(** The longest TTL of a unit, [ExpireMax - 1] units, does not fit the scale: at the one clock
    value per turn of the clock where the offset would be 0 and is moved to 1, a value is stored as
    already expired, and a read at the very same moment misses. *)
Theorem longest_ttl_expires_at_once u sh k v :
  shard_inv hash c sh → live sh < 2 ^ 31 - 1 → rawCost c k v ≤ cap sh →
  ttlOff c = ExpireMax - 1 → clockAt u = 2 ^ 18 - ExpireMax →
  ∃ sh' ds, setMemory hash (later u 0) sh k v (expireOffset (later u 0)) = Some (sh', ds) ∧
    answer u 0 sh' k = Some None.
Proof.
  intros Hinv Hl Hfit Ht Hu.
  assert (expireOffset (later u 0) = 1) as ->.
  { unfold later, expireOffset, expireOffsetAt, atTime. cbn [ttlOff nowOff]. rewrite Ht, Z.add_0_r, Hu. reflexivity. }
  destruct (store_then_read u sh k v 1 Hinv Hl Hfit ltac:(lia)) as (sh' & ds & E & _ & Hr).
  exists sh', ds. split; [exact E|]. rewrite Hr, Z.add_0_r, Hu. by destruct (content (items sh') k).
Qed.

(** C18: An item nobody reads or evicts for half a turn of the clock after it expired is served again:
    the wrapping test cannot tell it from one whose lifetime is still to come. *)
Theorem expired_served_again u sh k v :
  shard_inv hash c sh → live sh < 2 ^ 31 - 1 → rawCost c k v ≤ cap sh → 0 < ttlOff c ≤ ExpireMax - 2 →
  ∃ sh' ds, setMemory hash (later u 0) sh k v (expireOffset (later u 0)) = Some (sh', ds) ∧
    ∀ d, ttlOff c + 3 + 2 ^ 17 ≤ d < ttlOff c + 1 + 2 ^ 18 → content (items sh') k ≠ None →
      answer u d sh' k = Some (Some v).
Proof.
  intros Hinv Hl Hfit Ht.
  destruct (later_offset u ltac:(lia)) as [Ee He].
  destruct (store_then_read u sh k v _ Hinv Hl Hfit He) as (sh' & ds & E & Hc & Hr).
  exists sh', ds. split; [done|]. intros d Hd Hne. rewrite Hr. destruct Hc as [Hc|Hc]; [done|]. rewrite Hc.
  by rewrite Ee, window_again by lia.
Qed.

End Life.

(** ** Choosing the unit *)

Lemma ExpireMax_val : ExpireMax = 131071.
Proof. reflexivity. Qed.

(** C15: The unit and the TTL in units [NewWithConfig] chooses: whole seconds, the smallest unit for
    which the TTL fits the scale, a TTL of at least one unit and below [ExpireMax]; the rounding only
    lengthens it, except that a TTL in the last unit of the scale is cut by at most one unit. *)
Theorem ttlScale_fits ttl :
  0 < ttl → ttl + second ≤ 2 ^ 63 →
  let '(unit, off) := ttlScale ttl in
  (second | unit) ∧ second ≤ unit < 2 ^ 63 ∧ 1 ≤ off ≤ ExpireMax - 1 ∧
  (unit = second ∨ ExpireMax * (unit - second) < ttl) ∧
  off * unit < ttl + second + unit ∧ ttl ≤ (off + 1) * unit ∧
  (ttl ≤ (ExpireMax - 1) * unit → ttl ≤ off * unit).
Proof.
  intros Ht Hw. unfold ttlScale.
  destruct (units_up ttl second Ht ltac:(done) Hw) as [Hs1 Hs2]. set (sec := i64 (ttl + second - 1) ÷ second) in *.
  unfold second in *. rewrite ExpireMax_val.
  destruct (units_up sec 131071 ltac:(lia) ltac:(lia) ltac:(lia)) as [Hu1 Hu2].
  rewrite Z.max_l by lia. set (unit := i64 (sec + 131071 - 1) ÷ 131071) in *.
  destruct (units_up sec unit ltac:(lia) ltac:(lia) ltac:(lia)) as [Ho1 Ho2].
  set (n := i64 (sec + unit - 1) ÷ unit) in *. rewrite i64_small, u32_small by lia.
  rewrite !Z.mul_assoc, Z.mul_add_distr_r. remember (n * unit) as nu eqn:Enu.
  split_and!; [by exists unit|lia|lia|lia|lia| | | |].
  - destruct (decide (unit = 1)) as [->|]; [by left|right; lia].
  - destruct (Z.min_spec n (131071 - 1)) as [[_ ->]|[Hc ->]]; [lia|]. assert (131070 * unit ≤ nu) by nia. lia.
  - destruct (Z.min_spec n (131071 - 1)) as [[_ ->]|[_ ->]]; [lia|lia].
  - intros Hfit. destruct (Z.min_spec n (131071 - 1)) as [[_ ->]|[Hc ->]]; lia.
Qed.

(** The wall time left, and that it is the time until the item expires. *)
Lemma lifeLeft_units unit m now :
  0 < unit → unit * 2 ^ 17 ≤ 2 ^ 63 → 0 ≤ now < 2 ^ 18 → f_expire (decode m) ≠ 0 → Expired m now = false →
  ∃ left, 0 < left ≤ ExpireMax ∧ lifeLeft unit m now = left * unit ∧
    ∀ d, 0 ≤ d ≤ left + 2 ^ 17 → Expired m (clockAt (now + d)) = (left <=? d).
Proof.
  intros Hu Hw Hnow He Hal. rewrite Expired_fields in Hal by lia.
  apply andb_false_iff in Hal as [H0|Hal]; [by apply negb_false_iff, Z.eqb_eq in H0|].
  cbv zeta in Hal. set (x := f_expire (decode m)) in *. set (left := (x - now) mod 2 ^ 18) in *.
  apply orb_false_iff in Hal as [Hl0%Z.eqb_neq Hlm%Z.ltb_ge]. rewrite ExpireMax_val in *.
  pose proof (offset_range (x - now)) as Hl. fold left in Hl. exists left. split_and!; [lia|lia| |].
  - unfold lifeLeft. rewrite expire_word. fold x. destruct (Z.eqb_spec x 0); [done|].
    change ExpireWrapMask with (2 ^ 18 - 1). rewrite land_mod_pow2 by lia.
    unfold u32. rewrite Z.mod_mod_divide by (by exists (2 ^ 14)). fold left. apply i64_small. nia.
  - intros d Hd. rewrite Expired_fields by (pose proof (offset_range (now + d)); unfold clockAt; lia). fold x.
    rewrite (proj2 (Z.eqb_neq x 0) He). cbn [negb andb]. cbv zeta.
    assert ((x - clockAt (now + d)) mod 2 ^ 18 = if d <=? left then left - d else left - d + 2 ^ 18) as ->.
    { unfold clockAt. rewrite Zminus_mod_idemp_r. replace (x - (now + d)) with (x - now - d) by lia.
      rewrite <- Zminus_mod_idemp_l. fold left. destruct (Z.leb_spec d left); [apply Z.mod_small; lia|].
      rewrite <- (Z_mod_plus_full _ 1), Z.mod_small; lia. }
    rewrite ExpireMax_val. destruct (Z.leb_spec d left), (Z.leb_spec left d); (apply orb_true_iff || apply orb_false_iff);
      rewrite ?Z.eqb_eq, ?Z.ltb_lt, ?Z.eqb_neq, ?Z.ltb_ge; lia.
Qed.

(** C16: A snapshot keeps lifetimes.  [lifeLeft] of an item that has not expired is the wall time until it does.  Restored [elapsed]
    later, into a cache with any clock unit and TTL and at any value of its clock, the item gets the time that is left, rounded up to
    that cache's units, or its whole TTL if that is less, and lives exactly as long as a value stored with that many units.  (The number
    of units has to fit a uint32, into which it is converted.) *)
Theorem restored_life unit m now unit' ttlOff u elapsed :
  0 < unit → unit * 2 ^ 17 ≤ 2 ^ 63 → 0 ≤ now < 2 ^ 18 → f_expire (decode m) ≠ 0 → Expired m now = false →
  0 < unit' → 0 < ttlOff ≤ ExpireMax - 1 →
  let life := lifeLeft unit m now in
  let remaining := life - elapsed in
  0 ≤ elapsed < life → remaining + unit' ≤ 2 ^ 63 → (remaining + unit' - 1) / unit' < 2 ^ 32 →
  let e := expireOffsetIn ttlOff (clockAt u) unit' remaining in
  let n := (remaining + unit' - 1) / unit' in
  (unit | life) ∧ (∀ d, 0 ≤ d ≤ life / unit + 2 ^ 17 → Expired m (clockAt (now + d)) = (life / unit <=? d)) ∧
  remaining ≤ n * unit' < remaining + unit' ∧ 0 < e < 2 ^ 18 ∧
  ∀ d, 0 ≤ d ≤ Z.min n ttlOff + 1 + 2 ^ 17 → expiredAt e (clockAt (u + d)) = negb (inLife u (Z.min n ttlOff) d).
Proof.
  intros Hu Hw Hnow He Hal Hu' Ht life remaining Hel Hw' Hn e n.
  destruct (lifeLeft_units unit m now Hu Hw Hnow He Hal) as (left & Hl & El & Hleft). fold life in El.
  assert (life / unit = left) as -> by (rewrite El; apply Z.div_mul; lia).
  destruct (units_up remaining unit' ltac:(lia) Hu' ltac:(lia)) as [Hn1 Hn2].
  rewrite i64_small, Z.quot_div_nonneg in Hn1, Hn2 by lia. fold n in Hn, Hn1, Hn2.
  set (k := Z.min n ttlOff). assert (e = (u + k + 1 + skip0 (u + k + 1)) mod 2 ^ 18) as Ee.
  { unfold e, expireOffsetIn. destruct (Z.eqb_spec ttlOff 0); [lia|]. destruct (Z.leb_spec remaining 0); [lia|]. cbn [orb].
    rewrite i64_small, Z.quot_div_nonneg by lia. fold n. rewrite (u32_small n) by lia. fold k. apply (offset_at u k). }
  pose proof (skip0_nonzero (u + k + 1)) as Hne. rewrite <- Ee in Hne.
  pose proof (offset_range (u + k + 1 + skip0 (u + k + 1))) as He'. rewrite <- Ee in He'.
  split_and!; [by exists left|done|lia|lia|lia|lia|]. intros d Hd. rewrite Ee. apply window_exact; lia.
Qed.

(** What is left of an item of 2^32 seconds, restored into a cache with the one-second unit and the TTL of ten seconds, is one second:
    the number of units is cut to 32 bits before it is compared with the TTL. *)
Example restored_life_wraps : expireOffsetIn 10 (clockAt 100) second ((2 ^ 32 + 1) * second) = expireOffsetIn 10 (clockAt 100) second second.
Proof. vm_compute. reflexivity. Qed.

(** SetWithTTL with the longest duration: rounding up to the unit overflows, and the lifetime handed to the second level is negative. *)
Example own_ttl_overflows : (expireOffsetOf (clockAt 100) second (2 ^ 63 - 1)).2 = -9223372035 * second.
Proof. vm_compute. reflexivity. Qed.

(** ** Instances *)

Lemma ttl_served_then_gone_witness :
  ∃ sh' ds, setMemory hashZ (later exEnv 5 0) exShard 3 10 (expireOffset (later exEnv 5 0)) = Some (sh', ds) ∧
    answer hashZ exEnv 5 10 sh' 3 = Some (Some 10) ∧ answer hashZ exEnv 5 11 sh' 3 = Some None.
Proof.
  destruct (ttl_served_then_gone hashZ exEnv 5 exShard 3 10) as (sh' & ds & E & _ & Ha);
    [apply exShard_inv|vm_compute; reflexivity|vm_compute; discriminate|vm_compute; split; [reflexivity|discriminate]|].
  assert (Some true = (λ r, bool_decide (content (items r.1) 3 ≠ None)) <$> setMemory hashZ (later exEnv 5 0) exShard 3 10 (expireOffset (later exEnv 5 0)))
    as Hin by (vm_compute; reflexivity). rewrite E in Hin. cbn in Hin. injection Hin as Hin.
  exists sh', ds. split; [exact E|]. split; rewrite Ha by (vm_compute; split; discriminate); rewrite <- Hin; reflexivity.
Defined.

(** A TTL of 131071 seconds gets the one-second unit and one second less. *)
Lemma ttlScale_fits_witness :
  ttlScale (131071 * second) = (second, 131070) ∧ 131071 * second ≤ (131070 + 1) * second.
Proof.
  pose proof (ttlScale_fits (131071 * second)) as H.
  change (ttlScale (131071 * second)) with (second, 131070) in *. cbv beta iota in H.
  destruct H as (_ & _ & _ & _ & _ & H & _); [reflexivity|vm_compute; discriminate|]. split; [reflexivity|exact H].
Defined.

(** An item that expires at offset 20, saved at 15 under the one-second unit and restored two and a half seconds later into a cache
    with a two-second unit, when its clock shows 100. *)
Definition exWord : Z := encode (mkFields false false false false 20 3 4).

Lemma restored_life_witness :
  lifeLeft second exWord 15 = 5 * second ∧ Expired exWord (clockAt 19) = false ∧ Expired exWord (clockAt 20) = true ∧
  expiredAt (expireOffsetIn 30 (clockAt 100) (2 * second) (5 * second - 2500000000)) (clockAt 102) = false ∧
  expiredAt (expireOffsetIn 30 (clockAt 100) (2 * second) (5 * second - 2500000000)) (clockAt 103) = true.
Proof.
  destruct (restored_life second exWord 15 (2 * second) 30 100 2500000000) as (_ & Hs & _ & _ & Hx);
    try (vm_compute; split; (reflexivity || discriminate)); try (vm_compute; (reflexivity || discriminate)).
  split_and!; [vm_compute; reflexivity|apply (Hs 4)|apply (Hs 5)|apply (Hx 2)|apply (Hx 3)]; vm_compute; split; discriminate.
Defined.

Lemma expired_served_again_witness :
  ∃ sh' ds, setMemory hashZ (later exEnv 5 0) exShard 3 10 (expireOffset (later exEnv 5 0)) = Some (sh', ds) ∧
    (content (items sh') 3 ≠ None → answer hashZ exEnv 5 131085 sh' 3 = Some (Some 10)).
Proof.
  destruct (expired_served_again hashZ exEnv 5 exShard 3 10) as (sh' & ds & E & Ha);
    [apply exShard_inv|vm_compute; reflexivity|vm_compute; discriminate|vm_compute; split; [reflexivity|discriminate]|].
  exists sh', ds. split; [exact E|]. intros Hne. apply Ha; [vm_compute; split; [discriminate|reflexivity]|exact Hne].
Defined.

(** The whole story of the last theorem on a run: stored at 5 with a TTL of 10 units, missed at 17 when
    the key is asked for then, served at 131090 when it is not. *)
Example expired_served_again_run :
  snd <$> runOps hashZ (mkEnv None false 0 10 false) exNew [(5, OSet 1 30 16); (17, OGet 1)] = Some [None; None] ∧
  snd <$> runOps hashZ (mkEnv None false 0 10 false) exNew [(5, OSet 1 30 16); (131090, OGet 1)] = Some [None; Some 30].
Proof. vm_compute. done. Qed.
