(* ===== verification/Components.v ===== *)
(** * The theorems about the parts of a shard

    The meta word, the lock-free snapshot, the queue and the four eviction policies, each stated on
    the operations of its own file. *)

From S2P Require Import Prelude Item Queue Table TableInv Policy ClockPolicy TwoQueue S3Fifo FreqSketch WTinyLfu Sieve Seqlock.

(** ** The meta word *)

Section Words.
Context {K V : Type} `{!GoType K} `{!GoType V}.

(** C19: The meta word is its fields: packing and unpacking are inverse, and every operation on an item
    changes exactly the fields it is for.  A publication starts a live item with the key's tag, no
    chances and a new even generation; a kill, a free, a touch and a refresh leave the generation
    alone, so they never invalidate a reader's snapshot but for the tombstone bit. *)
Theorem meta_word_operations (s : Item K V) (e : Entry K V) (h x : Z) :
  is_u64 (meta s) → 0 ≤ x < 2 ^ 18 →
  let f := decode (meta s) in
  encode f = meta s ∧
  decode (meta (Publish s e (TagOf h) x)) = mkFields false false false false x (tagBits h) (nextGen (f_gen f)) ∧
  entry (Publish s e (TagOf h) x) = e ∧
  decode (meta (Kill s).1) = mkFields true (f_second f) (f_third f) (f_free f) (f_expire f) (f_tag f) (f_gen f) ∧
  (Kill s).2 = negb (f_dead f) ∧
  decode (meta (MakeFree s)) = mkFields (f_dead f) (f_second f) (f_third f) true (f_expire f) (f_tag f) (f_gen f) ∧
  decode (meta (TouchWith s (meta s))) =
    mkFields (f_dead f) true (f_third f || f_second f) (f_free f) (f_expire f) (f_tag f) (f_gen f) ∧
  decode (meta (TouchAndRefreshExpire s (meta s) x).1) =
    mkFields (f_dead f) true (f_third f || f_second f) (f_free f) x (f_tag f) (f_gen f) ∧
  decode (meta (RevokeChance s (meta s))) =
    mkFields (f_dead f) (f_second f && f_third f) false (f_free f) (f_expire f) (f_tag f) (f_gen f) ∧
  decode (meta (ResetChances s)) = mkFields (f_dead f) false false (f_free f) (f_expire f) (f_tag f) (f_gen f) ∧
  decode (meta (RefreshExpire s x)) =
    mkFields (f_dead f) (f_second f) (f_third f) (f_free f) x (f_tag f) (f_gen f) ∧
  entry (SetValue s (Value e)) = mkEntry (Key (entry s)) (Value e) ∧
  decode (meta (SetValue s (Value e))) =
    mkFields (f_dead f) (f_second f) (f_third f) (f_free f) (f_expire f) (f_tag f)
      (if 8 <? go_sizeof (A := V) then liveGen (f_gen f + 2) else f_gen f).
Proof.
  intros H64 Hx f. split_and!.
  - by apply encode_decode.
  - by apply Publish_fields.
  - done.
  - apply Kill_fields.
  - apply alive_test.
  - apply MakeFree_fields.
  - apply TouchWith_fields.
  - by apply TouchAndRefreshExpire_fields.
  - apply RevokeChance_fields.
  - apply ResetChances_fields.
  - by apply RefreshExpire_fields.
  - apply SetValue_entry.
  - apply SetValue_fields.
Qed.

End Words.

Lemma meta_word_operations_witness :
  let s : Item Z Z := mkItem (encode (mkFields false true false false 7 3 10)) (mkEntry 1 2) in
  decode (meta (Kill s).1) = mkFields true true false false 7 3 10 ∧
  decode (meta (Publish s (mkEntry 4 5) (TagOf 0) 9)) = mkFields false false false false 9 0 12.
Proof.
  set (s := mkItem (encode (mkFields false true false false 7 3 10)) (mkEntry 1 2) : Item Z Z).
  destruct (meta_word_operations s (mkEntry 4 5) 0 9) as (_ & Hp & _ & Hk & _);
    [vm_compute; split; [discriminate|reflexivity]|lia|].
  split; [rewrite Hk|rewrite Hp]; vm_compute; reflexivity.
Defined.

(** ** The lock-free snapshot *)

Section Snapshot.
Context {W : Type}.
Implicit Types (c : cell (W := W)) (l : list (cell (W := W))).

(** The operations that only move counters or the expiration are [cs_counter] steps. *)
Lemma counter_ops_step small m ws (f : Item Z Z → Item Z Z) x :
  gen_good m → 0 ≤ x < 2 ^ 18 →
  f ∈ [(λ s, TouchWith s m); (λ s, RevokeChance s m); ResetChances; (λ s, RefreshExpire s x);
       (λ s, (TouchAndRefreshExpire s m x).1)] →
  cstep (W := W) small (mkCell m ws) false (mkCell (metaOf f m) ws).
Proof.
  intros Hg Hx Hf.
  assert (decode (metaOf f m) = decode (metaOf f m) ∧ f_gen (decode (metaOf f m)) = f_gen (decode m) ∧
    f_dead (decode (metaOf f m)) = f_dead (decode m)) as (_ & Eg & Ed).
  { set (s := mkItem m (mkEntry 0 0) : Item Z Z). change m with (meta s) in Hf. unfold metaOf. fold s. split; [done|].
    rewrite !elem_of_cons in Hf. destruct Hf as [->|[->|[->|[->|[->|Hf]]]]]; [..|set_solver].
    - by rewrite TouchWith_fields.
    - by rewrite RevokeChance_fields.
    - by rewrite ResetChances_fields.
    - by rewrite RefreshExpire_fields.
    - by rewrite TouchAndRefreshExpire_fields. }
  apply cs_counter; [done|done|].
  pose proof (gen_good_nonzero _ Hg). pose proof (gen_good_nonzero _ (gen_good_same _ _ Eg Hg)). done.
Qed.

(** C20: A snapshot that [SnapshotInto] accepts is the entry as it was at one single moment between the
    two loads of the meta word, when the slot held a live item with no write in progress, whatever the
    writers did meanwhile, unless they completed a whole cycle of generations (2^27 - 1 writes). *)
Theorem snapshot_is_atomic small c0 l n copy (e : Entry Z Z) :
  cruns small c0 l n → Z.of_nat n < cycle → cdead c0 = false → (codd c0 = false → cgen c0 ≠ 0) →
  copied_from (c0 :: l) copy →
  (SnapshotInto (mkItem (cmeta (default c0 (last l))) e) (cmeta c0)).2 = true →
  ∃ c, c ∈ c0 :: l ∧ copy = cwords c ∧ clean c.
Proof. intros. by eapply snapshot_consistent. Qed.

End Snapshot.

(** A two-word entry overwritten while it is read: the copy taken before the overwrite began. *)
Lemma snapshot_is_atomic_witness :
  ∃ c, c ∈ [mkCell 2 [1; 2]; mkCell (metaOf (λ s, TouchWith s 2) 2) [1; 2]] ∧ [1; 2] = cwords c ∧ clean c.
Proof.
  apply (snapshot_is_atomic false (mkCell 2 [1; 2]) [mkCell (metaOf (λ s, TouchWith s 2) 2) [1; 2]] 0 [1; 2]
    (mkEntry 0 0)).
  - apply (cr_cons false _ false _ []); [|constructor].
    apply (counter_ops_step false 2 [1; 2] _ 0); [vm_compute; split; [discriminate|reflexivity]|lia|left].
  - vm_compute. reflexivity.
  - vm_compute. reflexivity.
  - intros _. vm_compute. discriminate.
  - intros i. exists (mkCell 2 [1; 2]). split; [left|reflexivity].
  - vm_compute. reflexivity.
Defined.

(** ** The queue *)

Inductive qop := QPush (n : QNode) | QPop.

Definition runQ (q : EvictQueue) (o : qop) : EvictQueue * option QNode :=
  match o with QPush n => (Push q n, None) | QPop => Pop q end.

Fixpoint runQs (q : EvictQueue) (l : list qop) : EvictQueue * list (option QNode) :=
  match l with
  | [] => (q, [])
  | o :: l => let '(q, r) := runQ q o in let '(q, rs) := runQs q l in (q, r :: rs)
  end.

(** The same operations on a list. *)
Fixpoint fifo (c : list QNode) (l : list qop) : list QNode * list (option QNode) :=
  match l with
  | [] => (c, [])
  | QPush n :: l => let '(c, rs) := fifo (c ++ [n]) l in (c, None :: rs)
  | QPop :: l => let '(c', rs) := fifo (tail c) l in (c', head c :: rs)
  end.

Lemma runQs_fifo l : ∀ q, queue_wf q →
  queue_wf (runQs q l).1 ∧ (contents (runQs q l).1, (runQs q l).2) = fifo (contents q) l.
Proof.
  induction l as [|o l IH]; intros q Hq; [done|]. destruct o as [n|]; cbn [runQs runQ fifo].
  - destruct (Push_spec q n Hq) as [Hq' Hc]. destruct (IH _ Hq') as [Hw E].
    destruct (runQs (Push q n) l) as [q' rs]; cbn [fst snd] in *. rewrite Hc in E. rewrite <- E. done.
  - pose proof (Pop_contents q Hq) as Hp. destruct (contents q) as [|x c] eqn:Ec.
    + rewrite Hp. destruct (IH q Hq) as [Hw E]. rewrite Ec in E.
      destruct (runQs q l) as [q' rs]; cbn [fst snd head tail] in *. rewrite <- E. done.
    + destruct Hp as (q1 & -> & Hq1 & Hc1). destruct (IH q1 Hq1) as [Hw E]. rewrite Hc1 in E.
      destruct (runQs q1 l) as [q' rs]; cbn [fst snd head tail] in *. rewrite <- E. done.
Qed.

(** C21: The chunked queue is a FIFO queue: any sequence of pushes and pops from the empty queue gives
    the answers and the contents a list gives, [Len] is its length, [Peek] its head, and [Range]
    enumerates it in order. *)
Theorem queue_is_fifo (l : list qop) :
  let '(q, rs) := runQs emptyQueue l in
  (contents q, rs) = fifo [] l ∧ qLen q = length (contents q) ∧ Peek q = head (contents q) ∧
  qRange q = contents q.
Proof.
  destruct (runQs_fifo l emptyQueue emptyQueue_wf) as [Hw E]. destruct (runQs emptyQueue l) as [q rs].
  split_and!; [done|symmetry; by apply contents_length|by apply Peek_spec|by apply qRange_spec].
Qed.

Example queue_crosses_chunks :
  (runQs emptyQueue (replicate 130 (QPush (mkQNode 7 1)) ++ replicate 129 QPop ++ [QPush (mkQNode 8 2); QPop; QPop; QPop])).2 !! 262%nat =
    Some None.
Proof. vm_compute. reflexivity. Qed.

(** ** The eviction policies *)

Section Policies.
Context {K V : Type} `{!GoType K} `{!GoType V}.
Implicit Types (t : FlatHashMap K V).

(** What a call of [Evict] guarantees: it ends; one node leaves, unless there is none; the victim is
    dead, expired or out of chances; and the table changes in reference counters only. *)
Definition evicts {P : Type} (inv : P → Prop) (nodes : P → list QNode)
    (evict : P → FlatHashMap K V → Z → option (P * FlatHashMap K V * option Z)) : Prop :=
  ∀ p t now, inv p → table_shape t →
  ∃ p' t' r, evict p t now = Some (p', t', r) ∧ inv p' ∧ fewer_table t t' ∧
    match r with
    | None => nodes p = [] ∧ nodes p' = []
    | Some i => (∃ c, nodes p ≡ₚ mkQNode i c :: nodes p') ∧
      (isDead t i = true ∨ Expired (meta (At t i)) now = true ∨ Z.land (meta (At t' i)) ChanceMask = 0)
    end.

(** C22: All four built-in policies evict as promised, and keep their own invariant: well-formed queues
    and, for S3-FIFO and W-TinyLFU, a small queue (window) weight that is exactly the cost of its
    nodes; for SIEVE, a doubly linked list whose links, hand, free list and size agree. *)
Theorem builtin_policies_evict :
  evicts clockInv clockNodes clockEvict ∧ evicts s3Inv s3Nodes s3Evict ∧
  evicts lfuInv lfuNodes lfuEvict ∧ evicts sieveInv sieveNodes sieveEvict.
Proof.
  split_and!; intros p t now Hp Ht; [by apply clockEvict_laws|by apply s3Evict_laws|by apply lfuEvict_laws|
    by apply sieveEvict_laws].
Qed.


(** The frequency sketch.  Counting a key raises its estimate by one, up to 15, raises no other
    estimate by more than one and lowers none; ageing halves every estimate. *)
Theorem sketch_counts (s : freqSketch) (hash : Z) :
  sketch_wf s → u32 (additions s + 1) < sampleSize s →
  estimate (increment s hash) hash = Z.min 15 (estimate s hash + 1) ∧
  (∀ hash', estimate s hash' ≤ estimate (increment s hash) hash' ≤ estimate s hash' + 1) ∧
  ∀ hash', estimate (sketchReset s) hash' = estimate s hash' / 2.
Proof.
  intros Hwf Hage. destruct (increment_estimates s hash Hwf Hage) as [H1 H2]. split_and!; [done|done|].
  intros h. by apply reset_estimate.
Qed.

(** SIEVE never reorders: an eviction takes one node out of the insertion order and leaves the
    order of all the others as it was. *)
Theorem sieve_keeps_order (p : SievePolicy) t now :
  sieveInv p → table_shape t → sieveNodes p ≠ [] →
  ∃ p' t' i l1 c l2, sieveEvict p t now = Some (p', t', Some i) ∧
    sieveNodes p = l1 ++ mkQNode i c :: l2 ∧ sieveNodes p' = l1 ++ l2.
Proof.
  intros Hp Ht Hne. destruct (sieveEvict_order p t now Hp Ht) as (p' & t' & r & E & _ & _ & Hr).
  destruct r as [i|]; [|by destruct Hr]. destruct Hr as [(l1 & c & l2 & E1 & E2) _]. by exists p', t', i, l1, c, l2.
Qed.

End Policies.

(** ** Instances *)

(** A table of 64 slots with key 100 + i live in slot i < 4, without chances. *)
Definition exTable : FlatHashMap Z Z :=
  foldl (λ t i, alterAt t i (λ it, Publish it (mkEntry (100 + i) i) (TagOf 0) 0)) (NewFlatHashMap (2 ^ 6)) [0; 1; 2; 3].

Definition exGhostHash (k : Z) : Z := u64 (k * 11400714819323198485).

Definition exS3 : S3FIFOPolicy Z :=
  s3Add (s3Add (NewS3FIFO exGhostHash 100 64) exTable (mkQNode 1 1)) exTable (mkQNode 2 1).



Example exS3_small : contents (s3small exS3) = [mkQNode 1 1; mkQNode 2 1].
Proof. vm_compute. reflexivity. Qed.



