(* ===== verification/Budget.v ===== *)
(** * The automatic cost function (budget.go)

    A cache bounded in bytes derives an item's cost from the types of its key and value.  A Go type is
    described here as far as [reflect] is asked about it; of a value, the sizers read a string or slice
    length and whether a pointer is nil. *)

From S2P Require Import Prelude.

(** The kinds [pointerFree] lists by name. *)
Inductive PrimKind :=
| KBool | KInt | KInt8 | KInt16 | KInt32 | KInt64
| KUint | KUint8 | KUint16 | KUint32 | KUint64 | KUintptr
| KFloat32 | KFloat64 | KComplex64 | KComplex128.

(** [reflect.Type]: what [Kind], [Elem] and [Field] answer. *)
Inductive GoTy :=
| TPrim (k : PrimKind)
| TArray (len : Z) (elem : GoTy)
| TStruct (fields : list GoTy)
| TString
| TSlice (elem : GoTy)
| TPointer (elem : GoTy)
| TMap | TInterface | TFunc | TChan | TUnsafePointer.

Fixpoint pointerFree (t : GoTy) : bool :=
  match t with
  | TPrim _ => true
  | TArray _ elem => pointerFree elem
  | TStruct fields => forallb pointerFree fields
  | _ => false
  end.

(** The words of a value the sizers look at. *)
Inductive Header := HString (len : Z) | HSlice (len : Z) | HPointer (isNil : bool) | HInline.

Section Budget.
(** [Type.Size]: the compiler's layout. *)
Context (sizeof : GoTy → Z).

(** [None] is [ok = false]; [Some None] a nil estimator, for a type that references nothing. *)
Definition payloadSizer (t : GoTy) : option (option (Header → Z)) :=
  if pointerFree t then Some None
  else match t with
  | TString => Some (Some (λ v, match v with HString len => len | _ => 0 end))
  | TSlice elem =>
    if negb (pointerFree elem) then None
    else
      let elemSize := sizeof elem in
      Some (Some (λ v, match v with HSlice len => len * elemSize | _ => 0 end))
  | TPointer elem =>
    if negb (pointerFree elem) then None
    else
      let pointeeSize := sizeof elem in
      Some (Some (λ v, match v with HPointer true => 0 | _ => pointeeSize end))
  | _ => None
  end.

Definition MaxUint32 : Z := 2 ^ 32 - 1.

(** Which of the two types has no estimator. *)
Inductive BudgetErr := BadKeyType | BadValueType.

(** [fixed] is [unsafe.Sizeof] of the entry of the two types. *)
Definition GetAutoCostFunc (fixed : Z) (tk tv : GoTy) : BudgetErr + (Header → Header → Z) :=
  match payloadSizer tk with
  | None => inl BadKeyType
  | Some keySize =>
    match payloadSizer tv with
    | None => inl BadValueType
    | Some valSize =>
      match keySize, valSize with
      | None, None => let cost := Z.min fixed MaxUint32 in inr (λ _ _, cost)
      | _, _ =>
        inr (λ key value,
          let cost := fixed in
          let cost := match keySize with Some f => cost + f key | None => cost end in
          let cost := match valSize with Some f => cost + f value | None => cost end in
          if MaxUint32 <? cost then MaxUint32 else cost)
      end
    end
  end.

(** ** What the cost means *)

(** The heap bytes a value refers to, for the types whose values refer to at most one block without
    pointers of its own; the others are out of the estimator's reach. *)
Inductive heapBytes : GoTy → Header → Z → Prop :=
| hb_inline t h : pointerFree t = true → heapBytes t h 0
| hb_string len : heapBytes TString (HString len) len
| hb_slice elem len : pointerFree elem = true → heapBytes (TSlice elem) (HSlice len) (len * sizeof elem)
| hb_nil elem : pointerFree elem = true → heapBytes (TPointer elem) (HPointer true) 0
| hb_pointer elem : pointerFree elem = true → heapBytes (TPointer elem) (HPointer false) (sizeof elem).

(** A value carries the header of its type. *)
Definition has_type (t : GoTy) (h : Header) : Prop :=
  match t with
  | TString => ∃ len, h = HString len
  | TSlice _ => ∃ len, h = HSlice len
  | TPointer _ => ∃ b, h = HPointer b
  | _ => h = HInline
  end.

Lemma payloadSizer_spec t h :
  has_type t h →
  match payloadSizer t with
  | None => ∀ n, ¬ heapBytes t h n
  | Some f => heapBytes t h (match f with Some f => f h | None => 0 end)
  end.
Proof.
  intros Ht. unfold payloadSizer. destruct (pointerFree t) eqn:Ep; [by constructor|].
  assert (∀ elem, (t = TSlice elem ∨ t = TPointer elem) → pointerFree elem = false → ∀ n, ¬ heapBytes t h n) as Hno.
  { intros elem [-> | ->] Hf n Hn; inversion Hn; congruence. }
  destruct t as [k|len elem|fields| |elem|elem| | | | |]; cbn in Ep; try done;
    try (intros n Hn; inversion Hn; subst; cbn in *; congruence).
  - destruct Ht as [len ->]. constructor.
  - destruct (pointerFree elem) eqn:Ee; cbn [negb]; [|by apply (Hno elem); auto].
    destruct Ht as [len ->]. by constructor.
  - destruct (pointerFree elem) eqn:Ee; cbn [negb]; [|by apply (Hno elem); auto].
    destruct Ht as [[] ->]; by constructor.
Qed.

End Budget.

(** The automatic cost function exists exactly for the key and value types whose values own at
    most one block of plain bytes, and then costs an item its inline entry plus those blocks, capped
    at the largest 32-bit weight. *)
Theorem auto_cost_is_footprint (sizeof : GoTy → Z) fixed tk tv hk hv :
  has_type tk hk → has_type tv hv →
  match GetAutoCostFunc sizeof fixed tk tv with
  | inl _ => ¬ ∃ a b, heapBytes sizeof tk hk a ∧ heapBytes sizeof tv hv b
  | inr f => ∃ a b, heapBytes sizeof tk hk a ∧ heapBytes sizeof tv hv b ∧ f hk hv = Z.min (fixed + a + b) MaxUint32
  end.
Proof.
  intros Hk Hv. pose proof (payloadSizer_spec sizeof tk hk Hk) as Sk. pose proof (payloadSizer_spec sizeof tv hv Hv) as Sv.
  unfold GetAutoCostFunc. destruct (payloadSizer sizeof tk) as [fk|]; [|intros (a & b & Ha & _); by destruct (Sk a)].
  destruct (payloadSizer sizeof tv) as [fv|]; [|intros (a & b & _ & Hb); by destruct (Sv b)].
  destruct fk as [fk|], fv as [fv|]; eexists _, _; (split_and!; [exact Sk|exact Sv|]); cbv zeta;
    rewrite ?Z.add_0_r; try done; match goal with |- context [?a <? ?b] => destruct (Z.ltb_spec a b) end; lia.
Qed.
