(* ===== verification/Config.v ===== *)
(** * Configuration and construction (config.go, options.go, policy.go, NewWithConfig of cache.go)

    Options fill a [Config]; [NewWithConfig] completes and checks it, in place, and sizes the shards.
    The types of handlers, loaders and the second level are parameters: the constructor only stores
    them. *)

From S2P Require Import Prelude Table Budget Expiry.

(** [Policy] is a [uint8]; [PolicyOther] is a value outside the four constants. *)
Inductive Policy := PolicyS3FIFO | PolicyClock | PolicyWTinyLFU | PolicySIEVE | PolicyOther (n : Z).

Inductive WritePolicy := WriteBack | WriteThrough | WriteDisabled.

#[global] Instance WritePolicy_eq_dec : EqDecision WritePolicy.
Proof. solve_decision. Defined.

Inductive WriteBackBatching := BatchingFull | BatchingNone | BatchingAdaptive.

#[global] Instance WriteBackBatching_eq_dec : EqDecision WriteBackBatching.
Proof. solve_decision. Defined.

(** The sentinel errors of config.go and options.go. *)
Inductive ConfigErr :=
| ErrBadCapacity | ErrCapacityTooLarge | ErrBadBudget | ErrPreallocWeighted | ErrBudgetAndCapacity
| ErrBudgetNeedsCostFunc | ErrUnknownPolicy | ErrNilCustomPolicy | ErrBadWorkers | ErrBadGetBatchedWorkers
| ErrBadTTL | ErrOptionMismatch.

Definition DefaultMemoryCapacity : Z := 20000.
Definition DefaultWriteBackWorkers : Z := 4.
Definition DefaultGetBatchedWorkers : Z := 4.
Definition DefaultGetBatchedBuffer : Z := 1024.
Definition minTableSlots : Z := 64.
Definition maxTableSlots : Z := Z.shiftl 1 32.

(** [pow2Ceil] of an [int64]; [bits.Len64] is [bitsLen]. *)
Definition pow2Ceil (n : Z) : Z :=
  if n <=? 1 then 1 else i64 (Z.shiftl 1 (bitsLen (n - 1))).

Definition preallocSlots (shardCap : Z) : Z :=
  Z.min (Z.max (pow2Ceil (i64 (i64 (i64 (4 * i64 (shardCap + 1)) ÷ 3) + 1))) minTableSlots) maxTableSlots.

Section Config.
(** The cost function, the custom-policy factory (its answer may be nil), the second level and the
    handlers. *)
Context {Cost Pol L2 ErrH DelH PanicH : Type}.

Record Config := mkConfig {
  MemoryCapacity : Z;
  MemoryBudget : Z;
  CostFunc : option Cost;
  TTL : Z;
  RefreshTTLOnGet : bool;
  cPolicy : Policy;
  CustomPolicy : option (Z → option Pol);
  PreallocateMap : bool;
  ShardsCount : Z;
  L2Cache : option L2;
  cWritePolicy : WritePolicy;
  GhostSize : Z;
  WriteBackBufferSize : Z;
  WriteBackWorkers : Z;
  cWriteBackBatching : WriteBackBatching;
  GetBatchedBufferSize : Z;
  GetBatchedWorkers : Z;
  OnL2Error : option ErrH;
  OnDeletion : option DelH;
  OnPanic : option PanicH;
  StatsEnabled : bool
}.

Definition zeroConfig : Config :=
  mkConfig 0 0 None 0 false PolicyS3FIFO None false 0 None WriteBack 0 0 0 BatchingFull 0 0 None None None false.

Implicit Types (c : Config).

(** The halving loop of [shardCount]; a count of at most 128 is halved at most 7 times. *)
Fixpoint halve (fuel : nat) (capacity count : Z) : Z :=
  match fuel with
  | O => count
  | S fuel =>
    if (1 <? count) && (capacity ÷ count <? 64) then halve fuel capacity (Z.shiftr count 1) else count
  end.

Definition shardCount (gomaxprocs : Z) c : Z :=
  let count := ShardsCount c in
  let count := if count <=? 0 then gomaxprocs else count in
  let count := Z.min count 128 in
  let count := pow2Ceil count in
  halve 7 (MemoryCapacity c) count.

Definition ghostSize c : Z :=
  if 0 <? GhostSize c then GhostSize c
  else match CostFunc c with
  | None => Z.min (MemoryCapacity c) (Z.shiftl 1 20)
  | Some _ => 8192
  end.

Definition writeBackBuffer c : Z := if 0 <? WriteBackBufferSize c then WriteBackBufferSize c else 500.

Definition writeBackWorkers c : Z :=
  if 0 <? WriteBackWorkers c then WriteBackWorkers c else DefaultWriteBackWorkers.

Definition getBatchedBuffer c : Z :=
  if 0 <? GetBatchedBufferSize c then GetBatchedBufferSize c else DefaultGetBatchedBuffer.

Definition getBatchedWorkers c : Z :=
  if 0 <? GetBatchedWorkers c then GetBatchedWorkers c else DefaultGetBatchedWorkers.

Definition setCost c (f : Cost) : Config :=
  mkConfig (MemoryCapacity c) (MemoryBudget c) (Some f) (TTL c) (RefreshTTLOnGet c) (cPolicy c) (CustomPolicy c)
    (PreallocateMap c) (ShardsCount c) (L2Cache c) (cWritePolicy c) (GhostSize c) (WriteBackBufferSize c)
    (WriteBackWorkers c) (cWriteBackBatching c) (GetBatchedBufferSize c) (GetBatchedWorkers c) (OnL2Error c)
    (OnDeletion c) (OnPanic c) (StatsEnabled c).

Definition setCapacity c (n : Z) : Config :=
  mkConfig n (MemoryBudget c) (CostFunc c) (TTL c) (RefreshTTLOnGet c) (cPolicy c) (CustomPolicy c)
    (PreallocateMap c) (ShardsCount c) (L2Cache c) (cWritePolicy c) (GhostSize c) (WriteBackBufferSize c)
    (WriteBackWorkers c) (cWriteBackBatching c) (GetBatchedBufferSize c) (GetBatchedWorkers c) (OnL2Error c)
    (OnDeletion c) (OnPanic c) (StatsEnabled c).

(** ** Checking

    The validation half of [NewWithConfig].  It writes the derived cost function and capacity into the
    caller's [Config], so the config after the call is part of the answer.  [autoCost] is what
    [GetAutoCostFunc] answers for the cache's types. *)
Definition isSet {A} (o : option A) : bool := match o with Some _ => true | None => false end.

(** The byte budget becomes an ordinary weighted capacity. *)
Definition applyBudget (autoCost : option Cost) c : Config * option ConfigErr :=
  if 0 <? MemoryBudget c then
    if negb (MemoryCapacity c =? 0) then (c, Some ErrBudgetAndCapacity)
    else match CostFunc c, autoCost with
    | None, None => (c, Some ErrBudgetNeedsCostFunc)
    | None, Some f => (setCapacity (setCost c f) (MemoryBudget c), None)
    | Some _, _ => (setCapacity c (MemoryBudget c), None)
    end
  else (c, None).

Definition applyDefault c : Config * option ConfigErr :=
  if MemoryCapacity c =? 0 then
    if isSet (CostFunc c) then (c, Some ErrBadCapacity) else (setCapacity c DefaultMemoryCapacity, None)
  else (c, None).

(** The checks that change nothing. *)
Definition checkRules c : option ConfigErr :=
  if negb (isSet (CostFunc c)) && (MaxItems <? MemoryCapacity c) then Some ErrCapacityTooLarge
  else if PreallocateMap c && isSet (CostFunc c) then Some ErrPreallocWeighted
  else if match CustomPolicy c, cPolicy c with None, PolicyOther _ => true | _, _ => false end
  then Some ErrUnknownPolicy
  else if TTL c <? 0 then Some ErrBadTTL
  else if WriteBackWorkers c <? 0 then Some ErrBadWorkers
  else if GetBatchedWorkers c <? 0 then Some ErrBadGetBatchedWorkers
  else None.

Definition checkConfig (autoCost : option Cost) c : Config * option ConfigErr :=
  if MemoryCapacity c <? 0 then (c, Some ErrBadCapacity)
  else if MemoryBudget c <? 0 then (c, Some ErrBadBudget)
  else match applyBudget autoCost c with
  | (c, Some e) => (c, Some e)
  | (c, None) =>
    match applyDefault c with
    | (c, Some e) => (c, Some e)
    | (c, None) => (c, checkRules c)
    end
  end.

(** ** Sizing *)

(** One shard's capacity and its initial table size. *)
Definition shardCap (c : Config) (numShards i : Z) : Z :=
  let baseCap := MemoryCapacity c ÷ numShards in
  let remainder := Z.rem (MemoryCapacity c) numShards in
  if i <? remainder then i64 (baseCap + 1) else baseCap.

Definition shardSlots (c : Config) (cap : Z) : Z :=
  if PreallocateMap c then preallocSlots cap else minTableSlots.

(** What [NewWithConfig] builds of a checked configuration; a policy is what the factory or the
    built-in constructor makes for a shard of that capacity. *)
Record Built := mkBuilt {
  bShards : list (Z * Z * (Pol + Policy));
  bShardMask : Z;
  bGhostPerShard : Z;
  bWritePolicy : WritePolicy;
  bQueues : Z;
  bQueueSize : Z;
  bUnit : Z;
  bTtlOff : Z;
  bRefresh : bool
}.

Definition buildShard (c : Config) (numShards i : Z) : option (Z * Z * (Pol + Policy)) :=
  let cap := shardCap c numShards i in
  match CustomPolicy c with
  | Some factory =>
    match factory cap with
    | None => None
    | Some p => Some (cap, shardSlots c cap, inl p)
    end
  | None => Some (cap, shardSlots c cap, inr (cPolicy c))
  end.

Definition NewWithConfig (gomaxprocs : Z) (autoCost : option Cost) (cfg : option Config)
    : option Config * (ConfigErr + Built) :=
  let c := default zeroConfig cfg in
  let back c := match cfg with Some _ => Some c | None => None end in
  let '(c, err) := checkConfig autoCost c in
  match err with
  | Some e => (back c, inl e)
  | None =>
    let numShards := shardCount gomaxprocs c in
    let writePolicy := match L2Cache c with None => WriteDisabled | Some _ => cWritePolicy c end in
    match mapM (λ i, buildShard c numShards (Z.of_nat i)) (seq 0 (Z.to_nat numShards)) with
    | None => (back c, inl ErrNilCustomPolicy)
    | Some shards =>
      let '(unit, off, refresh) :=
        if 0 <? TTL c then (ttlScale (TTL c), RefreshTTLOnGet c) else (0, 0, false) in
      (back c, inr (mkBuilt shards (u32 (numShards - 1)) (Z.max (ghostSize c ÷ numShards) 1) writePolicy
        (match writePolicy with WriteBack => writeBackWorkers c | _ => 0 end) (writeBackBuffer c) unit off refresh))
    end
  end.

End Config.
Arguments Config : clear implicits.
Arguments Built : clear implicits.
