(* ===== verification/ConfigLaws.v ===== *)
(** * What the constructor guarantees

    Sizing of the shards for every configuration that passes the checks, and the effect of a list of
    options. *)

From S2P Require Import Prelude Table Budget Expiry Config.

(** ** Powers of two *)

Lemma pow2Ceil_spec n :
  n ≤ 2 ^ 62 → ∃ k, 0 ≤ k ≤ 62 ∧ pow2Ceil n = 2 ^ k ∧ n ≤ 2 ^ k ∧ (2 ^ k < 2 * n ∨ k = 0).
Proof.
  intros Hn. unfold pow2Ceil. destruct (Z.leb_spec n 1); [exists 0; cbn; lia|].
  destruct (bitsLen_ceil n ltac:(lia)) as [H1 H2]. specialize (H2 ltac:(lia)).
  pose proof (bitsLen_nonneg (n - 1)). exists (bitsLen (n - 1)).
  assert (bitsLen (n - 1) ≤ 62).
  { destruct (Z_lt_le_dec 62 (bitsLen (n - 1))); [|done]. pose proof (Z.pow_le_mono_r 2 63 (bitsLen (n - 1))). lia. }
  rewrite Z.shiftl_1_l, i64_small; [split_and!; [lia|lia|done|lia|by left]|].
  pose proof (Z.pow_le_mono_r 2 (bitsLen (n - 1)) 62). lia.
Qed.

Lemma pow2_small k j : 0 ≤ k → 2 ^ k < 2 ^ (j + 1) → k ≤ j.
Proof. intros Hk H. destruct (Z_lt_le_dec j k); [|done]. pose proof (Z.pow_le_mono_r 2 (j + 1) k). lia. Qed.

Lemma preallocSlots_spec cap :
  0 ≤ cap ≤ MaxItems →
  ∃ k, 6 ≤ k ≤ 32 ∧ preallocSlots cap = 2 ^ k ∧ (cap + 1 < MaxItems → (cap + 1) * 4 < preallocSlots cap * 3).
Proof.
  intros Hc. change MaxItems with 3221225472 in *. unfold preallocSlots.
  rewrite (i64_small (cap + 1)), (i64_small (4 * (cap + 1))) by lia. rewrite Z.quot_div_nonneg by lia.
  set (q := 4 * (cap + 1) / 3).
  assert (3 * q ≤ 4 * (cap + 1) < 3 * q + 3) as Hq.
  { unfold q. pose proof (Z.div_mod (4 * (cap + 1)) 3). pose proof (Z.mod_pos_bound (4 * (cap + 1)) 3). lia. }
  rewrite (i64_small q), (i64_small (q + 1)) by lia.
  destruct (pow2Ceil_spec (q + 1) ltac:(lia)) as (k & Hk & -> & Hle & Hlt).
  change minTableSlots with (2 ^ 6). change maxTableSlots with (2 ^ 32).
  destruct (Z_lt_le_dec k 6) as [H6|H6]; [|destruct (Z_lt_le_dec 32 k) as [H32|H32]].
  - exists 6. pose proof (Z.pow_le_mono_r 2 k 6). rewrite Z.max_r by lia. rewrite Z.min_l by done. split_and!; [lia..|done|lia].
  - exists 32. pose proof (Z.pow_le_mono_r 2 33 k). rewrite Z.max_l, Z.min_r by lia. split_and!; [lia..|done|]. lia.
  - exists k. pose proof (Z.pow_le_mono_r 2 6 k). pose proof (Z.pow_le_mono_r 2 k 32).
    rewrite Z.max_l, Z.min_l by lia. split_and!; [lia..|done|]. lia.
Qed.

Section Laws.
Context {Cost Pol L2 ErrH DelH PanicH : Type}.
Implicit Types (c : Config Cost Pol L2 ErrH DelH PanicH).

Lemma halve_spec fuel : ∀ capacity k, 0 ≤ capacity → 0 ≤ k ≤ Z.of_nat fuel →
  ∃ j, 0 ≤ j ≤ k ∧ halve fuel capacity (2 ^ k) = 2 ^ j ∧ (j = 0 ∨ 64 ≤ capacity / 2 ^ j).
Proof.
  induction fuel as [|fuel IH]; intros capacity k Hc Hk.
  { exists 0. replace k with 0 by lia. cbn. split_and!; [lia..|done|by left]. }
  cbn [halve]. assert (0 < 2 ^ k) by (apply Z.pow_pos_nonneg; lia).
  destruct (Z.ltb_spec 1 (2 ^ k)) as [H1|H1]; cbn [andb].
  - rewrite Z.quot_div_nonneg by lia. destruct (Z.ltb_spec (capacity / 2 ^ k) 64).
    + assert (1 ≤ k) by (destruct (Z.eq_dec k 0) as [->|]; [cbn in H1; lia|lia]).
      rewrite Z.shiftr_div_pow2 by lia. change (2 ^ 1) with 2.
      replace (2 ^ k / 2) with (2 ^ (k - 1)).
      * destruct (IH capacity (k - 1) Hc ltac:(lia)) as (j & Hj & E & Hd). exists j. split_and!; [lia..|done|done].
      * replace k with (k - 1 + 1) at 2 by lia. rewrite Z.pow_add_r by lia. symmetry. by apply Z.div_mul.
    + exists k. split_and!; [lia..|done|by right].
  - assert (k = 0) as -> by (destruct (Z.eq_dec k 0); [done|]; pose proof (Z.pow_le_mono_r 2 1 k); lia).
    exists 0. split_and!; [lia..|done|by left].
Qed.

Lemma shardCount_spec procs c :
  1 ≤ procs → 0 ≤ MemoryCapacity c →
  ∃ k, 0 ≤ k ≤ 7 ∧ shardCount procs c = 2 ^ k ∧ (k = 0 ∨ 64 ≤ MemoryCapacity c / 2 ^ k).
Proof.
  intros Hp Hc. unfold shardCount. set (n := Z.min _ 128).
  assert (1 ≤ n ≤ 128) as Hn by (unfold n; destruct (Z.leb_spec (ShardsCount c) 0); lia).
  destruct (pow2Ceil_spec n ltac:(lia)) as (k & Hk & -> & Hle & Hlt).
  assert (k ≤ 7) by (destruct Hlt as [Hlt|]; [apply (pow2_small k 7)|]; lia).
  destruct (halve_spec 7 (MemoryCapacity c) k Hc) as (j & Hj & E & Hd); [lia|]. exists j. split_and!; [lia..|done|done].
Qed.

(** ** The shards *)

Lemma sum_caps capacity n (N : nat) :
  0 ≤ capacity → Z.of_nat N = n → 0 < n →
  sumZ (λ i, capacity / n + (if i <? capacity mod n then 1 else 0)) (Z.of_nat <$> seq 0 N) = capacity.
Proof.
  intros Hc HN Hn.
  assert (∀ m, (m ≤ N)%nat → sumZ (λ i, capacity / n + (if i <? capacity mod n then 1 else 0)) (Z.of_nat <$> seq 0 m) =
    Z.of_nat m * (capacity / n) + Z.min (Z.of_nat m) (capacity mod n)) as H.
  { intros m. pose proof (Z.mod_pos_bound capacity n Hn). induction m as [|m IH]; intros Hm; [cbn; lia|].
    rewrite seq_S, fmap_app, sumZ_app, IH by lia. cbn [fmap list_fmap sumZ foldr]. cbn [Nat.add].
    destruct (Z.ltb_spec (Z.of_nat m) (capacity mod n)); lia. }
  rewrite H by lia. pose proof (Z.mod_pos_bound capacity n Hn). pose proof (Z.div_mod capacity n). lia.
Qed.

(** The capacity a checked configuration ends up with. *)
Lemma checkConfig_spec autoCost c c' :
  checkConfig autoCost c = (c', None) →
  0 < MemoryCapacity c' ∧ 0 ≤ TTL c' ∧ (CostFunc c' = None → MemoryCapacity c' ≤ MaxItems) ∧
  (PreallocateMap c' = true → CostFunc c' = None).
Proof.
  unfold checkConfig. destruct (Z.ltb_spec (MemoryCapacity c) 0); [done|].
  destruct (Z.ltb_spec (MemoryBudget c) 0); [done|].
  destruct (applyBudget autoCost c) as [c1 [e|]] eqn:E1; [done|].
  assert (0 ≤ MemoryCapacity c1) as H1.
  { unfold applyBudget in E1. repeat case_match; simplify_eq/=; lia. }
  destruct (applyDefault c1) as [c2 [e|]] eqn:E2; [done|]. intros [= <- Hr].
  assert (0 < MemoryCapacity c2) as H2.
  { unfold applyDefault in E2. destruct (Z.eqb_spec (MemoryCapacity c1) 0); repeat case_match; simplify_eq/=; [done|lia]. }
  unfold checkRules in Hr. destruct (CostFunc c2) as [f|]; cbn [isSet negb andb] in Hr;
    repeat match type of Hr with context [if ?b then _ else _] => destruct b eqn:? end; simplify_eq/=;
    split_and!; try done; intros; rewrite ?andb_true_r in *; try congruence; lia.
Qed.

Lemma shardCap_spec c n i :
  0 ≤ MemoryCapacity c < 2 ^ 63 → 0 < n → 0 ≤ i →
  shardCap c n i = MemoryCapacity c / n + (if i <? MemoryCapacity c mod n then 1 else 0) ∧
  0 ≤ shardCap c n i ≤ MemoryCapacity c.
Proof.
  intros Hc Hn Hi. unfold shardCap. rewrite Z.quot_div_nonneg, Z.rem_mod_nonneg by lia.
  pose proof (Z.div_mod (MemoryCapacity c) n ltac:(lia)). pose proof (Z.mod_pos_bound (MemoryCapacity c) n Hn).
  assert (0 ≤ MemoryCapacity c / n) by (apply Z.div_pos; lia).
  assert (MemoryCapacity c / n ≤ n * (MemoryCapacity c / n)) by nia.
  destruct (Z.ltb_spec i (MemoryCapacity c mod n)); [rewrite i64_small by lia; lia|]. split; lia.
Qed.

(** The shards of a built cache. *)
Lemma mapM_seq_lookup {A} (f : nat → option A) n l :
  mapM f (seq 0 n) = Some l → length l = n ∧ ∀ i x, l !! i = Some x → f i = Some x.
Proof.
  intros H. apply mapM_Some_1 in H. split.
  - apply Forall2_length in H. by rewrite length_seq in H.
  - intros i x Hx. destruct (Forall2_lookup_r _ _ _ _ _ H Hx) as (j & Hj & E).
    apply lookup_seq in Hj as [-> _]. done.
Qed.

Lemma buildShard_spec c n i s :
  buildShard c n i = Some s → s.1.1 = shardCap c n i ∧ s.1.2 = shardSlots c (shardCap c n i).
Proof. unfold buildShard. repeat case_match; intros; by simplify_eq/=. Qed.

Lemma shardSlots_spec c cap :
  0 ≤ cap → (PreallocateMap c = true → cap ≤ MaxItems) →
  ∃ m, 6 ≤ m ≤ 32 ∧ shardSlots c cap = 2 ^ m ∧
    (PreallocateMap c = true → cap + 1 < MaxItems → (cap + 1) * 4 < shardSlots c cap * 3).
Proof.
  intros Hc Hm. unfold shardSlots. destruct (PreallocateMap c).
  - destruct (preallocSlots_spec cap) as (k & Hk & E & Hl); [by specialize (Hm eq_refl)|]. exists k. by split_and!; [lia..| |].
  - exists 6. done.
Qed.

(** C27: The constructor sizes the shards.  For every configuration it accepts, the shard count is a
    power of two from 1 to 128 with the mask to match, the capacities add up to exactly the configured
    capacity and differ by at most one, each shard has at least 64 units unless it is the only one, every table size is a power
    of two from 64 to 2^32, and a preallocated table holds the shard's capacity, and the one item over
    it that trips eviction, without a rebuild. *)
Theorem constructor_sizes procs autoCost c c' b :
  1 ≤ procs → MemoryCapacity c' < 2 ^ 63 →
  NewWithConfig procs autoCost (Some c) = (Some c', inr b) →
  ∃ k, 0 ≤ k ≤ 7 ∧ Z.of_nat (length (bShards b)) = 2 ^ k ∧ bShardMask b = 2 ^ k - 1 ∧
    sumZ (λ x, x) ((λ s, s.1.1) <$> bShards b) = MemoryCapacity c' ∧
    (∀ s s', s ∈ bShards b → s' ∈ bShards b → s.1.1 ≤ s'.1.1 + 1) ∧
    Forall (λ s, ∃ m, 6 ≤ m ≤ 32 ∧ s.1.2 = 2 ^ m ∧ (k = 0 ∨ 64 ≤ s.1.1) ∧
      (PreallocateMap c' = true → s.1.1 + 1 < MaxItems → (s.1.1 + 1) * 4 < s.1.2 * 3)) (bShards b).
Proof.
  intros Hp Hmax H. unfold NewWithConfig in H. cbn [default from_option id] in H.
  destruct (checkConfig autoCost c) as [c1 [e|]] eqn:E1; [done|].
  destruct (mapM _ _) as [ss|] eqn:Es; [|done].
  destruct (if 0 <? TTL c1 then _ else _) as [[unit off] refresh] in H.
  injection H as <- <-. cbn [bShards bShardMask].
  destruct (checkConfig_spec _ _ _ E1) as (Hcap & _ & Hitems & Hpre).
  destruct (shardCount_spec procs c1 Hp ltac:(lia)) as (k & Hk & En & Hd). rewrite En in *.
  assert (0 < 2 ^ k ≤ 2 ^ 7) as Hpow by (split; [apply Z.pow_pos_nonneg|apply Z.pow_le_mono_r]; lia).
  destruct (mapM_seq_lookup _ _ _ Es) as [Hlen Hat].
  assert (∀ i s, ss !! i = Some s → s.1.1 = shardCap c1 (2 ^ k) (Z.of_nat i) ∧
    s.1.2 = shardSlots c1 (shardCap c1 (2 ^ k) (Z.of_nat i))) as Hs.
  { intros i s Hi. apply buildShard_spec. by apply Hat. }
  exists k. split_and!; [lia..|by rewrite u32_small by lia| | |].
  - rewrite <- (sum_caps (MemoryCapacity c1) (2 ^ k) (Z.to_nat (2 ^ k))) by lia. rewrite <- Hlen.
    assert ((λ s, s.1.1) <$> ss = (λ i, MemoryCapacity c1 / 2 ^ k + (if i <? MemoryCapacity c1 mod 2 ^ k then 1 else 0))
      <$> (Z.of_nat <$> seq 0 (length ss))) as ->.
    { apply list_eq. intros i. rewrite !list_lookup_fmap. destruct (ss !! i) as [s|] eqn:Ei; cbn.
      - rewrite lookup_seq_lt by (by eapply lookup_lt_Some). cbn. destruct (Hs i s Ei) as [-> _].
        by rewrite (proj1 (shardCap_spec c1 (2 ^ k) (Z.of_nat i) ltac:(lia) ltac:(lia) ltac:(lia))).
      - apply lookup_ge_None in Ei. by rewrite lookup_seq_ge by lia. }
    induction (Z.of_nat <$> seq 0 (length ss)) as [|x l IH]; [done|]. rewrite fmap_cons, !sumZ_cons, IH. done.
  - intros s s' [i Hi]%list_elem_of_lookup [j Hj]%list_elem_of_lookup. destruct (Hs i s Hi) as [-> _]. destruct (Hs j s' Hj) as [-> _].
    destruct (shardCap_spec c1 (2 ^ k) (Z.of_nat i) ltac:(lia) ltac:(lia) ltac:(lia)) as [-> _].
    destruct (shardCap_spec c1 (2 ^ k) (Z.of_nat j) ltac:(lia) ltac:(lia) ltac:(lia)) as [-> _]. repeat case_match; lia.
  - apply Forall_lookup. intros i s Hi. destruct (Hs i s Hi) as [-> ->].
    destruct (shardCap_spec c1 (2 ^ k) (Z.of_nat i) ltac:(lia) ltac:(lia) ltac:(lia)) as [Ec Hc].
    destruct (shardSlots_spec c1 (shardCap c1 (2 ^ k) (Z.of_nat i))) as (m & Hm & -> & Hfill); [lia| |].
    { intros Hpre'. specialize (Hitems (Hpre Hpre')). lia. }
    exists m. split_and!; [lia..|done| |done]. destruct Hd as [|Hd]; [by left|right]. rewrite Ec. case_match; lia.
Qed.

(** The constructor writes the derived capacity into the caller's configuration: one that bounds
    the cache in bytes builds a cache once, and is then refused for setting both a budget and a
    capacity. *)
Theorem budget_config_works_once procs autoCost procs' autoCost' c c' b :
  0 < MemoryBudget c →
  NewWithConfig procs autoCost (Some c) = (Some c', inr b) →
  NewWithConfig procs' autoCost' (Some c') = (Some c', inl ErrBudgetAndCapacity).
Proof.
  intros Hb H. unfold NewWithConfig in H. cbn [default from_option id] in H.
  destruct (checkConfig autoCost c) as [c1 [e|]] eqn:E1; [done|].
  destruct (mapM _ _); [|done]. destruct (if 0 <? TTL c1 then _ else _) as [[unit off] refresh] in H. injection H as <- _.
  assert (MemoryCapacity c1 = MemoryBudget c ∧ MemoryBudget c1 = MemoryBudget c) as [Ec Eb].
  { unfold checkConfig in E1. destruct (MemoryCapacity c <? 0); [done|]. destruct (MemoryBudget c <? 0); [done|].
    destruct (applyBudget autoCost c) as [c0 [e|]] eqn:E0; [done|].
    assert (MemoryCapacity c0 = MemoryBudget c ∧ MemoryBudget c0 = MemoryBudget c) as [H1 H2].
    { unfold applyBudget in E0. rewrite (proj2 (Z.ltb_lt _ _) Hb) in E0. repeat case_match; by simplify_eq/=. }
    unfold applyDefault in E1. rewrite H1 in E1. destruct (Z.eqb_spec (MemoryBudget c) 0); [lia|]. by simplify_eq/=. }
  unfold NewWithConfig. cbn [default from_option id]. unfold checkConfig, applyBudget. rewrite Ec, Eb.
  destruct (Z.ltb_spec (MemoryBudget c) 0); [lia|]. rewrite (proj2 (Z.ltb_lt _ _) Hb).
  destruct (Z.eqb_spec (MemoryBudget c) 0); [lia|]. done.
Qed.

End Laws.

(** ** Instances *)

Definition exConfig (capacity budget : Z) (prealloc : bool) : Config unit unit unit unit unit unit :=
  mkConfig capacity budget None 0 false PolicyClock None prealloc 8 None WriteBack 0 0 0 BatchingFull 0 0 None None None false.

Lemma constructor_sizes_witness :
  match NewWithConfig 4 None (Some (exConfig 1001 0 true)) with
  | (Some c', inr b) => ∃ k, Z.of_nat (length (bShards b)) = 2 ^ k ∧ sumZ (λ x, x) ((λ s, s.1.1) <$> bShards b) = 1001 ∧
      bShards b !! 0%nat = Some (126, 256, inr PolicyClock) ∧ bShards b !! 7%nat = Some (125, 256, inr PolicyClock) ∧ 126 ≤ 125 + 1
  | _ => False
  end.
Proof.
  destruct (NewWithConfig 4 None (Some (exConfig 1001 0 true))) as [[c'|] [e|b]] eqn:E; try (vm_compute in E; discriminate E).
  destruct (constructor_sizes 4 None (exConfig 1001 0 true) c' b) as (k & _ & Hl & _ & Hs & Hd & _);
    [lia|vm_compute in E; injection E as <- _; reflexivity|exact E|].
  vm_compute in E. injection E as <- <-. exists k. split_and!; [exact Hl|exact Hs|reflexivity|reflexivity|].
  exact (Hd (126, 256, inr PolicyClock) (125, 256, inr PolicyClock) ltac:(left) ltac:(do 7 right; left)).
Defined.
