(* ===== verification/Options.v ===== *)
(** * The options (options.go)

    An option either overrides plain fields, collected in [FieldOverrides] because they are written
    without the cache's types, or fills a typed target at once.  [buildConfig] applies a list of them;
    the theorem at the end says that the two-phase assembly is the same as setting the fields one
    option after the other. *)

From S2P Require Import Prelude Budget Expiry Config.

Section Options.
Context {Cost Pol L2 ErrH DelH PanicH : Type}.
Abbreviation Config := (Config Cost Pol L2 ErrH DelH PanicH).

(** [None] is the nil pointer, "keep the base value". *)
Record FieldOverrides := mkFO {
  fo_memoryCapacity : option Z;
  fo_memoryBudget : option Z;
  fo_ttl : option Z;
  fo_refreshTTLOnGet : option bool;
  fo_policy : option Policy;
  fo_preallocateTable : option bool;
  fo_shards : option Z;
  fo_writePolicy : option WritePolicy;
  fo_ghostSize : option Z;
  fo_writeBackBufferSize : option Z;
  fo_writeBackWorkers : option Z;
  fo_writeBackBatching : option WriteBackBatching;
  fo_getBatchedBufferSize : option Z;
  fo_getBatchedWorkers : option Z;
  fo_onPanic : option (option PanicH);
  fo_statsEnabled : option bool
}.

Definition noOverrides : FieldOverrides := mkFO None None None None None None None None None None None None None None None None.

(** What a typed option may be handed: a [Config], of the key and value types that [types] stands for,
    or another package's target. *)
Inductive Target := TargetConfig (types : nat) (cfg : Config) | TargetOther.

Record Option := mkOption {
  ApplyField : option (FieldOverrides → FieldOverrides);
  ApplyTyped : option (Target → Target * option ConfigErr)
}.

Definition applyToConfig (types : nat) (target : Target) (fill : Config → Config) : Target * option ConfigErr :=
  match target with
  | TargetConfig types' cfg =>
    if Nat.eqb types' types then (TargetConfig types' (fill cfg), None) else (target, Some ErrOptionMismatch)
  | TargetOther => (target, None)
  end.

(** The copy of the overridden fields at the end of [buildConfig]. *)
Definition overrideFields (f : FieldOverrides) (c : Config) : Config :=
  mkConfig
    (default (MemoryCapacity c) (fo_memoryCapacity f))
    (default (MemoryBudget c) (fo_memoryBudget f))
    (CostFunc c)
    (default (TTL c) (fo_ttl f))
    (default (RefreshTTLOnGet c) (fo_refreshTTLOnGet f))
    (default (cPolicy c) (fo_policy f))
    (CustomPolicy c)
    (default (PreallocateMap c) (fo_preallocateTable f))
    (default (ShardsCount c) (fo_shards f))
    (L2Cache c)
    (default (cWritePolicy c) (fo_writePolicy f))
    (default (GhostSize c) (fo_ghostSize f))
    (default (WriteBackBufferSize c) (fo_writeBackBufferSize f))
    (default (WriteBackWorkers c) (fo_writeBackWorkers f))
    (default (cWriteBackBatching c) (fo_writeBackBatching f))
    (default (GetBatchedBufferSize c) (fo_getBatchedBufferSize f))
    (default (GetBatchedWorkers c) (fo_getBatchedWorkers f))
    (OnL2Error c)
    (OnDeletion c)
    (default (OnPanic c) (fo_onPanic f))
    (default (StatsEnabled c) (fo_statsEnabled f)).

(** The loop of [buildConfig]: an option may carry both parts; a typed one that fails ends it. *)
Fixpoint applyOptions (types : nat) (opts : list Option) (fields : FieldOverrides) (cfg : Config)
    : FieldOverrides * Config * option ConfigErr :=
  match opts with
  | [] => (fields, cfg, None)
  | opt :: opts =>
    let fields := match ApplyField opt with Some f => f fields | None => fields end in
    match ApplyTyped opt with
    | None => applyOptions types opts fields cfg
    | Some f =>
      match f (TargetConfig types cfg) with
      | (TargetConfig _ cfg, None) => applyOptions types opts fields cfg
      | (TargetOther, None) => applyOptions types opts fields cfg
      | (TargetConfig _ cfg, Some e) => (fields, cfg, Some e)
      | (TargetOther, Some e) => (fields, cfg, Some e)
      end
    end
  end.

Definition buildConfig (types : nat) (opts : list Option) : Config * option ConfigErr :=
  match applyOptions types opts noOverrides zeroConfig with
  | (_, cfg, Some e) => (cfg, Some e)
  | (fields, cfg, None) => (overrideFields fields cfg, None)
  end.

(** ** The helpers *)

Definition fieldOption (f : FieldOverrides → FieldOverrides) : Option := mkOption (Some f) None.

Definition typedOption (types : nat) (fill : Config → Config) : Option :=
  mkOption None (Some (λ target, applyToConfig types target fill)).

Definition over_memoryCapacity (x : Z) : FieldOverrides → FieldOverrides :=
  λ f, mkFO (Some x) (fo_memoryBudget f) (fo_ttl f) (fo_refreshTTLOnGet f) (fo_policy f) (fo_preallocateTable f) (fo_shards f) (fo_writePolicy f) (fo_ghostSize f) (fo_writeBackBufferSize f) (fo_writeBackWorkers f) (fo_writeBackBatching f) (fo_getBatchedBufferSize f) (fo_getBatchedWorkers f) (fo_onPanic f) (fo_statsEnabled f).
Definition over_memoryBudget (x : Z) : FieldOverrides → FieldOverrides :=
  λ f, mkFO (fo_memoryCapacity f) (Some x) (fo_ttl f) (fo_refreshTTLOnGet f) (fo_policy f) (fo_preallocateTable f) (fo_shards f) (fo_writePolicy f) (fo_ghostSize f) (fo_writeBackBufferSize f) (fo_writeBackWorkers f) (fo_writeBackBatching f) (fo_getBatchedBufferSize f) (fo_getBatchedWorkers f) (fo_onPanic f) (fo_statsEnabled f).
Definition over_ttl (x : Z) : FieldOverrides → FieldOverrides :=
  λ f, mkFO (fo_memoryCapacity f) (fo_memoryBudget f) (Some x) (fo_refreshTTLOnGet f) (fo_policy f) (fo_preallocateTable f) (fo_shards f) (fo_writePolicy f) (fo_ghostSize f) (fo_writeBackBufferSize f) (fo_writeBackWorkers f) (fo_writeBackBatching f) (fo_getBatchedBufferSize f) (fo_getBatchedWorkers f) (fo_onPanic f) (fo_statsEnabled f).
Definition over_refreshTTLOnGet (x : bool) : FieldOverrides → FieldOverrides :=
  λ f, mkFO (fo_memoryCapacity f) (fo_memoryBudget f) (fo_ttl f) (Some x) (fo_policy f) (fo_preallocateTable f) (fo_shards f) (fo_writePolicy f) (fo_ghostSize f) (fo_writeBackBufferSize f) (fo_writeBackWorkers f) (fo_writeBackBatching f) (fo_getBatchedBufferSize f) (fo_getBatchedWorkers f) (fo_onPanic f) (fo_statsEnabled f).
Definition over_policy (x : Policy) : FieldOverrides → FieldOverrides :=
  λ f, mkFO (fo_memoryCapacity f) (fo_memoryBudget f) (fo_ttl f) (fo_refreshTTLOnGet f) (Some x) (fo_preallocateTable f) (fo_shards f) (fo_writePolicy f) (fo_ghostSize f) (fo_writeBackBufferSize f) (fo_writeBackWorkers f) (fo_writeBackBatching f) (fo_getBatchedBufferSize f) (fo_getBatchedWorkers f) (fo_onPanic f) (fo_statsEnabled f).
Definition over_preallocateTable (x : bool) : FieldOverrides → FieldOverrides :=
  λ f, mkFO (fo_memoryCapacity f) (fo_memoryBudget f) (fo_ttl f) (fo_refreshTTLOnGet f) (fo_policy f) (Some x) (fo_shards f) (fo_writePolicy f) (fo_ghostSize f) (fo_writeBackBufferSize f) (fo_writeBackWorkers f) (fo_writeBackBatching f) (fo_getBatchedBufferSize f) (fo_getBatchedWorkers f) (fo_onPanic f) (fo_statsEnabled f).
Definition over_shards (x : Z) : FieldOverrides → FieldOverrides :=
  λ f, mkFO (fo_memoryCapacity f) (fo_memoryBudget f) (fo_ttl f) (fo_refreshTTLOnGet f) (fo_policy f) (fo_preallocateTable f) (Some x) (fo_writePolicy f) (fo_ghostSize f) (fo_writeBackBufferSize f) (fo_writeBackWorkers f) (fo_writeBackBatching f) (fo_getBatchedBufferSize f) (fo_getBatchedWorkers f) (fo_onPanic f) (fo_statsEnabled f).
Definition over_writePolicy (x : WritePolicy) : FieldOverrides → FieldOverrides :=
  λ f, mkFO (fo_memoryCapacity f) (fo_memoryBudget f) (fo_ttl f) (fo_refreshTTLOnGet f) (fo_policy f) (fo_preallocateTable f) (fo_shards f) (Some x) (fo_ghostSize f) (fo_writeBackBufferSize f) (fo_writeBackWorkers f) (fo_writeBackBatching f) (fo_getBatchedBufferSize f) (fo_getBatchedWorkers f) (fo_onPanic f) (fo_statsEnabled f).
Definition over_ghostSize (x : Z) : FieldOverrides → FieldOverrides :=
  λ f, mkFO (fo_memoryCapacity f) (fo_memoryBudget f) (fo_ttl f) (fo_refreshTTLOnGet f) (fo_policy f) (fo_preallocateTable f) (fo_shards f) (fo_writePolicy f) (Some x) (fo_writeBackBufferSize f) (fo_writeBackWorkers f) (fo_writeBackBatching f) (fo_getBatchedBufferSize f) (fo_getBatchedWorkers f) (fo_onPanic f) (fo_statsEnabled f).
Definition over_writeBackBufferSize (x : Z) : FieldOverrides → FieldOverrides :=
  λ f, mkFO (fo_memoryCapacity f) (fo_memoryBudget f) (fo_ttl f) (fo_refreshTTLOnGet f) (fo_policy f) (fo_preallocateTable f) (fo_shards f) (fo_writePolicy f) (fo_ghostSize f) (Some x) (fo_writeBackWorkers f) (fo_writeBackBatching f) (fo_getBatchedBufferSize f) (fo_getBatchedWorkers f) (fo_onPanic f) (fo_statsEnabled f).
Definition over_writeBackWorkers (x : Z) : FieldOverrides → FieldOverrides :=
  λ f, mkFO (fo_memoryCapacity f) (fo_memoryBudget f) (fo_ttl f) (fo_refreshTTLOnGet f) (fo_policy f) (fo_preallocateTable f) (fo_shards f) (fo_writePolicy f) (fo_ghostSize f) (fo_writeBackBufferSize f) (Some x) (fo_writeBackBatching f) (fo_getBatchedBufferSize f) (fo_getBatchedWorkers f) (fo_onPanic f) (fo_statsEnabled f).
Definition over_writeBackBatching (x : WriteBackBatching) : FieldOverrides → FieldOverrides :=
  λ f, mkFO (fo_memoryCapacity f) (fo_memoryBudget f) (fo_ttl f) (fo_refreshTTLOnGet f) (fo_policy f) (fo_preallocateTable f) (fo_shards f) (fo_writePolicy f) (fo_ghostSize f) (fo_writeBackBufferSize f) (fo_writeBackWorkers f) (Some x) (fo_getBatchedBufferSize f) (fo_getBatchedWorkers f) (fo_onPanic f) (fo_statsEnabled f).
Definition over_getBatchedBufferSize (x : Z) : FieldOverrides → FieldOverrides :=
  λ f, mkFO (fo_memoryCapacity f) (fo_memoryBudget f) (fo_ttl f) (fo_refreshTTLOnGet f) (fo_policy f) (fo_preallocateTable f) (fo_shards f) (fo_writePolicy f) (fo_ghostSize f) (fo_writeBackBufferSize f) (fo_writeBackWorkers f) (fo_writeBackBatching f) (Some x) (fo_getBatchedWorkers f) (fo_onPanic f) (fo_statsEnabled f).
Definition over_getBatchedWorkers (x : Z) : FieldOverrides → FieldOverrides :=
  λ f, mkFO (fo_memoryCapacity f) (fo_memoryBudget f) (fo_ttl f) (fo_refreshTTLOnGet f) (fo_policy f) (fo_preallocateTable f) (fo_shards f) (fo_writePolicy f) (fo_ghostSize f) (fo_writeBackBufferSize f) (fo_writeBackWorkers f) (fo_writeBackBatching f) (fo_getBatchedBufferSize f) (Some x) (fo_onPanic f) (fo_statsEnabled f).
Definition over_onPanic (x : option PanicH) : FieldOverrides → FieldOverrides :=
  λ f, mkFO (fo_memoryCapacity f) (fo_memoryBudget f) (fo_ttl f) (fo_refreshTTLOnGet f) (fo_policy f) (fo_preallocateTable f) (fo_shards f) (fo_writePolicy f) (fo_ghostSize f) (fo_writeBackBufferSize f) (fo_writeBackWorkers f) (fo_writeBackBatching f) (fo_getBatchedBufferSize f) (fo_getBatchedWorkers f) (Some x) (fo_statsEnabled f).
Definition over_statsEnabled (x : bool) : FieldOverrides → FieldOverrides :=
  λ f, mkFO (fo_memoryCapacity f) (fo_memoryBudget f) (fo_ttl f) (fo_refreshTTLOnGet f) (fo_policy f) (fo_preallocateTable f) (fo_shards f) (fo_writePolicy f) (fo_ghostSize f) (fo_writeBackBufferSize f) (fo_writeBackWorkers f) (fo_writeBackBatching f) (fo_getBatchedBufferSize f) (fo_getBatchedWorkers f) (fo_onPanic f) (Some x).

Definition set_MemoryCapacity (x : Z) : Config → Config :=
  λ c, mkConfig x (MemoryBudget c) (CostFunc c) (TTL c) (RefreshTTLOnGet c) (cPolicy c) (CustomPolicy c) (PreallocateMap c) (ShardsCount c) (L2Cache c) (cWritePolicy c) (GhostSize c) (WriteBackBufferSize c) (WriteBackWorkers c) (cWriteBackBatching c) (GetBatchedBufferSize c) (GetBatchedWorkers c) (OnL2Error c) (OnDeletion c) (OnPanic c) (StatsEnabled c).
Definition set_MemoryBudget (x : Z) : Config → Config :=
  λ c, mkConfig (MemoryCapacity c) x (CostFunc c) (TTL c) (RefreshTTLOnGet c) (cPolicy c) (CustomPolicy c) (PreallocateMap c) (ShardsCount c) (L2Cache c) (cWritePolicy c) (GhostSize c) (WriteBackBufferSize c) (WriteBackWorkers c) (cWriteBackBatching c) (GetBatchedBufferSize c) (GetBatchedWorkers c) (OnL2Error c) (OnDeletion c) (OnPanic c) (StatsEnabled c).
Definition set_CostFunc (x : option Cost) : Config → Config :=
  λ c, mkConfig (MemoryCapacity c) (MemoryBudget c) x (TTL c) (RefreshTTLOnGet c) (cPolicy c) (CustomPolicy c) (PreallocateMap c) (ShardsCount c) (L2Cache c) (cWritePolicy c) (GhostSize c) (WriteBackBufferSize c) (WriteBackWorkers c) (cWriteBackBatching c) (GetBatchedBufferSize c) (GetBatchedWorkers c) (OnL2Error c) (OnDeletion c) (OnPanic c) (StatsEnabled c).
Definition set_TTL (x : Z) : Config → Config :=
  λ c, mkConfig (MemoryCapacity c) (MemoryBudget c) (CostFunc c) x (RefreshTTLOnGet c) (cPolicy c) (CustomPolicy c) (PreallocateMap c) (ShardsCount c) (L2Cache c) (cWritePolicy c) (GhostSize c) (WriteBackBufferSize c) (WriteBackWorkers c) (cWriteBackBatching c) (GetBatchedBufferSize c) (GetBatchedWorkers c) (OnL2Error c) (OnDeletion c) (OnPanic c) (StatsEnabled c).
Definition set_RefreshTTLOnGet (x : bool) : Config → Config :=
  λ c, mkConfig (MemoryCapacity c) (MemoryBudget c) (CostFunc c) (TTL c) x (cPolicy c) (CustomPolicy c) (PreallocateMap c) (ShardsCount c) (L2Cache c) (cWritePolicy c) (GhostSize c) (WriteBackBufferSize c) (WriteBackWorkers c) (cWriteBackBatching c) (GetBatchedBufferSize c) (GetBatchedWorkers c) (OnL2Error c) (OnDeletion c) (OnPanic c) (StatsEnabled c).
Definition set_cPolicy (x : Policy) : Config → Config :=
  λ c, mkConfig (MemoryCapacity c) (MemoryBudget c) (CostFunc c) (TTL c) (RefreshTTLOnGet c) x (CustomPolicy c) (PreallocateMap c) (ShardsCount c) (L2Cache c) (cWritePolicy c) (GhostSize c) (WriteBackBufferSize c) (WriteBackWorkers c) (cWriteBackBatching c) (GetBatchedBufferSize c) (GetBatchedWorkers c) (OnL2Error c) (OnDeletion c) (OnPanic c) (StatsEnabled c).
Definition set_CustomPolicy (x : option (Z → option Pol)) : Config → Config :=
  λ c, mkConfig (MemoryCapacity c) (MemoryBudget c) (CostFunc c) (TTL c) (RefreshTTLOnGet c) (cPolicy c) x (PreallocateMap c) (ShardsCount c) (L2Cache c) (cWritePolicy c) (GhostSize c) (WriteBackBufferSize c) (WriteBackWorkers c) (cWriteBackBatching c) (GetBatchedBufferSize c) (GetBatchedWorkers c) (OnL2Error c) (OnDeletion c) (OnPanic c) (StatsEnabled c).
Definition set_PreallocateMap (x : bool) : Config → Config :=
  λ c, mkConfig (MemoryCapacity c) (MemoryBudget c) (CostFunc c) (TTL c) (RefreshTTLOnGet c) (cPolicy c) (CustomPolicy c) x (ShardsCount c) (L2Cache c) (cWritePolicy c) (GhostSize c) (WriteBackBufferSize c) (WriteBackWorkers c) (cWriteBackBatching c) (GetBatchedBufferSize c) (GetBatchedWorkers c) (OnL2Error c) (OnDeletion c) (OnPanic c) (StatsEnabled c).
Definition set_ShardsCount (x : Z) : Config → Config :=
  λ c, mkConfig (MemoryCapacity c) (MemoryBudget c) (CostFunc c) (TTL c) (RefreshTTLOnGet c) (cPolicy c) (CustomPolicy c) (PreallocateMap c) x (L2Cache c) (cWritePolicy c) (GhostSize c) (WriteBackBufferSize c) (WriteBackWorkers c) (cWriteBackBatching c) (GetBatchedBufferSize c) (GetBatchedWorkers c) (OnL2Error c) (OnDeletion c) (OnPanic c) (StatsEnabled c).
Definition set_L2Cache (x : option L2) : Config → Config :=
  λ c, mkConfig (MemoryCapacity c) (MemoryBudget c) (CostFunc c) (TTL c) (RefreshTTLOnGet c) (cPolicy c) (CustomPolicy c) (PreallocateMap c) (ShardsCount c) x (cWritePolicy c) (GhostSize c) (WriteBackBufferSize c) (WriteBackWorkers c) (cWriteBackBatching c) (GetBatchedBufferSize c) (GetBatchedWorkers c) (OnL2Error c) (OnDeletion c) (OnPanic c) (StatsEnabled c).
Definition set_cWritePolicy (x : WritePolicy) : Config → Config :=
  λ c, mkConfig (MemoryCapacity c) (MemoryBudget c) (CostFunc c) (TTL c) (RefreshTTLOnGet c) (cPolicy c) (CustomPolicy c) (PreallocateMap c) (ShardsCount c) (L2Cache c) x (GhostSize c) (WriteBackBufferSize c) (WriteBackWorkers c) (cWriteBackBatching c) (GetBatchedBufferSize c) (GetBatchedWorkers c) (OnL2Error c) (OnDeletion c) (OnPanic c) (StatsEnabled c).
Definition set_GhostSize (x : Z) : Config → Config :=
  λ c, mkConfig (MemoryCapacity c) (MemoryBudget c) (CostFunc c) (TTL c) (RefreshTTLOnGet c) (cPolicy c) (CustomPolicy c) (PreallocateMap c) (ShardsCount c) (L2Cache c) (cWritePolicy c) x (WriteBackBufferSize c) (WriteBackWorkers c) (cWriteBackBatching c) (GetBatchedBufferSize c) (GetBatchedWorkers c) (OnL2Error c) (OnDeletion c) (OnPanic c) (StatsEnabled c).
Definition set_WriteBackBufferSize (x : Z) : Config → Config :=
  λ c, mkConfig (MemoryCapacity c) (MemoryBudget c) (CostFunc c) (TTL c) (RefreshTTLOnGet c) (cPolicy c) (CustomPolicy c) (PreallocateMap c) (ShardsCount c) (L2Cache c) (cWritePolicy c) (GhostSize c) x (WriteBackWorkers c) (cWriteBackBatching c) (GetBatchedBufferSize c) (GetBatchedWorkers c) (OnL2Error c) (OnDeletion c) (OnPanic c) (StatsEnabled c).
Definition set_WriteBackWorkers (x : Z) : Config → Config :=
  λ c, mkConfig (MemoryCapacity c) (MemoryBudget c) (CostFunc c) (TTL c) (RefreshTTLOnGet c) (cPolicy c) (CustomPolicy c) (PreallocateMap c) (ShardsCount c) (L2Cache c) (cWritePolicy c) (GhostSize c) (WriteBackBufferSize c) x (cWriteBackBatching c) (GetBatchedBufferSize c) (GetBatchedWorkers c) (OnL2Error c) (OnDeletion c) (OnPanic c) (StatsEnabled c).
Definition set_cWriteBackBatching (x : WriteBackBatching) : Config → Config :=
  λ c, mkConfig (MemoryCapacity c) (MemoryBudget c) (CostFunc c) (TTL c) (RefreshTTLOnGet c) (cPolicy c) (CustomPolicy c) (PreallocateMap c) (ShardsCount c) (L2Cache c) (cWritePolicy c) (GhostSize c) (WriteBackBufferSize c) (WriteBackWorkers c) x (GetBatchedBufferSize c) (GetBatchedWorkers c) (OnL2Error c) (OnDeletion c) (OnPanic c) (StatsEnabled c).
Definition set_GetBatchedBufferSize (x : Z) : Config → Config :=
  λ c, mkConfig (MemoryCapacity c) (MemoryBudget c) (CostFunc c) (TTL c) (RefreshTTLOnGet c) (cPolicy c) (CustomPolicy c) (PreallocateMap c) (ShardsCount c) (L2Cache c) (cWritePolicy c) (GhostSize c) (WriteBackBufferSize c) (WriteBackWorkers c) (cWriteBackBatching c) x (GetBatchedWorkers c) (OnL2Error c) (OnDeletion c) (OnPanic c) (StatsEnabled c).
Definition set_GetBatchedWorkers (x : Z) : Config → Config :=
  λ c, mkConfig (MemoryCapacity c) (MemoryBudget c) (CostFunc c) (TTL c) (RefreshTTLOnGet c) (cPolicy c) (CustomPolicy c) (PreallocateMap c) (ShardsCount c) (L2Cache c) (cWritePolicy c) (GhostSize c) (WriteBackBufferSize c) (WriteBackWorkers c) (cWriteBackBatching c) (GetBatchedBufferSize c) x (OnL2Error c) (OnDeletion c) (OnPanic c) (StatsEnabled c).
Definition set_OnL2Error (x : option ErrH) : Config → Config :=
  λ c, mkConfig (MemoryCapacity c) (MemoryBudget c) (CostFunc c) (TTL c) (RefreshTTLOnGet c) (cPolicy c) (CustomPolicy c) (PreallocateMap c) (ShardsCount c) (L2Cache c) (cWritePolicy c) (GhostSize c) (WriteBackBufferSize c) (WriteBackWorkers c) (cWriteBackBatching c) (GetBatchedBufferSize c) (GetBatchedWorkers c) x (OnDeletion c) (OnPanic c) (StatsEnabled c).
Definition set_OnDeletion (x : option DelH) : Config → Config :=
  λ c, mkConfig (MemoryCapacity c) (MemoryBudget c) (CostFunc c) (TTL c) (RefreshTTLOnGet c) (cPolicy c) (CustomPolicy c) (PreallocateMap c) (ShardsCount c) (L2Cache c) (cWritePolicy c) (GhostSize c) (WriteBackBufferSize c) (WriteBackWorkers c) (cWriteBackBatching c) (GetBatchedBufferSize c) (GetBatchedWorkers c) (OnL2Error c) x (OnPanic c) (StatsEnabled c).
Definition set_OnPanic (x : option PanicH) : Config → Config :=
  λ c, mkConfig (MemoryCapacity c) (MemoryBudget c) (CostFunc c) (TTL c) (RefreshTTLOnGet c) (cPolicy c) (CustomPolicy c) (PreallocateMap c) (ShardsCount c) (L2Cache c) (cWritePolicy c) (GhostSize c) (WriteBackBufferSize c) (WriteBackWorkers c) (cWriteBackBatching c) (GetBatchedBufferSize c) (GetBatchedWorkers c) (OnL2Error c) (OnDeletion c) x (StatsEnabled c).
Definition set_StatsEnabled (x : bool) : Config → Config :=
  λ c, mkConfig (MemoryCapacity c) (MemoryBudget c) (CostFunc c) (TTL c) (RefreshTTLOnGet c) (cPolicy c) (CustomPolicy c) (PreallocateMap c) (ShardsCount c) (L2Cache c) (cWritePolicy c) (GhostSize c) (WriteBackBufferSize c) (WriteBackWorkers c) (cWriteBackBatching c) (GetBatchedBufferSize c) (GetBatchedWorkers c) (OnL2Error c) (OnDeletion c) (OnPanic c) x.

Definition WithMemoryCapacity (capacity : Z) : Option := fieldOption (over_memoryCapacity capacity).
Definition WithMemoryBudget (bytes : Z) : Option := fieldOption (over_memoryBudget bytes).
Definition WithCostFunc (types : nat) (costFunc : option Cost) : Option := typedOption types (set_CostFunc costFunc).
Definition WithTTL (ttl : Z) : Option := fieldOption (over_ttl ttl).
Definition WithRefreshTTLOnGet : Option := fieldOption (over_refreshTTLOnGet true).
Definition WithPolicy (policy : Policy) : Option := fieldOption (over_policy policy).
Definition WithCustomEvictionPolicy (types : nat) (factory : option (Z → option Pol)) : Option :=
  typedOption types (set_CustomPolicy factory).
Definition WithPreallocatedSize : Option := fieldOption (over_preallocateTable true).
Definition WithShardsCount (shards : Z) : Option := fieldOption (over_shards shards).
Definition WithL2Cache (types : nat) (l2 : option L2) : Option := typedOption types (set_L2Cache l2).
Definition WithWritePolicy (writePolicy : WritePolicy) : Option := fieldOption (over_writePolicy writePolicy).
Definition WithGhostSize (ghostSize : Z) : Option := fieldOption (over_ghostSize ghostSize).
Definition WithWriteBackBuffer (size : Z) : Option := fieldOption (over_writeBackBufferSize size).
Definition WithWriteBackWorkers (workers : Z) : Option := fieldOption (over_writeBackWorkers workers).
Definition withWriteBackBatching (mode : WriteBackBatching) : Option := fieldOption (over_writeBackBatching mode).
Definition WithBatchingForWriteBack : Option := withWriteBackBatching BatchingFull.
Definition WithNoBatchingForWriteBack : Option := withWriteBackBatching BatchingNone.
Definition WithAdaptiveBatchingForWriteBack : Option := withWriteBackBatching BatchingAdaptive.
Definition WithGetBatchedBuffer (size : Z) : Option := fieldOption (over_getBatchedBufferSize size).
Definition WithGetBatchedWorkers (workers : Z) : Option := fieldOption (over_getBatchedWorkers workers).
Definition WithOnL2Error (types : nat) (handler : option ErrH) : Option := typedOption types (set_OnL2Error handler).
Definition WithOnDeletion (types : nat) (handler : option DelH) : Option := typedOption types (set_OnDeletion handler).
Definition WithPanicHandler (handler : option PanicH) : Option := fieldOption (over_onPanic handler).
Definition WithStats : Option := fieldOption (over_statsEnabled true).

(** ** What a list of options means *)

(** The helpers of a caller whose options are of the cache's types. *)
Inductive Opt :=
| OptMemoryCapacity (n : Z) | OptMemoryBudget (n : Z) | OptCostFunc (f : option Cost) | OptTTL (n : Z)
| OptRefreshTTLOnGet | OptPolicy (p : Policy) | OptCustomPolicy (f : option (Z → option Pol)) | OptPreallocatedSize
| OptShardsCount (n : Z) | OptL2Cache (l : option L2) | OptWritePolicy (p : WritePolicy) | OptGhostSize (n : Z)
| OptWriteBackBuffer (n : Z) | OptWriteBackWorkers (n : Z) | OptBatching (m : WriteBackBatching)
| OptGetBatchedBuffer (n : Z) | OptGetBatchedWorkers (n : Z) | OptOnL2Error (h : option ErrH)
| OptOnDeletion (h : option DelH) | OptPanicHandler (h : option PanicH) | OptStats.

Definition with_ (types : nat) (o : Opt) : Option :=
  match o with
  | OptMemoryCapacity n => WithMemoryCapacity n
  | OptMemoryBudget n => WithMemoryBudget n
  | OptCostFunc f => WithCostFunc types f
  | OptTTL n => WithTTL n
  | OptRefreshTTLOnGet => WithRefreshTTLOnGet
  | OptPolicy p => WithPolicy p
  | OptCustomPolicy f => WithCustomEvictionPolicy types f
  | OptPreallocatedSize => WithPreallocatedSize
  | OptShardsCount n => WithShardsCount n
  | OptL2Cache l => WithL2Cache types l
  | OptWritePolicy p => WithWritePolicy p
  | OptGhostSize n => WithGhostSize n
  | OptWriteBackBuffer n => WithWriteBackBuffer n
  | OptWriteBackWorkers n => WithWriteBackWorkers n
  | OptBatching m => withWriteBackBatching m
  | OptGetBatchedBuffer n => WithGetBatchedBuffer n
  | OptGetBatchedWorkers n => WithGetBatchedWorkers n
  | OptOnL2Error h => WithOnL2Error types h
  | OptOnDeletion h => WithOnDeletion types h
  | OptPanicHandler h => WithPanicHandler h
  | OptStats => WithStats
  end.

(** One option, set on the configuration itself. *)
Definition setOpt (c : Config) (o : Opt) : Config :=
  match o with
  | OptMemoryCapacity n => set_MemoryCapacity n c
  | OptMemoryBudget n => set_MemoryBudget n c
  | OptCostFunc f => set_CostFunc f c
  | OptTTL n => set_TTL n c
  | OptRefreshTTLOnGet => set_RefreshTTLOnGet true c
  | OptPolicy p => set_cPolicy p c
  | OptCustomPolicy f => set_CustomPolicy f c
  | OptPreallocatedSize => set_PreallocateMap true c
  | OptShardsCount n => set_ShardsCount n c
  | OptL2Cache l => set_L2Cache l c
  | OptWritePolicy p => set_cWritePolicy p c
  | OptGhostSize n => set_GhostSize n c
  | OptWriteBackBuffer n => set_WriteBackBufferSize n c
  | OptWriteBackWorkers n => set_WriteBackWorkers n c
  | OptBatching m => set_cWriteBackBatching m c
  | OptGetBatchedBuffer n => set_GetBatchedBufferSize n c
  | OptGetBatchedWorkers n => set_GetBatchedWorkers n c
  | OptOnL2Error h => set_OnL2Error h c
  | OptOnDeletion h => set_OnDeletion h c
  | OptPanicHandler h => set_OnPanic h c
  | OptStats => set_StatsEnabled true c
  end.

(** Runs [applyOptions] over one known option. *)
Ltac run_option :=
  cbn [fmap list_fmap app with_ applyOptions ApplyField ApplyTyped fieldOption typedOption foldl
    WithMemoryCapacity WithMemoryBudget WithCostFunc WithTTL WithRefreshTTLOnGet WithPolicy WithCustomEvictionPolicy
    WithPreallocatedSize WithShardsCount WithL2Cache WithWritePolicy WithGhostSize WithWriteBackBuffer
    WithWriteBackWorkers withWriteBackBatching WithGetBatchedBuffer WithGetBatchedWorkers WithOnL2Error
    WithOnDeletion WithPanicHandler WithStats applyToConfig]; rewrite ?Nat.eqb_refl.

Lemma applyOptions_spec types l : ∀ f c,
  match applyOptions types (with_ types <$> l) f c with
  | (f', c', None) => overrideFields f' c' = foldl setOpt (overrideFields f c) l
  | (_, _, Some _) => False
  end.
Proof.
  induction l as [|o l IH]; intros f c; [done|].
  destruct o; run_option; apply IH.
Qed.

(** A typed option of other key and value types. *)
Definition foreign (types types' : nat) (o : Option) : Prop :=
  types' ≠ types ∧ ∃ fill, o = typedOption types' fill.

Lemma applyOptions_mismatch types types' l o rest : ∀ f c,
  foreign types types' o →
  (applyOptions types ((with_ types <$> l) ++ o :: rest) f c).2 = Some ErrOptionMismatch.
Proof.
  intros f c [Hne [fill ->]]. revert f c. induction l as [|o' l IH]; intros f c.
  - cbn. by rewrite (proj2 (Nat.eqb_neq types types') ltac:(done)).
  - destruct o'; run_option; apply IH.
Qed.

End Options.
Arguments Option : clear implicits.
Arguments Opt : clear implicits.

(** A list of options sets the fields in the order of the list, the last one winning, although the
    plain ones are collected first and copied after the typed ones were applied; and a typed option
    built for other key and value types fails the build, wherever it stands. *)
Theorem options_apply_in_order {Cost Pol L2 ErrH DelH PanicH : Type} (types : nat)
    (l : list (Opt Cost Pol L2 ErrH DelH PanicH)) :
  buildConfig types (with_ types <$> l) = (foldl setOpt zeroConfig l, None) ∧
  ∀ types' o rest, foreign types types' o →
    (buildConfig types ((with_ types <$> l) ++ o :: rest)).2 = Some ErrOptionMismatch.
Proof.
  split.
  - unfold buildConfig. pose proof (applyOptions_spec types l noOverrides zeroConfig) as H.
    destruct (applyOptions _ _ _ _) as [[f c] [e|]]; [done|]. by rewrite H.
  - intros types' o rest Hf. unfold buildConfig.
    pose proof (applyOptions_mismatch types types' l o rest noOverrides zeroConfig Hf) as H.
    destruct (applyOptions _ _ _ _) as [[f c] e]. cbn in H. by rewrite H.
Qed.
