(* ===== verification/HashSet.v ===== *)
(** * The membership set of the batch paths (internal/itemstore/set.go)

    A linear-probing hash set without deletion.  [tag] is the hash with its low bit set, so 0 marks an
    empty slot. *)

From S2P Require Import Prelude Item Table.

Definition setMinSlots : Z := 8.

Record SetSlot (K : Type) := mkSetSlot { stag : Z; skey : K }.
Arguments mkSetSlot {K}.
Arguments stag {K}.
Arguments skey {K}.

Record HSet (K : Type) := mkSet { sslots : list (SetSlot K); scount : Z }.
Arguments mkSet {K}.
Arguments sslots {K}.
Arguments scount {K}.

(** ** Filtered lists *)

Lemma filter_Forall {A} (P : A → Prop) `{∀ x, Decision (P x)} (l : list A) : Forall P l → filter P l = l.
Proof. induction 1; [done|]. rewrite filter_cons_True by done. by f_equal. Qed.

Lemma filter_none {A} (P : A → Prop) `{∀ x, Decision (P x)} (l : list A) : Forall (λ x, ¬ P x) l → filter P l = [].
Proof. induction 1; [done|]. by rewrite filter_cons_False. Qed.

Lemma filter_insert_new {A} (P : A → Prop) `{∀ x, Decision (P x)} (l : list A) (i : nat) (x y : A) :
  l !! i = Some x → ¬ P x → P y → length (filter P (<[i := y]> l)) = S (length (filter P l)).
Proof.
  revert i. induction l as [|z l IH]; intros i Hx HPx HPy; [done|]. destruct i as [|i].
  - injection Hx as ->. change (<[0%nat:=y]> (x :: l)) with (y :: l). by rewrite filter_cons_True, filter_cons_False.
  - change (<[S i:=y]> (z :: l)) with (z :: <[i:=y]> l). change ((z :: l) !! S i) with (l !! i) in Hx.
    destruct (decide (P z)).
    + rewrite !filter_cons_True by done. cbn. f_equal. by apply IH.
    + rewrite !filter_cons_False by done. by apply IH.
Qed.

Lemma NoDup_filter_fmap {A B} (P : A → Prop) `{∀ x, Decision (P x)} (f : A → B) (l : list A) :
  (∀ i j x y, l !! i = Some x → l !! j = Some y → P x → P y → f x = f y → i = j) → NoDup (f <$> filter P l).
Proof.
  induction l as [|z l IH]; intros Hinj; [constructor|].
  assert (NoDup (f <$> filter P l)) as Hnd.
  { apply IH. intros i j x y Hi Hj Px Py E. apply (Hinj (S i) (S j) x y) in E; [lia|done..]. }
  destruct (decide (P z)) as [Pz|Pz]; [|by rewrite filter_cons_False]. rewrite filter_cons_True by done. cbn.
  constructor; [|done]. intros (y & E & [Py (j & Hj)%list_elem_of_lookup]%list_elem_of_filter)%list_elem_of_fmap.
  by specialize (Hinj 0%nat (S j) z y eq_refl Hj Pz Py E).
Qed.

Section Set_.
Context {K : Type} `{!EqDecision K} `{!GoType K}.
(** [maphash.Comparable] under [setSeed]. *)
Context (hash : K → Z).
Implicit Types (s : HSet K) (key : K).

Definition zeroSlot : SetSlot K := mkSetSlot 0 go_zero.

(** [make([]SetSlot, n)] *)
Definition freshSlots (n : Z) : list (SetSlot K) := replicate (Z.to_nat n) zeroSlot.

Definition emptySet : HSet K := mkSet [] 0.

Definition NewSet (capacity : Z) : HSet K :=
  if capacity <=? 0 then emptySet
  else mkSet (freshSlots (Z.shiftl 1 (bitsLen (2 * capacity - 1)))) 0.

(** [n&(n-1) != 0] is "not a power of two"; the prefix taken then is the largest one. *)
Definition NewSetFrom (buf : list (SetSlot K)) : HSet K :=
  let n := Z.of_nat (length buf) in
  let n := if negb (Z.land n (n - 1) =? 0) then Z.shiftl 1 (bitsLen n - 1) else n in
  mkSet (take (Z.to_nat n) buf) 0.

Definition setLen s : Z := scount s.

Definition tagOf key : Z := Z.lor (hash key) 1.

(** [&s.slots[pos&mask]] *)
Definition slotAt s (pos : Z) : SetSlot K :=
  default zeroSlot (sslots s !! Z.to_nat (Z.land pos (u32 (Z.of_nat (length (sslots s)) - 1)))).

Definition putSlot s (pos : Z) (x : SetSlot K) : HSet K :=
  mkSet (<[Z.to_nat (Z.land pos (u32 (Z.of_nat (length (sslots s)) - 1))) := x]> (sslots s)) (scount s + 1).

(** The fuel is one turn per slot; the answer [None] is a walk that found no empty slot. *)
Definition Exists_ s key : option bool :=
  if scount s =? 0 then Some false
  else
    let tag := tagOf key in
    probe (length (sslots s))
      (λ (_ : unit) pos,
         let slot := slotAt s pos in
         if stag slot =? 0 then inr false
         else if (stag slot =? tag) && bool_decide (skey slot = key) then inr true
         else inl tt) tt (u32 (Z.shiftr (hash key) 32)).

Definition place s key : option (HSet K) :=
  let tag := tagOf key in
  probe (length (sslots s))
    (λ (_ : unit) pos,
       let slot := slotAt s pos in
       if stag slot =? 0 then inr (putSlot s pos (mkSetSlot tag key))
       else if (stag slot =? tag) && bool_decide (skey slot = key) then inr s
       else inl tt) tt (u32 (Z.shiftr (hash key) 32)).

(** The refill loop of [grow]. *)
Fixpoint refill (crowded : list (SetSlot K)) s : option (HSet K) :=
  match crowded with
  | [] => Some s
  | x :: crowded =>
    if negb (stag x =? 0) then
      match place s (skey x) with
      | None => None
      | Some s => refill crowded s
      end
    else refill crowded s
  end.

Definition grow s : option (HSet K) :=
  let crowded := sslots s in
  let size := Z.of_nat (length crowded) * 2 in
  let size := if size =? 0 then setMinSlots else size in
  refill crowded (mkSet (freshSlots size) 0).

Definition Add s key : option (HSet K) :=
  if Z.of_nat (length (sslots s)) / 2 <=? scount s then
    match grow s with
    | None => None
    | Some s => place s key
    end
  else place s key.

(** ** The set it stands for *)

Definition taken s : list (SetSlot K) := filter (λ x, stag x ≠ 0) (sslots s).

Definition member s key : Prop := ∃ x, x ∈ sslots s ∧ stag x ≠ 0 ∧ skey x = key.

Definition nslots s : Z := Z.of_nat (length (sslots s)).

Definition homeAt key : Z := u32 (Z.shiftr (hash key) 32).

(** The slot [d] steps from the home of [key]. *)
Definition away s key (d : Z) : Z := (homeAt key + d) mod nslots s.

Definition cellAt s (i : Z) : SetSlot K := default zeroSlot (sslots s !! Z.to_nat i).

(** Every key sits under its tag, is reached from its home over taken slots, and sits there once. *)
Record set_wf s : Prop := {
  st_size : ∃ k, 0 ≤ k ≤ 32 ∧ nslots s = 2 ^ k;
  st_count : scount s = Z.of_nat (length (taken s));
  st_room : scount s < nslots s;
  st_reach i : 0 ≤ i < nslots s → stag (cellAt s i) ≠ 0 →
    stag (cellAt s i) = tagOf (skey (cellAt s i)) ∧
    ∃ d, 0 ≤ d < nslots s ∧ i = away s (skey (cellAt s i)) d ∧
      ∀ d', 0 ≤ d' < d → stag (cellAt s (away s (skey (cellAt s i)) d')) ≠ 0;
  st_once i j : 0 ≤ i < nslots s → 0 ≤ j < nslots s → stag (cellAt s i) ≠ 0 → stag (cellAt s j) ≠ 0 →
    skey (cellAt s i) = skey (cellAt s j) → i = j
}.

Lemma tagOf_nonzero key : 0 ≤ hash key → tagOf key ≠ 0.
Proof.
  intros H E. apply (f_equal (λ x, Z.testbit x 0)) in E. unfold tagOf in E.
  rewrite Z.lor_spec, Z.testbit_0_l in E. change (Z.testbit 1 0) with true in E. by rewrite orb_true_r in E.
Qed.

Lemma slotAt_cell s pos : set_wf s → slotAt s (u32 pos) = cellAt s (pos mod nslots s).
Proof.
  intros Hwf. destruct (st_size _ Hwf) as (k & Hk & En). unfold slotAt, cellAt. fold (nslots s). rewrite En.
  assert (0 < 2 ^ k ≤ 2 ^ 32) by (split; [apply Z.pow_pos_nonneg|apply Z.pow_le_mono_r]; lia).
  rewrite (u32_small (2 ^ k - 1)), land_mod_pow2 by lia. unfold u32. rewrite Z.mod_mod_divide; [done|].
  exists (2 ^ (32 - k)). rewrite <- Z.pow_add_r by lia. f_equal. lia.
Qed.

Lemma member_cell s key : member s key ↔ ∃ i, 0 ≤ i < nslots s ∧ stag (cellAt s i) ≠ 0 ∧ skey (cellAt s i) = key.
Proof.
  unfold member, cellAt, nslots. split.
  - intros (x & (i & Hi)%list_elem_of_lookup & Ht & Hk). exists (Z.of_nat i). rewrite Nat2Z.id, Hi.
    split; [|done]. apply lookup_lt_Some in Hi. lia.
  - intros (i & Hr & Ht & Hk). destruct (lookup_lt_is_Some_2 (sslots s) (Z.to_nat i)) as [x Hx]; [lia|].
    rewrite Hx in *. exists x. split; [by eapply list_elem_of_lookup_2|done].
Qed.

(** A slot that is not taken, at some distance from every home. *)
Lemma has_room s key : set_wf s → ∃ d, 0 ≤ d < nslots s ∧ stag (cellAt s (away s key d)) = 0.
Proof.
  intros Hwf. destruct (decide (Forall (λ x, stag x ≠ 0) (sslots s))) as [Hall|Hno].
  - exfalso. pose proof (st_room _ Hwf) as H. rewrite (st_count _ Hwf) in H. unfold taken, nslots in H.
    rewrite (filter_Forall _ _ Hall) in H. lia.
  - apply not_Forall_Exists in Hno; [|apply _]. apply Exists_exists in Hno as (x & (i & Hi)%list_elem_of_lookup & Hx).
    destruct (st_size _ Hwf) as (k & Hk & En). assert (0 < nslots s) by (rewrite En; apply Z.pow_pos_nonneg; lia).
    exists ((Z.of_nat i - homeAt key) mod nslots s). split; [apply Z.mod_pos_bound; lia|].
    unfold away. rewrite Zplus_mod_idemp_r. replace (homeAt key + (Z.of_nat i - homeAt key)) with (Z.of_nat i) by lia.
    apply lookup_lt_Some in Hi as Hlt. rewrite Z.mod_small by (unfold nslots; lia).
    unfold cellAt. rewrite Nat2Z.id, Hi. cbn. destruct (Z.eq_dec (stag x) 0); [done|by destruct Hx].
Qed.

(** The first [d] slots from the home of [key] are taken, by other keys. *)
Definition walked s key (d : Z) : Prop :=
  ∀ d', 0 ≤ d' < d → stag (cellAt s (away s key d')) ≠ 0 ∧ skey (cellAt s (away s key d')) ≠ key.

Lemma away_range s key d : set_wf s → 0 ≤ away s key d < nslots s.
Proof.
  intros Hwf. destruct (st_size _ Hwf) as (k & Hk & En). apply Z.mod_pos_bound. rewrite En. apply Z.pow_pos_nonneg; lia.
Qed.

Lemma walked_empty s key d :
  set_wf s → 0 ≤ d → walked s key d → stag (cellAt s (away s key d)) = 0 → ¬ member s key.
Proof.
  intros Hwf Hd Hw He (i & Hi & Ht & Hk)%member_cell.
  destruct (st_reach _ Hwf i Hi Ht) as (_ & d0 & Hd0 & Ei & Hall). rewrite Hk in *.
  destruct (Z_lt_le_dec d0 d) as [Hlt|Hge].
  - destruct (Hw d0 ltac:(lia)) as [_ Hne]. by rewrite <- Ei in Hne.
  - destruct (Z.eq_dec d0 d) as [->|Hne]; [by rewrite <- Ei in He|]. by apply (Hall d); [lia|].
Qed.

Lemma walk_spec {R} s key (onEmpty : Z → R) (onFound : R) :
  set_wf s → is_u64 (hash key) →
  ∃ r, probe (length (sslots s))
      (λ (_ : unit) pos,
         let slot := slotAt s pos in
         if stag slot =? 0 then inr (onEmpty pos)
         else if (stag slot =? tagOf key) && bool_decide (skey slot = key) then inr onFound
         else inl tt) tt (homeAt key) = Some r ∧
    ((member s key ∧ r = onFound) ∨
     (¬ member s key ∧ ∃ d, 0 ≤ d < nslots s ∧ stag (cellAt s (away s key d)) = 0 ∧ walked s key d ∧
        r = onEmpty (u32 (homeAt key + d)))).
Proof.
  intros Hwf Hh. apply (probe_spec _ (λ d _, walked s key d) _ (length (sslots s))); [lia| | | |].
  - intros d' Hd'. lia.
  - intros d _ Hd Hw. cbv beta zeta. rewrite slotAt_cell by done. fold (away s key d).
    destruct (Z.eqb_spec (stag (cellAt s (away s key d))) 0) as [He|Hne]; cbv iota beta.
    + right. split; [by apply (walked_empty s key d); [|lia| |]|]. exists d. split_and!; try done; unfold nslots; lia.
    + destruct (Z.eqb_spec (stag (cellAt s (away s key d))) (tagOf key)) as [Ht|Ht];
        [destruct (bool_decide_reflect (skey (cellAt s (away s key d)) = key)) as [Hk|Hk]|]; cbn [andb]; cbv iota beta.
      * left. split; [|done]. apply member_cell. exists (away s key d). split; [by apply away_range|done].
      * intros d' Hd'. destruct (Z.eq_dec d' d) as [->|]; [done|apply Hw; lia].
      * intros d' Hd'. destruct (Z.eq_dec d' d) as [->|]; [|apply Hw; lia]. split; [done|]. intros Hk. destruct Ht.
        destruct (st_reach _ Hwf _ (away_range s key d Hwf) Hne) as [Et _]. by rewrite Et, Hk.
  - intros _ Hw. destruct (has_room s key Hwf) as (d & Hd & He). unfold nslots in Hd. by destruct (Hw d ltac:(lia)).
  - unfold homeAt, is_u32, u32. apply Z.mod_pos_bound. lia.
Qed.

Lemma Exists_spec s key :
  set_wf s → is_u64 (hash key) → Exists_ s key = Some true ∧ member s key ∨ Exists_ s key = Some false ∧ ¬ member s key.
Proof.
  intros Hwf Hh. unfold Exists_. destruct (Z.eqb_spec (scount s) 0) as [E|E].
  - right. split; [done|]. intros (x & Hx & Ht & _). rewrite (st_count _ Hwf) in E.
    assert (x ∈ taken s) as Hin by (by apply list_elem_of_filter). destruct (taken s); [set_solver|cbn in E; lia].
  - destruct (walk_spec s key (λ _, false) true Hwf Hh) as (r & Er & Hr). unfold homeAt in Er. rewrite Er.
    destruct Hr as [[Hm ->]|(Hm & d & _ & _ & _ & ->)]; auto.
Qed.

(** The set after a key took the empty slot [d] steps from its home. *)
Lemma cell_insert s i x j :
  0 ≤ i < nslots s → 0 ≤ j →
  cellAt (mkSet (<[Z.to_nat i := x]> (sslots s)) (scount s + 1)) j = if decide (i = j) then x else cellAt s j.
Proof.
  intros Hi Hj. unfold cellAt, nslots in *. cbn [sslots]. case_decide as E.
  - subst j. by rewrite list_lookup_insert_eq by lia.
  - by rewrite list_lookup_insert_ne by lia.
Qed.

Lemma place_spec s key :
  set_wf s → is_u64 (hash key) → scount s + 1 < nslots s →
  ∃ s', place s key = Some s' ∧ set_wf s' ∧ nslots s' = nslots s ∧ (∀ k, member s' k ↔ k = key ∨ member s k) ∧
    ((member s key ∧ s' = s) ∨ (¬ member s key ∧ scount s' = scount s + 1)).
Proof.
  intros Hwf Hh Hroom. unfold place.
  destruct (walk_spec s key (λ pos, putSlot s pos (mkSetSlot (tagOf key) key)) s Hwf Hh) as (r & Er & Hr).
  unfold homeAt in Er. rewrite Er. clear Er. exists r. split; [done|].
  destruct Hr as [[Hm ->]|(Hm & d & Hd & He & Hw & ->)]; [by split_and!; [..|set_solver|left]|].
  pose proof (away_range s key d Hwf) as Hr. set (i := away s key d) in *.
  assert (putSlot s (u32 (homeAt key + d)) (mkSetSlot (tagOf key) key) =
    mkSet (<[Z.to_nat i := mkSetSlot (tagOf key) key]> (sslots s)) (scount s + 1)) as ->.
  { unfold putSlot. do 2 f_equal. f_equal. destruct (st_size _ Hwf) as (k & Hk & En). unfold i, away.
    fold (nslots s). rewrite En. assert (0 < 2 ^ k ≤ 2 ^ 32) by (split; [apply Z.pow_pos_nonneg|apply Z.pow_le_mono_r]; lia).
    rewrite (u32_small (2 ^ k - 1)), land_mod_pow2 by lia. unfold u32. rewrite Z.mod_mod_divide; [done|].
    exists (2 ^ (32 - k)). rewrite <- Z.pow_add_r by lia. f_equal. lia. }
  set (s' := mkSet _ _). pose proof (tagOf_nonzero key ltac:(unfold is_u64 in Hh; lia)) as Hnz.
  assert (nslots s' = nslots s) as En by (unfold nslots, s'; cbn; by rewrite length_insert).
  assert (∀ j, 0 ≤ j → cellAt s' j = if decide (i = j) then mkSetSlot (tagOf key) key else cellAt s j) as Hcell
    by (intros; by apply cell_insert).
  assert (∀ k d, away s' k d = away s k d) as Haw by (intros; unfold away; by rewrite En).
  assert (∀ k d, stag (cellAt s (away s k d)) ≠ 0 → stag (cellAt s' (away s k d)) ≠ 0) as Hgrow.
  { intros k d' Ht. rewrite Hcell by (by apply away_range). by case_decide. }
  assert (∀ j, 0 ≤ j < nslots s → stag (cellAt s' j) ≠ 0 → j ≠ i → stag (cellAt s j) ≠ 0 ∧ cellAt s' j = cellAt s j) as Hold.
  { intros j Hj Ht Hne. rewrite Hcell, decide_False in * by (done || lia). done. }
  split_and!; [|done| |by right].
  - split.
    + rewrite En. apply (st_size _ Hwf).
    + unfold s', taken. cbn [scount sslots]. rewrite (st_count _ Hwf). unfold taken.
      destruct (lookup_lt_is_Some_2 (sslots s) (Z.to_nat i)) as [x Hx]; [unfold nslots in Hr; lia|].
      erewrite filter_insert_new; [lia|exact Hx| |done]. unfold cellAt in He. rewrite Hx in He. cbn in He. intros Hc. by apply Hc.
    + rewrite En. cbn. lia.
    + intros j Hj Ht. rewrite En in Hj. destruct (decide (j = i)) as [->|Hne].
      * rewrite Hcell, decide_True by (done || lia). cbn [stag skey]. split; [done|].
        exists d. rewrite En, Haw. split_and!; [lia..|done|]. intros d' Hd'. rewrite Haw. apply Hgrow. by apply Hw.
      * destruct (Hold j Hj Ht Hne) as [Ht' ->]. destruct (st_reach _ Hwf j Hj Ht') as (E1 & d0 & Hd0 & Ej & Hall).
        split; [done|]. exists d0. rewrite En, Haw. split_and!; [lia..|done|]. intros d' Hd'. rewrite Haw. by apply Hgrow, Hall.
    + intros j1 j2 H1 H2 T1 T2 Ek. rewrite En in *.
      assert (∀ j, 0 ≤ j < nslots s → stag (cellAt s' j) ≠ 0 → j ≠ i → skey (cellAt s' j) ≠ key) as Hnew.
      { intros j Hj Ht Hne Hk. destruct (Hold j Hj Ht Hne) as [Ht' Ej]. rewrite Ej in Hk. apply Hm, member_cell. by exists j. }
      assert (skey (cellAt s' i) = key) as Ei by (rewrite Hcell, decide_True by (done || lia); done).
      destruct (decide (j1 = i)) as [->|N1], (decide (j2 = i)) as [->|N2]; [done| | |].
      * by destruct (Hnew j2 H2 T2 N2); congruence.
      * by destruct (Hnew j1 H1 T1 N1); congruence.
      * destruct (Hold j1 H1 T1 N1) as [T1' E1], (Hold j2 H2 T2 N2) as [T2' E2]. rewrite E1, E2 in Ek.
        by apply (st_once _ Hwf).
  - intros k. rewrite !member_cell, En. split.
    + intros (j & Hj & Ht & Hk). destruct (decide (j = i)) as [->|Hne].
      * left. rewrite Hcell, decide_True in Hk by (done || lia). done.
      * right. destruct (Hold j Hj Ht Hne) as [Ht' Ej]. rewrite Ej in Hk. by exists j.
    + intros [->|(j & Hj & Ht & Hk)].
      * exists i. split; [done|]. by rewrite Hcell, decide_True by (done || lia).
      * exists j. split; [done|]. rewrite Hcell by lia. rewrite decide_False; [done|]. intros <-. by rewrite He in Ht.
Qed.

(** ** Growing and adding *)

Lemma fresh_wf k :
  0 ≤ k ≤ 32 → let s := mkSet (freshSlots (2 ^ k)) 0 in set_wf s ∧ nslots s = 2 ^ k ∧ ∀ key, ¬ member s key.
Proof.
  intros Hk s. assert (0 < 2 ^ k) by (apply Z.pow_pos_nonneg; lia).
  assert (nslots s = 2 ^ k) as En by (unfold nslots, s, freshSlots; cbn; rewrite length_replicate; lia).
  assert (∀ i, cellAt s i = zeroSlot) as Hc.
  { intros i. unfold cellAt, s, freshSlots. cbn [sslots]. destruct (replicate _ _ !! _) eqn:E; [|done].
    by apply lookup_replicate_1 in E as [-> _]. }
  split_and!; [|done|]; [split|].
  - by exists k.
  - unfold taken, s, freshSlots. cbn [sslots scount]. rewrite filter_none; [done|].
    apply Forall_replicate. cbn. intros Hz. by apply Hz.
  - rewrite En. cbn. lia.
  - intros i _ Ht. by rewrite Hc in Ht.
  - intros i j _ _ Ht. by rewrite Hc in Ht.
  - intros key (i & _ & Ht & _)%member_cell. by rewrite Hc in Ht.
Qed.

(** The keys of a well-formed set, each once. *)
Definition keysOf s : list K := skey <$> taken s.

Lemma keysOf_spec s : set_wf s → NoDup (keysOf s) ∧ (∀ k, k ∈ keysOf s ↔ member s k) ∧ scount s = Z.of_nat (length (keysOf s)).
Proof.
  intros Hwf. split_and!.
  - apply NoDup_filter_fmap. intros i j x y Hi Hj Px Py E.
    pose proof (lookup_lt_Some _ _ _ Hi). pose proof (lookup_lt_Some _ _ _ Hj).
    pose proof (st_once _ Hwf (Z.of_nat i) (Z.of_nat j)) as Ho. unfold cellAt, nslots in Ho.
    rewrite !Nat2Z.id, Hi, Hj in Ho. specialize (Ho ltac:(lia) ltac:(lia) Px Py E). lia.
  - intros k. unfold keysOf, taken, member. rewrite list_elem_of_fmap. setoid_rewrite list_elem_of_filter. naive_solver.
  - rewrite (st_count _ Hwf). unfold keysOf. by rewrite length_fmap.
Qed.

Lemma same_members_count s s' : set_wf s → set_wf s' → (∀ k, member s' k ↔ member s k) → scount s' = scount s.
Proof.
  intros H1 H2 Hm. destruct (keysOf_spec s H1) as (N1 & M1 & ->), (keysOf_spec s' H2) as (N2 & M2 & ->).
  f_equal. apply Permutation_length, NoDup_Permutation; [done..|]. intros k. by rewrite M1, M2.
Qed.

Context (hash_u64 : ∀ k, is_u64 (hash k)).

Lemma refill_spec crowded : ∀ s,
  set_wf s → scount s + Z.of_nat (length (filter (λ x, stag x ≠ 0) crowded)) < nslots s →
  ∃ s', refill crowded s = Some s' ∧ set_wf s' ∧ nslots s' = nslots s ∧
    ∀ k, member s' k ↔ member s k ∨ ∃ x, x ∈ crowded ∧ stag x ≠ 0 ∧ skey x = k.
Proof.
  induction crowded as [|x crowded IH]; intros s Hwf Hroom; cbn [refill].
  { exists s. split_and!; [done..|]. intros k. set_solver. }
  destruct (Z.eqb_spec (stag x) 0) as [E|E]; cbn [negb].
  - rewrite filter_cons_False in Hroom by (intros Hc; by apply Hc).
    destruct (IH s Hwf Hroom) as (s' & Er & Hwf' & En & Hm). exists s'. split_and!; [done..|].
    intros k. rewrite Hm. set_solver.
  - rewrite filter_cons_True in Hroom by done. cbn [length] in Hroom.
    destruct (place_spec s (skey x) Hwf (hash_u64 _) ltac:(lia)) as (s1 & -> & Hwf1 & En1 & Hm1 & Hc1).
    destruct (IH s1 Hwf1) as (s' & Er & Hwf' & En & Hm); [destruct Hc1 as [[_ ->]|[_ ->]]; lia|].
    exists s'. split_and!; [done|done|congruence|]. intros k. rewrite Hm, Hm1. set_solver.
Qed.

(** What [NewSet], [NewSetFrom] and [Add] produce. *)
Definition set_ok s : Prop := (sslots s = [] ∧ scount s = 0) ∨ set_wf s.

Lemma grow_spec s :
  set_ok s → nslots s ≤ 2 ^ 31 →
  ∃ s', grow s = Some s' ∧ set_wf s' ∧ scount s' = scount s ∧ scount s' + 1 < nslots s' ∧
    nslots s' ≤ Z.max 8 (2 * nslots s) ∧ ∀ k, member s' k ↔ member s k.
Proof.
  intros Hok Hsz. unfold grow. destruct Hok as [[E0 Ec]|Hwf].
  - rewrite E0. cbn [length Z.of_nat Z.mul Z.eqb refill]. change setMinSlots with (2 ^ 3). destruct (fresh_wf 3 ltac:(lia)) as (Hwf & En & Hno).
    exists (mkSet (freshSlots (2 ^ 3)) 0). split_and!; [done|done|by rewrite Ec|rewrite En; cbn; lia|rewrite En; lia|]. intros k.
    split; [intros H; by apply Hno in H|]. intros (x & Hx & _). rewrite E0 in Hx. set_solver.
  - fold (nslots s). destruct (st_size _ Hwf) as (m & Hm & En). rewrite En in *.
    assert (0 < 2 ^ m) by (apply Z.pow_pos_nonneg; lia).
    assert (m < 32) by (destruct (Z_lt_le_dec m 32); [done|]; pose proof (Z.pow_le_mono_r 2 32 m); lia).
    destruct (Z.eqb_spec (2 ^ m * 2) 0); [lia|]. replace (2 ^ m * 2) with (2 ^ (m + 1)) by (rewrite Z.pow_add_r by lia; lia).
    destruct (fresh_wf (m + 1) ltac:(lia)) as (Hwf1 & En1 & Hno). pose proof (st_room _ Hwf) as Hroom.
    assert (2 ^ (m + 1) = 2 * 2 ^ m) as Epow by (rewrite Z.pow_add_r by lia; lia).
    destruct (refill_spec (sslots s) _ Hwf1) as (s' & Er & Hwf' & En' & Hmem).
    { cbn [scount]. pose proof (st_count _ Hwf) as Hc. unfold taken in Hc. lia. }
    assert (∀ k, member s' k ↔ member s k) as Hsame.
    { intros k. rewrite Hmem. split; [intros [Hf|Hf]; [by apply Hno in Hf|exact Hf]|by right]. }
    exists s'. pose proof (same_members_count s s' Hwf Hwf' Hsame). split_and!; [done|done|done|lia|lia|done].
Qed.

Lemma Add_spec s key :
  set_ok s → nslots s ≤ 2 ^ 31 →
  ∃ s', Add s key = Some s' ∧ set_wf s' ∧ nslots s' ≤ Z.max (nslots s) (4 * scount s + 8) ∧
    (∀ k, member s' k ↔ k = key ∨ member s k).
Proof.
  intros Hok Hsz. unfold Add. fold (nslots s). destruct (Z.leb_spec (nslots s / 2) (scount s)) as [Hfull|Hfree].
  - destruct (grow_spec s Hok Hsz) as (s1 & -> & Hwf1 & _ & Hroom & Hn & Hm1).
    destruct (place_spec s1 key Hwf1 (hash_u64 _) Hroom) as (s' & -> & Hwf' & En & Hm & _).
    pose proof (Z.div_mod (nslots s) 2 ltac:(lia)). pose proof (Z.mod_pos_bound (nslots s) 2 ltac:(lia)).
    assert (0 ≤ scount s) by (destruct Hok as [[_ ->]|Hwf]; [done|rewrite (st_count _ Hwf); lia]).
    exists s'. split_and!; [done|done|lia|]. intros k. by rewrite Hm, Hm1.
  - destruct Hok as [[E0 Ec]|Hwf]; [unfold nslots in Hfree; rewrite E0, Ec in Hfree; by vm_compute in Hfree|].
    assert (0 < nslots s) by (destruct (st_size _ Hwf) as (m & Hm & ->); apply Z.pow_pos_nonneg; lia).
    assert (0 ≤ scount s) by (rewrite (st_count _ Hwf); lia). pose proof (Z.div_lt (nslots s) 2 ltac:(lia) ltac:(lia)).
    destruct (place_spec s key Hwf (hash_u64 _)) as (s' & -> & Hwf' & En & Hm & _); [lia|].
    exists s'. split_and!; [done|done|lia|done].
Qed.

(** What [Exists] answers. *)
Lemma Exists_decides s k (Q : Prop) `{!Decision Q} : set_ok s → (member s k ↔ Q) → Exists_ s k = Some (bool_decide Q).
Proof.
  intros [[E0 Ec]|Hwf] Hk.
  - unfold Exists_. rewrite Ec. cbn. f_equal. symmetry. apply bool_decide_eq_false. rewrite <- Hk.
    intros (x & Hx & _). rewrite E0 in Hx. set_solver.
  - destruct (Exists_spec s k Hwf (hash_u64 k)) as [[-> Hin]|[-> Hout]]; f_equal; symmetry.
    + by apply bool_decide_eq_true, Hk.
    + apply bool_decide_eq_false. by rewrite <- Hk.
Qed.

(** ** Runs *)

Definition addAll s (keys : list K) : option (HSet K) :=
  foldl (λ o k, match o with Some s => Add s k | None => None end) (Some s) keys.

Lemma addAll_spec keys : ∀ s l,
  set_ok s → NoDup l → (∀ k, member s k ↔ k ∈ l) → scount s = Z.of_nat (length l) →
  nslots s ≤ 2 ^ 31 → Z.of_nat (length l + length keys) ≤ 2 ^ 28 →
  ∃ s', addAll s keys = Some s' ∧ set_ok s' ∧ (∀ k, member s' k ↔ k ∈ l ∨ k ∈ keys) ∧
    ∃ l', NoDup l' ∧ (∀ k, member s' k ↔ k ∈ l') ∧ scount s' = Z.of_nat (length l').
Proof.
  induction keys as [|key keys IH]; intros s l Hok Hnd Hm Hc Hsz Hlen.
  { exists s. split_and!; [done|done|set_solver|by exists l]. }
  destruct (Add_spec s key Hok Hsz) as (s1 & E1 & Hwf1 & Hn1 & Hm1).
  destruct (keysOf_spec s1 Hwf1) as (N1 & M1 & C1). cbn [length] in Hlen.
  assert (length (keysOf s1) ≤ S (length l))%nat as Hle.
  { apply (submseteq_length (keysOf s1) (key :: l)), (NoDup_submseteq _ _ N1). intros k Hk. apply M1, Hm1 in Hk. set_solver. }
  destruct (IH s1 (keysOf s1)) as (s' & E' & Hok' & Hm' & Hl'); [by right|done|intros; by rewrite M1|done|lia|lia|].
  exists s'. split_and!; [|done| |done].
  - unfold addAll in *. cbn [foldl]. by rewrite E1.
  - intros k. rewrite Hm', M1, Hm1. set_solver.
Qed.

Lemma NewSet_ok capacity :
  capacity ≤ 2 ^ 30 → set_ok (NewSet capacity) ∧ nslots (NewSet capacity) ≤ 2 ^ 31 ∧
    scount (NewSet capacity) = 0 ∧ ∀ k, ¬ member (NewSet capacity) k.
Proof.
  intros Hc. unfold NewSet. destruct (Z.leb_spec capacity 0).
  - split_and!; [by left|done|done|]. intros k (x & Hx & _). set_solver.
  - rewrite Z.shiftl_1_l. destruct (bitsLen_ceil (2 * capacity) ltac:(lia)) as [_ Hlt]. specialize (Hlt ltac:(lia)).
    pose proof (bitsLen_nonneg (2 * capacity - 1)). set (b := bitsLen (2 * capacity - 1)) in *.
    assert (b < 32) by (destruct (Z_lt_le_dec b 32); [done|]; pose proof (Z.pow_le_mono_r 2 32 b); lia).
    destruct (fresh_wf b ltac:(lia)) as (Hwf & En & Hno). split_and!; [by right| |done|done]. rewrite En.
    apply (Z.pow_le_mono_r 2 b 31); lia.
Qed.

Lemma NewSetFrom_ok (n : nat) :
  Z.of_nat n ≤ 2 ^ 31 → let s := NewSetFrom (replicate n zeroSlot) in
  set_ok s ∧ nslots s ≤ 2 ^ 31 ∧ scount s = 0 ∧ ∀ k, ¬ member s k.
Proof.
  intros Hn. assert (∃ m, NewSetFrom (replicate n zeroSlot) = mkSet (freshSlots m) 0 ∧
    (m = 0 ∨ ∃ k, 0 ≤ k ≤ 31 ∧ m = 2 ^ k)) as (m & -> & Hm).
  { unfold NewSetFrom. rewrite length_replicate. set (z := Z.of_nat n) in *.
    destruct (Z.eq_dec z 0) as [Ez|Ez].
    { exists 0. split; [|by left]. rewrite Ez. cbn. done. }
    pose proof (Z.log2_spec z ltac:(lia)) as [Hl1 Hl2]. pose proof (Z.log2_nonneg z).
    assert (Z.log2 z < 32) as H32 by (destruct (Z_lt_le_dec (Z.log2 z) 32); [done|]; pose proof (Z.pow_le_mono_r 2 32 (Z.log2 z)); lia).
    destruct (Z.eqb_spec (Z.land z (z - 1)) 0) as [Hp|Hp]; cbn [negb].
    - exists z. split; [unfold freshSlots; by rewrite take_ge by (rewrite length_replicate; lia); unfold z; rewrite Nat2Z.id|].
      right. exists (Z.log2 z). split.
      + split; [done|]. destruct (Z_lt_le_dec 31 (Z.log2 z)); [|done]. pose proof (Z.pow_le_mono_r 2 32 (Z.log2 z)). lia.
      + destruct (Z.eq_dec z (2 ^ Z.log2 z)); [done|]. exfalso.
        assert (Z.testbit (Z.land z (z - 1)) (Z.log2 z) = true) as Hbit; [|by rewrite Hp, Z.testbit_0_l in Hbit].
        rewrite Z.land_spec, Z.bit_log2 by lia. rewrite <- (Z.log2_unique (z - 1) (Z.log2 z)) at 1 by lia.
        by rewrite Z.bit_log2 by lia.
    - unfold bitsLen. destruct (Z.leb_spec z 0); [lia|]. replace (Z.log2 z + 1 - 1) with (Z.log2 z) by lia.
      rewrite Z.shiftl_1_l. exists (2 ^ Z.log2 z). split.
      + unfold freshSlots. by rewrite take_replicate, Nat.min_l by lia.
      + right. exists (Z.log2 z). split; [|done]. split; [done|].
        destruct (Z_lt_le_dec 31 (Z.log2 z)); [|done]. pose proof (Z.pow_le_mono_r 2 32 (Z.log2 z)). lia. }
  destruct Hm as [->|(k & Hk & ->)].
  - split_and!; [by left|done|done|]. intros k (x & Hx & _). cbn in Hx. set_solver.
  - destruct (fresh_wf k ltac:(lia)) as (Hwf & En & Hno). split_and!; [by right| |done|done]. rewrite En.
    apply (Z.pow_le_mono_r 2 k 31); lia.
Qed.

End Set_.

(** The set answers membership.  However it was made (from a capacity hint or from a caller's zeroed
    buffer of any length), after any keys were added, duplicates included, every walk ends, [Exists]
    answers exactly whether the key was added, and [Len] is the number of distinct keys. *)
Theorem set_is_membership {K : Type} `{!EqDecision K} `{!GoType K} (hash : K → Z) s0 keys :
  (∀ k, is_u64 (hash k)) → Z.of_nat (length keys) ≤ 2 ^ 28 →
  (∃ capacity, capacity ≤ 2 ^ 30 ∧ s0 = NewSet capacity) ∨
    (∃ n : nat, Z.of_nat n ≤ 2 ^ 31 ∧ s0 = NewSetFrom (replicate n zeroSlot)) →
  ∃ s, addAll hash s0 keys = Some s ∧ setLen s = Z.of_nat (length (remove_dups keys)) ∧
    ∀ k, Exists_ hash s k = Some (bool_decide (k ∈ keys)).
Proof.
  intros Hh Hlen H0.
  assert (set_ok hash s0 ∧ nslots s0 ≤ 2 ^ 31 ∧ scount s0 = 0 ∧ ∀ k, ¬ member s0 k) as (Hok & Hsz & Hc & Hno).
  { destruct H0 as [(capacity & Hc & ->)|(n & Hn & ->)]; [by apply NewSet_ok|by apply NewSetFrom_ok]. }
  destruct (addAll_spec hash Hh keys s0 []) as (s & E & Hok' & Hm & l & Hnd & Hl & Hcount);
    [done|constructor| |done|done|cbn; lia|].
  { intros k. split; [intros H; by apply Hno in H|set_solver]. }
  exists s. split_and!; [done| |].
  - unfold setLen. rewrite Hcount. f_equal. apply Permutation_length, NoDup_Permutation; [done|apply NoDup_remove_dups|].
    intros k. rewrite <- Hl, Hm, elem_of_remove_dups. set_solver.
  - intros k. assert (member s k ↔ k ∈ keys) as Hk by (rewrite Hm; set_solver).
    by apply Exists_decides.
Qed.
