(* ===== verification/Stats.v ===== *)
(** * The operation counters (stats.go)

    The counters themselves are a third-party striped counter; its value is the sum of what was added. *)

From S2P Require Import Prelude.

Record Stats := mkStats {
  enabled : bool;
  memHits : Z; memMisses : Z; l2Hits : Z; l2Misses : Z; sets : Z; deletes : Z
}.

Definition newStats (on : bool) : Stats :=
  if negb on then mkStats false 0 0 0 0 0 0 else mkStats true 0 0 0 0 0 0.

Definition addMemHits (s : Stats) (n : Z) : Stats :=
  if enabled s then mkStats true (memHits s + n) (memMisses s) (l2Hits s) (l2Misses s) (sets s) (deletes s) else s.
Definition addMemMisses (s : Stats) (n : Z) : Stats :=
  if enabled s then mkStats true (memHits s) (memMisses s + n) (l2Hits s) (l2Misses s) (sets s) (deletes s) else s.
Definition addL2Hits (s : Stats) (n : Z) : Stats :=
  if enabled s then mkStats true (memHits s) (memMisses s) (l2Hits s + n) (l2Misses s) (sets s) (deletes s) else s.
Definition addL2Misses (s : Stats) (n : Z) : Stats :=
  if enabled s then mkStats true (memHits s) (memMisses s) (l2Hits s) (l2Misses s + n) (sets s) (deletes s) else s.
Definition addSets (s : Stats) (n : Z) : Stats :=
  if enabled s then mkStats true (memHits s) (memMisses s) (l2Hits s) (l2Misses s) (sets s + n) (deletes s) else s.
Definition addDeletes (s : Stats) (n : Z) : Stats :=
  if enabled s then mkStats true (memHits s) (memMisses s) (l2Hits s) (l2Misses s) (sets s) (deletes s + n) else s.

Definition MemoryHits (s : Stats) : Z := memHits s.
Definition MemoryMisses (s : Stats) : Z := memMisses s.
Definition L2Hits (s : Stats) : Z := l2Hits s.
Definition L2Misses (s : Stats) : Z := l2Misses s.
Definition L2Gets (s : Stats) : Z := L2Hits s + L2Misses s.
Definition Hits (s : Stats) : Z := MemoryHits s + L2Hits s.
Definition Misses (s : Stats) : Z := MemoryMisses s + L2Misses s.
Definition Sets (s : Stats) : Z := sets s.
Definition Deletes (s : Stats) : Z := deletes s.
Definition Gets (s : Stats) : Z := Hits s + Misses s.
