(* ===== verification/Rates.v ===== *)
(** * The rates of the counters (stats.go: HitRate, MemoryHitRate, L2HitRate, MissRate)

    A rate is a float64: two counters converted from int64 and divided, both rounded to nearest even as Go does.  The floats are those of
    the specification of IEEE arithmetic in [SpecFloat], with 53 bits and exponents up to 1024. *)

From Stdlib Require Import SpecFloat.
From S2P Require Import Prelude Stats.

Abbreviation float64 := spec_float.

Definition float64_of (n : Z) : float64 := binary_normalize 53 1024 n 0 false.
Definition fdiv (x y : float64) : float64 := SFdiv 53 1024 x y.
Definition fzero : float64 := S754_zero false.
Definition fone : float64 := S754_finite false 4503599627370496 (-52).

Definition HitRate (s : Stats) : float64 :=
  let gets := Gets s in if 0 <? gets then fdiv (float64_of (Hits s)) (float64_of gets) else fzero.
Definition MemoryHitRate (s : Stats) : float64 :=
  let gets := Gets s in if 0 <? gets then fdiv (float64_of (MemoryHits s)) (float64_of gets) else fzero.
Definition L2HitRate (s : Stats) : float64 :=
  let gets := L2Gets s in if 0 <? gets then fdiv (float64_of (L2Hits s)) (float64_of gets) else fzero.
Definition MissRate (s : Stats) : float64 :=
  let gets := Gets s in if 0 <? gets then fdiv (float64_of (Misses s)) (float64_of gets) else fzero.

(** ** Digits *)

Lemma digits2_bounds m : 2 ^ (Z.pos (digits2_pos m) - 1) ≤ Z.pos m < 2 ^ Z.pos (digits2_pos m).
Proof.
  induction m as [m IH|m IH|]; cbn [digits2_pos]; [| |done].
  all: rewrite Pos2Z.inj_succ; replace (Z.succ (Z.pos (digits2_pos m)) - 1) with (Z.succ (Z.pos (digits2_pos m) - 1)) by lia.
  all: rewrite !Z.pow_succ_r by lia; lia.
Qed.

Lemma digits2_unique m d : 2 ^ (d - 1) ≤ Z.pos m < 2 ^ d → Z.pos (digits2_pos m) = d.
Proof.
  intros Hd. pose proof (digits2_bounds m) as Hm. set (d' := Z.pos (digits2_pos m)) in *.
  assert (0 < d). { destruct (Z.le_gt_cases d 0) as [Hle|]; [|lia]. destruct (Z.eq_dec d 0) as [->|]; [cbn in Hd; lia|]. rewrite (Z.pow_neg_r 2 d) in Hd by lia. lia. }
  destruct (Z.lt_trichotomy d' d) as [Hlt|[|Hlt]]; [|done|].
  - pose proof (Z.pow_le_mono_r 2 d' (d - 1) ltac:(lia) ltac:(lia)). lia.
  - pose proof (Z.pow_le_mono_r 2 d (d' - 1) ltac:(lia) ltac:(lia)). lia.
Qed.

(** ** Shifts with a round and a sticky bit

    The mantissa and the two bits as one number, on which a shift is monotone. *)

Definition key (x : shr_record) : Z := 4 * shr_m x + 2 * Z.b2z (shr_r x) + Z.b2z (shr_s x).
Definition half (k : Z) : Z := 2 * (k / 4) + (if k mod 4 =? 0 then 0 else 1).
Definition nearest (k : Z) : Z := round_nearest_even (k / 4)
  (match k mod 4 with 0 => loc_Exact | 1 => loc_Inexact Lt | 2 => loc_Inexact Eq | _ => loc_Inexact Gt end).

Lemma half_key m r s : half (key (Build_shr_record m r s)) = 2 * m + Z.b2z (r || s).
Proof.
  unfold half, key. cbn [shr_m shr_r shr_s]. replace (4 * m + 2 * Z.b2z r + Z.b2z s) with (2 * Z.b2z r + Z.b2z s + m * 4) by lia.
  rewrite Z.mod_add, Z.div_add by lia. by destruct r, s; cbn; rewrite ?Z.add_0_r.
Qed.

Lemma key_shr_1 x : 0 ≤ shr_m x → key (shr_1 x) = half (key x) ∧ 0 ≤ shr_m (shr_1 x) ∧ shr_m (shr_1 x) = shr_m x / 2.
Proof.
  destruct x as [m r s]. cbn [shr_m]. intros Hm. rewrite half_key.
  destruct m as [|[p|p|]|p]; [| | | |lia]; unfold key, shr_1; cbn [shr_m shr_r shr_s].
  all: split_and!; [by destruct r, s; cbn; lia|lia|].
  all: try done.
  - rewrite (Pos2Z.inj_xI p). apply (Z.div_unique _ 2 _ 1); lia.
  - rewrite (Pos2Z.inj_xO p). apply (Z.div_unique _ 2 _ 0); lia.
Qed.

Lemma half_mono k k' : 0 ≤ k ≤ k' → 0 ≤ half k ≤ half k'.
Proof.
  intros H. unfold half. pose proof (Z.div_mod k 4 ltac:(lia)). pose proof (Z.div_mod k' 4 ltac:(lia)).
  pose proof (Z.mod_pos_bound k 4 ltac:(lia)). pose proof (Z.mod_pos_bound k' 4 ltac:(lia)).
  destruct (Z.eqb_spec (k mod 4) 0), (Z.eqb_spec (k' mod 4) 0); lia.
Qed.

Lemma nearest_bounds k : 0 ≤ k → k / 4 ≤ nearest k ≤ k / 4 + 1.
Proof. intros Hk. unfold nearest. pose proof (Z.mod_pos_bound k 4 ltac:(lia)). destruct (k mod 4) as [|[[]|[]|]|]; cbn; repeat case_match; lia. Qed.

Lemma nearest_mono k k' : 0 ≤ k ≤ k' → nearest k ≤ nearest k'.
Proof.
  intros H. pose proof (nearest_bounds k ltac:(lia)) as B. pose proof (nearest_bounds k' ltac:(lia)) as B'.
  pose proof (Z.div_le_mono k k' 4 ltac:(lia) ltac:(lia)) as Hq. destruct (Z.eq_dec (k / 4) (k' / 4)) as [Eq|]; [|lia].
  pose proof (Z.div_mod k 4 ltac:(lia)). pose proof (Z.div_mod k' 4 ltac:(lia)).
  pose proof (Z.mod_pos_bound k 4 ltac:(lia)). pose proof (Z.mod_pos_bound k' 4 ltac:(lia)).
  unfold nearest in *. rewrite Eq in *.
  assert (k mod 4 = 0 ∨ k mod 4 = 1 ∨ k mod 4 = 2 ∨ k mod 4 = 3) as Hk by lia. assert (k' mod 4 = 0 ∨ k' mod 4 = 1 ∨ k' mod 4 = 2 ∨ k' mod 4 = 3) as Hk' by lia.
  destruct Hk as [E|[E|[E|E]]], Hk' as [E'|[E'|[E'|E']]]; try lia; rewrite E, E'; cbn; destruct (Z.even (k' / 4)); lia.
Qed.

Lemma nearest_key x : 0 ≤ shr_m x → round_nearest_even (shr_m x) (loc_of_shr_record x) = nearest (key x).
Proof.
  destruct x as [m r s]. cbn [shr_m]. intros Hm. unfold nearest, key. cbn [shr_m shr_r shr_s].
  replace (4 * m + 2 * Z.b2z r + Z.b2z s) with (2 * Z.b2z r + Z.b2z s + m * 4) by lia.
  rewrite Z.mod_add, Z.div_add by lia. by destruct r, s.
Qed.

Lemma iter_pos_nat {A} (f : A → A) p : ∀ x, SpecFloat.iter_pos f p x = Nat.iter (Pos.to_nat p) f x.
Proof.
  induction p as [p IH|p IH|]; intros x; cbn [SpecFloat.iter_pos]; [| |done].
  - rewrite !IH. rewrite <- Nat.iter_add. replace (Pos.to_nat p~1) with (S (Pos.to_nat p + Pos.to_nat p)) by lia. by rewrite Nat.iter_succ_r.
  - rewrite !IH. rewrite <- Nat.iter_add. f_equal. lia.
Qed.

Lemma iter_shr n x : 0 ≤ shr_m x →
  key (Nat.iter n shr_1 x) = Nat.iter n half (key x) ∧ 0 ≤ shr_m (Nat.iter n shr_1 x) ∧ shr_m (Nat.iter n shr_1 x) = shr_m x / 2 ^ Z.of_nat n.
Proof.
  intros Hx. induction n as [|n (IH1 & IH2 & IH3)]; [cbn; by rewrite Z.div_1_r|]. rewrite !Nat.iter_succ.
  destruct (key_shr_1 _ IH2) as (H1 & H2 & H3). split_and!; [by rewrite H1, IH1|done|].
  rewrite H3, IH3, Z.div_div by lia. f_equal. rewrite Nat2Z.inj_succ, Z.pow_succ_r by lia. lia.
Qed.

Lemma iter_half_mono n k k' : 0 ≤ k ≤ k' → 0 ≤ Nat.iter n half k ≤ Nat.iter n half k'.
Proof. intros H. induction n as [|n IH]; [done|]. rewrite !Nat.iter_succ. by apply half_mono. Qed.

Lemma fexp_normal d e : -1000 ≤ d + e → fexp 53 1024 (d + e) - e = d - 53.
Proof. intros H. unfold fexp, emin. lia. Qed.

(** ** Rounding to 53 bits *)

(** A mantissa of up to 2^53 at an exponent, as a float. *)
Definition carried (m e : Z) : float64 :=
  if m =? 2 ^ 53 then S754_finite false 4503599627370496 (e + 1) else S754_finite false (Z.to_pos m) e.

(** The mantissa of a number of [d] bits, 53 or more. *)
Definition rounded (m d : Z) (l : location) : Z := nearest (Nat.iter (Z.to_nat (d - 53)) half (key (shr_record_of_loc m l))).

Lemma key_loc_div m l : key (shr_record_of_loc m l) / 4 = m ∧ (0 ≤ m → 0 ≤ key (shr_record_of_loc m l)).
Proof.
  unfold key. destruct l as [|[]]; cbn; (split; [|lia]).
  all: match goal with |- ?a / 4 = _ => symmetry; apply (Z.div_unique a 4 _ (a - 4 * m)); lia end.
Qed.

Lemma shr_nat x e n : 0 ≤ n → shr x e n = (Nat.iter (Z.to_nat n) shr_1 x, e + n).
Proof. intros Hn. destruct n as [|p|p]; [cbn; by rewrite Z.add_0_r| |lia]. cbn [shr]. by rewrite iter_pos_nat. Qed.

Lemma shr_m_loc m l : shr_m (shr_record_of_loc m l) = m.
Proof. by destruct l as [|[]]. Qed.

Lemma rounded_bounds p d l : 53 ≤ d → 2 ^ (d - 1) ≤ Z.pos p < 2 ^ d →
  2 ^ 52 ≤ Z.pos p / 2 ^ (d - 53) < 2 ^ 53 ∧ Z.pos p / 2 ^ (d - 53) ≤ rounded (Z.pos p) d l ≤ Z.pos p / 2 ^ (d - 53) + 1.
Proof.
  intros Hd Hp. split.
  - split; [apply Z.div_le_lower_bound|apply Z.div_lt_upper_bound]; try (apply Z.pow_pos_nonneg; lia); rewrite <- Z.pow_add_r by lia.
    + replace (d - 53 + 52) with (d - 1) by lia. lia.
    + replace (d - 53 + 53) with d by lia. lia.
  - unfold rounded. destruct (iter_shr (Z.to_nat (d - 53)) (shr_record_of_loc (Z.pos p) l)) as (H1 & H2 & H3); [by rewrite shr_m_loc|].
    rewrite shr_m_loc, Z2Nat.id in H3 by lia. rewrite <- H1, <- H3, <- nearest_key by done.
    set (x := Nat.iter _ _ _) in *. destruct x as [m [] []]; cbn; repeat case_match; lia.
Qed.

Lemma round_aux p d e l : 53 ≤ d → 2 ^ (d - 1) ≤ Z.pos p < 2 ^ d → -900 ≤ e → d + e ≤ 900 →
  binary_round_aux 53 1024 false (Z.pos p) e l = carried (rounded (Z.pos p) d l) (e + (d - 53)).
Proof.
  intros Hd Hp He Hde. destruct (rounded_bounds p d l Hd Hp) as [Hq Hr]. unfold binary_round_aux, shr_fexp at 1. cbn [Zdigits2].
  rewrite (digits2_unique p d Hp), fexp_normal by lia. rewrite shr_nat by lia.
  destruct (iter_shr (Z.to_nat (d - 53)) (shr_record_of_loc (Z.pos p) l)) as (H1 & H2 & H3); [by rewrite shr_m_loc|].
  rewrite nearest_key, H1 by done. fold (rounded (Z.pos p) d l). set (m := rounded (Z.pos p) d l) in *. set (e' := e + (d - 53)). unfold carried.
  destruct (Z.eqb_spec m (2 ^ 53)) as [->|Hne].
  - unfold shr_fexp. change (Zdigits2 (2 ^ 53)) with 54. rewrite fexp_normal by lia. change (54 - 53) with 1. cbn [shr SpecFloat.iter_pos shr_record_of_loc].
    change (shr_m (shr_1 {| shr_m := 2 ^ 53; shr_r := false; shr_s := false |})) with 4503599627370496. cbv iota. by rewrite (proj2 (Z.leb_le _ _)) by lia.
  - destruct m as [|q|q] eqn:Em; [lia| |lia]. unfold shr_fexp. cbn [Zdigits2]. rewrite (digits2_unique q 53) by lia. rewrite fexp_normal by lia.
    cbn [shr shr_m shr_record_of_loc Z.sub]. change (53 - 53) with 0. cbn [shr shr_m]. by rewrite (proj2 (Z.leb_le _ _)) by lia.
Qed.

(** ** Conversion *)

Lemma iter_xO p n : Z.pos (Pos.iter xO p n) = Z.pos p * 2 ^ Z.pos n.
Proof.
  induction n as [|n IH] using Pos.peano_ind; [cbn; lia|]. rewrite Pos.iter_succ, Pos2Z.inj_xO, IH, Pos2Z.inj_succ, Z.pow_succ_r by lia. lia.
Qed.

(** The mantissa of an integer of [d] bits, before a carry. *)
Definition mantissa (p : positive) (d : Z) : Z := if d <=? 53 then Z.pos p * 2 ^ (53 - d) else rounded (Z.pos p) d loc_Exact.

Lemma rounded_53 p : rounded (Z.pos p) 53 loc_Exact = Z.pos p.
Proof. unfold rounded. change (Z.to_nat (53 - 53)) with 0%nat. cbn [Nat.iter nat_rect]. by rewrite <- (nearest_key (shr_record_of_loc (Z.pos p) loc_Exact)). Qed.

Lemma float64_of_carried p d : 2 ^ (d - 1) ≤ Z.pos p < 2 ^ d → d ≤ 63 → float64_of (Z.pos p) = carried (mantissa p d) (d - 53).
Proof.
  intros Hp Hd. pose proof (digits2_unique p d Hp) as Hdig. assert (1 ≤ d) by lia.
  unfold float64_of, binary_normalize, binary_round, shl_align, mantissa. rewrite Hdig, Z.add_0_r.
  assert (fexp 53 1024 d - 0 = d - 53) as -> by (unfold fexp, emin; lia). assert (fexp 53 1024 d = d - 53) as -> by (unfold fexp, emin; lia).
  destruct (Z.leb_spec d 53) as [Hle|Hgt].
  - destruct (Z.eq_dec d 53) as [->|Hne].
    { change (53 - 53) with 0. cbv iota beta. rewrite (round_aux p 53) by lia. rewrite rounded_53. cbn [Z.add Z.sub]. by rewrite Z.mul_1_r. }
    destruct (d - 53) as [|q|q] eqn:Eq; [lia|lia|]. assert (Z.pos p * 2 ^ (53 - d) = Z.pos (Pos.iter xO p q)) as ->.
    { rewrite iter_xO. do 2 f_equal. lia. }
    rewrite (round_aux _ 53); [|lia| |lia|lia]; [rewrite rounded_53; f_equal; lia|].
    rewrite iter_xO. replace (53 - 1) with (d - 1 + Z.pos q) by lia. assert (2 ^ 53 = 2 ^ d * 2 ^ Z.pos q) as -> by (rewrite <- Z.pow_add_r by lia; f_equal; lia).
    rewrite Z.pow_add_r by lia. assert (0 < 2 ^ Z.pos q) by (apply Z.pow_pos_nonneg; lia). nia.
  - destruct (d - 53) as [|q|q] eqn:Eq; [lia| |lia]. rewrite (round_aux p d) by lia. f_equal. lia.
Qed.

Lemma mantissa_bounds p d : 2 ^ (d - 1) ≤ Z.pos p < 2 ^ d → 1 ≤ d → 2 ^ 52 ≤ mantissa p d ≤ 2 ^ 53.
Proof.
  intros Hp Hd. unfold mantissa. destruct (Z.leb_spec d 53).
  - assert (2 ^ 52 = 2 ^ (d - 1) * 2 ^ (53 - d)) as -> by (rewrite <- Z.pow_add_r by lia; f_equal; lia).
    assert (2 ^ 53 = 2 ^ d * 2 ^ (53 - d)) as -> by (rewrite <- Z.pow_add_r by lia; f_equal; lia).
    assert (0 < 2 ^ (53 - d)) by (apply Z.pow_pos_nonneg; lia). nia.
  - destruct (rounded_bounds p d loc_Exact ltac:(lia) Hp). lia.
Qed.

Lemma mantissa_mono p q d : (p ≤ q)%positive → mantissa p d ≤ mantissa q d.
Proof.
  intros Hpq. unfold mantissa. destruct (Z.leb_spec d 53).
  - apply Z.mul_le_mono_nonneg_r; [apply Z.pow_nonneg; lia|lia].
  - unfold rounded. apply nearest_mono, iter_half_mono. unfold key. cbn. lia.
Qed.

(** A float with a full mantissa. *)
Definition full (x : float64) (m e : Z) : Prop := x = S754_finite false (Z.to_pos m) e ∧ 2 ^ 52 ≤ m < 2 ^ 53.
Definition below (m e m' e' : Z) : Prop := e < e' ∨ e = e' ∧ m ≤ m'.

Lemma carried_full m e : 2 ^ 52 ≤ m ≤ 2 ^ 53 →
  if m =? 2 ^ 53 then full (carried m e) (2 ^ 52) (e + 1) else full (carried m e) m e.
Proof. intros Hm. unfold carried, full. destruct (Z.eqb_spec m (2 ^ 53)); split; [done|done|done|lia]. Qed.

Lemma float64_of_mono a b : 0 < a ≤ b → b < 2 ^ 63 →
  ∃ ma ea mb eb, full (float64_of a) ma ea ∧ full (float64_of b) mb eb ∧ below ma ea mb eb ∧ -52 ≤ ea ∧ eb ≤ 11 ∧ (a = b → ma = mb ∧ ea = eb).
Proof.
  intros Ha Hb. destruct a as [|p|p]; [lia| |lia]. destruct b as [|q|q]; [lia| |lia].
  pose proof (digits2_bounds p) as Hp. pose proof (digits2_bounds q) as Hq. set (d := Z.pos (digits2_pos p)) in *. set (d' := Z.pos (digits2_pos q)) in *.
  assert (d' ≤ 63). { destruct (Z.le_gt_cases d' 63); [done|]. pose proof (Z.pow_le_mono_r 2 63 (d' - 1) ltac:(lia) ltac:(lia)). lia. }
  assert (d ≤ d'). { destruct (Z.le_gt_cases d d'); [done|]. pose proof (Z.pow_le_mono_r 2 d' (d - 1) ltac:(lia) ltac:(lia)). lia. }
  rewrite (float64_of_carried p d), (float64_of_carried q d') by (done || lia).
  pose proof (carried_full (mantissa p d) (d - 53) (mantissa_bounds p d Hp ltac:(lia))) as Fp. pose proof (mantissa_bounds p d Hp ltac:(lia)) as Bp.
  pose proof (carried_full (mantissa q d') (d' - 53) (mantissa_bounds q d' Hq ltac:(lia))) as Fq. pose proof (mantissa_bounds q d' Hq ltac:(lia)) as Bq.
  assert (d = d' → mantissa p d ≤ mantissa q d') as Hm by (intros <-; apply mantissa_mono; lia).
  assert (Z.pos p = Z.pos q → d = d' ∧ mantissa p d = mantissa q d') as Heq by (intros [= ->]; done).
  unfold below. destruct (Z.eqb_spec (mantissa p d) (2 ^ 53)), (Z.eqb_spec (mantissa q d') (2 ^ 53)); eexists _, _, _, _; split_and!;
    [exact Fp|exact Fq| | | | |exact Fp|exact Fq| | | | |exact Fp|exact Fq| | | | |exact Fp|exact Fq| | | |]; lia.
Qed.

(** ** Division *)

Lemma div_core mx ex my ey : 2 ^ 52 ≤ Z.pos mx < 2 ^ 53 → 2 ^ 52 ≤ Z.pos my < 2 ^ 53 → -100 ≤ ex - ey →
  fdiv (S754_finite false mx ex) (S754_finite false my ey) =
    binary_round_aux 53 1024 false (Z.pos mx * 2 ^ 53 / Z.pos my) (ex - ey - 53) (new_location (Z.pos my) (Z.pos mx * 2 ^ 53 mod Z.pos my)).
Proof.
  intros Hx Hy He. unfold fdiv, SFdiv, SFdiv_core_binary. cbn [Zdigits2 xorb]. rewrite (digits2_unique mx 53), (digits2_unique my 53) by done.
  assert (Z.min (fexp 53 1024 (53 + ex - (53 + ey))) (ex - ey) = ex - ey - 53) as -> by (unfold fexp, emin; lia).
  assert (ex - ey - (ex - ey - 53) = 53) as -> by lia. cbv iota. rewrite Z.shiftl_mul_pow2 by lia.
  unfold Z.div, Z.modulo. by destruct (Z.div_eucl _ _).
Qed.

Lemma carried_le_one m e : 2 ^ 52 ≤ m ≤ 2 ^ 53 → e ≤ -53 → SFleb fzero (carried m e) = true ∧ SFleb (carried m e) fone = true.
Proof.
  intros Hm He. unfold carried. destruct (Z.eqb_spec m (2 ^ 53)); split; try done.
  - unfold SFleb, SFcompare, fone. destruct (Z.compare_spec (e + 1) (-52)); [done|done|lia].
  - unfold SFleb, SFcompare, fone. destruct (Z.compare_spec e (-52)); [lia|done|lia].
Qed.

Lemma fdiv_le_one x y mx ex my ey : full x mx ex → full y my ey → below mx ex my ey → -52 ≤ ex → ey ≤ 11 →
  SFleb fzero (fdiv x y) = true ∧ SFleb (fdiv x y) fone = true ∧ (mx = my → ex = ey → fdiv x y = fone).
Proof.
  intros [-> Hx] [-> Hy] Hb Hex Hey. destruct mx as [|px|px]; [lia| |lia]. destruct my as [|py|py]; [lia| |lia]. cbn [Z.to_pos].
  rewrite div_core by lia. destruct (Z.eq_dec ex ey) as [->|Hne]; [destruct (Z.eq_dec (Z.pos px) (Z.pos py)) as [[= ->]|Hm]|].
  - rewrite Z.mul_comm, Z.div_mul, Z.mod_mul by lia. rewrite Z.sub_diag. unfold new_location, new_location_even, new_location_odd. cbn [Z.eqb].
    destruct (Z.even (Z.pos py)); vm_compute; done.
  - assert (Z.pos px < Z.pos py) by (destruct Hb; lia). set (q := Z.pos px * 2 ^ 53 / Z.pos py).
    assert (2 ^ 52 ≤ q) by (apply Z.div_le_lower_bound; lia). assert (q < 2 ^ 53) by (apply Z.div_lt_upper_bound; nia).
    destruct q as [|pq|pq]; [lia| |lia]. rewrite (round_aux pq 53) by lia. split_and!; [| |lia]; apply carried_le_one; try lia.
    all: match goal with |- context [rounded _ _ ?l] => destruct (rounded_bounds pq 53 l ltac:(lia) ltac:(lia)); lia end.
  - assert (ex < ey) by (destruct Hb; lia). set (q := Z.pos px * 2 ^ 53 / Z.pos py).
    assert (2 ^ 52 ≤ q) by (apply Z.div_le_lower_bound; lia). assert (q < 2 ^ 54) by (apply Z.div_lt_upper_bound; lia).
    destruct q as [|pq|pq]; [lia| |lia]. destruct (Z.lt_ge_cases (Z.pos pq) (2 ^ 53)) as [Hq|Hq].
    + rewrite (round_aux pq 53) by lia. split_and!; [| |lia]; apply carried_le_one; try lia.
      all: match goal with |- context [rounded _ _ ?l] => destruct (rounded_bounds pq 53 l ltac:(lia) ltac:(lia)); lia end.
    + rewrite (round_aux pq 54) by lia. split_and!; [| |lia]; apply carried_le_one; try lia.
      all: match goal with |- context [rounded _ _ ?l] => destruct (rounded_bounds pq 54 l ltac:(lia) ltac:(lia)); lia end.
Qed.

(** ** The rates *)

Lemma rate_range a b : 0 ≤ a ≤ b → 0 < b < 2 ^ 63 →
  let r := fdiv (float64_of a) (float64_of b) in
  SFleb fzero r = true ∧ SFleb r fone = true ∧ (a = 0 → r = fzero) ∧ (a = b → r = fone).
Proof.
  intros Ha Hb r. destruct (Z.eq_dec a 0) as [->|Hne].
  - destruct (float64_of_mono b b ltac:(lia) ltac:(lia)) as (m & e & _ & _ & [Hf _] & _). unfold r. rewrite Hf. cbn. split_and!; [done..|lia].
  - destruct (float64_of_mono a b ltac:(lia) ltac:(lia)) as (ma & ea & mb & eb & Fa & Fb & Hbel & He1 & He2 & Heq).
    destruct (fdiv_le_one _ _ _ _ _ _ Fa Fb Hbel He1 He2) as (H1 & H2 & H3). split_and!; [done|done|lia|]. intros E. destruct (Heq E). by apply H3.
Qed.

(** The rates are fractions.  Each is a number from 0 to 1, whatever the rounding does; it is exactly 0 when nothing was read or
    nothing of its kind happened, and exactly 1 when everything was of its kind, also for counts a float64 cannot hold. *)
Theorem rates_are_fractions s :
  0 ≤ memHits s → 0 ≤ memMisses s → 0 ≤ l2Hits s → 0 ≤ l2Misses s → Gets s < 2 ^ 63 →
  Forall (λ '(r, n, of_), SFleb fzero r = true ∧ SFleb r fone = true ∧ (n = 0 → r = fzero) ∧ (0 < n → n = of_ → r = fone))
    [(HitRate s, Hits s, Gets s); (MemoryHitRate s, MemoryHits s, Gets s); (L2HitRate s, L2Hits s, L2Gets s); (MissRate s, Misses s, Gets s)].
Proof.
  intros H1 H2 H3 H4 H5. unfold Gets, Hits, Misses, MemoryHits, MemoryMisses, L2Hits, L2Misses in H5.
  assert (∀ n of_, 0 ≤ n ≤ of_ → of_ < 2 ^ 63 → let r := if 0 <? of_ then fdiv (float64_of n) (float64_of of_) else fzero in
    SFleb fzero r = true ∧ SFleb r fone = true ∧ (n = 0 → r = fzero) ∧ (0 < n → n = of_ → r = fone)) as H.
  { intros n of_ Hn Hof r. unfold r. destruct (Z.ltb_spec 0 of_); [|by split_and!; [..|lia]].
    destruct (rate_range n of_ Hn ltac:(lia)) as (A1 & A2 & A3 & A4). by split_and!. }
  repeat constructor; apply H; unfold L2Gets, Gets, Hits, Misses, MemoryHits, MemoryMisses, L2Hits, L2Misses; lia.
Qed.

(** One hit in three reads. *)
Example one_third : HitRate (mkStats true 1 2 0 0 0 0) = S754_finite false 6004799503160661 (-54).
Proof. vm_compute. reflexivity. Qed.
