(* ===== verification/CacheState.v ===== *)
(** * The state of a cache (cache.go: Cache; l2.go: L2Cache, l2Write)

    The shards, the coarse clock, the counters, the second level, the write-back queues, and what the
    handlers were told.  A method of [Cache] is a computation on this state; the second level is an
    interface, with the laws of a store that answers without errors as a class of its own. *)

From S2P Require Import Prelude Item Table Policy Shard ShardSpec Config Stats.

(** ** Computations

    State passing with [None] for a shard loop that ran out of fuel. *)
Definition M (W A : Type) : Type := W → option (A * W).

#[global] Instance M_ret W : MRet (M W) := λ A x w, Some (x, w).
#[global] Instance M_bind W : MBind (M W) := λ A B f m w,
  match m w with Some (x, w') => f x w' | None => None end.

Definition get {W} : M W W := λ w, Some (w, w).
Definition modify {W} (f : W → W) : M W () := λ w, Some ((), f w).

(** A loop [for _, x := range l { f(x) }]. *)
Fixpoint forM {W A} (l : list A) (f : A → M W ()) : M W () :=
  match l with
  | [] => mret ()
  | x :: l => f x ≫= λ _, forM l f
  end.

(** ** The second level *)

(** A presence flag and its value are an [option]; the error is beside it, as in the interface. *)
Class L2Cache (K V L E : Type) := {
  l2Get : L → K → L * (option V * option E);
  l2BatchGet : L → list K → L * (list (K * V) * option E);
  l2Set : L → K → V → Z → L * option E;
  l2BatchSet : L → list (K * V) → Z → L * option E;
  l2Delete : L → K → L * option E;
  l2BatchDelete : L → list K → L * option E
}.

(** The map after one write, and after a batch of them in order. *)
Definition upd {K V} `{!EqDecision K} (m : K → option V) (k : K) (o : option V) : K → option V :=
  λ k', if decide (k' = k) then o else m k'.

Definition updAll {K V} `{!EqDecision K} (m : K → option V) (l : list (K * V)) : K → option V :=
  foldl (λ m kv, upd m kv.1 (Some kv.2)) m l.

Definition dropAll {K V} `{!EqDecision K} (m : K → option V) (l : list K) : K → option V :=
  foldl (λ m k, upd m k None) m l.

(** A row of a store: the data under a key and the lifetime it has left, in nanoseconds; 0 is one that does not end. *)
Definition aged {A} (dt : Z) (r : A * Z) : option (A * Z) :=
  if r.2 =? 0 then Some r else if r.2 <=? dt then None else Some (r.1, r.2 - dt).

(** What the interface documents, for a store that does not fail: it keeps rows, reads answer the ones whose lifetime is not over and
    change none, a write stores the value with the lifetime its TTL asks for (none for the TTL 0), a batch is its writes one after the
    other, and otherwise only time changes a row: [l2pass] is the store some time later.  How values are kept and to what a store rounds
    a TTL is its own affair.  (Of a batch with a repeated key the memcached adapters and the Aerospike one promise less.) *)
Class L2Laws (K V L E : Type) `{!EqDecision K} `{!L2Cache K V L E} := {
  l2Data : Type;
  l2enc : V → l2Data;
  l2dec : l2Data → V;
  l2dec_enc v : l2dec (l2enc v) = v;
  l2life : Z → Z;
  l2life_none : l2life 0 = 0;
  l2life_some ttl : 0 < ttl → 0 < l2life ttl;
  l2rows : L → K → option (l2Data * Z);
  l2pass : Z → L → L;
  l2pass_laws dt s k : l2rows (l2pass dt s) k = l2rows s k ≫= aged dt;
  l2Get_laws s k : let '(s', (r, e)) := l2Get s k in
    e = None ∧ r = l2dec ∘ fst <$> l2rows s k ∧ ∀ k', l2rows s' k' = l2rows s k';
  l2BatchGet_laws s ks : let '(s', (r, e)) := l2BatchGet s ks in
    e = None ∧ (∀ k', l2rows s' k' = l2rows s k') ∧ ∀ k v, (k, v) ∈ r ↔ k ∈ ks ∧ l2dec ∘ fst <$> l2rows s k = Some v;
  l2Set_laws s k v ttl : let '(s', e) := l2Set s k v ttl in
    e = None ∧ ∀ k', l2rows s' k' = upd (l2rows s) k (Some (l2enc v, l2life ttl)) k';
  l2BatchSet_laws s l ttl : let '(s', e) := l2BatchSet s l ttl in
    e = None ∧ ∀ k', l2rows s' k' = updAll (l2rows s) ((λ kv, (kv.1, (l2enc kv.2, l2life ttl))) <$> l) k';
  l2Delete_laws s k : let '(s', e) := l2Delete s k in e = None ∧ ∀ k', l2rows s' k' = upd (l2rows s) k None k';
  l2BatchDelete_laws s ks : let '(s', e) := l2BatchDelete s ks in e = None ∧ ∀ k', l2rows s' k' = dropAll (l2rows s) ks k'
}.

Section Contract.
Context {K V L E : Type} `{!EqDecision K} `{!L2Cache K V L E} `{!L2Laws K V L E}.

(** What a store keeps for a value written with a TTL, and what a read of a key answers. *)
Definition l2row (v : V) (ttl : Z) : l2Data * Z := (l2enc v, l2life ttl).
Definition l2map (s : L) (k : K) : option V := l2dec ∘ fst <$> l2rows s k.

Lemma l2row_value v ttl : (l2dec ∘ fst) (l2row v ttl) = v.
Proof. apply l2dec_enc. Qed.
End Contract.

(** A write-back task; [wflush] is a [Wait] checkpoint, named by a number. *)
Record l2Write (K V : Type) := mkWrite {
  wkey : K; wvalue : V; wttl : Z; wflush : option nat; wdel : bool
}.
Arguments mkWrite {K V}.
Arguments wkey {K V}.
Arguments wvalue {K V}.
Arguments wttl {K V}.
Arguments wflush {K V}.
Arguments wdel {K V}.

(** ** The cache *)

(** The fields a cache never changes after it was built. *)
Record Consts (K V : Type) := mkConsts {
  kCostFunc : option (K → V → Z);
  kShardMask : Z;
  kOnDeletion : bool;
  kTtlOff : Z;
  kExpireUnit : Z;
  kTtl : Z;
  kRefreshOnGet : bool;
  kHasL2 : bool;
  kWritePolicy : WritePolicy;
  kBatching : WriteBackBatching;
  kQueueCap : nat;
  kOnL2Error : bool
}.
Arguments mkConsts {K V}.
Arguments kCostFunc {K V}.
Arguments kShardMask {K V}.
Arguments kOnDeletion {K V}.
Arguments kTtlOff {K V}.
Arguments kExpireUnit {K V}.
Arguments kTtl {K V}.
Arguments kRefreshOnGet {K V}.
Arguments kHasL2 {K V}.
Arguments kWritePolicy {K V}.
Arguments kBatching {K V}.
Arguments kQueueCap {K V}.
Arguments kOnL2Error {K V}.

(** The rest, with the log of each handler: the deletions and errors it was called with, and the
    checkpoints that were released. *)
Record World (K V P L E : Type) := mkWorld {
  wShards : list (shard K V P);
  wNow : Z;
  wStats : Stats;
  wL2 : L;
  wQueues : list (list (l2Write K V));
  wStopped : bool;
  wDeletions : list (deletion K V);
  wErrors : list (K * E);
  wReleased : list nat
}.
Arguments mkWorld {K V P L E}.
Arguments wShards {K V P L E}.
Arguments wNow {K V P L E}.
Arguments wStats {K V P L E}.
Arguments wL2 {K V P L E}.
Arguments wQueues {K V P L E}.
Arguments wStopped {K V P L E}.
Arguments wDeletions {K V P L E}.
Arguments wErrors {K V P L E}.
Arguments wReleased {K V P L E}.

Section State.
Context {K V P L E : Type} `{!EqDecision K} `{!GoType K} `{!GoType V}.
Context `{!EvictionPolicy K V P} `{!L2Cache K V L E}.
(** [maphash.Comparable] under the cache's seed. *)
Context (hash : K → Z) (c : Consts K V).
Abbreviation W := (World K V P L E).
Implicit Types (w : W) (key : K) (value : V).

Definition withShards w (s : list (shard K V P)) : W :=
  mkWorld s (wNow w) (wStats w) (wL2 w) (wQueues w) (wStopped w) (wDeletions w) (wErrors w) (wReleased w).
Definition withStats w (s : Stats) : W :=
  mkWorld (wShards w) (wNow w) s (wL2 w) (wQueues w) (wStopped w) (wDeletions w) (wErrors w) (wReleased w).
Definition withL2 w (l : L) : W :=
  mkWorld (wShards w) (wNow w) (wStats w) l (wQueues w) (wStopped w) (wDeletions w) (wErrors w) (wReleased w).
Definition withQueues w (q : list (list (l2Write K V))) : W :=
  mkWorld (wShards w) (wNow w) (wStats w) (wL2 w) q (wStopped w) (wDeletions w) (wErrors w) (wReleased w).
Definition logDeletions w (ds : list (deletion K V)) : W :=
  mkWorld (wShards w) (wNow w) (wStats w) (wL2 w) (wQueues w) (wStopped w) (wDeletions w ++ ds) (wErrors w) (wReleased w).
Definition logError w key (e : E) : W :=
  mkWorld (wShards w) (wNow w) (wStats w) (wL2 w) (wQueues w) (wStopped w) (wDeletions w) (wErrors w ++ [(key, e)]) (wReleased w).
Definition logReleased w (n : nat) : W :=
  mkWorld (wShards w) (wNow w) (wStats w) (wL2 w) (wQueues w) (wStopped w) (wDeletions w) (wErrors w) (wReleased w ++ [n]).
Definition withStopped w : W :=
  mkWorld (wShards w) (wNow w) (wStats w) (wL2 w) (wQueues w) true (wDeletions w) (wErrors w) (wReleased w).

(** What a shard operation sees of the cache. *)
Definition envOf w : Env K V := mkEnv (kCostFunc c) (kOnDeletion c) (wNow w) (kTtlOff c) (kRefreshOnGet c).

Definition shardIdx key : nat := Z.to_nat (Z.land (u32 (hash key)) (kShardMask c)).

(** A shard operation on the key's shard: [callOnDeletion] runs after the mutex is released. *)
Definition onShard {A} key (f : Env K V → shard K V P → option (shard K V P * list (deletion K V) * A)) : M W A :=
  λ w,
  match wShards w !! shardIdx key with
  | None => None
  | Some sh =>
    match f (envOf w) sh with
    | None => None
    | Some (sh, ds, r) => Some (r, logDeletions (withShards w (<[shardIdx key := sh]> (wShards w))) ds)
    end
  end.

Definition cGetMemory key : M W (option V) := onShard key (λ env sh, getMemory hash env sh key).

Definition cPeekMemory key : M W (option V) :=
  onShard key (λ env sh, match peekMemory hash sh key with None => None | Some r => Some (sh, [], r) end).

Definition cSetMemory key value (expireOff : Z) : M W () :=
  onShard key (λ env sh, match setMemory hash env sh key value expireOff with
    | None => None | Some (sh, ds) => Some (sh, ds, ()) end).

Definition cDeleteMemory key : M W () :=
  onShard key (λ env sh, match deleteMemory hash env sh key [] with
    | None => None | Some (sh, ds) => Some (sh, ds, ()) end).

Definition cExpireOffset : M W Z := w ← get; mret (expireOffset (envOf w)).

Definition stat (f : Stats → Z → Stats) (n : Z) : M W () := modify (λ w, withStats w (f (wStats w) n)).

(** [reportL2Err] *)
Definition reportL2Err key (e : option E) : M W () :=
  match e with
  | Some e => modify (λ w, if kOnL2Error c then logError w key e else w)
  | None => mret ()
  end.

(** Calls of the second level. *)
Definition callL2 {A} (f : L → L * A) : M W A := λ w, let '(l, r) := f (wL2 w) in Some (r, withL2 w l).

End State.
