(* ===== verification/WriteBack.v ===== *)
(** * Writing to the second level (cache.go, batch.go: enqueueL2, flushWrite and what they call, Close)

    Under write-back every key has one queue, drained by one worker.  A worker takes a task and
    coalesces the run of like tasks behind it into one batch call.  One turn of a worker is one
    computation here; a task that arrives while the worker drains its queue is one that arrived before
    the turn.  Panics of the adapter are in Panics. *)

From S2P Require Import Prelude Item Table Policy Shard ShardSpec Config Stats CacheState.

Definition WriteBackBatchMax : nat := 128.

Section WriteBack.
Context {K V P L E : Type} `{!EqDecision K} `{!GoType K} `{!GoType V}.
Context `{!EvictionPolicy K V P} `{!L2Cache K V L E}.
Context (hash : K → Z) (c : Consts K V).
Abbreviation W := (World K V P L E).
Abbreviation task := (l2Write K V).
Implicit Types (w : W) (key : K) (value : V).

(** [writeQueueOf], as the index of the queue among [n]. *)
Definition writeQueueOf (n : nat) key : nat :=
  if (n =? 1)%nat then 0%nat else Z.to_nat (Z.shiftr (hash key) 32 mod Z.of_nat n).

(** The synchronous path of [enqueueL2]. *)
Definition syncWrite (write : task) : M W () :=
  err ← (if wdel write then callL2 (λ l, l2Delete l (wkey write))
         else callL2 (λ l, l2Set l (wkey write) (wvalue write) (wttl write)));
  reportL2Err c (wkey write) err.

Definition enqueueL2 (write : task) : M W () :=
  w ← get;
  if wStopped w then syncWrite write
  else
    let i := writeQueueOf (length (wQueues w)) (wkey write) in
    let queue := default [] (wQueues w !! i) in
    if (length queue <? kQueueCap c)%nat
    then modify (λ w, withQueues w (<[i := queue ++ [write]]> (wQueues w)))
    else syncWrite write.

Definition enqueueWriteBack key value (ttl : Z) : M W () := enqueueL2 (mkWrite key value ttl None false).
Definition enqueueDelete key : M W () := enqueueL2 (mkWrite key go_zero 0 None true).

Definition writeBatch (batch : list (K * V)) (ttl : Z) : M W () :=
  match batch with
  | [(key, value)] => err ← callL2 (λ l, l2Set l key value ttl); reportL2Err c key err
  | _ =>
    err ← callL2 (λ l, l2BatchSet l batch ttl);
    match err with
    | None => mret ()
    | Some _ => forM batch (λ item, reportL2Err c item.1 err)
    end
  end.

Definition deleteBatch (keys : list K) : M W () :=
  match keys with
  | [key] => err ← callL2 (λ l, l2Delete l key); reportL2Err c key err
  | _ =>
    err ← callL2 (λ l, l2BatchDelete l keys);
    match err with
    | None => mret ()
    | Some _ => forM keys (λ key, reportL2Err c key err)
    end
  end.

Definition deliverRun (sets : list (K * V)) (deletes : list K) (ttl : Z) : M W () :=
  match deletes with
  | [] => writeBatch sets ttl
  | _ => deleteBatch deletes
  end.

(** The loop of [flushRun] over what is left in the queue; the answer is the rest of the queue and the
    task that ended the run, if it is to start the next one. *)
Fixpoint flushLoop (first : task) (queue : list task) (sets : list (K * V)) (deletes : list K)
    : M W (list task * option task) :=
  if (length sets + length deletes <? WriteBackBatchMax)%nat then
    match queue with
    | [] => deliverRun sets deletes (wttl first) ≫= λ _, mret ([], None)
    | write :: rest =>
      match wflush write with
      | Some marker =>
        deliverRun sets deletes (wttl first) ≫= λ _,
        modify (λ w, logReleased w marker) ≫= λ _, mret (rest, None)
      | None =>
        if negb (Bool.eqb (wdel write) (wdel first)) || negb (wttl write =? wttl first)
        then deliverRun sets deletes (wttl first) ≫= λ _, mret (rest, Some write)
        else if wdel write then flushLoop first rest sets (deletes ++ [wkey write])
        else flushLoop first rest (sets ++ [(wkey write, wvalue write)]) deletes
      end
    end
  else deliverRun sets deletes (wttl first) ≫= λ _, mret (queue, None).

Definition flushRun (queue : list task) (first : task) : M W (list task * option task) :=
  if wdel first then flushLoop first queue [] [wkey first]
  else flushLoop first queue [(wkey first, wvalue first)] [].

(** [flushWrite]: the answer is the rest of the queue.  Every turn of its loop but the last takes a
    task from the queue, so the queue's length bounds it. *)
Fixpoint flushWriteLoop (fuel : nat) (queue : list task) (first : task) : M W (list task) :=
  match fuel with
  | O => λ _, None
  | S fuel =>
    match wflush first with
    | Some marker => modify (λ w, logReleased w marker) ≫= λ _, mret queue
    | None =>
      if negb (wdel first) &&
         (bool_decide (kBatching c = BatchingNone) ||
          (bool_decide (kBatching c = BatchingAdaptive) && (length queue <=? kQueueCap c / 2)%nat))
      then writeBatch [(wkey first, wvalue first)] (wttl first) ≫= λ _, mret queue
      else
        flushRun queue first ≫= λ '(queue, next),
        match next with
        | None => mret queue
        | Some first => flushWriteLoop fuel queue first
        end
    end
  end.

Definition flushWrite (queue : list task) (first : task) : M W (list task) :=
  flushWriteLoop (S (length queue)) queue first.

(** One turn of worker [i] ([writeBackLoop]): nothing when its queue is empty. *)
Definition workerTurn (i : nat) : M W () :=
  w ← get;
  match wQueues w !! i with
  | Some (first :: queue) =>
    rest ← flushWrite queue first;
    modify (λ w, withQueues w (<[i := rest]> (wQueues w)))
  | _ => mret ()
  end.

(** Draining one queue, as a worker does on shutdown and [Close] does again for each queue. *)
Fixpoint drain (fuel : nat) (i : nat) : M W () :=
  match fuel with
  | O => λ _, None
  | S fuel =>
    w ← get;
    match wQueues w !! i with
    | Some (_ :: _) => workerTurn i ≫= λ _, drain fuel i
    | _ => mret ()
    end
  end.

Definition drainQueue (i : nat) : M W () := λ w, drain (S (length (default [] (wQueues w !! i)))) i w.

(** [Close]: the workers drain their queues when [stop] is closed.  A second call does nothing
    ([closeOnce]). *)
Definition Close : M W () :=
  w ← get;
  if wStopped w then mret ()
  else modify withStopped ≫= λ _, forM (seq 0 (length (wQueues w))) drainQueue.

(** The part of [Wait] that puts its marker behind everything queued; [n] names the checkpoint. *)
Definition putMarker (i n : nat) : M W () :=
  modify (λ w, withQueues w
    (<[i := default [] (wQueues w !! i) ++ [mkWrite go_zero go_zero 0 (Some n) false]]> (wQueues w))).

End WriteBack.

(** ** What the write-back workers deliver

    For a second level that does not fail: the coalesced batches have the effect of the queued tasks one
    by one, in order.  [pending] is the second level as it will be once the queues are empty; worker
    turns do not change it, and a task that finds room in its queue changes it as a direct write would. *)

Section Laws.
Context {K V P L E : Type} `{!EqDecision K} `{!GoType K} `{!GoType V}.
Context `{!EvictionPolicy K V P} `{!L2Cache K V L E} `{!L2Laws K V L E}.
Context (hash : K → Z) (c : Consts K V).
Abbreviation W := (World K V P L E).
Abbreviation task := (l2Write K V).
Abbreviation rows := (K → option (l2Data (K := K) (V := V) (L := L) (E := E) * Z)).
Implicit Types (w : W) (t : task) (m : rows).

(** One task's effect on the store's rows. *)
Definition applyTask m t : rows :=
  match wflush t with
  | Some _ => m
  | None => upd m (wkey t) (if wdel t then None else Some (l2row (wvalue t) (wttl t)))
  end.

Definition applyTasks m (l : list task) : rows := foldl applyTask m l.

Definition markers (l : list task) : list nat := omap wflush l.

Lemma applyTasks_app m l1 l2 : applyTasks m (l1 ++ l2) = applyTasks (applyTasks m l1) l2.
Proof. apply foldl_app. Qed.

Lemma applyTasks_cons m t l : applyTasks m (t :: l) = applyTasks (applyTask m t) l.
Proof. done. Qed.

Lemma applyTask_ext m m' t k : m k = m' k → applyTask m t k = applyTask m' t k.
Proof. intros H. unfold applyTask. destruct (wflush t); [done|]. unfold upd. by case_decide. Qed.

Lemma applyTasks_ext l : ∀ m m' k, m k = m' k → applyTasks m l k = applyTasks m' l k.
Proof. induction l as [|t l IH]; intros m m' k H; [done|]. cbn. by apply IH, applyTask_ext. Qed.

(** Tasks on other keys do not matter. *)
Lemma applyTasks_other l : ∀ m k, Forall (λ t, wflush t = None → wkey t ≠ k) l → applyTasks m l k = m k.
Proof.
  induction l as [|t l IH]; intros m k Hl; [done|]. apply Forall_cons in Hl as [Ht Hl]. cbn. rewrite (IH _ _ Hl).
  unfold applyTask. destruct (wflush t); [done|]. unfold upd. rewrite decide_False; [done|]. intros ->. by apply Ht.
Qed.

(** Only the second level, and nothing a handler was told, changed. *)
Record l2only w w' : Prop := {
  lo_shards : wShards w' = wShards w; lo_now : wNow w' = wNow w; lo_stats : wStats w' = wStats w;
  lo_queues : wQueues w' = wQueues w; lo_stopped : wStopped w' = wStopped w;
  lo_deletions : wDeletions w' = wDeletions w; lo_errors : wErrors w' = wErrors w
}.

#[global] Instance l2only_refl : Reflexive l2only.
Proof. by split. Qed.

#[global] Instance l2only_trans : Transitive l2only.
Proof. intros a b d [] []. split; congruence. Qed.

(** [w'] is [w] with the second level turned into [m] and the checkpoints [r] released. *)
Definition delivered w m (r : list nat) w' : Prop :=
  l2only w w' ∧ wReleased w' = wReleased w ++ r ∧ ∀ k, l2rows (wL2 w') k = m k.

Lemma delivered_trans w m1 r1 w1 m2 r2 w2 :
  delivered w m1 r1 w1 → delivered w1 m2 r2 w2 → delivered w m2 (r1 ++ r2) w2.
Proof.
  intros (F1 & R1 & _) (F2 & R2 & M2). split_and!; [by etrans| |done]. by rewrite R2, R1, app_assoc.
Qed.

Definition rowsOf (batch : list (K * V)) (ttl : Z) : list (K * (l2Data * Z)) := (λ kv, (kv.1, l2row kv.2 ttl)) <$> batch.

Lemma writeBatch_spec batch ttl w :
  ∃ w', writeBatch c batch ttl w = Some ((), w') ∧ delivered w (updAll (l2rows (wL2 w)) (rowsOf batch ttl)) [] w'.
Proof.
  assert (∃ w', (err ← callL2 (λ l, l2BatchSet l batch ttl);
      match err with None => mret () | Some _ => forM batch (λ item, reportL2Err c item.1 err) end) w = Some ((), w') ∧
    delivered w (updAll (l2rows (wL2 w)) (rowsOf batch ttl)) [] w') as H.
  { unfold callL2, mbind, M_bind. pose proof (l2BatchSet_laws (wL2 w) batch ttl) as Hl.
    destruct (l2BatchSet (wL2 w) batch ttl) as [l e]. destruct Hl as [-> Hm]. eexists. split; [reflexivity|].
    split_and!; [by split|by rewrite app_nil_r|done]. }
  unfold writeBatch. destruct batch as [|[k v] [|? ?]]; try exact H.
  unfold callL2, mbind, M_bind. pose proof (l2Set_laws (wL2 w) k v ttl) as Hl.
  destruct (l2Set (wL2 w) k v ttl) as [l e]. destruct Hl as [-> Hm]. eexists. split; [reflexivity|].
  split_and!; [by split|by rewrite app_nil_r|done].
Qed.

Lemma deleteBatch_spec keys w :
  ∃ w', deleteBatch c keys w = Some ((), w') ∧ delivered w (dropAll (l2rows (wL2 w)) keys) [] w'.
Proof.
  assert (∃ w', (err ← callL2 (λ l, l2BatchDelete l keys);
      match err with None => mret () | Some _ => forM keys (λ key, reportL2Err c key err) end) w = Some ((), w') ∧
    delivered w (dropAll (l2rows (wL2 w)) keys) [] w') as H.
  { unfold callL2, mbind, M_bind. pose proof (l2BatchDelete_laws (wL2 w) keys) as Hl.
    destruct (l2BatchDelete (wL2 w) keys) as [l e]. destruct Hl as [-> Hm]. eexists. split; [reflexivity|].
    split_and!; [by split|by rewrite app_nil_r|done]. }
  unfold deleteBatch. destruct keys as [|k [|? ?]]; try exact H.
  unfold callL2, mbind, M_bind. pose proof (l2Delete_laws (wL2 w) k) as Hl.
  destruct (l2Delete (wL2 w) k) as [l e]. destruct Hl as [-> Hm]. eexists. split; [reflexivity|].
  split_and!; [by split|by rewrite app_nil_r|done].
Qed.

(** The tasks of a run collected so far. *)
Definition runOf (first : task) (sets : list (K * V)) (deletes : list K) m : rows :=
  if wdel first then dropAll m deletes else updAll m (rowsOf sets (wttl first)).

Definition run_ok (first : task) (sets : list (K * V)) (deletes : list K) : Prop :=
  if wdel first then sets = [] ∧ deletes ≠ [] else deletes = [].

Lemma deliverRun_spec first sets deletes w :
  run_ok first sets deletes →
  ∃ w', deliverRun c sets deletes (wttl first) w = Some ((), w') ∧ delivered w (runOf first sets deletes (l2rows (wL2 w))) [] w'.
Proof.
  unfold run_ok, runOf, deliverRun. destruct (wdel first).
  - intros [-> Hd]. destruct deletes as [|k ks]; [done|]. apply deleteBatch_spec.
  - intros ->. apply writeBatch_spec.
Qed.

Lemma flushLoop_spec first queue : ∀ sets deletes w,
  run_ok first sets deletes →
  ∃ rest next done w', flushLoop c first queue sets deletes w = Some ((rest, next), w') ∧
    queue = done ++ option_list next ++ rest ∧
    delivered w (applyTasks (runOf first sets deletes (l2rows (wL2 w))) done) (markers done) w'.
Proof.
  induction queue as [|write queue IH]; intros sets deletes w Hrun.
  - cbn [flushLoop]. destruct (deliverRun_spec first sets deletes w Hrun) as (w' & E' & Hd).
    case_match; unfold mbind, M_bind; rewrite E'; exists [], None, [], w'; by split_and!.
  - destruct (deliverRun_spec first sets deletes w Hrun) as (w' & E' & Hd).
    cbn [flushLoop]. case_match; [|unfold mbind, M_bind; rewrite E'; by exists (write :: queue), None, [], w'].
    destruct (wflush write) as [n|] eqn:Ef.
    { unfold mbind, M_bind. rewrite E'. exists queue, None, [write], (logReleased w' n). split_and!; [done|done|].
      destruct Hd as (Hf & Hr & Hm). cbn [applyTasks foldl markers omap list_omap]. rewrite Ef.
      split_and!; [by destruct Hf; split|cbn; by rewrite Hr, app_nil_r|]. intros k. cbn [logReleased wL2]. rewrite Hm.
      unfold applyTask. by rewrite Ef. }
    case_match eqn:Eb.
    { unfold mbind, M_bind. rewrite E'. by exists queue, (Some write), [], w'. }
    apply orb_false_iff in Eb as [Ed%negb_false_iff%eqb_prop Et%negb_false_iff%Z.eqb_eq].
    assert (∀ sets' deletes',
      run_ok first sets' deletes' →
      runOf first sets' deletes' (l2rows (wL2 w)) = applyTask (runOf first sets deletes (l2rows (wL2 w))) write →
      ∃ rest next done w'', flushLoop c first queue sets' deletes' w = Some ((rest, next), w'') ∧
        write :: queue = done ++ option_list next ++ rest ∧
        delivered w (applyTasks (runOf first sets deletes (l2rows (wL2 w))) done) (markers done) w'') as Hgo.
    { intros sets' deletes' Hrun' Hstep. destruct (IH sets' deletes' w Hrun') as (rest & next & dn & w'' & E'' & -> & Hdel).
      exists rest, next, (write :: dn), w''. split_and!; [done|done|]. rewrite Hstep in Hdel.
      unfold markers. cbn [omap list_omap]. by rewrite Ef. }
    unfold run_ok, runOf in *. unfold applyTask in Hgo. rewrite Ef in Hgo.
    destruct (wdel write) eqn:Ew, (wdel first) eqn:E1; try done; apply Hgo.
    + destruct Hrun as [-> Hne]. split; [done|]. by destruct deletes.
    + unfold dropAll. by rewrite foldl_app.
    + done.
    + unfold updAll, rowsOf. by rewrite fmap_app, foldl_app, Et.
Qed.

Lemma flushRun_spec queue first w :
  wflush first = None →
  ∃ rest next done w', flushRun c queue first w = Some ((rest, next), w') ∧
    first :: queue = (first :: done) ++ option_list next ++ rest ∧
    delivered w (applyTasks (l2rows (wL2 w)) (first :: done)) (markers (first :: done)) w'.
Proof.
  intros Ef. unfold flushRun.
  assert (∀ sets deletes, run_ok first sets deletes → runOf first sets deletes (l2rows (wL2 w)) = applyTask (l2rows (wL2 w)) first →
    ∃ rest next done w', flushLoop c first queue sets deletes w = Some ((rest, next), w') ∧
      first :: queue = (first :: done) ++ option_list next ++ rest ∧
      delivered w (applyTasks (l2rows (wL2 w)) (first :: done)) (markers (first :: done)) w') as Hgo.
  { intros sets deletes Hr Hs. destruct (flushLoop_spec first queue sets deletes w Hr) as (rest & next & dn & w' & E' & -> & Hd).
    exists rest, next, dn, w'. split_and!; [done|done|]. unfold markers. cbn [omap list_omap applyTasks foldl]. rewrite Ef.
    by rewrite <- Hs. }
  unfold run_ok, runOf, applyTask in Hgo. rewrite Ef in Hgo. destruct (wdel first); by apply Hgo.
Qed.

Lemma flushWriteLoop_spec fuel : ∀ queue first w,
  (length queue < fuel)%nat →
  ∃ rest done w', flushWriteLoop c fuel queue first w = Some (rest, w') ∧ first :: queue = done ++ rest ∧ done ≠ [] ∧
    delivered w (applyTasks (l2rows (wL2 w)) done) (markers done) w'.
Proof.
  induction fuel as [|fuel IH]; intros queue first w Hf; [lia|]. cbn [flushWriteLoop].
  destruct (wflush first) as [n|] eqn:Ef.
  { exists queue, [first], (logReleased w n). split_and!; [done|done|done|]. unfold markers. cbn [omap list_omap applyTasks foldl].
    rewrite Ef. split_and!; [by split|done|]. intros k. unfold applyTask. by rewrite Ef. }
  case_match eqn:Eb.
  { destruct (writeBatch_spec [(wkey first, wvalue first)] (wttl first) w) as (w' & E' & Hd).
    unfold mbind, M_bind. rewrite E'. exists queue, [first], w'. split_and!; [done|done|done|].
    apply andb_true_iff in Eb as [Ed%negb_true_iff _]. unfold markers. cbn [omap list_omap]. rewrite Ef.
    cbn [applyTasks foldl]. unfold applyTask. by rewrite Ef, Ed. }
  destruct (flushRun_spec queue first w Ef) as (rest & next & dn & w' & E' & Eq & Hd).
  unfold mbind, M_bind. rewrite E'. injection Eq as Eq. destruct next as [t|]; cbn [option_list app] in Eq.
  - destruct (IH rest t w') as (rest' & dn' & w'' & E'' & Eq' & Hne & Hd'); [rewrite Eq, length_app in Hf; cbn in Hf; lia|].
    exists rest', (first :: dn ++ dn'), w''. split_and!; [done| |done|].
    + rewrite Eq. cbn. by rewrite <- app_assoc, <- Eq'.
    + pose proof (delivered_trans _ _ _ _ _ _ _ Hd Hd') as Hall. unfold markers in *.
      change (first :: dn ++ dn') with ((first :: dn) ++ dn'). rewrite omap_app.
      destruct Hall as (H1 & H2 & H3). split_and!; [done|done|]. intros k. rewrite H3, applyTasks_app.
      apply applyTasks_ext. apply Hd.
  - exists rest, (first :: dn), w'. split_and!; [done| |done|done]. cbn. by rewrite Eq.
Qed.

End Laws.
