(* ===== verification/Panics.v ===== *)
(** * Panics on the write-back workers (cache.go: notifyPanic, recoverWorker, recoverWriteBack, flushWrite, writeBackLoop)

    The second level is code of the caller, and so are the handlers: each of their calls may panic.  Here a computation
    ends with a value or with a panic that unwinds to the next deferred recover.  The worker's queue is part of the state,
    since a task taken from it is gone when a panic unwinds past it. *)

From S2P Require Import Prelude Item Table Policy Shard ShardSpec Config Stats CacheState WriteBack.

(** The calls a write-back worker makes. *)
Inductive L2Call (K V : Type) :=
| CallSet (key : K) (value : V) (ttl : Z) | CallBatchSet (items : list (K * V)) (ttl : Z)
| CallDelete (key : K) | CallBatchDelete (keys : list K).
Arguments CallSet {K V}.
Arguments CallBatchSet {K V}.
Arguments CallDelete {K V}.
Arguments CallBatchDelete {K V}.

(** What [OnL2Error] is given: an error of the second level, or [ErrPanic] with what was thrown. *)
Inductive reported (E X : Type) := ReportError (e : E) | ReportPanic (thrown : X).
Arguments ReportError {E X}.
Arguments ReportPanic {E X}.

Inductive heard (K E X : Type) := OnL2ErrorHeard (key : K) (err : reported E X) | OnPanicHeard (recovered : X) (handled : bool).
Arguments OnL2ErrorHeard {K E X}.
Arguments OnPanicHeard {K E X}.

(** The state of one worker, with the calls it made, whether each panicked, and what the handlers heard. *)
Record Worker (K V L E X : Type) := mkWorker {
  kL2 : L; kQueue : list (l2Write K V); kReleased : list nat; kCalls : list (L2Call K V * bool); kHeard : list (heard K E X)
}.
Arguments mkWorker {K V L E X}.
Arguments kL2 {K V L E X}.
Arguments kQueue {K V L E X}.
Arguments kReleased {K V L E X}.
Arguments kCalls {K V L E X}.
Arguments kHeard {K V L E X}.

(** ** Computations that may panic *)

(** [None] is a loop that ran out of fuel; [inl] a panic. *)
Definition PM (S X A : Type) : Type := S → option (S * (X + A)).

#[global] Instance PM_ret S X : MRet (PM S X) := λ A a s, Some (s, inr a).
#[global] Instance PM_bind S X : MBind (PM S X) := λ A B f m s,
  match m s with
  | None => None
  | Some (s, inl x) => Some (s, inl x)
  | Some (s, inr a) => f a s
  end.

(** A function with a deferred [recover]. *)
Definition recovering {S X A} (m : PM S X A) (handler : X → PM S X A) : PM S X A := λ s,
  match m s with Some (s, inl x) => handler x s | r => r end.

(** A function with another deferred call, which cannot fail. *)
Definition deferring {S X A} (m : PM S X A) (d : S → S) : PM S X A := λ s,
  match m s with None => None | Some (s, r) => Some (d s, r) end.

Fixpoint forP {S X A} (l : list A) (f : A → PM S X ()) : PM S X () :=
  match l with [] => mret () | x :: l => f x ≫= λ _, forP l f end.

Section Panics.
Context {K V L E X : Type}.
Context (adapter : L → L2Call K V → L * (X + option E)).
(** A handler panics or not, as it likes after what was heard before. *)
Context (onL2Error : option (list (heard K E X) → K → reported E X → option X)).
Context (onPanic : option (list (heard K E X) → X → bool → option X)).
Context (batching : WriteBackBatching) (queueCap : nat).
Abbreviation W := (Worker K V L E X).
Abbreviation task := (l2Write K V).
Abbreviation P := (PM W X).
Implicit Types (s : W) (key : K) (first : task).

Definition hear s (h : heard K E X) : W := mkWorker (kL2 s) (kQueue s) (kReleased s) (kCalls s) (kHeard s ++ [h]).
Definition releaseMarker (n : nat) s : W := mkWorker (kL2 s) (kQueue s) (kReleased s ++ [n]) (kCalls s) (kHeard s).

Definition pCall (call : L2Call K V) : P (option E) := λ s,
  let '(l, r) := adapter (kL2 s) call in
  let panicked := match r with inl _ => true | inr _ => false end in
  Some (mkWorker l (kQueue s) (kReleased s) (kCalls s ++ [(call, panicked)]) (kHeard s), r).

(** A receive that does not block. *)
Definition takeTask : P (option task) := λ s,
  match kQueue s with
  | [] => Some (s, inr None)
  | t :: q => Some (mkWorker (kL2 s) q (kReleased s) (kCalls s) (kHeard s), inr (Some t))
  end.

Definition queueLen : P nat := λ s, Some (s, inr (length (kQueue s))).

(** A call of a handler. *)
Definition handlerCall (h : heard K E X) (thrown : list (heard K E X) → option X) : P () := λ s,
  Some (hear s h, match thrown (kHeard s) with Some x => inl x | None => inr () end).

Definition pReportL2Err key (err : reported E X) : P () :=
  match onL2Error with
  | None => mret ()
  | Some handler => handlerCall (OnL2ErrorHeard key err) (λ log, handler log key err)
  end.

Definition notifyPanic (recovered : X) (handled : bool) : P () :=
  match onPanic with
  | None => mret ()
  | Some handler =>
    recovering (handlerCall (OnPanicHeard recovered handled) (λ log, handler log recovered handled)) (λ _, mret ())
  end.

Definition recoverWorker (body : P ()) : P () := recovering body (λ r, notifyPanic r false).

Definition recoverWriteBack key (body : P ()) : P () :=
  recovering body (λ r,
    match onL2Error with
    | None => notifyPanic r false
    | Some _ => recoverWorker (pReportL2Err key (ReportPanic r) ≫= λ _, notifyPanic r true)
    end).

Definition reportIf (err : option E) key : P () :=
  match err with None => mret () | Some e => pReportL2Err key (ReportError e) end.

Definition pWriteBatch (batch : list (K * V)) (ttl : Z) : P () :=
  match batch with
  | [(key, value)] => pCall (CallSet key value ttl) ≫= λ err, reportIf err key
  | _ => pCall (CallBatchSet batch ttl) ≫= λ err, match err with None => mret () | Some _ => forP batch (λ item, reportIf err item.1) end
  end.

Definition pDeleteBatch (keys : list K) : P () :=
  match keys with
  | [key] => pCall (CallDelete key) ≫= λ err, reportIf err key
  | _ => pCall (CallBatchDelete keys) ≫= λ err, match err with None => mret () | Some _ => forP keys (reportIf err) end
  end.

Definition pDeliverRun (sets : list (K * V)) (deletes : list K) (ttl : Z) : P () :=
  match deletes with [] => pWriteBatch sets ttl | _ => pDeleteBatch deletes end.

(** The loop of [flushRun]; [room] is how many tasks the run may still take, and the answer the task that ended the run if it
    is to start the next one. *)
Fixpoint pFlushLoop (first : task) (room : nat) (sets : list (K * V)) (deletes : list K) : P (option task) :=
  let deliver := pDeliverRun sets deletes (wttl first) in
  match room with
  | O => deliver ≫= λ _, mret None
  | S room =>
    takeTask ≫= λ t,
    match t with
    | None => deliver ≫= λ _, mret None
    | Some write =>
      match wflush write with
      | Some marker => deferring (deliver ≫= λ _, mret None) (releaseMarker marker)
      | None =>
        if negb (Bool.eqb (wdel write) (wdel first)) || negb (wttl write =? wttl first) then deliver ≫= λ _, mret (Some write)
        else if wdel write then pFlushLoop first room sets (deletes ++ [wkey write])
        else pFlushLoop first room (sets ++ [(wkey write, wvalue write)]) deletes
      end
    end
  end.

Definition pFlushRun (first : task) : P (option task) :=
  if wdel first then pFlushLoop first (WriteBackBatchMax - 1) [] [wkey first]
  else pFlushLoop first (WriteBackBatchMax - 1) [(wkey first, wvalue first)] [].

Fixpoint pFlushWriteLoop (fuel : nat) (first : task) : P () :=
  match fuel with
  | O => λ _, None
  | S fuel =>
    match wflush first with
    | Some marker => λ s, Some (releaseMarker marker s, inr ())
    | None =>
      queueLen ≫= λ len,
      if negb (wdel first) &&
         (bool_decide (batching = BatchingNone) || (bool_decide (batching = BatchingAdaptive) && (len <=? queueCap / 2)%nat))
      then pWriteBatch [(wkey first, wvalue first)] (wttl first)
      else pFlushRun first ≫= λ next, match next with None => mret () | Some first => pFlushWriteLoop fuel first end
    end
  end.

(** The deferred call is given the key of the task the turn began with. *)
Definition pFlushWrite (first : task) : P () :=
  recoverWriteBack (wkey first) (λ s, pFlushWriteLoop (S (length (kQueue s))) first s).

Fixpoint pDrainLoop (fuel : nat) : P () :=
  match fuel with
  | O => λ _, None
  | S fuel => takeTask ≫= λ t, match t with None => mret () | Some write => pFlushWrite write ≫= λ _, pDrainLoop fuel end
  end.

(** [writeBackLoop] once the cache stops: the queue is drained under the deferred [recoverWorker]. *)
Definition writeBackDrain : P () := recoverWorker (λ s, pDrainLoop (S (length (kQueue s))) s).

End Panics.

(** ** What a worker does with its queue, whatever panics *)

(** What a task asks of the second level, and what a call asks. *)
Inductive demand (K V : Type) := Store (key : K) (value : V) (ttl : Z) | Drop (key : K).
Arguments Store {K V}.
Arguments Drop {K V}.

Definition demandOf {K V} (t : l2Write K V) : option (demand K V) :=
  match wflush t with
  | Some _ => None
  | None => Some (if wdel t then Drop (wkey t) else Store (wkey t) (wvalue t) (wttl t))
  end.

Definition demandsOf {K V} (call : L2Call K V) : list (demand K V) :=
  match call with
  | CallSet key value ttl => [Store key value ttl]
  | CallBatchSet items ttl => (λ item, Store item.1 item.2 ttl) <$> items
  | CallDelete key => [Drop key]
  | CallBatchDelete keys => Drop <$> keys
  end.

Section Laws.
Context {K V L E X : Type}.
Context (adapter : L → L2Call K V → L * (X + option E)).
Context (onL2Error : option (list (heard K E X) → K → reported E X → option X)).
Context (onPanic : option (list (heard K E X) → X → bool → option X)).
Context (batching : WriteBackBatching) (queueCap : nat).
Abbreviation W := (Worker K V L E X).
Abbreviation task := (l2Write K V).
Abbreviation P := (PM W X).
Implicit Types (s : W) (key : K) (first : task).

(** The computation ends, in a state and with an outcome that satisfy [Q]. *)
Definition ends {A} (m : P A) s (Q : W → X + A → Prop) : Prop := ∃ s' r, m s = Some (s', r) ∧ Q s' r.

Lemma ends_bind {A B} (m : P A) (f : A → P B) s (Q : W → X + B → Prop) :
  ends m s (λ s' r, match r with inl x => Q s' (inl x) | inr a => ends (f a) s' Q end) → ends (m ≫= f) s Q.
Proof.
  intros (s1 & r & E1 & H). unfold ends, mbind, PM_bind. rewrite E1. destruct r as [x|a]; [by exists s1, (inl x)|exact H].
Qed.

Lemma ends_weaken {A} (m : P A) s (Q Q' : W → X + A → Prop) : (∀ s' r, Q s' r → Q' s' r) → ends m s Q → ends m s Q'.
Proof. intros H (s' & r & E1 & HQ). exists s', r. auto. Qed.

(** What only the handlers saw. *)
Definition only_heard s s' : Prop :=
  kL2 s' = kL2 s ∧ kQueue s' = kQueue s ∧ kReleased s' = kReleased s ∧ kCalls s' = kCalls s ∧ ∃ h, kHeard s' = kHeard s ++ h.

Lemma only_heard_refl s : only_heard s s.
Proof. repeat split. exists []. by rewrite app_nil_r. Qed.

Lemma only_heard_trans s1 s2 s3 : only_heard s1 s2 → only_heard s2 s3 → only_heard s1 s3.
Proof.
  intros (A1 & A2 & A3 & A4 & h & A5) (B1 & B2 & B3 & B4 & h' & B5). repeat split; [congruence..|].
  exists (h ++ h'). by rewrite B5, A5, app_assoc.
Qed.

Lemma only_heard_hear s h : only_heard s (hear s h).
Proof. repeat split. by exists [h]. Qed.

Lemma handlerCall_ends h thrown s : ends (handlerCall h thrown) s (λ s' _, s' = hear s h).
Proof. unfold ends, handlerCall. eauto. Qed.

Lemma pReportL2Err_ends key err s : ends (pReportL2Err onL2Error key err) s (λ s' _, only_heard s s').
Proof.
  unfold pReportL2Err. destruct onL2Error as [h|]; [|exists s, (inr ()); split; [done|apply only_heard_refl]].
  eapply ends_weaken, handlerCall_ends. intros s' r ->. apply only_heard_hear.
Qed.

Lemma reportIf_ends err key s : ends (reportIf onL2Error err key) s (λ s' _, only_heard s s').
Proof. destruct err; [apply pReportL2Err_ends|]. exists s, (inr ()). split; [done|apply only_heard_refl]. Qed.

Lemma forP_ends {A} (l : list A) (f : A → P ()) :
  (∀ x s, ends (f x) s (λ s' _, only_heard s s')) → ∀ s, ends (forP l f) s (λ s' _, only_heard s s').
Proof.
  intros Hf. induction l as [|x l IH]; intros s; [exists s, (inr ()); split; [done|apply only_heard_refl]|].
  cbn [forP]. apply ends_bind. eapply ends_weaken, Hf. intros s1 [p|[]] H1; [done|].
  eapply ends_weaken, IH. intros s2 r. by apply only_heard_trans.
Qed.

Lemma notifyPanic_ends x b s :
  ends (notifyPanic onPanic x b) s (λ s' r, r = inr () ∧ s' = match onPanic with Some _ => hear s (OnPanicHeard x b) | None => s end).
Proof.
  unfold notifyPanic, ends, recovering, handlerCall. destruct onPanic as [h|]; [|by exists s, (inr ())].
  destruct (h (kHeard s) x b); eauto.
Qed.

(** ** Deliveries *)

(** One call was made, for the given demands; if it panicked, so does the delivery. *)
Definition one_call s (ds : list (demand K V)) s' (panics : bool) : Prop :=
  kQueue s' = kQueue s ∧ kReleased s' = kReleased s ∧ (∃ h, kHeard s' = kHeard s ++ h) ∧
  ∃ call b, kCalls s' = kCalls s ++ [(call, b)] ∧ demandsOf call = ds ∧ (b = true → panics = true).

Definition isPanic {A} (r : X + A) : bool := match r with inl _ => true | inr _ => false end.

Lemma one_call_heard s ds s1 s2 b : one_call s ds s1 false → only_heard s1 s2 → one_call s ds s2 b.
Proof.
  intros (A1 & A2 & (h & A3) & call & b' & A4 & A5 & A6) (B1 & B2 & B3 & B4 & h' & B5). split_and!; [congruence..| |].
  - exists (h ++ h'). by rewrite B5, A3, app_assoc.
  - exists call, b'. split_and!; [congruence|done|]. intros ->. by specialize (A6 eq_refl).
Qed.

Lemma pCall_then call (f : option E → P ()) s :
  (∀ e s1, ends (f e) s1 (λ s' _, only_heard s1 s')) →
  ends (pCall adapter call ≫= f) s (λ s' r, one_call s (demandsOf call) s' (isPanic r)).
Proof.
  intros Hf. apply ends_bind. unfold ends at 1, pCall. destruct (adapter (kL2 s) call) as [l r].
  eexists _, r. split; [reflexivity|].
  assert (∀ b, let p := match r with inl _ => true | inr _ => false end in (p = true → b = true) →
    one_call s (demandsOf call) (mkWorker l (kQueue s) (kReleased s) (kCalls s ++ [(call, p)]) (kHeard s)) b) as H1.
  { intros b p Hp. split_and!; [done|done|exists []; by rewrite app_nil_r|]. by exists call, p. }
  destruct r as [x|e]; [by apply H1|]. eapply ends_weaken, Hf. intros s' r Hs. eapply one_call_heard, Hs. by apply H1.
Qed.

Lemma ends_return s : ends (mret () : P ()) s (λ s' _, only_heard s s').
Proof. exists s, (inr ()). split; [done|apply only_heard_refl]. Qed.

(** The demands of a run. *)
Definition runDemands (sets : list (K * V)) (deletes : list K) (ttl : Z) : list (demand K V) :=
  match deletes with [] => (λ item, Store item.1 item.2 ttl) <$> sets | _ => Drop <$> deletes end.

Lemma pWriteBatch_ends batch ttl s :
  ends (pWriteBatch adapter onL2Error batch ttl) s (λ s' r, one_call s ((λ item, Store item.1 item.2 ttl) <$> batch) s' (isPanic r)).
Proof.
  assert (ends (pCall adapter (CallBatchSet batch ttl) ≫= λ err, match err with None => mret () | Some _ => forP batch (λ item, reportIf onL2Error err item.1) end) s
    (λ s' r, one_call s ((λ item, Store item.1 item.2 ttl) <$> batch) s' (isPanic r))) as Hmany.
  { apply (pCall_then (CallBatchSet batch ttl)). intros [e|] s1; [|apply ends_return]. apply forP_ends. intros. apply reportIf_ends. }
  destruct batch as [|[key value] [|]]; [exact Hmany| |exact Hmany].
  apply (pCall_then (CallSet key value ttl)). intros. apply reportIf_ends.
Qed.

Lemma pDeleteBatch_ends keys s : ends (pDeleteBatch adapter onL2Error keys) s (λ s' r, one_call s (Drop <$> keys) s' (isPanic r)).
Proof.
  assert (ends (pCall adapter (CallBatchDelete keys) ≫= λ err, match err with None => mret () | Some _ => forP keys (reportIf onL2Error err) end) s
    (λ s' r, one_call s (Drop <$> keys) s' (isPanic r))) as Hmany.
  { apply (pCall_then (CallBatchDelete keys)). intros [e|] s1; [|apply ends_return]. apply forP_ends. intros. apply reportIf_ends. }
  destruct keys as [|key [|]]; [exact Hmany| |exact Hmany]. apply (pCall_then (CallDelete key)). intros. apply reportIf_ends.
Qed.

Lemma pDeliverRun_ends sets deletes ttl s :
  ends (pDeliverRun adapter onL2Error sets deletes ttl) s (λ s' r, one_call s (runDemands sets deletes ttl) s' (isPanic r)).
Proof. destruct deletes; [apply pWriteBatch_ends|apply pDeleteBatch_ends]. Qed.

(** ** Runs *)

Definition flushed s s' (taken : list task) (calls : list (L2Call K V * bool)) : Prop :=
  kQueue s = taken ++ kQueue s' ∧ kReleased s' = kReleased s ++ markers taken ∧ kCalls s' = kCalls s ++ calls ∧
  ∃ h, kHeard s' = kHeard s ++ h.

Lemma flushed_trans s s1 s2 t1 t2 c1 c2 : flushed s s1 t1 c1 → flushed s1 s2 t2 c2 → flushed s s2 (t1 ++ t2) (c1 ++ c2).
Proof.
  intros (A1 & A2 & A3 & h & A4) (B1 & B2 & B3 & h' & B4). unfold flushed, markers in *. rewrite omap_app. split_and!.
  - by rewrite A1, B1, app_assoc.
  - by rewrite B2, A2, app_assoc.
  - by rewrite B3, A3, app_assoc.
  - exists (h ++ h'). by rewrite B4, A4, app_assoc.
Qed.

Lemma one_call_flushed s ds s' p : one_call s ds s' p →
  ∃ call b, flushed s s' [] [(call, b)] ∧ demandsOf call = ds ∧ (b = true → p = true).
Proof.
  intros (A1 & A2 & A3 & call & b & A4 & A5 & A6). exists call, b. unfold flushed. cbn. rewrite app_nil_r. by rewrite A1.
Qed.

(** The demands of the run and of the tasks it took are those of its call, and of the task that ended it, if it was no marker. *)
Definition ran (ds : list (demand K V)) s s' (r : X + option task) : Prop :=
  ∃ taken lost call b, flushed s s' taken [(call, b)] ∧ ds ++ omap demandOf taken = demandsOf call ++ lost ∧ (b = true → isPanic r = true) ∧
  match r with
  | inl _ => (length lost ≤ 1)%nat
  | inr None => lost = []
  | inr (Some next) => taken ≠ [] ∧ wflush next = None ∧ omap demandOf [next] = lost
  end.

Definition popped s (q : list task) : W := mkWorker (kL2 s) q (kReleased s) (kCalls s) (kHeard s).

Lemma popped_flushed s t q : kQueue s = t :: q → wflush t = None → flushed s (popped s q) [t] [].
Proof. intros Hq Ht. unfold flushed, markers. cbn. rewrite Ht, Hq, !app_nil_r. by split_and!; [..|exists []; rewrite app_nil_r]. Qed.

Lemma deliver_ran ds s s1 sets deletes ttl (next : option task) taken :
  flushed s s1 taken [] → ds ++ omap demandOf taken = runDemands sets deletes ttl ++ omap demandOf (option_list next) →
  (∀ n, next = Some n → taken ≠ [] ∧ wflush n = None) →
  ends (pDeliverRun adapter onL2Error sets deletes ttl ≫= λ _, mret next) s1 (ran ds s).
Proof.
  intros Hf Hds Hn. apply ends_bind. eapply ends_weaken, pDeliverRun_ends. intros s2 r Hone.
  destruct (one_call_flushed _ _ _ _ Hone) as (call & b & Hf2 & Hd & Hb). pose proof (flushed_trans _ _ _ _ _ _ _ Hf Hf2) as Hf3.
  rewrite app_nil_r in Hf3. rewrite <- Hd in Hds.
  destruct r as [x|[]]; [|exists s2, (inr next); split; [done|]]; exists taken, (omap demandOf (option_list next)), call, b; split_and!; try done.
  - destruct next as [n|]; cbn; [|lia]. destruct (demandOf n); cbn; lia.
  - destruct next as [n|]; [|done]. by destruct (Hn n eq_refl).
Qed.

(** A marker that ends a run is released when the delivery is over, however it ended. *)
Lemma deliver_marker sets deletes ttl s write q marker :
  kQueue s = write :: q → wflush write = Some marker →
  ends (deferring (pDeliverRun adapter onL2Error sets deletes ttl ≫= λ _, mret None) (releaseMarker marker)) (popped s q)
    (ran (runDemands sets deletes ttl) s).
Proof.
  intros Hq Hm. destruct (pDeliverRun_ends sets deletes ttl (popped s q)) as (s2 & r & E2 & A1 & A2 & A3 & call & b & A4 & A5 & A6).
  exists (releaseMarker marker s2), (match r with inl x => inl x | inr _ => inr None end). split.
  { unfold deferring, mbind, PM_bind. rewrite E2. by destruct r. }
  exists [write], [], call, b. split_and!; [|cbn; unfold demandOf; by rewrite Hm, A5| |by destruct r; cbn; try lia].
  - unfold flushed, markers. cbn. by rewrite Hm, Hq, A1, A2.
  - intros Hb. specialize (A6 Hb). by destruct r.
Qed.

Definition run_shape first (deletes : list K) : Prop := if wdel first then deletes ≠ [] else deletes = [].

Lemma ran_more ds ds' s s1 taken s2 r :
  flushed s s1 taken [] → ds ++ omap demandOf taken = ds' → ran ds' s1 s2 r → ran ds s s2 r.
Proof.
  intros Hf <- (taken' & lost & call & b & Hf' & Hds & Hb & Hr). exists (taken ++ taken'), lost, call, b.
  split_and!; [apply (flushed_trans _ _ _ _ _ _ _ Hf Hf')|by rewrite omap_app, app_assoc|done|].
  destruct r as [x|[next|]]; [done| |done]. destruct Hr as (Ht & Hn & Hl). split_and!; [|done|done]. by destruct taken, taken'.
Qed.

Lemma pFlushLoop_ends first room : ∀ sets deletes s, run_shape first deletes →
  ends (pFlushLoop adapter onL2Error first room sets deletes) s (ran (runDemands sets deletes (wttl first)) s).
Proof.
  assert (∀ s, flushed s s [] []) as Hrefl.
  { intros s. unfold flushed. cbn. rewrite !app_nil_r. by split_and!; [..|exists []; rewrite app_nil_r]. }
  induction room as [|room IH]; intros sets deletes s Hs; cbn [pFlushLoop].
  - by apply (deliver_ran _ _ _ _ _ _ None []).
  - apply ends_bind. unfold ends at 1, takeTask. destruct (kQueue s) as [|write q] eqn:Eq.
    { eexists _, _. split; [done|]. by apply (deliver_ran _ _ _ _ _ _ None []). }
    eexists _, _. split; [done|]. cbv beta iota. destruct (wflush write) as [marker|] eqn:Em.
    + by apply (deliver_marker _ _ _ s write).
    + pose proof (popped_flushed s write q Eq Em) as Hp. destruct (negb _ || negb _) eqn:Ek.
      * apply (deliver_ran _ _ _ _ _ _ (Some write) [write]); [done|by cbn|]. intros n [= <-]. by split.
      * apply orb_false_iff in Ek as [Ek1%negb_false_iff%eqb_prop Ek2%negb_false_iff%Z.eqb_eq].
        unfold run_shape in *. destruct (wdel write) eqn:Ed.
        -- eapply ends_weaken, (IH sets (deletes ++ [wkey write])); [|unfold run_shape; rewrite <- Ek1; by destruct deletes].
           intros s2 r. apply (ran_more _ _ _ _ [write]); [done|]. cbn. unfold demandOf. rewrite Em, Ed. rewrite <- Ek1 in Hs.
           destruct deletes; [done|]. cbn. by rewrite fmap_app.
        -- rewrite <- Ek1 in Hs. subst deletes. eapply ends_weaken, (IH (sets ++ [_]) []); [|unfold run_shape; by rewrite <- Ek1].
           intros s2 r. apply (ran_more _ _ _ _ [write]); [done|]. cbn. unfold demandOf. rewrite Em, Ed, Ek2. by rewrite fmap_app.
Qed.

(** ** Turns *)

Abbreviation calm := (Forall (λ c : L2Call K V * bool, c.2 = false)).

(** A turn that began with [first]: the tasks it took went to the second level in order, and the markers among them were released.  If
    it panicked, so did something in its last delivery, and the task that ended that run may be lost. *)
Definition turned first s s' (r : X + ()) : Prop :=
  ∃ taken lost calls,
    kQueue s = taken ++ kQueue s' ∧ kReleased s' = kReleased s ++ markers (first :: taken) ∧ kCalls s' = kCalls s ++ calls ∧
    (∃ h, kHeard s' = kHeard s ++ h) ∧ omap demandOf (first :: taken) = (calls ≫= λ c, demandsOf c.1) ++ lost ∧
    match r with
    | inr _ => lost = [] ∧ calm calls
    | inl _ => (length lost ≤ 1)%nat ∧ ∃ before c, calls = before ++ [c] ∧ calm before
    end.

Lemma calm_call (call : L2Call K V) b (r : X + ()) :
  (b = true → isPanic r = true) →
  match r with
  | inr _ => calm [(call, b)]
  | inl _ => ∃ before c, [(call, b)] = before ++ [c] ∧ calm before
  end.
Proof.
  intros Hb. destruct r as [x|[]]; [by exists [], (call, b)|]. constructor; [|done]. cbn. destruct b; [|done]. by specialize (Hb eq_refl).
Qed.

Lemma pFlushRun_ends first s : wflush first = None → ends (pFlushRun adapter onL2Error first) s (ran (omap demandOf [first]) s).
Proof.
  intros Hm. cbn. unfold pFlushRun, demandOf. rewrite Hm. destruct (wdel first) eqn:Ed.
  - apply (pFlushLoop_ends first _ [] [wkey first]). unfold run_shape. by rewrite Ed.
  - apply (pFlushLoop_ends first _ [(wkey first, wvalue first)] []). unfold run_shape. by rewrite Ed.
Qed.

(** The first run of a turn, and the rest of the turn. *)
Lemma run_then_turn first next s s1 s2 r :
  wflush first = None → ran (omap demandOf [first]) s s1 (inr (Some next)) → turned next s1 s2 r → turned first s s2 r.
Proof.
  intros Hm (t1 & lost1 & call & b & (F1 & F2 & F3 & h & F4) & Hd & Hb & Ht & Hn & <-) (t2 & lost & calls & A1 & A2 & A3 & (h' & A4) & A5 & A6).
  assert (b = false) as -> by (destruct b; [by specialize (Hb eq_refl)|done]).
  exists (t1 ++ t2), lost, ((call, false) :: calls). split_and!.
  - by rewrite F1, A1, app_assoc.
  - unfold markers in *. cbn in A2 |- *. rewrite Hn in A2. by rewrite Hm, omap_app, A2, F2, app_assoc.
  - by rewrite A3, F3, <- app_assoc.
  - exists (h ++ h'). by rewrite A4, F4, app_assoc.
  - change (omap demandOf (first :: t1 ++ t2)) with (omap demandOf ([first] ++ t1 ++ t2)). rewrite !omap_app, app_assoc, Hd. cbn [mbind list_bind fst].
    rewrite <- !app_assoc, <- A5. change (next :: t2) with ([next] ++ t2). by rewrite omap_app.
  - destruct r as [x|[]]; [|by destruct A6; split; [|constructor]].
    destruct A6 as (Hl & before & c & -> & Hc). split; [done|]. exists ((call, false) :: before), c. by split; [|constructor].
Qed.

Lemma last_run first s s1 (r : X + option task) :
  wflush first = None → ran (omap demandOf [first]) s s1 r → match r with inl _ | inr None => True | _ => False end →
  turned first s s1 (match r with inl x => inl x | inr _ => inr () end).
Proof.
  intros Hm (t1 & lost & call & b & (F1 & F2 & F3 & F4) & Hd & Hb & Hl) Hr. exists t1, lost, [(call, b)]. split_and!; try done.
  - unfold markers. cbn. by rewrite Hm.
  - change (first :: t1) with ([first] ++ t1). rewrite omap_app, Hd. cbn. by rewrite app_nil_r.
  - destruct r as [x|[n|]]; [|done|]; pose proof (calm_call call b) as Hc; [specialize (Hc (inl x) (λ _, eq_refl))|specialize (Hc (inr ()) Hb)]; done.
Qed.

Lemma pFlushWriteLoop_ends fuel : ∀ first s, (length (kQueue s) < fuel)%nat →
  ends (pFlushWriteLoop adapter onL2Error batching queueCap fuel first) s (turned first s).
Proof.
  induction fuel as [|fuel IH]; intros first s Hlen; [lia|]. cbn [pFlushWriteLoop]. destruct (wflush first) as [marker|] eqn:Em.
  - eexists _, _. split; [done|]. exists [], [], []. unfold markers, demandOf. cbn. rewrite Em. cbn. rewrite app_nil_r.
    split_and!; try done. exists []. by rewrite app_nil_r.
  - apply ends_bind. eexists s, _. split; [done|]. cbv beta iota. destruct (negb (wdel first) && _) eqn:Eb.
    + apply andb_prop in Eb as [Ed%negb_true_iff _]. eapply ends_weaken, pWriteBatch_ends. intros s' r Hone.
      destruct (one_call_flushed _ _ _ _ Hone) as (call & b & (F1 & F2 & F3 & F4) & Hd & Hb). exists [], [], [(call, b)].
      unfold markers, demandOf. cbn. rewrite Em, Ed, Hd. cbn. split_and!; try done.
      pose proof (calm_call call b r Hb). destruct r as [x|[]]; [|done]. split; [cbn; lia|done].
    + apply ends_bind. eapply ends_weaken, (pFlushRun_ends first s Em). intros s1 r Hran.
      destruct r as [x|[next|]]; [by apply (last_run first s s1 (inl x))| |eexists s1, _; split; [done|]; by apply (last_run first s s1 (inr None))].
      eapply ends_weaken, IH; [|]. 1: { intros s2 r. by apply run_then_turn. }
      destruct Hran as (t1 & lost & call & b & (F1 & _) & _ & _ & Ht & _). rewrite F1, length_app in Hlen. destruct t1; [done|]. cbn in Hlen. lia.
Qed.

(** What the handlers hear of a panic a turn recovered, after what they had heard before. *)
Definition toldPanic key (x : X) (log : list (heard K E X)) : list (heard K E X) :=
  match onL2Error with
  | None => match onPanic with Some _ => [OnPanicHeard x false] | None => [] end
  | Some handler =>
    OnL2ErrorHeard key (ReportPanic x) ::
    match onPanic with
    | None => []
    | Some _ => match handler log key (ReportPanic x) with Some y => [OnPanicHeard y false] | None => [OnPanicHeard x true] end
    end
  end.

Lemma notified x b s : ∃ s', notifyPanic onPanic x b s = Some (s', inr ()) ∧
  kQueue s' = kQueue s ∧ kReleased s' = kReleased s ∧ kCalls s' = kCalls s ∧
  kHeard s' = kHeard s ++ match onPanic with Some _ => [OnPanicHeard x b] | None => [] end.
Proof.
  destruct (notifyPanic_ends x b s) as (s' & r & E1 & -> & ->). eexists. split; [exact E1|]. destruct onPanic; [done|]. by rewrite app_nil_r.
Qed.

Lemma recoverWriteBack_recovers key (body : P ()) s s1 x : body s = Some (s1, inl x) →
  ∃ s', recoverWriteBack onL2Error onPanic key body s = Some (s', inr ()) ∧
    kQueue s' = kQueue s1 ∧ kReleased s' = kReleased s1 ∧ kCalls s' = kCalls s1 ∧ kHeard s' = kHeard s1 ++ toldPanic key x (kHeard s1).
Proof.
  intros E1. unfold recoverWriteBack, recovering, toldPanic, pReportL2Err. rewrite E1. destruct onL2Error as [handler|]; [|apply notified].
  unfold recoverWorker, recovering, handlerCall, mbind, PM_bind. set (s2 := hear s1 _).
  destruct (handler (kHeard s1) key (ReportPanic x)) as [y|].
  - destruct (notified y false s2) as (s' & -> & A1 & A2 & A3 & A4). exists s'. split_and!; [done..|]. rewrite A4. unfold s2. cbn.
    rewrite <- app_assoc. by destruct onPanic.
  - destruct (notified x true s2) as (s' & -> & A1 & A2 & A3 & A4). exists s'. split_and!; [done..|]. rewrite A4. unfold s2. cbn.
    rewrite <- app_assoc. by destruct onPanic.
Qed.

(** A turn returns, whatever it called. *)
Definition contained first s s' : Prop :=
  ∃ taken lost calls,
    kQueue s = taken ++ kQueue s' ∧ kReleased s' = kReleased s ++ markers (first :: taken) ∧ kCalls s' = kCalls s ++ calls ∧
    omap demandOf (first :: taken) = (calls ≫= λ c, demandsOf c.1) ++ lost ∧
    (lost = [] ∧ calm calls ∧ (∃ h, kHeard s' = kHeard s ++ h) ∨
     (length lost ≤ 1)%nat ∧ (∃ before c, calls = before ++ [c] ∧ calm before) ∧
     ∃ x h, kHeard s' = kHeard s ++ h ++ toldPanic (wkey first) x (kHeard s ++ h)).

Lemma pFlushWrite_contained first s :
  ∃ s', pFlushWrite adapter onL2Error onPanic batching queueCap first s = Some (s', inr ()) ∧ contained first s s'.
Proof.
  unfold pFlushWrite. destruct (pFlushWriteLoop_ends (S (length (kQueue s))) first s ltac:(lia))
    as (s1 & r & E1 & taken & lost & calls & A1 & A2 & A3 & (h & A4) & A5 & A6). destruct r as [x|[]].
  - destruct (recoverWriteBack_recovers (wkey first) (λ s, pFlushWriteLoop adapter onL2Error batching queueCap (S (length (kQueue s))) first s) s s1 x E1)
      as (s' & E2 & B1 & B2 & B3 & B4). exists s'. split; [done|]. exists taken, lost, calls. split_and!; [congruence..|done|right].
    destruct A6 as [Hl Hc]. split_and!; [done|done|]. exists x, h. by rewrite B4, A4, app_assoc.
  - exists s1. split; [unfold recoverWriteBack, recovering; by rewrite E1|]. exists taken, lost, calls. split_and!; [done..|left]. destruct A6. split_and!; [done|done|by exists h].
Qed.

Lemma pDrainLoop_drains fuel : ∀ s, (length (kQueue s) < fuel)%nat →
  ∃ s', pDrainLoop adapter onL2Error onPanic batching queueCap fuel s = Some (s', inr ()) ∧ kQueue s' = [] ∧
    kReleased s' = kReleased s ++ markers (kQueue s).
Proof.
  induction fuel as [|fuel IH]; intros s Hlen; [lia|]. cbn [pDrainLoop]. unfold mbind, PM_bind, takeTask.
  destruct (kQueue s) as [|t q] eqn:Eq; [exists s; split_and!; [done|done|by rewrite app_nil_r]|].
  destruct (pFlushWrite_contained t (popped s q)) as (s1 & E1 & taken & lost & calls & A1 & A2 & _). unfold popped in E1. rewrite E1. cbn [kQueue popped] in A1.
  destruct (IH s1) as (s2 & E2 & Hq & Hr); [rewrite A1, length_cons, length_app in Hlen; lia|]. exists s2. split_and!; [done|done|].
  rewrite Hr, A2. cbn [kReleased popped]. rewrite A1. unfold markers. change (t :: taken ++ kQueue s1) with ((t :: taken) ++ kQueue s1). by rewrite omap_app, app_assoc.
Qed.

(** C30: Whatever the second level and the handlers do, panics included, a turn of a write-back worker returns, and so does the
    drain when the cache stops, so the worker lives.  A turn takes tasks from the front of the queue and releases every
    checkpoint among them; their writes and deletes reach the second level in order, in the calls it makes.  Only the last delivery of a
    turn can panic; the handlers are then told once, with the key the turn began with, and besides that delivery at most one
    task, the one that ended its run, is lost.  The drain leaves no task and no checkpoint behind. *)
Theorem panics_contained s :
  (∀ first, ∃ s', pFlushWrite adapter onL2Error onPanic batching queueCap first s = Some (s', inr ()) ∧ contained first s s') ∧
  ∃ s', writeBackDrain adapter onL2Error onPanic batching queueCap s = Some (s', inr ()) ∧ kQueue s' = [] ∧
    kReleased s' = kReleased s ++ markers (kQueue s).
Proof.
  split; [intros first; apply pFlushWrite_contained|].
  destruct (pDrainLoop_drains (S (length (kQueue s))) s ltac:(lia)) as (s' & E1 & H). exists s'. split; [|done].
  unfold writeBackDrain, recoverWorker, recovering. by rewrite E1.
Qed.

End Laws.

(** A panicking batch takes the task that ended its run with it: the delete is never made, and nobody is told. *)
Example panic_loses_next_task :
  let adapter := λ (l : list (L2Call nat nat)) call, match call with CallBatchSet _ _ => (l, inl 7%nat) | _ => (l ++ [call], inr (None : option nat)) end in
  let tasks := [mkWrite 2 20 0 None false; mkWrite 3 0 0 None true; mkWrite 4 40 0 (Some 9) false]%nat in
  match pFlushWrite adapter (Some (λ _ _ _, None)) (Some (λ _ _ _, None)) BatchingFull 8 (mkWrite 1 10 0 None false)%nat (mkWorker [] tasks [] [] []) with
  | Some (s', inr ()) => kQueue s' = [mkWrite 4 40 0 (Some 9) false]%nat ∧ kL2 s' = [] ∧
      kHeard s' = [OnL2ErrorHeard 1%nat (ReportPanic 7%nat); OnPanicHeard 7%nat true]
  | _ => False
  end.
Proof. vm_compute. done. Qed.

(** ** Without panics it is the worker of WriteBack *)

Section Calm.
Context {K V P L E X : Type} `{!EqDecision K} `{!GoType K} `{!GoType V}.
Context `{!EvictionPolicy K V P} `{!L2Cache K V L E} (c : Consts K V).
Abbreviation W := (World K V P L E).
Abbreviation task := (l2Write K V).

(** A second level that returns. *)
Definition returning (l : L) (call : L2Call K V) : L * (X + option E) :=
  let '(l, err) :=
    match call with
    | CallSet key value ttl => l2Set l key value ttl
    | CallBatchSet items ttl => l2BatchSet l items ttl
    | CallDelete key => l2Delete l key
    | CallBatchDelete keys => l2BatchDelete l keys
    end in (l, inr err).

Definition quiet : option (list (heard K E X) → K → reported E X → option X) :=
  if kOnL2Error c then Some (λ _ _ _, None) else None.

Definition same (w : W) (s : Worker K V L E X) : Prop :=
  kL2 s = wL2 w ∧ kReleased s = wReleased w ∧ kHeard s = (λ ke, OnL2ErrorHeard ke.1 (ReportError ke.2)) <$> wErrors w.

(** The computation of the cache's state and that of the worker end alike; [rel] relates their results and the worker's queue. *)
Definition alike {A B} (m : M W A) (p : PM (Worker K V L E X) X B) (w : W) (s : Worker K V L E X) (rel : A → list task → B → Prop) : Prop :=
  same w s → ∀ a w', m w = Some (a, w') → ∃ s' b, p s = Some (s', inr b) ∧ same w' s' ∧ rel a (kQueue s') b.

Lemma alike_ret {A B} (a : A) (b : B) w s (rel : A → list task → B → Prop) : rel a (kQueue s) b → alike (mret a) (mret b) w s rel.
Proof. intros Hr Hs a' w' [= <- <-]. by exists s, b. Qed.

Lemma alike_bind {A B A' B'} (m : M W A) (f : A → M W A') (p : PM _ X B) (g : B → PM _ X B') w s rel rel' :
  alike m p w s rel → (∀ a b w' s', rel a (kQueue s') b → alike (f a) (g b) w' s' rel') → alike (m ≫= f) (p ≫= g) w s rel'.
Proof.
  intros Hm Hf Hs a' w' E1. unfold mbind, M_bind in E1. destruct (m w) as [[a w1]|] eqn:E2; [|done].
  destruct (Hm Hs a w1 E2) as (s1 & b & E3 & Hs1 & Hr). unfold mbind, PM_bind. rewrite E3. by apply (Hf a b w1 s1 Hr Hs1).
Qed.

Lemma alike_report q key err w s : kQueue s = q →
  alike (CacheState.reportL2Err c key err) (reportIf quiet err key) w s (λ _ q' _, q' = q).
Proof.
  intros Hq. destruct err as [e|]; [|by apply alike_ret]. unfold reportIf, pReportL2Err, quiet. intros (A1 & A2 & A3) [] w' [= <-].
  destruct (kOnL2Error c); [|by exists s, ()]. eexists _, (). split_and!; [reflexivity| |done]. split_and!; [done|done|].
  cbn. by rewrite A3, fmap_app.
Qed.

Lemma alike_call {A} (f : L → L * option E) call (g : option E → M W A) (h : option E → PM _ X A) w s q rel :
  (∀ l, returning l call = let '(l, e) := f l in (l, inr e)) → kQueue s = q →
  (∀ e w' s', kQueue s' = q → alike (g e) (h e) w' s' rel) → alike (callL2 f ≫= g) (pCall returning call ≫= h) w s rel.
Proof.
  intros Hc Hq Hg. apply (alike_bind _ _ _ _ _ _ (λ e q' e', e' = e ∧ q' = q)); [|intros e e' w' s' [-> Hq']; by apply Hg].
  intros (A1 & A2 & A3) e w'. unfold callL2, pCall. rewrite A1, Hc. destruct (f (wL2 w)) as [l e']. intros [= <- <-].
  eexists _, e'. by split_and!.
Qed.

Lemma alike_for {A} (l : list A) (f : A → M W ()) (g : A → PM _ X ()) q :
  (∀ x w s, kQueue s = q → alike (f x) (g x) w s (λ _ q' _, q' = q)) →
  ∀ w s, kQueue s = q → alike (CacheState.forM l f) (forP l g) w s (λ _ q' _, q' = q).
Proof.
  intros Hf. induction l as [|x l IH]; intros w s Hq; [by apply alike_ret|]. cbn [CacheState.forM forP].
  apply (alike_bind _ _ _ _ _ _ (λ _ q' _, q' = q)); [by apply Hf|]. intros _ _ w' s' Hq'. by apply IH.
Qed.

Lemma alike_deliver q sets deletes ttl w s : kQueue s = q →
  alike (deliverRun c sets deletes ttl) (pDeliverRun returning quiet sets deletes ttl) w s (λ _ q' _, q' = q).
Proof.
  intros Hq. unfold deliverRun, pDeliverRun.
  assert (∀ A (l : list A) (key : A → K) e w' s', kQueue s' = q →
    alike (match e with None => mret () | Some _ => CacheState.forM l (λ x, CacheState.reportL2Err c (key x) e) end)
      (match e with None => mret () | Some _ => forP l (λ x, reportIf quiet e (key x)) end) w' s' (λ _ q' _, q' = q)) as Hmany.
  { intros A l key [e|] w' s' Hq'; [|by apply alike_ret]. apply alike_for; [|done]. intros. by apply alike_report. }
  destruct deletes as [|k [|]]; [destruct sets as [|[k v] [|]]| |]; (eapply alike_call; [reflexivity|done|]); intros.
  all: first [by apply alike_report|by apply (Hmany _ _ fst)|by apply (Hmany _ _ id)].
Qed.

Lemma alike_take {A B} (m : M W A) (g : option task → PM _ X B) w s rel :
  (∀ s', kQueue s' = tail (kQueue s) → alike m (g (head (kQueue s))) w s' rel) → alike m (takeTask ≫= g) w s rel.
Proof.
  intros H Hs a w' E1. unfold takeTask, mbind, PM_bind. destruct (kQueue s) as [|t q] eqn:Eq; by eapply H.
Qed.

Lemma alike_len {A B} (m : M W A) (g : nat → PM _ X B) w s rel : alike m (g (length (kQueue s))) w s rel → alike m (queueLen ≫= g) w s rel.
Proof. done. Qed.

Lemma alike_rest q (m : M W ()) (p : PM _ X ()) w s :
  alike m p w s (λ _ q' _, q' = q) → alike (m ≫= λ _, mret q) p w s (λ rest q' _, q' = rest).
Proof.
  intros Hm Hs a w' E1. unfold mbind, M_bind in E1. destruct (m w) as [[[] w1]|] eqn:E2; [|done]. injection E1 as <- <-. exact (Hm Hs () w1 E2).
Qed.

Lemma alike_then {A B} q (m : M W ()) (p : PM _ X ()) (a : A) (b : B) w s rel :
  alike m p w s (λ _ q' _, q' = q) → rel a q b → alike (m ≫= λ _, mret a) (p ≫= λ _, mret b) w s rel.
Proof. intros Hm Hr. eapply alike_bind; [exact Hm|]. intros [] [] w' s' <-. by apply alike_ret. Qed.

(** A marker at the end of a run. *)
Lemma alike_release {A B} q (m : M W ()) (p : PM _ X ()) marker (a : A) (b : B) w s rel :
  alike m p w s (λ _ q' _, q' = q) → rel a q b →
  alike (m ≫= λ _, modify (λ w, logReleased w marker) ≫= λ _, mret a) (deferring (p ≫= λ _, mret b) (releaseMarker marker)) w s rel.
Proof.
  intros Hm Hr Hs a' w' E1. unfold mbind, M_bind in E1. destruct (m w) as [[[] w1]|] eqn:E2; [|done].
  destruct (Hm Hs () w1 E2) as (s2 & [] & E3 & (B1 & B2 & B3) & <-). injection E1 as <- <-.
  exists (releaseMarker marker s2), b. split_and!; [unfold deferring, mbind, PM_bind; by rewrite E3| |done].
  split_and!; [done| |done]. cbn. by rewrite B2.
Qed.

Lemma alike_flushLoop first queue : ∀ sets deletes w s, kQueue s = queue →
  alike (flushLoop c first queue sets deletes)
    (pFlushLoop returning quiet first (WriteBackBatchMax - (length sets + length deletes)) sets deletes) w s
    (λ '(rest, next) q next', q = rest ∧ next' = next).
Proof.
  induction queue as [|write queue IH]; intros sets deletes w s Hq.
  all: pose proof (λ q w s (Hq : kQueue s = q), alike_deliver q sets deletes (wttl first) w s Hq) as Hd.
  all: cbn [flushLoop]; destruct (Nat.ltb_spec (length sets + length deletes) WriteBackBatchMax) as [Hlt|Hge].
  all: try (rewrite (proj2 (Nat.sub_0_le _ _) Hge); cbn [pFlushLoop]; eapply alike_then; [by apply Hd|done]).
  all: destruct (WriteBackBatchMax - (length sets + length deletes))%nat as [|room] eqn:Er; [lia|]; cbn [pFlushLoop].
  all: apply alike_take; rewrite Hq; intros s1 Hq1; cbn [head tail] in *.
  - eapply alike_then; [by apply Hd|done].
  - destruct (wflush write) as [marker|]; [eapply alike_release; [by apply Hd|done]|].
    destruct (negb _ || negb _); [eapply alike_then; [by apply Hd|done]|]. destruct (wdel write).
    + specialize (IH sets (deletes ++ [wkey write]) w s1 Hq1). rewrite length_app in IH. cbn [length] in IH.
      by replace (WriteBackBatchMax - (length sets + (length deletes + 1)))%nat with room in IH by lia.
    + specialize (IH (sets ++ [(wkey write, wvalue write)]) deletes w s1 Hq1). rewrite length_app in IH. cbn [length] in IH.
      by replace (WriteBackBatchMax - (length sets + 1 + length deletes))%nat with room in IH by lia.
Qed.

Lemma alike_flushWriteLoop fuel : ∀ queue first w s, kQueue s = queue →
  alike (flushWriteLoop c fuel queue first) (pFlushWriteLoop returning quiet (kBatching c) (kQueueCap c) fuel first) w s (λ rest q _, q = rest).
Proof.
  induction fuel as [|fuel IH]; intros queue first w s Hq; [done|]. cbn [flushWriteLoop pFlushWriteLoop]. destruct (wflush first) as [marker|].
  - intros (A1 & A2 & A3) a w' [= <- <-]. exists (releaseMarker marker s), (). split_and!; [done| |done]. split_and!; [done| |done]. cbn. by rewrite A2.
  - apply alike_len. rewrite Hq. destruct (negb (wdel first) && _).
    + apply alike_rest. by apply (alike_deliver queue [(wkey first, wvalue first)] []).
    + eapply (alike_bind _ _ _ _ _ _ (λ '(rest, next) q next', q = rest ∧ next' = next)).
      * unfold flushRun, pFlushRun. destruct (wdel first); by apply alike_flushLoop.
      * intros [rest [next|]] b w' s' [Hr ->]; [by apply IH|by apply alike_ret].
Qed.
(** With a second level and handlers that return, a turn of this worker is a turn of [workerTurn]: the same calls, errors and
    released checkpoints, and the same tasks left. *)
Theorem calm_turn queue first w s rest w' :
  kQueue s = queue → same w s → flushWrite c queue first w = Some (rest, w') →
  ∃ s', pFlushWrite returning quiet None (kBatching c) (kQueueCap c) first s = Some (s', inr ()) ∧ same w' s' ∧ kQueue s' = rest.
Proof.
  intros Hq Hs E1. destruct (alike_flushWriteLoop (S (length queue)) queue first w s Hq Hs rest w' E1) as (s' & [] & E2 & H2 & H3).
  exists s'. split; [|done]. unfold pFlushWrite, recoverWriteBack, recovering. by rewrite Hq, E2.
Qed.
End Calm.
