(* ===== verification/WriteBackSteps.v ===== *)
(** * Clients and write-back workers interleaved

    The events of a cache under write-back, as a step relation: a task that found room in its queue, a
    [Wait] marker, one turn of a worker.  Whatever the interleaving, each queue has delivered a prefix
    of what was put into it, and the second level holds exactly the effect of those prefixes. *)

From S2P Require Import Prelude Item Table Policy Shard ShardSpec Config Stats CacheState WriteBack.

(** A store that never fails, as an association list: the interface's laws can hold. *)
Module MapL2.
Section MapL2.
Context {K V E : Type} `{!EqDecision K}.

Definition alookup {A} (m : list (K * option A)) (k : K) : option A :=
  foldr (λ kv r, if decide (k = kv.1) then kv.2 else r) None m.

(** Entries with the value and the lifetime left; the newest entry of a key counts. *)
Abbreviation store := (list (K * option (V * Z))).
Definition entry_ (k : K) (v : V) (ttl : Z) : K * option (V * Z) := (k, Some (v, Z.max 0 ttl)).

#[global] Instance mapL2 : L2Cache K V store E := {
  l2Get s k := (s, (fst <$> alookup s k, None));
  l2BatchGet s ks := (s, (omap (λ k, pair k ∘ fst <$> alookup s k) ks, None));
  l2Set s k v ttl := (entry_ k v ttl :: s, None);
  l2BatchSet s l ttl := (foldl (λ s kv, entry_ kv.1 kv.2 ttl :: s) s l, None);
  l2Delete s k := ((k, None) :: s, None);
  l2BatchDelete s ks := (foldl (λ s k, (k, None) :: s) s ks, None)
}.

Lemma alookup_foldl {A B} (f : A → K * option B) (g : (K → option B) → A → K → option B) l :
  (∀ m x k', g m x k' = upd m (f x).1 (f x).2 k') →
  ∀ s m k', (∀ k, alookup s k = m k) → alookup (foldl (λ s x, f x :: s) s l) k' = foldl g m l k'.
Proof.
  intros Hg. induction l as [|x l IH]; intros s m k' Hs; [apply Hs|]. cbn. apply IH. intros k. rewrite Hg. cbn.
  unfold upd. case_decide; [done|apply Hs].
Qed.

#[global] Instance mapL2_laws : L2Laws K V store E.
Proof.
  refine {| l2Data := V; l2enc := id; l2dec := id; l2life := Z.max 0; l2rows := alookup;
    l2pass dt s := (λ kv, (kv.1, kv.2 ≫= aged dt)) <$> s |}; intros; cbn; try split_and!; try done; try lia.
  - induction s as [|[k0 o] s IH]; [done|]. cbn. by case_decide.
  - intros k v. rewrite list_elem_of_omap. split.
    + intros (k0 & Hk & Hv). destruct (alookup s k0) eqn:E0; simplify_eq/=. by rewrite E0.
    + intros [Hk Hv]. exists k. split; [done|]. destruct (alookup s k); by simplify_eq/=.
  - intros k'. unfold updAll. rewrite foldl_fmap. by apply (alookup_foldl (λ kv : K * V, entry_ kv.1 kv.2 ttl)).
  - intros k'. by apply (alookup_foldl (λ k : K, (k, None)) (λ m k, upd m k None)).
Defined.
End MapL2.
End MapL2.

Section Steps.
Context {K V P L E : Type} `{!EqDecision K} `{!GoType K} `{!GoType V}.
Context `{!EvictionPolicy K V P} `{!L2Cache K V L E} `{!L2Laws K V L E}.
Context (hash : K → Z) (c : Consts K V).
Abbreviation W := (World K V P L E).
Abbreviation task := (l2Write K V).
Implicit Types (w : W) (t : task).

Inductive event := Put (t : task) | Mark (i n : nat) | Turn (i : nat).

(** Room for one more in queue [i]. *)
Definition room w (i : nat) : Prop := ∃ q, wQueues w !! i = Some q ∧ (length q < kQueueCap c)%nat.

Definition queueOf w (k : K) : nat := writeQueueOf hash (length (wQueues w)) k.

Inductive wb_step : W → event → W → Prop :=
| step_put w t w' : wflush t = None → wStopped w = false → room w (queueOf w (wkey t)) →
    enqueueL2 hash c t w = Some ((), w') → wb_step w (Put t) w'
| step_mark w i n w' : wStopped w = false → room w i →
    putMarker i n w = Some ((), w') → wb_step w (Mark i n) w'
| step_turn w i w' : workerTurn c i w = Some ((), w') → wb_step w (Turn i) w'.

Inductive wb_run (w0 : W) : list event → W → Prop :=
| run_nil : wb_run w0 [] w0
| run_snoc evs w e w' : wb_run w0 evs w → wb_step w e w' → wb_run w0 (evs ++ [e]) w'.

Definition markerTask (n : nat) : task := mkWrite go_zero go_zero 0 (Some n) false.

(** What an event puts into queue [i] of [n]. *)
Definition putIn (nq i : nat) (e : event) : option task :=
  match e with
  | Put t => if decide (writeQueueOf hash nq (wkey t) = i) then Some t else None
  | Mark j n => if decide (j = i) then Some (markerTask n) else None
  | Turn _ => None
  end.

(** Everything put into queue [i]. *)
Definition history (nq i : nat) (evs : list event) : list task := omap (putIn nq i) evs.

(** The tasks of the clients, in order. *)
Definition tasksOf (evs : list event) : list task :=
  omap (λ e, match e with Put t => Some t | _ => None end) evs.

Lemma workerTurn_spec i w :
  ∃ w', workerTurn c i w = Some ((), w') ∧
  match wQueues w !! i with
  | Some (t :: q) => ∃ dn rest w1, t :: q = dn ++ rest ∧ dn ≠ [] ∧ w' = withQueues w1 (<[i := rest]> (wQueues w)) ∧
      delivered w (applyTasks (l2rows (wL2 w)) dn) (markers dn) w1
  | _ => w' = w
  end.
Proof.
  unfold workerTurn, get, modify, mbind, M_bind. destruct (wQueues w !! i) as [[|t q]|]; [by eexists| |by eexists].
  unfold flushWrite. destruct (flushWriteLoop_spec c (S (length q)) q t w) as (rest & dn & w1 & E1 & Eq & Hne & Hd); [lia|].
  rewrite E1. eexists. split; [reflexivity|]. exists dn, rest, w1. split_and!; [done|done| |done].
  destruct Hd as [[] _]. congruence.
Qed.

Lemma writeQueueOf_lt (n : nat) k : (0 < n)%nat → (writeQueueOf hash n k < n)%nat.
Proof.
  intros Hn. unfold writeQueueOf. destruct (n =? 1)%nat eqn:E1; [done|].
  pose proof (Z.mod_pos_bound (Z.shiftr (hash k) 32) (Z.of_nat n) ltac:(lia)). lia.
Qed.

(** Queue [i] of [nq] holds only tasks of its own keys. *)
Definition routed (nq : nat) (h : nat → list task) : Prop :=
  ∀ i, Forall (λ t, wflush t = None → writeQueueOf hash nq (wkey t) = i) (h i).

(** Since [w0] the tasks [h i] were in queue [i], and the prefixes [dn i] of them were delivered. *)
Record wb_inv (w0 : W) (h : nat → list task) w (dn : nat → list task) : Prop := {
  wi_len : length (wQueues w) = length (wQueues w0);
  wi_errors : wErrors w = wErrors w0;
  wi_mem : wShards w = wShards w0;
  wi_routed : routed (length (wQueues w0)) h;
  wi_history i : (i < length (wQueues w0))%nat → h i = dn i ++ default [] (wQueues w !! i);
  wi_l2 k : l2rows (wL2 w) k = applyTasks (l2rows (wL2 w0)) (dn (queueOf w0 k)) k;
  wi_released n : n ∈ wReleased w ↔
    n ∈ wReleased w0 ∨ ∃ i, (i < length (wQueues w0))%nat ∧ n ∈ markers (dn i)
}.

Lemma history_routed nq evs : routed nq (λ i, history nq i evs).
Proof.
  intros i. apply Forall_forall. intros t Ht. apply list_elem_of_omap in Ht as (e & _ & He). intros Hf.
  destruct e; cbn in He; try case_decide; by simplify_eq.
Qed.

Lemma history_snoc nq i evs e : history nq i (evs ++ [e]) = history nq i evs ++ option_list (putIn nq i e).
Proof. unfold history. rewrite omap_app. cbn. by destruct (putIn nq i e). Qed.

(** Something is appended to queue [j]. *)
Lemma wb_inv_append w0 evs w dn e j q t :
  wb_inv w0 (λ i, history (length (wQueues w0)) i evs) w dn → wQueues w !! j = Some q →
  (∀ i, putIn (length (wQueues w0)) i e = if decide (i = j) then Some t else None) →
  wb_inv w0 (λ i, history (length (wQueues w0)) i (evs ++ [e])) (withQueues w (<[j := q ++ [t]]> (wQueues w))) dn.
Proof.
  intros [Hlen Herr Hmem Hrt Hh Hl Hr] Hj Hput. split; try done.
  - cbn. by rewrite length_insert.
  - apply history_routed.
  - intros i Hi. cbn beta. rewrite history_snoc, (Hh i Hi), Hput. cbn [wQueues withQueues]. case_decide as Eij.
    + subst j. rewrite list_lookup_insert_eq by (by eapply lookup_lt_Some). rewrite Hj. cbn. by rewrite app_assoc.
    + rewrite list_lookup_insert_ne by done. by rewrite app_nil_r.
Qed.

(** A worker delivers the head of queue [j]. *)
Lemma wb_inv_deliver w0 h w dn j q d rest w1 r :
  wb_inv w0 h w dn → wQueues w !! j = Some q → q = d ++ rest → r = markers d →
  delivered w (applyTasks (l2rows (wL2 w)) d) r w1 →
  wb_inv w0 h (withQueues w1 (<[j := rest]> (wQueues w))) (λ i, if decide (i = j) then dn i ++ d else dn i).
Proof.
  intros [Hlen Herr Hmem Hrt Hh Hl Hr] Hj -> -> ([] & Hrel & Hm). pose proof (lookup_lt_Some _ _ _ Hj) as Hlt.
  split; cbn [withQueues wQueues wErrors wShards wL2 wReleased]; try congruence; try done.
  - by rewrite length_insert.
  - intros i Hi. rewrite (Hh i Hi). case_decide as Eij.
    + subst i. rewrite list_lookup_insert_eq by done. rewrite Hj. cbn. by rewrite app_assoc.
    + by rewrite list_lookup_insert_ne.
  - intros k. rewrite Hm. case_decide as Eij.
    + rewrite applyTasks_app. apply applyTasks_ext. by rewrite Hl.
    + rewrite applyTasks_other; [apply Hl|]. specialize (Hrt j).
      rewrite (Hh j ltac:(lia)), Hj in Hrt. cbn in Hrt. apply Forall_app in Hrt as [_ [Hrt _]%Forall_app].
      eapply Forall_impl; [exact Hrt|]. intros t Ht Hf <-. by apply Eij, Ht.
  - intros n. rewrite Hrel, elem_of_app, Hr. split.
    + intros [[H0|(i & Hi & H0)]|Hd]; [by left| |].
      * right. exists i. split; [done|]. case_decide; [|done]. unfold markers. rewrite omap_app. apply elem_of_app. by left.
      * right. exists j. split; [lia|]. rewrite decide_True by done. unfold markers. rewrite omap_app. apply elem_of_app. by right.
    + intros [H0|(i & Hi & H0)]; [by left; left|]. case_decide; [|left; right; by exists i].
      unfold markers in H0. rewrite omap_app in H0. apply elem_of_app in H0 as [H0|H0]; [left; right; by exists i|by right].
Qed.

Lemma wb_inv_turn w0 h w dn i w' :
  wb_inv w0 h w dn → workerTurn c i w = Some ((), w') →
  ∃ dn', wb_inv w0 h w' dn' ∧
    match wQueues w !! i with
    | Some ((_ :: _) as q) => ∃ rest, wQueues w' = <[i := rest]> (wQueues w) ∧ (length rest < length q)%nat
    | _ => w' = w
    end.
Proof.
  intros Hinv E1. destruct (workerTurn_spec i w) as (w1 & E1' & Hw). rewrite E1 in E1'. injection E1' as <-.
  destruct (wQueues w !! i) as [[|t q]|] eqn:Eq; [subst; by exists dn| |subst; by exists dn].
  destruct Hw as (d & rest & w1 & Hsp & Hne & -> & Hd). eexists. split.
  - by eapply wb_inv_deliver.
  - exists rest. split; [done|]. apply (f_equal length) in Hsp. rewrite length_app in Hsp. destruct d; [done|]. cbn in Hsp |- *. lia.
Qed.

Lemma wb_inv_snoc_turn w0 evs w dn i :
  wb_inv w0 (λ i, history (length (wQueues w0)) i evs) w dn →
  wb_inv w0 (λ j, history (length (wQueues w0)) j (evs ++ [Turn i])) w dn.
Proof.
  intros []. split; try done; [apply history_routed|]. intros j Hj. cbn beta. rewrite history_snoc. cbn.
  rewrite app_nil_r. auto.
Qed.

Lemma wb_run_inv w0 evs w :
  Forall (λ q, q = []) (wQueues w0) → wb_run w0 evs w →
  ∃ dn, wb_inv w0 (λ i, history (length (wQueues w0)) i evs) w dn.
Proof.
  intros Hemp. induction 1 as [|evs w e w' _ [dn IH] Hstep].
  - exists (λ _, []). split; try done; [apply history_routed|..].
    + intros i Hi. cbn. destruct (wQueues w0 !! i) eqn:Ei; [|done]. cbn. symmetry. by eapply Forall_lookup in Hemp.
    + intros n. split; [by left|]. intros [?|(i & _ & Hn)]; [done|]. cbn in Hn. by apply elem_of_nil in Hn.
  - destruct Hstep as [w t w' Hf Hst (q & Hq & Hlen) Hen|w i n w' Hst (q & Hq & Hlen) Hm|w i w' Ht].
    + exists dn. unfold enqueueL2, get, modify, mbind, M_bind in Hen. rewrite Hst in Hen. fold (queueOf w (wkey t)) in Hen.
      rewrite Hq in Hen. cbn [default from_option id] in Hen.
      rewrite (proj2 (Nat.ltb_lt _ _) Hlen) in Hen. injection Hen as <-.
      eapply wb_inv_append; [done|done|]. intros i. cbn. unfold queueOf. rewrite (wi_len _ _ _ _ IH).
      repeat case_decide; congruence.
    + exists dn. unfold putMarker, modify in Hm. injection Hm as <-. rewrite Hq. cbn [default from_option id].
      eapply wb_inv_append; [done|done|]. intros j. cbn. repeat case_decide; congruence || done.
    + destruct (wb_inv_turn _ _ _ _ _ _ IH Ht) as (dn' & Hinv & _). exists dn'. by apply wb_inv_snoc_turn.
Qed.

(** Draining one queue empties it and leaves the others alone. *)
Lemma drain_inv w0 h i fuel : ∀ w dn,
  wb_inv w0 h w dn → (length (default [] (wQueues w !! i)) < fuel)%nat →
  ∃ w' dn', drain c fuel i w = Some ((), w') ∧ wb_inv w0 h w' dn' ∧ default [] (wQueues w' !! i) = [] ∧
    ∀ j, j ≠ i → wQueues w' !! j = wQueues w !! j.
Proof.
  induction fuel as [|fuel IH]; intros w dn Hinv Hf; [lia|].
  cbn [drain]. unfold get, mbind, M_bind. destruct (wQueues w !! i) as [[|t q]|] eqn:Eq; [|..].
  - exists w, dn. by rewrite Eq.
  - destruct (workerTurn_spec i w) as (w1 & E1 & _). rewrite E1.
    destruct (wb_inv_turn _ _ _ _ _ _ Hinv E1) as (dn1 & Hinv1 & H1). rewrite Eq in H1.
    destruct H1 as (rest & Hq1 & Hlt). pose proof (lookup_lt_Some _ _ _ Eq) as Hi.
    destruct (IH w1 dn1 Hinv1) as (w' & dn' & E' & Hinv' & Hemp & Hoth).
    + rewrite Hq1, list_lookup_insert_eq by done. cbn in *. lia.
    + exists w', dn'. split_and!; try done. intros j Hj. rewrite (Hoth j Hj), Hq1. by rewrite list_lookup_insert_ne by done.
  - exists w, dn. by rewrite Eq.
Qed.

Lemma drainAll_inv w0 h l : ∀ w dn,
  wb_inv w0 h w dn →
  ∃ w' dn', forM l (drainQueue c) w = Some ((), w') ∧ wb_inv w0 h w' dn' ∧
    ∀ i, i ∈ l ∨ default [] (wQueues w !! i) = [] → default [] (wQueues w' !! i) = [].
Proof.
  induction l as [|i l IH]; intros w dn Hinv.
  - exists w, dn. split_and!; try done. intros i [Hi|?]; [by apply elem_of_nil in Hi|done].
  - cbn [forM]. unfold mbind, M_bind, drainQueue.
    destruct (drain_inv w0 h i (S (length (default [] (wQueues w !! i)))) w dn Hinv) as (w1 & dn1 & E1 & H1 & Hemp & Hoth); [lia|].
    rewrite E1. destruct (IH w1 dn1 H1) as (w' & dn' & E' & H' & Hall). exists w', dn'. split_and!; [done|done|].
    intros j Hj. apply Hall. destruct (decide (j = i)) as [->|Hne]; [by right|]. rewrite (Hoth j Hne), elem_of_cons in *. naive_solver.
Qed.

(** The tasks of other queues, and the markers, do not matter to a key. *)
Lemma applyTasks_history nq evs k : ∀ m,
  Forall (λ e, match e with Put t => wflush t = None | _ => True end) evs →
  applyTasks m (history nq (writeQueueOf hash nq k) evs) k = applyTasks m (tasksOf evs) k.
Proof.
  induction evs as [|e evs IH]; intros m Hevs; [done|]. apply Forall_cons in Hevs as [He Hevs].
  unfold history, tasksOf in *. destruct e as [t|j n|j]; cbn [omap list_omap putIn]; [|..].
  - case_decide as Hq; cbn iota; rewrite ?applyTasks_cons, (IH _ Hevs); [done|]. apply applyTasks_ext. unfold applyTask. rewrite He.
    unfold upd. rewrite decide_False; [done|]. intros ->. by apply Hq.
  - case_decide; cbn iota; by rewrite ?applyTasks_cons, (IH _ Hevs).
  - by apply IH.
Qed.

Lemma wb_run_puts w0 evs w :
  wb_run w0 evs w → Forall (λ e, match e with Put t => wflush t = None | _ => True end) evs.
Proof.
  induction 1 as [|evs w e w' _ IH Hs]; [done|]. apply Forall_app_2; [done|]. apply Forall_singleton. by destruct Hs.
Qed.

Lemma wb_run_marks w0 evs w i n :
  wb_run w0 evs w → Mark i n ∈ evs → Forall (λ q, q = []) (wQueues w0) → (i < length (wQueues w0))%nat.
Proof.
  intros Hr Hm Hemp. induction Hr as [|evs w e w' Hr IH Hs]; [by apply elem_of_nil in Hm|].
  apply elem_of_app in Hm as [Hm|Hm%list_elem_of_singleton]; [by apply IH|]. subst e.
  inversion Hs as [|w1 i1 n1 w2 Hst (q & Hq & _) _|]; subst. apply lookup_lt_Some in Hq.
  destruct (wb_run_inv _ _ _ Hemp Hr) as [dn Hinv]. by rewrite <- (wi_len _ _ _ _ Hinv).
Qed.

Lemma markers_history nq i n evs : Mark i n ∈ evs → n ∈ markers (history nq i evs).
Proof.
  intros Hm. unfold markers, history. apply list_elem_of_omap. exists (markerTask n). split; [|done].
  apply list_elem_of_omap. exists (Mark i n). split; [done|]. cbn. by rewrite decide_True.
Qed.

Definition queues w (i : nat) : list task := default [] (wQueues w !! i).

(** [Close] delivers what is queued, in order. *)
Lemma Close_spec w :
  wStopped w = false → (0 < length (wQueues w))%nat → routed (length (wQueues w)) (queues w) →
  ∃ w', Close c w = Some ((), w') ∧ length (wQueues w') = length (wQueues w) ∧ (∀ i, queues w' i = []) ∧
    wErrors w' = wErrors w ∧ wShards w' = wShards w ∧
    (∀ k, l2rows (wL2 w') k = applyTasks (l2rows (wL2 w)) (queues w (queueOf w k)) k) ∧
    (∀ n, n ∈ wReleased w' ↔ n ∈ wReleased w ∨ ∃ i, (i < length (wQueues w))%nat ∧ n ∈ markers (queues w i)).
Proof.
  intros Hst Hpos Hrt. assert (wb_inv (withStopped w) (queues w) (withStopped w) (λ _, [])) as Hinv.
  { split; try done. intros n. split; [by left|]. intros [?|(i & _ & Hn)]; [done|]. by apply elem_of_nil in Hn. }
  destruct (drainAll_inv _ _ (seq 0 (length (wQueues w))) _ _ Hinv) as (w' & dn' & E' & Hinv' & Hemp).
  exists w'. unfold Close, get, modify, mbind, M_bind. rewrite Hst.
  pose proof (wi_len _ _ _ _ Hinv') as Hlen'. cbn [withStopped wQueues] in Hlen'.
  assert (∀ i, queues w' i = []) as Hall.
  { intros i. unfold queues. destruct (decide (i < length (wQueues w))%nat) as [Hi|Hi].
    - apply Hemp. left. apply elem_of_seq. lia.
    - rewrite lookup_ge_None_2; [done|]. lia. }
  assert (∀ i, (i < length (wQueues w))%nat → dn' i = queues w i) as Hdn.
  { intros i Hi. rewrite (wi_history _ _ _ _ Hinv' i Hi). fold (queues w' i). by rewrite Hall, app_nil_r. }
  split_and!; [done|done|done|apply Hinv'|apply Hinv'| |].
  - intros k. rewrite (wi_l2 _ _ _ _ Hinv' k), Hdn; [done|]. by apply writeQueueOf_lt.
  - intros n. rewrite (wi_released _ _ _ _ Hinv' n). cbn [withStopped wReleased wQueues].
    split; (intros [?|(i & Hi & Hn)]; [by left|right; exists i; split; [done|]]); [by rewrite <- Hdn|by rewrite Hdn].
Qed.

End Steps.
Arguments event : clear implicits.
