(* ===== verification/WriteBackTheorems.v ===== *)
(** * The theorems about asynchronous writes

    For a second level that does not fail: under every interleaving of clients and workers nothing is
    lost or reordered while the queues have room, [Wait] is a barrier, and what happens when a queue is
    full. *)

From S2P Require Import Prelude Item Table Policy ClockPolicy Shard ShardSpec Config Stats CacheState WriteBack WriteBackSteps.

Section Theorems.
Context {K V P L E : Type} `{!EqDecision K} `{!GoType K} `{!GoType V}.
Context `{!EvictionPolicy K V P} `{!L2Cache K V L E} `{!L2Laws K V L E}.
Context (hash : K → Z) (c : Consts K V).
Abbreviation W := (World K V P L E).
Abbreviation task := (l2Write K V).
Implicit Types (w : W) (t : task).

(** Empty queues, at least one, and a cache that is not closed. *)
Definition idle w : Prop :=
  Forall (λ q, q = []) (wQueues w) ∧ (0 < length (wQueues w))%nat ∧ wStopped w = false.

Lemma wb_run_stopped w0 evs w : wb_run hash c w0 evs w → wStopped w = wStopped w0.
Proof.
  induction 1 as [|evs w e w' _ IH Hs]; [done|]. rewrite <- IH.
  destruct Hs as [w t w' Hf Hst (q & Hq & Hlen) He|w i n w' Hst _ Hm|w i w' Ht].
  - unfold enqueueL2, get, modify, mbind, M_bind in He. rewrite Hst in He. unfold queueOf in Hq. rewrite Hq in He.
    cbn [default from_option id] in He. rewrite (proj2 (Nat.ltb_lt _ _) Hlen) in He. injection He as <-. by cbn.
  - unfold putMarker, modify in Hm. injection Hm as <-. by cbn.
  - destruct (workerTurn_spec c i w) as (w1 & E1 & H1). rewrite Ht in E1. injection E1 as <-.
    destruct (wQueues w !! i) as [[|t q]|]; [by subst| |by subst]. destruct H1 as (d & rest & w1 & _ & _ & -> & [[] _]). done.
Qed.

(** What [Close] leaves after a run. *)
Lemma close_delivers w0 evs w :
  idle w0 → wb_run hash c w0 evs w →
  ∃ w', Close c w = Some ((), w') ∧ (∀ i, queues w' i = []) ∧ wErrors w' = wErrors w0 ∧ wShards w' = wShards w0 ∧
    (∀ k, l2rows (wL2 w') k = applyTasks (l2rows (wL2 w0)) (tasksOf evs) k) ∧
    ∀ i n, Mark i n ∈ evs → n ∈ wReleased w'.
Proof.
  intros (Hemp & Hpos & Hst) Hrun. destruct (wb_run_inv _ _ _ _ _ Hemp Hrun) as [dn Hinv].
  pose proof (wi_len _ _ _ _ _ Hinv) as Hlen.
  destruct (Close_spec hash c w) as (w' & E' & _ & Hall & Herr & Hsh & Hl2 & Hrel);
    [by rewrite (wb_run_stopped _ _ _ Hrun)|lia| |].
  { intros i. destruct (decide (i < length (wQueues w0))%nat) as [Hi|Hi].
    - pose proof (wi_routed _ _ _ _ _ Hinv i) as Hr. cbn beta in Hr. rewrite (wi_history _ _ _ _ _ Hinv i Hi) in Hr.
      apply Forall_app in Hr as [_ Hr]. by rewrite Hlen.
    - unfold queues. rewrite lookup_ge_None_2; [done|]. lia. }
  exists w'. split_and!; [done|done|..].
  - by rewrite Herr, (wi_errors _ _ _ _ _ Hinv).
  - by rewrite Hsh, (wi_mem _ _ _ _ _ Hinv).
  - intros k. rewrite Hl2. rewrite <- (applyTasks_history hash (length (wQueues w0)) evs k) by by eapply wb_run_puts.
    pose proof (wi_history _ _ _ _ _ Hinv (queueOf hash w0 k) (writeQueueOf_lt _ _ _ Hpos)) as Hh. cbn beta in Hh.
    unfold queueOf in Hh at 1. rewrite Hh, applyTasks_app.
    replace (queueOf hash w k) with (queueOf hash w0 k) by (unfold queueOf; by rewrite Hlen).
    apply applyTasks_ext. apply (wi_l2 _ _ _ _ _ Hinv).
  - intros i n Hm. apply Hrel. pose proof (wb_run_marks _ _ _ _ _ _ _ Hrun Hm Hemp) as Hi.
    pose proof (markers_history hash (length (wQueues w0)) i n evs Hm) as Hn.
    rewrite (wi_history _ _ _ _ _ Hinv i Hi) in Hn. unfold markers in Hn. rewrite omap_app in Hn.
    apply elem_of_app in Hn as [Hn|Hn].
    + left. apply (wi_released _ _ _ _ _ Hinv). right. by exists i.
    + right. exists i. split; [lia|done].
Qed.

(** C31: Write-back loses and reorders nothing.  Over a second level that does not fail and in which no
    lifetime ends meanwhile, any interleaving of client tasks that find room in their queue, [Wait]
    markers and worker turns, ended by [Close]: [Close] returns with every queue empty, each key of the
    second level holds the value and the lifetime that the client's writes and deletions applied one by
    one in order leave there, no error is reported, and every waiter is released.  Coalescing into
    batches of like TTL and the spread over workers are invisible. *)
Theorem write_back_delivers w0 evs w :
  idle w0 → wb_run hash c w0 evs w →
  ∃ w', Close c w = Some ((), w') ∧ (∀ i, queues w' i = []) ∧ wErrors w' = wErrors w0 ∧ wShards w' = wShards w0 ∧
    (∀ k, l2rows (wL2 w') k = applyTasks (l2rows (wL2 w0)) (tasksOf evs) k) ∧
    ∀ i n, Mark i n ∈ evs → n ∈ wReleased w'.
Proof. apply close_delivers. Qed.

(** A prefix of what was put into a queue comes from a prefix of the events. *)
Lemma history_prefix nq i evs : ∀ d rest,
  history hash nq i evs = d ++ rest → ∃ evs', (evs' `prefix_of` evs) ∧ history hash nq i evs' = d.
Proof.
  induction evs as [|e evs IH]; intros d rest Hh.
  - exists []. split; [done|]. by destruct d.
  - destruct d as [|t d]; [exists []; split; [apply prefix_nil|done]|].
    change (history hash nq i (e :: evs)) with (omap (putIn hash nq i) (e :: evs)) in Hh. cbn in Hh.
    destruct (putIn hash nq i e) as [t'|] eqn:Ee.
    + injection Hh as -> Hh. destruct (IH _ _ Hh) as (evs' & Hp & Hd). exists (e :: evs').
      split; [by apply prefix_cons|]. unfold history. cbn. rewrite Ee. f_equal. exact Hd.
    + destruct (IH (t :: d) rest Hh) as (evs' & Hp & Hd). exists (e :: evs').
      split; [by apply prefix_cons|]. unfold history. cbn. rewrite Ee. exact Hd.
Qed.

Lemma history_marks nq j n evs :
  Forall (λ e, match e with Put t => wflush t = None | _ => True end) evs →
  n ∈ markers (history hash nq j evs) → Mark j n ∈ evs.
Proof.
  intros Hp Hn. apply list_elem_of_omap in Hn as (t & Ht & Hf).
  apply list_elem_of_omap in Ht as (e & He & Hput). eapply Forall_forall in Hp; [|exact He].
  destruct e as [t'|j' n'|j']; cbn in Hput; try case_decide; simplify_eq; cbn in Hf; by simplify_eq.
Qed.

(** The marker splits what its queue delivered, once it is among it. *)
Lemma marker_splits (h1 h2 d q : list task) n :
  n ∉ markers h1 → n ∈ markers d → h1 ++ markerTask n :: h2 = d ++ q → ∃ d2, d = h1 ++ markerTask n :: d2 ∧ h2 = d2 ++ q.
Proof.
  intros H1 Hd Heq. apply app_eq_app in Heq as (l & [(-> & Hq)|(-> & Hq)]).
  - exfalso. apply H1. unfold markers. rewrite omap_app. apply elem_of_app. by left.
  - destruct l as [|t l]; [by rewrite app_nil_r in Hd|]. injection Hq as <- ->. by exists l.
Qed.

(** C32: [Wait] is a barrier.  Once the marker a [Wait] put into a queue is released, the second level
    holds, for every key of that queue, the effect of all the writes and deletions made before the
    marker, and of a prefix of those made after it, values and lifetimes, whatever the other queues did
    (over a second level that does not fail and in which no lifetime ends meanwhile). *)
Theorem wait_is_a_barrier w0 evs1 i n evs2 w k :
  idle w0 → wb_run hash c w0 (evs1 ++ Mark i n :: evs2) w →
  n ∉ wReleased w0 → (∀ j, (Mark j n ∉ evs1) ∧ (Mark j n ∉ evs2)) → n ∈ wReleased w → queueOf hash w0 k = i →
  ∃ evs2', evs2' `prefix_of` evs2 ∧
    l2rows (wL2 w) k = applyTasks (l2rows (wL2 w0)) (tasksOf (evs1 ++ evs2')) k.
Proof.
  intros (Hemp & Hpos & Hst) Hrun Hfresh Huniq Hrel Hk. destruct (wb_run_inv _ _ _ _ _ Hemp Hrun) as [dn Hinv].
  pose proof (wb_run_puts _ _ _ _ _ Hrun) as Hputs. set (nq := length (wQueues w0)) in *.
  apply (wi_released _ _ _ _ _ Hinv) in Hrel as [?|(j & Hj & Hn)]; [done|].
  assert (j = i) as ->.
  { pose proof (wi_history _ _ _ _ _ Hinv j Hj) as Hh. cbn beta in Hh.
    assert (n ∈ markers (history hash nq j (evs1 ++ Mark i n :: evs2))) as Hm%(history_marks _ _ _ _ Hputs).
    { rewrite Hh. unfold markers. rewrite omap_app. apply elem_of_app. by left. }
    apply elem_of_app in Hm as [Hm|[Hm|Hm]%elem_of_cons]; [by destruct (Huniq j)|congruence|by destruct (Huniq j)]. }
  pose proof (wi_history _ _ _ _ _ Hinv i Hj) as Hh. cbn beta in Hh. fold nq in Hh.
  apply Forall_app in Hputs as [Hp1 [_ Hp2]%Forall_cons].
  assert (history hash nq i (evs1 ++ Mark i n :: evs2) =
    history hash nq i evs1 ++ markerTask n :: history hash nq i evs2) as Hsplit.
  { unfold history. rewrite omap_app. cbn. by rewrite decide_True. }
  rewrite Hsplit in Hh. assert (n ∉ markers (history hash nq i evs1)) as Hnew.
  { intros Hm%(history_marks _ _ _ _ Hp1). by destruct (Huniq i). }
  destruct (marker_splits _ _ _ _ _ Hnew Hn Hh) as (d2 & Hd & Hr).
  destruct (history_prefix nq i evs2 d2 _ Hr) as (evs2' & Hpre & Hd2).
  exists evs2'. split; [done|]. rewrite (wi_l2 _ _ _ _ _ Hinv k), Hk, Hd.
  rewrite <- (applyTasks_history hash nq (evs1 ++ evs2') k).
  - unfold queueOf in Hk. fold nq in Hk. rewrite Hk. unfold history at 2. rewrite omap_app.
    fold (history hash nq i evs1) (history hash nq i evs2'). by rewrite Hd2, !applyTasks_app.
  - apply Forall_app_2; [done|]. destruct Hpre as [z ->]. by apply Forall_app in Hp2 as [? _].
Qed.

Lemma applyTasks_settled (q : list task) k : ∀ m m',
  (∃ t, t ∈ q ∧ wflush t = None ∧ wkey t = k) → applyTasks m q k = applyTasks m' q k.
Proof.
  induction q as [|t q IH]; intros m m' (t0 & Ht & Hf & Hk); [by apply elem_of_nil in Ht|].
  rewrite !applyTasks_cons. apply elem_of_cons in Ht as [->|Ht]; [|apply IH; by exists t0].
  apply applyTasks_ext. unfold applyTask. rewrite Hf. unfold upd. by rewrite Hk, !decide_True by done.
Qed.

Lemma syncWrite_spec t w :
  wflush t = None →
  ∃ w', syncWrite c t w = Some ((), w') ∧ l2only w w' ∧ wReleased w' = wReleased w ∧
    ∀ k, l2rows (wL2 w') k = applyTask (l2rows (wL2 w)) t k.
Proof.
  intros Hf. unfold syncWrite, callL2, mbind, M_bind, applyTask. rewrite Hf. destruct (wdel t).
  - pose proof (l2Delete_laws (wL2 w) (wkey t)) as Hl. destruct (l2Delete (wL2 w) (wkey t)) as [l e].
    destruct Hl as [-> Hm]. eexists. split; [reflexivity|]. split_and!; [by split|done|done].
  - pose proof (l2Set_laws (wL2 w) (wkey t) (wvalue t) (wttl t)) as Hl.
    destruct (l2Set (wL2 w) (wkey t) (wvalue t) (wttl t)) as [l e].
    destruct Hl as [-> Hm]. eexists. split; [reflexivity|]. split_and!; [by split|done|done].
Qed.

(** C33: A full queue reorders.  A write that finds its queue full goes to the second level at once and
    overtakes an older write of the same key that still waits in the queue: it is there right after the
    call, and once the queues are drained every key is as if that write had never been made. *)
Theorem overflow_overtakes w t :
  wStopped w = false → (0 < length (wQueues w))%nat → routed hash (length (wQueues w)) (queues w) →
  wflush t = None → (kQueueCap c <= length (queues w (queueOf hash w (wkey t))))%nat →
  (∃ t0, t0 ∈ queues w (queueOf hash w (wkey t)) ∧ wflush t0 = None ∧ wkey t0 = wkey t) →
  ∃ w1 w2, enqueueL2 hash c t w = Some ((), w1) ∧
    l2rows (wL2 w1) (wkey t) = (if wdel t then None else Some (l2row (wvalue t) (wttl t))) ∧
    Close c w1 = Some ((), w2) ∧
    ∀ k, l2rows (wL2 w2) k = applyTasks (l2rows (wL2 w)) (queues w (queueOf hash w k)) k.
Proof.
  intros Hst Hpos Hrt Hf Hfull Hold. destruct (syncWrite_spec t w Hf) as (w1 & E1 & [] & _ & Hl1).
  destruct (Close_spec hash c w1) as (w2 & E2 & _ & _ & _ & _ & Hl2 & _); [congruence|congruence|intros i; unfold queues; rewrite lo_queues; apply Hrt|].
  exists w1, w2. split_and!; [|..].
  - unfold enqueueL2, get, mbind, M_bind. rewrite Hst. unfold queues, queueOf in Hfull.
    by rewrite (proj2 (Nat.ltb_ge _ _) Hfull).
  - rewrite Hl1. unfold applyTask. rewrite Hf. unfold upd. by rewrite decide_True.
  - done.
  - intros k. rewrite Hl2. unfold queues, queueOf in *. rewrite lo_queues.
    destruct (decide (k = wkey t)) as [->|Hne]; [by apply applyTasks_settled|].
    apply applyTasks_ext. rewrite Hl1. unfold applyTask. rewrite Hf. unfold upd. by rewrite decide_False.
Qed.

End Theorems.

(** ** Instances: two queues of two tasks each, over an association list *)

Definition wbHash (k : Z) : Z := Z.shiftl k 32.
Definition wbConsts : Consts Z Z :=
  mkConsts None 0 false 0 1 0 false true WriteBack BatchingFull 2 true.
Definition wbWorld : World Z Z ClockPolicy (list (Z * option (Z * Z))) Z :=
  mkWorld [] 0 (newStats true) [] [[]; []] false [] [] [].

Definition wset (k v : Z) : l2Write Z Z := mkWrite k v 5 None false.
Definition wdelete (k : Z) : l2Write Z Z := mkWrite k 0 0 None true.

(** Two writes of key 1, a marker behind them on its queue, a write and a deletion of key 2. *)
Definition wbEvents : list (event Z Z) :=
  [Put (wset 1 10); Put (wset 2 20); Put (wset 1 11); Turn 1; Mark 1 7; Put (wdelete 2); Turn 1; Turn 0].

(** The states along a list of events, and that it is a run. *)
Definition wbNext (w : World Z Z ClockPolicy (list (Z * option (Z * Z))) Z) (e : event Z Z) :=
  match e with
  | Put t => enqueueL2 wbHash wbConsts t w
  | Mark i n => putMarker i n w
  | Turn i => workerTurn wbConsts i w
  end.

Definition wbAfter (l : list (event Z Z)) : World Z Z ClockPolicy (list (Z * option (Z * Z))) Z :=
  foldl (λ w e, match wbNext w e with Some (_, w) => w | None => w end) wbWorld l.

Definition wbEnd : World Z Z ClockPolicy (list (Z * option (Z * Z))) Z := wbAfter wbEvents.

Lemma wbEnd_run : wb_run wbHash wbConsts wbWorld wbEvents wbEnd.
Proof.
  unfold wbEvents. repeat match goal with
  | |- wb_run _ _ _ [] _ => apply run_nil
  | |- wb_run _ _ _ ?l _ =>
    let l1 := eval vm_compute in (removelast l) in let e := eval vm_compute in (List.last l (Turn 0)) in
    change l with (l1 ++ [e]);
    eapply (run_snoc _ _ _ _ (wbAfter l1));
      [|first [eapply step_put; [reflexivity|reflexivity|eexists; split; [vm_compute; reflexivity|vm_compute; lia]|vm_compute; reflexivity]
              |eapply step_mark; [reflexivity|eexists; split; [vm_compute; reflexivity|vm_compute; lia]|vm_compute; reflexivity]
              |eapply step_turn; vm_compute; reflexivity]]
  end.
Qed.

Lemma write_back_delivers_witness :
  ∃ w', Close wbConsts wbEnd = Some ((), w') ∧ MapL2.alookup (wL2 w') 1 = Some (11, 5) ∧ MapL2.alookup (wL2 w') 2 = None ∧ 7%nat ∈ wReleased w'.
Proof.
  destruct (write_back_delivers wbHash wbConsts wbWorld wbEvents wbEnd) as (w' & E' & _ & _ & _ & Hl & Hm).
  - split_and!; [repeat constructor|vm_compute; lia|reflexivity].
  - apply wbEnd_run.
  - exists w'. split_and!; [exact E'|exact (eq_trans (Hl 1) eq_refl)|exact (eq_trans (Hl 2) eq_refl)|]. apply (Hm 1%nat). do 4 right. left.
Defined.

Lemma wait_is_a_barrier_witness :
  ∃ evs2', (evs2' `prefix_of` [Put (wdelete 2); Turn 1; Turn 0]) ∧
    l2rows (E := Z) (wL2 wbEnd) 1 =
      applyTasks (l2rows (E := Z) (wL2 wbWorld)) (tasksOf (take 4 wbEvents ++ evs2')) 1.
Proof.
  destruct (wait_is_a_barrier wbHash wbConsts wbWorld (take 4 wbEvents) 1 7 [Put (wdelete 2); Turn 1; Turn 0] wbEnd 1)
    as (evs2' & Hp & Hl).
  - split_and!; [repeat constructor|vm_compute; lia|reflexivity].
  - apply wbEnd_run.
  - apply not_elem_of_nil.
  - intros j. split; intros Hin; repeat (apply elem_of_cons in Hin as [Hin|Hin]; [discriminate|]); by apply elem_of_nil in Hin.
  - vm_compute. left.
  - reflexivity.
  - exists evs2'. split; [exact Hp|exact Hl].
Defined.

(** The queue of key 1 is full of its older writes; 12 is written to the second level at once, and the
    worker puts 11 over it later. *)
Definition wbFull : World Z Z ClockPolicy (list (Z * option (Z * Z))) Z :=
  mkWorld [] 0 (newStats true) [] [[]; [wset 1 10; wset 1 11]] false [] [] [].

Lemma overflow_overtakes_witness :
  ∃ w1 w2, enqueueL2 wbHash wbConsts (wset 1 12) wbFull = Some ((), w1) ∧ MapL2.alookup (wL2 w1) 1 = Some (12, 5) ∧
    Close wbConsts w1 = Some ((), w2) ∧ MapL2.alookup (wL2 w2) 1 = Some (11, 5).
Proof.
  destruct (overflow_overtakes wbHash wbConsts wbFull (wset 1 12)) as (w1 & w2 & E1 & H1 & E2 & H2).
  - reflexivity.
  - vm_compute. lia.
  - intros [|[|i]]; [constructor|repeat constructor|constructor].
  - reflexivity.
  - vm_compute. lia.
  - exists (wset 1 10). split_and!; [left|reflexivity|reflexivity].
  - exists w1, w2. split_and!; [exact E1|exact H1|exact E2|exact (eq_trans (H2 1) eq_refl)].
Defined.
