(* ===== verification/CacheLaws.v ===== *)
(** * The first level of a whole cache

    A cache is its shards, each holding the keys that hash to it.  The operations on the key's shard are
    steps of one abstract cache whose contents, [mem], are those of all shards together; [cache_inv] is
    what holds between operations. *)

From S2P Require Import Prelude Item Table TableInv Policy Shard Lookup ShardSteps ShardInv SetMemory GetMemory ShardSpec Config Stats CacheState.

(** ** Postconditions of computations *)

Definition runs {W A} (m : M W A) (w : W) (Q : A → W → Prop) : Prop := ∃ a w', m w = Some (a, w') ∧ Q a w'.

Lemma runs_ret {W A} (a : A) (w : W) (Q : A → W → Prop) : Q a w → runs (mret a) w Q.
Proof. intros H. by exists a, w. Qed.

Lemma runs_bind {W A B} (m : M W A) (f : A → M W B) (w : W) (Q : B → W → Prop) :
  runs m w (λ a w', runs (f a) w' Q) → runs (m ≫= f) w Q.
Proof.
  intros (a & w1 & E1 & b & w2 & E2 & HQ). exists b, w2. split; [|done]. unfold mbind, M_bind. by rewrite E1.
Qed.

Lemma runs_mono {W A} (m : M W A) (w : W) (Q Q' : A → W → Prop) :
  runs m w Q → (∀ a w', Q a w' → Q' a w') → runs m w Q'.
Proof. intros (a & w' & E & HQ) H. exists a, w'. auto. Qed.

Lemma runs_modify {W} (f : W → W) (w : W) (Q : unit → W → Prop) : Q () (f w) → runs (modify f) w Q.
Proof. intros H. by exists (), (f w). Qed.

Lemma runs_get {W} (w : W) (Q : W → W → Prop) : Q w w → runs get w Q.
Proof. intros H. by exists w, w. Qed.

(** A loop with an invariant over what is done. *)
Lemma runs_forM {W A} (l : list A) (f : A → M W ()) (I : list A → W → Prop) (w : W) (Q : unit → W → Prop) :
  I [] w →
  (∀ dn x rest w, l = dn ++ x :: rest → I dn w → runs (f x) w (λ _ w', I (dn ++ [x]) w')) →
  (∀ w', I l w' → Q () w') →
  runs (forM l f) w Q.
Proof.
  intros H0 Hstep HQ. apply (runs_mono _ _ (λ _ w', I l w')); [|by intros [] w'; apply HQ].
  assert (∀ rest dn w, l = dn ++ rest → I dn w → runs (forM rest f) w (λ _ w', I l w')) as Hall.
  { induction rest as [|x rest IH]; intros dn w1 Hl HI; cbn [forM].
    - apply runs_ret. rewrite app_nil_r in Hl. by subst.
    - apply runs_bind. eapply runs_mono; [by eapply Hstep|]. intros [] w2 H2. apply (IH (dn ++ [x])); [|done].
      by rewrite <- app_assoc. }
  by apply (Hall l []).
Qed.

(** ** Steps of the abstract cache on part of the keys *)

Section Lift.
Context {K V : Type} `{!EqDecision K}.
Implicit Types (m M : K → option (V * Z)) (k : K) (o : op K V) (e : Env K V).

Definition op_key o : K := match o with OSet k _ _ | OGet k | OPeek k | ODelete k => k end.

(** [m] is [M] on the keys of [p], and empty elsewhere. *)
Definition part (p : K → bool) M m : Prop := ∀ k, m k = if p k then M k else None.

Lemma removed_lift p M M' m m' gone :
  part p M m → part p M' m' → (∀ k, p k = false → M' k = M k) → removed m m' gone → removed M M' gone.
Proof.
  intros Hp Hp' Hout [Hnd Hhad Hafter].
  assert (∀ d, d ∈ gone → p (dkey d) = true) as Hin.
  { intros d Hd. specialize (Hhad d Hd). rewrite Hp in Hhad. by destruct (p (dkey d)). }
  split; [done|..].
  - intros d Hd. specialize (Hhad d Hd). rewrite Hp, (Hin d Hd) in Hhad. done.
  - intros k. destruct (p k) eqn:Ek.
    + specialize (Hafter k). rewrite Hp, Hp', Ek in Hafter. done.
    + rewrite Hout by done. rewrite decide_False; [done|]. intros (d & -> & Hd)%list_elem_of_fmap.
      by rewrite (Hin d Hd) in Ek.
Qed.

Lemma part_put p M m k v x : p k = true → part p M m → part p (put M k v x) (put m k v x).
Proof.
  intros Hk Hp k'. unfold put. rewrite (Hp k), Hk. destruct (decide (k' = k)) as [->|]; [by rewrite Hk|apply Hp].
Qed.

Lemma part_at p M m k : p k = true → part p M m → m k = M k.
Proof. intros Hk Hp. by rewrite Hp, Hk. Qed.

(** A step on the keys of one shard is a step on all. *)
Lemma spec_step_lift p e capacity M M' m m' o r ds :
  part p M m → part p M' m' → (∀ k, p k = false → M' k = M k) → p (op_key o) = true →
  spec_step e capacity m o r ds m' → spec_step e capacity M o r ds M'.
Proof.
  intros Hp Hp' Hout Hk Hstep.
  assert (∀ k, (∀ k', m' k' = m k') → M' k = M k) as Heq.
  { intros k Hall. destruct (p k) eqn:Ek; [|by apply Hout].
    by rewrite <- (part_at p M m k), <- (part_at p M' m' k), Hall. }
  destruct Hstep as [k v x ev m' Hfit Hev Hrm|k v x m' Hbig Hrm|k m' Hm Hm'|k v x m' Hm Hex Hm'|k v x m' Hm Hex Hrm|k m' Hm'|k m' Hrm];
    cbn [op_key] in Hk; rewrite ?(part_at p M m k Hk Hp) in *.
  - apply spec_store; [done|done|]. apply (removed_lift p _ _ (put m k v x) m'); [by apply part_put|done| |done].
    intros k' Hk'. rewrite Hout by done. unfold put. rewrite decide_False; [done|]. intros ->. by rewrite Hk in Hk'.
  - apply spec_too_big; [done|]. by apply (removed_lift p _ _ m m').
  - apply spec_miss; [done|]. intros k'. by apply Heq.
  - eapply spec_hit; [done|done|]. intros k'. destruct (p k') eqn:Ek.
    + specialize (Hm' k'). by rewrite (part_at p M m k' Ek Hp), (part_at p M' m' k' Ek Hp') in Hm'.
    + rewrite Hout by done. rewrite decide_False; [done|]. intros ->. by rewrite Hk in Ek.
  - eapply spec_expire; [done|done|]. by apply (removed_lift p _ _ m m').
  - apply spec_peek. intros k'. by apply Heq.
  - apply spec_delete. by apply (removed_lift p _ _ m m').
Qed.

(** The keys after a step. *)
Lemma spec_step_dom e capacity m m' o r ds k x :
  spec_step e capacity m o r ds m' → m' k = Some x → k = op_key o ∨ is_Some (m k).
Proof.
  intros Hstep Hk. destruct Hstep as [k0 v y ev m' Hfit Hev [_ _ Ha]|k0 v y m' Hbig [_ _ Ha]|k0 m' Hm Hm'
    |k0 v y m' Hm Hex Hm'|k0 v y m' Hm Hex [_ _ Ha]|k0 m' Hm'|k0 m' [_ _ Ha]]; cbn [op_key];
    try specialize (Ha k); try specialize (Hm' k); try rewrite Hk in Ha; try rewrite Hk in Hm'; unfold put in *;
    repeat case_decide; try done; eauto.
Qed.

(** The values after a step: what was there, or what the step put there. *)
Definition value_after o k (v : V) : Prop := match o with OSet k' v' _ => k = k' ∧ v = v' | _ => False end.

Lemma spec_step_vals e capacity m m' o r ds k v :
  spec_step e capacity m o r ds m' → fst <$> m' k = Some v →
  value_after o k v ∨ (fst <$> m k = Some v ∧ match o with OSet k' _ _ | ODelete k' => k ≠ k' | _ => True end).
Proof.
  intros Hstep Hk. destruct Hstep as [k0 v0 y ev m' Hfit Hev [_ _ Ha]|k0 v0 y m' Hbig [_ _ Ha]|k0 m' Hm Hm'
    |k0 v0 y m' Hm Hex Hm'|k0 v0 y m' Hm Hex [_ _ Ha]|k0 m' Hm'|k0 m' [_ _ Ha]]; cbn [value_after];
    try specialize (Ha k); try specialize (Hm' k); try rewrite Ha in Hk; try rewrite Hm' in Hk.
  - case_decide; [done|]. unfold put in Hk. case_decide; [|by right]. left. cbn in Hk. by simplify_eq.
  - case_decide as Hin; [done|]. right. split; [done|]. intros ->. destruct (m k0) as [[v1 e1]|]; [|done].
    apply Hin. cbn. set_solver.
  - by right.
  - right. split; [|done]. case_decide; [|done]. subst. by rewrite Hm.
  - case_decide; [done|]. by right.
  - by right.
  - case_decide as Hin; [done|]. right. split; [done|]. intros ->. destruct (m k0) as [[v1 e1]|]; [|done].
    apply Hin. cbn. set_solver.
Qed.

End Lift.

Section Cache.
Context {K V P L E : Type} `{!EqDecision K} `{!GoType K} `{!GoType V}.
Context `{!EvictionPolicy K V P} `{!PolicyLaws K V P} `{!L2Cache K V L E}.
Context (hash : K → Z) (c : Consts K V).
Abbreviation W := (World K V P L E).
Implicit Types (w : W) (k : K) (v : V).

(** The contents of the whole first level. *)
Definition mem w k : option (V * Z) := wShards w !! shardIdx hash c k ≫= λ sh, content (items sh) k.

(** The capacity of the key's shard. *)
Definition capOf w k : Z := default 0 (cap <$> wShards w !! shardIdx hash c k).

Record cache_inv w : Prop := {
  ci_len : Z.of_nat (length (wShards w)) = kShardMask c + 1;
  ci_mask : ∃ n, 0 ≤ n ≤ 31 ∧ kShardMask c + 1 = 2 ^ n;
  ci_shards i sh : wShards w !! i = Some sh → shard_inv hash (envOf c w) sh ∧ cap sh < 2 ^ 31 - 1;
  ci_routed i sh k x : wShards w !! i = Some sh → content (items sh) k = Some x → shardIdx hash c k = i;
  ci_now : 0 ≤ wNow w < 2 ^ 18
}.

Lemma shardIdx_lookup w k : cache_inv w → ∃ sh, wShards w !! shardIdx hash c k = Some sh.
Proof.
  intros [Hlen (n & Hn & Hm) _ _ _]. apply lookup_lt_is_Some. unfold shardIdx.
  replace (kShardMask c) with (2 ^ n - 1) in * by lia. rewrite land_mod_pow2 by lia.
  pose proof (Z.mod_pos_bound (u32 (hash k)) (2 ^ n) ltac:(lia)). lia.
Qed.

(** Only the first level, the counters and the deletion log changed. *)
Record memonly w w' : Prop := {
  mo_now : wNow w' = wNow w; mo_l2 : wL2 w' = wL2 w; mo_queues : wQueues w' = wQueues w;
  mo_stopped : wStopped w' = wStopped w; mo_errors : wErrors w' = wErrors w; mo_released : wReleased w' = wReleased w;
  mo_caps : cap <$> wShards w' = cap <$> wShards w
}.

#[global] Instance memonly_refl : Reflexive memonly.
Proof. by split. Qed.

#[global] Instance memonly_trans : Transitive memonly.
Proof. intros a b d [] []. split; congruence. Qed.

Lemma memonly_capOf w w' k : memonly w w' → capOf w' k = capOf w k.
Proof. intros H. unfold capOf. by rewrite <- !list_lookup_fmap, (mo_caps _ _ H). Qed.

(** Changes that leave the first level alone. *)
Lemma cache_inv_same w w' :
  wShards w' = wShards w → wNow w' = wNow w → cache_inv w → cache_inv w'.
Proof. intros Hs Hn []. split; rewrite ?Hs, ?Hn; try done. unfold envOf. rewrite Hn. done. Qed.

Lemma mem_same w w' k : wShards w' = wShards w → mem w' k = mem w k.
Proof. unfold mem. by intros ->. Qed.

(** A step of the abstract cache over all keys. *)
Definition mem_step w (o : op K V) (r : option V) w' : Prop :=
  cache_inv w' ∧ memonly w w' ∧
  ∃ ds, wDeletions w' = wDeletions w ++ ds ∧ spec_step (envOf c w) (capOf w (op_key o)) (mem w) o r ds (mem w').

(** An operation on the key's shard is one. *)
Lemma onShard_step w (o : op K V) :
  cache_inv w → op_ok o →
  runs (onShard hash c (op_key o) (λ env sh, runOp hash env sh o)) w (λ r w', mem_step w o r w').
Proof.
  intros Hinv Hop. set (k := op_key o). destruct (shardIdx_lookup w k Hinv) as [sh Hsh].
  pose proof Hinv as [Hlen Hmask Hshards Hrouted Hnow]. destruct (Hshards _ _ Hsh) as [Hshi Hcap].
  destruct (runOp_refines hash (envOf c w) sh o Hshi Hcap Hnow Hop) as (sh' & ds & r & E1 & Hshi' & Hc' & Hstep).
  pose proof (lookup_lt_Some _ _ _ Hsh) as Hlt. unfold onShard, runs, mem_step. fold k. rewrite Hsh, E1.
  eexists r, _. split; [reflexivity|].
  assert (∀ k', content (items sh) k' = if bool_decide (shardIdx hash c k' = shardIdx hash c k) then mem w k' else None) as Hpart.
  { intros k'. case_bool_decide as Ei; [unfold mem; by rewrite Ei, Hsh|].
    destruct (content (items sh) k') as [x|] eqn:Ex; [|done]. by rewrite (Hrouted _ _ _ _ Hsh Ex) in Ei. }
  assert (∀ i sh0 k' x, <[shardIdx hash c k := sh']> (wShards w) !! i = Some sh0 →
    content (items sh0) k' = Some x → shardIdx hash c k' = i) as Hrouted'.
  { intros i sh0 k' x Hi Hx. apply list_lookup_insert_Some in Hi as [(<- & <- & _)|[_ Hi]]; [|by eapply Hrouted].
    destruct (spec_step_dom _ _ _ _ _ _ _ _ _ Hstep Hx) as [->|[y Hy]]; [done|]. by eapply Hrouted. }
  split_and!.
  - split; cbn [wShards wNow logDeletions withShards]; try done.
    + by rewrite length_insert.
    + intros i sh0 Hi. apply list_lookup_insert_Some in Hi as [(<- & <- & _)|[_ Hi]]; [|by apply (Hshards i)].
      split; [done|lia].
  - split; cbn; try done. rewrite list_fmap_insert, Hc'. apply list_insert_id. by rewrite list_lookup_fmap, Hsh.
  - exists ds. split; [done|]. unfold capOf. rewrite Hsh. cbn [fmap option_fmap option_map default from_option].
    apply (spec_step_lift (λ k', bool_decide (shardIdx hash c k' = shardIdx hash c k)) _ _ _ _ (content (items sh)) (content (items sh'))).
    + done.
    + intros k'. case_bool_decide as Ei.
      * unfold mem. cbn [wShards logDeletions withShards]. by rewrite Ei, list_lookup_insert_eq.
      * destruct (content (items sh') k') as [x|] eqn:Ex; [|done]. exfalso. apply Ei.
        apply (Hrouted' (shardIdx hash c k) sh' k' x); [by rewrite list_lookup_insert_eq|done].
    + intros k' Ei%bool_decide_eq_false. unfold mem. cbn [wShards logDeletions withShards].
      rewrite list_lookup_insert_ne; [done|]. intros Eq. by apply Ei.
    + by apply bool_decide_eq_true_2.
    + done.
Qed.

Lemma cGetMemory_step w k : cache_inv w → runs (cGetMemory hash c k) w (λ r w', mem_step w (OGet k) r w').
Proof. intros Hinv. by apply (onShard_step w (OGet k) Hinv). Qed.

Lemma cPeekMemory_step w k : cache_inv w → runs (cPeekMemory hash c k) w (λ r w', mem_step w (OPeek k) r w').
Proof. intros Hinv. by apply (onShard_step w (OPeek k) Hinv). Qed.

(** The writes answer nothing. *)
Lemma onShard_unit k (f : Env K V → shard K V P → option (shard K V P * list (deletion K V))) w (Q : option V → W → Prop) :
  runs (onShard hash c k (λ env sh, match f env sh with Some (sh, ds) => Some (sh, ds, None) | None => None end)) w Q →
  runs (onShard hash c k (λ env sh, match f env sh with Some (sh, ds) => Some (sh, ds, ()) | None => None end)) w
    (λ _ w', Q None w').
Proof.
  intros (r & w' & E1 & HQ). unfold onShard in E1. unfold runs, onShard.
  destruct (wShards w !! shardIdx hash c k) as [sh|]; [|done].
  destruct (f (envOf c w) sh) as [[sh' ds]|]; [|done]. injection E1 as <- <-. by eexists (), _.
Qed.

Lemma cSetMemory_step w k v x :
  cache_inv w → 0 ≤ x < 2 ^ 18 → runs (cSetMemory hash c k v x) w (λ _ w', mem_step w (OSet k v x) None w').
Proof. intros Hinv Hx. apply onShard_unit. by apply (onShard_step w (OSet k v x) Hinv). Qed.

Lemma cDeleteMemory_step w k :
  cache_inv w → runs (cDeleteMemory hash c k) w (λ _ w', mem_step w (ODelete k) None w').
Proof. intros Hinv. apply onShard_unit. by apply (onShard_step w (ODelete k) Hinv). Qed.

Lemma expireOffset_range (e : Env K V) : 0 ≤ expireOffset e < 2 ^ 18.
Proof. unfold expireOffset. case_match; [lia|]. pose proof (expireOffsetAt_range e (nowOff e)). lia. Qed.

(** ** What a client sees of a step *)

Definition vals w k : option V := fst <$> mem w k.

(** Nothing appears but what is put there. *)
Lemma mem_step_vals w o r w' k v :
  mem_step w o r w' → vals w' k = Some v →
  value_after o k v ∨ (vals w k = Some v ∧ match o with OSet k' _ _ | ODelete k' => k ≠ k' | _ => True end).
Proof. intros (_ & _ & ds & _ & Hstep). by eapply spec_step_vals. Qed.

Lemma mem_step_get w k r w' v : mem_step w (OGet k) r w' → r = Some v → vals w k = Some v.
Proof. intros (_ & _ & ds & _ & Hstep) ->. unfold vals. inversion Hstep as [| | |? ? ? ? Hm| | |]; subst. by rewrite Hm. Qed.

(** A cache of new shards. *)
Lemma new_cache w :
  Z.of_nat (length (wShards w)) = kShardMask c + 1 → (∃ n, 0 ≤ n ≤ 31 ∧ kShardMask c + 1 = 2 ^ n) → 0 ≤ wNow w < 2 ^ 18 →
  (∀ i sh, wShards w !! i = Some sh → ∃ n capacity p, 6 ≤ n ≤ 32 ∧ 0 ≤ capacity < 2 ^ 31 - 1 ∧
    sh = newShard (2 ^ n) capacity p ∧ pInv (K := K) (V := V) p ∧ pNodes (K := K) (V := V) p = []) →
  cache_inv w ∧ ∀ k, mem w k = None.
Proof.
  intros Hlen Hmask Hnow Hnew.
  assert (∀ i sh, wShards w !! i = Some sh →
    shard_inv hash (envOf c w) sh ∧ cap sh < 2 ^ 31 - 1 ∧ ∀ k, content (items sh) k = None) as Hall.
  { intros i sh Hi. destruct (Hnew i sh Hi) as (n & cp & p & Hn & Hcap & -> & Hp & Hq).
    destruct (newShard_inv hash (envOf c w) n cp p Hn ltac:(lia) Hp Hq) as [Hinv Hempty].
    split_and!; [done|cbn; lia|done]. }
  split.
  - split; try done.
    + intros i sh Hi. by destruct (Hall i sh Hi) as (? & ? & _).
    + intros i sh k x Hi Hx. destruct (Hall i sh Hi) as (_ & _ & He). by rewrite He in Hx.
  - intros k. unfold mem. destruct (wShards w !! shardIdx hash c k) as [sh|] eqn:Ei; [|done].
    cbn. by destruct (Hall _ _ Ei) as (_ & _ & ->).
Qed.

End Cache.
