(* ===== verification/CacheOps.v ===== *)
(** * The public operations on single keys (cache.go, getandrefresh.go)

    Reads, writes, deletions and loads over both levels, the walks over all shards, and the batch
    operations that are loops over them (batch.go).  A result with a flag is an [option]; an error that
    came from the second level is its [E]. *)

From S2P Require Import Prelude Item Table Policy Shard ShardSpec Expiry Config Stats CacheState WriteBack.

(** The errors of the cache's own and the ones it passes on. *)
Inductive Error (E : Type) :=
| ErrTTLDisabled | ErrBadTTL | ErrNilLoader | ErrLoaderPanic | External (e : E).
Arguments ErrTTLDisabled {E}.
Arguments ErrBadTTL {E}.
Arguments ErrNilLoader {E}.
Arguments ErrLoaderPanic {E}.
Arguments External {E}.

Section Ops.
Context {K V P L E : Type} `{!EqDecision K} `{!GoType K} `{!GoType V}.
Context `{!EvictionPolicy K V P} `{!L2Cache K V L E}.
Context (hash : K → Z) (c : Consts K V).
Abbreviation W := (World K V P L E).
Implicit Types (w : W) (key : K) (value : V).

(** [setMemory(key, value, c.expireOffset())] *)
Definition storeMemory key value : M W () := off ← cExpireOffset c; cSetMemory hash c key value off.

(** ** Reads *)

Definition getFromL2 key : M W (option V * option E) :=
  r ← callL2 (λ l, l2Get l key);
  match r with
  | (Some value, None) =>
    stat addL2Hits 1 ≫= λ _, storeMemory key value ≫= λ _, mret (Some value, None)
  | (_, err) => stat addL2Misses 1 ≫= λ _, mret (None, err)
  end.

Definition Get key : M W (option V * option E) :=
  r ← cGetMemory hash c key;
  match r with
  | Some value => stat addMemHits 1 ≫= λ _, mret (Some value, None)
  | None =>
    if kHasL2 c then getFromL2 key
    else stat addMemMisses 1 ≫= λ _, mret (None, None)
  end.

Definition GetFromMemory key : M W (option V) :=
  r ← cGetMemory hash c key;
  match r with
  | Some value => stat addMemHits 1 ≫= λ _, mret (Some value)
  | None => stat addMemMisses 1 ≫= λ _, mret None
  end.

(** ** Writes *)

(** What [Set] and [SetWithTTL] do after the memory write. *)
Definition forwardSet key value (ttl : Z) : M W (option E) :=
  match kWritePolicy c with
  | WriteDisabled => mret None
  | WriteThrough => callL2 (λ l, l2Set l key value ttl)
  | WriteBack => enqueueWriteBack hash c key value ttl ≫= λ _, mret None
  end.

Definition Set_ key value : M W (option E) :=
  storeMemory key value ≫= λ _, stat addSets 1 ≫= λ _, forwardSet key value (kTtl c).

Definition SetWithTTL key value (ttl : Z) : M W (option (Error E)) :=
  if kTtlOff c =? 0 then mret (Some ErrTTLDisabled)
  else if ttl <=? 0 then mret (Some ErrBadTTL)
  else
    w ← get;
    let '(expireOff, effectiveTTL) := expireOffsetOf (wNow w) (kExpireUnit c) ttl in
    cSetMemory hash c key value expireOff ≫= λ _, stat addSets 1 ≫= λ _,
    err ← forwardSet key value effectiveTTL; mret (External <$> err).

Definition Delete key : M W (option E) :=
  cDeleteMemory hash c key ≫= λ _, stat addDeletes 1 ≫= λ _,
  match kWritePolicy c with
  | WriteThrough => callL2 (λ l, l2Delete l key)
  | WriteBack => enqueueDelete hash c key ≫= λ _, mret None
  | WriteDisabled => mret None
  end.

(** ** Loads; [load] is the caller's function *)

Definition storeLoaded key value : M W () :=
  storeMemory key value ≫= λ _, stat addSets 1 ≫= λ _,
  match kWritePolicy c with
  | WriteDisabled => mret ()
  | WriteThrough => err ← callL2 (λ l, l2Set l key value (kTtl c)); reportL2Err c key err
  | WriteBack => enqueueWriteBack hash c key value (kTtl c)
  end.

(** The loader call of [doLoad] and what follows it.  [F] is what a loader that has no value answers. *)
Definition loadAndStore {F} key (load : K → F + V) : M W (F + V) :=
  match load key with
  | inl err => mret (inl err)
  | inr value => storeLoaded key value ≫= λ _, mret (inr value)
  end.

Definition doLoad {F} key (load : K → F + V) : M W (F + V) :=
  r ← cGetMemory hash c key;
  match r with
  | Some value => stat addMemHits 1 ≫= λ _, mret (inr value)
  | None =>
    if kHasL2 c then
      r ← callL2 (λ l, l2Get l key);
      match r with
      | (Some value, None) =>
        stat addL2Hits 1 ≫= λ _, storeMemory key value ≫= λ _, mret (inr value)
      | (_, err) =>
        reportL2Err c key err ≫= λ _, stat addL2Misses 1 ≫= λ _, loadAndStore key load
      end
    else stat addMemMisses 1 ≫= λ _, loadAndStore key load
  end.

(** ** Walks over the shards *)

Definition sumOver (f : shard K V P → Z) w : Z := foldl (λ a sh, a + f sh) 0 (wShards w).

Definition Len w : Z := sumOver live w.
Definition Weight w : Z := sumOver weight w.

(** The sizes of the structures themselves are [unsafe.Sizeof]'s and the read pool's: [fixed]. *)
Definition TotalSize (fixed shardSize bucketSize itemSize writeSize : Z) w : Z :=
  fixed + Z.of_nat (length (wShards w)) * (shardSize + bucketSize) +
  sumOver (λ sh, tBytes (items sh) itemSize + pBytes (K := K) (V := V) (policy sh)) w +
  Z.of_nat (length (wQueues w)) * (Z.of_nat (kQueueCap c) * writeSize).

(** [iterateWithLife]: the pairs it yields to a callback that never stops it, with the life each has
    left.  [yieldAt] is one turn of the loop over a table. *)
Definition yieldAt (nowOff : Z) (t : FlatHashMap K V) (pos : Z) : option (K * V * Z) :=
  let item := At t pos in
  let metaWord := Metadata item in
  if (metaWord =? 0) || negb (Z.land metaWord Dead =? 0) || Expired metaWord nowOff then None
  else match SnapshotInto item metaWord with
  | (_, false) => None
  | (e, true) => Some (Key e, Value e, lifeLeft (kExpireUnit c) metaWord nowOff)
  end.

Definition iterateWithLife w : list (K * V * Z) :=
  concat ((λ sh, omap (yieldAt (wNow w) (items sh)) (seqZ 0 (tLen (items sh)))) <$> wShards w).

(** [Iterator] *)
Definition Iterator w : list (K * V) := fst <$> iterateWithLife w.

(** ** Batches of writes *)

Definition BatchSet (batch : list (K * V)) : M W (option E) :=
  match batch with
  | [] => mret None
  | _ =>
    forM batch (λ item, storeMemory item.1 item.2) ≫= λ _,
    stat addSets (Z.of_nat (length batch)) ≫= λ _,
    match kWritePolicy c with
    | WriteThrough => callL2 (λ l, l2BatchSet l batch (kTtl c))
    | WriteBack => forM batch (λ item, enqueueWriteBack hash c item.1 item.2 (kTtl c)) ≫= λ _, mret None
    | WriteDisabled => mret None
    end
  end.

Definition BatchDelete (keys : list K) : M W (option E) :=
  match keys with
  | [] => mret None
  | _ =>
    forM keys (cDeleteMemory hash c) ≫= λ _,
    stat addDeletes (Z.of_nat (length keys)) ≫= λ _,
    match kWritePolicy c with
    | WriteThrough => callL2 (λ l, l2BatchDelete l keys)
    | WriteBack => forM keys (enqueueDelete hash c) ≫= λ _, mret None
    | WriteDisabled => mret None
    end
  end.

End Ops.
