(* ===== verification/WriteThrough.v ===== *)
(** * A write-through cache refines its second level

    The two levels together, against a book of what was written: the value given last for each key, and the row the second level keeps
    of it, with the lifetime it has left.  However the first level evicts, expires and promotes, a read answers the value given last or
    nothing, and it answers as long as the row lives. *)

From S2P Require Import Prelude Item Table TableInv Policy ClockPolicy Shard Lookup ShardInv SetMemory GetMemory ShardSpec ShardTheorems Expiry Config Stats CacheState CacheLaws WriteBack WriteBackSteps CacheOps.

Section WriteThrough.
Context {K V P L E : Type} `{!EqDecision K} `{!GoType K} `{!GoType V}.
Context `{!EvictionPolicy K V P} `{!PolicyLaws K V P} `{!L2Cache K V L E} `{!L2Laws K V L E}.
Context (hash : K → Z) (c : Consts K V).
Abbreviation W := (World K V P L E).
Abbreviation Row := (l2Data (K := K) (V := V) (L := L) (E := E) * Z)%type.
Implicit Types (w : W) (k : K) (v : V) (m : K → option V).

(** The client's calls; [CTick] is time going by: the coarse clock shows [now], and the store is [dt] nanoseconds older. *)
Inductive call :=
| CGet k | CGetFromMemory k | CSet k v | CSetWithTTL k v (ttl : Z) | CDelete k
| CBatchSet (l : list (K * V)) | CBatchDelete (ks : list K) | CGetOrLoad k (load : K → E + V) | CTick (now dt : Z).

Inductive reply :=
| RGet (r : option V) (e : option E) | RMemory (r : option V) | RDone (e : option (Error E)) | RLoad (r : E + V) | RTick.

Definition tick (now dt : Z) w : W :=
  mkWorld (wShards w) now (wStats w) (l2pass dt (wL2 w)) (wQueues w) (wStopped w) (wDeletions w) (wErrors w) (wReleased w).

Definition done_ (e : option E) : reply := RDone (External <$> e).

Definition runCall (o : call) : M W reply :=
  match o with
  | CGet k => Get hash c k ≫= λ r, mret (RGet r.1 r.2)
  | CGetFromMemory k => GetFromMemory hash c k ≫= λ r, mret (RMemory r)
  | CSet k v => Set_ hash c k v ≫= λ e, mret (done_ e)
  | CSetWithTTL k v ttl => SetWithTTL hash c k v ttl ≫= λ e, mret (RDone e)
  | CDelete k => Delete hash c k ≫= λ e, mret (done_ e)
  | CBatchSet l => BatchSet hash c l ≫= λ e, mret (done_ e)
  | CBatchDelete ks => BatchDelete hash c ks ≫= λ e, mret (done_ e)
  | CGetOrLoad k load => doLoad hash c k load ≫= λ r, mret (RLoad r)
  | CTick now dt => modify (tick now dt) ≫= λ _, mret RTick
  end.

Fixpoint runCalls (l : list call) : M W (list reply) :=
  match l with
  | [] => mret []
  | o :: l => runCall o ≫= λ r, runCalls l ≫= λ rs, mret (r :: rs)
  end.

Definition call_ok (o : call) : Prop := match o with CTick now dt => 0 ≤ now < 2 ^ 18 ∧ 0 ≤ dt | _ => True end.

(** ** The specification *)

(** The value written last for each key and not deleted since, and the row the store has of it. *)
Record book := mkBook { bLast : K → option V; bRows : K → option Row }.
Implicit Types (b : book).

Definition bookOf (s : L) : book := mkBook (l2map s) (l2rows s).

Definition noted b k v (ttl : Z) : book := mkBook (upd (bLast b) k (Some v)) (upd (bRows b) k (Some (l2row v ttl))).
Definition struck b k : book := mkBook (upd (bLast b) k None) (upd (bRows b) k None).
Definition later_ b (dt : Z) : book := mkBook (bLast b) (λ k, bRows b k ≫= aged dt).

(** What a read may answer: the row's value while the row lives; after that nothing, or still the value written last, from memory. *)
Definition offered b k (r : option V) : Prop :=
  match bRows b k with Some row => r = Some (l2dec row.1) | None => r = None ∨ r = bLast b k end.

(** The lifetime [SetWithTTL] passes on: the TTL in whole clock units. *)
Definition effectiveTTL (ttl : Z) : Z := (expireOffsetOf 0 (kExpireUnit c) ttl).2.

(** What a call may answer, and the book after it. *)
Definition spec_call b (o : call) (r : reply) b' : Prop :=
  match o, r with
  | CGet k, RGet v e => offered b k v ∧ e = None ∧ b' = b
  | CGetFromMemory k, RMemory v => (v = None ∨ v = bLast b k) ∧ b' = b
  | CSet k v, RDone e => e = None ∧ b' = noted b k v (kTtl c)
  | CSetWithTTL k v ttl, RDone e =>
    if kTtlOff c =? 0 then e = Some ErrTTLDisabled ∧ b' = b
    else if ttl <=? 0 then e = Some ErrBadTTL ∧ b' = b
    else e = None ∧ b' = noted b k v (effectiveTTL ttl)
  | CDelete k, RDone e => e = None ∧ b' = struck b k
  | CBatchSet l, RDone e => e = None ∧ b' = foldl (λ b kv, noted b kv.1 kv.2 (kTtl c)) b l
  | CBatchDelete ks, RDone e => e = None ∧ b' = foldl struck b ks
  | CGetOrLoad k load, RLoad x =>
    ∃ r, offered b k r ∧
      match r with
      | Some v => x = inr v ∧ b' = b
      | None => x = load k ∧ b' = match load k with inr v => noted b k v (kTtl c) | inl _ => b end
      end
  | CTick _ dt, RTick => b' = later_ b dt
  | _, _ => False
  end.

Inductive spec_calls b : list call → list reply → book → Prop :=
| spec_none : spec_calls b [] [] b
| spec_snoc l rs b1 o r b2 : spec_calls b l rs b1 → spec_call b1 o r b2 → spec_calls b (l ++ [o]) (rs ++ [r]) b2.

(** ** The simulation *)

(** Memory holds nothing the map does not. *)
Definition holds m w : Prop := ∀ k v, vals hash c w k = Some v → m k = Some v.

(** Rows are of the values written last. *)
Definition sound b : Prop := ∀ k row, bRows b k = Some row → bLast b k = Some (l2dec row.1).

(** The state of a write-through cache with the book [b]. *)
Record stands b (errs : list (K * E)) w : Prop := {
  st_inv : cache_inv hash c w;
  st_l2 k : l2rows (wL2 w) k = bRows b k;
  st_sound : sound b;
  st_mem : holds (bLast b) w;
  st_errors : wErrors w = errs
}.

Lemma sound_noted b k v ttl : sound b → sound (noted b k v ttl).
Proof. intros Hb k' row. cbn. unfold upd. case_decide; [|apply Hb]. intros [= <-]. f_equal. symmetry. apply l2row_value. Qed.

Lemma sound_struck b k : sound b → sound (struck b k).
Proof. intros Hb k' row. cbn. unfold upd. case_decide; [done|apply Hb]. Qed.

Lemma sound_later b dt : sound b → sound (later_ b dt).
Proof.
  intros Hb k row. cbn. destruct (bRows b k) as [row'|] eqn:Er; [|done]. cbn. unfold aged. repeat case_match; intros; simplify_eq/=; by apply Hb in Er.
Qed.

Lemma stat_spec b errs f n w (Q : unit → W → Prop) :
  stands b errs w → (∀ w', stands b errs w' → Q () w') → runs (stat f n) w Q.
Proof. intros [] HQ. apply runs_modify, HQ. split; [by apply (cache_inv_same _ _ w)|done..]. Qed.

(** A read of memory, or a write of a value the book already has. *)
Lemma mem_step_stands b errs w o r w' :
  stands b errs w → mem_step hash c w o r w' → (∀ k v, value_after o k v → bLast b k = Some v) → stands b errs w'.
Proof.
  intros [] Hstep Ho. pose proof Hstep as (Hinv' & Hmo & _). destruct Hmo. split; [done| |done| |congruence].
  - intros k. by rewrite mo_l2.
  - intros k v Hv. destruct (mem_step_vals _ _ _ _ _ _ _ _ Hstep Hv) as [?|[? _]]; [by apply Ho|by apply st_mem0].
Qed.

(** Writes of memory that run ahead of the second level: memory already holds the values of the new book. *)
Record ahead b b' (errs : list (K * E)) w : Prop := {
  ah_inv : cache_inv hash c w;
  ah_l2 k : l2rows (wL2 w) k = bRows b k;
  ah_sound : sound b';
  ah_mem : holds (bLast b') w;
  ah_errors : wErrors w = errs
}.

Lemma stands_ahead b errs w : stands b errs w → ahead b b errs w.
Proof. by intros []. Qed.

Lemma stat_ahead b b' errs f n w (Q : unit → W → Prop) :
  ahead b b' errs w → (∀ w', ahead b b' errs w' → Q () w') → runs (stat f n) w Q.
Proof. intros [] HQ. apply runs_modify, HQ. split; [by apply (cache_inv_same _ _ w)|done..]. Qed.

Lemma set_ahead b b1 errs k v ttl x w :
  ahead b b1 errs w → 0 ≤ x < 2 ^ 18 → runs (cSetMemory hash c k v x) w (λ _ w', ahead b (noted b1 k v ttl) errs w').
Proof.
  intros [Hinv Hl Hs Hm He] Hx. eapply runs_mono; [by apply cSetMemory_step|]. intros [] w' Hstep.
  pose proof Hstep as (Hinv' & Hmo & _). destruct Hmo. split; [done|intros k'; by rewrite mo_l2|by apply sound_noted| |congruence].
  intros k' v' Hv. cbn. unfold upd. destruct (mem_step_vals _ _ _ _ _ _ _ _ Hstep Hv) as [[-> ->]|[Hv' Hne]]; [by rewrite decide_True|].
  rewrite decide_False by done. by apply Hm.
Qed.

Lemma storeMemory_ahead b b1 errs k v ttl w :
  ahead b b1 errs w → runs (storeMemory hash c k v) w (λ _ w', ahead b (noted b1 k v ttl) errs w').
Proof.
  intros Ha. unfold storeMemory, cExpireOffset. apply runs_bind, runs_bind, runs_get, runs_ret. apply set_ahead; [done|apply expireOffset_range].
Qed.

Lemma delete_ahead b b1 errs k w :
  ahead b b1 errs w → runs (cDeleteMemory hash c k) w (λ _ w', ahead b (struck b1 k) errs w').
Proof.
  intros [Hinv Hl Hs Hm He]. eapply runs_mono; [by apply cDeleteMemory_step|]. intros [] w' Hstep.
  pose proof Hstep as (Hinv' & Hmo & _). destruct Hmo. split; [done|intros k'; by rewrite mo_l2|by apply sound_struck| |congruence].
  intros k' v' Hv. cbn. unfold upd. destruct (mem_step_vals _ _ _ _ _ _ _ _ Hstep Hv) as [[]|[Hv' Hne]].
  rewrite decide_False by done. by apply Hm.
Qed.

(** The second level catches up. *)
Lemma callL2_catches b b' errs (f : L → L * option E) w :
  ahead b b' errs w →
  (let '(s', e) := f (wL2 w) in e = None ∧ ∀ k, l2rows s' k = bRows b' k) →
  runs (callL2 f) w (λ e w', e = None ∧ stands b' errs w').
Proof.
  intros [Hinv Hl Hs Hm He] Hf. unfold runs, callL2. destruct (f (wL2 w)) as [s' e]. destruct Hf as [-> Hrows].
  eexists None, _. split; [reflexivity|]. split; [done|]. split; [by apply (cache_inv_same _ _ w)|done..].
Qed.

Lemma upd_ext {A} (m m' : K → option A) k o k' : (∀ k, m k = m' k) → upd m k o k' = upd m' k o k'.
Proof. intros H. unfold upd. by case_decide. Qed.

Lemma l2Set_catches b b1 errs k v ttl w :
  ahead b (noted b1 k v ttl) errs w → (∀ k, bRows b k = bRows b1 k) →
  runs (callL2 (λ l, l2Set l k v ttl)) w (λ e w', e = None ∧ stands (noted b1 k v ttl) errs w').
Proof.
  intros Ha Hb. eapply callL2_catches; [done|]. pose proof (l2Set_laws (wL2 w) k v ttl) as Hl. destruct (l2Set (wL2 w) k v ttl) as [s' e].
  destruct Hl as [-> Hl]. split; [done|]. intros k'. rewrite Hl. apply upd_ext. intros k0. by rewrite (ah_l2 _ _ _ _ Ha).
Qed.

Hypothesis Hpol : kWritePolicy c = WriteThrough.
Hypothesis Hl2 : kHasL2 c = true.

(** Promotion of what the second level answered. *)
Lemma promote_spec b errs k v w :
  stands b errs w → bLast b k = Some v → runs (storeMemory hash c k v) w (λ _ w', stands b errs w').
Proof.
  intros Hs Hk. unfold storeMemory, cExpireOffset. apply runs_bind, runs_bind, runs_get, runs_ret.
  eapply runs_mono; [apply cSetMemory_step; [apply Hs|apply expireOffset_range]|]. intros [] w' Hstep.
  eapply mem_step_stands; [done|done|]. by intros k' v' [-> ->].
Qed.

Lemma l2Get_stands b errs k w (Q : option V * option E → W → Prop) :
  stands b errs w → (∀ w', stands b errs w' → Q (l2dec ∘ fst <$> bRows b k, None) w') → runs (callL2 (λ l, l2Get l k)) w Q.
Proof.
  intros [Hinv Hm Hs Hh He] HQ. unfold runs, callL2. pose proof (l2Get_laws (wL2 w) k) as Hl.
  destruct (l2Get (wL2 w) k) as [s' [r e]]. destruct Hl as (-> & -> & Hl). eexists _, _. split; [reflexivity|].
  rewrite Hm. apply HQ. split; [by apply (cache_inv_same _ _ w)| |done..]. intros k'. cbn. by rewrite Hl.
Qed.

(** A hit in memory is the value written last, and the row's value if there is a row. *)
Lemma memory_offered b errs w k v w' :
  stands b errs w → mem_step hash c w (OGet k) (Some v) w' → bLast b k = Some v ∧ offered b k (Some v).
Proof.
  intros Hs Hstep. pose proof (st_mem _ _ _ Hs _ _ (mem_step_get _ _ _ _ _ _ _ Hstep eq_refl)) as Hk. split; [done|].
  unfold offered. destruct (bRows b k) as [row|] eqn:Er; [|by right]. apply (st_sound _ _ _ Hs) in Er. congruence.
Qed.

Lemma Get_stands b errs k w :
  stands b errs w → runs (Get hash c k) w (λ r w', offered b k r.1 ∧ r.2 = None ∧ stands b errs w').
Proof.
  intros Hs. unfold Get. apply runs_bind. eapply runs_mono; [apply cGetMemory_step, Hs|]. intros r w1 Hstep.
  assert (stands b errs w1) as Hs1 by by eapply mem_step_stands.
  destruct r as [v|].
  - apply runs_bind. eapply stat_spec; [done|]. intros w2 Hs2. apply runs_ret. split_and!; [|done|done]. by apply (memory_offered _ _ _ _ _ _ Hs Hstep).
  - rewrite Hl2. unfold getFromL2. apply runs_bind. eapply l2Get_stands; [done|]. intros w2 Hs2. unfold offered.
    destruct (bRows b k) as [row|] eqn:Ek; cbn; apply runs_bind; (eapply stat_spec; [done|]); intros w3 Hs3.
    + apply runs_bind. eapply runs_mono; [by apply (promote_spec b errs _ _ _ ltac:(done) (st_sound _ _ _ Hs _ _ Ek))|]. intros [] w4 Hs4. by apply runs_ret.
    + apply runs_ret. split_and!; [by left|done|done].
Qed.

Lemma Set_stands b errs k v w :
  stands b errs w → runs (Set_ hash c k v) w (λ e w', e = None ∧ stands (noted b k v (kTtl c)) errs w').
Proof.
  intros Hs. unfold Set_. apply runs_bind. eapply runs_mono; [by apply storeMemory_ahead, stands_ahead|].
  intros [] w1 H1. apply runs_bind. eapply stat_ahead; [done|]. intros w2 H2. unfold forwardSet. rewrite Hpol.
  by eapply l2Set_catches.
Qed.

Lemma expireOffsetOf_range now unit ttl : 0 ≤ (expireOffsetOf now unit ttl).1 < 2 ^ 18.
Proof.
  unfold expireOffsetOf. cbn [fst]. change ExpireWrapMask with (2 ^ 18 - 1). rewrite land_mod_pow2 by lia.
  set (x := u32 _). pose proof (Z.mod_pos_bound x (2 ^ 18) ltac:(lia)). case_match; lia.
Qed.

Lemma SetWithTTL_stands b errs k v ttl w :
  stands b errs w → runs (SetWithTTL hash c k v ttl) w (λ e w', ∃ b', spec_call b (CSetWithTTL k v ttl) (RDone e) b' ∧ stands b' errs w').
Proof.
  intros Hs. unfold SetWithTTL, spec_call. destruct (kTtlOff c =? 0); [apply runs_ret; by exists b|].
  destruct (ttl <=? 0); [apply runs_ret; by exists b|]. apply runs_bind, runs_get.
  pose proof (expireOffsetOf_range (wNow w) (kExpireUnit c) ttl) as Hr.
  change (effectiveTTL ttl) with (expireOffsetOf (wNow w) (kExpireUnit c) ttl).2.
  destruct (expireOffsetOf (wNow w) (kExpireUnit c) ttl) as [x eff]. cbn [fst snd] in *.
  apply runs_bind. eapply runs_mono; [by apply (set_ahead b b errs k v eff); [apply stands_ahead|]|]. intros [] w1 H1.
  apply runs_bind. eapply stat_ahead; [done|]. intros w2 H2. apply runs_bind. unfold forwardSet. rewrite Hpol.
  eapply runs_mono; [by eapply l2Set_catches|]. intros e w3 [-> H3]. apply runs_ret. by eexists.
Qed.

Lemma Delete_stands b errs k w :
  stands b errs w → runs (Delete hash c k) w (λ e w', e = None ∧ stands (struck b k) errs w').
Proof.
  intros Hs. unfold Delete. apply runs_bind. eapply runs_mono; [apply delete_ahead, stands_ahead, Hs|].
  intros [] w1 H1. apply runs_bind. eapply stat_ahead; [done|]. intros w2 H2. rewrite Hpol.
  eapply callL2_catches; [done|]. pose proof (l2Delete_laws (wL2 w2) k) as Hl. destruct (l2Delete (wL2 w2) k) as [s' e].
  destruct Hl as [-> Hl]. split; [done|]. intros k'. rewrite Hl. apply upd_ext. apply H2.
Qed.

(** The rows after a batch. *)
Lemma noted_rows ttl l : ∀ b (m : K → option Row) k, (∀ k, m k = bRows b k) →
  updAll m ((λ kv, (kv.1, l2row kv.2 ttl)) <$> l) k = bRows (foldl (λ b kv, noted b kv.1 kv.2 ttl) b l) k.
Proof.
  induction l as [|[k0 v0] l IH]; intros b m k H; [apply H|]. cbn. apply IH. intros k'. cbn. by apply upd_ext.
Qed.

Lemma struck_rows l : ∀ b (m : K → option Row) k, (∀ k, m k = bRows b k) → dropAll m l k = bRows (foldl struck b l) k.
Proof. induction l as [|k0 l IH]; intros b m k H; [apply H|]. cbn. apply IH. intros k'. cbn. by apply upd_ext. Qed.

Lemma BatchSet_stands b errs l w :
  stands b errs w → runs (BatchSet hash c l) w (λ e w', e = None ∧ stands (foldl (λ b kv, noted b kv.1 kv.2 (kTtl c)) b l) errs w').
Proof.
  intros Hs. unfold BatchSet. destruct l as [|kv0 l0]; [by apply runs_ret|]. set (l := kv0 :: l0). apply runs_bind.
  apply (runs_forM l _ (λ dn w', ahead b (foldl (λ b kv, noted b kv.1 kv.2 (kTtl c)) b dn) errs w')); [by apply stands_ahead|..].
  { intros dn kv rest w' _ Ha. rewrite foldl_app. by apply storeMemory_ahead. }
  intros w1 H1. apply runs_bind. eapply stat_ahead; [done|]. intros w2 H2. rewrite Hpol.
  eapply callL2_catches; [done|]. pose proof (l2BatchSet_laws (wL2 w2) l (kTtl c)) as Hl. destruct (l2BatchSet (wL2 w2) l (kTtl c)) as [s' e].
  destruct Hl as [-> Hl]. split; [done|]. intros k. rewrite Hl. apply (noted_rows (kTtl c) l). apply H2.
Qed.

Lemma BatchDelete_stands b errs ks w :
  stands b errs w → runs (BatchDelete hash c ks) w (λ e w', e = None ∧ stands (foldl struck b ks) errs w').
Proof.
  intros Hs. unfold BatchDelete. destruct ks as [|k0 l0]; [by apply runs_ret|]. set (l := k0 :: l0). apply runs_bind.
  apply (runs_forM l _ (λ dn w', ahead b (foldl struck b dn) errs w')); [by apply stands_ahead|..].
  { intros dn k rest w' _ Ha. rewrite foldl_app. by apply delete_ahead. }
  intros w1 H1. apply runs_bind. eapply stat_ahead; [done|]. intros w2 H2. rewrite Hpol.
  eapply callL2_catches; [done|]. pose proof (l2BatchDelete_laws (wL2 w2) l) as Hl. destruct (l2BatchDelete (wL2 w2) l) as [s' e].
  destruct Hl as [-> Hl]. split; [done|]. intros k. rewrite Hl. apply struck_rows. apply H2.
Qed.

Lemma loadAndStore_stands b errs k (load : K → E + V) w :
  stands b errs w →
  runs (loadAndStore hash c k load) w (λ r w',
    r = load k ∧ stands (match load k with inr v => noted b k v (kTtl c) | inl _ => b end) errs w').
Proof.
  intros Hs. unfold loadAndStore. destruct (load k) as [err|v]; [by apply runs_ret|].
  apply runs_bind. unfold storeLoaded. apply runs_bind.
  eapply runs_mono; [by apply storeMemory_ahead, stands_ahead|]. intros [] w1 H1.
  apply runs_bind. eapply stat_ahead; [done|]. intros w2 H2. rewrite Hpol. apply runs_bind.
  eapply runs_mono; [by eapply l2Set_catches|]. intros e w3 [-> H3]. apply runs_ret. by apply runs_ret.
Qed.

Lemma doLoad_stands b errs k (load : K → E + V) w :
  stands b errs w →
  runs (doLoad hash c k load) w (λ x w', ∃ b', spec_call b (CGetOrLoad k load) (RLoad x) b' ∧ stands b' errs w').
Proof.
  intros Hs. unfold doLoad. apply runs_bind. eapply runs_mono; [apply cGetMemory_step, Hs|]. intros r w1 Hstep.
  assert (stands b errs w1) as Hs1 by by eapply mem_step_stands.
  destruct r as [v|].
  - apply runs_bind. eapply stat_spec; [done|]. intros w2 Hs2. apply runs_ret. exists b. split; [|done]. exists (Some v).
    split; [by apply (memory_offered _ _ _ _ _ _ Hs Hstep)|done].
  - rewrite Hl2. apply runs_bind. eapply l2Get_stands; [done|]. intros w2 Hs2. unfold spec_call, offered.
    destruct (bRows b k) as [row|] eqn:Ek; cbn.
    + apply runs_bind. eapply stat_spec; [done|]. intros w3 Hs3. apply runs_bind.
      eapply runs_mono; [by apply (promote_spec b errs _ _ _ ltac:(done) (st_sound _ _ _ Hs _ _ Ek))|]. intros [] w4 Hs4. apply runs_ret.
      exists b. split; [|done]. by eexists.
    + apply runs_bind, runs_ret, runs_bind. eapply stat_spec; [done|]. intros w3 Hs3.
      eapply runs_mono; [by apply loadAndStore_stands|]. intros x w4 [-> H4]. eexists. split; [|done]. exists None. split_and!; [by left|done..].
Qed.

Lemma GetFromMemory_stands b errs k w :
  stands b errs w → runs (GetFromMemory hash c k) w (λ r w', (r = None ∨ r = bLast b k) ∧ stands b errs w').
Proof.
  intros Hs. unfold GetFromMemory. apply runs_bind. eapply runs_mono; [apply cGetMemory_step, Hs|]. intros r w1 Hstep.
  assert (stands b errs w1) as Hs1 by by eapply mem_step_stands.
  destruct r as [v|]; apply runs_bind; (eapply stat_spec; [done|]); intros w2 Hs2; apply runs_ret; (split; [|done]); [|by left].
  right. by destruct (memory_offered _ _ _ _ _ _ Hs Hstep) as [-> _].
Qed.

Lemma tick_stands b errs now dt w : 0 ≤ now < 2 ^ 18 → stands b errs w → stands (later_ b dt) errs (tick now dt w).
Proof.
  intros Hn [[Hlen Hmask Hsh Hrt _] Hl Hs Hh He]. split; [|cbn; intros k; by rewrite l2pass_laws, Hl|by apply sound_later|done|done]. split; try done.
  intros i sh Hi. destruct (Hsh i sh Hi) as [Hinv Hcap]. split; [|done]. by apply (inv_atTime hash (envOf c w) now).
Qed.

Lemma runCall_stands b errs o w :
  stands b errs w → call_ok o → runs (runCall o) w (λ r w', ∃ b', spec_call b o r b' ∧ stands b' errs w').
Proof.
  intros Hs Ho. destruct o; cbn [runCall]; apply runs_bind.
  - eapply runs_mono; [by eapply Get_stands|]. intros [r e] w' (Hr & He & H). apply runs_ret. by exists b.
  - eapply runs_mono; [by eapply GetFromMemory_stands|]. intros r w' [Hr H]. apply runs_ret. by exists b.
  - eapply runs_mono; [by eapply Set_stands|]. intros r w' [-> H]. apply runs_ret. by eexists.
  - eapply runs_mono; [by eapply SetWithTTL_stands|]. intros r w' H. by apply runs_ret.
  - eapply runs_mono; [by eapply Delete_stands|]. intros r w' [-> H]. apply runs_ret. by eexists.
  - eapply runs_mono; [by eapply BatchSet_stands|]. intros r w' [-> H]. apply runs_ret. by eexists.
  - eapply runs_mono; [by eapply BatchDelete_stands|]. intros r w' [-> H]. apply runs_ret. by eexists.
  - eapply runs_mono; [by eapply doLoad_stands|]. intros r w' H. by apply runs_ret.
  - apply runs_modify, runs_ret. exists (later_ b dt). split; [done|]. apply tick_stands; [apply Ho|done].
Qed.

Lemma runCalls_stands b0 errs l : ∀ dn rs b w,
  spec_calls b0 dn rs b → stands b errs w → Forall call_ok l →
  runs (runCalls l) w (λ rs' w', ∃ b', spec_calls b0 (dn ++ l) (rs ++ rs') b' ∧ stands b' errs w').
Proof.
  induction l as [|o l IH]; intros dn rs b w Hdn Hs Hl; cbn [runCalls].
  - apply runs_ret. exists b. by rewrite !app_nil_r.
  - apply Forall_cons in Hl as [Ho Hl]. apply runs_bind. eapply runs_mono; [by apply runCall_stands|]. intros r w1 (b1 & H1 & Hs1).
    apply runs_bind. eapply runs_mono; [apply (IH (dn ++ [o]) (rs ++ [r]) b1 w1); [by econstructor|done|done]|].
    intros rs' w2 (b2 & H2 & Hs2). apply runs_ret. exists b2. by rewrite <- !app_assoc in H2.
Qed.

(** C34: A write-through cache refines the book of its writes.  Over a second level that does not fail and keeps rows for the lifetime
    their TTL asks for, from a state whose memory agrees with it: any calls (reads, writes with and without their own TTL, deletions,
    batches, loads) with time going by between them return, and every answer is one the book allows.  A read answers the row's value as
    long as the row lives; after that it answers nothing, or still the value written last for the key, which memory may serve longer
    than the second level; never a value that was overwritten or deleted.  A load that finds nothing answers what the loader does and
    notes it, SetWithTTL passes on the TTL in whole clock units or fails as documented.  Afterwards the second level holds exactly the
    book's rows, no error was reported, and the cache invariant holds. *)
Theorem write_through_refines w l :
  cache_inv hash c w → holds (l2map (wL2 w)) w → Forall call_ok l →
  runs (runCalls l) w (λ rs w', ∃ b', spec_calls (bookOf (wL2 w)) l rs b' ∧
    (∀ k, l2rows (wL2 w') k = bRows b' k) ∧ holds (bLast b') w' ∧ cache_inv hash c w' ∧ wErrors w' = wErrors w).
Proof.
  intros Hinv Hh Hl. eapply runs_mono; [apply (runCalls_stands (bookOf (wL2 w)) (wErrors w) l [] [] (bookOf (wL2 w)) w); [constructor| |done]|].
  - split; [done|done| |done|done]. intros k row Hr. cbn in *. unfold l2map. by rewrite Hr.
  - intros rs w' (b' & Hs & []). by exists b'.
Qed.

(** ** One key through other calls *)

(** Calls that neither write, delete nor load a key, and the time that goes by in some calls. *)
Definition leaves k (o : call) : Prop :=
  match o with
  | CSet k' _ | CSetWithTTL k' _ _ | CDelete k' | CGetOrLoad k' _ => k' ≠ k
  | CBatchSet l => k ∉ l.*1
  | CBatchDelete ks => k ∉ ks
  | CGet _ | CGetFromMemory _ | CTick _ _ => True
  end.

Definition elapsedIn (o : call) : Z := match o with CTick _ dt => dt | _ => 0 end.
Definition elapsed (l : list call) : Z := foldl (λ t o, t + elapsedIn o) 0 l.

Lemma aged_0 {A} (r : A * Z) : 0 ≤ r.2 → aged 0 r = Some r.
Proof. intros Hr. unfold aged. destruct (Z.eqb_spec r.2 0), (Z.leb_spec r.2 0); try done; [lia|]. destruct r. cbn. by rewrite Z.sub_0_r. Qed.

Lemma aged_aged {A} (r : A * Z) s t : 0 ≤ s → 0 ≤ t → aged s r ≫= aged t = aged (s + t) r.
Proof.
  intros Hs Ht. unfold aged. destruct (Z.eqb_spec r.2 0) as [E0|E0]; cbn; [by rewrite E0|].
  destruct (Z.leb_spec r.2 s); cbn; [by rewrite (proj2 (Z.leb_le r.2 (s + t))) by lia|].
  rewrite (proj2 (Z.eqb_neq (r.2 - s) 0)) by lia.
  destruct (Z.leb_spec (r.2 - s) t), (Z.leb_spec r.2 (s + t)); try lia; [done|]. f_equal. f_equal. lia.
Qed.

Lemma noted_leaves l ttl k : ∀ b, k ∉ l.*1 →
  bLast (foldl (λ b kv, noted b kv.1 kv.2 ttl) b l) k = bLast b k ∧ bRows (foldl (λ b kv, noted b kv.1 kv.2 ttl) b l) k = bRows b k.
Proof.
  induction l as [|[k' v] l IH]; intros b Hk; [done|]. cbn in Hk. apply not_elem_of_cons in Hk as [Hne Hk]. cbn [foldl].
  destruct (IH (noted b k' v ttl) Hk) as [H1 H2]. cbn [fst snd] in *. rewrite H1, H2. cbn. unfold upd. by rewrite !decide_False by done.
Qed.

Lemma struck_leaves ks k : ∀ b, k ∉ ks → bLast (foldl struck b ks) k = bLast b k ∧ bRows (foldl struck b ks) k = bRows b k.
Proof.
  induction ks as [|k' ks IH]; intros b Hk; [done|]. apply not_elem_of_cons in Hk as [Hne Hk]. cbn [foldl].
  destruct (IH (struck b k') Hk) as [-> ->]. cbn. unfold upd. by rewrite !decide_False by done.
Qed.

Lemma call_leaves b o r b' k :
  spec_call b o r b' → leaves k o → bLast b' k = bLast b k ∧ bRows b' k = match o with CTick _ dt => bRows b k ≫= aged dt | _ => bRows b k end.
Proof.
  intros Hcall Ho. destruct o, r; cbn in Hcall, Ho; try done.
  - by destruct Hcall as (_ & _ & ->).
  - by destruct Hcall as [_ ->].
  - destruct Hcall as [_ ->]. cbn. unfold upd. by rewrite !decide_False by done.
  - destruct (kTtlOff c =? 0); [by destruct Hcall as [_ ->]|]. destruct (ttl <=? 0); [by destruct Hcall as [_ ->]|]. destruct Hcall as [_ ->].
    cbn. unfold upd. by rewrite !decide_False by done.
  - destruct Hcall as [_ ->]. cbn. unfold upd. by rewrite !decide_False by done.
  - destruct Hcall as [_ ->]. by apply noted_leaves.
  - destruct Hcall as [_ ->]. by apply struck_leaves.
  - destruct Hcall as (r' & _ & Hx). destruct r' as [v|]; [by destruct Hx as [_ ->]|]. destruct Hx as [_ ->].
    destruct (load k0); [done|]. cbn. unfold upd. by rewrite !decide_False by done.
  - by subst b'.
Qed.

Lemma calls_leave b l rs b' k :
  spec_calls b l rs b' → Forall (leaves k) l → Forall call_ok l → (∀ row, bRows b k = Some row → 0 ≤ row.2) →
  0 ≤ elapsed l ∧ bLast b' k = bLast b k ∧ bRows b' k = bRows b k ≫= aged (elapsed l).
Proof.
  intros Hrun. induction Hrun as [|l rs b1 o r b2 _ IH Hcall]; intros Hl Hok Hpos.
  - split_and!; [done|done|]. cbn. destruct (bRows b k) as [row|] eqn:Er; [|done]. cbn. symmetry. by apply aged_0, Hpos.
  - apply Forall_app in Hl as [Hl [Ho _]%Forall_cons]. apply Forall_app in Hok as [Hok [Hoo _]%Forall_cons].
    destruct (IH Hl Hok Hpos) as (He & Hlast & Hrows). destruct (call_leaves _ _ _ _ k Hcall Ho) as [-> Hr].
    unfold elapsed in *. rewrite foldl_app. cbn [foldl].
    destruct o; cbn [elapsedIn] in *; rewrite ?Z.add_0_r; try by (split_and!; [done|done|by rewrite Hr]).
    destruct Hoo as [_ Hdt]. split_and!; [lia|done|]. rewrite Hr, Hrows. destruct (bRows b k); [|done]. cbn. by apply aged_aged.
Qed.

Lemma spec_calls_cons b o l rs b' :
  spec_calls b (o :: l) rs b' → ∃ r rs' b1, rs = r :: rs' ∧ spec_call b o r b1 ∧ spec_calls b1 l rs' b'.
Proof.
  intros Hrun. remember (o :: l) as ol eqn:Eol. revert l Eol. induction Hrun as [|l0 rs b1 o0 r b2 Hrun IH Hcall]; intros l Eol; [done|].
  destruct l0 as [|o1 l0]; injection Eol as -> <-.
  - inversion Hrun as [|? ? ? ? ? ? _ _ Heq Hrs]; [subst; by exists r, [], b2; split_and!; [..|constructor]|by destruct l].
  - destruct (IH l0 eq_refl) as (r1 & rs1 & b3 & -> & H1 & H2). exists r1, (rs1 ++ [r]), b3. split_and!; [done|done|by econstructor].
Qed.

Lemma spec_calls_snoc b l o rs b' :
  spec_calls b (l ++ [o]) rs b' → ∃ rs' r b1, rs = rs' ++ [r] ∧ spec_calls b l rs' b1 ∧ spec_call b1 o r b'.
Proof. intros Hrun. inversion Hrun as [Heq|l0 rs0 b1 o0 r b2 H1 H2 Heq]; [by destruct l|]. apply app_inj_2 in Heq as [-> [= ->]]; [|done]. by exists rs0, r, b1. Qed.

(** A call that stores a value, and the TTL it hands to the second level. *)
Definition stores (o : call) k v (ttl : Z) : Prop :=
  o = CSet k v ∧ ttl = kTtl c ∨
  ∃ t, o = CSetWithTTL k v t ∧ kTtlOff c ≠ 0 ∧ 0 < t ∧ ttl = effectiveTTL t.

(** A write, calls that leave its key alone, and a read of it. *)
Lemma stored_then_read b o k v ttl l rs b' :
  stores o k v ttl → 0 ≤ l2life ttl → Forall (leaves k) l → Forall call_ok l → spec_calls b (o :: l ++ [CGet k]) rs b' →
  bRows b' k = aged (elapsed l) (l2row v ttl) ∧
  ∃ rs' r, rs = RDone None :: rs' ++ [RGet r None] ∧
    match aged (elapsed l) (l2row v ttl) with Some _ => r = Some v | None => r = None ∨ r = Some v end.
Proof.
  intros Ho Hlife Hl Hok Hrun. apply spec_calls_cons in Hrun as (r0 & rs0 & b1 & -> & H0 & Hrun).
  apply spec_calls_snoc in Hrun as (rs' & r1 & b2 & -> & Hrun & H1).
  assert (r0 = RDone None ∧ b1 = noted b k v ttl) as [-> ->].
  { destruct Ho as [[-> ->]|(t & -> & Hoff & Ht & ->)]; destruct r0; cbn in H0; try done.
    - by destruct H0 as [-> ->].
    - rewrite (proj2 (Z.eqb_neq _ _) Hoff), (proj2 (Z.leb_gt _ _) Ht) in H0. by destruct H0 as [-> ->]. }
  destruct (calls_leave _ _ _ _ k Hrun Hl Hok) as (_ & Hlast & Hrows); [cbn; unfold upd; rewrite decide_True by done; by intros row [= <-]|].
  cbn [noted bLast bRows] in Hlast, Hrows. unfold upd in Hlast, Hrows. rewrite decide_True in Hlast by done. rewrite decide_True in Hrows by done.
  change (Some (l2row v ttl) ≫= aged (elapsed l)) with (aged (elapsed l) (l2row v ttl)) in Hrows.
  destruct r1; cbn in H1; try done. destruct H1 as (Hr & -> & ->). split; [exact Hrows|]. exists rs', r. split; [done|].
  unfold offered in Hr. rewrite Hrows, Hlast in Hr. destruct (aged (elapsed l) (l2row v ttl)) as [row|] eqn:Ea; [|done].
  rewrite Hr. f_equal. unfold aged in Ea. repeat case_match; simplify_eq/=; apply l2dec_enc.
Qed.

(** ** Without TTLs *)

(** Nothing in the book expires. *)
Definition lasting b : Prop :=
  (∀ k, bRows b k = None → bLast b k = None) ∧ ∀ k row, bRows b k = Some row → row.2 = 0.

(** What a map does on a call. *)
Definition mapCall m (o : call) : K → option V :=
  match o with
  | CSet k v => upd m k (Some v)
  | CDelete k => upd m k None
  | CBatchSet l => updAll m l
  | CBatchDelete ks => dropAll m ks
  | CGetOrLoad k load => match m k, load k with None, inr v => upd m k (Some v) | _, _ => m end
  | CGet _ | CGetFromMemory _ | CSetWithTTL _ _ _ | CTick _ _ => m
  end.

Lemma lasting_offered b k r : sound b → lasting b → offered b k r → r = bLast b k.
Proof.
  intros Hs [Hb _]. unfold offered. destruct (bRows b k) as [row|] eqn:Er; [intros ->; symmetry; by apply Hs|].
  rewrite (Hb k Er). by intros [-> | ->].
Qed.

Lemma lasting_noted b k v : lasting b → lasting (noted b k v 0).
Proof.
  intros [Hb Hz]. split; intros k'; cbn; unfold upd; case_decide; try done; [by apply Hb|intros row [= <-]; apply l2life_none|apply Hz].
Qed.

Lemma lasting_struck b k : lasting b → lasting (struck b k).
Proof. intros [Hb Hz]. split; intros k'; cbn; unfold upd; case_decide; try done; [by apply Hb|apply Hz]. Qed.

Hypothesis Httl : kTtl c = 0.
Hypothesis Hoff : kTtlOff c = 0.

Lemma lasting_call b o r b' :
  sound b → lasting b → spec_call b o r b' → sound b' ∧ lasting b' ∧ bLast b' = mapCall (bLast b) o.
Proof.
  intros Hs Hb Hcall. destruct o, r; cbn in Hcall; try done; rewrite ?Httl, ?Hoff in Hcall.
  - by destruct Hcall as (_ & _ & ->).
  - by destruct Hcall as [_ ->].
  - destruct Hcall as [_ ->]. split_and!; [by apply sound_noted|by apply lasting_noted|done].
  - by destruct Hcall as [_ ->].
  - destruct Hcall as [_ ->]. split_and!; [by apply sound_struck|by apply lasting_struck|done].
  - destruct Hcall as [_ ->]. cbn [mapCall]. clear e. revert b Hs Hb. induction l as [|[k v] l IH]; intros b Hs Hb; [done|].
    apply (IH (noted b k v 0)); [by apply sound_noted|by apply lasting_noted].
  - destruct Hcall as [_ ->]. cbn [mapCall]. clear e. revert b Hs Hb. induction ks as [|k ks IH]; intros b Hs Hb; [done|].
    apply (IH (struck b k)); [by apply sound_struck|by apply lasting_struck].
  - destruct Hcall as (r' & Hr & Hx). apply lasting_offered in Hr; [|done|done]. cbn [mapCall]. rewrite <- Hr. destruct r' as [v|].
    + by destruct Hx as [_ ->].
    + destruct Hx as [_ ->]. destruct (load k) as [e|v]; [done|]. split_and!; [by apply sound_noted|by apply lasting_noted|done].
  - subst b'. split_and!; [by apply sound_later| |done]. destruct Hb as [Hn Hz]. split; intros k; cbn.
    + destruct (bRows b k) as [row|] eqn:Er; [|intros _; by apply Hn]. cbn. unfold aged. by rewrite (Hz k row Er).
    + intros row. destruct (bRows b k) as [row'|] eqn:Er; [|done]. cbn. unfold aged. rewrite (Hz k row' Er). intros [= <-]. by eapply Hz.
Qed.

(** Without a TTL the cache is a map: over a store whose rows do not end, a read after any calls answers what a map that started with the
    store's values would hold after the same writes. *)
Theorem write_through_is_a_map w l k :
  cache_inv hash c w → holds (l2map (wL2 w)) w → (∀ k row, l2rows (wL2 w) k = Some row → row.2 = 0) → Forall call_ok l →
  runs (runCalls l ≫= λ _, Get hash c k) w (λ r w', r = (foldl mapCall (l2map (wL2 w)) l k, None)).
Proof.
  intros Hinv Hh Hz Hl. set (b0 := bookOf (wL2 w)).
  assert (sound b0) as Hs0 by (intros k' row Hr; cbn in *; unfold l2map; by rewrite Hr).
  assert (lasting b0) as Hb0 by (split; [|apply Hz]; intros k' Hr; cbn in *; unfold l2map; by rewrite Hr).
  apply runs_bind. eapply runs_mono; [apply (runCalls_stands b0 (wErrors w) l [] [] b0 w); [constructor|by split|done]|].
  intros rs w1 (b1 & Hrun & Hs1). cbn [app] in Hrun.
  assert (sound b1 ∧ lasting b1 ∧ bLast b1 = foldl mapCall (bLast b0) l) as (Hsb & Hlb & Hm).
  { clear - Hrun Hs0 Hb0 Httl Hoff. induction Hrun as [|l rs b1 o r b2 _ IH Hcall]; [done|].
    destruct IH as (H1 & H2 & H3). destruct (lasting_call _ _ _ _ H1 H2 Hcall) as (? & ? & ->). by rewrite H3, foldl_app. }
  eapply runs_mono; [by eapply Get_stands|]. intros [r e] w2 (Hr & He & _). cbn in *. subst e. f_equal.
  rewrite (lasting_offered _ _ _ Hsb Hlb Hr), Hm. done.
Qed.

End WriteThrough.

(** ** An instance: two shards of one item each *)

Definition wtConsts : Consts Z Z :=
  mkConsts None 1 false 0 1 0 false true WriteThrough BatchingFull 2 true.

Definition wtWorld : World Z Z ClockPolicy (list (Z * option (Z * Z))) Z :=
  mkWorld [newShard 64 1 NewClockPolicy; newShard 64 1 NewClockPolicy] 0 (newStats true) [(9, Some (90, 3000))] [] false [] [] [].

(** Keys 2, 4 and 6 share a shard that holds one item; the row of key 9 has 3000 ns to live. *)
Definition wtCalls : list (call (K := Z) (V := Z) (E := Z)) :=
  [CSet 2 20; CSet 4 40; CGet 9; CSet 6 60; CTick 7 5000; CGet 2; CGet 9; CBatchSet [(1, 10); (3, 30); (5, 50); (2, 21)]; CGet 9; CGetOrLoad 8 (λ k, inr (k * 10)); CGet 2].

Lemma wtWorld_inv : cache_inv hashZ wtConsts wtWorld ∧ ∀ k, mem hashZ wtConsts wtWorld k = None.
Proof.
  apply new_cache; [done|exists 1; by split; [lia|]|by cbn; lia|].
  intros i sh Hi. exists 6, 1, NewClockPolicy. split_and!; try lia; [|apply empty_clock..].
  do 2 (destruct i as [|i]; [by injection Hi as <-|]). done.
Qed.

(** Key 9 is answered from memory after its row is gone, and no more once other keys took its place. *)
Lemma write_through_refines_witness :
  runs (runCalls hashZ wtConsts wtCalls) wtWorld (λ rs w', ∃ b', spec_calls wtConsts (bookOf (E := Z) (wL2 wtWorld)) wtCalls rs b' ∧
    rs = [RDone None; RDone None; RGet (Some 90) None; RDone None; RTick; RGet (Some 20) None; RGet (Some 90) None; RDone None; RGet None None;
      RLoad (inr 80); RGet (Some 21) None] ∧ cache_inv hashZ wtConsts w').
Proof.
  destruct (write_through_refines hashZ wtConsts eq_refl eq_refl wtWorld wtCalls) as (rs & w' & E & b' & Hs & _ & _ & Hinv & _).
  - apply wtWorld_inv.
  - intros k v Hv. unfold vals in Hv. rewrite (proj2 wtWorld_inv) in Hv. discriminate Hv.
  - repeat constructor; cbn; lia.
  - exists rs, w'. split; [exact E|]. exists b'. split_and!; [exact Hs| |exact Hinv].
    pose proof (f_equal (fmap fst) E) as Hv. vm_compute in Hv. injection Hv as <-. reflexivity.
Defined.
