(* ===== verification/WriteBackReads.v ===== *)
(** * Reads while writes are pending

    Under write-back a read that misses memory goes to the second level as it is, whatever waits in the
    queues: a deletion that has not been delivered is not seen. *)

From S2P Require Import Prelude Item Table TableInv Policy ClockPolicy Shard Lookup ShardInv SetMemory GetMemory ShardSpec ShardTheorems Expiry Config Stats CacheState CacheLaws WriteBack WriteBackSteps WriteBackTheorems CacheOps.

Section Reads.
Context {K V P L E : Type} `{!EqDecision K} `{!GoType K} `{!GoType V}.
Context `{!EvictionPolicy K V P} `{!PolicyLaws K V P} `{!L2Cache K V L E} `{!L2Laws K V L E}.
Context (hash : K → Z) (c : Consts K V).
Abbreviation W := (World K V P L E).
Implicit Types (w : W) (k : K) (v : V).

Lemma enqueue_room t w :
  wStopped w = false → room c w (queueOf hash w (wkey t)) →
  runs (enqueueL2 hash c t) w (λ _ w', w' = withQueues w
    (<[queueOf hash w (wkey t) := queues w (queueOf hash w (wkey t)) ++ [t]]> (wQueues w))).
Proof.
  intros Hst (q & Hq & Hlen). unfold runs, enqueueL2, get, modify, mbind, M_bind. rewrite Hst. fold (queueOf hash w (wkey t)).
  unfold queues. rewrite Hq. cbn [default from_option id]. rewrite (proj2 (Nat.ltb_lt _ _) Hlen). by eexists (), _.
Qed.

(** The key's shard can take [v] without an eviction. *)
Definition fits w k v : Prop :=
  ∃ sh, wShards w !! shardIdx hash c k = Some sh ∧ weight sh + rawCost (envOf c w) k v ≤ cap sh.

(** A deletion from memory, as a client sees it. *)
Lemma cDeleteMemory_room w k v :
  cache_inv hash c w → fits w k v →
  runs (cDeleteMemory hash c k) w (λ _ w', cache_inv hash c w' ∧ memonly w w' ∧ mem hash c w' k = None ∧ fits w' k v).
Proof.
  intros Hinv (sh & Hsh & Hfit). destruct (cDeleteMemory_step hash c w k Hinv) as ([] & w' & Ew & Hs). exists (), w'. split; [done|].
  pose proof Hs as (Hinv' & Hmo & _). split_and!; [done|done| |].
  - destruct (mem hash c w' k) as [[v' e]|] eqn:Ek; [|done].
    destruct (mem_step_vals _ _ _ _ _ _ k v' Hs) as [[]|[_ Hne]]; [unfold vals; by rewrite Ek|done].
  - destruct (ci_shards _ _ _ Hinv _ _ Hsh) as [Hshi _]. unfold cDeleteMemory, onShard in Ew. rewrite Hsh in Ew.
    destruct (deleteMemory_spec hash (envOf c w) sh k [] Hshi) as (sh' & E1 & _ & Hcap & Hw & _). rewrite E1 in Ew. injection Ew as <-.
    exists sh'. split; [cbn; apply list_lookup_insert_eq; by eapply lookup_lt_Some|]. change (envOf c _) with (envOf c w). lia.
Qed.

(** A read of a key memory does not hold leaves the shards as they are. *)
Lemma cGetMemory_miss w k :
  cache_inv hash c w → mem hash c w k = None →
  runs (cGetMemory hash c k) w (λ r w', r = None ∧ wShards w' = wShards w ∧ memonly w w').
Proof.
  intros Hinv Hk. destruct (shardIdx_lookup hash c w k Hinv) as [sh Hsh]. unfold mem in Hk. rewrite Hsh in Hk. cbn in Hk.
  pose proof (getMemory_spec hash (envOf c w) sh k (proj1 (ci_shards _ _ _ Hinv _ _ Hsh)) (ci_now _ _ _ Hinv)) as Hg. rewrite Hk in Hg.
  unfold runs, cGetMemory, onShard. rewrite Hsh, Hg. eexists _, _. split; [reflexivity|]. cbn. rewrite list_insert_id by done.
  split_and!; [done|done|by split].
Qed.

(** A value that fits is stored. *)
Lemma cSetMemory_room w k v x :
  cache_inv hash c w → mem hash c w k = None → fits w k v → 0 ≤ x < 2 ^ 18 →
  runs (cSetMemory hash c k v x) w (λ _ w', memonly w w' ∧ mem hash c w' k = Some (v, x)).
Proof.
  intros Hinv Hk (sh & Hsh & Hfit) Hx. destruct (cSetMemory_step hash c w k v x Hinv Hx) as ([] & w' & Ew & _ & Hmo & _).
  exists (), w'. split; [done|]. split; [done|]. unfold mem in *. rewrite Hsh in Hk. cbn in Hk.
  destruct (ci_shards _ _ _ Hinv _ _ Hsh) as [Hshi Hcap]. pose proof (live_le_cap hash _ _ Hshi) as Hlive. pose proof (live_le_weight hash _ _ Hshi) as Hlw.
  unfold cSetMemory, onShard in Ew. rewrite Hsh in Ew.
  destruct (setMemory_fits hash (envOf c w) sh k v x Hshi) as (sh' & ev & E1 & _ & _ & _ & Hrm & _ & Hev); [lia|done|lia|].
  rewrite E1 in Ew. injection Ew as <-. cbn. rewrite list_lookup_insert_eq by (by eapply lookup_lt_Some). cbn. rewrite Hk in Hev.
  rewrite (rm_after _ _ _ Hrm), Hev by (cbn; lia). unfold put. by rewrite decide_False, decide_True, Hk by set_solver.
Qed.

(** [Delete] and a read right after it: the deletion is the last of the key's queue, and the value is back in memory. *)
Lemma delete_then_get {A} w k v (f : option E → option V * option E → M W A) (Q : A → W → Prop) :
  cache_inv hash c w → kWritePolicy c = WriteBack → kHasL2 c = true → wStopped w = false →
  room c w (queueOf hash w k) → l2map (wL2 w) k = Some v → fits w k v →
  (∀ w', wStopped w' = false → mem hash c w' k = Some (v, expireOffset (envOf c w)) →
    wQueues w' = <[queueOf hash w k := queues w (queueOf hash w k) ++ [mkWrite k go_zero 0 None true]]> (wQueues w) →
    runs (f None (Some v, None)) w' Q) →
  runs (Delete hash c k ≫= λ e, Get hash c k ≫= λ r, f e r) w Q.
Proof.
  intros Hinv Hpol Hl2 Hst Hroom Hk Hfit HQ. apply runs_bind. unfold Delete. apply runs_bind.
  eapply runs_mono; [by apply cDeleteMemory_room|]. intros [] w1 (Hinv1 & Hmo & Hm1 & Hf1).
  apply runs_bind, runs_modify. rewrite Hpol. apply runs_bind. unfold enqueueDelete.
  eapply runs_mono; [apply enqueue_room|].
  { cbn. by rewrite (mo_stopped _ _ Hmo). }
  { unfold room, queueOf in *. cbn [withStats wQueues wkey]. by rewrite (mo_queues _ _ Hmo). }
  intros [] w2 ->. apply runs_ret, runs_bind. unfold Get. apply runs_bind.
  set (w2 := withQueues _ _). assert (cache_inv hash c w2) as Hinv2 by by apply (cache_inv_same _ _ w1).
  eapply runs_mono; [by apply cGetMemory_miss|]. intros r w3 (-> & Hs3 & Hmo3). rewrite Hl2. unfold getFromL2. apply runs_bind.
  unfold runs at 1, callL2. pose proof (l2Get_laws (wL2 w3) k) as Hl. destruct (l2Get (wL2 w3) k) as [s' [r' e']]. destruct Hl as (-> & -> & Hrows).
  eexists _, _. split; [reflexivity|]. rewrite (mo_l2 _ _ Hmo3). unfold w2 at 1. cbn [withQueues withStats wL2]. rewrite (mo_l2 _ _ Hmo).
  change (l2dec ∘ fst <$> l2rows (wL2 w) k) with (l2map (wL2 w) k). rewrite Hk.
  apply runs_bind, runs_modify, runs_bind. unfold storeMemory, cExpireOffset. apply runs_bind, runs_bind, runs_get, runs_ret.
  set (w4 := withStats _ _). assert (envOf c w4 = envOf c w) as He4.
  { unfold envOf, w4. cbn [withStats withL2 wNow]. rewrite (mo_now _ _ Hmo3). unfold w2. cbn [withQueues withStats wNow]. by rewrite (mo_now _ _ Hmo). }
  assert (cache_inv hash c w4) as Hinv4 by (apply (cache_inv_same _ _ w2); [exact Hs3|apply Hmo3|done]).
  rewrite He4. eapply runs_mono; [apply cSetMemory_room; [done| | |apply expireOffset_range]|].
  { unfold mem, w4. cbn [withStats withL2 wShards]. by rewrite Hs3. }
  { destruct Hf1 as (sh & Hsh & Hw). exists sh. rewrite He4. split; [cbn; by rewrite Hs3|]. unfold envOf in *. by rewrite (mo_now _ _ Hmo) in Hw. }
  intros [] w5 (Hmo5 & Hm5). apply runs_ret, HQ; [|done|].
  - rewrite (mo_stopped _ _ Hmo5). unfold w4. cbn. rewrite (mo_stopped _ _ Hmo3). cbn. by rewrite (mo_stopped _ _ Hmo).
  - rewrite (mo_queues _ _ Hmo5). unfold w4. cbn [withStats withL2 wQueues]. rewrite (mo_queues _ _ Hmo3). unfold w2, queueOf, queues. cbn.
    by rewrite (mo_queues _ _ Hmo).
Qed.

(** C35: Under write-back a deleted key comes back for good.  With its deletion waiting in the queue, a read of the key right after
    [Delete] misses memory, finds the old value in the second level, answers it and stores it in memory; when [Close] has drained the
    queues, the second level no longer holds the key, and memory still does, as if it had just been set. *)
Theorem deleted_key_still_read w k v :
  cache_inv hash c w → kWritePolicy c = WriteBack → kHasL2 c = true → wStopped w = false →
  room c w (queueOf hash w k) → routed hash (length (wQueues w)) (queues w) → l2map (wL2 w) k = Some v → fits w k v →
  runs (Delete hash c k ≫= λ e, Get hash c k ≫= λ r, Close c ≫= λ _, mret (e, r)) w (λ r w',
    r = (None, (Some v, None)) ∧ mem hash c w' k = Some (v, expireOffset (envOf c w)) ∧
    l2rows (wL2 w') k = None ∧ ∀ i, queues w' i = []).
Proof.
  intros Hinv Hpol Hl2 Hst Hroom Hrt Hk Hfit. pose proof Hroom as (q0 & Hq0 & _).
  apply (delete_then_get w k v); try done. intros w5 Hst5 Hm5 Hq5. set (t := mkWrite k go_zero 0 None true) in *. apply runs_bind.
  assert (queueOf hash w5 k = queueOf hash w k) as Hqk by (unfold queueOf; by rewrite Hq5, length_insert).
  assert (∀ i, queues w5 i = if decide (i = queueOf hash w k) then queues w i ++ [t] else queues w i) as Hqs.
  { intros i. unfold queues at 1. rewrite Hq5. case_decide; [subst; by rewrite list_lookup_insert_eq by (by eapply lookup_lt_Some)|].
    by rewrite list_lookup_insert_ne by done. }
  destruct (Close_spec hash c w5) as (w6 & E6 & _ & Hall & _ & Hsh6 & Hl6 & _); [done|..].
  - rewrite Hq5, length_insert. apply lookup_lt_Some in Hq0. lia.
  - intros i. rewrite Hqs, Hq5, length_insert. case_decide; [|apply Hrt]. subst i. apply Forall_app. split; [apply Hrt|by apply Forall_singleton].
  - exists (), w6. split; [done|]. apply runs_ret. split_and!; [done|by rewrite (mem_same _ _ w5)| |done].
    rewrite Hl6, Hqs, Hqk, decide_True, applyTasks_app by done. cbn. unfold applyTask. cbn. unfold upd. by rewrite decide_True.
Qed.

End Reads.

(** ** An instance *)

Definition rdConsts : Consts Z Z :=
  mkConsts None 0 false 0 1 0 false true WriteBack BatchingFull 2 true.

Definition rdWorld : World Z Z ClockPolicy (list (Z * option (Z * Z))) Z :=
  mkWorld [newShard 64 4 NewClockPolicy] 0 (newStats true) [(9, Some (90, 0))] [[]] false [] [] [].

Definition rdRun : M (World Z Z ClockPolicy (list (Z * option (Z * Z))) Z) (option Z * option Z * option Z) :=
  Delete hashZ rdConsts 9 ≫= λ e, Get hashZ rdConsts 9 ≫= λ r, Close rdConsts ≫= λ _, m ← GetFromMemory hashZ rdConsts 9; mret (e, r.1, m).

Lemma deleted_key_still_read_witness :
  runs (Delete hashZ rdConsts 9 ≫= λ e, Get hashZ rdConsts 9 ≫= λ r, Close rdConsts ≫= λ _, mret (e, r)) rdWorld
    (λ r w', r = (None, (Some 90, None)) ∧ mem hashZ rdConsts w' 9 = Some (90, 0) ∧ MapL2.alookup (wL2 w') 9 = None) ∧
  fst <$> rdRun rdWorld = Some (None, Some 90, Some 90).
Proof.
  split; [|vm_compute; reflexivity].
  destruct (deleted_key_still_read hashZ rdConsts rdWorld 9 90) as (r & w' & E & Hr & Hm & Hl & _).
  - apply new_cache; [done|exists 0; by split; [lia|]|by cbn; lia|].
    intros i sh Hi. exists 6, 4, NewClockPolicy. split_and!; try lia; [|apply empty_clock..].
    destruct i as [|i]; [by injection Hi as <-|done].
  - reflexivity.
  - reflexivity.
  - reflexivity.
  - exists []. split; [reflexivity|cbn; lia].
  - intros [|i]; constructor.
  - reflexivity.
  - exists (newShard 64 4 NewClockPolicy). split; [reflexivity|vm_compute; discriminate].
  - exists r, w'. split; [exact E|]. split_and!; [exact Hr|exact Hm|exact Hl].
Defined.
