(* ===== verification/Flight.v ===== *)
(** * Single flight (singleflight.go)

    The registry of loads in flight: buckets of eight slots and an overflow map, each under its lock.  A
    call of a load is a number into a heap of [flightCall]s; [claim] and [release] are one critical
    section each.  The wake-up protocol of [finish] and [wait] is in Wakeup.v. *)

From S2P Require Import Prelude CacheState CacheOps.

Definition flightSlots : nat := 8.
Definition flightSpilled : Z := 255.

Definition u16 (x : Z) : Z := x mod 2 ^ 16.

(** [uint16(bucket)<<8 | slot] *)
Definition flightAt (bucket : nat) (slot : Z) : Z := Z.lor (u16 (Z.shiftl (Z.of_nat bucket) 8)) slot.

Record flightCall (K V E : Type) := mkCall {
  fkey : K; fval : V; ferr : option (Error E); fok : bool; fjoined : bool; fover : bool; fat : Z
}.
Arguments mkCall {K V E}.
Arguments fkey {K V E}.
Arguments fval {K V E}.
Arguments ferr {K V E}.
Arguments fok {K V E}.
Arguments fjoined {K V E}.
Arguments fover {K V E}.
Arguments fat {K V E}.

(** [fspill] is the overflow map, [None] when it is nil. *)
Record flightBucket (K : Type) := mkBucket {
  flive : Z; fcall : list (option nat); fhash : list Z; fspill : option (list (K * nat))
}.
Arguments mkBucket {K}.
Arguments flive {K}.
Arguments fcall {K}.
Arguments fhash {K}.
Arguments fspill {K}.

Record Flights (K V E : Type) := mkFlights { heap : list (flightCall K V E); buckets : list (flightBucket K) }.
Arguments mkFlights {K V E}.
Arguments heap {K V E}.
Arguments buckets {K V E}.

(** [bits.TrailingZeros8] *)
Definition TrailingZeros8 (m : Z) : nat := default 8%nat (list_find (λ i, Z.testbit m (Z.of_nat i) = true) (seq 0 8) ≫= λ '(_, i), Some i).

(** The slots [for m := b.live; m != 0; m &= m - 1] visits. *)
Fixpoint liveSlots (fuel : nat) (m : Z) : list nat :=
  match fuel with
  | O => []
  | S fuel => if m =? 0 then [] else TrailingZeros8 m :: liveSlots fuel (Z.land m (m - 1))
  end.

Section Flight.
Context {K V E : Type} `{!EqDecision K}.
Context (hash : K → Z) (shardMask : Z).
Abbreviation flights := (Flights K V E).
Abbreviation fcallT := (flightCall K V E).
Implicit Types (st : flights) (b : flightBucket K) (key : K) (id : nat).

Definition emptyBucket : flightBucket K := mkBucket 0 (replicate 8 None) (replicate 8 0) None.

(** Writes through a call's pointer. *)
Definition onCall id (f : fcallT → fcallT) st : flights := mkFlights (alter f id (heap st)) (buckets st).

Definition onBucket (i : nat) (b : flightBucket K) st : flights := mkFlights (heap st) (<[i := b]> (buckets st)).

Definition setJoined (x : fcallT) : fcallT := mkCall (fkey x) (fval x) (ferr x) (fok x) true (fover x) (fat x).
Definition setOver (x : fcallT) : fcallT := mkCall (fkey x) (fval x) (ferr x) (fok x) (fjoined x) true (fat x).
Definition setAt key (at_ : Z) (x : fcallT) : fcallT := mkCall key (fval x) (ferr x) (fok x) (fjoined x) (fover x) at_.
Definition setResult (v : V) (ok : bool) (err : option (Error E)) (x : fcallT) : fcallT :=
  mkCall (fkey x) v err ok (fjoined x) (fover x) (fat x).

Definition bucketOf (keyHash : Z) : nat := Z.to_nat (Z.land (u32 keyHash) shardMask).

(** One slot of the scan of [claim]. *)
Definition slotHolds st b (keyHash : Z) key (i : nat) : option nat :=
  if default 0 (fhash b !! i) =? keyHash then
    match mjoin (fcall b !! i) with
    | Some id => if bool_decide (fkey <$> heap st !! id = Some key) then Some id else None
    | None => None
    end
  else None.

Definition spillLookup b key : option nat :=
  match fspill b with
  | Some l => snd <$> (snd <$> list_find (λ kv, kv.1 = key) l)
  | None => None
  end.

(** The flight already running for the key, if any. *)
Definition running st b (keyHash : Z) key : option nat :=
  match head (omap (slotHolds st b keyHash key) (liveSlots 8 (flive b))) with
  | Some id => Some id
  | None => spillLookup b key
  end.

(** [claim]: the winner, and whether it was running already. *)
Definition claim (keyHash : Z) key id st : option (nat * bool * flights) :=
  let bucket := bucketOf keyHash in
  match buckets st !! bucket with
  | None => None
  | Some b =>
    match running st b keyHash key with
    | Some winner => Some (winner, true, onCall winner setJoined st)
    | None =>
      let free := TrailingZeros8 (Z.lxor (flive b) 255) in
      if (free =? flightSlots)%nat then
        Some (id, false,
          onBucket bucket (mkBucket (flive b) (fcall b) (fhash b) (Some ((key, id) :: default [] (fspill b))))
            (onCall id (setAt key (flightAt bucket flightSpilled)) st))
      else
        Some (id, false,
          onBucket bucket (mkBucket (Z.lor (flive b) (Z.shiftl 1 (Z.of_nat free))) (<[free := Some id]> (fcall b))
            (<[free := keyHash]> (fhash b)) (fspill b))
            (onCall id (setAt key (flightAt bucket (Z.of_nat free))) st))
    end
  end.

(** [release]; [finish] marks the flight over for whoever joined it. *)
Definition release id st : option flights :=
  match heap st !! id with
  | None => None
  | Some call =>
    let bucket := Z.to_nat (Z.shiftr (fat call) 8) in
    match buckets st !! bucket with
    | None => None
    | Some b =>
      let slot := Z.land (fat call) 255 in
      let b' :=
        if negb (slot =? flightSpilled)
        then mkBucket (Z.ldiff (flive b) (Z.shiftl 1 slot)) (<[Z.to_nat slot := None]> (fcall b)) (fhash b) (fspill b)
        else
          let l := filter (λ kv, kv.1 ≠ fkey call) (default [] (fspill b)) in
          mkBucket (flive b) (fcall b) (fhash b) (match l with [] => None | _ => Some l end) in
      let st := onBucket bucket b' st in
      Some (if fjoined call then onCall id setOver st else st)
    end
  end.

(** A call not yet claimed, as [&flightCall{}] with the error that stands until the load returns. *)
Definition newCall (zk : K) (zv : V) (err : option (Error E)) : fcallT := mkCall zk zv err false false false 0.

Definition alloc (x : fcallT) st : nat * flights := (length (heap st), mkFlights (heap st ++ [x]) (buckets st)).

End Flight.

(** ** The flight registry is a map from keys to flights

    [fl_rep st R] says that the buckets, slots and overflow maps of [st] hold exactly the flights of
    [R].  [claim] and [release] keep it and answer as the map does. *)

(** ** The slot word *)

(** All 256 words at once. *)
Definition slots_agree (m : Z) : bool :=
  bool_decide (liveSlots 8 m = filter (λ i, Z.testbit m (Z.of_nat i) = true) (seq 0 8)) &&
  let free := TrailingZeros8 (Z.lxor m 255) in
  ((free =? 8)%nat || ((free <? 8)%nat && negb (Z.testbit m (Z.of_nat free)))).

Lemma slots_agree_all : forallb slots_agree (seqZ 0 256) = true.
Proof. vm_compute. reflexivity. Qed.

Lemma slots_agree_at m : 0 ≤ m < 256 → slots_agree m = true.
Proof. intros Hm. pose proof slots_agree_all as H. rewrite forallb_forall in H. apply H, list_elem_of_In, elem_of_seqZ. lia. Qed.

Lemma elem_of_liveSlots m i : 0 ≤ m < 256 → i ∈ liveSlots 8 m ↔ (i < 8)%nat ∧ Z.testbit m (Z.of_nat i) = true.
Proof.
  intros Hm. pose proof (slots_agree_at m Hm) as H. apply andb_true_iff in H as [->%bool_decide_eq_true _].
  rewrite list_elem_of_filter, elem_of_seq. split; intros [? ?]; split; done || lia.
Qed.

Lemma free_slot m :
  0 ≤ m < 256 → let free := TrailingZeros8 (Z.lxor m 255) in
  free = 8%nat ∨ (free < 8)%nat ∧ Z.testbit m (Z.of_nat free) = false.
Proof.
  intros Hm free. pose proof (slots_agree_at m Hm) as H. apply andb_true_iff in H as [_ H].
  apply orb_true_iff in H as [H%Nat.eqb_eq|[H%Nat.ltb_lt H'%negb_true_iff]%andb_true_iff]; [by left|by right].
Qed.

Lemma word_bound a b : 0 ≤ a < 256 → 0 ≤ b < 256 → 0 ≤ Z.lor a b < 256.
Proof.
  intros Ha Hb. assert (0 ≤ Z.lor a b) as H0 by (apply Z.lor_nonneg; lia). split; [done|]. change 256 with (2 ^ 8).
  destruct (Z.eq_dec (Z.lor a b) 0) as [->|Hne]; [done|].
  apply Z.log2_lt_pow2; [lia|]. rewrite Z.log2_lor by lia.
  apply Z.max_lub_lt; [destruct (Z.eq_dec a 0) as [->|]|destruct (Z.eq_dec b 0) as [->|]]; try done; apply Z.log2_lt_pow2; lia.
Qed.

Lemma ldiff_bound a b : 0 ≤ a < 256 → 0 ≤ Z.ldiff a b < 256.
Proof.
  intros Ha. replace (Z.ldiff a b) with (Z.land (Z.ldiff a b) (Z.ones 8)).
  - rewrite Z.land_ones by lia. by apply Z.mod_pos_bound.
  - replace a with (Z.land a (Z.ones 8)) at 2 by (rewrite Z.land_ones by lia; by apply Z.mod_small).
    apply Z.bits_inj'. intros i Hi. rewrite !Z.land_spec, !Z.ldiff_spec, Z.land_spec. btauto.
Qed.

Lemma bit_bound (i : nat) : (i < 8)%nat → 0 ≤ Z.shiftl 1 (Z.of_nat i) < 256.
Proof. intros Hi. do 8 (destruct i as [|i]; [done|]). lia. Qed.

Lemma at_split (a : nat) i :
  (a < 256)%nat → 0 ≤ i < 256 → Z.shiftr (flightAt a i) 8 = Z.of_nat a ∧ Z.land (flightAt a i) 255 = i.
Proof.
  intros Ha Hi. unfold flightAt, u16. rewrite Z.shiftl_mul_pow2, Z.mod_small, <- Z.shiftl_mul_pow2 by lia. split.
  - rewrite Z.shiftr_lor, Z.shiftr_shiftl_l by lia. cbn. rewrite (Z.shiftr_div_pow2 i), Z.div_small by lia. apply Z.lor_0_r.
  - rewrite Z.land_lor_distr_l. change 255 with (Z.ones 8). rewrite !Z.land_ones, Z.shiftl_mul_pow2 by lia.
    rewrite Z.mod_mul, Z.lor_0_l by lia. by apply Z.mod_small.
Qed.

Lemma testbit_set m (i j : nat) :
  Z.testbit (Z.lor m (Z.shiftl 1 (Z.of_nat i))) (Z.of_nat j) = Z.testbit m (Z.of_nat j) || (i =? j)%nat.
Proof.
  rewrite Z.lor_spec, Z.shiftl_1_l. f_equal. rewrite Z.pow2_bits_eqb by lia.
  destruct (Z.eqb_spec (Z.of_nat i) (Z.of_nat j)), (Nat.eqb_spec i j); lia || done.
Qed.

Lemma testbit_clear m (i j : nat) :
  Z.testbit (Z.ldiff m (Z.shiftl 1 (Z.of_nat i))) (Z.of_nat j) = Z.testbit m (Z.of_nat j) && negb (i =? j)%nat.
Proof.
  rewrite Z.ldiff_spec, Z.shiftl_1_l. f_equal. f_equal. rewrite Z.pow2_bits_eqb by lia.
  destruct (Z.eqb_spec (Z.of_nat i) (Z.of_nat j)), (Nat.eqb_spec i j); lia || done.
Qed.

Section Laws.
Context {K V E : Type} `{!EqDecision K}.
Context (hash : K → Z) (shardMask : Z).
Abbreviation flights := (Flights K V E).
Implicit Types (st : flights) (b : flightBucket K) (k : K) (id : nat) (R : K → option nat).

(** [id] is parked for [k] at slot [s] of bucket [bi]. *)
Definition parked (h : list (flightCall K V E)) R (bi : nat) k id (s : Z) : Prop :=
  ∃ x, h !! id = Some x ∧ fkey x = k ∧ bucketOf shardMask (hash k) = bi ∧
    fat x = flightAt bi s ∧ R k = Some id.

Definition inSlot b (i : nat) id : Prop :=
  (i < 8)%nat ∧ Z.testbit (flive b) (Z.of_nat i) = true ∧ fcall b !! i = Some (Some id).

Record bucket_rep (h : list (flightCall K V E)) R (bi : nat) b : Prop := {
  br_live : 0 ≤ flive b < 256;
  br_calls : length (fcall b) = 8%nat;
  br_hashes : length (fhash b) = 8%nat;
  br_slots i : (i < 8)%nat → Z.testbit (flive b) (Z.of_nat i) = true →
    ∃ k id, fcall b !! i = Some (Some id) ∧ fhash b !! i = Some (hash k) ∧ parked h R bi k id (Z.of_nat i);
  br_spill k id : (k, id) ∈ default [] (fspill b) → parked h R bi k id flightSpilled;
  br_nodup : NoDup (fst <$> default [] (fspill b))
}.

Record fl_rep st R : Prop := {
  fr_mask h : (bucketOf shardMask h < length (buckets st))%nat;
  fr_few : (length (buckets st) ≤ 256)%nat;
  fr_buckets bi b : buckets st !! bi = Some b → bucket_rep (heap st) R bi b;
  fr_complete k id : R k = Some id → ∃ b, buckets st !! bucketOf shardMask (hash k) = Some b ∧
    fkey <$> heap st !! id = Some k ∧ ((∃ i, inSlot b i id) ∨ (k, id) ∈ default [] (fspill b))
}.

(** The scan and the overflow lookup find the key's flight. *)
Lemma running_spec st R b k :
  fl_rep st R → buckets st !! bucketOf shardMask (hash k) = Some b → running st b (hash k) k = R k.
Proof.
  intros [_ _ Hb Hc] Hbk. pose proof (Hb _ _ Hbk) as [Hlive Hlc Hlh Hslots Hspill Hnd]. unfold running.
  assert (∀ id, id ∈ omap (slotHolds st b (hash k) k) (liveSlots 8 (flive b)) → R k = Some id) as Hsound.
  { intros id (i & [Hi Ht]%elem_of_liveSlots & Hh)%list_elem_of_omap; [|done].
    destruct (Hslots i Hi Ht) as (k' & id' & Hcall & Hhash & x & Hx & Hk' & _ & _ & HR).
    unfold slotHolds in Hh. rewrite Hcall, Hhash in Hh. cbn in Hh. case_match; [|done]. case_bool_decide as Hkey; [|done].
    injection Hh as <-. rewrite Hx in Hkey. cbn in Hkey. congruence. }
  destruct (head (omap _ _)) as [id|] eqn:Eh.
  { symmetry. apply Hsound. destruct (omap _ _) as [|y l]; [done|]. injection Eh as ->. left. }
  destruct (R k) as [id|] eqn:HR.
  - destruct (Hc k id HR) as (b' & Hb' & Hkey & Hin). assert (b' = b) as -> by congruence. destruct Hin as [(i & Hi & Ht & Hcall)|Hin].
    + exfalso. assert (id ∈ omap (slotHolds st b (hash k) k) (liveSlots 8 (flive b))) as Hmem.
      { apply list_elem_of_omap. exists i. split; [by apply elem_of_liveSlots|].
        destruct (Hslots i Hi Ht) as (k' & id' & Hcall' & Hhash & x & Hx & Hk' & _). assert (id' = id) as -> by congruence.
        rewrite Hx in Hkey. cbn in Hkey. assert (k' = k) as -> by congruence.
        unfold slotHolds. rewrite Hcall, Hhash. cbn. rewrite Z.eqb_refl, Hx. by rewrite bool_decide_eq_true_2 by (by f_equal). }
      destruct (omap _ _); [by apply elem_of_nil in Hmem|done].
    + unfold spillLookup. destruct (fspill b) as [l|]; [|by apply elem_of_nil in Hin]. cbn in Hin, Hnd.
      destruct (list_find _ l) as [[j [k' id']]|] eqn:Ef; cbn.
      * apply list_find_Some in Ef as (Hj & Hk' & _). cbn in Hk'. subst k'. f_equal.
        destruct (Hspill k id') as (x & _ & _ & _ & _ & HR'); [by eapply list_elem_of_lookup_2|]. congruence.
      * exfalso. apply list_find_None in Ef. eapply Forall_forall in Ef; [|exact Hin]. by apply Ef.
  - unfold spillLookup. destruct (fspill b) as [l|]; [|done].
    destruct (list_find _ l) as [[j [k' id']]|] eqn:Ef; [|done]. cbn. exfalso.
    apply list_find_Some in Ef as (Hj & Hk' & _). cbn in Hk'. subst k'.
    destruct (Hspill k id') as (x & _ & _ & _ & _ & HR'); [by eapply list_elem_of_lookup_2|]. congruence.
Qed.

Lemma bucket_rep_mono h h' R R' bi b :
  bucket_rep h R bi b → (∀ k id s, parked h R bi k id s → parked h' R' bi k id s) → bucket_rep h' R' bi b.
Proof.
  intros [] Hmono. split; try done; [|eauto].
  intros i Hi Ht. destruct (br_slots0 i Hi Ht) as (k & id & ? & ? & ?). exists k, id. eauto.
Qed.

(** Writes to a call that leave its key and place alone. *)
Lemma fl_rep_onCall st R id f :
  (∀ x, fkey (f x) = fkey x ∧ fat (f x) = fat x) → fl_rep st R → fl_rep (onCall id f st) R.
Proof.
  intros Hf [Hm Hfew Hb Hc].
  assert (∀ id', (fkey <$> alter f id (heap st) !! id' = fkey <$> heap st !! id') ∧
    (fat <$> alter f id (heap st) !! id' = fat <$> heap st !! id')) as Hsame.
  { intros id'. destruct (decide (id' = id)) as [->|Hne]; [|by rewrite list_lookup_alter_ne].
    rewrite list_lookup_alter_eq. destruct (heap st !! id) as [x|]; [|done]. cbn. by destruct (Hf x) as [-> ->]. }
  split; [done|done|..].
  - intros bi b Hbi. eapply bucket_rep_mono; [by apply Hb|]. intros k id' s (x & Hx & Hk & Hbk & Ha & HR).
    destruct (Hsame id') as [H1 H2]. rewrite Hx in H1, H2. unfold parked. cbn [heap onCall].
    destruct (alter f id (heap st) !! id') as [x'|]; [|done]. cbn in H1, H2. exists x'. split_and!; congruence.
  - intros k id' HR. destruct (Hc k id' HR) as (b & Hbk & Hkey & Hin). exists b. split_and!; [done| |done].
    cbn [heap onCall]. by rewrite (proj1 (Hsame id')).
Qed.

(** ** Registering a flight *)

Section Claim.
Context (st : flights) (R : K → option nat) (k : K) (id : nat) (x : flightCall K V E) (b : flightBucket K).
Abbreviation bi := (bucketOf shardMask (hash k)).
Hypothesis Hrep : fl_rep st R.
Hypothesis Hx : heap st !! id = Some x.
Hypothesis Hfresh : ∀ k', R k' ≠ Some id.
Hypothesis Hk : R k = None.
Hypothesis Hbk : buckets st !! bi = Some b.

(** The call put up for [k] at slot [s]. *)
Abbreviation heap' s := (alter (setAt k (flightAt bi s)) id (heap st)).
Abbreviation R' := (upd R k (Some id)).

Lemma parked_others s bi' k' id' s' : parked (heap st) R bi' k' id' s' → parked (heap' s) R' bi' k' id' s'.
Proof.
  intros (x' & Hx' & Hk' & Hb' & Ha' & HR'). exists x'.
  assert (id' ≠ id) by (intros ->; by eapply Hfresh). assert (k' ≠ k) by congruence.
  rewrite list_lookup_alter_ne by done. unfold upd. rewrite decide_False by done. by split_and!.
Qed.

Lemma parked_new s : parked (heap' s) R' bi k id s.
Proof.
  exists (setAt k (flightAt bi s) x). rewrite list_lookup_alter_eq, Hx. unfold upd.
  rewrite decide_True by done. by split_and!.
Qed.

(** A bucket that took the flight in. *)
Lemma fl_rep_register s b' :
  bucket_rep (heap' s) R' bi b' → ((∃ i, inSlot b' i id) ∨ (k, id) ∈ default [] (fspill b')) →
  (∀ i id', inSlot b i id' → inSlot b' i id') → (∀ kv, kv ∈ default [] (fspill b) → kv ∈ default [] (fspill b')) →
  fl_rep (onBucket bi b' (onCall id (setAt k (flightAt bi s)) st)) R'.
Proof.
  pose proof Hrep as [Hm Hfew Hb Hc]. pose proof (lookup_lt_Some _ _ _ Hbk) as Hlt.
  intros Hbr' Hin Hs1 Hs2. split; [intros h; cbn; rewrite length_insert; apply Hm|cbn; by rewrite length_insert|..].
  - intros bi' b'' Hbi'. cbn [buckets onBucket onCall] in Hbi'. apply list_lookup_insert_Some in Hbi' as [(<- & <- & _)|[_ Hbi']]; [done|].
    eapply bucket_rep_mono; [by apply Hb|]. intros k' id' s'. apply parked_others.
  - intros k' id' HR'. cbn [buckets onBucket onCall heap]. unfold upd in HR'. case_decide as Ek.
    + subst k'. injection HR' as <-. exists b'. rewrite list_lookup_insert_eq by done. split_and!; [done| |done].
      by rewrite list_lookup_alter_eq, Hx.
    + destruct (Hc k' id' HR') as (b0 & Hb0 & Hkey & Hin0). rewrite list_lookup_alter_ne by (intros ->; by eapply Hfresh).
      destruct (decide (bucketOf shardMask (hash k') = bi)) as [Eb|Eb].
      * rewrite Eb in Hb0 |- *. assert (b0 = b) as -> by congruence. exists b'. rewrite list_lookup_insert_eq by done.
        split_and!; [done|done|]. destruct Hin0 as [[i Hi]|Hi]; [left; exists i; eauto|right; eauto].
      * exists b0. rewrite list_lookup_insert_ne by done. by split_and!.
Qed.

Lemma fl_rep_spill :
  fl_rep (onBucket bi (mkBucket (flive b) (fcall b) (fhash b) (Some ((k, id) :: default [] (fspill b))))
    (onCall id (setAt k (flightAt bi flightSpilled)) st)) R'.
Proof.
  pose proof (fr_buckets _ _ Hrep _ _ Hbk) as [Hlive Hlc Hlh Hslots Hspill Hnd].
  apply fl_rep_register; cbn [fspill default from_option Datatypes.id flive fcall fhash]; [|right; left|done|by right].
  split; cbn [fspill flive fcall fhash default from_option Datatypes.id]; try done.
  - intros i Hi Ht. destruct (Hslots i Hi Ht) as (k' & id' & ? & ? & Hp). exists k', id'. split_and!; [done|done|].
    by apply parked_others.
  - intros k' id' [Heq|Hin]%elem_of_cons; [injection Heq as -> ->; apply parked_new|]. apply parked_others. eauto.
  - rewrite fmap_cons. apply NoDup_cons. split; [|done].
    intros ([k' id'] & Hkk & Hin)%list_elem_of_fmap. destruct (Hspill _ _ Hin) as (? & _ & _ & _ & _ & ?). cbn in *. congruence.
Qed.

Lemma fl_rep_slot (free : nat) :
  (free < 8)%nat → Z.testbit (flive b) (Z.of_nat free) = false →
  fl_rep (onBucket bi (mkBucket (Z.lor (flive b) (Z.shiftl 1 (Z.of_nat free))) (<[free := Some id]> (fcall b))
      (<[free := hash k]> (fhash b)) (fspill b)) (onCall id (setAt k (flightAt bi (Z.of_nat free))) st)) R'.
Proof.
  intros Hf Htf. pose proof (fr_buckets _ _ Hrep _ _ Hbk) as [Hlive Hlc Hlh Hslots Hspill Hnd].
  apply fl_rep_register; cbn [fspill flive fcall fhash].
  - split; cbn [fspill flive fcall fhash]; [by apply word_bound; [|apply bit_bound]|by rewrite length_insert..| | |done].
    + intros i Hi. rewrite testbit_set. destruct (Nat.eqb_spec free i) as [<-|Hne].
      * intros _. exists k, id. rewrite !list_lookup_insert_eq by lia. split_and!; [done|done|]. apply parked_new.
      * rewrite orb_false_r. intros Ht. rewrite !list_lookup_insert_ne by done.
        destruct (Hslots i Hi Ht) as (k' & id' & ? & ? & ?). exists k', id'. split_and!; [done|done|]. by apply parked_others.
    + intros k' id' Hin. apply parked_others. eauto.
  - left. exists free. split_and!; cbn [flive fcall]; [done|rewrite testbit_set, Nat.eqb_refl; apply orb_true_r|by rewrite list_lookup_insert_eq by lia].
  - intros i id' (Hi & Ht & Hcall). assert (i ≠ free) by (intros ->; congruence).
    split_and!; cbn [flive fcall]; [done|by rewrite testbit_set, Ht|by rewrite list_lookup_insert_ne].
  - done.
Qed.
End Claim.

Lemma fl_rep_ext st R R' : (∀ k, R' k = R k) → fl_rep st R → fl_rep st R'.
Proof.
  intros Hext [H1 H2 H3 H4]. split; [done|done|..].
  - intros bi b' Hb'. eapply bucket_rep_mono; [by apply H3|]. intros k' id' s (x' & ? & ? & ? & ? & ?). exists x'.
    rewrite Hext. by split_and!.
  - intros k' id'. rewrite Hext. apply H4.
Qed.

Lemma claim_spec st R k id x :
  fl_rep st R → heap st !! id = Some x → (∀ k', R k' ≠ Some id) →
  ∃ st', claim shardMask (hash k) k id st =
      Some (default id (R k), bool_decide (is_Some (R k)), st') ∧
    fl_rep st' (upd R k (Some (default id (R k)))) ∧
    match R k with
    | Some wn => heap st' = alter setJoined wn (heap st)
    | None => ∃ at_, heap st' = alter (setAt k at_) id (heap st)
    end.
Proof.
  intros Hrep Hx Hfresh. unfold claim.
  destruct (lookup_lt_is_Some_2 _ _ (fr_mask _ _ Hrep (hash k))) as [b Hbk]. rewrite Hbk, (running_spec st R b k Hrep Hbk).
  destruct (R k) as [wn|] eqn:Hk; cbn [default from_option Datatypes.id].
  - rewrite bool_decide_eq_true_2 by done. eexists. split_and!; [reflexivity| |done].
    apply (fl_rep_ext _ R); [intros k'; unfold upd; case_decide; congruence|]. by apply fl_rep_onCall.
  - rewrite bool_decide_eq_false_2 by (by intros []).
    pose proof (br_live _ _ _ _ (fr_buckets _ _ Hrep _ _ Hbk)) as Hlive.
    destruct (free_slot (flive b) Hlive) as [Hf|[Hf Htf]].
    + rewrite Hf. cbn [Nat.eqb flightSlots]. eexists. split_and!; [reflexivity| |by eexists]. by eapply fl_rep_spill.
    + rewrite (proj2 (Nat.eqb_neq _ flightSlots)) by (unfold flightSlots; lia).
      eexists. split_and!; [reflexivity| |by eexists]. by eapply fl_rep_slot.
Qed.

(** ** Taking a flight off *)

(** Where a registered flight is. *)
Lemma registered_at st R k id :
  fl_rep st R → R k = Some id →
  ∃ b s, buckets st !! bucketOf shardMask (hash k) = Some b ∧ parked (heap st) R (bucketOf shardMask (hash k)) k id s ∧
    ((∃ i, s = Z.of_nat i ∧ inSlot b i id) ∨ s = flightSpilled ∧ (k, id) ∈ default [] (fspill b)).
Proof.
  intros [Hm Hfew Hb Hc] HR. destruct (Hc k id HR) as (b & Hbk & Hkey & Hin). exists b.
  destruct Hin as [(i & Hin)|Hin].
  - exists (Z.of_nat i). split; [done|]. pose proof Hin as (Hi & Ht & Hcall).
    destruct (br_slots _ _ _ _ (Hb _ _ Hbk) i Hi Ht) as (k' & id' & Hcall' & _ & Hp). assert (id' = id) as -> by congruence.
    assert (k' = k) as ->; [|split; [done|left; by exists i]]. destruct Hp as (x & Hx & Hk' & _). rewrite Hx in Hkey. cbn in Hkey. congruence.
  - exists flightSpilled. split_and!; [done| |by right]. by apply (br_spill _ _ _ _ (Hb _ _ Hbk)).
Qed.

Section Release.
Context (st : flights) (R : K → option nat) (k : K) (id : nat) (b : flightBucket K) (s : Z).
Abbreviation bi := (bucketOf shardMask (hash k)).
Hypothesis Hrep : fl_rep st R.
Hypothesis Hk : R k = Some id.
Hypothesis Hbk : buckets st !! bi = Some b.
Hypothesis Hpk : parked (heap st) R bi k id s.
Abbreviation R' := (upd R k None).

Lemma parked_left bi' k' id' s' : k' ≠ k → parked (heap st) R bi' k' id' s' → parked (heap st) R' bi' k' id' s'.
Proof. intros Hne (x & ? & ? & ? & ? & ?). exists x. unfold upd. rewrite decide_False by done. by split_and!. Qed.

(** Two keys do not share a flight, nor two places one. *)
Lemma parked_apart k' id' s' :
  0 ≤ s < 256 → 0 ≤ s' < 256 → parked (heap st) R bi k' id' s' → s' ≠ s → k' ≠ k.
Proof.
  intros Hs Hs' (x' & Hx' & Hk' & _ & Ha' & HR') Hne ->. destruct Hpk as (x & Hx & _ & _ & Ha & HR).
  assert (id' = id) as -> by congruence. assert (x' = x) as -> by congruence. rewrite Ha in Ha'.
  pose proof (lookup_lt_Some _ _ _ Hbk) as Hlt. pose proof (fr_few _ _ Hrep).
  apply (f_equal (λ z, Z.land z 255)) in Ha'. rewrite (proj2 (at_split bi s ltac:(lia) Hs)), (proj2 (at_split bi s' ltac:(lia) Hs')) in Ha'.
  by apply Hne.
Qed.

Lemma fl_rep_unregister b' :
  bucket_rep (heap st) R' bi b' →
  (∀ i id', inSlot b i id' → id' ≠ id → inSlot b' i id') →
  (∀ kv, kv ∈ default [] (fspill b) → kv.1 ≠ k → kv ∈ default [] (fspill b')) →
  fl_rep (onBucket bi b' st) R'.
Proof.
  pose proof Hrep as [Hm Hfew Hb Hc]. pose proof (lookup_lt_Some _ _ _ Hbk) as Hlt.
  intros Hbr' Hs1 Hs2. split; [intros h; cbn; rewrite length_insert; apply Hm|cbn; by rewrite length_insert|..].
  - intros bi' b'' Hbi'. cbn [buckets onBucket] in Hbi'. apply list_lookup_insert_Some in Hbi' as [(<- & <- & _)|[Hne Hbi']]; [done|].
    eapply bucket_rep_mono; [by apply Hb|]. intros k' id' s' Hp. apply parked_left; [|done].
    intros ->. destruct Hp as (_ & _ & _ & Hbi'' & _). done.
  - intros k' id' HR'. unfold upd in HR'. case_decide as Ek; [done|].
    destruct (Hc k' id' HR') as (b0 & Hb0 & Hkey & Hin0). cbn [buckets onBucket heap].
    destruct (decide (bucketOf shardMask (hash k') = bi)) as [Eb|Eb].
    + rewrite Eb in Hb0 |- *. assert (b0 = b) as -> by congruence. exists b'. rewrite list_lookup_insert_eq by done.
      split_and!; [done|done|]. destruct Hin0 as [[i Hi]|Hi]; [left; exists i; apply Hs1; [done|]|right; by apply Hs2].
      intros ->. destruct Hpk as (x & Hx & Hkx & _). rewrite Hx in Hkey. cbn in Hkey. congruence.
    + exists b0. rewrite list_lookup_insert_ne by done. by split_and!.
Qed.

Lemma fl_rep_clear (i : nat) :
  s = Z.of_nat i → inSlot b i id →
  fl_rep (onBucket bi (mkBucket (Z.ldiff (flive b) (Z.shiftl 1 (Z.of_nat i))) (<[i := None]> (fcall b)) (fhash b) (fspill b)) st) R'.
Proof.
  intros Hs (Hi & Ht & Hcall). pose proof (fr_buckets _ _ Hrep _ _ Hbk) as [Hlive Hlc Hlh Hslots Hspill Hnd].
  apply fl_rep_unregister; cbn [fspill flive fcall fhash].
  - split; cbn [fspill flive fcall fhash]; [by apply ldiff_bound|by rewrite length_insert|done| | |done].
    + intros j Hj. rewrite testbit_clear. destruct (Nat.eqb_spec i j) as [<-|Hne]; [by rewrite andb_false_r|].
      rewrite andb_true_r. intros Htj. rewrite list_lookup_insert_ne by done.
      destruct (Hslots j Hj Htj) as (k' & id' & ? & ? & Hp). exists k', id'. split_and!; [done|done|].
      apply parked_left; [|done]. apply (parked_apart k' id' (Z.of_nat j)); [lia|lia|done|lia].
    + intros k' id' Hin. apply parked_left; [|auto].
      apply (parked_apart k' id' flightSpilled); [lia|done|auto|unfold flightSpilled; lia].
  - intros j id' (Hj & Htj & Hcj) Hne. assert (i ≠ j) by (intros ->; congruence).
    split_and!; cbn [flive fcall]; [done| |by rewrite list_lookup_insert_ne].
    rewrite testbit_clear, Htj. by rewrite (proj2 (Nat.eqb_neq i j)).
  - done.
Qed.

Lemma fl_rep_unspill l :
  s = flightSpilled → default [] l = filter (λ kv, kv.1 ≠ k) (default [] (fspill b)) →
  fl_rep (onBucket bi (mkBucket (flive b) (fcall b) (fhash b) l) st) R'.
Proof.
  intros Hs Hl. pose proof (fr_buckets _ _ Hrep _ _ Hbk) as [Hlive Hlc Hlh Hslots Hspill Hnd].
  apply fl_rep_unregister; cbn [fspill flive fcall fhash].
  - split; cbn [fspill flive fcall fhash]; try done.
    + intros j Hj Htj. destruct (Hslots j Hj Htj) as (k' & id' & ? & ? & Hp). exists k', id'. split_and!; [done|done|].
      apply parked_left; [|done].
      apply (parked_apart k' id' (Z.of_nat j)); [by rewrite Hs|lia|done|rewrite Hs; unfold flightSpilled; lia].
    + intros k' id'. rewrite Hl. intros [Hne Hin]%list_elem_of_filter. apply parked_left; [done|auto].
    + rewrite Hl. eapply sublist_NoDup; [exact Hnd|]. apply fmap_sublist, sublist_filter.
  - done.
  - intros kv Hin Hne. rewrite Hl. by apply list_elem_of_filter.
Qed.
End Release.

Lemma release_spec st R k id :
  fl_rep st R → R k = Some id →
  ∃ st' x, heap st !! id = Some x ∧ release id st = Some st' ∧ fl_rep st' (upd R k None) ∧
    heap st' = if fjoined x then alter setOver id (heap st) else heap st.
Proof.
  intros Hrep HR. destruct (registered_at st R k id Hrep HR) as (b & s & Hbk & Hpk & Hin).
  pose proof Hpk as (x & Hx & Hkx & _ & Ha & _). pose proof (lookup_lt_Some _ _ _ Hbk) as Hlt. pose proof (fr_few _ _ Hrep) as Hfew.
  assert (0 ≤ s < 256) as Hs.
  { destruct Hin as [(i & -> & Hi & _)|[-> _]]; [lia|done]. }
  destruct (at_split (bucketOf shardMask (hash k)) s ltac:(lia) Hs) as [E1 E2].
  unfold release. rewrite Hx, Ha, E1, E2, Nat2Z.id, Hbk, Hkx.
  assert (∀ b', fl_rep (onBucket (bucketOf shardMask (hash k)) b' st) (upd R k None) →
    ∃ st' x0, Some x = Some x0 ∧
      Some (if fjoined x then onCall id setOver (onBucket (bucketOf shardMask (hash k)) b' st)
            else onBucket (bucketOf shardMask (hash k)) b' st) = Some st' ∧ fl_rep st' (upd R k None) ∧
      heap st' = if fjoined x0 then alter setOver id (heap st) else heap st) as Hgo.
  { intros b' Hb'. eexists _, x. split_and!; [done|done|..]; destruct (fjoined x); try done. by apply fl_rep_onCall. }
  apply Hgo. destruct Hin as [(i & -> & Hin)|[-> Hin]].
  - rewrite (proj2 (Z.eqb_neq _ _)) by (destruct Hin; unfold flightSpilled; lia). cbn [negb]. rewrite Nat2Z.id.
    by apply (fl_rep_clear st R k id b (Z.of_nat i)).
  - rewrite Z.eqb_refl. cbn [negb]. apply (fl_rep_unspill st R k id b flightSpilled); try done. by destruct (filter _ _).
Qed.

End Laws.
