(* ===== verification/FlightTheorems.v ===== *)
(** * Loads in flight

    The registry refines a map from keys to flights, and whoever was told to wait is woken: [release]
    marks a flight over exactly when someone joined it, and between [finish] and [wait] no wake-up is
    lost. *)

From S2P Require Import Prelude CacheOps CacheState Flight.

(** ** Runs of claims and releases *)

Section Registry.
Context {K V E : Type} `{!EqDecision K}.
Context (hash : K → Z) (shardMask : Z) (zk : K) (zv : V).
Abbreviation flights := (Flights K V E).
Implicit Types (st : flights) (k : K) (id : nat) (R : K → option nat).

(** A caller that wants [k] claims with a new call; the owner of [k]'s flight releases it. *)
Inductive fop := FClaim k | FRelease k id.

Definition runF1 (o : fop) st : option (option (nat * bool) * flights) :=
  match o with
  | FClaim k =>
    let '(id, st) := alloc (newCall zk zv (Some ErrLoaderPanic)) st in
    match claim shardMask (hash k) k id st with
    | Some (winner, running, st) => Some (Some (winner, running), st)
    | None => None
    end
  | FRelease _ id => match release id st with Some st => Some (None, st) | None => None end
  end.

Fixpoint runF (l : list fop) st : option (list (option (nat * bool)) * flights) :=
  match l with
  | [] => Some ([], st)
  | o :: l =>
    match runF1 o st with
    | None => None
    | Some (r, st) => match runF l st with Some (rs, st) => Some (r :: rs, st) | None => None end
    end
  end.

(** The same on a map, with the number of the next call. *)
Definition mapF R (n : nat) (o : fop) : (K → option nat) * nat :=
  match o with FClaim k => (upd R k (Some (default n (R k))), S n) | FRelease k _ => (upd R k None, n) end.

Definition answerF R (n : nat) (o : fop) : option (nat * bool) :=
  match o with FClaim k => Some (default n (R k), bool_decide (is_Some (R k))) | FRelease _ _ => None end.

Fixpoint specF (l : list fop) R (n : nat) : list (option (nat * bool)) * (K → option nat) :=
  match l with
  | [] => ([], R)
  | o :: l => let '(R', n') := mapF R n o in let '(rs, R'') := specF l R' n' in (answerF R n o :: rs, R'')
  end.

(** Only the owner of a flight releases it, once. *)
Fixpoint legal (l : list fop) R (n : nat) : Prop :=
  match l with
  | [] => True
  | o :: l => match o with FRelease k id => R k = Some id | FClaim _ => True end ∧
              let '(R', n') := mapF R n o in legal l R' n'
  end.

(** Who was told to wait on what; [log] are the answers so far. *)
Definition waking (h : list (flightCall K V E)) R (log : list (option (nat * bool))) : Prop :=
  (∀ k id, R k = Some id → (id < length h)%nat) ∧
  (∀ id b, Some (id, b) ∈ log → (id < length h)%nat) ∧
  ∀ id x, h !! id = Some x →
    (fjoined x = true ↔ Some (id, true) ∈ log) ∧
    (fover x = true ↔ fjoined x = true ∧ ∀ k, R k ≠ Some id).

Lemma fl_rep_inj st R k k' id : fl_rep hash shardMask st R → R k = Some id → R k' = Some id → k = k'.
Proof.
  intros Hrep H1 H2. destruct (fr_complete _ _ _ _ Hrep k id H1) as (_ & _ & E1 & _).
  destruct (fr_complete _ _ _ _ Hrep k' id H2) as (_ & _ & E2 & _). congruence.
Qed.

Lemma fl_rep_alloc st R x : fl_rep hash shardMask st R → fl_rep hash shardMask (alloc x st).2 R.
Proof.
  intros [Hm Hfew Hb Hc]. split; [done|done|..]; cbn [alloc snd heap buckets].
  - intros bi b Hbi. eapply bucket_rep_mono; [by apply Hb|]. intros k id s (y & Hy & ?). exists y.
    split; [by apply lookup_app_l_Some|done].
  - intros k id HR. destruct (Hc k id HR) as (b & ? & Hkey & ?). exists b. split_and!; [done| |done].
    destruct (heap st !! id) as [y|] eqn:Ey; [|done]. by rewrite (lookup_app_l_Some _ _ _ _ Ey).
Qed.

Lemma in_snoc {A} (x : A) l y : x ∈ l ++ [y] ↔ x ∈ l ∨ x = y.
Proof. by rewrite elem_of_app, list_elem_of_singleton. Qed.

(** A call of its own is not registered and nobody waits on it. *)
Lemma waking_alloc h R log err : waking h R log → waking (h ++ [newCall zk zv err]) R log.
Proof.
  intros (Hr & Hn & Hw). split_and!.
  - intros k id HR. rewrite length_app. specialize (Hr k id HR). lia.
  - intros id b Hin. rewrite length_app. specialize (Hn id b Hin). lia.
  - intros id x Hx. apply lookup_app_Some in Hx as [Hx|[Hge Hx]]; [by apply Hw|].
    apply list_lookup_singleton_Some in Hx as [Hid <-]. cbn. split.
    + split; [done|]. intros Hin. specialize (Hn _ _ Hin). lia.
    + split; [done|]. by intros [? _].
Qed.

Lemma waking_ext h R R' log : (∀ k, R' k = R k) → waking h R log → waking h R' log.
Proof. intros He (Hr & Hn & Hw). split_and!; [intros k id; rewrite He; apply Hr|done|]. intros id x Hx. setoid_rewrite He. by apply Hw. Qed.

(** Someone joins the flight of [k]. *)
Lemma waking_join h R log k wn :
  waking h R log → R k = Some wn → waking (alter setJoined wn h) R (log ++ [Some (wn, true)]).
Proof.
  intros (Hr & Hn & Hw) Hk. split_and!; [intros k' id HR; rewrite length_alter; by eapply Hr| |].
  - intros id b [Hin|[= -> ->]]%in_snoc; rewrite length_alter; [by eapply Hn|by eapply Hr].
  - intros id x Hx. rewrite in_snoc. destruct (decide (id = wn)) as [->|Hne].
    + rewrite list_lookup_alter_eq in Hx. destruct (h !! wn) as [y|] eqn:Ey; [|done]. injection Hx as <-.
      destruct (Hw wn y Ey) as [_ Ho]. cbn [setJoined fjoined fover]. split; [split; [by right|done]|].
      rewrite Ho. split; intros [_ Hno]; by destruct (Hno k).
    + rewrite list_lookup_alter_ne in Hx by done. destruct (Hw id x Hx) as [Hj Ho]. rewrite Hj.
      split; [|by rewrite <- Hj]. split; [by left|]. intros [?|[=]]; [done|congruence].
Qed.

(** A new flight is registered. *)
Lemma waking_register h R log k n at_ :
  waking h R log → (n < length h)%nat → R k = None → (∀ k', R k' ≠ Some n) → Some (n, true) ∉ log →
  waking (alter (setAt k at_) n h) (upd R k (Some n)) (log ++ [Some (n, false)]).
Proof.
  intros (Hr & Hn & Hw) Hlt Hk Hfresh Hnj. split_and!.
  - intros k' id. rewrite length_alter. unfold upd. case_decide; [by intros [= <-]|apply Hr].
  - intros id b [Hin|[= -> ->]]%in_snoc; rewrite length_alter; [by eapply Hn|done].
  - intros id x Hx. assert (Some (id, true) ∈ log ++ [Some (n, false)] ↔ Some (id, true) ∈ log) as ->.
    { rewrite in_snoc. split; [by intros [?|?]|by left]. }
    assert ((∀ k', R k' ≠ Some id) ↔ id = n ∨ ∀ k', upd R k (Some n) k' ≠ Some id) as Hreg.
    { split.
      - intros Hno. destruct (decide (id = n)) as [|Hne]; [by left|right]. intros k'. unfold upd. case_decide; [congruence|apply Hno].
      - intros [->|Hno] k'; [done|]. specialize (Hno k'). unfold upd in Hno. case_decide; [by subst; rewrite Hk|done]. }
    destruct (decide (id = n)) as [->|Hne].
    + rewrite list_lookup_alter_eq in Hx. destruct (h !! n) as [y|] eqn:Ey; [|done]. injection Hx as <-.
      destruct (Hw n y Ey) as [Hj Ho]. cbn [setAt fjoined fover]. split; [done|]. rewrite Ho, Hj. by split; intros [? _].
    + rewrite list_lookup_alter_ne in Hx by done. destruct (Hw id x Hx) as [Hj Ho]. split; [done|]. rewrite Ho, Hreg. naive_solver.
Qed.

Lemma claim_waking st R log k :
  fl_rep hash shardMask st R → waking (heap st) R log →
  ∃ st', runF1 (FClaim k) st = Some (answerF R (length (heap st)) (FClaim k), st') ∧
    fl_rep hash shardMask st' (upd R k (Some (default (length (heap st)) (R k)))) ∧
    waking (heap st') (upd R k (Some (default (length (heap st)) (R k)))) (log ++ [answerF R (length (heap st)) (FClaim k)]) ∧
    length (heap st') = S (length (heap st)).
Proof.
  intros Hrep Hw. set (n := length (heap st)). set (x0 := newCall (E := E) zk zv (Some ErrLoaderPanic)).
  pose proof (waking_alloc _ R log (Some ErrLoaderPanic) Hw) as Hw1. pose proof (fl_rep_alloc st R x0 Hrep) as Hrep1.
  assert (heap (alloc x0 st).2 !! n = Some x0) as Hx0 by (cbn; by rewrite lookup_app_r, Nat.sub_diag by lia).
  assert (∀ k', R k' ≠ Some n) as Hfresh by (intros k' HR; apply (proj1 Hw) in HR; unfold n in HR; lia).
  destruct (claim_spec hash shardMask _ R k n x0 Hrep1 Hx0 Hfresh) as (st' & Ec & Hrep' & Hh).
  assert (runF1 (FClaim k) st = Some (answerF R n (FClaim k), st')) as Erun.
  { transitivity (match claim shardMask (hash k) k n (alloc x0 st).2 with
      | Some (winner, running, st) => Some (Some (winner, running), st) | None => None end); [done|]. by rewrite Ec. }
  exists st'. split_and!; [done|done|..]; unfold answerF.
  - destruct (R k) as [wn|] eqn:Ek; cbn [default from_option Datatypes.id] in *.
    + rewrite bool_decide_eq_true_2 by done. rewrite Hh.
      apply (waking_ext _ R); [intros k'; unfold upd; case_decide; congruence|]. by eapply waking_join.
    + rewrite bool_decide_eq_false_2 by (by intros []). destruct Hh as [at_ ->].
      apply waking_register; [done|by eapply lookup_lt_Some|done|done|]. intros Hin. apply (proj1 (proj2 Hw)) in Hin. unfold n in Hin. lia.
  - destruct (R k); [|destruct Hh as [? Hh]]; rewrite Hh, length_alter; cbn; rewrite length_app; cbn; lia.
Qed.

Lemma release_waking st R log k id :
  fl_rep hash shardMask st R → waking (heap st) R log → R k = Some id →
  ∃ st', runF1 (FRelease k id) st = Some (None, st') ∧ fl_rep hash shardMask st' (upd R k None) ∧
    waking (heap st') (upd R k None) (log ++ [None]) ∧ length (heap st') = length (heap st).
Proof.
  intros Hrep (Hr & Hn & Hw) Hk. destruct (release_spec hash shardMask st R k id Hrep Hk) as (st' & x & Hx & Er & Hrep' & Hh).
  exists st'. cbn [runF1]. rewrite Er. assert (length (heap st') = length (heap st)) as Hlen.
  { rewrite Hh. destruct (fjoined x); by rewrite ?length_alter. }
  split_and!; [done|done| |done].
  assert (∀ k', upd R k None k' ≠ Some id) as Hgone.
  { intros k'. unfold upd. case_decide; [done|]. intros HR. by rewrite (fl_rep_inj _ _ _ _ _ Hrep HR Hk) in H. }
  split_and!.
  - intros k' id'. rewrite Hlen. unfold upd. case_decide; [done|apply Hr].
  - intros id' b [Hin|?]%in_snoc; [|done]. rewrite Hlen. by eapply Hn.
  - intros id' y Hy. assert (Some (id', true) ∈ log ++ [None] ↔ Some (id', true) ∈ log) as ->.
    { rewrite in_snoc. split; [by intros [?|?]|by left]. }
    destruct (decide (id' = id)) as [->|Hne].
    + destruct (Hw id x Hx) as [Hj Ho]. rewrite Hh in Hy. destruct (fjoined x) eqn:Ej.
      * rewrite list_lookup_alter_eq, Hx in Hy. injection Hy as <-. cbn [setOver fjoined fover]. by rewrite Ej.
      * assert (y = x) as -> by congruence. rewrite Ej. split; [done|]. rewrite Ho. by split; intros [? _].
    + assert (heap st' !! id' = heap st !! id') as E1 by (rewrite Hh; destruct (fjoined x); [by rewrite list_lookup_alter_ne|done]).
      rewrite E1 in Hy. destruct (Hw id' y Hy) as [Hj Ho]. split; [done|]. rewrite Ho.
      assert ((∀ k', R k' ≠ Some id') ↔ ∀ k', upd R k None k' ≠ Some id') as ->; [|done].
      split; intros Hno k'; specialize (Hno k'); unfold upd in *; case_decide; congruence.
Qed.

Lemma runF_spec l : ∀ st R log,
  fl_rep hash shardMask st R → waking (heap st) R log → legal l R (length (heap st)) →
  ∃ st', runF l st = Some ((specF l R (length (heap st))).1, st') ∧
    fl_rep hash shardMask st' (specF l R (length (heap st))).2 ∧
    waking (heap st') (specF l R (length (heap st))).2 (log ++ (specF l R (length (heap st))).1).
Proof.
  induction l as [|o l IH]; intros st R log Hrep Hw Hl.
  { exists st. cbn. by rewrite app_nil_r. }
  destruct Hl as [Ho Hl]. cbn [runF specF].
  destruct o as [k|k id]; cbn [mapF answerF] in *.
  - destruct (claim_waking st R log k Hrep Hw) as (st1 & E1 & Hrep1 & Hw1 & Hlen). rewrite E1. rewrite <- Hlen in *.
    destruct (IH st1 _ _ Hrep1 Hw1 Hl) as (st' & E' & Hrep' & Hw'). rewrite E'.
    destruct (specF l _ _) as [rs R'']. exists st'. cbn in *. rewrite <- app_assoc in Hw'. done.
  - destruct (release_waking st R log k id Hrep Hw Ho) as (st1 & E1 & Hrep1 & Hw1 & Hlen). rewrite E1. rewrite <- Hlen in *.
    destruct (IH st1 _ _ Hrep1 Hw1 Hl) as (st' & E' & Hrep' & Hw'). rewrite E'.
    destruct (specF l _ _) as [rs R'']. exists st'. cbn in *. rewrite <- app_assoc in Hw'. done.
Qed.

(** The registry [NewWithConfig] makes, of [2^n] buckets. *)
Definition newFlights (n : nat) : flights := mkFlights [] (replicate (2 ^ n) emptyBucket).

Lemma newFlights_rep n :
  (n ≤ 8)%nat → shardMask = 2 ^ Z.of_nat n - 1 → fl_rep hash shardMask (newFlights n) (λ _, None).
Proof.
  intros Hn Hmask. split.
  - intros h. cbn. rewrite length_replicate. unfold bucketOf. rewrite Hmask, land_mod_pow2 by lia.
    pose proof (Z.mod_pos_bound (u32 h) (2 ^ Z.of_nat n) ltac:(lia)).
    apply Nat2Z.inj_lt. rewrite Z2Nat.id, Nat2Z.inj_pow by lia. apply H.
  - cbn. rewrite length_replicate. change 256%nat with (2 ^ 8)%nat. by apply Nat.pow_le_mono_r.
  - intros bi b Hb. apply lookup_replicate in Hb as [-> _]. split; cbn; try done; [|by intros ? ? ?%elem_of_nil|constructor].
    intros i _ Ht. by rewrite Z.testbit_0_l in Ht.
  - done.
Qed.

(** C36: The flight registry is a map.  On a new registry, any sequence of claims (each with a new call)
    and releases by the owners gives the answers of a map from keys to running flights: a claim of a key
    with a running flight is handed that flight, any other becomes the owner, whatever the hash
    collisions and however many flights share a bucket.  At every moment at most one flight runs per
    key, and a flight is marked over exactly when it was released and someone was told to wait on it. *)
Theorem flight_registry_is_a_map n l :
  (n ≤ 8)%nat → shardMask = 2 ^ Z.of_nat n - 1 → legal l (λ _, None) 0 →
  let '(rs, R) := specF l (λ _, None) 0 in
  ∃ st, runF l (newFlights n) = Some (rs, st) ∧
    (∀ k b, buckets st !! bucketOf shardMask (hash k) = Some b → running st b (hash k) k = R k) ∧
    (∀ k k' id, R k = Some id → R k' = Some id → k = k') ∧
    ∀ id x, heap st !! id = Some x →
      (fover x = true ↔ Some (id, true) ∈ rs ∧ ∀ k, R k ≠ Some id).
Proof.
  intros Hn Hmask Hl. pose proof (newFlights_rep n Hn Hmask) as Hrep.
  destruct (runF_spec l (newFlights n) (λ _, None) [] Hrep) as (st & E1 & Hrep' & _ & _ & Hw).
  { split_and!; [done|by intros ? ? ?%elem_of_nil|]. intros id x Hx. done. }
  { done. }
  cbn [newFlights heap length] in *. destruct (specF l (λ _, None) 0) as [rs R]. cbn in *.
  exists st. split_and!; [done|..].
  - intros k b Hb. by apply (running_spec hash shardMask).
  - intros k k' id. by apply (fl_rep_inj st).
  - intros id x Hx. destruct (Hw id x Hx) as [<- Ho]. done.
Qed.

End Registry.
Arguments fop : clear implicits.

(** Ten keys that all hash to one bucket of four: two of the flights overflow its slots; key 3 is wanted
    twice, and so is key 9, which is in the overflow map. *)
Definition crowd : list (fop Z) :=
  (FClaim <$> [0; 1; 2; 3; 4; 5; 6; 7; 8; 9]) ++ [FClaim 3; FClaim 9; FRelease 3 3; FClaim 3; FRelease 9 9; FRelease 8 8].

Lemma flight_registry_is_a_map_witness :
  ∃ st rs, runF (V := Z) (E := Z) (λ _, 77) 3 0 0 crowd (newFlights 2) = Some (rs, st) ∧
    rs = ((λ n, Some (n, false)) <$> seq 0 10) ++ [Some (3%nat, true); Some (9%nat, true); None; Some (12%nat, false); None; None] ∧
    (fover <$> heap st !! 3%nat = Some true) ∧ (fover <$> heap st !! 8%nat = Some false).
Proof.
  pose proof (flight_registry_is_a_map (V := Z) (E := Z) (λ _, 77) 3 0 0 2 crowd ltac:(lia) eq_refl) as H.
  destruct (specF crowd (λ _, None) 0) as [rs R] eqn:Es. destruct H as (st & E1 & _ & _ & Ho).
  - vm_compute. repeat split.
  - assert (rs = (specF crowd (λ _, None) 0).1) as Hrs by by rewrite Es.
    exists st, rs. split_and!; [exact E1|rewrite Hrs; vm_compute; reflexivity|..].
    + apply (f_equal (λ o, o ≫= λ '(_, st), fover <$> heap st !! 3%nat)) in E1. etrans; [symmetry; exact E1|]. vm_compute. reflexivity.
    + apply (f_equal (λ o, o ≫= λ '(_, st), fover <$> heap st !! 8%nat)) in E1. etrans; [symmetry; exact E1|]. vm_compute. reflexivity.
Defined.
