(* ===== verification/Wakeup.v ===== *)
(** * finish and wait (singleflight.go)

    The owner of a flight and the callers that joined it, one atomic access at a time.  [finish] stores
    [over] and then reads [waiter]; [wait] publishes [waiter] and then reads [over]. *)

From stdpp Require Import relations.
From S2P Require Import Prelude.

(** [sWaiter]: the parking spot that is published, named after the waiter that made it; [sClosed]: the spots whose channel is closed. *)
Record shared := mkShared { sOver : bool; sWaiter : option nat; sClosed : list nat }.

(** What the owner does next; [FClose] holds the spot it loaded. *)
Inductive finPc := FStore | FLoad | FClose (w : nat) | FDone.

(** What a waiter does next, with the spot it holds; the last two have returned, with the flight's result or on the context. *)
Inductive waitPc := WFirst | WLoad | WSwap | WReload | WSecond (w : nat) | WPark (w : nat) | WWoken | WLeft.

Inductive finish_step : shared → finPc → shared → finPc → Prop :=
| fin_store s : finish_step s FStore (mkShared true (sWaiter s) (sClosed s)) FLoad
| fin_some s w : sWaiter s = Some w → finish_step s FLoad s (FClose w)
| fin_none s : sWaiter s = None → finish_step s FLoad s FDone
| fin_close s w : finish_step s (FClose w) (mkShared (sOver s) (sWaiter s) (w :: sClosed s)) FDone.

(** The waiter [i].  Its compare-and-swap publishes the spot it made, or fails because another waiter was faster, whose spot it
    then loads. *)
Inductive wait_step (i : nat) : shared → waitPc → shared → waitPc → Prop :=
| wait_over s : sOver s = true → wait_step i s WFirst s WWoken
| wait_running s : sOver s = false → wait_step i s WFirst s WLoad
| wait_spot s w : sWaiter s = Some w → wait_step i s WLoad s (WSecond w)
| wait_no_spot s : sWaiter s = None → wait_step i s WLoad s WSwap
| wait_swap s : sWaiter s = None → wait_step i s WSwap (mkShared (sOver s) (Some i) (sClosed s)) (WSecond i)
| wait_slower s w : sWaiter s = Some w → wait_step i s WSwap s WReload
| wait_reload s w : sWaiter s = Some w → wait_step i s WReload s (WSecond w)
| wait_over' s w : sOver s = true → wait_step i s (WSecond w) s WWoken
| wait_park s w : sOver s = false → wait_step i s (WSecond w) s (WPark w)
| wait_wake s w : w ∈ sClosed s → wait_step i s (WPark w) s WWoken
| wait_leave s w : wait_step i s (WPark w) s WLeft.

Record flightState := mkState { fsShared : shared; fsFin : finPc; fsWait : list waitPc }.

Inductive flight_step : flightState → flightState → Prop :=
| step_owner s p ws s' p' : finish_step s p s' p' → flight_step (mkState s p ws) (mkState s' p' ws)
| step_waiter s p ws i q s' q' : ws !! i = Some q → wait_step i s q s' q' →
    flight_step (mkState s p ws) (mkState s' p (<[i := q']> ws)).

(** A flight that [n] callers have joined. *)
Definition joinedFlight (n : nat) : flightState := mkState (mkShared false None []) FStore (replicate n WFirst).

(** The spot a waiter holds. *)
Definition spotOf (q : waitPc) : option nat := match q with WSecond w | WPark w => Some w | _ => None end.

Record flight_inv (st : flightState) : Prop := {
  fi_over : sOver (fsShared st) = true ↔ fsFin st ≠ FStore;
  fi_spot i q w : fsWait st !! i = Some q → spotOf q = Some w → sWaiter (fsShared st) = Some w;
  fi_reload i : fsWait st !! i = Some WReload → is_Some (sWaiter (fsShared st));
  fi_woken i : fsWait st !! i = Some WWoken → sOver (fsShared st) = true;
  fi_close w : fsFin st = FClose w → sWaiter (fsShared st) = Some w;
  fi_closed w : w ∈ sClosed (fsShared st) → fsFin st = FDone;
  fi_done : fsFin st = FDone → ∀ i w, fsWait st !! i = Some (WPark w) → w ∈ sClosed (fsShared st)
}.

Lemma owner_inv s p ws s' p' :
  finish_step s p s' p' → flight_inv (mkState s p ws) → flight_inv (mkState s' p' ws).
Proof.
  intros Hs [Hov Hsp Hrl Hwk Hcl Hcd Hdn]. cbn in *.
  assert (p ≠ FStore → sOver s = true) as Hov' by by apply Hov.
  destruct Hs as [s|s w Hw|s Hw|s w]; split; cbn; try done; try (by split; [|intros _; apply Hov']);
    try (by intros w' Hc; discriminate (Hcd w' Hc)).
  - by intros w' [= <-].
  - intros _ i w Hi. specialize (Hsp i _ w Hi eq_refl). congruence.
  - intros _ i w' Hi. specialize (Hsp i _ w' Hi eq_refl). specialize (Hcl w eq_refl). assert (w' = w) as -> by congruence. left.
Qed.

(** A waiter publishes a spot only where there is none. *)
Lemma wait_keeps i s q s' q' w : wait_step i s q s' q' → sWaiter s = Some w → sWaiter s' = Some w.
Proof. intros Hs Hw. destruct Hs; cbn; congruence. Qed.

Lemma wait_same i s q s' q' : wait_step i s q s' q' → sOver s' = sOver s ∧ sClosed s' = sClosed s.
Proof. by intros []. Qed.

Lemma waiter_inv s p ws i q s' q' :
  ws !! i = Some q → wait_step i s q s' q' → flight_inv (mkState s p ws) → flight_inv (mkState s' p (<[i := q']> ws)).
Proof.
  intros Hi Hs [Hov Hsp Hrl Hwk Hcl Hcd Hdn]. cbn in *. destruct (wait_same _ _ _ _ _ Hs) as [Eo Ec].
  assert (∀ j r, <[i := q']> ws !! j = Some r → r = q' ∨ ws !! j = Some r) as Hlk.
  { intros j r [(_ & -> & _)|[_ ?]]%list_lookup_insert_Some; [by left|by right]. }
  split; cbn; rewrite ?Eo, ?Ec.
  - done.
  - intros j r w Hj Hr. destruct (Hlk j r Hj) as [->|Hj']; [|by eapply wait_keeps, (Hsp j r w Hj')].
    destruct Hs; cbn in *; try done; try congruence. by apply (Hsp i (WSecond w0)).
  - intros j Hj. destruct (Hlk j _ Hj) as [E|Hj']; [|destruct (Hrl j Hj') as [w Hw]; exists w; by eapply wait_keeps]. by destruct Hs.
  - intros j Hj. destruct (Hlk j WWoken Hj) as [E|Hj']; [|by apply (Hwk j)]. destruct Hs; try done.
    apply Hov. by rewrite (Hcd w).
  - intros w Hp. by eapply wait_keeps, (Hcl w).
  - done.
  - intros Hp j w Hj. destruct (Hlk j _ Hj) as [E|Hj']; [|by apply (Hdn Hp j)].
    destruct Hs; try done. assert (sOver s = true) by (apply Hov; congruence). congruence.
Qed.

Lemma joined_inv n : flight_inv (joinedFlight n).
Proof.
  split; cbn; try done.
  - by intros i q w [-> _]%lookup_replicate.
  - by intros i [? _]%lookup_replicate.
  - by intros i [? _]%lookup_replicate.
  - by intros w ?%elem_of_nil.
Qed.

Lemma flight_reach_inv n st : rtc flight_step (joinedFlight n) st → flight_inv st.
Proof.
  intros Hr. pattern st. revert st Hr. apply rtc_ind_r; [apply joined_inv|].
  intros st1 st2 _ Hs IH. destruct Hs; [by eapply owner_inv|by eapply waiter_inv].
Qed.

(** Steps a waiter may still take before it returns. *)
Definition wait_left (q : waitPc) : nat :=
  match q with WFirst => 6 | WLoad => 5 | WSwap => 4 | WReload => 3 | WSecond _ => 2 | WPark _ => 1 | WWoken | WLeft => 0 end.

(** C37: No lost wake-up.  Whatever the interleaving of the owner's [finish] with the [wait]s of the
    callers that joined the flight: a parked waiter holds the spot that is published, not one of its own that the owner
    cannot see; once the owner is done, every waiter that has not returned can take
    a step, each step brings it closer to returning, and it is never left parked on a channel nobody
    closes; and a waiter that returned without its context being cancelled did so after the owner's
    result was published. *)
Theorem no_lost_wakeup n st :
  rtc flight_step (joinedFlight n) st →
  (∀ i, fsWait st !! i = Some WWoken → sOver (fsShared st) = true) ∧
  (∀ i w, fsWait st !! i = Some (WPark w) → sWaiter (fsShared st) = Some w) ∧
  (fsFin st = FDone → ∀ i q, fsWait st !! i = Some q → q ≠ WWoken → q ≠ WLeft →
    ∃ s' q', wait_step i (fsShared st) q s' q' ∧ q' ≠ WLeft ∧ (wait_left q' < wait_left q)%nat) ∧
  (∀ i s' q q', wait_step i (fsShared st) q s' q' → (wait_left q' < wait_left q)%nat).
Proof.
  intros Hr. pose proof (flight_reach_inv n st Hr) as [Hov Hsp Hrl Hwk Hcl Hcd Hdn]. split_and!; [done|intros i w Hi; by apply (Hsp i (WPark w))| |].
  - intros Hp i q Hq H1 H2. assert (sOver (fsShared st) = true) as Ho by (apply Hov; congruence). destruct q; try done.
    + eexists _, _. split_and!; [by apply wait_over|done|cbn; lia].
    + destruct (sWaiter (fsShared st)) as [w|] eqn:Ew.
      * eexists _, _. split_and!; [by apply wait_spot|done|cbn; lia].
      * eexists _, _. split_and!; [by apply wait_no_spot|done|cbn; lia].
    + destruct (sWaiter (fsShared st)) as [w|] eqn:Ew.
      * eexists _, _. split_and!; [by eapply wait_slower|done|cbn; lia].
      * eexists _, _. split_and!; [by apply wait_swap|done|cbn; lia].
    + destruct (Hrl i Hq) as [w Hw]. eexists _, _. split_and!; [by apply wait_reload|done|cbn; lia].
    + eexists _, _. split_and!; [by apply wait_over'|done|cbn; lia].
    + eexists _, _. split_and!; [by apply wait_wake, (Hdn Hp i)|done|cbn; lia].
  - intros i s' q q' []; cbn; lia.
Qed.

(** Two waiters find no spot; the first publishes its own and parks there, the swap of the second fails and it parks with
    the first; the owner finishes. *)
Lemma no_lost_wakeup_witness :
  let st := mkState (mkShared true (Some 0%nat) [0%nat]) FDone [WPark 0; WPark 0] in
  rtc flight_step (joinedFlight 2) st ∧
  ∃ s' q', wait_step 1 (fsShared st) (WPark 0) s' q' ∧ q' ≠ WLeft ∧ (wait_left q' < wait_left (WPark 0))%nat.
Proof.
  intros st. assert (rtc flight_step (joinedFlight 2) st) as Hr.
  { do 2 (eapply rtc_l; [eapply (step_waiter _ _ _ 0 _ _ _); [reflexivity|by constructor]|]).
    do 2 (eapply rtc_l; [eapply (step_waiter _ _ _ 1 _ _ _); [reflexivity|by constructor]|]).
    do 2 (eapply rtc_l; [eapply (step_waiter _ _ _ 0 _ _ _); [reflexivity|by constructor]|]).
    eapply rtc_l; [eapply (step_waiter _ _ _ 1 _ _ _); [reflexivity|by eapply wait_slower]|].
    do 2 (eapply rtc_l; [eapply (step_waiter _ _ _ 1 _ _ _); [reflexivity|by constructor]|]).
    do 3 (eapply rtc_l; [eapply step_owner; by constructor|]). apply rtc_refl. }
  split; [exact Hr|]. apply (no_lost_wakeup 2 st Hr) with (i := 1%nat); done.
Defined.
