(* ===== verification/Batch.v ===== *)
(** * Batches of reads (batch.go)

    The memory lookups of a batch are pipelined in groups: all the probe walks first, then all the
    validations.  A group runs without other writers between its stages; what its own later stages
    change, an expired item dropped or a lifetime refreshed, the model has. *)

From S2P Require Import Prelude Item Queue Table TableInv Policy Shard Lookup ShardSteps Rebuild ShardInv SetMemory GetMemory ShardSpec Config Stats CacheState WriteBack CacheLaws CacheOps.

Definition batchGroupSize : nat := 12.
Definition smallBatch : nat := 4.

Section Batch.
Context {K V P L E : Type} `{!EqDecision K} `{!GoType K} `{!GoType V}.
Context `{!EvictionPolicy K V P} `{!L2Cache K V L E}.
Context (hash : K → Z) (c : Consts K V).
Abbreviation W := (World K V P L E).
Implicit Types (w : W) (key : K) (value : V) (t : FlatHashMap K V) (sh : shard K V P).

(** The second stage of [batchGetGroup] for one key: the first candidate of its probe chain, as the
    position and the meta word read there, or a definite miss.  The outer [None] is a walk that did not
    end within the table. *)
Definition candidate t (keyHash : Z) : option (option (Z * Z)) :=
  let tagged := TagOf keyHash in
  let home := Home t keyHash in
  let groupEnd := u32 (Z.lor home 7 + 1) in
  probe (Z.to_nat (tLen t))
    (λ (_ : unit) pos,
       let metaWord := Metadata (At t pos) in
       if (metaWord =? 0) || ((pos =? groupEnd) && negb (Overflowed t home)) then inr None
       else if Z.land metaWord DeadOrTag =? tagged then inr (Some (pos, metaWord))
       else inl tt) tt home.

(** The third stage for one key, on the shard as the earlier keys of the group left it: a hit is served
    and an expired item dropped as in [getMemory], from the meta word of the second stage; anything
    else falls back to [getMemory]. *)
Definition validate (e : Env K V) sh key (found : option (Z * Z)) : option (shard K V P * list (deletion K V) * option V) :=
  match found with
  | None => Some (sh, [], None)
  | Some (pos, metaWord) =>
    let '(x, ok) := SnapshotInto (At (items sh) pos) metaWord in
    if negb ok || negb (bool_decide (Key x = key)) then getMemory hash e sh key
    else getHit e sh (hash key) key pos metaWord x
  end.

(** A loop that collects an answer per element. *)
Fixpoint collectM {A B} (l : list A) (f : A → M W B) : M W (list B) :=
  match l with
  | [] => mret []
  | x :: l => y ← f x; ys ← collectM l f; mret (y :: ys)
  end.

Definition stages w (keys : list K) : option (list (K * option (Z * Z))) :=
  mapM (λ key, sh ← wShards w !! shardIdx hash c key; r ← candidate (items sh) (hash key); mret (key, r)) keys.

Definition batchGetGroup (keys : list K) : M W (list (option V)) :=
  w ← get;
  match stages w keys with
  | None => λ _, None
  | Some found => collectM found (λ '(key, r), onShard hash c key (λ e sh, validate e sh key r))
  end.

(** The answers of a batch: the pairs found and the keys missed, in order. *)
Definition hitsOf (keys : list K) (rs : list (option V)) : list (K * V) :=
  omap (λ '(k, r), pair k <$> r) (zip keys rs).

Definition missesOf (keys : list K) (rs : list (option V)) : list K :=
  omap (λ '(k, r), match r with Some _ => None | None => Some k end) (zip keys rs).

(** The group loop of [batchGetMemory]; one turn per group, so the number of keys bounds it. *)
Fixpoint groupLoop (fuel : nat) (keys : list K) : M W (list (option V)) :=
  match keys with
  | [] => mret []
  | _ =>
    match fuel with
    | O => λ _, None
    | S fuel =>
      rs ← batchGetGroup (take batchGroupSize keys);
      rest ← groupLoop fuel (drop batchGroupSize keys);
      mret (rs ++ rest)
    end
  end.

Definition batchGetAnswers (keys : list K) : M W (list (option V)) :=
  if (length keys <=? smallBatch)%nat then collectM keys (cGetMemory hash c)
  else groupLoop (length keys) keys.

(** [batchGetMemory]: what it appends to [dst], the missing keys, and the hits. *)
Definition batchGetMemory (keys : list K) (dst : list (K * V)) (wantMissing : bool)
    : M W (list (K * V) * list K * Z) :=
  rs ← batchGetAnswers keys;
  mret (dst ++ hitsOf keys rs, if wantMissing then missesOf keys rs else [], Z.of_nat (length (hitsOf keys rs))).

Definition BatchGetFromMemory (keys : list K) (dst : list (K * V)) : M W (list (K * V)) :=
  '(dst, _, hits) ← batchGetMemory keys dst false;
  stat addMemHits hits ≫= λ _, stat addMemMisses (Z.of_nat (length keys) - hits) ≫= λ _, mret dst.

Definition BatchGetFromMemoryWithMissing (keys : list K) (dst : list (K * V)) : M W (list (K * V) * list K) :=
  '(dst, missing, hits) ← batchGetMemory keys dst true;
  stat addMemHits hits ≫= λ _, stat addMemMisses (Z.of_nat (length keys) - hits) ≫= λ _, mret (dst, missing).

Definition BatchGet (keys : list K) : M W (list (K * V) * option E) :=
  if kHasL2 c then
    '(found, missing, hits) ← batchGetMemory keys [] true;
    stat addMemHits hits ≫= λ _,
    match missing with
    | [] => mret (found, None)
    | _ =>
      '(fromL2, err) ← callL2 (λ l, l2BatchGet l missing);
      match err with
      | Some _ => stat addL2Misses (Z.of_nat (length missing)) ≫= λ _, mret (found, err)
      | None =>
        stat addL2Hits (Z.of_nat (length fromL2)) ≫= λ _,
        stat addL2Misses (Z.max (Z.of_nat (length missing) - Z.of_nat (length fromL2)) 0) ≫= λ _,
        forM fromL2 (λ item, storeMemory hash c item.1 item.2) ≫= λ _,
        mret (found ++ fromL2, None)
      end
    end
  else
    '(found, _, hits) ← batchGetMemory keys [] false;
    stat addMemHits hits ≫= λ _, stat addMemMisses (Z.of_nat (length keys) - hits) ≫= λ _, mret (found, None).

End Batch.

(** ** A pipelined batch reads what single reads read

    Each key of a group is validated against a probe walk that may be older than the changes the earlier
    keys of the group made.  [reads] relates a shard at the start of a group to the same shard after some
    of its keys were served. *)

Section Shards.
Context {K V P : Type} `{!EqDecision K} `{!GoType K} `{!GoType V}.
Context `{!EvictionPolicy K V P} `{!PolicyLaws K V P}.
Context (hash : K → Z) (c : Env K V).
Implicit Types (t : FlatHashMap K V) (sh : shard K V P) (k : K) (it : Item K V).

(** ** What a read leaves of the other slots *)

(** [t'] is [t] after a read of [k]: nothing comes to life, and the slots of other keys are as they were. *)
Definition touched k t t' : Prop :=
  mask t' = mask t ∧
  ∀ pos, alive (At t' pos) = true →
    alive (At t pos) = true ∧ entry (At t' pos) = entry (At t pos) ∧ (ikey (At t pos) ≠ k → At t' pos = At t pos).

Lemma touched_refl k t : touched k t t.
Proof. by split. Qed.

Lemma touched_trans k t1 t2 t3 : touched k t1 t2 → touched k t2 t3 → touched k t1 t3.
Proof.
  intros [M1 H1] [M2 H2]. split; [congruence|]. intros pos Ha. destruct (H2 pos Ha) as (Ha2 & E2 & S2).
  destruct (H1 pos Ha2) as (Ha1 & E1 & S1). split_and!; [done|congruence|]. intros Hne.
  rewrite S2; [by apply S1|]. unfold ikey in *. by rewrite E1.
Qed.

Lemma touched_alter k t pos f :
  table_shape t → ikey (At t pos) = k → alive (At t pos) = true → entry (f (At t pos)) = entry (At t pos) →
  touched k t (alterAt t pos f).
Proof.
  intros Hs Hk Ha He. split; [apply mask_alterAt|]. intros p Hp. rewrite At_alterAt in Hp |- * by done.
  case_decide as E1; [|done]. assert (At t p = At t pos) as Heq by (rewrite <- (At_Wrap t p), <- E1, At_Wrap; done).
  rewrite Heq. split_and!; [done| |done]. done.
Qed.

(** A sweep of tombstones. *)
Lemma At_frees (l : list Z) : ∀ t pos,
  table_shape t → (∀ i, i ∈ l → Wrap t i ≠ Wrap t pos) → At (foldl (λ t i, alterAt t i MakeFree) t l) pos = At t pos.
Proof.
  induction l as [|i l IH]; intros t pos Hs Hl; [done|]. cbn [foldl]. rewrite IH.
  - rewrite At_alterAt by done. rewrite decide_False; [done|]. intros E. apply (Hl i); [left|]. done.
  - by apply shape_alterAt.
  - intros j Hj. unfold Wrap. rewrite mask_alterAt. apply Hl. by right.
Qed.

Lemma frees_mask (l : list Z) : ∀ t, mask (foldl (λ t i, alterAt t i MakeFree) t l) = mask t.
Proof. induction l as [|i l IH]; intros t; [done|]. cbn. rewrite IH. apply mask_alterAt. Qed.

Lemma noteDead_touched k sh : table_inv hash (items sh) → pInv (K := K) (V := V) (policy sh) → touched k (items sh) (items (noteDead sh)).
Proof.
  intros Hi Hp. pose proof (ti_shape _ _ Hi) as Hs. unfold noteDead. case_match; [|apply touched_refl].
  destruct (pSweep_laws (policy sh) (items sh) (λ t idx, alterAt t idx MakeFree)) as (l & p' & -> & _ & El & _); [done|done|..].
  { intros t i Ht. split; [by apply shape_alterAt|]. intros j. unfold isDead. rewrite !dead_test.
    rewrite At_alterAt by done. case_decide; [|done]. by rewrite MakeFree_fields. }
  cbn [items]. split; [apply frees_mask|]. intros pos Ha.
  destruct (decide (Exists (λ i, Wrap (items sh) i = Wrap (items sh) pos) (Idx <$> l))) as [(i & Hin & Hw)%Exists_exists|Hno].
  - exfalso. apply list_elem_of_fmap in Hin as (n & -> & Hn). rewrite El in Hn. apply list_elem_of_filter in Hn as [Hd _].
    unfold isDead in Hd. rewrite dead_test in Hd.
    assert (f_dead (decode (meta (At (items sh) pos))) = true) as Hd' by (by rewrite <- (At_Wrap _ pos), <- Hw, At_Wrap).
    assert (∀ (l : list Z) t, table_shape t → f_dead (decode (meta (At t pos))) = true →
      f_dead (decode (meta (At (foldl (λ t i, alterAt t i MakeFree) t l) pos))) = true) as Hstay.
    { clear. induction l as [|i l IH]; intros t Ht Hd; [done|]. cbn. apply IH; [by apply shape_alterAt|].
      rewrite At_alterAt by done. case_decide; [|done]. by rewrite MakeFree_fields. }
    specialize (Hstay (Idx <$> l) _ Hs Hd'). unfold alive in Ha. rewrite Hstay in Ha. by rewrite andb_false_r in Ha.
  - rewrite At_frees in Ha |- *; [done|done| |done|]; intros i Hi' Hw; apply Hno, Exists_exists; eauto.
Qed.

Lemma killAt_touched k sh i cause ds :
  shard_inv hash c sh → slotOf (items sh) k = Some i →
  touched k (items sh) (items (killAt c sh (hash k) i cause ds).1).
Proof.
  intros [Hwf _ _] Hslot. apply slotOf_Some_1 in Hslot as (Hr & Ha & Hk). pose proof Hwf as [Hi Hp _ _ _ _ _].
  pose proof (ti_shape _ _ Hi) as Hs. destruct (kill_step hash (items sh) i Hi Hr Ha) as (Hi' & Hset & _). rewrite Hk in Hi', Hset.
  eapply touched_trans; [|unfold killAt; cbn [fst]; apply noteDead_touched; [exact Hi'|done]].
  cbn [items]. destruct Hset as (_ & Hmask & Hat). split; [done|]. intros pos. fold (killSlot (items sh) (hash k) i).
  rewrite Hat. case_decide; [|done]. unfold alive. by rewrite Kill_dead, andb_false_r.
Qed.

Lemma dropExpired_touched k sh idx :
  shard_inv hash c sh →
  ∃ sh' ds, dropExpired c sh (hash k) k idx = Some (sh', ds) ∧ touched k (items sh) (items sh').
Proof.
  intros Hinv. pose proof Hinv as [Hwf Hload _]. unfold dropExpired.
  rewrite (findSlot_spec hash) by (apply Hwf || by eapply wf_load).
  destruct (slotOf (items sh) k) as [i|] eqn:Hslot; [|eexists _, _; split; [done|apply touched_refl]].
  case_match; [|eexists _, _; split; [done|apply touched_refl]].
  destruct (killAt c sh (hash k) i CauseExpiration []) as [sh' ds] eqn:Ek. exists sh', ds. split; [done|].
  replace sh' with (killAt c sh (hash k) i CauseExpiration []).1 by by rewrite Ek. by apply killAt_touched.
Qed.

Lemma TouchAndRefresh_entry it m x : entry (TouchAndRefreshExpire it m x).1 = entry it.
Proof. unfold TouchAndRefreshExpire. by repeat case_match. Qed.

Lemma getHit_touched k sh pos m e :
  shard_inv hash c sh → ikey (At (items sh) pos) = k → alive (At (items sh) pos) = true →
  ∃ sh' ds r, getHit c sh (hash k) k pos m e = Some (sh', ds, r) ∧ touched k (items sh) (items sh').
Proof.
  intros Hinv Hk Ha. pose proof Hinv as [Hwf _ _]. pose proof (wf_shape _ _ _ _ Hwf) as Hs. unfold getHit. case_match.
  - assert (touched k (items sh) (alterAt (items sh) pos (λ item, TouchWith item m))) as H1.
    { apply touched_alter; try done. apply TouchWith_entry. }
    repeat case_match; (eexists _, _, _; split; [done|]); cbn [withItems items]; try done.
    apply touched_alter; try done. apply TouchAndRefresh_entry.
  - destruct (dropExpired_touched k sh (Wrap (items sh) pos) Hinv) as (sh' & ds & -> & Ht). by eexists _, _, _.
Qed.

Lemma getMemory_touched k sh sh' ds r :
  shard_inv hash c sh → getMemory hash c sh k = Some (sh', ds, r) → touched k (items sh) (items sh').
Proof.
  intros Hinv. pose proof Hinv as [Hwf Hload Hcap]. pose proof (wf_shape _ _ _ _ Hwf) as Hsh. unfold getMemory.
  match goal with |- context [probe _ ?body _ _] =>
    destruct (lookup_probe hash (items sh) k (Some (sh, [], None))
      (λ pos, getHit c sh (hash k) k pos (meta (At (items sh) pos)) (entry (At (items sh) pos))) body)
      as (r0 & Hr & Hs)
  end; [apply Hwf|by eapply wf_load| |].
  { intros pos. apply (snapshot_walk hash (items sh) pos k (sh, [], None)
      (λ pos e, getHit c sh (hash k) k pos (meta (At (items sh) pos)) e)). apply Hwf. }
  unfold homeOf in Hr. rewrite Hr. destruct (slotOf (items sh) k) as [i|] eqn:Hslot.
  - destruct Hs as (pos & _ & Hw & ->). apply slotOf_Some_1 in Hslot as (_ & Ha & Hk). rewrite <- Hw, At_Wrap in Ha, Hk by done.
    destruct (getHit_touched k sh pos (meta (At (items sh) pos)) (entry (At (items sh) pos)) Hinv Hk Ha) as (sh1 & ds1 & r1 & -> & Ht).
    by intros [= <- <- <-].
  - subst r0. intros [= <- <- <-]. apply touched_refl.
Qed.

(** ** The candidate walk *)

(** A walk that stops earlier than another. *)
Lemma probe_cut {A R} (b1 : unit → Z → unit + option A) (b2 : unit → Z → unit + R) (absent : R) :
  (∀ pos, match b1 tt pos with
    | inr None => b2 tt pos = inr absent
    | inl _ => b2 tt pos = inl tt
    | inr (Some _) => True
    end) →
  ∀ fuel pos r, probe fuel b2 tt pos = Some r →
  ∃ r1, probe fuel b1 tt pos = Some r1 ∧
    match r1 with None => r = absent | Some x => ∃ pos', b1 tt pos' = inr (Some x) end.
Proof.
  intros Hb. induction fuel as [|fuel IH]; intros pos r Hr; [done|]. cbn [probe] in *. specialize (Hb pos).
  destruct (b1 tt pos) as [[]|[x|]] eqn:E1.
  - rewrite Hb in Hr. by apply IH.
  - exists (Some x). split; [done|]. by exists pos.
  - rewrite Hb in Hr. injection Hr as <-. by exists None.
Qed.

Lemma candidate_spec t k :
  table_inv hash t → occ t * 4 < tLen t * 3 →
  ∃ r, candidate t (hash k) = Some r ∧
    match r with
    | None => slotOf t k = None
    | Some (pos, m) => m = meta (At t pos) ∧ alive (At t pos) = true
    end.
Proof.
  intros Hi Hl. destruct (lookup_probe hash t k None (λ pos, Some pos) (λ _ pos, walk_body hash t k None (λ pos, Some pos) pos) Hi Hl)
    as (r & Hr & Hs); [done|].
  unfold candidate.
  destruct (probe_cut (λ (_ : unit) pos, let metaWord := Metadata (At t pos) in
       if (metaWord =? 0) || ((pos =? u32 (Z.lor (Home t (hash k)) 7 + 1)) && negb (Overflowed t (Home t (hash k)))) then inr None
       else if Z.land metaWord DeadOrTag =? TagOf (hash k) then inr (Some (pos, metaWord))
       else inl tt) (λ _ pos, walk_body hash t k None (λ pos, Some pos) pos) None) with (2 := Hr) as (r1 & Hr1 & Hm).
  - intros pos. unfold walk_body, homeOf, Metadata. cbv zeta.
    destruct (meta (At t pos) =? 0) eqn:E0; cbn [orb]; [by destruct (_ && _)|].
    destruct (_ && _); [done|]. by destruct (Z.land _ _ =? _).
  - exists r1. split; [exact Hr1|]. destruct r1 as [[pos m]|].
    + destruct Hm as [pos' Hp]. cbv zeta in Hp. destruct (Z.eqb_spec (Metadata (At t pos')) 0) as [|Hz]; [done|]. cbn [orb] in Hp.
      destruct (_ && _); [done|]. destruct (Z.land _ _ =? _) eqn:Et; [|done]. injection Hp as <- <-. split; [done|].
      rewrite candidate_test in Et. apply andb_true_iff in Et as [Hd _]. unfold alive, occupied, Metadata in *.
      rewrite (proj2 (Z.eqb_neq _ _) Hz). done.
    + subst r. destruct (slotOf t k); [|done]. by destruct Hs as (pos & _ & _ & ?).
Qed.

(** A snapshot against an older word still shows a live item. *)
Lemma snapshot_alive it m0 :
  alive (mkItem m0 (entry it)) = true → gen_ok m0 → (SnapshotInto it m0).2 = true → alive it = true.
Proof.
  intros Ha Hg. cbn [SnapshotInto snd]. intros [Hx _]%andb_true_iff. apply Z.eqb_eq in Hx.
  assert (∀ i, 0 ≤ i → Z.testbit AliveGenMask i = true → Z.testbit (meta it) i = Z.testbit m0 i) as Hb.
  { intros i Hi Hm. apply (f_equal (λ z, Z.testbit z i)) in Hx. rewrite Z.land_spec, Z.lxor_spec, Hm, Z.testbit_0_l, andb_true_r in Hx.
    by destruct (Z.testbit (meta it) i), (Z.testbit m0 i). }
  unfold alive, occupied in *. cbn [meta] in Ha. apply andb_true_iff in Ha as [Ho Hd]. apply andb_true_iff. split.
  - apply negb_true_iff, Z.eqb_neq. intros Hz. apply negb_true_iff, Z.eqb_neq in Ho.
    destruct (gen_ok_good _ Hg Ho) as [Hgen _]. apply Hgen. cbn [decode f_gen].
    apply Z.bits_inj'. intros i Hi. rewrite Z.land_spec, Z.testbit_0_l. destruct (Z.testbit (Z.ones 28) i) eqn:E1; [|by rewrite andb_false_r].
    rewrite andb_true_r, <- Hb, Hz; [apply Z.testbit_0_l|done|]. unfold AliveGenMask. rewrite Z.lor_spec.
    change GenMask with (Z.ones 28). by rewrite E1, orb_true_r.
  - cbn [decode f_dead] in *. by rewrite Hb.
Qed.

(** A touch with an older word. *)
Lemma TouchWith_any it m :
  is_u64 (meta it) → gen_good (meta it) →
  same_slot it (TouchWith it m) ∧ f_expire (decode (meta (TouchWith it m))) = f_expire (decode (meta it)).
Proof.
  intros H64 Hg. pose proof (TouchWith_u64 it m H64) as Hu. pose proof (TouchWith_entry it m) as He.
  assert (∃ b1 b2, decode (meta (TouchWith it m)) =
    let f := decode (meta it) in mkFields (f_dead f) b1 b2 (f_free f) (f_expire f) (f_tag f) (f_gen f)) as (b1 & b2 & Hf).
  { unfold TouchWith. repeat case_match; cbn [meta]; [rewrite or_second_fields|rewrite or_third_fields|];
      eexists _, _; first [reflexivity|apply Fields_eq; reflexivity]. }
  split; [|by rewrite Hf]. apply same_slot_live; rewrite ?Hf; try done.
  - unfold ikey. by rewrite He.
  - by eapply gen_good_same; [rewrite Hf|].
Qed.

(** ** The keys of a group *)

(** What a read answers, and what it leaves. *)
Definition ans (x : option (V * Z)) : option V :=
  match x with Some (v, e) => if expiredAt e (nowOff c) then None else Some v | None => None end.

Definition after (x : option (V * Z)) : option (V * Z) :=
  match x with Some (v, e) => if expiredAt e (nowOff c) then None else Some (v, hitExpire c e) | None => None end.

Record reads sh0 (dn : list K) sh : Prop := {
  rd_start : shard_inv hash c sh0;
  rd_inv : shard_inv hash c sh;
  rd_cap : cap sh = cap sh0;
  rd_mask : mask (items sh) = mask (items sh0);
  rd_slots pos : alive (At (items sh) pos) = true →
    entry (At (items sh) pos) = entry (At (items sh0) pos) ∧ alive (At (items sh0) pos) = true ∧
    (ikey (At (items sh0) pos) ∉ dn → At (items sh) pos = At (items sh0) pos);
  rd_content k : content (items sh) k = if decide (k ∈ dn) then after (content (items sh0) k) else content (items sh0) k
}.

Lemma reads_refl sh : shard_inv hash c sh → reads sh [] sh.
Proof. intros H. by split. Qed.

(** A key this shard does not hold. *)
Lemma reads_other sh0 dn sh k : reads sh0 dn sh → content (items sh0) k = None → reads sh0 (k :: dn) sh.
Proof.
  intros [Hi0 Hi Hc Hm Hs Hcon] Hk. split; [done..| |].
  - intros pos Ha. destruct (Hs pos Ha) as (E2 & Ha2 & S2). split_and!; [done|done|]. intros [_ Hno]%not_elem_of_cons. by apply S2.
  - intros k'. rewrite Hcon. destruct (decide (k' = k)) as [->|Hne]; [|repeat case_decide; set_solver].
    rewrite Hk. by repeat case_decide.
Qed.

Hypothesis Hnow : 0 ≤ nowOff c < 2 ^ 18.
(** A lifetime that was just refreshed is not over. *)
Hypothesis Hfresh : refreshOnGet c = true → expiredAt (expireOffsetAt c (nowOff c)) (nowOff c) = false.

Lemma hitExpire_fresh e : expiredAt e (nowOff c) = false → expiredAt (hitExpire c e) (nowOff c) = false.
Proof. unfold hitExpire. destruct (refreshOnGet c); auto. Qed.

Lemma ans_after x : ans (after x) = ans x.
Proof. destruct x as [[v e]|]; [|done]. cbn. destruct (expiredAt e _) eqn:Ee; [done|]. cbn. by rewrite hitExpire_fresh. Qed.

Lemma after_after x : after (after x) = after x.
Proof.
  destruct x as [[v e]|]; [|done]. cbn. destruct (expiredAt e _) eqn:Ee; [done|]. cbn. rewrite hitExpire_fresh by done.
  unfold hitExpire. by destruct (refreshOnGet c).
Qed.

(** One more key was read. *)
Lemma reads_step sh0 dn sh sh' k :
  reads sh0 dn sh → shard_inv hash c sh' → cap sh' = cap sh → touched k (items sh) (items sh') →
  (∀ k', content (items sh') k' = if decide (k' = k) then after (content (items sh) k) else content (items sh) k') →
  reads sh0 (k :: dn) sh'.
Proof.
  intros [Hi0 Hi Hc Hm Hs Hcon] Hi' Hc' [Hm' Ht] Hcon'. split; [done|done|congruence|congruence|..].
  - intros pos Ha. destruct (Ht pos Ha) as (Ha1 & E1 & S1). destruct (Hs pos Ha1) as (E2 & Ha2 & S2).
    split_and!; [congruence|done|]. intros [Hne Hno]%not_elem_of_cons. rewrite S1; [by apply S2|]. unfold ikey in *. by rewrite E2.
  - intros k'. rewrite Hcon', !Hcon. destruct (decide (k' = k)) as [->|Hne].
    + rewrite (decide_True (P := k ∈ k :: dn)) by left. case_decide; [by rewrite after_after|done].
    + repeat case_decide; set_solver.
Qed.

Lemma reads_getMemory sh0 dn sh k :
  reads sh0 dn sh →
  ∃ sh' ds, getMemory hash c sh k = Some (sh', ds, ans (content (items sh0) k)) ∧ reads sh0 (k :: dn) sh'.
Proof.
  intros Hr. pose proof (rd_inv _ _ _ Hr) as Hinv. pose proof (getMemory_spec hash c sh k Hinv Hnow) as Hg.
  assert (ans (content (items sh) k) = ans (content (items sh0) k)) as Hans.
  { rewrite (rd_content _ _ _ Hr). case_decide; [apply ans_after|done]. }
  rewrite <- Hans. destruct (content (items sh) k) as [[v e]|] eqn:Ek.
  - destruct Hg as (sh' & E & Hinv' & Hc & Hcon). eexists sh', _. split; [exact E|].
    eapply reads_step; [done|done|done|by eapply getMemory_touched|]. intros k'. rewrite Hcon, Ek. done.
  - exists sh, []. split; [done|]. eapply reads_step; [done|done|done|apply touched_refl|].
    intros k'. rewrite Ek. cbn. by case_decide; [subst|].
Qed.

Lemma same_shard {A B C} {x : option (A * B * C)} {a a' b b' d d'} : x = Some (a, b, d) → x = Some (a', b', d') → a = a'.
Proof. congruence. Qed.

(** A hit found through the word of an earlier walk. *)
Lemma reads_stale_hit sh0 dn sh k pos m0 :
  reads sh0 dn sh → m0 = meta (At (items sh0) pos) → alive (At (items sh) pos) = true → ikey (At (items sh) pos) = k →
  ∃ sh' ds, getHit c sh (hash k) k pos m0 (entry (At (items sh) pos)) = Some (sh', ds, ans (content (items sh0) k)) ∧
    reads sh0 (k :: dn) sh'.
Proof.
  intros Hr Hm Ha Hk. pose proof Hr as [Hinv0 Hinv _ _ Hslots Hcon]. pose proof Hinv as [Hwf Hload _].
  pose proof (wf_shape _ _ _ _ Hwf) as Hs. pose proof (sw_table _ _ _ _ Hwf) as Hti.
  assert (slotOf (items sh) k = Some (Wrap (items sh) pos)) as Hslot.
  { apply (slotOf_Some hash); [done|by apply Wrap_range|by rewrite At_Wrap|by rewrite At_Wrap]. }
  set (it := At (items sh) pos) in *.
  assert (content (items sh) k = Some (ival it, f_expire (decode (meta it)))) as Hcur.
  { unfold content. rewrite Hslot. cbn. by rewrite At_Wrap. }
  destruct (getHit_touched k sh pos m0 (entry it) Hinv Hk Ha) as (sh1 & ds1 & r1 & E1 & Ht1).
  destruct (decide (meta it = m0)) as [Heq|Hne].
  - destruct (getHit_spec hash c sh k (Wrap (items sh) pos) pos Hinv Hnow Hslot eq_refl) as (sh' & E & Hinv' & Hc' & Hcon').
    rewrite At_Wrap in E, Hcon' by done. fold it in E, Hcon'. rewrite Heq in E.
    assert (sh1 = sh') as -> by exact (same_shard E1 E).
    assert (ans (content (items sh0) k) = ans (content (items sh) k)) as ->.
    { rewrite Hcon. case_decide; [by rewrite ans_after|done]. }
    eexists sh', _. split; [rewrite Hcur; unfold ans; rewrite Heq; exact E|].
    apply (reads_step _ _ sh); [exact Hr|exact Hinv'|exact Hc'|exact Ht1|]. intros k'. rewrite Hcon', Hcur. reflexivity.
  - (* the slot was served before in this group *)
    destruct (Hslots pos Ha) as (Hent & Ha0 & Hsame). fold it in Hent, Hsame.
    assert (k ∈ dn) as Hdn.
    { destruct (decide (k ∈ dn)) as [|Hno]; [done|]. exfalso. apply Hne. rewrite Hm, Hsame; [done|].
      unfold ikey in *. by rewrite <- Hent, Hk. }
    pose proof (Hcon k) as Hk1. rewrite decide_True, Hcur in Hk1 by done.
    destruct (content (items sh0) k) as [[v e]|] eqn:Ek0; [|done]. cbn in Hk1 |- *.
    destruct (expiredAt e (nowOff c)) eqn:Ee; [done|]. injection Hk1 as Hv Hx.
    assert (f_expire (decode m0) = e) as He0.
    { destruct Hinv0 as [Hwf0 _ _]. pose proof (wf_shape _ _ _ _ Hwf0) as Hs0.
      assert (slotOf (items sh0) k = Some (Wrap (items sh0) pos)) as Hslot0.
      { apply (slotOf_Some hash); [apply Hwf0|by apply Wrap_range|by rewrite At_Wrap|].
        rewrite At_Wrap by done. unfold ikey in *. by rewrite <- Hent. }
      unfold content in Ek0. rewrite Hslot0 in Ek0. cbn in Ek0. rewrite At_Wrap in Ek0 by done. rewrite Hm. by injection Ek0. }
    destruct (ti_meta _ _ Hti pos) as (H64 & Hg & _). fold it in H64, Hg. pose proof (gen_ok_good _ Hg (alive_nonzero _ Ha)) as Hg'.
    destruct (TouchWith_any it m0 H64 Hg') as [Hss Hex].
    assert (getHit c sh (hash k) k pos m0 (entry it) =
      Some (withItems sh (alterAt (items sh) pos (λ item, TouchWith item m0)), [], Some (Value (entry it)))) as Eg.
    { unfold getHit. fold it. assert (Expired m0 (nowOff c) = false) as -> by (rewrite <- Ee, <- He0; exact (Expired_fields _ _ Hnow)). cbn [negb]. destruct (refreshOnGet c); [|done].
      replace ((TouchAndRefreshExpire it m0 (expireOffsetAt c (nowOff c))).2) with false; [by rewrite andb_false_r|].
      unfold TouchAndRefreshExpire. by rewrite (proj2 (Z.eqb_neq _ _) Hne). }
    rewrite (same_shard E1 Eg) in Ht1. eexists _, _. split; [rewrite Eg, <- Hv; reflexivity|].
    destruct (touch_spec hash c sh pos (λ item, TouchWith item m0) (hitExpire c e) Hinv) as [Hinv' Hcon'];
      [exact Ha|exact Hss|apply TouchWith_entry|exact (eq_trans Hex Hx)|].
    apply (reads_step _ _ sh); [exact Hr|exact Hinv'|done|exact Ht1|]. intros k'. rewrite Hcon'. fold it. rewrite Hk, Hcur. cbn.
    rewrite Hx, hitExpire_fresh by done. case_decide; [|done]. unfold hitExpire. by destruct (refreshOnGet c).
Qed.

Lemma validate_spec sh0 dn sh k found :
  reads sh0 dn sh → candidate (items sh0) (hash k) = Some found →
  ∃ sh' ds, validate hash c sh k found = Some (sh', ds, ans (content (items sh0) k)) ∧ reads sh0 (k :: dn) sh'.
Proof.
  intros Hr Hf. pose proof (rd_start _ _ _ Hr) as Hinv0. pose proof Hinv0 as [Hwf0 Hl0 _]. pose proof (sw_table _ _ _ _ Hwf0) as Hti0.
  destruct (candidate_spec (items sh0) k Hti0 (wf_load _ _ _ _ Hwf0 Hl0)) as (r & Hr0 & Hfound). rewrite Hf in Hr0. injection Hr0 as <-.
  destruct found as [[pos m0]|]; cbn [validate].
  - destruct Hfound as [Hm Ha0]. destruct (SnapshotInto (At (items sh) pos) m0) as [x ok] eqn:Es.
    destruct (negb ok || negb (bool_decide (Key x = k))) eqn:Eb; [by apply reads_getMemory|].
    apply orb_false_iff in Eb as [->%negb_false_iff Hk%negb_false_iff%bool_decide_eq_true].
    assert (x = entry (At (items sh) pos)) as -> by (by injection Es as <- _).
    apply reads_stale_hit; [done|done| |done]. destruct (ti_meta _ _ Hti0 pos) as (_ & Hg & _).
    apply (snapshot_alive _ m0); rewrite ?Es; [by rewrite Hm|by rewrite Hm|done].
  - assert (content (items sh0) k = None) as Hk by (unfold content; by rewrite Hfound). rewrite Hk.
    exists sh, []. split; [done|by apply reads_other].
Qed.

End Shards.

(** ** The whole cache *)

Section Worlds.
Context {K V P L E : Type} `{!EqDecision K} `{!GoType K} `{!GoType V}.
Context `{!EvictionPolicy K V P} `{!PolicyLaws K V P} `{!L2Cache K V L E}.
Context (hash : K → Z) (c : Consts K V).
Abbreviation W := (World K V P L E).
Implicit Types (w : W) (k : K) (ks : list K).

(** The cache at the start of a group, and after some of its keys were served. *)
Record wreads w0 ks w : Prop := {
  wr_start : cache_inv hash c w0;
  wr_only : memonly w0 w;
  wr_shards i sh0 : wShards w0 !! i = Some sh0 → ∃ sh, wShards w !! i = Some sh ∧ reads hash (envOf c w0) sh0 ks sh
}.

Lemma envOf_only w w' : memonly w w' → envOf c w' = envOf c w.
Proof. intros H. unfold envOf. by rewrite (mo_now _ _ H). Qed.

Lemma wreads_refl w : cache_inv hash c w → wreads w [] w.
Proof. intros H. split; [done|done|]. intros i sh Hi. exists sh. split; [done|]. apply reads_refl. by apply (ci_shards _ _ _ H i). Qed.

Lemma memonly_lookup w w' i sh : memonly w w' → wShards w' !! i = Some sh → is_Some (wShards w !! i).
Proof.
  intros H Hi. assert ((cap <$> wShards w') !! i = Some (cap sh)) as Hc by by rewrite list_lookup_fmap, Hi.
  rewrite (mo_caps _ _ H), list_lookup_fmap in Hc. by destruct (wShards w !! i).
Qed.

Lemma wreads_mem w0 ks w k :
  wreads w0 ks w → mem hash c w k = if decide (k ∈ ks) then after (envOf c w0) (mem hash c w0 k) else mem hash c w0 k.
Proof.
  intros [Hinv Hmo Hsh]. unfold mem. destruct (shardIdx_lookup hash c w0 k Hinv) as [sh0 Hsh0]. rewrite Hsh0.
  destruct (Hsh _ _ Hsh0) as (sh & -> & Hr). cbn. apply (rd_content _ _ _ _ _ Hr).
Qed.

Lemma wreads_inv w0 ks w : wreads w0 ks w → cache_inv hash c w.
Proof.
  intros [Hinv Hmo Hsh]. pose proof Hinv as [Hlen Hmask Hall Hrt Hnow]. split; [|done|..].
  - rewrite <- Hlen, <- (length_fmap cap (wShards w)), (mo_caps _ _ Hmo). by rewrite length_fmap.
  - intros i sh Hi. destruct (memonly_lookup _ _ _ _ Hmo Hi) as [sh0 Hi0]. destruct (Hsh _ _ Hi0) as (sh' & Hi' & Hr).
    simplify_eq. rewrite (envOf_only w0) by done. split; [apply Hr|]. rewrite (rd_cap _ _ _ _ _ Hr). by apply (Hall i).
  - intros i sh k x Hi Hx. destruct (memonly_lookup _ _ _ _ Hmo Hi) as [sh0 Hi0]. destruct (Hsh _ _ Hi0) as (sh' & Hi' & Hr).
    simplify_eq. rewrite (rd_content _ _ _ _ _ Hr) in Hx. destruct (content (items sh0) k) as [y|] eqn:Ey; [by eapply Hrt|].
    by destruct (decide _).
  - by rewrite (mo_now _ _ Hmo).
Qed.

(** A lifetime that was just refreshed is not over, for the cache's time to live. *)
Definition fresh_ttl : Prop :=
  ∀ now, 0 ≤ now < 2 ^ 18 → kRefreshOnGet c = true →
    ∀ env : Env K V, ttlOff env = kTtlOff c → expiredAt (expireOffsetAt env now) now = false.

Hypothesis Hfresh : fresh_ttl.

Lemma fresh_env w : cache_inv hash c w →
  refreshOnGet (envOf c w) = true → expiredAt (expireOffsetAt (envOf c w) (nowOff (envOf c w))) (nowOff (envOf c w)) = false.
Proof. intros Hinv H. apply Hfresh; [apply Hinv|done|done]. Qed.

(** An operation on the key's shard that reads the key. *)
Lemma onShard_reads w0 ks w k f sh0 :
  wreads w0 ks w → wShards w0 !! shardIdx hash c k = Some sh0 →
  (∀ sh, reads hash (envOf c w0) sh0 ks sh → ∃ sh' ds, f (envOf c w0) sh = Some (sh', ds, ans (envOf c w0) (content (items sh0) k)) ∧
    reads hash (envOf c w0) sh0 (k :: ks) sh') →
  runs (onShard hash c k f) w (λ r w', r = ans (envOf c w0) (mem hash c w0 k) ∧ wreads w0 (k :: ks) w').
Proof.
  intros Hw Hsh0 Hf. pose proof Hw as [Hinv Hmo Hsh]. destruct (Hsh _ _ Hsh0) as (sh & Hi & Hr).
  destruct (Hf sh Hr) as (sh' & ds & Ef & Hr'). unfold runs, onShard. rewrite Hi, (envOf_only w0) by done. rewrite Ef.
  eexists _, _. split; [reflexivity|]. split; [unfold mem; by rewrite Hsh0|]. split; [done|..].
  - etrans; [exact Hmo|]. split; cbn; try done. rewrite list_fmap_insert, (rd_cap _ _ _ _ _ Hr'), <- (rd_cap _ _ _ _ _ Hr).
    apply list_insert_id. by rewrite list_lookup_fmap, Hi.
  - intros i sh1 Hi1. cbn [wShards logDeletions withShards]. destruct (decide (i = shardIdx hash c k)) as [->|Hne].
    + simplify_eq. exists sh'. split; [|done]. apply list_lookup_insert_eq. by eapply lookup_lt_Some.
    + destruct (Hsh _ _ Hi1) as (sh2 & Hi2 & Hr2). exists sh2. rewrite list_lookup_insert_ne by done. split; [done|].
      apply reads_other; [done|]. destruct (content (items sh1) k) eqn:Ek; [|done]. by rewrite (ci_routed _ _ _ Hinv _ _ _ _ Hi1 Ek) in Hne.
Qed.

Lemma single_reads w0 ks w k :
  wreads w0 ks w → runs (cGetMemory hash c k) w (λ r w', r = ans (envOf c w0) (mem hash c w0 k) ∧ wreads w0 (k :: ks) w').
Proof.
  intros Hw. pose proof (wr_start _ _ _ Hw) as Hinv. destruct (shardIdx_lookup hash c w0 k Hinv) as [sh0 Hsh0].
  apply (onShard_reads w0 ks w k _ sh0 Hw Hsh0). intros sh Hr. apply reads_getMemory; [apply Hinv|by apply fresh_env|done].
Qed.

(** A loop of reads, each of which serves its key. *)
Lemma collect_reads {A} w0 (key : A → K) (f : A → M W (option V)) (l : list A) : ∀ ks w,
  (∀ ks w x, x ∈ l → wreads w0 ks w → runs (f x) w (λ r w', r = ans (envOf c w0) (mem hash c w0 (key x)) ∧ wreads w0 (key x :: ks) w')) →
  wreads w0 ks w →
  runs (collectM l f) w (λ rs w', rs = (λ x, ans (envOf c w0) (mem hash c w0 (key x))) <$> l ∧ wreads w0 (reverse (key <$> l) ++ ks) w').
Proof.
  induction l as [|x l IH]; intros ks w Hf Hw; cbn [collectM]; [by apply runs_ret|].
  apply runs_bind. eapply runs_mono; [apply Hf; [left|done]|]. intros r w1 [-> H1].
  apply runs_bind. eapply runs_mono; [apply (IH (key x :: ks)); [|done]|].
  - intros ks' w' y Hy. apply Hf. by right.
  - intros rs w2 [-> H2]. apply runs_ret. split; [done|]. by rewrite fmap_cons, reverse_cons, <- app_assoc.
Qed.

Lemma stages_spec w keys :
  cache_inv hash c w → ∃ found, stages hash c w keys = Some found ∧ found.*1 = keys ∧
    ∀ k r, (k, r) ∈ found → ∃ sh, wShards w !! shardIdx hash c k = Some sh ∧ candidate (items sh) (hash k) = Some r.
Proof.
  intros Hinv. unfold stages. induction keys as [|k keys IH]; [by exists []; set_solver|].
  destruct (shardIdx_lookup hash c w k Hinv) as [sh Hsh]. destruct (ci_shards _ _ _ Hinv _ _ Hsh) as [[Hwf Hl _] _].
  destruct (candidate_spec hash (items sh) k (sw_table _ _ _ _ Hwf) (wf_load _ _ _ _ Hwf Hl)) as (r & Hr & _).
  destruct IH as (found & Ef & Hk & Hin). exists ((k, r) :: found). cbn [mapM]. rewrite Hsh. cbn. rewrite Hr. cbn.
  rewrite Ef. cbn. split_and!; [done|by rewrite Hk|]. intros k' r' [[= -> ->]|Hx]%elem_of_cons; [by exists sh|by apply Hin].
Qed.

Lemma group_reads w keys :
  cache_inv hash c w →
  runs (batchGetGroup hash c keys) w (λ rs w', rs = (λ k, ans (envOf c w) (mem hash c w k)) <$> keys ∧ wreads w (reverse keys) w').
Proof.
  intros Hinv. unfold batchGetGroup. apply runs_bind, runs_get. destruct (stages_spec w keys Hinv) as (found & -> & Hk & Hin).
  eapply runs_mono; [apply (collect_reads w fst _ found [] w); [|by apply wreads_refl]|].
  - intros ks w1 [k r] Hx H1. destruct (Hin k r Hx) as (sh0 & Hsh0 & Hc). cbn [fst].
    apply (onShard_reads w ks w1 k _ sh0 H1 Hsh0). intros sh Hr. apply validate_spec; [apply Hinv|by apply fresh_env|done|done].
  - intros rs w1 [-> H1]. rewrite app_nil_r, Hk in H1. split; [|done]. rewrite <- Hk. by rewrite <- list_fmap_compose.
Qed.

End Worlds.
