(* ===== verification/BatchTheorems.v ===== *)
(** * A batch of reads answers what single reads answer

    The groups of a batch one after the other, and the theorem for the public memory-only read. *)

From S2P Require Import Prelude Item Queue Table TableInv Policy ClockPolicy Shard Lookup ShardInv SetMemory GetMemory ShardSpec ShardTheorems Config Stats CacheState CacheLaws WriteBack WriteBackSteps CacheOps WriteThrough Batch.

Section Batches.
Context {K V P L E : Type} `{!EqDecision K} `{!GoType K} `{!GoType V}.
Context `{!EvictionPolicy K V P} `{!PolicyLaws K V P} `{!L2Cache K V L E}.
Context (hash : K → Z) (c : Consts K V).
Abbreviation W := (World K V P L E).
Implicit Types (w : W) (k : K) (ks keys : list K).

Lemma fresh_ttl_bound : (kRefreshOnGet c = true → 0 ≤ kTtlOff c ≤ ExpireMax - 2) → fresh_ttl c.
Proof.
  intros Ht now Hnow Hr env Henv. specialize (Ht Hr). unfold expireOffsetAt, expiredAt. unfold ExpireMax in *. change (Z.shiftl 1 17 - 1) with 131071 in *.
  rewrite Henv. change ExpireWrapMask with (2 ^ 18 - 1). rewrite land_mod_pow2 by lia.
  unfold u32. rewrite !(Z.mod_small _ (2 ^ 32)) by (rewrite ?(Z.mod_small _ (2 ^ 32)); lia).
  set (x := (now + kTtlOff c + 1) mod 2 ^ 18).
  assert ((x - now) mod 2 ^ 18 = kTtlOff c + 1) as Hx.
  { unfold x. rewrite Zminus_mod_idemp_l. replace (now + kTtlOff c + 1 - now) with (kTtlOff c + 1) by lia. apply Z.mod_small. lia. }
  destruct (Z.eqb_spec x 0) as [E0|E0].
  - assert ((1 - now) mod 2 ^ 18 = kTtlOff c + 2) as H1.
    { rewrite E0 in Hx. Z.div_mod_to_equations. lia. }
    change (1 =? 0) with false. cbn [negb andb]. cbv zeta. rewrite H1. apply orb_false_iff. split; [apply Z.eqb_neq|apply Z.ltb_ge]; lia.
  - rewrite (proj2 (Z.eqb_neq x 0) E0). cbn [negb andb]. cbv zeta. rewrite Hx. apply orb_false_iff. split; [apply Z.eqb_neq|apply Z.ltb_ge]; lia.
Qed.

Hypothesis Hfresh : fresh_ttl c.

(** What a batch of reads answers, and the contents it leaves. *)
Definition answers w keys : list (option V) := (λ k, ans (envOf c w) (mem hash c w k)) <$> keys.

Record served w keys w' : Prop := {
  sv_inv : cache_inv hash c w';
  sv_only : memonly w w';
  sv_mem k : mem hash c w' k = if decide (k ∈ keys) then after (envOf c w) (mem hash c w k) else mem hash c w k
}.

Lemma wreads_served w ks keys w' : wreads hash c w ks w' → (∀ k, k ∈ ks ↔ k ∈ keys) → served w keys w'.
Proof.
  intros Hw Hks. split; [by eapply wreads_inv|apply Hw|]. intros k. rewrite (wreads_mem _ _ _ _ _ k Hw).
  by repeat case_decide; try done; exfalso; set_solver.
Qed.

Lemma served_answers w keys w' ks : cache_inv hash c w → served w keys w' → answers w' ks = answers w ks.
Proof.
  intros Hinv Hs. apply list_fmap_ext. intros i k _. rewrite (envOf_only _ w w') by apply Hs. rewrite (sv_mem _ _ _ Hs).
  case_decide; [|done]. apply ans_after. by apply (fresh_env hash).
Qed.

Lemma served_app w ks1 w1 ks2 w2 : cache_inv hash c w → served w ks1 w1 → served w1 ks2 w2 → served w (ks1 ++ ks2) w2.
Proof.
  intros Hinv H1 H2. split; [apply H2|etrans; [apply H1|apply H2]|]. intros k. rewrite (sv_mem _ _ _ H2), (sv_mem _ _ _ H1).
  rewrite (envOf_only _ w w1) by apply H1.
  destruct (decide (k ∈ ks2)), (decide (k ∈ ks1)), (decide (k ∈ ks1 ++ ks2)); try done; try (exfalso; set_solver).
  apply after_after. by apply (fresh_env hash).
Qed.

Lemma singles_spec w keys :
  cache_inv hash c w → runs (collectM keys (cGetMemory hash c)) w (λ rs w', rs = answers w keys ∧ served w keys w').
Proof.
  intros Hinv. eapply runs_mono; [apply (collect_reads hash c w (λ k, k) _ keys [] w); [|by apply wreads_refl]|].
  - intros ks w' k _ Hw. by apply single_reads.
  - intros rs w' [-> Hw]. split; [done|]. eapply wreads_served; [done|]. rewrite list_fmap_id. set_solver.
Qed.

Lemma group_spec w keys :
  cache_inv hash c w → runs (batchGetGroup hash c keys) w (λ rs w', rs = answers w keys ∧ served w keys w').
Proof.
  intros Hinv. eapply runs_mono; [by apply (group_reads hash c Hfresh w keys)|]. intros rs w' [-> Hw]. split; [done|].
  eapply wreads_served; [done|]. set_solver.
Qed.

Lemma groupLoop_spec fuel : ∀ w keys,
  cache_inv hash c w → (length keys ≤ fuel)%nat →
  runs (groupLoop hash c fuel keys) w (λ rs w', rs = answers w keys ∧ served w keys w').
Proof.
  induction fuel as [|fuel IH]; intros w keys Hinv Hl; destruct keys as [|k keys]; cbn [length] in Hl; try lia;
    try (apply runs_ret; split; [done|by split; [done|done|intros k; rewrite decide_False by set_solver]]).
  cbn [groupLoop]. set (all := k :: keys). apply runs_bind. eapply runs_mono; [by apply group_spec|]. intros rs w1 [-> H1].
  apply runs_bind. eapply runs_mono; [apply IH; [apply H1|]|].
  - rewrite length_drop. unfold all, batchGroupSize. cbn [length]. lia.
  - intros rs w2 [-> H2]. apply runs_ret. rewrite (served_answers w _ w1) by done. unfold answers. rewrite <- fmap_app, take_drop.
    split; [done|]. rewrite <- (take_drop batchGroupSize all). by eapply served_app.
Qed.

Lemma batchGetAnswers_spec w keys :
  cache_inv hash c w → runs (batchGetAnswers hash c keys) w (λ rs w', rs = answers w keys ∧ served w keys w').
Proof. intros Hinv. unfold batchGetAnswers. case_match; [by apply singles_spec|by apply groupLoop_spec]. Qed.

End Batches.

Section Equivalence.
Context {K V P L E : Type} `{!EqDecision K} `{!GoType K} `{!GoType V}.
Context `{!EvictionPolicy K V P} `{!PolicyLaws K V P} `{!L2Cache K V L E}.
Context (hash : K → Z) (c : Consts K V).
Implicit Types (w : World K V P L E) (keys : list K).

(** C38: A batch of memory reads is its keys read one after the other: the pipelined
    [BatchGetFromMemoryWithMissing] returns, and so do single reads of the same keys in the same order;
    the pairs appended are the single reads' hits in order, the missing keys their misses in order,
    and both leave the same contents, with the cache invariant.  Repeated
    keys, keys that share a shard or a slot, and expired keys are included; nobody else writes meanwhile.  (With
    refresh on read, the time to live has to be two units short of the scale's half, so that a refreshed item is not
    expired at once.) *)
Theorem batch_get_is_single_gets w keys dst :
  cache_inv hash c w → (kRefreshOnGet c = true → 0 ≤ kTtlOff c ≤ ExpireMax - 2) →
  ∃ rs w1 w2,
    BatchGetFromMemoryWithMissing hash c keys dst w = Some ((dst ++ hitsOf keys rs, missesOf keys rs), w1) ∧
    collectM keys (cGetMemory hash c) w = Some (rs, w2) ∧
    rs = answers hash c w keys ∧
    (∀ k, mem hash c w1 k = mem hash c w2 k) ∧ cache_inv hash c w1 ∧ cache_inv hash c w2.
Proof.
  intros Hinv Ht. pose proof (fresh_ttl_bound c Ht) as Hfresh.
  destruct (batchGetAnswers_spec hash c Hfresh w keys Hinv) as (rs & w1 & E1 & -> & H1).
  destruct (singles_spec hash c Hfresh w keys Hinv) as (rs & w2 & E2 & -> & H2).
  exists (answers hash c w keys). eexists _, w2. split_and!; [|exact E2|done|..].
  - unfold BatchGetFromMemoryWithMissing, batchGetMemory, mbind, M_bind. rewrite E1. reflexivity.
  - intros k. rewrite (sv_mem _ _ _ _ _ H2). apply (sv_mem _ _ _ _ _ H1).
  - eapply cache_inv_same; [..|apply H1]; done.
  - apply H2.
Qed.
End Equivalence.

(** ** An instance: two shards, a key without a lifetime, keys whose lifetime is over *)

Definition bConsts : Consts Z Z := mkConsts None 1 true 3 1 3 true false WriteDisabled BatchingFull 2 true.

Definition bNew : World Z Z ClockPolicy (list (Z * option (Z * Z))) Z :=
  mkWorld [newShard 64 8 NewClockPolicy; newShard 64 8 NewClockPolicy] 0 (newStats true) [] [] false [] [] [].

Definition bStores : list (Z * Z * Z) := [(2, 20, 0); (4, 40, 0); (11, 110, 4); (66, 660, 4); (7, 70, 12)].

Definition bWorld : World Z Z ClockPolicy (list (Z * option (Z * Z))) Z :=
  tick 10 0 (match forM bStores (λ '(k, v, x), cSetMemory hashZ bConsts k v x) bNew with Some (_, w) => w | None => bNew end).

Lemma bWorld_inv : cache_inv hashZ bConsts bWorld.
Proof.
  assert (cache_inv hashZ bConsts bNew) as H0.
  { apply new_cache; [done|exists 1; by split; [lia|]|by cbn; lia|].
    intros i sh Hi. exists 6, 8, NewClockPolicy. split_and!; try lia; [|apply empty_clock..].
    do 2 (destruct i as [|i]; [by injection Hi as <-|]). done. }
  assert (runs (forM bStores (λ '(k, v, x), cSetMemory hashZ bConsts k v x)) bNew (λ _ w, cache_inv hashZ bConsts w)) as (u & w & E1 & Hw).
  { apply (runs_forM _ _ (λ _ w, cache_inv hashZ bConsts w)); [done| |done].
    intros dn [[k v] x] rest w Hl Hw. eapply runs_mono; [apply cSetMemory_step; [done|]|by intros ? w' [? _]].
    assert ((k, v, x) ∈ bStores) as Hin by (rewrite Hl; set_solver). unfold bStores in Hin.
    repeat (apply elem_of_cons in Hin as [[= -> -> ->]|Hin]; [lia|]). by apply elem_of_nil in Hin. }
  unfold bWorld. rewrite E1. destruct Hw as [Hlen Hmask Hsh Hrt _]. split; [done|done| |done|cbn; lia].
  intros i sh Hi. destruct (Hsh i sh Hi) as [Hinv Hcap]. split; [|done]. by apply (inv_atTime hashZ (envOf bConsts w) 10).
Qed.

Lemma batch_get_is_single_gets_witness :
  ∃ w1, BatchGetFromMemoryWithMissing hashZ bConsts [2; 11; 2; 4; 99; 7; 11] [] bWorld =
    Some (([(2, 20); (2, 20); (4, 40); (7, 70)], [11; 99; 11]), w1) ∧ cache_inv hashZ bConsts w1.
Proof.
  destruct (batch_get_is_single_gets hashZ bConsts bWorld [2; 11; 2; 4; 99; 7; 11] []) as (rs & w1 & w2 & E1 & E2 & _ & _ & H1 & _).
  - apply bWorld_inv.
  - intros _. vm_compute. split; discriminate.
  - exists w1. split; [|exact H1]. rewrite E1. assert (rs = [Some 20; None; Some 20; Some 40; None; Some 70; None]) as ->; [|reflexivity].
    apply (f_equal (λ o, from_option fst [] o)) in E2. cbn [from_option fst] in E2. rewrite <- E2. vm_compute. reflexivity.
Defined.
