(* ===== verification/Loads.v ===== *)
(** * Loads with single flight (cache.go, batch.go, getandrefresh.go, loadable.go, singleflight.go)

    The state is the cache together with its flight registry.  A caller that finds a flight running for
    its key has to wait for another caller, so an operation that may wait is cut there: it answers
    [Waits] with the flight, and [readFlight] is the rest of it once the flight is over.  What the owner
    of a flight does between claiming and releasing it is one computation.  The loader may panic, in a batch load also
    the second level ([panics]); a panic is an answer, and runs what the code defers. *)

From S2P Require Import Prelude Item Table Policy Shard ShardSpec Expiry Config HashSet Stats CacheState WriteBack CacheLaws CacheOps WriteThrough Flight FlightTheorems Batch.

(** The flights of one batch: the keys it owns with their calls, and the flights it joined.  [bcalls] is
    [None] until the first claim. *)
Record batchFlights (K : Type) := mkBatchFlights {
  owned : list K; bcalls : option (list nat); joined : list (K * nat); copied : bool
}.
Arguments mkBatchFlights {K}.
Arguments owned {K}.
Arguments bcalls {K}.
Arguments joined {K}.
Arguments copied {K}.

(** How a call ended: it returned, it has to wait for a flight, or a panic went through. *)
Inductive outcome (A : Type) := Returned (a : A) | Waits (id : nat) | Panicked.
Arguments Returned {A}.
Arguments Waits {A}.
Arguments Panicked {A}.

(** What a loader that has no value did. *)
Inductive thrown (E : Type) := Fails (err : E) | Panics.
Arguments Fails {E}.
Arguments Panics {E}.

(** What a batch load asks the second level for. *)
Inductive l2Request (K V : Type) :=
| AskBatchGet (keys : list K) | AskBatchSet (items : list (K * V)) (ttl : Z) | AskSet (key : K) (value : V) (ttl : Z).
Arguments AskBatchGet {K V}.
Arguments AskBatchSet {K V}.
Arguments AskSet {K V}.

Definition ownedScanMax : nat := 32.

(** ** Handing results to flights *)

Section Assign.
Context {K V E : Type} `{!EqDecision K}.
Implicit Types (ks : list K) (key : K).

(** [ownedIndex]: filled from the last key to the first. *)
Definition ownedIndex ks : K → option nat :=
  foldl (λ index '(i, k), upd index k (Some i)) (λ _, None) (reverse (imap (λ i k, (i, k)) ks)).

(** [indexOf]: [None] is the answer -1. *)
Definition indexOf ks key (index : option (K → option nat)) : option nat :=
  match index with
  | Some index => index key
  | None => fst <$> list_find (λ k, k = key) ks
  end.

(** One turn of the loop of [assignLoaded]: the call the item goes to, and the index, which is built
    when it is first needed. *)
Definition assignTo ks (index : option (K → option nat)) (i : nat) key : option nat * option (K → option nat) :=
  if decide (ks !! i = Some key) then (Some i, index)
  else
    let index := if bool_decide (index = None) && (ownedScanMax <? length ks)%nat then Some (ownedIndex ks) else index in
    (indexOf ks key index, index).

Implicit Types (st : Flights K V E) (calls : list nat).

Fixpoint assignLoop ks calls (index : option (K → option nat)) (i : nat) (loaded : list (K * V))
    (found : option (list (K * V))) st : option (list (K * V)) * Flights K V E :=
  match loaded with
  | [] => (found, st)
  | (key, value) :: loaded =>
    match assignTo ks index i key with
    | (None, index) => assignLoop ks calls index (S i) loaded found st
    | (Some j, index) =>
      let st := match calls !! j with
        | Some id => onCall id (setResult value true None) st
        | None => st
        end in
      assignLoop ks calls index (S i) loaded ((λ l, l ++ [(key, value)]) <$> found) st
    end
  end.

(** The calls nothing was loaded for carry [err]. *)
Definition assignRest calls (err : option (Error E)) st : Flights K V E :=
  foldl (λ st id, onCall id (λ x, if fok x then x else setResult (fval x) false err x) st) st calls.

(** [found] is [None] for a nil pointer. *)
Definition assignLoaded ks calls (loaded : list (K * V)) (err : option (Error E)) (found : option (list (K * V))) st
    : option (list (K * V)) * Flights K V E :=
  let '(found, st) := assignLoop ks calls None 0 loaded found st in (found, assignRest calls err st).

Definition releaseAll calls st : option (Flights K V E) :=
  foldl (λ o id, match o with Some st => release id st | None => None end) (Some st) calls.
End Assign.

Section Loads.
Context {K V P L E : Type} `{!EqDecision K} `{!GoType K} `{!GoType V}.
Context `{!EvictionPolicy K V P} `{!L2Cache K V L E}.
(** [hash] is the cache's, [hashSet] that of the key set of a batch load; [panics l q]: the second level panics when asked [q], and leaves
    this store. *)
Context (hash hashSet : K → Z) (c : Consts K V) (panics : L → l2Request K V → option L).
Abbreviation W := (World K V P L E).
Abbreviation S_ := (W * Flights K V E)%type.
Implicit Types (key : K) (value : V).

Definition cache {A} (m : M W A) : M S_ A := λ '(w, f),
  match m w with Some (a, w) => Some (a, (w, f)) | None => None end.

Definition flights {A} (g : Flights K V E → option (A * Flights K V E)) : M S_ A := λ '(w, f),
  match g f with Some (a, f) => Some (a, (w, f)) | None => None end.

Definition onFlights (g : Flights K V E → Flights K V E) : M S_ () := flights (λ f, Some ((), g f)).

(** A new call and its claim. *)
Definition startFlight key (err : option (Error E)) : M S_ (nat * bool) :=
  flights (λ f,
    let '(id, f) := alloc (newCall go_zero go_zero err) f in
    match claim (kShardMask c) (hash key) key id f with Some (winner, running, f) => Some ((winner, running), f) | None => None end).

Definition endFlight id : M S_ () := flights (λ f, match release id f with Some f => Some ((), f) | None => None end).

(** What a waiter reads when the flight is over; [None] while it is not. *)
Definition readFlight (f : Flights K V E) id : option (V * bool * option (Error E)) :=
  match heap f !! id with Some x => if fover x then Some (fval x, fok x, ferr x) else None | None => None end.

(** ** Single keys *)

(** A loader returns a value, or an error, or panics.  A panic leaves [doLoad] at the loader call and
    runs the deferred release. *)
Definition ownLoad key id (load : K → thrown E + V) : M S_ (thrown E + V) :=
  onFlights (onCall id (setResult go_zero false (Some ErrLoaderPanic))) ≫= λ _,
  r ← cache (doLoad hash c key load);
  onFlights (onCall id (match r with
    | inr value => setResult value true None
    | inl (Fails err) => setResult go_zero false (Some (External err))
    | inl Panics => λ x, x
    end)) ≫= λ _,
  endFlight id ≫= λ _, mret r.

(** [load] is [None] for a nil function. *)
Definition GetOrLoad key (load : option (K → thrown E + V)) : M S_ (outcome (Error E + V)) :=
  match load with
  | None => mret (Returned (inl ErrNilLoader))
  | Some load =>
    r ← cache (cGetMemory hash c key);
    match r with
    | Some value => cache (stat addMemHits 1) ≫= λ _, mret (Returned (inr value))
    | None =>
      '(winner, running) ← startFlight key None;
      if running : bool then cache (stat addMemMisses 1) ≫= λ _, mret (Waits winner)
      else r ← ownLoad key winner load;
           mret match r with
           | inr value => Returned (inr value)
           | inl (Fails err) => Returned (inl (External err))
           | inl Panics => Panicked
           end
    end
  end.

(** What the loader threw stays on the flight. *)
Definition recoverLoader id : M S_ () := onFlights (onCall id (λ x, setResult (fval x) (fok x) (Some ErrLoaderPanic) x)).

(** The goroutine of [GetAndRefresh]. *)
Definition loadInto key id (load : K → thrown E + V) : M S_ () :=
  match load key with
  | inl (Fails err) => onFlights (onCall id (λ x, setResult (fval x) (fok x) (Some (External err)) x))
  | inl Panics => recoverLoader id
  | inr value =>
    cache (storeLoaded hash c key value) ≫= λ _, onFlights (onCall id (setResult value true None))
  end ≫= λ _, endFlight id.

(** [GetAndRefresh]: the value memory has, and the flight a background load was started for. *)
Definition GetAndRefresh key (load : option (K → thrown E + V)) : M S_ (option V * option nat) :=
  r ← cache (cPeekMemory hash c key);
  cache (match r with Some _ => stat addMemHits 1 | None => stat addMemMisses 1 end) ≫= λ _,
  w ← cache get;
  match load with
  | Some _ =>
    if wStopped w then mret (r, None)
    else
      '(winner, running) ← startFlight key (Some ErrLoaderPanic);
      mret (r, if running : bool then None else Some winner)
  | None => mret (r, None)
  end.

(** ** Batches *)

(** [batchFlights.claim] of [keys[i]]: while every key so far is owned, [owned] is a prefix of the
    batch. *)
Definition flClaim (keys : list K) (i : nat) key (fl : batchFlights K) : M S_ (batchFlights K) :=
  let calls := default [] (bcalls fl) in
  '(winner, running) ← startFlight key (Some ErrLoaderPanic);
  mret
    (if running : bool then mkBatchFlights (owned fl) (Some calls) (joined fl ++ [(key, winner)]) (copied fl)
     else
       let calls := Some (calls ++ [winner]) in
       if negb (copied fl) && (length (owned fl) =? i)%nat
       then mkBatchFlights (take (S i) keys) calls (joined fl) false
       else mkBatchFlights (owned fl ++ [key]) calls (joined fl) true).

Definition noFlights : batchFlights K := mkBatchFlights [] None [] false.

(** The loop over one part of a batch: the hits are collected, every miss claims its flight. *)
Fixpoint claimMisses (keys : list K) (i : nat) (part : list (K * option V)) (dst : list (K * V)) (fl : batchFlights K)
    : M S_ (list (K * V) * batchFlights K) :=
  match part with
  | [] => mret (dst, fl)
  | (key, Some value) :: part => claimMisses keys (S i) part (dst ++ [(key, value)]) fl
  | (key, None) :: part => fl ← flClaim keys i key fl; claimMisses keys (S i) part dst fl
  end.

Fixpoint smallFlights (keys : list K) (i : nat) (rest : list K) (dst : list (K * V)) (fl : batchFlights K)
    : M S_ (list (K * V) * batchFlights K) :=
  match rest with
  | [] => mret (dst, fl)
  | key :: rest =>
    r ← cache (cGetMemory hash c key);
    '(dst, fl) ← claimMisses keys i [(key, r)] dst fl;
    smallFlights keys (S i) rest dst fl
  end.

(** One turn per group, so the number of keys bounds it. *)
Fixpoint groupFlights (fuel : nat) (keys : list K) (start : nat) (dst : list (K * V)) (fl : batchFlights K)
    : M S_ (list (K * V) * batchFlights K) :=
  if (length keys <=? start)%nat then mret (dst, fl)
  else
    match fuel with
    | O => λ _, None
    | S fuel =>
      let part := take batchGroupSize (drop start keys) in
      rs ← cache (batchGetGroup hash c part);
      '(dst, fl) ← claimMisses keys start (zip part rs) dst fl;
      groupFlights fuel keys (start + batchGroupSize) dst fl
    end.

(** The hits are the length of the list. *)
Definition batchGetMemoryFlights (keys : list K) : M S_ (list (K * V) * batchFlights K) :=
  if (length keys <=? smallBatch)%nat then smallFlights keys 0 keys [] noFlights
  else groupFlights (length keys) keys 0 [] noFlights.

(** A call of the second level that may panic: [None]. *)
Definition tryL2 {A} (q : l2Request K V) (f : L → L * A) : M W (option A) := λ w,
  match panics (wL2 w) q with
  | Some l => Some (None, withL2 w l)
  | None => (r ← callL2 f; mret (Some r)) w
  end.

(** The synchronous path of [enqueueWriteBack]. *)
Definition trySet key value (ttl : Z) : M W (option ()) :=
  r ← tryL2 (AskSet key value ttl) (λ l, l2Set l key value ttl);
  match r with
  | None => mret None
  | Some err => reportL2Err c key err ≫= λ _, mret (Some ())
  end.

(** [enqueueWriteBack]. *)
Definition tryEnqueue key value (ttl : Z) : M W (option ()) :=
  w ← get;
  if wStopped w then trySet key value ttl
  else
    let i := writeQueueOf hash (length (wQueues w)) key in
    let queue := default [] (wQueues w !! i) in
    if (length queue <? kQueueCap c)%nat
    then modify (λ w, withQueues w (<[i := queue ++ [mkWrite key value ttl None false]]> (wQueues w))) ≫= λ _, mret (Some ())
    else trySet key value ttl.

(** A loop that a panic leaves. *)
Fixpoint tryAll {A} (l : list A) (g : A → M W (option ())) : M W (option ()) :=
  match l with
  | [] => mret (Some ())
  | a :: l => r ← g a; match r with None => mret None | Some _ => tryAll l g end
  end.

(** One expiration offset for the whole batch. *)
Definition storeLoadedBatch (loaded : list (K * V)) : M W (option ()) :=
  match loaded with
  | [] => mret (Some ())
  | _ =>
    off ← cExpireOffset c;
    forM loaded (λ item, cSetMemory hash c item.1 item.2 off) ≫= λ _,
    stat addSets (Z.of_nat (length loaded)) ≫= λ _,
    match kWritePolicy c with
    | WriteDisabled => mret (Some ())
    | WriteThrough =>
      r ← tryL2 (AskBatchSet loaded (kTtl c)) (λ l, l2BatchSet l loaded (kTtl c));
      match r with
      | None => mret None
      | Some None => mret (Some ())
      | Some err => forM loaded (λ item, reportL2Err c item.1 err) ≫= λ _, mret (Some ())
      end
    | WriteBack => tryAll loaded (λ item, tryEnqueue item.1 item.2 (kTtl c))
    end
  end.

(** A batch loader: a panic, or pairs and an error beside them. *)
Abbreviation BatchLoader := (list K → option (list (K * V) * option E)).

Definition runLoader (keys : list K) (load : BatchLoader) : M W (option (list (K * V) * option E)) :=
  match load keys with
  | None => mret None
  | Some (loaded, err) =>
    r ← match loaded with [] => mret (Some ()) | _ => storeLoadedBatch loaded end;
    mret match r with None => None | Some _ => Some (loaded, err) end
  end.

Definition batchResolvedSlots : nat := 256.

(** The keys L2 answered for, in a hash set over a buffer of the stack. *)
Definition keysFromL2 (fromL2 : list (K * V)) : option (HSet K) :=
  addAll hashSet (NewSetFrom (replicate batchResolvedSlots zeroSlot)) fromL2.*1.

Fixpoint notIn (s : HSet K) (keys : list K) : option (list K) :=
  match keys with
  | [] => Some []
  | key :: keys =>
    match Exists_ hashSet s key, notIn s keys with
    | Some found, Some rest => Some (if found : bool then rest else key :: rest)
    | _, _ => None
    end
  end.

(** A set operation inside a computation. *)
Definition lift {A} (o : option A) : M W A := λ w, match o with Some a => Some (a, w) | None => None end.

(** [None] is a panic, of the second level or of the loader. *)
Definition batchLoad (keys : list K) (load : BatchLoader) : M W (option (list (K * V) * option E)) :=
  if kHasL2 c then
    answer ← tryL2 (AskBatchGet keys) (λ l, l2BatchGet l keys);
    match answer with
    | None => mret None
    | Some (fromL2, err) =>
      forM keys (λ key, reportL2Err c key err) ≫= λ _,
      forM fromL2 (λ item, storeMemory hash c item.1 item.2) ≫= λ _,
      stat addL2Hits (Z.of_nat (length fromL2)) ≫= λ _,
      toLoad ← match fromL2 with
        | [] => mret keys
        | _ => s ← lift (keysFromL2 fromL2); lift (notIn s keys)
        end;
      match toLoad with
      | [] => mret (Some (fromL2, None))
      | _ =>
        stat addL2Misses (Z.of_nat (length toLoad)) ≫= λ _,
        r ← runLoader toLoad load;
        mret match r with Some (loaded, loadErr) => Some (fromL2 ++ loaded, loadErr) | None => None end
      end
    end
  else stat addMemMisses (Z.of_nat (length keys)) ≫= λ _, runLoader keys load.

(** [loadOwned]: [None] is a panic, which runs the deferred [releaseAll]. *)
Definition loadOwned (load : BatchLoader) (fl : batchFlights K) (found : list (K * V))
    : M S_ (option (list (K * V) * option E)) :=
  match owned fl with
  | [] => mret (Some (found, None))
  | _ =>
    let calls := default [] (bcalls fl) in
    r ← cache (batchLoad (owned fl) load);
    match r with
    | None => flights (λ f, match releaseAll calls f with Some f => Some (None, f) | None => None end)
    | Some (resolved, err) =>
      flights (λ f,
        let '(found, f) := assignLoaded (owned fl) calls resolved (External <$> err) (Some found) f in
        match releaseAll calls f with Some f => Some (Some (default [] found, err), f) | None => None end)
    end
  end.

(** [BatchGetOrLoad] up to its waits: what it has, its error, and the flights it has yet to wait for. *)
Definition BatchGetOrLoad (keys : list K) (load : option BatchLoader)
    : M S_ (outcome (list (K * V) * option (Error E) * list (K * nat))) :=
  match load with
  | None => mret (Returned ([], Some ErrNilLoader, []))
  | Some load =>
    '(found, fl) ← batchGetMemoryFlights keys;
    cache (stat addMemHits (Z.of_nat (length found))) ≫= λ _,
    match bcalls fl with
    | None => mret (Returned (found, None, []))
    | Some _ =>
      r ← loadOwned load fl found;
      match r with
      | None => mret Panicked
      | Some (found, err) =>
        cache (stat addMemMisses (Z.of_nat (length (joined fl)))) ≫= λ _,
        mret (Returned (found, External <$> err, joined fl))
      end
    end
  end.

(** The waits of [BatchGetOrLoad].  [ctxDone i] is the context's error if it ended during the i-th wait;
    [None] is a flight that is not over yet. *)
Fixpoint joinResults (f : Flights K V E) (ctxDone : nat → option (Error E)) (i : nat) (joined : list (K * nat))
    (found : list (K * V)) (loadErr : option (Error E)) : option (list (K * V) * option (Error E)) :=
  match joined with
  | [] => Some (found, loadErr)
  | (key, id) :: joined =>
    match ctxDone i with
    | Some err => Some (found, Some err)
    | None =>
      match readFlight f id with
      | None => None
      | Some (value, ok, err) =>
        if bool_decide (err = None) && ok then joinResults f ctxDone (S i) joined (found ++ [(key, value)]) loadErr
        else joinResults f ctxDone (S i) joined found (match loadErr with None => err | Some _ => loadErr end)
      end
    end
  end.

(** Every flight of the batch that was not resolved carries the panic. *)
Definition recoverLoaderBatch (calls : list nat) : M S_ () := onFlights (assignRest calls (Some ErrLoaderPanic)).

(** The goroutine of [BatchGetAndRefresh]. *)
Definition loadBatchInto (keys : list K) (load : BatchLoader) : M S_ () :=
  '(_, fl) ← claimMisses keys 0 ((λ key, (key, None)) <$> keys) [] noFlights;
  match owned fl with
  | [] => mret ()
  | _ =>
    let calls := default [] (bcalls fl) in
    match load (owned fl) with
    | None => recoverLoaderBatch calls
    | Some (loaded, err) =>
      r ← cache (storeLoadedBatch loaded);
      match r with
      | None => recoverLoaderBatch calls
      | Some _ => onFlights (λ f, (assignLoaded (owned fl) calls loaded (External <$> err) None f).2)
      end
    end ≫= λ _,
    flights (λ f, match releaseAll calls f with Some f => Some ((), f) | None => None end)
  end.

(** [BatchGetAndRefresh]: what memory has, and whether a background load was started. *)
Definition BatchGetAndRefresh (keys : list K) (load : option BatchLoader) : M S_ (list (K * V) * bool) :=
  rs ← cache (collectM keys (cPeekMemory hash c));
  let found := hitsOf keys rs in
  cache (stat addMemHits (Z.of_nat (length found))) ≫= λ _,
  cache (stat addMemMisses (Z.of_nat (length keys) - Z.of_nat (length found))) ≫= λ _,
  w ← cache get;
  mret (found, match load, keys with Some _, _ :: _ => negb (wStopped w) | _, _ => false end).

End Loads.

(** ** The cache with a fixed loader (loadable.go) *)

Section Loadable.
Context {K V E : Type}.

(** The two loaders of a [LoadableCache]. *)
Record LoadableCache := mkLoadable {
  lload : K → thrown E + V;
  lbatchLoad : list K → option (list (K * V) * option E)
}.

(** The batch loader [NewLoadable] makes of a single-key one. *)
Fixpoint eachLoad (load : K → thrown E + V) (loaded : list (K * V)) (missing : list K) : option (list (K * V) * option E) :=
  match missing with
  | [] => Some (loaded, None)
  | key :: missing =>
    match load key with
    | inl Panics => None
    | inl (Fails err) => Some (loaded, Some err)
    | inr value => eachLoad load (loaded ++ [(key, value)]) missing
    end
  end.

(** The single-key loader [NewBatchLoadable] makes of a batch one. *)
Definition oneLoad `{!GoType V} (batchLoad : list K → option (list (K * V) * option E)) (key : K) : thrown E + V :=
  match batchLoad [key] with
  | None => inl Panics
  | Some (_, Some err) => inl (Fails err)
  | Some ((_, value) :: _, None) => inr value
  | Some ([], None) => inr go_zero
  end.

(** [None] as an argument is a nil loader; [Err] is the constructor's error type. *)
Definition NewLoadable {Err C} (errNilLoader : Err) (load : option (K → thrown E + V)) (new : Err + C) : Err + (C * LoadableCache) :=
  match load with
  | None => inl errNilLoader
  | Some load => match new with inl err => inl err | inr c => inr (c, mkLoadable load (eachLoad load [])) end
  end.

Definition NewBatchLoadable `{!GoType V} {Err C} (errNilLoader : Err)
    (batchLoad : option (list K → option (list (K * V) * option E))) (new : Err + C) : Err + (C * LoadableCache) :=
  match batchLoad with
  | None => inl errNilLoader
  | Some batchLoad => match new with inl err => inl err | inr c => inr (c, mkLoadable (oneLoad batchLoad) batchLoad) end
  end.
End Loadable.

(** Its methods call the cache's with the constructor's loader. *)
Section LoadableMethods.
Context {K V P L E : Type} `{!EqDecision K} `{!GoType K} `{!GoType V}.
Context `{!EvictionPolicy K V P} `{!L2Cache K V L E}.
Context (hash hashSet : K → Z) (c : Consts K V) (panics : L → l2Request K V → option L).
Context (lc : LoadableCache (K := K) (V := V) (E := E)).
Abbreviation S_ := (World K V P L E * Flights K V E)%type.

Definition lcGetOrLoad (key : K) : M S_ (outcome (Error E + V)) := GetOrLoad hash c key (Some (lload lc)).
Definition lcGetAndRefresh (key : K) : M S_ (option V * option nat) := GetAndRefresh hash c key (Some (lload lc)).
Definition lcBatchGetOrLoad (keys : list K) : M S_ (outcome (list (K * V) * option (Error E) * list (K * nat))) :=
  BatchGetOrLoad hash hashSet c panics keys (Some (lbatchLoad lc)).
Definition lcBatchGetAndRefresh (keys : list K) : M S_ (list (K * V) * bool) := BatchGetAndRefresh hash c keys (Some (lbatchLoad lc)).
End LoadableMethods.

(** ** The flights of a batch load

    [batch_inv] relates the registry before a batch claimed its misses to the registry after: the keys the
    batch owns are registered to its own calls, in step, and whatever it joined is running.  What a loader
    answers reaches those calls, whoever joined them is released, and the registry is as before. *)

(** ** Handing out results *)

Section Index.
Context {K : Type} `{!EqDecision K}.
Implicit Types (ks : list K) (k : K).

(** The position of a key. *)
Definition posOf ks k : option nat := fst <$> list_find (λ k', k' = k) ks.

Lemma posOf_cons k0 ks k : posOf (k0 :: ks) k = if decide (k0 = k) then Some 0%nat else S <$> posOf ks k.
Proof.
  unfold posOf. cbn [list_find]. destruct (decide (k0 = k)); [done|].
  by destruct (list_find (λ k', k' = k) ks) as [[i x]|].
Qed.

Lemma posOf_lookup ks k j : posOf ks k = Some j → ks !! j = Some k.
Proof.
  unfold posOf. destruct (list_find _ ks) as [[i x]|] eqn:Ef; [|done]. intros [= <-]. cbn.
  by apply list_find_Some in Ef as (Hl & -> & _).
Qed.

Lemma posOf_None ks k : posOf ks k = None → k ∉ ks.
Proof.
  unfold posOf. destruct (list_find _ ks) as [[i x]|] eqn:Ef; [done|]. intros _. apply list_find_None in Ef.
  intros Hin. by rewrite Forall_forall in Ef; apply (Ef k Hin).
Qed.

(** The index of a batch is the scan: built from the last key to the first, the first occurrence wins. *)
Lemma ownedIndex_spec ks k : ownedIndex ks k = posOf ks k.
Proof.
  assert (∀ (l : list (nat * K)) f0, foldl (λ index '(i, k), upd index k (Some i)) f0 (reverse l) =
    foldr (λ '(i, k) index, upd index k (Some i)) f0 l) as Hrev.
  { induction l as [|[i x] l IH]; intros f0; [done|]. by rewrite reverse_cons, foldl_app, IH. }
  unfold ownedIndex. rewrite Hrev.
  assert (∀ n, foldr (λ '(i, k) index, upd index k (Some i)) (λ _, None) (imap (λ i k, ((n + i)%nat, k)) ks) k =
    Nat.add n <$> posOf ks k) as Hall.
  { induction ks as [|k0 ks IH]; intros n; [done|]. cbn [imap foldr]. rewrite posOf_cons. unfold upd at 1.
    destruct (decide (k0 = k)) as [->|Hne]; [rewrite decide_True by done; cbn; f_equal; lia|].
    rewrite decide_False by congruence.
    erewrite imap_ext; [rewrite (IH (S n))|intros i x _; cbn; f_equal; lia].
    destruct (posOf ks k); [|done]. cbn. f_equal. lia. }
  specialize (Hall 0%nat). cbn in Hall. rewrite Hall. by destruct (posOf ks k).
Qed.
End Index.

Section Assign.
Context {K V E : Type} `{!EqDecision K}.
Context (hash : K → Z) (shardMask : Z).
Implicit Types (f : Flights K V E) (k : K) (v : V) (id : nat) (ids : list nat) (dn : list (K * V)).

(** Only results of the calls [ids] were written. *)
Record results_only ids f f' : Prop := {
  ro_rep R : fl_rep hash shardMask f R → fl_rep hash shardMask f' R;
  ro_len : length (heap f') = length (heap f);
  ro_call id x : heap f !! id = Some x → ∃ x', heap f' !! id = Some x' ∧
    fkey x' = fkey x ∧ fjoined x' = fjoined x ∧ fover x' = fover x ∧ (id ∉ ids → x' = x)
}.

#[global] Instance results_only_refl ids : Reflexive (results_only ids).
Proof. intros f. split; [done|done|]. intros id x Hx. by exists x. Qed.

#[global] Instance results_only_trans ids : Transitive (results_only ids).
Proof.
  intros f1 f2 f3 [R1 L1 C1] [R2 L2 C2]. split; [auto|congruence|]. intros id x Hx.
  destruct (C1 id x Hx) as (x1 & Hx1 & ? & ? & ? & S1). destruct (C2 id x1 Hx1) as (x2 & Hx2 & ? & ? & ? & S2).
  exists x2. split_and!; [done|congruence..|]. intros Hn. rewrite S2 by done. auto.
Qed.

Lemma onCall_results ids id f (g : flightCall K V E → flightCall K V E) :
  id ∈ ids → (∀ x, fkey (g x) = fkey x ∧ fat (g x) = fat x ∧ fjoined (g x) = fjoined x ∧ fover (g x) = fover x) →
  results_only ids f (onCall id g f).
Proof.
  intros Hin Hg. split.
  - intros R. apply fl_rep_onCall. intros x. by destruct (Hg x) as (? & ? & _).
  - apply length_alter.
  - intros id' x Hx. cbn [heap onCall]. destruct (decide (id' = id)) as [->|Hne].
    + rewrite list_lookup_alter_eq, Hx. exists (g x). destruct (Hg x) as (? & _ & ? & ?). by split_and!.
    + rewrite list_lookup_alter_ne by done. by exists x.
Qed.

(** The last value a list has for a key, and what a flight of the key carries then. *)
Definition lastFor dn k : option V := foldl (λ o kv, if decide (kv.1 = k) then Some kv.2 else o) None dn.

Lemma lastFor_snoc dn kv k : lastFor (dn ++ [kv]) k = if decide (kv.1 = k) then Some kv.2 else lastFor dn k.
Proof. unfold lastFor. by rewrite foldl_app. Qed.

Lemma lastFor_in dn k v : lastFor dn k = Some v → (k, v) ∈ dn.
Proof.
  induction dn as [|[k' v'] dn IH] using rev_ind; [done|]. rewrite lastFor_snoc, elem_of_app. cbn.
  case_decide; [|naive_solver]. intros [= ->]. subst. set_solver.
Qed.

Definition result (base : V * bool * option (Error E)) dn k : V * bool * option (Error E) :=
  match lastFor dn k with Some v => (v, true, None) | None => base end.

Context (ks : list K) (ids : list nat).
Hypothesis Hks : NoDup ks.
Hypothesis Hids : NoDup ids.
Hypothesis Hlen : length ks = length ids.

(** What the owned calls carry; the base is the key's alone. *)
Definition carry f (base : K → V * bool * option (Error E)) dn : Prop :=
  ∀ j k id, ks !! j = Some k → ids !! j = Some id →
    ∃ x, heap f !! id = Some x ∧ (fval x, fok x, ferr x) = result (base k) dn k.

Definition index_ok (index : option (K → option nat)) : Prop := ∀ g, index = Some g → ∀ k, g k = posOf ks k.

Lemma assignTo_spec index i k :
  index_ok index → ∃ index', assignTo ks index i k = (posOf ks k, index') ∧ index_ok index'.
Proof.
  intros Hi. unfold assignTo. case_decide as Ek.
  - exists index. split; [|done]. f_equal. destruct (posOf ks k) as [j|] eqn:Ep.
    + f_equal. eapply NoDup_lookup; [exact Hks|done|by apply posOf_lookup].
    + exfalso. by apply posOf_None in Ep; apply Ep, list_elem_of_lookup_2 with i.
  - set (index' := if _ && _ then _ else _). exists index'.
    assert (index_ok index') as Hi' by (unfold index'; case_match; [intros g [= <-] k'; apply ownedIndex_spec|done]).
    split; [|done]. f_equal. unfold indexOf. destruct index' as [g|]; [by apply Hi'|done].
Qed.

Lemma assignLoop_spec loaded : ∀ index i found f base dn,
  index_ok index → carry f base dn →
  ∃ f', assignLoop ks ids index i loaded found f = ((λ l, l ++ filter (λ kv, kv.1 ∈ ks) loaded) <$> found, f') ∧
    results_only ids f f' ∧ carry f' base (dn ++ loaded).
Proof.
  induction loaded as [|[k v] loaded IH]; intros index i found f base dn Hi Hc; cbn [assignLoop].
  - exists f. rewrite app_nil_r. split_and!; [|done|done]. destruct found; [|done]. cbn. by rewrite app_nil_r.
  - destruct (assignTo_spec index i k Hi) as (index' & -> & Hi'). destruct (posOf ks k) as [j|] eqn:Ep.
    + pose proof (posOf_lookup _ _ _ Ep) as Hj. destruct (lookup_lt_is_Some_2 ids j) as [id Hid].
      { rewrite <- Hlen. by eapply lookup_lt_Some. }
      rewrite Hid. destruct (IH index' (S i) ((λ l, l ++ [(k, v)]) <$> found) (onCall id (setResult v true None) f) base (dn ++ [(k, v)]))
        as (f' & -> & Hro & Hc'); [done| |].
      { intros j' k' id' Hk' Hid'. destruct (Hc j' k' id' Hk' Hid') as (x & Hx & Hr). cbn [heap onCall].
        unfold result. rewrite lastFor_snoc. cbn [fst snd]. destruct (decide (k = k')) as [->|Hne].
        - assert (j' = j) as -> by (eapply NoDup_lookup; [exact Hks|done|done]). assert (id' = id) as -> by congruence.
          exists (setResult v true None x). by rewrite list_lookup_alter_eq, Hx.
        - exists x. split; [|done]. rewrite list_lookup_alter_ne; [done|]. intros ->. apply Hne.
          assert (j = j') as -> by (eapply NoDup_lookup; [exact Hids|done|done]). congruence. }
      exists f'. rewrite <- app_assoc in Hc'. split_and!; [|etrans; [|exact Hro]; apply onCall_results; [by eapply list_elem_of_lookup_2|done]|done].
      f_equal. destruct found; [|done]. cbn [fmap option_fmap option_map]. rewrite filter_cons_True by (by eapply list_elem_of_lookup_2). by rewrite <- app_assoc.
    + destruct (IH index' (S i) found f base (dn ++ [(k, v)])) as (f' & -> & Hro & Hc'); [done| |].
      { intros j' k' id' Hk' Hid'. destruct (Hc j' k' id' Hk' Hid') as (x & Hx & Hr). exists x. split; [done|].
        unfold result. rewrite lastFor_snoc. cbn [fst snd]. rewrite decide_False; [done|]. intros ->.
        apply posOf_None in Ep. by apply Ep, list_elem_of_lookup_2 with j'. }
      exists f'. rewrite <- app_assoc in Hc'. split_and!; [|done|done]. f_equal. destruct found; [|done]. cbn [fmap option_fmap option_map].
      by rewrite filter_cons_False by (by apply posOf_None).
Qed.

(** The calls without a value take the error. *)
Lemma assignRest_spec err f base dn :
  (∀ k, (base k).1.2 = false) → carry f base dn →
  results_only ids f (assignRest ids err f) ∧ carry (assignRest ids err f) (λ k, ((base k).1.1, false, err)) dn.
Proof.
  intros Hb Hc. unfold assignRest.
  set (g := λ x : flightCall K V E, if fok x then x else setResult (fval x) false err x).
  assert (∀ l f0, (∀ id, id ∈ l → id ∈ ids) → NoDup l → results_only ids f0 (foldl (λ st id, onCall id g st) f0 l) ∧
    ∀ id, heap (foldl (λ st id, onCall id g st) f0 l) !! id = if decide (id ∈ l) then g <$> heap f0 !! id else heap f0 !! id) as Hall.
  { induction l as [|id0 l IHl]; intros f0 Hin Hnd; [split; [done|]; intros id; by rewrite decide_False by set_solver|].
    apply NoDup_cons in Hnd as [Hni Hnd]. cbn [foldl]. destruct (IHl (onCall id0 g f0)) as [Hro Hh]; [set_solver|done|]. split.
    - etrans; [|exact Hro]. apply onCall_results; [set_solver|]. intros x. unfold g. by destruct (fok x).
    - intros id. rewrite Hh. cbn [heap onCall]. destruct (decide (id = id0)) as [->|Hne].
      + rewrite decide_False, decide_True by set_solver. by rewrite list_lookup_alter_eq.
      + rewrite list_lookup_alter_ne by done. repeat case_decide; set_solver. }
  destruct (Hall ids f) as [Hro Hh]; [done|done|]. split; [done|]. intros j k id Hk Hid.
  destruct (Hc j k id Hk Hid) as (x & Hx & Hr). exists (g x). rewrite Hh, decide_True by (by eapply list_elem_of_lookup_2).
  rewrite Hx. split; [done|]. unfold result, g in *. destruct (lastFor dn k).
  - injection Hr as H1 H2 H3. rewrite H2. congruence.
  - specialize (Hb k). destruct (base k) as [[v0 b0] e0]. cbn in *. subst b0. injection Hr as H1 H2 H3. rewrite H2. cbn. congruence.
Qed.

Lemma assignLoaded_spec loaded err found f base :
  (∀ k, (base k).1.2 = false) → carry f base [] →
  ∃ f', assignLoaded ks ids loaded err found f = ((λ l, l ++ filter (λ kv, kv.1 ∈ ks) loaded) <$> found, f') ∧
    results_only ids f f' ∧ carry f' (λ k, ((base k).1.1, false, err)) loaded.
Proof.
  intros Hb Hc. unfold assignLoaded. destruct (assignLoop_spec loaded None 0 found f base []) as (f1 & -> & Hro & Hc1); [done|done|].
  destruct (assignRest_spec err f1 base loaded Hb Hc1) as [Hro2 Hc2]. exists (assignRest ids err f1). split_and!; [done|by etrans|done].
Qed.

End Assign.

(** ** Claiming and releasing *)

Section Updates.
Context {K A : Type} `{!EqDecision K}.
Implicit Types (R : K → option A) (l : list (K * A)).

Lemma updAll_snoc R l ka : updAll R (l ++ [ka]) = upd (updAll R l) ka.1 (Some ka.2).
Proof. unfold updAll. by rewrite foldl_app. Qed.

Lemma updAll_notin R l k : k ∉ l.*1 → updAll R l k = R k.
Proof.
  induction l as [|[k0 a0] l IH] using rev_ind; [done|]. rewrite fmap_app. intros [H1 H2]%not_elem_of_app.
  rewrite updAll_snoc. unfold upd. cbn [fst snd]. rewrite decide_False by set_solver. by apply IH.
Qed.

Lemma updAll_lookup R (ks : list K) (ids : list A) j k a :
  NoDup ks → length ks = length ids → ks !! j = Some k → ids !! j = Some a → updAll R (zip ks ids) k = Some a.
Proof.
  revert ids j. induction ks as [|k0 ks IH] using rev_ind; intros ids j Hnd Hlen Hk Ha; [done|].
  destruct ids as [|a0 ids _] using rev_ind; [rewrite length_app in Hlen; cbn in Hlen; lia|].
  rewrite !length_app in Hlen. cbn in Hlen. apply NoDup_app in Hnd as (Hnd & Hni & _). rewrite zip_with_app by lia. cbn.
  rewrite updAll_snoc. unfold upd. cbn [fst snd]. apply lookup_app_Some in Hk as [Hk|[Hge Hk]].
  - rewrite decide_False; [|intros ->; apply (Hni k0); [by eapply list_elem_of_lookup_2|by left]].
    pose proof (lookup_lt_Some _ _ _ Hk). rewrite lookup_app_l in Ha by lia. apply (IH ids j); [done|lia|done|done].
  - apply list_lookup_singleton_Some in Hk as [Hj <-]. rewrite decide_True by done.
    rewrite lookup_app_r in Ha by lia. apply list_lookup_singleton_Some in Ha as [_ <-]. done.
Qed.

Lemma updAll_drop R l k a k' : k ∉ l.*1 → R k = None → upd (updAll R ((k, a) :: l)) k None k' = updAll R l k'.
Proof.
  intros Hni HR. unfold upd at 1. case_decide as Ek.
  - subst. by rewrite updAll_notin.
  - cbn. change (foldl _ (upd R k (Some a)) l) with (updAll (upd R k (Some a)) l). clear HR Hni. revert k'  Ek.
    induction l as [|[k1 a1] l IH] using rev_ind; intros k' Ek; [cbn; unfold upd; by rewrite decide_False|].
    rewrite !updAll_snoc. unfold upd at 1 3. case_decide; [done|]. by apply IH.
Qed.
End Updates.

Section Claims.
Context {K V P L E : Type} `{!EqDecision K} `{!GoType K} `{!GoType V}.
Context `{!EvictionPolicy K V P} `{!L2Cache K V L E}.
Context (hash : K → Z) (c : Consts K V).
Abbreviation W := (World K V P L E).
Implicit Types (w : W) (f : Flights K V E) (k : K) (id : nat) (R : K → option nat).

Lemma rep_lt f R k id : fl_rep hash (kShardMask c) f R → R k = Some id → (id < length (heap f))%nat.
Proof.
  intros Hrep HR. destruct (fr_complete _ _ _ _ Hrep k id HR) as (_ & _ & Hk & _). apply lookup_lt_is_Some.
  by destruct (heap f !! id).
Qed.

Lemma startFlight_spec w f R key err :
  fl_rep hash (kShardMask c) f R →
  runs (startFlight hash c key err) (w, f) (λ r s, ∃ f', s = (w, f') ∧
    r = (default (length (heap f)) (R key), bool_decide (is_Some (R key))) ∧
    fl_rep hash (kShardMask c) f' (upd R key (Some (default (length (heap f)) (R key)))) ∧
    match R key with
    | Some wn => heap f' = alter setJoined wn (heap f ++ [newCall go_zero go_zero err])
    | None => ∃ at_, heap f' = alter (setAt key at_) (length (heap f)) (heap f ++ [newCall go_zero go_zero err])
    end).
Proof.
  intros Hrep. set (x := newCall (E := E) (go_zero : K) (go_zero : V) err).
  destruct (claim_spec hash (kShardMask c) (alloc x f).2 R key (length (heap f)) x) as (f' & E1 & Hrep' & Hh).
  - by apply fl_rep_alloc.
  - cbn. by rewrite lookup_app_r, Nat.sub_diag by lia.
  - intros k' HR. pose proof (rep_lt _ _ _ _ Hrep HR). lia.
  - eexists _, (w, f'). split; [|by exists f']. unfold startFlight, flights. cbn [alloc]. cbn [alloc snd] in E1. fold x. by rewrite E1.
Qed.

(** A call of this batch, before its loader answered. *)
Definition pending (x : flightCall K V E) : Prop :=
  fover x = false ∧ (fval x, fok x, ferr x) = (go_zero, false, Some ErrLoaderPanic).

Abbreviation callsOf fl := (default [] (bcalls fl)).
Definition reg R (fl : batchFlights K) : K → option nat := updAll R (zip (owned fl) (callsOf fl)).

Lemma upd_same R k o k' : R k = o → upd R k o k' = R k'.
Proof. intros <-. unfold upd. by case_decide; [subst|]. Qed.

Record batch_inv f0 R (keys : list K) (fl : batchFlights K) f : Prop := {
  bi_start : fl_rep hash (kShardMask c) f0 R;
  bi_rep : fl_rep hash (kShardMask c) f (reg R fl);
  bi_nodup : NoDup (owned fl);
  bi_len : length (owned fl) = length (callsOf fl);
  bi_free k : k ∈ owned fl → R k = None;
  bi_prefix : copied fl = false → owned fl = take (length (owned fl)) keys;
  bi_calls id : id ∈ callsOf fl → (length (heap f0) ≤ id)%nat ∧ ∃ x, heap f !! id = Some x ∧ pending x;
  bi_joined k id : (k, id) ∈ joined fl → reg R fl k = Some id ∧ ∃ x, heap f !! id = Some x ∧ fjoined x = true;
  bi_new id x : heap f !! id = Some x → (length (heap f0) ≤ id)%nat → fjoined x = true → id ∈ callsOf fl;
  bi_old id x0 : heap f0 !! id = Some x0 → heap f !! id = Some x0 ∨ heap f !! id = Some (setJoined x0)
}.

Lemma batch_inv_start f0 R keys : fl_rep hash (kShardMask c) f0 R → batch_inv f0 R keys noFlights f0.
Proof.
  intros Hrep. split; cbn; try done; try (by apply NoDup_nil_2); try set_solver. intros id x Hx Hge.
  apply lookup_lt_Some in Hx. lia.
Qed.

Lemma old_len f0 R keys fl f : batch_inv f0 R keys fl f → (length (heap f0) ≤ length (heap f))%nat.
Proof.
  intros H. destruct (decide (length (heap f0) = 0)%nat); [lia|].
  destruct (lookup_lt_is_Some_2 (heap f0) (length (heap f0) - 1)) as [x Hx]; [lia|].
  destruct (bi_old _ _ _ _ _ H _ _ Hx) as [Hl|Hl]; apply lookup_lt_Some in Hl; lia.
Qed.

(** A claim that joins a running flight. *)
Lemma batch_inv_join f0 R keys fl f f' key wn :
  batch_inv f0 R keys fl f → reg R fl key = Some wn →
  fl_rep hash (kShardMask c) f' (upd (reg R fl) key (Some wn)) →
  heap f' = alter setJoined wn (heap f ++ [newCall go_zero go_zero (Some ErrLoaderPanic)]) →
  batch_inv f0 R keys (mkBatchFlights (owned fl) (Some (callsOf fl)) (joined fl ++ [(key, wn)]) (copied fl)) f'.
Proof.
  intros Hb Ek Hrep' Hh. pose proof Hb as [Hstart Hrep Hnd Hlen Hfree Hpre Hcalls Hjoin Hnew Hold]. pose proof (old_len _ _ _ _ _ Hb) as Hlen0.
  set (x0 := newCall _ _ _) in Hh. assert (wn < length (heap f))%nat as Hwn by by eapply rep_lt.
  assert (∀ id x, heap f !! id = Some x → heap f' !! id = Some (if decide (id = wn) then setJoined x else x)) as Hkeep.
  { intros id x Hx. rewrite Hh. case_decide as Ei; [subst; rewrite list_lookup_alter_eq|rewrite list_lookup_alter_ne by done];
      by rewrite (lookup_app_l_Some _ _ _ _ Hx). }
  split; cbn [owned bcalls joined copied default from_option]; unfold Datatypes.id; try done.
  - eapply fl_rep_ext; [|exact Hrep']. intros k. symmetry. by apply upd_same.
  - intros id Hin. destruct (Hcalls id Hin) as (Hge & x & Hx & Hp). split; [done|]. rewrite (Hkeep _ _ Hx). eexists. split; [done|].
    by case_decide.
  - intros k id [Hin|[[= -> ->]|[]%elem_of_nil]%elem_of_cons]%elem_of_app.
    + destruct (Hjoin k id Hin) as (HR & x & Hx & Hj). split; [done|]. rewrite (Hkeep _ _ Hx). eexists. split; [done|]. by case_decide.
    + split; [done|]. destruct (lookup_lt_is_Some_2 _ _ Hwn) as [x Hx]. rewrite (Hkeep _ _ Hx), decide_True by done. by eexists.
  - intros id x Hx Hge Hj. destruct (decide (id < length (heap f))%nat) as [Hlt|Hnlt].
    + destruct (lookup_lt_is_Some_2 _ _ Hlt) as [y Hy]. rewrite (Hkeep _ _ Hy) in Hx. injection Hx as <-.
      case_decide as Ei; [|by eapply Hnew]. subst id. (* the flight is one of the batch's own *)
      destruct (decide (key ∈ owned fl)) as [Hin|Hni].
      * apply list_elem_of_lookup in Hin as [j Hj']. destruct (lookup_lt_is_Some_2 (callsOf fl) j) as [id Hid].
        { rewrite <- Hlen. by eapply lookup_lt_Some. }
        unfold reg in Ek. rewrite (updAll_lookup _ _ _ j key id) in Ek by done. injection Ek as <-. by eapply list_elem_of_lookup_2.
      * exfalso. unfold reg in Ek. rewrite updAll_notin in Ek; [|rewrite fst_zip by lia; done].
        destruct (fr_complete _ _ _ _ Hstart key wn Ek) as (_ & _ & Hk & _).
        destruct (heap f0 !! wn) eqn:E0; [|done]. apply lookup_lt_Some in E0. lia.
    + rewrite Hh in Hx. rewrite list_lookup_alter_ne in Hx by lia. apply lookup_app_Some in Hx as [Hx|[_ Hx]].
      * apply lookup_lt_Some in Hx. lia.
      * apply list_lookup_singleton_Some in Hx as [_ <-]. done.
  - intros id y Hy. destruct (Hold id y Hy) as [Hx|Hx]; rewrite (Hkeep _ _ Hx); case_decide; auto.
Qed.

(** A claim that starts a flight. *)
Lemma batch_inv_own f0 R keys fl f f' key at_ cp :
  batch_inv f0 R keys fl f → reg R fl key = None → (cp = false → owned fl ++ [key] = take (S (length (owned fl))) keys) →
  fl_rep hash (kShardMask c) f' (upd (reg R fl) key (Some (length (heap f)))) →
  heap f' = alter (setAt key at_) (length (heap f)) (heap f ++ [newCall go_zero go_zero (Some ErrLoaderPanic)]) →
  batch_inv f0 R keys (mkBatchFlights (owned fl ++ [key]) (Some (callsOf fl ++ [length (heap f)])) (joined fl) cp) f'.
Proof.
  intros Hb Ek Hcp Hrep' Hh. pose proof Hb as [Hstart Hrep Hnd Hlen Hfree Hpre Hcalls Hjoin Hnew Hold].
  pose proof (old_len _ _ _ _ _ Hb) as Hlen0. set (n := length (heap f)) in *.
  assert (∀ id x, heap f !! id = Some x → heap f' !! id = Some x) as Hkeep.
  { intros id x Hx. pose proof (lookup_lt_Some _ _ _ Hx). rewrite Hh, list_lookup_alter_ne by lia. by apply lookup_app_l_Some. }
  assert (heap f' !! n = Some (setAt key at_ (newCall go_zero go_zero (Some ErrLoaderPanic)))) as Hn.
  { rewrite Hh, list_lookup_alter_eq, lookup_app_r, Nat.sub_diag by lia. done. }
  assert (key ∉ owned fl) as Hni.
  { intros Hin. apply list_elem_of_lookup in Hin as [j Hj]. destruct (lookup_lt_is_Some_2 (callsOf fl) j) as [id Hid].
    { rewrite <- Hlen. by eapply lookup_lt_Some. }
    unfold reg in Ek. by rewrite (updAll_lookup _ _ _ j key id) in Ek. }
  assert (∀ fl' : batchFlights K, owned fl' = owned fl ++ [key] → bcalls fl' = Some (callsOf fl ++ [n]) →
    ∀ k, reg R fl' k = upd (reg R fl) key (Some n) k) as Hreg.
  { intros fl' E1 E2 k. unfold reg. rewrite E1, E2. cbn [default from_option]. unfold Datatypes.id.
    rewrite zip_with_app by done. cbn. by rewrite updAll_snoc. }
  split; cbn [owned bcalls joined copied default from_option]; unfold Datatypes.id; try done.
  - eapply fl_rep_ext; [|exact Hrep']. by apply Hreg.
  - apply NoDup_app. split_and!; [done|set_solver|apply NoDup_singleton].
  - rewrite !length_app. rewrite Hlen. reflexivity.
  - intros k [Hin|Hin%list_elem_of_singleton]%elem_of_app; [by apply Hfree|]. subst k. unfold reg in Ek.
    rewrite updAll_notin in Ek; [done|]. rewrite fst_zip by lia. done.
  - intros Hc. rewrite length_app, Nat.add_1_r. by apply Hcp.
  - intros id [Hin|Hin%list_elem_of_singleton]%elem_of_app; [|subst id; split; [done|]; by eexists].
    destruct (Hcalls id Hin) as (Hge & x & Hx & Hp). split; [done|]. exists x. split; [by apply Hkeep|done].
  - intros k id Hin. destruct (Hjoin k id Hin) as (HR & x & Hx & Hj). split; [|exists x; split; [by apply Hkeep|done]].
    rewrite Hreg by done. unfold upd. rewrite decide_False; [done|]. intros ->. by rewrite Ek in HR.
  - intros id x Hx Hge Hj. apply elem_of_app. destruct (decide (id = n)) as [->|Hne]; [right; by apply list_elem_of_singleton|]. left.
    rewrite Hh, list_lookup_alter_ne in Hx by done. apply lookup_app_Some in Hx as [Hx|[Hge' Hx]]; [by eapply Hnew|].
    apply list_lookup_singleton_Some in Hx as [Hz _]. exfalso. unfold n in Hne. lia.
  - intros id y Hy. destruct (Hold id y Hy) as [Hx|Hx]; rewrite (Hkeep _ _ Hx); auto.
Qed.

(** What one more key adds to a batch's flights. *)
Definition extends (fl fl' : batchFlights K) (keys : list K) : Prop :=
  (∀ k, k ∈ owned fl ∨ k ∈ (joined fl).*1 ∨ k ∈ keys ↔ k ∈ owned fl' ∨ k ∈ (joined fl').*1) ∧
  (bcalls fl' = None → bcalls fl = None ∧ keys = []).

Lemma flClaim_spec w f0 R keys fl f i key :
  batch_inv f0 R keys fl f → keys !! i = Some key →
  runs (flClaim hash c keys i key fl) (w, f) (λ fl' s, ∃ f', s = (w, f') ∧ batch_inv f0 R keys fl' f' ∧ extends fl fl' [key]).
Proof.
  intros Hb Hkey. unfold flClaim. apply runs_bind. eapply runs_mono; [apply (startFlight_spec w f (reg R fl)), Hb|].
  intros r s (f' & -> & -> & Hrep' & Hh). apply runs_ret. exists f'. split; [done|].
  destruct (reg R fl key) as [wn|] eqn:Ek; cbn [default from_option] in Hrep'; unfold Datatypes.id in Hrep'.
  - rewrite bool_decide_eq_true_2 by done. split; [by eapply batch_inv_join|]. split; [|done].
    intros k. cbn. rewrite fmap_app. set_solver.
  - rewrite bool_decide_eq_false_2 by (by intros []). destruct Hh as [at_ Hh]. cbn [default from_option]. unfold Datatypes.id.
    assert (∀ cp, (cp = false → owned fl ++ [key] = take (S (length (owned fl))) keys) →
      batch_inv f0 R keys (mkBatchFlights (owned fl ++ [key]) (Some (callsOf fl ++ [length (heap f)])) (joined fl) cp) f' ∧
      extends fl (mkBatchFlights (owned fl ++ [key]) (Some (callsOf fl ++ [length (heap f)])) (joined fl) cp) [key]) as Hgo.
    { intros cp Hcp. split; [by eapply batch_inv_own|]. split; [|done]. intros k. cbn. set_solver. }
    destruct (negb (copied fl) && (length (owned fl) =? i)%nat) eqn:Ec; [|by apply Hgo].
    apply andb_true_iff in Ec as [Hc%negb_true_iff Hi%Nat.eqb_eq]. pose proof (bi_prefix _ _ _ _ _ Hb Hc) as Hpre.
    assert (owned fl ++ [key] = take (S i) keys) as Htake by (rewrite (take_S_r keys i key Hkey), Hpre, Hi; f_equal; by rewrite length_take_le by (apply lookup_lt_Some in Hkey; lia)).
    rewrite <- Htake. apply Hgo. by rewrite Hi.
Qed.

(** The loop over a part of the batch. *)
Lemma claimMisses_spec f0 R keys part : ∀ w f fl i dst,
  batch_inv f0 R keys fl f → (∀ j, (part.*1) !! j = None ∨ keys !! (i + j)%nat = (part.*1) !! j) →
  runs (claimMisses hash c keys i part dst fl) (w, f) (λ r s, ∃ f', s = (w, f') ∧ batch_inv f0 R keys r.2 f' ∧
    r.1 = dst ++ omap (λ kr, pair kr.1 <$> kr.2) part ∧
    extends fl r.2 (omap (λ kr, match kr.2 with None => Some kr.1 | Some _ => None end) part)).
Proof.
  induction part as [|[key r] part IH]; intros w f fl i dst Hb Hk; cbn [claimMisses].
  - apply runs_ret. exists f. rewrite app_nil_r. split_and!; try done. split; [set_solver|done].
  - assert (∀ j, (part.*1) !! j = None ∨ keys !! (S i + j)%nat = (part.*1) !! j) as Hk'.
    { intros j. specialize (Hk (S j)). by rewrite <- plus_n_Sm in Hk. }
    destruct r as [v|].
    + eapply runs_mono; [by apply IH|]. intros [dst' fl'] s (f' & -> & Hb' & Hd & Hx). exists f'. split_and!; try done.
      cbn in *. by rewrite Hd, <- app_assoc.
    + apply runs_bind. eapply runs_mono; [apply flClaim_spec; [done|]|].
      { destruct (Hk 0%nat) as [|Hk0]; [done|]. by rewrite Nat.add_0_r in Hk0. }
      intros fl1 s1 (f1 & -> & Hb1 & Hx1). eapply runs_mono; [by apply IH|]. intros [dst' fl'] s (f' & -> & Hb' & Hd & Hx).
      exists f'. split_and!; try done. cbn in *. destruct Hx1 as [Hx1 Hn1], Hx as [Hx Hn]. split.
      * intros k. specialize (Hx1 k). specialize (Hx k). rewrite list_elem_of_singleton in Hx1. rewrite elem_of_cons. tauto.
      * intros Hc. destruct (Hn Hc) as [Hc1 _]. by destruct (Hn1 Hc1).
Qed.

(** ** The end of the flights *)

Lemma releaseAll_spec (ks : list K) : ∀ ids R f,
  NoDup ks → length ks = length ids → (∀ k, k ∈ ks → R k = None) →
  fl_rep hash (kShardMask c) f (updAll R (zip ks ids)) →
  ∃ f', releaseAll ids f = Some f' ∧ fl_rep hash (kShardMask c) f' R ∧ length (heap f') = length (heap f) ∧
    ∀ id x, heap f !! id = Some x → heap f' !! id = Some (if bool_decide (id ∈ ids) && fjoined x then setOver x else x).
Proof.
  induction ks as [|k ks IH]; intros ids R f Hnd Hlen Hfree Hrep; destruct ids as [|id ids]; try done.
  - exists f. split_and!; [done|done|done|]. intros id x Hx. by rewrite bool_decide_eq_false_2 by set_solver.
  - apply NoDup_cons in Hnd as [Hni Hnd]. injection Hlen as Hlen. cbn [zip zip_with] in Hrep. 
    assert (k ∉ (zip ks ids).*1) as Hni' by (by rewrite fst_zip by lia).
    assert (updAll R ((k, id) :: zip ks ids) k = Some id) as Hk.
    { change ((k, id) :: zip ks ids) with (zip (k :: ks) (id :: ids)). apply (updAll_lookup _ _ _ 0%nat); try done; [|cbn; lia].
      by apply NoDup_cons. }
    destruct (release_spec hash (kShardMask c) f _ k id Hrep Hk) as (f1 & x & Hx & E1 & Hrep1 & Hh1).
    destruct (IH ids R f1) as (f' & E' & Hrep' & Hlen' & Hh'); [done|done|by intros; apply Hfree; right| |].
    { eapply fl_rep_ext; [|exact Hrep1]. intros k'. symmetry. apply updAll_drop; [done|apply Hfree; left]. }
    exists f'. unfold releaseAll in *. cbn [foldl]. rewrite E1. split_and!; [done|done|rewrite Hlen', Hh1; destruct (fjoined x); [apply length_alter|done]|].
    assert (id ∉ ids) as Hidn.
    { intros (j & Hj)%list_elem_of_lookup. destruct (lookup_lt_is_Some_2 ks j) as [k1 Hk1]; [rewrite Hlen; by eapply lookup_lt_Some|].
      assert (updAll R ((k, id) :: zip ks ids) k1 = Some id) as Hk1'.
      { change ((k, id) :: zip ks ids) with (zip (k :: ks) (id :: ids)). apply (updAll_lookup _ _ _ (S j)); try done; [|cbn; lia].
        by apply NoDup_cons. }
      pose proof (fl_rep_inj _ _ _ _ _ _ _ Hrep Hk Hk1') as ->. apply Hni. by eapply list_elem_of_lookup_2. }
    intros id' y Hy. destruct (decide (id' = id)) as [->|Hne].
    + rewrite bool_decide_eq_true_2 by left. rewrite Hx in Hy. injection Hy as ->. cbn [andb].
      rewrite (Hh' id (if fjoined y then setOver y else y)).
      * by rewrite bool_decide_eq_false_2.
      * rewrite Hh1. destruct (fjoined y); [|done]. by rewrite list_lookup_alter_eq, Hx.
    + assert (heap f1 !! id' = Some y) as Hy1.
      { rewrite Hh1. destruct (fjoined x); [|done]. by rewrite list_lookup_alter_ne. }
      rewrite (Hh' _ _ Hy1). f_equal. rewrite (bool_decide_ext (id' ∈ id :: ids) (id' ∈ ids)); [done|]. set_solver.
Qed.

End Claims.
