(* ===== verification/LoadTheorems.v ===== *)
(** * A batch load settles its flights

    The memory pass of a batch load, its second-level and loader calls, and the theorem: every flight the
    batch started is ended, with the value the batch found for its key, with its error or with the panic,
    whatever the second level and the loader do; so a batch never waits for itself. *)

From S2P Require Import Prelude Item Table Policy ClockPolicy Shard ShardSpec ShardTheorems Expiry HashSet Config Stats CacheState CacheLaws WriteBack WriteBackSteps CacheOps WriteThrough Flight FlightTheorems Batch BatchTheorems Loads.

Section Stores.
Context {K V P L E : Type} `{!EqDecision K} `{!GoType K} `{!GoType V}.
Context `{!EvictionPolicy K V P} `{!PolicyLaws K V P} `{!L2Cache K V L E}.
Context (hash hashSet : K → Z) (c : Consts K V) (panics : L → l2Request K V → option L).
Abbreviation W := (World K V P L E).
Implicit Types (w : W) (k : K) (v : V).

(** [m] returns and keeps the cache invariant. *)
Definition safe {A} (m : M W A) : Prop := ∀ w, cache_inv hash c w → runs m w (λ _ w', cache_inv hash c w').

Lemma safe_ret {A} (a : A) : safe (mret a).
Proof. intros w Hw. by apply runs_ret. Qed.

Lemma safe_bind {A B} (m : M W A) (g : A → M W B) : safe m → (∀ a, safe (g a)) → safe (m ≫= g).
Proof. intros Hm Hg w Hw. apply runs_bind. eapply runs_mono; [by apply Hm|]. intros a w' Hw'. by apply Hg. Qed.

Lemma safe_forM {A} (l : list A) (g : A → M W ()) : (∀ a, safe (g a)) → safe (forM l g).
Proof. intros Hg. induction l as [|a l IH]; cbn [forM]; [apply safe_ret|]. by apply safe_bind. Qed.

(** What does not touch the shards or the clock. *)
Lemma safe_quiet {A} (m : M W A) :
  (∀ w, ∃ a w', m w = Some (a, w') ∧ wShards w' = wShards w ∧ wNow w' = wNow w) → safe m.
Proof. intros Hm w Hw. destruct (Hm w) as (a & w' & E1 & Hs & Hn). exists a, w'. split; [done|]. by apply (cache_inv_same _ _ w). Qed.

Lemma safe_stat g n : safe (stat g n).
Proof. apply safe_quiet. intros w. by eexists _, _. Qed.

Lemma safe_callL2 {A} (g : L → L * A) : safe (callL2 g).
Proof. apply safe_quiet. intros w. unfold callL2. destruct (g (wL2 w)). by eexists _, _. Qed.

Lemma safe_report k e : safe (reportL2Err c k e).
Proof. apply safe_quiet. intros w. destruct e; cbn; eexists _, _; (split; [done|]); by destruct (kOnL2Error c). Qed.

Lemma safe_get : safe get.
Proof. apply safe_quiet. intros w. by eexists _, _. Qed.

(** A second level that does not panic is asked as in [enqueueL2]. *)
Lemma tryEnqueue_calm key value ttl w :
  (∀ l q, panics l q = None) →
  tryEnqueue hash c panics key value ttl w = (enqueueWriteBack hash c key value ttl ≫= λ _, mret (Some ())) w.
Proof.
  intros Hp.
  assert (trySet c panics key value ttl w = (syncWrite c (mkWrite key value ttl None false) ≫= λ _, mret (Some ())) w) as Hs.
  { unfold trySet, syncWrite, tryL2, callL2, mbind, M_bind. cbn [wdel wkey wvalue wttl]. rewrite Hp. by destruct (l2Set (wL2 w) key value ttl). }
  unfold tryEnqueue, enqueueWriteBack, enqueueL2, mbind at 1 3, M_bind at 1 3, get. unfold mbind at 2, M_bind at 2.
  destruct (wStopped w); [exact Hs|]. cbv zeta. cbn [wkey]. by destruct (_ <? _)%nat.
Qed.

(** [m] returns and keeps the cache invariant; it panics ([None]) only because the second level does. *)
Definition tries {A} (m : M W (option A)) : Prop := ∀ w, cache_inv hash c w →
  runs m w (λ r w', cache_inv hash c w' ∧ (r = None → ∃ l q, is_Some (panics l q))).

Lemma tries_ret {A} (a : A) : tries (mret (Some a)).
Proof. intros w Hw. by apply runs_ret. Qed.

Lemma tries_after {A B} (m : M W A) (g : A → M W (option B)) : safe m → (∀ a, tries (g a)) → tries (m ≫= g).
Proof. intros Hm Hg w Hw. apply runs_bind. eapply runs_mono; [by apply Hm|]. intros a w' Hw'. by apply Hg. Qed.

Lemma tries_L2 {A B} q (f : L → L * A) (g : A → M W (option B)) :
  (∀ a, tries (g a)) → tries (tryL2 panics q f ≫= λ r, match r with None => mret None | Some a => g a end).
Proof.
  intros Hg w Hw. apply runs_bind. unfold runs at 1, tryL2. destruct (panics (wL2 w) q) as [l|] eqn:Ep.
  - eexists _, _. split; [reflexivity|]. apply runs_ret. split; [by apply (cache_inv_same _ _ w)|]. intros _. exists (wL2 w), q. by rewrite Ep.
  - unfold mbind, M_bind, callL2. destruct (f (wL2 w)) as [l a]. eexists _, _. split; [reflexivity|]. apply Hg. by apply (cache_inv_same _ _ w).
Qed.

Lemma tries_all {A} (l : list A) (g : A → M W (option ())) : (∀ a, tries (g a)) → tries (tryAll l g).
Proof.
  intros Hg. induction l as [|a l IH]; cbn [tryAll]; [apply tries_ret|]. intros w Hw. apply runs_bind. eapply runs_mono; [by apply Hg|].
  intros [[]|] w' [Hw' Hr]; [by apply IH|by apply runs_ret].
Qed.

Lemma tries_enqueue key value ttl : tries (tryEnqueue hash c panics key value ttl).
Proof.
  assert (tries (trySet c panics key value ttl)) as Hs.
  { apply tries_L2. intros err. apply tries_after; [apply safe_report|intros []; apply tries_ret]. }
  unfold tryEnqueue. apply tries_after; [apply safe_get|]. intros w0. destruct (wStopped w0); [done|]. cbv zeta. case_match; [|done].
  apply tries_after; [|intros []; apply tries_ret]. apply safe_quiet. intros w. by eexists _, _.
Qed.

Lemma safe_setMemory k v x : 0 ≤ x < 2 ^ 18 → safe (cSetMemory hash c k v x).
Proof. intros Hx w Hw. eapply runs_mono; [by apply cSetMemory_step|]. by intros a w' [? _]. Qed.

Lemma safe_storeMemory k v : safe (storeMemory hash c k v).
Proof.
  intros w Hw. unfold storeMemory, cExpireOffset. apply runs_bind, runs_bind, runs_get, runs_ret.
  by apply safe_setMemory; [apply expireOffset_range|].
Qed.

Lemma tries_storeLoadedBatch loaded : tries (storeLoadedBatch hash c panics loaded).
Proof.
  unfold storeLoadedBatch. destruct loaded as [|kv l]; [apply tries_ret|]. set (all := kv :: l). intros w Hw. unfold cExpireOffset.
  apply runs_bind, runs_bind, runs_get, runs_ret. apply runs_bind. eapply runs_mono; [apply safe_forM; [intros a|exact Hw]|].
  { by apply safe_setMemory, expireOffset_range. }
  intros [] w1 Hw1. revert w1 Hw1. apply tries_after; [apply safe_stat|intros []].
  destruct (kWritePolicy c); [apply tries_all; intros a; apply tries_enqueue| |apply tries_ret].
  apply (tries_L2 _ _ (λ err, match err with None => mret (Some ()) | _ => forM all (λ item, reportL2Err c item.1 err) ≫= λ _, mret (Some ()) end)).
  intros [err|]; [|apply tries_ret]. apply tries_after; [apply safe_forM; intros a; apply safe_report|intros []; apply tries_ret].
Qed.

Abbreviation BatchLoader := (list K → option (list (K * V) * option E)).

(** ** The second-level and loader calls of a batch *)

Hypothesis Hset : ∀ k, is_u64 (hashSet k).

Lemma runLoader_spec keys (load : BatchLoader) w :
  cache_inv hash c w → runs (runLoader hash c panics keys load) w (λ r w', cache_inv hash c w' ∧
    match r with Some _ => load keys = r | None => load keys = None ∨ ∃ l q, is_Some (panics l q) end).
Proof.
  intros Hw. unfold runLoader. destruct (load keys) as [[loaded err]|] eqn:El; [|apply runs_ret; split; [done|by left]]. apply runs_bind.
  apply (runs_mono _ _ (λ r w', cache_inv hash c w' ∧ (r = None → ∃ l q, is_Some (panics l q)))).
  - destruct loaded; [by apply tries_ret|by apply tries_storeLoadedBatch].
  - intros [[]|] w' [Hw' Hr]; apply runs_ret; (split; [exact Hw'|]); [done|right; by apply Hr].
Qed.

Lemma notIn_spec (s : HSet K) (l keys : list K) :
  (∀ k, Exists_ hashSet s k = Some (bool_decide (k ∈ l))) → notIn hashSet s keys = Some (filter (λ k, k ∉ l) keys).
Proof.
  intros Hs. induction keys as [|k keys IH]; [done|]. cbn [notIn]. rewrite Hs, IH. case_bool_decide.
  - by rewrite filter_cons_False by auto.
  - by rewrite filter_cons_True.
Qed.

Lemma keysFromL2_spec (fromL2 : list (K * V)) :
  Z.of_nat (length fromL2) ≤ 2 ^ 28 →
  ∃ s, keysFromL2 hashSet fromL2 = Some s ∧ ∀ k, Exists_ hashSet s k = Some (bool_decide (k ∈ fromL2.*1)).
Proof.
  intros Hlen. destruct (NewSetFrom_ok hashSet Hset batchResolvedSlots) as (Hok & Hsz & Hc & Hm); [vm_compute; discriminate|].
  destruct (addAll_spec hashSet Hset fromL2.*1 (NewSetFrom (replicate batchResolvedSlots zeroSlot)) []) as (s & E1 & Hs & Hmem & _); try done.
  - constructor.
  - intros k. split; [by intros ?%Hm|set_solver].
  - rewrite length_fmap. cbn. lia.
  - exists s. split; [exact E1|]. intros k. apply Exists_decides; [done|done|]. rewrite Hmem. set_solver.
Qed.

(** The second level does not answer keys with an absurdly long list. *)
Definition l2_modest (keys : list K) : Prop :=
  ∀ (s : L) ks, NoDup ks → (∀ k, k ∈ ks → k ∈ keys) → Z.of_nat (length (l2BatchGet (V := V) (E := E) s ks).2.1) ≤ 2 ^ 28.

Lemma filter_all (Q : K → Prop) `{!∀ k, Decision (Q k)} (l : list K) : (∀ k, k ∈ l → Q k) → filter Q l = l.
Proof. induction l as [|k l IH]; intros Hq; [done|]. rewrite filter_cons_True by (apply Hq; left). f_equal. apply IH. intros k' Hk'. apply Hq. by right. Qed.

(** What there is for some keys: the second level's answer for all of them, and the loader's for the others; [None] is the loader's panic. *)
Definition fromL2 (l : L) keys : list (K * V) := if kHasL2 c then (l2BatchGet (E := E) l keys).2.1 else [].
Definition resolved (l : L) keys (load : BatchLoader) : option (list (K * V) * option E) :=
  match filter (λ k, k ∉ (fromL2 l keys).*1) keys with
  | [] => Some (fromL2 l keys, None)
  | rest => match load rest with Some (loaded, err) => Some (fromL2 l keys ++ loaded, err) | None => None end
  end.

(** A panic is the loader's or the second level's. *)
Definition panicked (l : L) keys (load : BatchLoader) : Prop := resolved l keys load = None ∨ ∃ l q, is_Some (panics l q).

(** The batch load returns what there is, or panics. *)
Lemma batchLoad_spec all keys (load : BatchLoader) w :
  l2_modest all → NoDup keys → keys ≠ [] → (∀ k, k ∈ keys → k ∈ all) → cache_inv hash c w →
  runs (batchLoad hash hashSet c panics keys load) w (λ r w', cache_inv hash c w' ∧
    match r with Some _ => resolved (wL2 w) keys load = r | None => panicked (wL2 w) keys load end).
Proof.
  intros Hl2 Hnd Hne Hin Hw. unfold batchLoad, panicked, resolved, fromL2. destruct (kHasL2 c).
  - apply runs_bind. unfold runs at 1, tryL2. destruct (panics (wL2 w) (AskBatchGet keys)) as [l|] eqn:Ep.
    { eexists _, _. split; [reflexivity|]. apply runs_ret. split; [by apply (cache_inv_same _ _ w)|]. right. exists (wL2 w), (AskBatchGet keys). by rewrite Ep. }
    unfold mbind at 1, M_bind at 1, callL2. pose proof (Hl2 (wL2 w) keys Hnd Hin) as Hlen. destruct (l2BatchGet (wL2 w) keys) as [s' [got err]].
    cbn [fst snd] in *. eexists _, _. split; [reflexivity|]. set (w1 := withL2 w s').
    assert (cache_inv hash c w1) as Hw1 by by apply (cache_inv_same _ _ w).
    apply runs_bind. eapply runs_mono; [by apply safe_forM; [intros a; apply safe_report|]|]. intros [] w2 Hw2.
    apply runs_bind. eapply runs_mono; [by apply safe_forM; [intros a; apply safe_storeMemory|]|]. intros [] w3 Hw3.
    apply runs_bind. eapply runs_mono; [by apply safe_stat|]. intros [] w4 Hw4. apply runs_bind.
    apply (runs_mono _ _ (λ r w', w' = w4 ∧ r = filter (λ k, k ∉ got.*1) keys)).
    { destruct got as [|kv l]; [apply runs_ret; split; [done|]; symmetry; apply filter_all; set_solver|].
      destruct (keysFromL2_spec (kv :: l) Hlen) as (s & -> & Hs).
      apply runs_bind. eexists _, w4. split; [reflexivity|]. rewrite (notIn_spec s (kv :: l).*1) by done. by eexists _, w4. }
    intros toLoad w5 [-> ->]. destruct (filter _ keys) as [|k0 ks]; [by apply runs_ret|].
    apply runs_bind. eapply runs_mono; [by apply safe_stat|]. intros [] w6 Hw6. apply runs_bind.
    eapply runs_mono; [by apply runLoader_spec|]. intros [[loaded e]|] w7 [Hw7 Hr]; apply runs_ret; (split; [done|]).
    + by rewrite Hr.
    + destruct Hr as [->|Hp]; [by left|by right].
  - assert (filter (λ k : K, k ∉ ([] : list (K * V)).*1) keys = keys) as -> by (apply filter_all; set_solver).
    destruct keys as [|k0 ks]; [done|].
    apply runs_bind. eapply runs_mono; [by apply safe_stat|]. intros [] w1 Hw1. eapply runs_mono; [by apply runLoader_spec|].
    intros [[loaded e]|] w2 [Hw2 Hr]; (split; [done|]); [by rewrite Hr|]. destruct Hr as [->|Hp]; [by left|by right].
Qed.

End Stores.

Section Pass.
Context {K V P L E : Type} `{!EqDecision K} `{!GoType K} `{!GoType V}.
Context `{!EvictionPolicy K V P} `{!PolicyLaws K V P} `{!L2Cache K V L E}.
Context (hash : K → Z) (c : Consts K V).
Abbreviation W := (World K V P L E).
Implicit Types (w : W) (f : Flights K V E) (k : K) (R : K → option nat) (fl : batchFlights K).
Hypothesis Hfresh : fresh_ttl c.

Lemma runs_cache {A} (m : M W A) w f (Q : A → W * Flights K V E → Prop) :
  runs m w (λ a w', Q a (w', f)) → runs (cache m) (w, f) Q.
Proof. intros (a & w' & E1 & HQ). exists a, (w', f). split; [|done]. unfold cache. by rewrite E1. Qed.

Lemma extends_refl fl : extends fl fl [].
Proof. split; [set_solver|done]. Qed.

Lemma extends_trans fl1 fl2 fl3 (ks1 ks2 : list K) : extends fl1 fl2 ks1 → extends fl2 fl3 ks2 → extends fl1 fl3 (ks1 ++ ks2).
Proof.
  intros [H1 N1] [H2 N2]. split.
  - intros k. specialize (H1 k). specialize (H2 k). rewrite elem_of_app. tauto.
  - intros Hn. destruct (N2 Hn) as [Hn1 ->]. by destruct (N1 Hn1) as [? ->].
Qed.

Lemma hits_zip (keys : list K) (rs : list (option V)) : omap (λ kr, pair kr.1 <$> kr.2) (zip keys rs) = hitsOf keys rs.
Proof. unfold hitsOf. apply list_omap_ext, Forall_Forall2_diag, Forall_forall. by intros [k r] _. Qed.

Lemma misses_zip (keys : list K) (rs : list (option V)) :
  omap (λ kr, match kr.2 with None => Some kr.1 | Some _ => None end) (zip keys rs) = missesOf keys rs.
Proof. unfold missesOf. apply list_omap_ext, Forall_Forall2_diag, Forall_forall. by intros [k r] _. Qed.

(** What a pass over some keys of the batch leaves. *)
Definition passed w0 f0 R (keys ks : list K) (dst : list (K * V)) fl (r : list (K * V) * batchFlights K) (s : W * Flights K V E) : Prop :=
  served hash c w0 ks s.1 ∧ batch_inv hash c f0 R keys r.2 s.2 ∧
  r.1 = dst ++ hitsOf ks (answers hash c w0 ks) ∧ extends fl r.2 (missesOf ks (answers hash c w0 ks)).

Lemma hits_app (ks1 ks2 : list K) (rs1 rs2 : list (option V)) :
  length ks1 = length rs1 → hitsOf (ks1 ++ ks2) (rs1 ++ rs2) = hitsOf ks1 rs1 ++ hitsOf ks2 rs2.
Proof. intros Hl. unfold hitsOf. by rewrite zip_with_app, omap_app by done. Qed.

Lemma misses_app (ks1 ks2 : list K) (rs1 rs2 : list (option V)) :
  length ks1 = length rs1 → missesOf (ks1 ++ ks2) (rs1 ++ rs2) = missesOf ks1 rs1 ++ missesOf ks2 rs2.
Proof. intros Hl. unfold missesOf. by rewrite zip_with_app, omap_app by done. Qed.

(** Two parts of a pass, one after the other. *)
Lemma passed_app w0 f0 R keys ks1 ks2 dst fl r1 w1 f1 r2 s2 :
  cache_inv hash c w0 → passed w0 f0 R keys ks1 dst fl r1 (w1, f1) → passed w1 f0 R keys ks2 r1.1 r1.2 r2 s2 →
  passed w0 f0 R keys (ks1 ++ ks2) dst fl r2 s2.
Proof.
  intros Hinv (H1 & B1 & D1 & X1) (H2 & B2 & D2 & X2). cbn [fst snd] in *.
  assert (answers hash c w0 (ks1 ++ ks2) = answers hash c w0 ks1 ++ answers hash c w0 ks2) as Ha by (unfold answers; by rewrite fmap_app).
  assert (length ks1 = length (answers hash c w0 ks1)) as Hl by (unfold answers; by rewrite length_fmap).
  rewrite (served_answers hash c Hfresh w0 ks1 w1 ks2) in D2, X2 by done. split_and!.
  - by eapply served_app.
  - done.
  - by rewrite D2, D1, Ha, hits_app, app_assoc by done.
  - rewrite Ha, misses_app by done. by eapply extends_trans.
Qed.

(** Claims after the lookups of a part. *)
Lemma part_passed w0 f0 R keys i part dst fl w1 f1 :
  served hash c w0 part w1 → batch_inv hash c f0 R keys fl f1 → part `prefix_of` drop i keys →
  runs (claimMisses hash c keys i (zip part (answers hash c w0 part)) dst fl) (w1, f1) (passed w0 f0 R keys part dst fl).
Proof.
  intros H1 Hb [rest Hpre]. eapply runs_mono; [apply (claimMisses_spec hash c f0 R keys _ w1 f1 fl i dst Hb)|].
  - intros j. rewrite fst_zip by (unfold answers; rewrite length_fmap; lia). destruct (part !! j) as [k|] eqn:Ej; [|by left]. right.
    rewrite <- lookup_drop, Hpre. by apply lookup_app_l_Some.
  - intros [dst' fl'] s (f' & -> & Hb' & Hd & Hx). cbn [fst snd] in *. by rewrite hits_zip in Hd; rewrite misses_zip in Hx.
Qed.

Lemma passed_nil w f0 R keys dst fl f : cache_inv hash c w → batch_inv hash c f0 R keys fl f → passed w f0 R keys [] dst fl (dst, fl) (w, f).
Proof.
  intros Hinv Hb. split_and!; [|done|by rewrite app_nil_r|apply extends_refl]. split; [done|done|]. intros k.
  by rewrite decide_False by set_solver.
Qed.

Lemma drop_S_cons (keys : list K) i key rest : drop i keys = key :: rest → drop (S i) keys = rest.
Proof. intros Hd. replace (S i) with (i + 1)%nat by lia. by rewrite <- drop_drop, Hd. Qed.

Lemma smallFlights_spec f0 R keys rest : ∀ w f i dst fl,
  cache_inv hash c w → batch_inv hash c f0 R keys fl f → drop i keys = rest →
  runs (smallFlights hash c keys i rest dst fl) (w, f) (passed w f0 R keys rest dst fl).
Proof.
  induction rest as [|key rest IH]; intros w f i dst fl Hinv Hb Hd; cbn [smallFlights]; [by apply runs_ret, passed_nil|].
  apply runs_bind, runs_cache. destruct (singles_spec hash c Hfresh w [key] Hinv) as (rs & w1 & E1 & Hrs & H1).
  cbn [collectM] in E1. unfold mbind, M_bind in E1. destruct (cGetMemory hash c key w) as [[r w1']|] eqn:Eg; [|done].
  injection E1 as <- <-. exists r, w1'. split; [done|]. apply runs_bind.
  replace [(key, r)] with (zip [key] (answers hash c w [key])) by by rewrite <- Hrs.
  eapply runs_mono; [apply part_passed; [done|done|rewrite Hd; by exists rest]|]. intros [dst1 fl1] [w2 f2] H2.
  eapply runs_mono; [apply (IH w2 f2 (S i)); [apply H2|apply H2|by eapply drop_S_cons]|]. intros r3 s3 H3.
  change (key :: rest) with ([key] ++ rest). by eapply passed_app.
Qed.

Lemma groupFlights_spec f0 R keys fuel : ∀ w f start dst fl,
  cache_inv hash c w → batch_inv hash c f0 R keys fl f → (length keys - start ≤ fuel)%nat →
  runs (groupFlights hash c fuel keys start dst fl) (w, f) (passed w f0 R keys (drop start keys) dst fl).
Proof.
  induction fuel as [|fuel IH]; intros w f start dst fl Hinv Hb Hfuel; cbn [groupFlights];
    (destruct (Nat.leb_spec (length keys) start) as [Hle|Hlt]; [by rewrite drop_ge by done; apply runs_ret, passed_nil|]); [lia|].
  set (part := take batchGroupSize (drop start keys)). apply runs_bind, runs_cache.
  eapply runs_mono; [by apply (group_spec hash c Hfresh w part)|]. intros rs w1 [-> H1]. apply runs_bind.
  eapply runs_mono; [apply part_passed; [done|done|]|].
  { exists (drop batchGroupSize (drop start keys)). unfold part. by rewrite take_drop. }
  intros [dst1 fl1] [w2 f2] H2. eapply runs_mono; [apply IH; [apply H2|apply H2|unfold batchGroupSize; lia]|]. intros r3 s3 H3.
  rewrite <- (take_drop batchGroupSize (drop start keys)). fold part. rewrite drop_drop. by eapply passed_app.
Qed.

(** The memory pass reads what a batch read reads, and claims its misses. *)
Lemma batchGetMemoryFlights_spec w f R keys :
  cache_inv hash c w → fl_rep hash (kShardMask c) f R →
  runs (batchGetMemoryFlights hash c keys) (w, f) (passed w f R keys keys [] noFlights).
Proof.
  intros Hinv Hrep. pose proof (batch_inv_start hash c f R keys Hrep) as Hb. unfold batchGetMemoryFlights. case_match.
  - by apply smallFlights_spec.
  - apply groupFlights_spec; [done|done|lia].
Qed.

End Pass.

Section Ends.
Context {K V P L E : Type} `{!EqDecision K} `{!GoType K} `{!GoType V}.
Context `{!EvictionPolicy K V P} `{!PolicyLaws K V P} `{!L2Cache K V L E}.
Context (hash hashSet : K → Z) (c : Consts K V) (panics : L → l2Request K V → option L).
Abbreviation W := (World K V P L E).
Implicit Types (w : W) (f : Flights K V E) (k : K) (R : K → option nat) (fl : batchFlights K).

(** The flight [id] of the key [k] carries this result, and whoever joined it is released. *)
Definition carries f k id (res : V * bool * option (Error E)) : Prop :=
  ∃ x, heap f !! id = Some x ∧ fkey x = k ∧ (fval x, fok x, ferr x) = res ∧ (fjoined x = true → fover x = true).

(** The flights of a batch are over, with these results; the registry is what it was, and the flights of others are at most joined.  What
    the batch joined itself is another call's flight, or one of its own. *)
Record ended f0 R (started joined : list (K * nat)) f' (Q : K → V * bool * option (Error E)) : Prop := {
  en_rep : fl_rep hash (kShardMask c) f' R;
  en_new id x : heap f' !! id = Some x → (length (heap f0) ≤ id)%nat → fjoined x = true → id ∈ started.*2;
  en_started k id : (k, id) ∈ started → (length (heap f0) ≤ id)%nat ∧ carries f' k id (Q k);
  en_joined k id : (k, id) ∈ joined → R k = Some id ∨ (k, id) ∈ started ∧ readFlight f' id = Some (Q k);
  en_old id x0 : heap f0 !! id = Some x0 → heap f' !! id = Some x0 ∨ heap f' !! id = Some (setJoined x0)
}.

Definition startedBy fl : list (K * nat) := zip (owned fl) (default [] (bcalls fl)).

Lemma owned_of f0 R keys fl f k id :
  batch_inv hash c f0 R keys fl f → reg R fl k = Some id → ((k ∉ owned fl) ∧ R k = Some id) ∨
  ∃ j, owned fl !! j = Some k ∧ default [] (bcalls fl) !! j = Some id.
Proof.
  intros Hb HR. pose proof (bi_len _ _ _ _ _ _ _ Hb) as Hlen. unfold reg in HR. destruct (decide (k ∈ owned fl)) as [Hin|Hni].
  - right. apply list_elem_of_lookup in Hin as [j Hj]. exists j. split; [done|].
    destruct (lookup_lt_is_Some_2 (default [] (bcalls fl)) j) as [id' Hid]; [rewrite <- Hlen; by eapply lookup_lt_Some|].
    rewrite (updAll_lookup _ _ _ j k id') in HR by (done || apply Hb). congruence.
  - left. split; [done|]. rewrite updAll_notin in HR; [done|]. rewrite fst_zip by lia. done.
Qed.

Lemma filter_nothing (l : list (K * V)) : filter (λ kv, kv.1 ∈ ([] : list K)) l = [].
Proof. induction l as [|kv l IH]; [done|]. by rewrite filter_cons_False by set_solver. Qed.

Lemma started_at f0 R keys fl f k id :
  batch_inv hash c f0 R keys fl f → (k, id) ∈ startedBy fl →
  ∃ j, owned fl !! j = Some k ∧ default [] (bcalls fl) !! j = Some id ∧ reg R fl k = Some id.
Proof.
  intros Hb (j & Hj)%list_elem_of_lookup. apply lookup_zip_Some in Hj as [Hk Hid]. exists j. split_and!; [done..|].
  unfold reg. by apply (updAll_lookup _ _ _ j); [apply Hb| |done|done]; apply Hb.
Qed.

Lemma started_keys f0 R keys fl f : batch_inv hash c f0 R keys fl f → (startedBy fl).*1 = owned fl ∧ (startedBy fl).*2 = default [] (bcalls fl).
Proof. intros Hb. pose proof (bi_len _ _ _ _ _ _ _ Hb) as Hlen. unfold startedBy. by rewrite fst_zip, snd_zip by lia. Qed.

Lemma batch_ends f0 R keys fl f f1 (Q : K → V * bool * option (Error E)) :
  batch_inv hash c f0 R keys fl f → results_only hash (kShardMask c) (default [] (bcalls fl)) f f1 →
  (∀ j k id, owned fl !! j = Some k → default [] (bcalls fl) !! j = Some id →
    ∃ x, heap f1 !! id = Some x ∧ (fval x, fok x, ferr x) = Q k) →
  ∃ f', releaseAll (default [] (bcalls fl)) f1 = Some f' ∧ ended f0 R (startedBy fl) (joined fl) f' Q.
Proof.
  intros Hb [Hrep Hlen Hcall] HQ. pose proof Hb as [_ Hreg Hnd Hlen2 Hfree _ Hcalls Hjoin Hnew Hold].
  destruct (releaseAll_spec hash c (owned fl) _ R f1 Hnd Hlen2 Hfree (Hrep _ Hreg)) as (f' & E1 & Hrep' & Hlen' & Hh).
  exists f'. split; [done|]. split; [done|..].
  - intros id y Hy Hge Hj. rewrite (proj2 (started_keys _ _ _ _ _ Hb)).
    destruct (lookup_lt_is_Some_2 (heap f) id) as [x Hx]; [apply lookup_lt_Some in Hy; lia|].
    destruct (Hcall id x Hx) as (x1 & Hx1 & _ & Hj1 & _). rewrite (Hh _ _ Hx1) in Hy. injection Hy as <-.
    apply (Hnew id x); [done|done|]. rewrite <- Hj1. by destruct (_ && _).
  - intros k id Hin. destruct (started_at _ _ _ _ _ _ _ Hb Hin) as (j & Hk & Hid & HR).
    destruct (Hcalls id) as (Hge & _); [by eapply list_elem_of_lookup_2|]. split; [done|].
    destruct (HQ j k id Hk Hid) as (x1 & Hx1 & HQ1). destruct (fr_complete _ _ _ _ (Hrep _ Hreg) k id HR) as (_ & _ & Hkey & _).
    rewrite Hx1 in Hkey. injection Hkey as Hkey.
    eexists. rewrite (Hh _ _ Hx1), bool_decide_eq_true_2 by (by eapply list_elem_of_lookup_2). split; [done|]. cbn [andb].
    destruct (fjoined x1) eqn:Ej; (split_and!; [exact Hkey|exact HQ1|]); [done|by rewrite Ej].
  - intros k id Hin. destruct (Hjoin k id Hin) as (HR & x & Hx & Hj).
    destruct (owned_of f0 R keys fl f k id Hb HR) as [[_ ?]|(j & Hk & Hid)]; [by left|]. right.
    split; [apply list_elem_of_lookup; exists j; apply lookup_zip_Some; by split|].
    destruct (HQ j k id Hk Hid) as (x1 & Hx1 & <-). destruct (Hcall id x Hx) as (x1' & Hx1' & _ & Hj1 & _).
    assert (x1' = x1) as -> by congruence. unfold readFlight. rewrite (Hh _ _ Hx1), bool_decide_eq_true_2 by (by eapply list_elem_of_lookup_2).
    by rewrite Hj1, Hj.
  - intros id x0 H0. assert (id ∉ default [] (bcalls fl)) as Hni.
    { intros Hin. destruct (Hcalls id Hin) as [Hge _]. apply lookup_lt_Some in H0. lia. }
    destruct (Hold id x0 H0) as [Hx|Hx]; destruct (Hcall id _ Hx) as (x1 & Hx1 & _ & _ & _ & Hsame); rewrite (Hsame Hni) in Hx1;
      rewrite (Hh _ _ Hx1), bool_decide_eq_false_2 by done; auto.
Qed.

Hypothesis Hset : ∀ k, is_u64 (hashSet k).

Lemma NoDup_calls f0 R keys fl f : batch_inv hash c f0 R keys fl f → NoDup (default [] (bcalls fl)).
Proof.
  intros Hb. pose proof (bi_len _ _ _ _ _ _ _ Hb) as Hlen. apply NoDup_alt. intros i j id Hi Hj.
  destruct (lookup_lt_is_Some_2 (owned fl) i) as [ki Hki]; [rewrite Hlen; by eapply lookup_lt_Some|].
  destruct (lookup_lt_is_Some_2 (owned fl) j) as [kj Hkj]; [rewrite Hlen; by eapply lookup_lt_Some|].
  assert (ki = kj) as ->.
  { pose proof (bi_nodup _ _ _ _ _ _ _ Hb) as Hnd.
    exact (fl_rep_inj _ _ _ _ _ _ _ (bi_rep _ _ _ _ _ _ _ Hb) (updAll_lookup R _ _ i ki id Hnd Hlen Hki Hi) (updAll_lookup R _ _ j kj id Hnd Hlen Hkj Hj)). }
  eapply NoDup_lookup; [apply Hb|done|done].
Qed.

(** What the flights of the batch carry: the value for the key, or the error; after a panic, that. *)
Definition outcomeOf (more : list (K * V)) (err : option E) k : V * bool * option (Error E) := result (go_zero, false, External <$> err) more k.
Definition afterPanic k : V * bool * option (Error E) := (go_zero, false, Some ErrLoaderPanic).

Lemma loadOwned_spec f0 R keys fl f w load found :
  l2_modest (V := V) (L := L) (E := E) keys → (∀ k, k ∈ owned fl → k ∈ keys) →
  cache_inv hash c w → batch_inv hash c f0 R keys fl f →
  runs (loadOwned hash hashSet c panics load fl found) (w, f) (λ r s, cache_inv hash c s.1 ∧
    match r with
    | Some (found', err) => ∃ more, resolved c (wL2 w) (owned fl) load = Some (more, err) ∧
      found' = found ++ filter (λ kv, kv.1 ∈ owned fl) more ∧ ended f0 R (startedBy fl) (joined fl) s.2 (outcomeOf more err)
    | None => panicked c panics (wL2 w) (owned fl) load ∧ ended f0 R (startedBy fl) (joined fl) s.2 afterPanic
    end).
Proof.
  intros Hl2 Hin Hw Hb. pose proof (bi_len _ _ _ _ _ _ _ Hb) as Hlen. pose proof (NoDup_calls _ _ _ _ _ Hb) as Hnc.
  unfold loadOwned. destruct (owned fl) as [|k0 ks] eqn:Eo.
  - apply runs_ret. cbn [fst snd]. split; [done|]. destruct (default [] (bcalls fl)) eqn:Ec; [|done].
    destruct (batch_ends f0 R keys fl f f (outcomeOf (fromL2 c (E := E) (wL2 w) []) None)) as (f' & E1 & He); [done|done|by rewrite Eo|].
    rewrite Ec in E1. injection E1 as <-. exists (fromL2 c (E := E) (wL2 w) []). split_and!; [done| |done].
    by rewrite filter_nothing, app_nil_r.
  - rewrite <- Eo in *. assert (owned fl ≠ []) as Hne by by rewrite Eo. clear Eo. set (ids := default [] (bcalls fl)) in *.
    assert (carry (owned fl) ids f afterPanic []) as Hc.
    { intros j k id Hk Hid. destruct (bi_calls _ _ _ _ _ _ _ Hb id) as (_ & x & Hx & _ & Hp); [by eapply list_elem_of_lookup_2|].
      exists x. by split. }
    apply runs_bind, runs_cache. eapply runs_mono; [apply (batchLoad_spec hash hashSet c panics Hset keys); [done|apply Hb|done|done|done]|].
    intros r w1 [Hw1 Hr]. destruct r as [[more err]|].
    + destruct (assignLoaded_spec hash (kShardMask c) (owned fl) ids (bi_nodup _ _ _ _ _ _ _ Hb) Hnc Hlen more (External <$> err)
        (Some found) f afterPanic) as (f1 & E1 & Hro & Hc1); [done|done|].
      cbn [fmap option_fmap option_map] in E1.
      destruct (batch_ends f0 R keys fl f f1 (outcomeOf more err) Hb Hro Hc1) as (f' & E2 & He).
      unfold runs, flights. eexists _, (w1, f'). rewrite E1. cbn [snd]. fold ids in E2. rewrite E2. split; [reflexivity|].
      cbn [default from_option fst snd]. unfold Datatypes.id. split; [done|]. by exists more.
    + destruct (batch_ends f0 R keys fl f f afterPanic Hb) as (f' & E2 & He); [done|done|].
      unfold runs, flights. eexists _, (w1, f'). fold ids in E2. rewrite E2. split; [reflexivity|]. by split_and!.
Qed.

(** All flights a batch has to wait for are over: the waits return. *)
Lemma joinResults_done f l : ∀ i found err,
  (∀ k id, (k, id) ∈ l → is_Some (readFlight f id)) → is_Some (joinResults f (λ _, None) i l found err).
Proof.
  induction l as [|[k id] l IH]; intros i found err Hl; cbn [joinResults]; [done|].
  destruct (Hl k id ltac:(left)) as [[[v ok] e] Hr]. rewrite Hr.
  case_match; apply IH; intros k' id' Hin; apply (Hl k' id'); by right.
Qed.

Lemma missesOf_in (keys : list K) (rs : list (option V)) k : k ∈ missesOf keys rs → k ∈ keys.
Proof.
  unfold missesOf. intros ([k' r] & Hin & Hk)%list_elem_of_omap. destruct r; [done|]. injection Hk as <-.
  apply elem_of_zip_l in Hin. done.
Qed.

End Ends.

Section BatchLoads.
Context {K V P L E : Type} `{!EqDecision K} `{!GoType K} `{!GoType V}.
Context `{!EvictionPolicy K V P} `{!PolicyLaws K V P} `{!L2Cache K V L E}.
Context (hash hashSet : K → Z) (c : Consts K V) (panics : L → l2Request K V → option L).
Implicit Types (w : World K V P L E) (f : Flights K V E) (R : K → option nat).

(** The keys a batch starts flights for: the ones memory has no answer for and nobody else is loading. *)
Lemma started_are f0 R keys fl f ks k :
  batch_inv hash c f0 R keys fl f → extends noFlights fl ks → k ∈ owned fl ↔ k ∈ ks ∧ R k = None.
Proof.
  intros Hb [Hx _]. specialize (Hx k). cbn in Hx. split.
  - intros Hk. split; [|by eapply (bi_free _ _ _ _ _ _ _ Hb)]. destruct (proj2 Hx (or_introl Hk)) as [?%elem_of_nil|[?%elem_of_nil|?]]; done.
  - intros [Hk HR]. destruct (proj1 Hx) as [?|Hj]; [by right; right|done|]. apply list_elem_of_fmap in Hj as ([k' id] & -> & Hj).
    destruct (bi_joined _ _ _ _ _ _ _ Hb k' id Hj) as (Hr & _). destruct (owned_of hash c f0 R keys fl f k' id Hb Hr) as [[_ Hr']|(j & Hj' & _)].
    + cbn in HR. congruence.
    + by eapply list_elem_of_lookup_2.
Qed.

(** C39: A batch load settles its flights.  Whatever the second level does (its answers, errors, keys nobody asked for and
    panics included) and whatever the loader does (a panic included), [BatchGetOrLoad] comes to its waits or passes
    the panic on, with the cache invariant.  It starts one flight for each key that memory does not answer and no other call
    is loading, and it joins the flights of the others; then the registry of flights is what it was before the call, the
    flights of others are at most joined, and each flight it started is over for whoever joined it.  When the call returns,
    it has memory's hits and what the second level and, for the keys that one left, the loader gave for the keys it
    started, and each of its flights carries the value for its key, or the loader's error if there is none; after a panic,
    which is the loader's or the second level's, each carries [ErrLoaderPanic].  What it still waits for is a flight another
    call runs for that key or, for a key the batch holds twice, one of its own that is over: with no other load running the
    waits return at once, so a batch never waits for itself. *)
Theorem batch_load_settles_flights w f R keys (load : list K → option (list (K * V) * option E)) :
  (∀ k, is_u64 (hashSet k)) → l2_modest (V := V) (L := L) (E := E) keys →
  (kRefreshOnGet c = true → 0 ≤ kTtlOff c ≤ ExpireMax - 2) →
  cache_inv hash c w → fl_rep hash (kShardMask c) f R →
  runs (BatchGetOrLoad hash hashSet c panics keys (Some load)) (w, f) (λ r s, ∃ started : list (K * nat),
    let missed := missesOf keys (answers hash c w keys) in
    cache_inv hash c s.1 ∧ NoDup started.*1 ∧ (∀ k, k ∈ started.*1 ↔ k ∈ missed ∧ R k = None) ∧
    match r with
    | Returned (found, err, waits) => ∃ more e,
      resolved c (wL2 w) started.*1 load = Some (more, e) ∧ err = External <$> e ∧
      found = hitsOf keys (answers hash c w keys) ++ filter (λ kv, kv.1 ∈ started.*1) more ∧
      ended hash c f R started waits s.2 (outcomeOf more e) ∧ (∀ k, k ∈ missed ↔ k ∈ started.*1 ∨ k ∈ waits.*1) ∧
      ((∀ k, R k = None) → is_Some (joinResults s.2 (λ _, None) 0 waits found err))
    | Panicked => panicked c panics (wL2 w) started.*1 load ∧ ∃ waits, ended hash c f R started waits s.2 afterPanic
    | Waits _ => False
    end).
Proof.
  intros Hset Hl2 Ht Hinv Hrep. pose proof (fresh_ttl_bound c Ht) as Hfresh. unfold BatchGetOrLoad. apply runs_bind.
  eapply runs_mono; [by apply (batchGetMemoryFlights_spec hash c Hfresh w f R keys)|].
  intros [found fl] [w1 f1] (H1 & Hb & Hd & Hx). cbn [fst snd] in *. cbn [app] in Hd. apply runs_bind, runs_cache.
  eexists _, _. split; [reflexivity|]. set (w2 := withStats w1 _). assert (cache_inv hash c w2) as Hw2 by (apply (cache_inv_same _ _ w1); [done..|apply H1]).
  assert (wL2 w2 = wL2 w) as HL by apply (mo_l2 _ _ (sv_only _ _ _ _ _ H1)).
  destruct (started_keys _ _ _ _ _ _ _ Hb) as [Hst _]. pose proof (λ k, started_are f R keys fl f1 _ k Hb Hx) as Hown.
  assert (∀ k, k ∈ owned fl → k ∈ keys) as Hin by (intros k [Hk _]%Hown; by eapply missesOf_in).
  assert (∀ k, k ∈ missesOf keys (answers hash c w keys) ↔ k ∈ owned fl ∨ k ∈ (joined fl).*1) as Hcov.
  { intros k. rewrite <- (proj1 Hx k). cbn. set_solver. }
  assert (∀ f' Q, ended hash c f R (startedBy fl) (joined fl) f' Q → (∀ k, R k = None) → ∀ fd er, is_Some (joinResults f' (λ _, None) 0 (joined fl) fd er)) as Hjr.
  { intros f' Q He HR fd er. apply joinResults_done. intros k id Hk. destruct (en_joined _ _ _ _ _ _ _ _ He k id Hk) as [Hk'|[_ Hr]]; [by rewrite HR in Hk'|by eexists]. }
  destruct (bcalls fl) as [calls|] eqn:Ec.
  - apply runs_bind. eapply runs_mono; [by apply (loadOwned_spec hash hashSet c panics Hset f R keys)|].
    intros r [w3 f3] [Hw3 Hr]. cbn [fst snd] in *. rewrite HL in Hr. destruct r as [[found' err]|].
    + destruct Hr as (more & Hr & -> & He). apply runs_bind, runs_cache. eapply runs_mono; [by apply (safe_stat hash)|].
      intros [] w4 Hw4. apply runs_ret. cbn [fst snd]. exists (startedBy fl). rewrite Hst. cbv zeta. split_and!; [done|apply Hb|done|].
      exists more, err. split_and!; [done|done|by rewrite Hd|done|done|]. intros HR. by eapply Hjr.
    + destruct Hr as [Hp He]. apply runs_ret. cbn [fst snd]. exists (startedBy fl). rewrite Hst. cbv zeta. split_and!; [done|apply Hb|done|done|by eexists].
  - apply runs_ret. cbn [fst snd]. exists (startedBy fl). rewrite Hst. cbv zeta. split_and!; [done|apply Hb|done|].
    assert (owned fl = []) as Ho by (apply nil_length_inv; rewrite (bi_len _ _ _ _ _ _ _ Hb), Ec; done).
    destruct (batch_ends hash c f R keys fl f1 f1 (outcomeOf (fromL2 c (E := E) (wL2 w) []) None) Hb) as (f' & E1 & He); [done|by rewrite Ho|].
    rewrite Ec in E1. injection E1 as <-. exists (fromL2 c (E := E) (wL2 w) []), None. rewrite Ho in *.
    assert (joined fl = []) as Hj.
    { destruct (proj2 Hx Ec) as [_ Hm]. rewrite Hm in Hcov. destruct (joined fl) as [|[k id] l]; [done|]. exfalso.
      apply (not_elem_of_nil k), Hcov. right. left. }
    rewrite Hj in *. split_and!; [done|done|by rewrite filter_nothing, app_nil_r|done|done|done].
Qed.
End BatchLoads.

(** ** An instance: a batch with a repeated key, over an empty cache and a loader that knows one key *)

Definition someLoader (ks : list Z) : option (list (Z * Z) * option Z) := Some (omap (λ k, if k =? 5 then Some (5, 50) else None) ks, Some 13).

Lemma omap_length_le {A B} (g : A → option B) (l : list A) : (length (omap g l) ≤ length l)%nat.
Proof. induction l as [|a l IH]; [done|]. cbn. destruct (g a); cbn; lia. Qed.

Lemma wt_modest : l2_modest (K := Z) (V := Z) (L := list (Z * option (Z * Z))) (E := Z) [5; 9; 7; 5; 7].
Proof.
  intros m ks Hnd Hin. cbn. etrans; [apply Nat2Z.inj_le, omap_length_le|].
  assert (length ks ≤ 5)%nat as Hl by (apply (submseteq_length ks [5; 9; 7; 5; 7]), NoDup_submseteq; [done|exact Hin]).
  lia.
Qed.

(** A second level that panics when it is written to. *)
Definition badWrites (l : list (Z * option (Z * Z))) (q : l2Request Z Z) : option (list (Z * option (Z * Z))) :=
  match q with AskBatchGet _ => None | _ => Some l end.

Definition exLoad (panics : list (Z * option (Z * Z)) → l2Request Z Z → option (list (Z * option (Z * Z)))) :=
  BatchGetOrLoad (P := ClockPolicy) hashZ (λ k, u64 k) wtConsts panics [5; 9; 7; 5; 7] (Some someLoader) (wtWorld, newFlights 1).

Lemma batch_load_settles_flights_witness :
  (∃ found err waits s, exLoad (λ _ _, None) = Some (Returned (found, err, waits), s) ∧
    found = [(9, 90); (5, 50)] ∧ err = Some (External 13) ∧ waits.*1 = [5; 7] ∧
    fl_rep hashZ 1 s.2 (λ _, None) ∧ is_Some (joinResults s.2 (λ _, None) 0 waits found err)) ∧
  ∃ s id x, exLoad badWrites = Some (Panicked, s) ∧ fl_rep hashZ 1 s.2 (λ _, None) ∧
    heap s.2 !! id = Some x ∧ fkey x = 5 ∧ ferr x = Some ErrLoaderPanic.
Proof.
  split.
  - destruct (batch_load_settles_flights hashZ (λ k, u64 k) wtConsts (λ _ _, None) wtWorld (newFlights 1) (λ _, None) [5; 9; 7; 5; 7] someLoader)
      as (r & s & E1 & started & _ & _ & _ & Hr).
    + intros k. apply Z.mod_pos_bound. lia.
    + apply wt_modest.
    + done.
    + apply wtWorld_inv.
    + by apply newFlights_rep; [lia|].
    + assert (match r with Returned (found, err, waits) => found = [(9, 90); (5, 50)] ∧ err = Some (External 13) ∧ waits.*1 = [5; 7] | _ => False end) as Hres.
      { assert (Some r = fst <$> exLoad (λ _ _, None)) as Hv by (unfold exLoad; by rewrite E1). clear - Hv. vm_compute in Hv. injection Hv as ->.
        split_and!; reflexivity. }
      destruct r as [[[found err] waits]| |]; [|destruct Hres|destruct Hres]. destruct Hres as (H1 & H2 & H3).
      destruct Hr as (more & e & _ & _ & _ & He & _ & Hr).
      exists found, err, waits, s. split_and!; [exact E1|exact H1|exact H2|exact H3|apply He|]. apply Hr. reflexivity.
  - destruct (batch_load_settles_flights hashZ (λ k, u64 k) wtConsts badWrites wtWorld (newFlights 1) (λ _, None) [5; 9; 7; 5; 7] someLoader)
      as (r & s & E1 & started & _ & _ & Hst & Hr).
    + intros k. apply Z.mod_pos_bound. lia.
    + apply wt_modest.
    + done.
    + apply wtWorld_inv.
    + by apply newFlights_rep; [lia|].
    + assert (r = Panicked) as ->.
      { assert (Some r = fst <$> exLoad badWrites) as Hv by (unfold exLoad; by rewrite E1). clear - Hv. vm_compute in Hv. by injection Hv as ->. }
      destruct Hr as [_ [waits He]]. assert (5 ∈ started.*1) as H5.
      { apply Hst. split; [|reflexivity]. vm_compute. left. }
      apply list_elem_of_fmap in H5 as ([k id] & Hk & Hin). cbn in Hk. subst k.
      destruct (en_started _ _ _ _ _ _ _ _ He 5 id Hin) as (_ & x & Hx & Hkey & Hres & _). injection Hres as _ _ Hres.
      exists s, id, x. split_and!; [exact E1|apply He|exact Hx|exact Hkey|exact Hres].
Defined.
