(* ===== verification/GetBatched.v ===== *)
(** * Coalesced reads (getbatched.go)

    The state is the cache together with the read pool: its phase, its queue, the slots answers come
    back through and those free for reuse.  A caller queues its read and waits; a worker takes a read,
    drains what is queued behind it into a batch of distinct keys, asks the second level once, and
    settles every waiting slot.  Where a caller's [select] chooses between events, the event is an
    argument.  A second level that panics leaves the call with nothing settled yet, and [recoverBatch] runs. *)

From S2P Require Import Prelude Item Table Policy Shard ShardSpec Config Stats CacheState WriteBack CacheLaws CacheOps WriteThrough Flight Batch BatchTheorems Loads LoadTheorems.

Definition GetBatchMax : nat := 128.
Definition batchIndexFrom : nat := 8.

Inductive poolState := getPoolIdle | getPoolRunning | getPoolClosed.

(** [adone]: the buffered channel of capacity one holds a signal. *)
Record asyncSlot (V E : Type) := mkSlot { avalue : V; aerr : option E; adone : bool; arefs : Z; afound : bool }.
Arguments mkSlot {V E}.
Arguments avalue {V E}.
Arguments aerr {V E}.
Arguments adone {V E}.
Arguments arefs {V E}.
Arguments afound {V E}.

(** A slot is a number into the store; [slots.free] is what the [sync.Pool] holds. *)
Record Slots (V E : Type) := mkSlots { astore : list (asyncSlot V E); afree : list nat }.
Arguments mkSlots {V E}.
Arguments astore {V E}.
Arguments afree {V E}.

(** A queued read: a key and the slot its answer belongs in. *)
Record asyncGet (K : Type) := mkReq { rkey : K; rslot : nat }.
Arguments mkReq {K}.
Arguments rkey {K}.
Arguments rslot {K}.

Record getBatch (K : Type) := mkGetBatch {
  bkeys : list K; bhead : list Z; bnext : list Z; bslots : list nat; bindex : option (K → option Z)
}.
Arguments mkGetBatch {K}.
Arguments bkeys {K}.
Arguments bhead {K}.
Arguments bnext {K}.
Arguments bslots {K}.
Arguments bindex {K}.

(** ** Slots *)

Section Slots.
Context {V E : Type} `{!GoType V}.
Implicit Types (p : Slots V E) (x : asyncSlot V E).

Definition onSlot (id : nat) (g : asyncSlot V E → asyncSlot V E) p : Slots V E := mkSlots (alter g id (astore p)) (afree p).

(** [acquire]: a [sync.Pool] may or may not hand out what was put into it. *)
Definition acquire (reuse : bool) p : nat * Slots V E :=
  match reuse, afree p with
  | true, id :: free => (id, mkSlots (astore p) free)
  | _, _ => (length (astore p), mkSlots (astore p ++ [mkSlot go_zero None false 0 false]) (afree p))
  end.

Definition releaseSlot (id : nat) (refs : Z) p : Slots V E :=
  let p := onSlot id (λ x, mkSlot (avalue x) (aerr x) (adone x) (arefs x - refs) (afound x)) p in
  match astore p !! id with
  | Some x =>
    if negb (arefs x =? 0) then p
    else mkSlots (<[id := mkSlot go_zero None false (arefs x) (afound x)]> (astore p)) (id :: afree p)
  | None => p
  end.

Definition settle (id : nat) (value : V) (found : bool) (err : option E) p : Slots V E :=
  releaseSlot id 1 (onSlot id (λ x, mkSlot value err true (arefs x) found) p).
End Slots.

(** ** Batches *)

Section Batches.
Context {K : Type} `{!EqDecision K}.
Implicit Types (b : getBatch K) (key : K).

(** The index of an empty batch that had one before is an empty map. *)
Definition resetBatch b : getBatch K := mkGetBatch [] [] [] [] ((λ _ _, None) <$> bindex b).

Definition lookupKey b key : option Z :=
  match bindex b with
  | Some index => index key
  | None => (λ x, i32 (Z.of_nat x.1)) <$> list_find (λ k, k = key) (bkeys b)
  end.

(** [indexKey], after the key was appended to [keys]. *)
Definition indexKey (keys : list K) (index : option (K → option Z)) key : option (K → option Z) :=
  match index with
  | None =>
    if (length keys <=? batchIndexFrom)%nat then None
    else Some (upd (foldl (λ index '(i, k), upd index k (Some (i32 (Z.of_nat i)))) (λ _, None)
                      (imap pair (take (length keys - 1) keys))) key (Some (i32 (Z.of_nat (length keys) - 1))))
  | Some index => Some (upd index key (Some (i32 (Z.of_nat (length keys) - 1))))
  end.

Definition addReq b (req : asyncGet K) : getBatch K :=
  let slot := i32 (Z.of_nat (length (bslots b))) in
  let slots := bslots b ++ [rslot req] in
  match lookupKey b (rkey req) with
  | Some at_ =>
    mkGetBatch (bkeys b) (<[Z.to_nat at_ := slot]> (bhead b))
      (bnext b ++ [default 0 (bhead b !! Z.to_nat at_)]) slots (bindex b)
  | None =>
    let keys := bkeys b ++ [rkey req] in
    mkGetBatch keys (bhead b ++ [slot]) (bnext b ++ [-1]) slots (indexKey keys (bindex b) (rkey req))
  end.
End Batches.

Section GetBatched.
Context {K V P L E : Type} `{!EqDecision K} `{!GoType K} `{!GoType V}.
Context `{!EvictionPolicy K V P} `{!L2Cache K V L E}.
Context (hash : K → Z) (c : Consts K V).
Abbreviation W := (World K V P L E).

Record Pool := mkPool { gslots : Slots V E; gqueue : list (asyncGet K); gstate : poolState }.
Abbreviation G := (W * Pool)%type.
Implicit Types (b : getBatch K) (key : K) (value : V).

Definition onCache {A} (m : M W A) : M G A := λ '(w, p),
  match m w with Some (a, w) => Some (a, (w, p)) | None => None end.

Definition onPool {A} (g : Pool → A * Pool) : M G A := λ '(w, p), let '(a, p) := g p in Some (a, (w, p)).
Definition onSlots (g : Slots V E → Slots V E) : M G () := onPool (λ p, ((), mkPool (g (gslots p)) (gqueue p) (gstate p))).

(** ** The worker *)

(** [settleKey]: the walk along the chain of the key's slots; [None] is a chain longer than the batch. *)
Fixpoint settleLoop (fuel : nat) b (slot : Z) value (found : bool) (err : option E) (waiting : Z) (p : Slots V E)
    : option (Z * Slots V E) :=
  if slot <? 0 then Some (waiting, p)
  else
    match fuel, bslots b !! Z.to_nat slot, bnext b !! Z.to_nat slot with
    | S fuel, Some id, Some next => settleLoop fuel b next value found err (waiting + 1) (settle id value found err p)
    | _, _, _ => None
    end.

Definition settleKey b (at_ : Z) value (found : bool) (err : option E) : M G (Z * getBatch K) := λ '(w, p),
  match settleLoop (length (bslots b)) b (default (-1) (bhead b !! Z.to_nat at_)) value found err 0 (gslots p) with
  | Some (waiting, s) =>
    Some ((waiting, mkGetBatch (bkeys b) (<[Z.to_nat at_ := -1]> (bhead b)) (bnext b) (bslots b) (bindex b)),
          (w, mkPool s (gqueue p) (gstate p)))
  | None => None
  end.

Definition settleHit b (at_ : Z) value : M G (Z * getBatch K) :=
  match bkeys b !! Z.to_nat at_ with
  | Some key => onCache (storeMemory hash c key value) ≫= λ _, settleKey b at_ value true None
  | None => λ _, None
  end.

(** [for at := range b.head] *)
Fixpoint settleRestLoop (ats : list nat) b (err : option E) (waiting : Z) : M G (Z * getBatch K) :=
  match ats with
  | [] => mret (waiting, b)
  | at_ :: ats =>
    if 0 <=? default (-1) (bhead b !! at_)
    then '(n, b) ← settleKey b (i32 (Z.of_nat at_)) go_zero false err; settleRestLoop ats b err (waiting + n)
    else settleRestLoop ats b err waiting
  end.

Definition settleRest b (err : option E) : M G (Z * getBatch K) := settleRestLoop (seq 0 (length (bhead b))) b err 0.

(** The loop over what the second level answered: keys nobody asked for and repeated ones are skipped. *)
Fixpoint settleHits (fromL2 : list (K * V)) b (hits : Z) : M G (Z * getBatch K) :=
  match fromL2 with
  | [] => mret (hits, b)
  | (key, value) :: fromL2 =>
    match lookupKey b key with
    | Some at_ =>
      if 0 <=? default (-1) (bhead b !! Z.to_nat at_)
      then '(n, b) ← settleHit b at_ value; settleHits fromL2 b (hits + n)
      else settleHits fromL2 b hits
    | None => settleHits fromL2 b hits
    end
  end.

(** [thrown l keys]: the second level panics when it is asked for these keys; the store it leaves, and the error that wraps what
    it threw.  [None] when it returns. *)
Context (thrown : L → list K → option (L * E)).

Definition recoverBatch b (err : E) : M G () := settleRest b (Some err) ≫= λ _, mret ().

(** [resolveBatch] behind its call of the second level. *)
Definition answerBatch b : M G () :=
  match bkeys b with
  | [] => mret ()
  | [key] =>
    '(r, err) ← onCache (callL2 (λ l, l2Get l key));
    match r with
    | Some value => '(n, _) ← settleHit b 0 value; onCache (stat addL2Hits n)
    | None => '(n, _) ← settleRest b err; onCache (stat addL2Misses n)
    end
  | keys =>
    '(fromL2, err) ← onCache (callL2 (λ l, l2BatchGet l keys));
    match err with
    | Some _ => '(n, _) ← settleRest b err; onCache (stat addL2Misses n)
    | None =>
      '(hits, b) ← settleHits fromL2 b 0;
      onCache (stat addL2Hits hits) ≫= λ _,
      '(n, _) ← settleRest b None; onCache (stat addL2Misses n)
    end
  end.

Definition resolveBatch b : M G () := λ '(w, p),
  match bkeys b, thrown (wL2 w) (bkeys b) with
  | _ :: _, Some (l, err) => recoverBatch b err (withL2 w l, p)
  | _, _ => answerBatch b (w, p)
  end.

Definition collect b (req : asyncGet K) : M G (getBatch K) :=
  r ← onCache (cGetMemory hash c (rkey req));
  match r with
  | Some value => onCache (stat addMemHits 1) ≫= λ _, onSlots (settle (rslot req) value true None) ≫= λ _, mret b
  | None => mret (addReq b req)
  end.

(** A non-blocking receive. *)
Definition receive : M G (option (asyncGet K)) :=
  onPool (λ p, match gqueue p with
    | [] => (None, p)
    | req :: queue => (Some req, mkPool (gslots p) queue (gstate p))
    end).

(** The drain loop; what is queued bounds it. *)
Fixpoint drainLoop (fuel : nat) b : M G (getBatch K) :=
  if (GetBatchMax <=? length (bkeys b))%nat then mret b
  else
    receive ≫= λ req,
    match req with
    | None => mret b
    | Some req =>
      match fuel with
      | O => λ _, None
      | S fuel => collect b req ≫= λ b, drainLoop fuel b
      end : M G (getBatch K)
    end.

Definition serveBatch (first : asyncGet K) b : M G () :=
  b ← collect (resetBatch b) first;
  fuel ← onPool (λ p, (length (gqueue p), p));
  b ← drainLoop fuel b;
  resolveBatch b.

(** One turn of [getBatchLoop]: a blocking receive and a batch; the batch's index outlives it. *)
Definition workerStep b : M G bool :=
  req ← receive;
  match req with
  | None => mret false
  | Some req => serveBatch req b ≫= λ _, mret true
  end.

(** ** The callers *)

(** What ended a caller's wait. *)
Inductive event := Ready | CtxDone (err : E) | Stopped.

(** A read that returned, or one that was queued with its slot. *)
Inductive reading := Answered (r : option V * option E) | Queued (slot : nat).

(** [getQueueCh] and [start]: whether there is a queue. *)
Definition getQueueCh : M G bool :=
  onPool (λ p, match gstate p with
    | getPoolRunning => (true, p)
    | getPoolClosed => (false, p)
    | getPoolIdle => (true, mkPool (gslots p) [] getPoolRunning)
    end).

Definition closePool : M G () := onPool (λ p, ((), mkPool (gslots p) (gqueue p) getPoolClosed)).

Definition withRefs (refs : Z) (x : asyncSlot V E) : asyncSlot V E := mkSlot (avalue x) (aerr x) (adone x) refs (afound x).

Definition getBatchedFromL2 key (reuse : bool) (ev : event) : M G reading :=
  if kHasL2 c then
    open ← getQueueCh;
    if open : bool then
      id ← onPool (λ p, let '(id, s) := acquire reuse (gslots p) in (id, mkPool s (gqueue p) (gstate p)));
      onSlots (onSlot id (withRefs 2)) ≫= λ _,
      match ev with
      | Ready => onPool (λ p, (Queued id, mkPool (gslots p) (gqueue p ++ [mkReq key id]) (gstate p)))
      | CtxDone err => onSlots (releaseSlot id 2) ≫= λ _, mret (Answered (None, Some err))
      | Stopped => onSlots (releaseSlot id 2) ≫= λ _, r ← onCache (getFromL2 hash c key); mret (Answered r)
      end
    else r ← onCache (getFromL2 hash c key); mret (Answered r)
  else onCache (stat addMemMisses 1) ≫= λ _, mret (Answered (None, None)).

Definition GetBatched key (reuse : bool) (ev : event) : M G reading :=
  r ← onCache (cGetMemory hash c key);
  match r with
  | Some value => onCache (stat addMemHits 1) ≫= λ _, mret (Answered (Some value, None))
  | None => getBatchedFromL2 key reuse ev
  end.

(** The second [select] of [getBatchedFromL2]; [None] for [Ready] while the slot is not signalled. *)
Definition awaitSlot key (id : nat) (ev : event) : M G (option V * option E) :=
  match ev with
  | Ready => λ '(w, p),
    match astore (gslots p) !! id with
    | Some x =>
      if adone x then
        let s := onSlot id (λ x, mkSlot (avalue x) (aerr x) false (arefs x) (afound x)) (gslots p) in
        Some ((if afound x then Some (avalue x) else None, aerr x), (w, mkPool (releaseSlot id 1 s) (gqueue p) (gstate p)))
      else None
    | None => None
    end
  | CtxDone err => onSlots (releaseSlot id 1) ≫= λ _, mret (None, Some err)
  | Stopped => onSlots (releaseSlot id 1) ≫= λ _, onCache (getFromL2 hash c key)
  end.

End GetBatched.

(** ** A batch of coalesced reads

    [batch_rep] says which requests a batch holds: its keys are theirs without repetition, and the chain
    that starts at a key's head runs through the slots waiting for it.  What the worker does to the slots
    is a list of settlements, one per request. *)

(** ** Grouping by key *)

Section Groups.
Context {A K : Type} `{!EqDecision K} (key : A → K).
Implicit Types (l : list A) (ks : list K).

Definition ofKey l k : list A := filter (λ a, key a = k) l.

Lemma groups_perm ks : ∀ l, NoDup ks → (∀ a, a ∈ l → key a ∈ ks) → concat (ofKey l <$> ks) ≡ₚ l.
Proof.
  induction ks as [|k ks IH]; intros l Hnd Hin; cbn.
  - destruct l as [|a l]; [done|]. exfalso. apply (elem_of_nil (key a)), Hin. left.
  - apply NoDup_cons in Hnd as [Hni Hnd].
    assert (ofKey l <$> ks = ofKey (filter (λ a, key a ≠ k) l) <$> ks) as ->.
    { apply list_fmap_ext. intros i k' Hk'. unfold ofKey. rewrite list_filter_filter. apply list_filter_iff.
      intros a. split; [|tauto]. intros <-. split; [done|]. intros <-. apply Hni. by eapply list_elem_of_lookup_2. }
    rewrite IH; [apply filter_app_complement|done|].
    intros a [Hne Ha]%list_elem_of_filter. apply Hin in Ha. by apply elem_of_cons in Ha as [|].
Qed.
End Groups.

(** ** The keys and chains of a batch *)

Section Rep.
Context {K : Type} `{!EqDecision K}.
Implicit Types (b : getBatch K) (k : K) (reqs : list (asyncGet K)) (srv : list K).

Lemma posOf_snoc (ks : list K) k0 k :
  posOf (ks ++ [k0]) k = match posOf ks k with Some j => Some j | None => if decide (k0 = k) then Some (length ks) else None end.
Proof.
  induction ks as [|k1 ks IH]; cbn [app length]; rewrite !posOf_cons; [by destruct (decide (k0 = k))|].
  destruct (decide (k1 = k)); [done|]. rewrite IH. destruct (posOf ks k); [done|]. by destruct (decide (k0 = k)).
Qed.

Lemma index_all (ks : list K) k :
  NoDup ks → Z.of_nat (length ks) < 2 ^ 31 →
  foldl (λ index '(i, k), upd index k (Some (i32 (Z.of_nat i)))) (λ _, None) (imap pair ks) k = Z.of_nat <$> posOf ks k.
Proof.
  induction ks as [|k0 ks IH] using rev_ind; intros Hnd Hlen; [done|]. rewrite length_app in Hlen. cbn [length] in Hlen.
  apply NoDup_app in Hnd as (Hnd & Hni & _). rewrite imap_app, foldl_app, posOf_snoc. cbn [imap foldl]. unfold upd at 1.
  rewrite IH by (done || lia). destruct (posOf ks k) as [j|] eqn:Ep.
  - rewrite decide_False; [done|]. intros ->. apply (Hni k0); [|by left]. by eapply list_elem_of_lookup_2, posOf_lookup.
  - destruct (decide (k0 = k)) as [->|Hne]; [|by rewrite decide_False by congruence].
    rewrite decide_True by done. cbn. f_equal. unfold compose. rewrite Nat.add_0_r, i32_small; lia.
Qed.

(** [l] are the slots from [h] on, the newest first. *)
Inductive chain (next : list Z) (slots : list nat) : Z → list nat → Prop :=
| chain_end h : h < 0 → chain next slots h []
| chain_link (i id : nat) t l :
    slots !! i = Some id → next !! i = Some t → chain next slots t l → chain next slots (Z.of_nat i) (id :: l).

Lemma chain_grow next slots n s h l : chain next slots h l → chain (next ++ n) (slots ++ s) h l.
Proof. induction 1 as [|i id t l Hs Hn _ IH]; [by constructor|]. apply (chain_link _ _ _ _ t); [by apply lookup_app_l_Some..|done]. Qed.

Definition waiters reqs k : list nat := reverse (rslot <$> ofKey rkey reqs k).

Lemma waiters_snoc reqs req k : waiters (reqs ++ [req]) k = if decide (rkey req = k) then rslot req :: waiters reqs k else waiters reqs k.
Proof.
  unfold waiters, ofKey. rewrite filter_app, fmap_app, reverse_app. case_decide.
  - by rewrite filter_cons_True.
  - by rewrite filter_cons_False.
Qed.

(** The batch holds the requests [reqs], those of the keys [srv] already served. *)
Record batch_rep srv reqs b : Prop := {
  gb_small : Z.of_nat (length reqs) < 2 ^ 31;
  gb_nodup : NoDup (bkeys b);
  gb_few : (length (bkeys b) ≤ length reqs)%nat;
  gb_keys k : k ∈ bkeys b ↔ k ∈ rkey <$> reqs;
  gb_heads : length (bhead b) = length (bkeys b);
  gb_next : length (bnext b) = length reqs;
  gb_slots : bslots b = rslot <$> reqs;
  gb_chain at_ k h : bkeys b !! at_ = Some k → bhead b !! at_ = Some h →
    if decide (k ∈ srv) then h = -1 else 0 ≤ h ∧ chain (bnext b) (bslots b) h (waiters reqs k);
  gb_index g : bindex b = Some g → ∀ k, g k = Z.of_nat <$> posOf (bkeys b) k
}.

Lemma resetBatch_rep b : batch_rep [] [] (resetBatch b).
Proof.
  split; cbn; try done; try (by apply NoDup_nil_2). intros g Hg k. destruct (bindex b); [|done]. by injection Hg as <-.
Qed.

Lemma lookupKey_spec srv reqs b k : batch_rep srv reqs b → lookupKey b k = Z.of_nat <$> posOf (bkeys b) k.
Proof.
  intros [Hsm _ Hfew _ _ _ _ _ Hi]. unfold lookupKey. destruct (bindex b) as [g|]; [by apply Hi|].
  pose proof (posOf_lookup (bkeys b) k) as Hp. unfold posOf in *.
  destruct (list_find _ _) as [[i x]|]; [|done]. cbn in *. f_equal. specialize (Hp i eq_refl). apply lookup_lt_Some in Hp.
  apply i32_small. lia.
Qed.

Lemma addReq_rep reqs b req :
  batch_rep [] reqs b → Z.of_nat (length reqs) + 1 < 2 ^ 31 → batch_rep [] (reqs ++ [req]) (addReq b req).
Proof.
  intros Hb Hsm. pose proof Hb as [_ Hnd Hfew Hkeys Hheads Hnext Hslots Hchain Hi].
  assert (length (bslots b) = length reqs) as Hsl by by rewrite Hslots, length_fmap.
  unfold addReq. rewrite (lookupKey_spec [] reqs) by done. rewrite i32_small, Hsl by lia.
  assert (∀ t l, chain (bnext b) (bslots b) t l →
    chain (bnext b ++ [t]) (bslots b ++ [rslot req]) (Z.of_nat (length reqs)) (rslot req :: l)) as Hlink.
  { intros t l Hc. apply (chain_link _ _ _ _ t); [by rewrite <- Hsl, list_lookup_middle|by rewrite <- Hnext, list_lookup_middle|].
    by apply chain_grow. }
  destruct (posOf (bkeys b) (rkey req)) as [j|] eqn:Ep; cbn [fmap option_fmap option_map].
  - pose proof (posOf_lookup _ _ _ Ep) as Hj. destruct (lookup_lt_is_Some_2 (bhead b) j) as [h Hh]; [rewrite Hheads; by eapply lookup_lt_Some|].
    rewrite Nat2Z.id, Hh. split; cbn [bkeys bhead bnext bslots bindex default from_option]; rewrite ?length_app, ?length_insert; cbn [length]; try done; try lia.
    + intros k. rewrite fmap_app, elem_of_app, <- Hkeys. split; [by left|]. intros [?|Hk%list_elem_of_singleton]; [done|]. subst k.
      by eapply list_elem_of_lookup_2.
    + by rewrite Hslots, fmap_app.
    + intros at_ k h' Hk Hh'. rewrite decide_False by set_solver. rewrite waiters_snoc.
      apply list_lookup_insert_Some in Hh' as [(<- & <- & _)|[Hne Hh']].
      * assert (k = rkey req) as -> by congruence. rewrite decide_True by done. split; [lia|]. apply Hlink.
        specialize (Hchain j (rkey req) h Hj Hh). rewrite decide_False in Hchain by set_solver. apply Hchain.
      * rewrite decide_False by (intros <-; apply Hne; eapply NoDup_lookup; done).
        specialize (Hchain at_ k h' Hk Hh'). rewrite decide_False in Hchain by set_solver. destruct Hchain. split; [done|by apply chain_grow].
  - assert (rkey req ∉ bkeys b) as Hni by by apply posOf_None.
    split; cbn [bkeys bhead bnext bslots bindex]; rewrite ?length_app; cbn [length]; try done; try lia.
    + apply NoDup_app. split_and!; [done|set_solver|apply NoDup_singleton].
    + intros k. rewrite fmap_app, !elem_of_app, Hkeys. done.
    + by rewrite Hslots, fmap_app.
    + intros at_ k h' Hk Hh'. rewrite decide_False by set_solver. rewrite waiters_snoc.
      apply lookup_app_Some in Hk as [Hk|[Hge Hk]].
      * rewrite lookup_app_l in Hh' by (rewrite Hheads; by eapply lookup_lt_Some).
        rewrite decide_False by (intros <-; apply Hni; by eapply list_elem_of_lookup_2).
        specialize (Hchain at_ k h' Hk Hh'). rewrite decide_False in Hchain by set_solver. destruct Hchain. split; [done|by apply chain_grow].
      * apply list_lookup_singleton_Some in Hk as [Ha <-]. rewrite decide_True by done.
        rewrite lookup_app_r in Hh' by lia. apply list_lookup_singleton_Some in Hh' as [_ <-]. split; [lia|].
        apply Hlink. assert (ofKey rkey reqs (rkey req) = []) as Hno.
        { unfold ofKey. destruct (filter _ reqs) as [|r l] eqn:Ef; [done|]. exfalso.
          assert (r ∈ filter (λ a, rkey a = rkey req) reqs) as [Hr Hin]%list_elem_of_filter by (rewrite Ef; left).
          apply Hni, Hkeys. rewrite <- Hr. by apply list_elem_of_fmap_2. }
        unfold waiters. rewrite Hno. by constructor.
    + intros g Hg k. unfold indexKey in Hg. rewrite posOf_snoc. destruct (bindex b) as [g0|] eqn:Eg.
      * injection Hg as <-. unfold upd. rewrite length_app, (Hi g0 eq_refl). cbn [length].
        destruct (decide (k = rkey req)) as [->|Hne].
        -- rewrite Ep, decide_True by done. cbn. f_equal. rewrite i32_small; lia.
        -- rewrite (decide_False (P := rkey req = k)) by congruence. by destruct (posOf (bkeys b) k).
      * case_match; [done|]. injection Hg as <-. unfold upd at 1. rewrite length_app. cbn [length].
        rewrite Nat.add_sub, take_app_length. destruct (decide (k = rkey req)) as [->|Hne].
        -- rewrite Ep, decide_True by done. cbn. f_equal. rewrite i32_small; lia.
        -- rewrite (decide_False (P := rkey req = k)) by congruence. rewrite index_all by (done || lia). by destruct (posOf (bkeys b) k).
Qed.
End Rep.

(** ** Settling *)

Section Settle.
Context {K V P L E : Type} `{!EqDecision K} `{!GoType K} `{!GoType V}.
Context `{!EvictionPolicy K V P} `{!PolicyLaws K V P} `{!L2Cache K V L E}.
Abbreviation W := (World K V P L E).
Abbreviation answer := (V * bool * option E)%type.
Abbreviation Pool := (Pool (K := K) (V := V) (E := E)).
Implicit Types (w : W) (p : Pool) (b : getBatch K) (k : K) (reqs : list (asyncGet K)) (srv : list K) (A : K → answer).

(** The settlements of a list of slots, in order. *)
Definition settleAll (l : list (nat * answer)) (s : Slots V E) : Slots V E :=
  foldl (λ s '(id, (v, found, err)), settle id v found err s) s l.

Lemma settleAll_app l1 l2 s : settleAll (l1 ++ l2) s = settleAll l2 (settleAll l1 s).
Proof. apply foldl_app. Qed.

Lemma settleLoop_spec b v found err h l :
  chain (bnext b) (bslots b) h l → ∀ fuel n s, (length l ≤ fuel)%nat →
  settleLoop fuel b h v found err n s = Some (n + Z.of_nat (length l), settleAll ((λ id, (id, (v, found, err))) <$> l) s).
Proof.
  induction 1 as [h Hneg|i id t l Hs Hn _ IH]; intros fuel n s Hf.
  - destruct fuel; cbn [settleLoop]; rewrite (proj2 (Z.ltb_lt h 0)) by done; cbn; by rewrite Z.add_0_r.
  - destruct fuel as [|fuel]; cbn [length] in Hf; [lia|]. cbn [settleLoop]. rewrite (proj2 (Z.ltb_ge _ 0)) by lia.
    rewrite Nat2Z.id, Hs, Hn, IH by lia. f_equal. f_equal. cbn [length]. lia.
Qed.

Definition tagged A reqs k : list (nat * answer) := (λ id, (id, A k)) <$> waiters reqs k.

(** The keys [srv] of the batch were served, in this order, with the answers [A]. *)
Record serving A reqs (s0 : Slots V E) srv b (s : Slots V E) : Prop := {
  sg_rep : batch_rep srv reqs b;
  sg_nodup : NoDup srv;
  sg_in k : k ∈ srv → k ∈ bkeys b;
  sg_slots : s = settleAll (concat (tagged A reqs <$> srv)) s0
}.

Lemma waiters_length reqs k : (length (waiters reqs k) ≤ length reqs)%nat.
Proof. unfold waiters, ofKey. rewrite length_reverse, length_fmap. apply length_filter. Qed.

Definition withSlots p (s : Slots V E) : Pool := mkPool s (gqueue p) (gstate p).

Lemma settleKey_spec A reqs s0 srv b w p (at_ : nat) k v found err :
  serving A reqs s0 srv b (gslots p) → bkeys b !! at_ = Some k → k ∉ srv → A k = (v, found, err) →
  ∃ n b' s', settleKey b (Z.of_nat at_) v found err (w, p) = Some ((n, b'), (w, withSlots p s')) ∧
    serving A reqs s0 (srv ++ [k]) b' s' ∧ bkeys b' = bkeys b ∧ bindex b' = bindex b ∧ length (bhead b') = length (bhead b).
Proof.
  intros [Hb Hnd Hin Hs] Hk Hni HA. pose proof Hb as [Hsm Hkn Hfew Hkeys Hheads Hnext Hslots Hchain Hi].
  destruct (lookup_lt_is_Some_2 (bhead b) at_) as [h Hh]; [rewrite Hheads; by eapply lookup_lt_Some|].
  pose proof (Hchain at_ k h Hk Hh) as Hc. rewrite decide_False in Hc by done. destruct Hc as [_ Hc].
  unfold settleKey. rewrite Nat2Z.id, Hh. cbn [default from_option]. unfold Datatypes.id.
  rewrite (settleLoop_spec b v found err h (waiters reqs k) Hc).
  2:{ rewrite Hslots, length_fmap. apply waiters_length. }
  eexists _, _, _. split; [reflexivity|]. split_and!; cbn [bkeys bhead bindex]; try done; [|by rewrite length_insert].
  split; [split| | |]; cbn [bkeys bhead bnext bslots bindex]; try done.
  - by rewrite length_insert.
  - intros at' k' h' Hk' Hh'. apply list_lookup_insert_Some in Hh' as [(<- & <- & _)|[Hne Hh']].
    + rewrite decide_True; [done|]. assert (k' = k) as -> by congruence. set_solver.
    + specialize (Hchain at' k' h' Hk' Hh'). assert (k' ≠ k) as Hkk by (intros ->; apply Hne; eapply NoDup_lookup; done).
      destruct (decide (k' ∈ srv)) as [Hi1|Hi1]; [rewrite decide_True by set_solver|rewrite decide_False by set_solver]; done.
  - apply NoDup_app. split_and!; [done|set_solver|apply NoDup_singleton].
  - intros k' [?|Hk'%list_elem_of_singleton]%elem_of_app; [by apply Hin|]. subst k'. by eapply list_elem_of_lookup_2.
  - rewrite fmap_app, concat_app, settleAll_app, <- Hs. cbn. by rewrite app_nil_r, <- HA.
Qed.

(** An open key has a chain. *)
Lemma serving_open A reqs s0 srv b s at_ k :
  serving A reqs s0 srv b s → bkeys b !! at_ = Some k → (0 <=? default (-1) (bhead b !! at_)) = negb (bool_decide (k ∈ srv)).
Proof.
  intros [Hb _ _ _] Hk. destruct (lookup_lt_is_Some_2 (bhead b) at_) as [h Hh]; [rewrite (gb_heads _ _ _ Hb); by eapply lookup_lt_Some|].
  rewrite Hh. pose proof (gb_chain _ _ _ Hb at_ k h Hk Hh) as Hc. cbn [default from_option]. unfold Datatypes.id.
  destruct (decide (k ∈ srv)) as [Hi|Hi].
  - rewrite bool_decide_eq_true_2 by done. by subst h.
  - rewrite bool_decide_eq_false_2 by done. apply Z.leb_le, Hc.
Qed.

Lemma settleRest_spec A reqs s0 err ats : ∀ srv b w p n,
  serving A reqs s0 srv b (gslots p) → (∀ at_, at_ ∈ ats → (at_ < length (bkeys b))%nat) →
  (∀ k, k ∈ bkeys b → k ∉ srv → A k = (go_zero, false, err)) →
  ∃ n' b' s' srv', settleRestLoop ats b err n (w, p) = Some ((n', b'), (w, withSlots p s')) ∧
    serving A reqs s0 srv' b' s' ∧ bkeys b' = bkeys b ∧ (∀ k, k ∈ srv' ↔ k ∈ srv ∨ ∃ at_, at_ ∈ ats ∧ bkeys b !! at_ = Some k).
Proof.
  induction ats as [|at_ ats IH]; intros srv b w p n Hs Hlt HA; cbn [settleRestLoop].
  - exists n, b, (gslots p), srv. split_and!; try done; [by destruct p|]. intros k. split; [by left|]. intros [?|(? & ?%elem_of_nil & _)]; done.
  - destruct (lookup_lt_is_Some_2 (bkeys b) at_) as [k Hk]; [apply Hlt; left|].
    rewrite (serving_open A reqs s0 srv b _ at_ k Hs Hk). case_bool_decide as Hin; cbn [negb].
    + destruct (IH srv b w p n Hs) as (n' & b' & s' & srv' & E1 & Hs' & Hk' & Hsrv); [intros a Ha; apply Hlt; by right|done|].
      exists n', b', s', srv'. split_and!; try done. intros k'. rewrite Hsrv. split; [intros [?|(a & ? & ?)]; [by left|right; exists a; split; [by right|done]]|].
      intros [?|(a & [->|Ha]%elem_of_cons & Hka)]; [by left|left; congruence|right; by exists a].
    + assert (k ∈ bkeys b) as Hkin by by eapply list_elem_of_lookup_2.
      destruct (settleKey_spec A reqs s0 srv b w p at_ k go_zero false err Hs Hk Hin) as (n1 & b1 & s1 & E1 & Hs1 & Hk1 & _ & _); [by apply HA|].
      pose proof (gb_few _ _ _ (sg_rep _ _ _ _ _ _ Hs)). pose proof (gb_small _ _ _ (sg_rep _ _ _ _ _ _ Hs)).
      rewrite i32_small by (apply lookup_lt_Some in Hk; lia). unfold mbind, M_bind. rewrite E1.
      destruct (IH (srv ++ [k]) b1 w (withSlots p s1) (n + n1)) as (n' & b' & s' & srv' & E2 & Hs' & Hk' & Hsrv).
      { done. } { intros a Ha. rewrite Hk1. apply Hlt. by right. } { intros k' Hk' Hn. rewrite Hk1 in Hk'. apply HA; set_solver. }
      exists n', b', s', srv'. split_and!; try done; [congruence|]. intros k'. rewrite Hsrv, Hk1, elem_of_app, list_elem_of_singleton. split.
      * intros [[?| ->]|(a & ? & ?)]; [by left|right; exists at_; split; [by left|done]|right; exists a; split; [by right|done]].
      * intros [?|(a & [->|Ha]%elem_of_cons & Hka)]; [by left; left|left; right; congruence|right; by exists a].
Qed.

Context (hash : K → Z) (c : Consts K V).

Lemma settleHits_spec A reqs s0 fromL2 : ∀ srv b w p n,
  cache_inv hash c w → serving A reqs s0 srv b (gslots p) →
  (∀ pre k v post, fromL2 = pre ++ (k, v) :: post → k ∈ bkeys b → k ∉ srv → k ∉ pre.*1 → A k = (v, true, None)) →
  ∃ n' b' w' s' srv', settleHits hash c fromL2 b n (w, p) = Some ((n', b'), (w', withSlots p s')) ∧ cache_inv hash c w' ∧
    serving A reqs s0 srv' b' s' ∧ bkeys b' = bkeys b ∧
    (∀ k, k ∈ srv' ↔ k ∈ srv ∨ k ∈ bkeys b ∧ k ∈ fromL2.*1).
Proof.
  induction fromL2 as [|[k v] fromL2 IH]; intros srv b w p n Hw Hs HA; cbn [settleHits].
  - exists n, b, w, (gslots p), srv. split_and!; try done; [by destruct p|]. intros k. split; [by left|]. intros [?|[_ ?%elem_of_nil]]; done.
  - rewrite (lookupKey_spec srv reqs) by apply Hs.
    assert (∀ pre k' v' post, fromL2 = pre ++ (k', v') :: post → k' ∈ bkeys b → k' ∉ srv → k' ≠ k → k' ∉ pre.*1 → A k' = (v', true, None)) as HA'.
    { intros pre k' v' post -> Hin Hns Hne Hnp. apply (HA ((k, v) :: pre) k' v' post); try done. cbn. set_solver. }
    assert (k ∉ bkeys b ∨ k ∈ srv → ∃ n' b' w' s' srv', settleHits hash c fromL2 b n (w, p) = Some ((n', b'), (w', withSlots p s')) ∧
      cache_inv hash c w' ∧ serving A reqs s0 srv' b' s' ∧ bkeys b' = bkeys b ∧
      (∀ k', k' ∈ srv' ↔ k' ∈ srv ∨ k' ∈ bkeys b ∧ k' ∈ ((k, v) :: fromL2).*1)) as Hskip.
    { intros Hk. destruct (IH srv b w p n Hw Hs) as (n' & b' & w' & s' & srv' & E1 & Hw' & Hs' & Hk' & Hsrv).
      { intros pre k' v' post Heq Hin Hns Hnp. apply (HA' pre k' v' post); try done. intros ->. tauto. }
      exists n', b', w', s', srv'. split_and!; try done. intros k'. rewrite Hsrv, fmap_cons, elem_of_cons. cbn. destruct (decide (k' = k)) as [->|]; tauto. }
    destruct (posOf (bkeys b) k) as [at_|] eqn:Ep; cbn [fmap option_fmap option_map]; [|apply Hskip; left; by apply posOf_None].
    pose proof (posOf_lookup _ _ _ Ep) as Hk. rewrite Nat2Z.id, (serving_open A reqs s0 srv b _ at_ k Hs Hk).
    case_bool_decide as Hin; cbn [negb]; [apply Hskip; by right|].
    assert (k ∈ bkeys b) as Hkin by by eapply list_elem_of_lookup_2.
    unfold settleHit. rewrite Nat2Z.id, Hk.
    destruct (safe_storeMemory hash c k v w Hw) as ([] & w1 & E1 & Hw1).
    destruct (settleKey_spec A reqs s0 srv b w1 p at_ k v true None Hs Hk Hin) as (n1 & b1 & s1 & E2 & Hs1 & Hk1 & _ & _).
    { apply (HA [] k v fromL2); try done. set_solver. }
    unfold mbind, M_bind, onCache. rewrite E1, E2.
    destruct (IH (srv ++ [k]) b1 w1 (withSlots p s1) (n + n1) Hw1 Hs1) as (n' & b' & w' & s' & srv' & E3 & Hw' & Hs' & Hk' & Hsrv).
    { intros pre k' v' post Heq Hin' Hns Hnp. rewrite Hk1 in Hin'. apply (HA' pre k' v' post); try done; set_solver. }
    exists n', b', w', s', srv'. split_and!; try done; [congruence|]. intros k'. rewrite Hsrv, Hk1, elem_of_app, list_elem_of_singleton, fmap_cons, elem_of_cons. cbn.
    destruct (decide (k' = k)) as [->|]; tauto.
Qed.

(** A batch that is served has settled each of its requests once. *)
Lemma served_perm A reqs s0 srv b s :
  serving A reqs s0 srv b s → (∀ k, k ∈ bkeys b → k ∈ srv) →
  ∃ l, s = settleAll l s0 ∧ l ≡ₚ (λ req, (rslot req, A (rkey req))) <$> reqs.
Proof.
  intros [Hb Hnd Hin ->] Hall. eexists. split; [done|].
  transitivity ((λ req, (rslot req, A (rkey req))) <$> concat (ofKey rkey reqs <$> srv)).
  - clear Hin Hall Hnd Hb. induction srv as [|k srv IH]; [done|]. cbn. rewrite fmap_app. f_equiv; [|exact IH].
    unfold tagged, waiters. rewrite <- reverse_Permutation, fmap_reverse, reverse_involutive, <- list_fmap_compose.
    apply Permutation_refl', list_fmap_ext. intros i req Hi. cbn. f_equal.
    assert (req ∈ ofKey rkey reqs k) as [<- _]%list_elem_of_filter by (by eapply list_elem_of_lookup_2). done.
  - apply fmap_Permutation, groups_perm; [done|]. intros req Hr. apply Hall, (gb_keys _ _ _ Hb). by apply list_elem_of_fmap_2.
Qed.

End Settle.
