(* ===== verification/GetBatchedTheorems.v ===== *)
(** * Coalesced reads are answered once each

    A turn of a worker of the read pool: what it takes off the queue, what it asks the second level, and
    what it settles. *)

From S2P Require Import Prelude Item Table Policy ClockPolicy Shard GetMemory ShardSpec ShardTheorems Config Stats CacheState CacheLaws WriteBack WriteBackSteps CacheOps WriteThrough Batch BatchTheorems Flight Loads LoadTheorems GetBatched.

Section Turn.
Context {K V P L E : Type} `{!EqDecision K} `{!GoType K} `{!GoType V}.
Context `{!EvictionPolicy K V P} `{!PolicyLaws K V P} `{!L2Cache K V L E}.
Context (hash : K → Z) (c : Consts K V).
Abbreviation W := (World K V P L E).
Abbreviation answer := (V * bool * option E)%type.
Abbreviation Pool := (Pool (K := K) (V := V) (E := E)).
Implicit Types (w : W) (p : Pool) (b : getBatch K) (k : K) (reqs taken : list (asyncGet K)).

(** The first value a list has for a key. *)
Definition firstFor (l : list (K * V)) k : option V := snd <$> (snd <$> list_find (λ kv, kv.1 = k) l).

Lemma firstFor_at pre k v post : k ∉ pre.*1 → firstFor (pre ++ (k, v) :: post) k = Some v.
Proof.
  intros Hn. unfold firstFor. induction pre as [|[k0 v0] pre IH]; cbn; [by rewrite decide_True|].
  apply not_elem_of_cons in Hn as [Hne Hn]. rewrite decide_False by (cbn in *; congruence). specialize (IH Hn).
  destruct (list_find _ (pre ++ _)) as [[i x]|]; [|done]. done.
Qed.

Lemma firstFor_none (l : list (K * V)) k : k ∉ l.*1 → firstFor l k = None.
Proof.
  intros Hn. unfold firstFor. induction l as [|[k0 v0] l IH]; [done|]. cbn. apply not_elem_of_cons in Hn as [Hne Hn].
  rewrite decide_False by (cbn in *; congruence). specialize (IH Hn). destruct (list_find _ l) as [[i x]|]; [|done]. done.
Qed.

Context (thrown : L → list K → option (L * E)).

(** What the second level has to say about a key of a batch that missed memory, if it returns. *)
Definition respondCalm (l : L) (ks : list K) k : answer :=
  match ks with
  | [k0] => let '(r, err) := (l2Get l k0).2 in match r with Some v => (v, true, None) | None => (go_zero, false, err) end
  | _ =>
    let '(fromL2, err) := (l2BatchGet l ks).2 in
    match err with
    | Some _ => (go_zero, false, err)
    | None => match firstFor fromL2 k with Some v => (v, true, None) | None => (go_zero, false, None) end
    end
  end.

(** And if it may panic. *)
Definition respond (l : L) (ks : list K) k : answer :=
  match thrown l ks with Some (_, err) => (go_zero, false, Some err) | None => respondCalm l ks k end.

Lemma onCache_run {A} (m : M W A) w a w' p : m w = Some (a, w') → onCache m (w, p) = Some (a, (w', p)).
Proof. intros E1. unfold onCache. by rewrite E1. Qed.

Lemma cache_quiet (m : M W ()) w p :
  safe hash c m → cache_inv hash c w → ∃ w', onCache m (w, p) = Some ((), (w', p)) ∧ cache_inv hash c w'.
Proof. intros Hm Hw. destruct (Hm w Hw) as ([] & w' & E1 & Hw'). exists w'. split; [|done]. unfold onCache. by rewrite E1. Qed.

Lemma fresh_serving A reqs b (s : Slots V E) : batch_rep [] reqs b → serving A reqs s [] b s.
Proof. intros Hb. split; [done|by apply NoDup_nil_2|by intros ? ?%elem_of_nil|done]. Qed.

(** The keys nobody answered for. *)
Lemma settleRest_all A reqs s0 srv b w p err :
  serving A reqs s0 srv b (gslots p) → (∀ k, k ∈ bkeys b → k ∉ srv → A k = (go_zero, false, err)) →
  ∃ n b' s', settleRest b err (w, p) = Some ((n, b'), (w, withSlots p s')) ∧
    ∃ l, s' = settleAll l s0 ∧ l ≡ₚ (λ req, (rslot req, A (rkey req))) <$> reqs.
Proof.
  intros Hs HA. pose proof (gb_heads _ _ _ (sg_rep _ _ _ _ _ _ Hs)) as Hh. unfold settleRest.
  destruct (settleRest_spec A reqs s0 err (seq 0 (length (bhead b))) srv b w p 0 Hs) as (n & b' & s' & srv' & E1 & Hs' & Hk & Hsrv); [|done|].
  { intros a Ha%elem_of_seq. lia. }
  exists n, b', s'. split; [done|]. eapply served_perm; [exact Hs'|]. intros k Hin. rewrite Hk in Hin. apply Hsrv. right.
  apply list_elem_of_lookup in Hin as [a Ha]. exists a. split; [|done]. apply elem_of_seq. apply lookup_lt_Some in Ha. lia.
Qed.

Lemma answerBatch_spec reqs b w p :
  cache_inv hash c w → batch_rep [] reqs b →
  ∃ w' s', answerBatch hash c b (w, p) = Some ((), (w', withSlots p s')) ∧ cache_inv hash c w' ∧
    ∃ l, s' = settleAll l (gslots p) ∧ l ≡ₚ (λ req, (rslot req, respondCalm (wL2 w) (bkeys b) (rkey req))) <$> reqs.
Proof.
  intros Hw Hb. set (A := respondCalm (wL2 w) (bkeys b)). pose proof (fresh_serving A reqs b (gslots p) Hb) as Hs.
  assert (∀ g n w1 p1, cache_inv hash c w1 → ∃ w2, onCache (stat g n) (w1, p1) = Some ((), (w2, p1)) ∧ cache_inv hash c w2) as Hstat.
  { intros g n w1 p1 Hw1. by apply cache_quiet; [apply safe_stat|]. }
  assert (∀ s', cache_inv hash c (withL2 w s')) as Hw1 by (intros s'; by apply (cache_inv_same _ _ w)).
  unfold answerBatch. destruct (bkeys b) as [|k0 [|k1 ks]] eqn:Ek.
  - exists w, (gslots p). split_and!; [by destruct p|done|]. exists []. split; [done|].
    destruct reqs as [|r reqs]; [done|]. exfalso. pose proof (proj2 (gb_keys _ _ _ Hb (rkey r))) as Hin. rewrite Ek in Hin.
    apply (elem_of_nil (rkey r)), Hin. left.
  - assert (A k0 = let '(r, err) := (l2Get (wL2 w) k0).2 in
      match r with Some v => (v, true, None) | None => (go_zero, false, err) end) as HA0 by done.
    destruct (l2Get (wL2 w) k0) as [l' [r err]] eqn:El. cbn [snd] in HA0.
    unfold mbind, M_bind. rewrite (onCache_run (callL2 (λ l, l2Get l k0)) w (r, err) (withL2 w l') p) by (unfold callL2; by rewrite El).
    destruct r as [v|].
    + unfold settleHit. rewrite Ek. change ([k0] !! Z.to_nat 0) with (Some k0). cbv iota.
      destruct (safe_storeMemory hash c k0 v (withL2 w l') (Hw1 l')) as ([] & w2 & E2 & Hw2).
      destruct (settleKey_spec A reqs (gslots p) [] b w2 p 0 k0 v true None Hs) as (n & b' & s' & E3 & Hs' & Hk' & _); [by rewrite Ek|set_solver|done|].
      unfold mbind, M_bind. rewrite (onCache_run _ _ _ _ p E2). change (Z.of_nat 0) with 0 in E3. rewrite E3.
      destruct (Hstat addL2Hits n w2 (withSlots p s') Hw2) as (w3 & -> & Hw3). exists w3, s'. split_and!; [done|done|].
      eapply served_perm; [exact Hs'|]. rewrite Hk', Ek. set_solver.
    + destruct (settleRest_all A reqs (gslots p) [] b (withL2 w l') p err Hs) as (n & b' & s' & E3 & Hl).
      { rewrite Ek. intros k Hk _. apply list_elem_of_singleton in Hk as ->. done. }
      rewrite E3. destruct (Hstat addL2Misses n _ (withSlots p s') (Hw1 l')) as (w3 & -> & Hw3). by exists w3, s'.
  - assert (∀ k, A k = let '(fromL2, err) := (l2BatchGet (wL2 w) (k0 :: k1 :: ks)).2 in
      match err with
      | Some _ => (go_zero, false, err)
      | None => match firstFor fromL2 k with Some v => (v, true, None) | None => (go_zero, false, None) end
      end) as HA0 by done.
    destruct (l2BatchGet (wL2 w) (k0 :: k1 :: ks)) as [l' [fromL2 err]] eqn:El. cbn [snd] in HA0.
    unfold mbind, M_bind. rewrite (onCache_run (callL2 (λ l, l2BatchGet l (k0 :: k1 :: ks))) w (fromL2, err) (withL2 w l') p) by (unfold callL2; by rewrite El).
    destruct err as [err|].
    + destruct (settleRest_all A reqs (gslots p) [] b (withL2 w l') p (Some err) Hs) as (n & b' & s' & E3 & Hl); [intros k _ _; by rewrite HA0|].
      rewrite E3. destruct (Hstat addL2Misses n _ (withSlots p s') (Hw1 l')) as (w3 & -> & Hw3). by exists w3, s'.
    + destruct (settleHits_spec hash c A reqs (gslots p) fromL2 [] b (withL2 w l') p 0 (Hw1 l') Hs) as (n & b' & w2 & s2 & srv & E2 & Hw2 & Hs2 & Hk2 & Hsrv).
      { intros pre k v post -> _ _ Hn. by rewrite HA0, firstFor_at. }
      rewrite E2. destruct (Hstat addL2Hits n w2 (withSlots p s2) Hw2) as (w3 & -> & Hw3).
      destruct (settleRest_all A reqs (gslots p) srv b' w3 (withSlots p s2) None Hs2) as (n' & b'' & s3 & E3 & Hl).
      { intros k Hk Hns. rewrite HA0, firstFor_none; [done|]. intros Hin. apply Hns, Hsrv. right. by rewrite <- Hk2. }
      rewrite E3. destruct (Hstat addL2Misses n' w3 (withSlots p s3) Hw3) as (w4 & E4 & Hw4). exists w4, s3. split_and!; [exact E4|done|done].
Qed.

Lemma resolveBatch_spec reqs b w p :
  cache_inv hash c w → batch_rep [] reqs b →
  ∃ w' s', resolveBatch hash c thrown b (w, p) = Some ((), (w', withSlots p s')) ∧ cache_inv hash c w' ∧
    ∃ l, s' = settleAll l (gslots p) ∧ l ≡ₚ (λ req, (rslot req, respond (wL2 w) (bkeys b) (rkey req))) <$> reqs.
Proof.
  intros Hw Hb. destruct (answerBatch_spec reqs b w p Hw Hb) as (w1 & s1 & E1 & Hw1 & l1 & Hs1 & Hl1).
  unfold resolveBatch, respond. destruct (bkeys b) as [|k0 ks] eqn:Ek.
  { exists w1, s1. split_and!; [done|done|]. exists l1. split; [done|]. destruct reqs as [|r reqs]; [done|]. exfalso.
    pose proof (proj2 (gb_keys _ _ _ Hb (rkey r))) as Hin. rewrite Ek in Hin. apply (elem_of_nil (rkey r)), Hin. left. }
  destruct (thrown (wL2 w) (k0 :: ks)) as [[l' err]|]; [|by exists w1, s1; split_and!; [..|exists l1]].
  set (A := λ _ : K, (go_zero, false, Some err) : answer).
  destruct (settleRest_all A reqs (gslots p) [] b (withL2 w l') p (Some err) (fresh_serving A reqs b (gslots p) Hb)) as (n & b' & s' & E3 & Hl); [done|].
  exists (withL2 w l'), s'. split_and!; [|by apply (cache_inv_same _ _ w)|exact Hl]. unfold recoverBatch, mbind, M_bind. by rewrite E3.
Qed.

(** ** Collecting *)

Hypothesis Hfresh : fresh_ttl c.

(** What memory answers for a key at the start of the turn. *)
Definition atStart w k : option V := ans (envOf c w) (mem hash c w k).

Definition hitSettles w taken : list (nat * answer) :=
  omap (λ req, (λ v, (rslot req, (v, true, None))) <$> atStart w (rkey req)) taken.

Definition missed w taken : list (asyncGet K) := filter (λ req, atStart w (rkey req) = None) taken.

(** [taken] was taken off the queue [q0]; the hits were settled and the rest filed. *)
Record collected w0 (p0 : Pool) q0 taken b (s : W * Pool) : Prop := {
  cl_served : served hash c w0 (rkey <$> taken) s.1;
  cl_queue : taken ++ gqueue s.2 = q0;
  cl_state : gstate s.2 = gstate p0;
  cl_slots : gslots s.2 = settleAll (hitSettles w0 taken) (gslots p0);
  cl_rep : batch_rep [] (missed w0 taken) b;
  cl_few : (length (bkeys b) ≤ GetBatchMax)%nat
}.

Lemma served_stats w0 ks w (g : Stats → Z → Stats) n : served hash c w0 ks w → served hash c w0 ks (withStats w (g (wStats w) n)).
Proof. intros [Hi [] Hm]. split; [by apply (cache_inv_same _ _ w)|by split|done]. Qed.

(** One request is filed or settled. *)
Lemma collect_spec w0 p0 q0 taken b w (p : Pool) req :
  cache_inv hash c w0 → Z.of_nat (length q0) < 2 ^ 31 → (length (bkeys b) < GetBatchMax)%nat →
  collected w0 p0 q0 taken b (w, mkPool (gslots p) (req :: gqueue p) (gstate p)) →
  runs (collect hash c b req) (w, p) (collected w0 p0 q0 (taken ++ [req])).
Proof.
  intros Hinv Hq Hroom [Hsv Hqu Hst Hsl Hrep Hfew]. cbn [fst snd gslots gqueue gstate] in *. unfold collect. apply runs_bind.
  destruct (singles_spec hash c Hfresh w [rkey req] (sv_inv _ _ _ _ _ Hsv)) as (rs & w1 & E1 & Hrs & Hs1).
  cbn [collectM] in E1. unfold mbind, M_bind in E1. destruct (cGetMemory hash c (rkey req) w) as [[r w1']|] eqn:Eg; [|done].
  injection E1 as <- <-. rewrite (served_answers hash c Hfresh w0 (rkey <$> taken) w) in Hrs by done. injection Hrs as Hr.
  pose proof (served_app hash c Hfresh _ _ _ _ _ Hinv Hsv Hs1) as Hs2. replace ((rkey <$> taken) ++ [rkey req]) with (rkey <$> taken ++ [req]) in Hs2 by by rewrite fmap_app.
  exists r, (w1', p). split; [by apply onCache_run|]. change (r = atStart w0 (rkey req)) in Hr.
  assert (length taken < length q0)%nat as Hlen by (rewrite <- Hqu, length_app; cbn; lia).
  destruct r as [v|].
  - apply runs_bind. eexists (), _. split; [by apply onCache_run|]. apply runs_bind. eexists (), _. split; [reflexivity|]. apply runs_ret.
    split; cbn [fst snd gslots gqueue gstate]; try done.
    + by apply served_stats.
    + by rewrite <- app_assoc.
    + unfold hitSettles. rewrite omap_app, settleAll_app. cbn. by rewrite <- Hr, Hsl.
    + unfold missed. rewrite filter_app, filter_cons_False by (by rewrite <- Hr). by rewrite app_nil_r.
  - apply runs_ret. split; cbn [fst snd gslots gqueue gstate]; try done.
    + by rewrite <- app_assoc.
    + unfold hitSettles. rewrite omap_app. cbn. rewrite <- Hr. cbn. by rewrite app_nil_r.
    + unfold missed. rewrite filter_app, filter_cons_True by done. apply addReq_rep; [done|].
      pose proof (length_filter (λ req, atStart w0 (rkey req) = None) taken) as Hf. unfold missed. lia.
    + unfold addReq. destruct (lookupKey b (rkey req)); cbn [bkeys]; [done|]. rewrite length_app. cbn. lia.
Qed.

Lemma drainLoop_spec w0 p0 q0 fuel : ∀ taken b s,
  cache_inv hash c w0 → Z.of_nat (length q0) < 2 ^ 31 → collected w0 p0 q0 taken b s → (length (gqueue s.2) ≤ fuel)%nat →
  runs (drainLoop hash c fuel b) s (λ b' s', ∃ taken', taken `prefix_of` taken' ∧ collected w0 p0 q0 taken' b' s' ∧
    (gqueue s'.2 = [] ∨ length (bkeys b') = GetBatchMax)).
Proof.
  induction fuel as [|fuel IH]; intros taken b [w p] Hinv Hq Hc Hfuel; cbn [drainLoop];
    (destruct (Nat.leb_spec GetBatchMax (length (bkeys b))) as [Hle|Hlt];
      [apply runs_ret; exists taken; split_and!; [done|done|right; pose proof (cl_few _ _ _ _ _ _ Hc); lia]|]);
    cbn [snd] in Hfuel; apply runs_bind; unfold receive; destruct p as [gs [|req queue] gst]; cbn [gqueue length] in Hfuel; try lia;
    try (eexists _, _; split; [reflexivity|]; apply runs_ret; exists taken; split_and!; [done|done|by left]).
  eexists _, _. split; [reflexivity|]. cbv iota beta. apply runs_bind.
  eapply runs_mono; [by apply (collect_spec w0 p0 q0 taken b w (mkPool gs queue gst) req)|]. intros b' [w' p'] Hc'.
  eapply runs_mono; [apply (IH (taken ++ [req]) b' (w', p') Hinv Hq Hc')|].
  - pose proof (cl_queue _ _ _ _ _ _ Hc) as H1. pose proof (cl_queue _ _ _ _ _ _ Hc') as H2. cbn [snd gqueue] in *.
    rewrite <- H1, <- app_assoc in H2. apply app_inv_head in H2. cbn in H2. injection H2 as ->. lia.
  - intros b2 s2 (taken' & Hpre & H2 & H3). exists taken'. split_and!; [|done|done]. etrans; [|exact Hpre]. by eexists.
Qed.

(** The hits and the misses are all requests. *)
Definition reqAnswer w (ks : list K) k : answer :=
  match atStart w k with Some v => (v, true, None) | None => respond (wL2 w) ks k end.

Lemma hits_misses_perm w ks taken :
  hitSettles w taken ++ ((λ req, (rslot req, respond (wL2 w) ks (rkey req))) <$> missed w taken) ≡ₚ
  (λ req, (rslot req, reqAnswer w ks (rkey req))) <$> taken.
Proof.
  induction taken as [|req taken IH]; [done|]. unfold hitSettles, missed in *. cbn. unfold reqAnswer at 1.
  destruct (atStart w (rkey req)) as [v|] eqn:Ea; cbn.
  - rewrite decide_False by done. by rewrite IH.
  - rewrite decide_True by done. cbn. by rewrite <- Permutation_middle, IH.
Qed.

(** With a lawful second level that memory agrees with, the answer is the map's. *)
Lemma reqAnswer_map `{!L2Laws K V L E} w ks k :
  holds hash c (l2map (wL2 w)) w → (atStart w k = None → k ∈ ks) → thrown (wL2 w) ks = None →
  reqAnswer w ks k = match l2map (wL2 w) k with Some v => (v, true, None) | None => (go_zero, false, None) end.
Proof.
  intros Hh Hin Hcalm. unfold reqAnswer. destruct (atStart w k) as [v|] eqn:Ea.
  - rewrite (Hh k v); [done|]. unfold vals, atStart, ans in *. destruct (mem hash c w k) as [[v' e]|]; [|done]. cbn.
    by destruct (expiredAt e _); simplify_eq.
  - specialize (Hin eq_refl). unfold respond, respondCalm. rewrite Hcalm. destruct ks as [|k0 [|k1 ks]]; [by apply elem_of_nil in Hin|..].
    + apply list_elem_of_singleton in Hin as <-. pose proof (l2Get_laws (wL2 w) k) as Hl.
      destruct (l2Get (wL2 w) k) as [l' [r e]]. destruct Hl as (-> & -> & _). change (l2dec ∘ fst <$> l2rows (wL2 w) k) with (l2map (wL2 w) k). by destruct (l2map (wL2 w) k).
    + pose proof (l2BatchGet_laws (wL2 w) (k0 :: k1 :: ks)) as Hl. destruct (l2BatchGet (wL2 w) (k0 :: k1 :: ks)) as [l' [r e]].
      destruct Hl as (-> & _ & Hr). cbn [snd]. unfold firstFor. destruct (list_find _ r) as [[i [k' v]]|] eqn:Ef; cbn.
      * apply list_find_Some in Ef as (Hi & Hk & _). cbn in Hk. subst k'.
        assert ((k, v) ∈ r) as Hv by by eapply list_elem_of_lookup_2. apply Hr in Hv as [_ Hv]. unfold l2map. by rewrite Hv.
      * destruct (l2map (wL2 w) k) as [v|] eqn:Em; [|done]. exfalso. apply list_find_None in Ef. rewrite Forall_forall in Ef.
        by apply (Ef (k, v)); [apply Hr|].
Qed.

End Turn.

Section Coalesced.
Context {K V P L E : Type} `{!EqDecision K} `{!GoType K} `{!GoType V}.
Context `{!EvictionPolicy K V P} `{!PolicyLaws K V P} `{!L2Cache K V L E}.
Context (hash : K → Z) (c : Consts K V) (thrown : L → list K → option (L * E)).
Implicit Types (w : World K V P L E) (p : Pool (K := K) (V := V) (E := E)).

(** C40: Every coalesced read is answered once.  A turn of a worker returns, whatever the second level
    answers (errors, missing keys, keys nobody asked for, repeated keys) and also if it panics.  It takes a prefix of what is
    queued: all of it, unless [GetBatchMax] distinct keys missed memory.  The second level is asked once,
    for those distinct keys, and the slots are settled exactly once per request taken, each with the value
    memory had, or else the second level's value, miss, error or panic for its key; nothing else happens to any
    slot, and the cache invariant holds.  Over a lawful second level that memory agrees with and that returns, every request
    is answered what a single read of its key answers. *)
Theorem coalesced_reads_settled w p first b :
  cache_inv hash c w → (kRefreshOnGet c = true → 0 ≤ kTtlOff c ≤ ExpireMax - 2) →
  Z.of_nat (length (first :: gqueue p)) < 2 ^ 31 →
  ∃ taken rest ks w' s' l,
    serveBatch hash c thrown first b (w, p) = Some ((), (w', mkPool s' rest (gstate p))) ∧
    first :: gqueue p = taken ++ rest ∧ (rest = [] ∨ length ks = GetBatchMax) ∧
    NoDup ks ∧ (length ks ≤ GetBatchMax)%nat ∧ (∀ k, k ∈ ks ↔ k ∈ rkey <$> taken ∧ atStart hash c w k = None) ∧
    s' = settleAll l (gslots p) ∧ l ≡ₚ (λ req, (rslot req, reqAnswer hash c thrown w ks (rkey req))) <$> taken ∧
    cache_inv hash c w' ∧
    ∀ HL : L2Laws K V L E, thrown (wL2 w) ks = None → holds hash c (l2map (wL2 w)) w → ∀ req, req ∈ taken →
      reqAnswer hash c thrown w ks (rkey req) =
        match l2map (wL2 w) (rkey req) with Some v => (v, true, None) | None => (go_zero, false, None) end.
Proof.
  intros Hinv Ht Hlen. pose proof (fresh_ttl_bound c Ht) as Hfresh. set (q0 := first :: gqueue p) in *.
  assert (collected hash c w p q0 [] (resetBatch b) (w, mkPool (gslots p) q0 (gstate p))) as Hc0.
  { split; cbn [fst snd]; try done; try apply resetBatch_rep. cbn. lia. }
  destruct (collect_spec hash c Hfresh w p q0 [] (resetBatch b) w p first Hinv Hlen) as (b1 & s1 & E1 & Hc1); [cbn; unfold GetBatchMax; lia|done|].
  destruct (drainLoop_spec hash c Hfresh w p q0 (length (gqueue s1.2)) [first] b1 s1 Hinv Hlen Hc1 ltac:(lia)) as (b2 & [w2 p2] & E2 & taken & _ & Hc2 & Hend).
  destruct Hc2 as [Hsv Hqu Hst Hsl Hrep Hfew]. cbn [fst snd] in *.
  destruct (resolveBatch_spec hash c thrown (missed hash c w taken) b2 w2 p2 (sv_inv _ _ _ _ _ Hsv) Hrep) as (w3 & s3 & E3 & Hw3 & l & Hs3 & Hl).
  rewrite (mo_l2 _ _ (sv_only _ _ _ _ _ Hsv)) in Hl.
  assert (∀ k, k ∈ bkeys b2 ↔ k ∈ rkey <$> taken ∧ atStart hash c w k = None) as Hks.
  { intros k. rewrite (gb_keys _ _ _ Hrep). unfold missed. split.
    - intros (req & -> & [Ha Hin]%list_elem_of_filter)%list_elem_of_fmap. split; [by apply list_elem_of_fmap_2|done].
    - intros [(req & -> & Hin)%list_elem_of_fmap Ha]. apply list_elem_of_fmap_2. by apply list_elem_of_filter. }
  exists taken, (gqueue p2), (bkeys b2), w3, s3, (hitSettles hash c w taken ++ l). split_and!; try done.
  - unfold serveBatch, mbind, M_bind. rewrite E1. unfold onPool at 1. destruct s1 as [w1 p1]. cbn [snd] in E2. rewrite E2, E3. by rewrite <- Hst.
  - by apply Hrep.
  - by rewrite settleAll_app, <- Hsl.
  - by rewrite Hl, hits_misses_perm.
  - intros HL Hcalm Hh req Hin. apply reqAnswer_map; [done| |done]. intros Ha. apply Hks. split; [by apply list_elem_of_fmap_2|done].
Qed.
End Coalesced.

(** ** An instance: five reads, two of one key, over a second level that holds one of the keys *)

Definition cbPool : Pool (K := Z) (V := Z) (E := Z) :=
  mkPool (mkSlots (replicate 5 (mkSlot 0 None false 2 false)) []) [mkReq 9 1%nat; mkReq 4 2%nat; mkReq 9 3%nat; mkReq 7 4%nat] getPoolRunning.

Lemma coalesced_reads_settled_witness :
  ∃ w' s', serveBatch hashZ wtConsts (λ _ _, None) (mkReq 4 0%nat) (mkGetBatch [] [] [] [] None) (wtWorld, cbPool) = Some ((), (w', mkPool s' [] getPoolRunning)) ∧
    avalue <$> astore s' = [0; 90; 0; 90; 0] ∧ afound <$> astore s' = [false; true; false; true; false] ∧
    arefs <$> astore s' = [1; 1; 1; 1; 1] ∧ cache_inv hashZ wtConsts w'.
Proof.
  destruct (coalesced_reads_settled hashZ wtConsts (λ _ _, None) wtWorld cbPool (mkReq 4 0%nat) (mkGetBatch [] [] [] [] None))
    as (taken & rest & ks & w' & s' & l & E1 & _ & _ & _ & _ & _ & _ & _ & Hinv & _).
  - apply wtWorld_inv.
  - intros Hr. discriminate Hr.
  - reflexivity.
  - pose proof (f_equal (λ o, (λ r, (gslots r.2.2, gqueue r.2.2)) <$> o) E1) as Hv. cbn [fmap option_fmap option_map snd gslots gqueue] in Hv.
    vm_compute in Hv. injection Hv as Hs Hr. subst rest. exists w', s'. split; [exact E1|]. rewrite <- Hs. split_and!; [reflexivity..|exact Hinv].
Defined.
