(* ===== verification/Snapshot.v ===== *)
(** * Snapshots (snapshot.go, and the uvarint and big-endian encodings of encoding/binary it uses)

    A stream is a list of bytes.  The codecs are parameters; the buffered writer is one too, a put and a
    flush that may fail.  The wall clock is read when the snapshot is saved and once per item that is
    loaded with its old lifetime. *)

From S2P Require Import Prelude Item Table Policy Shard ShardSpec Expiry Config Stats CacheState WriteBack CacheOps.

(** A byte is a [Z] from 0 to 255. *)
Abbreviation bytes := (list Z).

(** ** encoding/binary *)

(** [PutUvarint]; the fuel is [MaxVarintLen64]. *)
Fixpoint putUvarint (fuel : nat) (x : Z) : bytes :=
  match fuel with
  | O => []
  | S fuel => if x <? 128 then [x] else Z.lor (Z.land x 255) 128 :: putUvarint fuel (Z.shiftr x 7)
  end.

Definition PutUvarint (x : Z) : bytes := putUvarint 10 x.

(** [ReadUvarint]: [None] is the end of the stream or an overflow. *)
Fixpoint readUvarint (i : nat) (fuel : nat) (x s : Z) (r : bytes) : option (Z * bytes) :=
  match fuel, r with
  | S fuel, b :: r =>
    if b <? 128 then
      if (i =? 9)%nat && (1 <? b) then None
      else Some (Z.lor x (u64 (Z.shiftl b s)), r)
    else readUvarint (S i) fuel (Z.lor x (u64 (Z.shiftl (Z.land b 127) s))) (s + 7) r
  | _, _ => None
  end.

Definition ReadUvarint (r : bytes) : option (Z * bytes) := readUvarint 0 10 0 0 r.

(** [BigEndian.AppendUint64] and [BigEndian.Uint64] *)
Definition bigEndian (x : Z) : bytes := (λ i, Z.land (Z.shiftr x (8 * Z.of_nat i)) 255) <$> reverse (seq 0 8).
Definition fromBigEndian (l : bytes) : Z := foldl (λ x b, Z.lor (u64 (Z.shiftl x 8)) b) 0 l.

(** [io.ReadFull] of [n] bytes *)
Definition readFull (n : nat) (r : bytes) : option (bytes * bytes) :=
  if (length r <? n)%nat then None else Some (take n r, drop n r).

(** ** The format *)

(** "memstash" *)
Definition snapshotMagic : bytes := [109; 101; 109; 115; 116; 97; 115; 104].
Definition snapshotVersion : Z := 1.
Definition snapshotHeaderSize : nat := length snapshotMagic + 1 + 8.
Definition maxSnapshotChunk : Z := 2 ^ 30.

Inductive LoadOption := LoadWithCurrentTTL | LoadWithTTL | LoadToL2.

(** The errors of a snapshot: its own, a codec's, the writer's, the second level's. *)
Inductive SnapError (E : Type) :=
| ErrBadSnapshot | ErrNilCodec | ErrConflictingLoadOptions
| ErrEncodeKey (e : E) | ErrEncodeValue (e : E) | ErrDecodeKey (e : E) | ErrDecodeValue (e : E) | ErrWriter (e : E) | ErrL2 (e : E).
Arguments ErrBadSnapshot {E}.
Arguments ErrNilCodec {E}.
Arguments ErrConflictingLoadOptions {E}.
Arguments ErrEncodeKey {E}.
Arguments ErrEncodeValue {E}.
Arguments ErrDecodeKey {E}.
Arguments ErrDecodeValue {E}.
Arguments ErrWriter {E}.
Arguments ErrL2 {E}.

(** The codec interface of l2.go. *)
Record Codec (A E : Type) := mkCodec { Marshal : A → E + bytes; Unmarshal : bytes → E + A }.
Arguments mkCodec {A E}.
Arguments Marshal {A E}.
Arguments Unmarshal {A E}.

(** A buffered writer. *)
Record Writer (X E : Type) := mkWriter { bput : X → bytes → X * option E; bflush : X → X * option E }.
Arguments mkWriter {X E}.
Arguments bput {X E}.
Arguments bflush {X E}.

Section Save.
Context {X E : Type} (wr : Writer X E).

(** [writeChunk]: the size and then the payload. *)
Definition writeChunk (x : X) (size : Z) (payload : bytes) : X * option E :=
  let '(x, err) := bput wr x (PutUvarint size) in
  match err with Some _ => (x, err) | None => bput wr x payload end.

(** Lifetimes are seconds from the save, biased by one. *)
Definition lifeSeconds (life : Z) : Z := if 0 <? life then u64 (i64 (life + second - 1) ÷ second + 1) else 0.

Context {K V : Type} (keys : Codec K E) (values : Codec V E).

(** The callback of the walk, for one item. *)
Definition saveItem (x : X) (key : K) (value : V) (life : Z) : X * option (SnapError E) :=
  match Marshal keys key with
  | inl err => (x, Some (ErrEncodeKey err))
  | inr keyBytes =>
    match Marshal values value with
    | inl err => (x, Some (ErrEncodeValue err))
    | inr valueBytes =>
      let '(x, err) := writeChunk x (u64 (Z.of_nat (length keyBytes) + 1)) keyBytes in
      match err with
      | Some err => (x, Some (ErrWriter err))
      | None =>
        let '(x, err) := writeChunk x (Z.of_nat (length valueBytes)) valueBytes in
        match err with
        | Some err => (x, Some (ErrWriter err))
        | None => let '(x, err) := writeChunk x (lifeSeconds life) [] in (x, ErrWriter <$> err)
        end
      end
    end
  end.

(** The walk stops at the first error. *)
Fixpoint saveItems (x : X) (l : list (K * V * Z)) : X * option (SnapError E) :=
  match l with
  | [] => (x, None)
  | (key, value, life) :: l =>
    let '(x, err) := saveItem x key value life in
    match err with Some _ => (x, err) | None => saveItems x l end
  end.
End Save.

Section Snapshot.
Context {K V P L E X : Type} `{!EqDecision K} `{!GoType K} `{!GoType V}.
Context `{!EvictionPolicy K V P} `{!L2Cache K V L E}.
Context (hash : K → Z) (c : Consts K V).
Abbreviation W := (World K V P L E).
Implicit Types (w : W) (key : K) (value : V).

(** [SaveTo] at [savedAt] nanoseconds; a nil codec is [None]. *)
Definition SaveTo (wr : Writer X E) (x : X) (keys : option (Codec K E)) (values : option (Codec V E)) (savedAt : Z) w
    : X * option (SnapError E) :=
  match keys, values with
  | Some keys, Some values =>
    let '(x, err) := bput wr x (snapshotMagic ++ [snapshotVersion] ++ bigEndian (u64 savedAt)) in
    match err with
    | Some err => (x, Some (ErrWriter err))
    | None =>
      let '(x, err) := saveItems wr keys values x (iterateWithLife c w) in
      match err with
      | Some _ => (x, err)
      | None =>
        let '(x, err) := writeChunk wr x 0 [] in
        match err with
        | Some err => (x, Some (ErrWriter err))
        | None => let '(x, err) := bflush wr x in (x, ErrWriter <$> err)
        end
      end
    end
  | _, _ => (x, Some ErrNilCodec)
  end.

(** The time the stream was saved, and what follows the header. *)
Definition readHeader (r : bytes) : option (Z * bytes) :=
  match readFull snapshotHeaderSize r with
  | None => None
  | Some (header, r) =>
    if bool_decide (take (length snapshotMagic) header = snapshotMagic) then
      if default 0 (header !! length snapshotMagic) =? snapshotVersion
      then Some (i64 (fromBigEndian (drop (length snapshotMagic + 1) header)), r)
      else None
    else None
  end.

Definition readChunk (r : bytes) (size : Z) : option (bytes * bytes) :=
  if maxSnapshotChunk <? size then None else readFull (Z.to_nat size) r.

Definition writeLoadedToL2 key value (ttl : Z) : M W (option E) :=
  match kWritePolicy c with
  | WriteThrough => callL2 (λ l, l2Set l key value ttl)
  | WriteBack => enqueueWriteBack hash c key value ttl ≫= λ _, mret None
  | WriteDisabled => mret None
  end.

(** [t.Sub(u)] saturates. *)
Definition clamp64 (d : Z) : Z := Z.max (- 2 ^ 63) (Z.min d (2 ^ 63 - 1)).

(** What is done with a decoded item; [now] is the wall clock. *)
Definition loadItem (keepTTL toL2 : bool) (savedAt now : Z) key value (life : Z) : M W (option E) :=
  let remaining := clamp64 (savedAt + i64 (i64 (u64 (life - 1)) * second) - now) in
  let keep := keepTTL && (0 <? life) in
  if keep && (remaining <=? 0) then mret None
  else
    w ← get;
    let expireOff := if keep then expireOffsetIn (kTtlOff c) (wNow w) (kExpireUnit c) remaining else expireOffset (envOf c w) in
    cSetMemory hash c key value expireOff ≫= λ _,
    if toL2 then writeLoadedToL2 key value (if keep then remaining else kTtl c) else mret None.

(** The bytes of one item up to its lifetime; [inl] is the end marker, [None] a stream that is cut or bad. *)
Definition readItem (r : bytes) : option (unit + bytes * bytes * Z * bytes) :=
  match ReadUvarint r with
  | None => None
  | Some (keyLen, r) =>
    if keyLen =? 0 then Some (inl ())
    else
      match readChunk r (keyLen - 1) with
      | None => None
      | Some (keyBytes, r) =>
        match ReadUvarint r with
        | None => None
        | Some (valueLen, r) =>
          match readChunk r valueLen with
          | None => None
          | Some (valueBytes, r) =>
            match ReadUvarint r with
            | None => None
            | Some (life, r) => Some (inr (keyBytes, valueBytes, life, r))
            end
          end
        end
      end
  end.

(** The loop of [LoadFrom]: every turn reads at least a byte, so the stream bounds it.  [clock n] is the
    wall clock when the n-th item is loaded. *)
Fixpoint loadLoop (fuel : nat) (keys : Codec K E) (values : Codec V E) (keepTTL toL2 : bool) (savedAt : Z) (clock : nat → Z)
    (n : nat) (r : bytes) : M W (option (SnapError E)) :=
  match fuel with
  | O => λ _, None
  | S fuel =>
    match readItem r with
    | None => mret (Some ErrBadSnapshot)
    | Some (inl _) => mret None
    | Some (inr (keyBytes, valueBytes, life, r)) =>
      match Unmarshal keys keyBytes with
      | inl err => mret (Some (ErrDecodeKey err))
      | inr key =>
        match Unmarshal values valueBytes with
        | inl err => mret (Some (ErrDecodeValue err))
        | inr value =>
          err ← loadItem keepTTL toL2 savedAt (clock n) key value life;
          match err with
          | Some err => mret (Some (ErrL2 err))
          | None => loadLoop fuel keys values keepTTL toL2 savedAt clock (S n) r
          end
        end
      end
    end
  end.

(** The option loop. *)
Definition wantsTTL (opts : list LoadOption) : bool := existsb (λ o, match o with LoadWithTTL => true | _ => false end) opts.
Definition wantsFresh (opts : list LoadOption) : bool := existsb (λ o, match o with LoadWithCurrentTTL => true | _ => false end) opts.
Definition wantsL2 (opts : list LoadOption) : bool := existsb (λ o, match o with LoadToL2 => true | _ => false end) opts.

Definition LoadFrom (r : bytes) (keys : option (Codec K E)) (values : option (Codec V E)) (opts : list LoadOption) (clock : nat → Z)
    : M W (option (SnapError E)) :=
  match keys, values with
  | Some keys, Some values =>
    let keepTTL := wantsTTL opts in
    let toL2 := wantsL2 opts in
    if keepTTL && wantsFresh opts then mret (Some ErrConflictingLoadOptions)
    else
      match readHeader r with
      | None => mret (Some ErrBadSnapshot)
      | Some (savedAt, r) => loadLoop (S (length r)) keys values keepTTL (toL2 && kHasL2 c) savedAt clock 0 r
      end
  | _, _ => mret (Some ErrNilCodec)
  end.

End Snapshot.
