(* ===== verification/SnapshotLaws.v ===== *)
(** * A snapshot reads back what was saved

    The encodings round trip, and reading is monotone: what a stream's beginning decodes to, the whole
    stream decodes to as well.  So a cut stream yields a prefix of the items and then an error. *)

From S2P Require Import Prelude Item Table Policy ClockPolicy Shard ShardSpec ShardTheorems Expiry Config Stats CacheState CacheLaws WriteBack WriteBackSteps CacheOps WriteThrough Batch BatchTheorems Snapshot.

(** ** Encodings *)

Lemma u64_id x : 0 ≤ x < 2 ^ 64 → u64 x = x.
Proof. intros H. unfold u64. by apply Z.mod_small. Qed.

Lemma low_bits x n : 0 ≤ n → Z.lor (Z.shiftl (Z.shiftr x n) n) (Z.land x (Z.ones n)) = x.
Proof.
  intros Hn. apply Z.bits_inj'. intros i Hi. rewrite Z.lor_spec, Z.land_spec, Z.testbit_ones_nonneg by lia. rewrite Z.shiftl_spec by done.
  destruct (Z.ltb_spec i n).
  - rewrite Z.testbit_neg_r, andb_true_r by lia. done.
  - rewrite Z.shiftr_spec by lia. rewrite andb_false_r, orb_false_r. f_equal. lia.
Qed.

(** A digit put on top of a smaller number. *)
Lemma lor_digit acc b s : 0 ≤ s → 0 ≤ acc < 2 ^ s → 0 ≤ b → Z.lor acc (Z.shiftl b s) = acc + b * 2 ^ s.
Proof.
  intros Hs Ha Hb. rewrite Z.shiftl_mul_pow2 by done. rewrite Z.lor_comm, Z.add_comm. symmetry. apply Z.add_nocarry_lor.
  apply Z.bits_inj'. intros i Hi. rewrite Z.land_spec, Z.testbit_0_l, <- Z.shiftl_mul_pow2 by done. destruct (Z.ltb_spec i s).
  - by rewrite Z.shiftl_spec_low.
  - destruct (Z.eq_dec acc 0) as [->|]; [by rewrite Z.testbit_0_l, andb_false_r|].
    rewrite (Z.bits_above_log2 acc), andb_false_r; [done|lia|]. apply Z.log2_lt_pow2; [lia|]. apply Z.lt_le_trans with (2 ^ s); [lia|]. by apply Z.pow_le_mono_r.
Qed.

Lemma digit_of x : 0 ≤ x → Z.land (Z.lor (Z.land x 255) 128) 127 = x mod 128.
Proof.
  intros Hx. change 127 with (Z.ones 7). rewrite Z.land_lor_distr_l. change (Z.land 128 (Z.ones 7)) with 0. rewrite Z.lor_0_r.
  rewrite <- Z.land_assoc. change (Z.land 255 (Z.ones 7)) with (Z.ones 7). rewrite Z.land_ones by lia. done.
Qed.

Lemma digit_high x : 128 ≤ Z.lor (Z.land x 255) 128.
Proof.
  assert (0 ≤ Z.land x 255) as H0 by (apply Z.land_nonneg; lia).
  assert (Z.testbit (Z.lor (Z.land x 255) 128) 7 = true) as Ht by (rewrite Z.lor_spec; apply orb_true_r).
  destruct (Z.lt_ge_cases (Z.lor (Z.land x 255) 128) 128) as [Hlt|]; [|done].
  rewrite Z.bits_above_log2 in Ht; [done|apply Z.lor_nonneg; lia|].
  assert (Z.lor (Z.land x 255) 128 ≠ 0) as Hnz by (intros E; rewrite E, Z.testbit_0_l in Ht; done).
  assert (0 ≤ Z.lor (Z.land x 255) 128) as Hnn by (apply Z.lor_nonneg; lia). apply Z.log2_lt_pow2; [lia|exact Hlt].
Qed.

Lemma readUvarint_put fuel : ∀ i x acc s r,
  (i + fuel = 10)%nat → s = 7 * Z.of_nat i → (1 ≤ fuel)%nat → 0 ≤ acc < 2 ^ s → 0 ≤ x < 2 ^ (64 - s) →
  readUvarint i fuel acc s (putUvarint fuel x ++ r) = Some (acc + x * 2 ^ s, r).
Proof.
  induction fuel as [|fuel IH]; intros i x acc s r Hi Hs Hf Ha Hx; [lia|]. cbn [putUvarint].
  assert (0 ≤ s ≤ 63) as Hs63 by lia. assert (2 ^ (64 - s) * 2 ^ s = 2 ^ 64) as H64 by (rewrite <- Z.pow_add_r by lia; f_equal; lia).
  assert (0 < 2 ^ s) as Hp by (apply Z.pow_pos_nonneg; lia).
  destruct (Z.ltb_spec x 128) as [Hlt|Hge]; cbn [app readUvarint].
  - rewrite (proj2 (Z.ltb_lt x 128)) by done. assert (((i =? 9)%nat && (1 <? x)) = false) as ->.
    { destruct (Nat.eqb_spec i 9) as [->|]; [|done]. cbn [andb]. apply Z.ltb_ge. replace (64 - s) with 1 in Hx by lia. lia. }
    rewrite u64_id by (rewrite Z.shiftl_mul_pow2 by lia; nia). by rewrite lor_digit by lia.
  - pose proof (digit_high x) as Hd. rewrite (proj2 (Z.ltb_ge _ 128)) by done. rewrite digit_of by lia.
    pose proof (Z.div_mod x 128 ltac:(lia)) as Hdm. pose proof (Z.mod_pos_bound x 128 ltac:(lia)) as Hmod.
    assert (s + 7 ≤ 63) as Hs7.
    { destruct (Z.le_gt_cases (s + 7) 63); [done|]. assert (s = 63) as E by lia. rewrite E in Hx. change (2 ^ (64 - 63)) with 2 in Hx. lia. }
    assert (2 ^ (s + 7) = 2 ^ s * 128) as Hp7 by by rewrite Z.pow_add_r by lia.
    assert (2 ^ (64 - s) = 2 ^ (64 - (s + 7)) * 128) as Hq by (change 128 with (2 ^ 7); rewrite <- Z.pow_add_r by lia; f_equal; lia).
    rewrite u64_id by (rewrite Z.shiftl_mul_pow2 by lia; nia). rewrite lor_digit by lia.
    rewrite Z.shiftr_div_pow2 by lia. change (2 ^ 7) with 128. rewrite IH; [|lia|lia|lia|rewrite Hp7; nia|].
    + f_equal. f_equal. rewrite Hp7. nia.
    + split; [apply Z.div_pos; lia|]. apply Z.div_lt_upper_bound; lia.
Qed.

(** A number of 64 bits reads back. *)
Lemma ReadUvarint_Put x r : 0 ≤ x < 2 ^ 64 → ReadUvarint (PutUvarint x ++ r) = Some (x, r).
Proof.
  intros Hx. unfold ReadUvarint, PutUvarint. rewrite (readUvarint_put 10 0 x 0 0 r); [|done|done|lia|cbn; lia|done].
  f_equal. f_equal. cbn. lia.
Qed.

Lemma bigEndian_length x : length (bigEndian x) = 8%nat.
Proof. unfold bigEndian. by rewrite length_fmap. Qed.

Lemma bigEndian_back x : 0 ≤ x < 2 ^ 64 → fromBigEndian (bigEndian x) = x.
Proof.
  intros Hx. unfold fromBigEndian, bigEndian.
  assert (∀ n acc, (n ≤ 8)%nat → acc = Z.shiftr x (8 * Z.of_nat n) →
    foldl (λ y b, Z.lor (u64 (Z.shiftl y 8)) b) acc ((λ i, Z.land (Z.shiftr x (8 * Z.of_nat i)) 255) <$> reverse (seq 0 n)) = x) as Hall.
  { induction n as [|n IH]; intros acc Hn Hacc; [cbn; by rewrite Hacc, Z.shiftr_0_r|].
    rewrite seq_S, reverse_app, fmap_app. cbn [reverse rev_append fmap list_fmap app foldl plus].
    apply IH; [lia|]. rewrite Hacc. replace (Z.shiftr x (8 * Z.of_nat (S n))) with (Z.shiftr (Z.shiftr x (8 * Z.of_nat n)) 8)
      by (rewrite Z.shiftr_shiftr by lia; f_equal; lia).
    set (y := Z.shiftr x (8 * Z.of_nat n)).
    assert (0 ≤ y < 2 ^ 64) as Hy.
    { unfold y. rewrite Z.shiftr_div_pow2 by lia. pose proof (Z.pow_pos_nonneg 2 (8 * Z.of_nat n) ltac:(lia) ltac:(lia)).
      split; [apply Z.div_pos; lia|]. apply Z.le_lt_trans with x; [|lia]. apply Z.div_le_upper_bound; nia. }
    rewrite u64_id.
    - change 255 with (Z.ones 8). by apply low_bits.
    - rewrite Z.shiftl_mul_pow2, Z.shiftr_div_pow2 by lia. pose proof (Z.mul_div_le y (2 ^ 8) ltac:(lia)).
      pose proof (Z.div_pos y (2 ^ 8) ltac:(lia) ltac:(lia)). lia. }
  apply (Hall 8%nat); [lia|]. rewrite Z.shiftr_div_pow2 by lia. symmetry. apply Z.div_small. exact Hx.
Qed.

(** ** Reading further *)

Lemma readUvarint_more fuel : ∀ i x s r y r' q,
  readUvarint i fuel x s r = Some (y, r') → readUvarint i fuel x s (r ++ q) = Some (y, r' ++ q).
Proof.
  induction fuel as [|fuel IH]; intros i x s r y r' q Hr; [done|]. destruct r as [|b r]; [done|]. cbn [app readUvarint] in *.
  destruct (b <? 128); [|by apply IH]. destruct (_ && _); [done|]. by injection Hr as <- <-.
Qed.

Lemma readFull_more n r l r' q : readFull n r = Some (l, r') → readFull n (r ++ q) = Some (l, r' ++ q).
Proof.
  unfold readFull. destruct (Nat.ltb_spec (length r) n); [done|]. intros [= <- <-].
  rewrite (proj2 (Nat.ltb_ge _ _)) by (rewrite length_app; lia). by rewrite take_app_le, drop_app_le by done.
Qed.

Lemma readFull_exact l r : readFull (length l) (l ++ r) = Some (l, r).
Proof. unfold readFull. rewrite (proj2 (Nat.ltb_ge _ _)) by (rewrite length_app; lia). by rewrite take_app_length, drop_app_length. Qed.

Definition more (x : unit + bytes * bytes * Z * bytes) (q : bytes) : unit + bytes * bytes * Z * bytes :=
  match x with inl u => inl u | inr (kb, vb, life, r) => inr (kb, vb, life, r ++ q) end.

Lemma readItem_more r x q : readItem r = Some x → readItem (r ++ q) = Some (more x q).
Proof.
  unfold readItem, ReadUvarint. intros Hr. destruct (readUvarint 0 10 0 0 r) as [[kl r1]|] eqn:E1; [|done].
  rewrite (readUvarint_more _ _ _ _ _ _ _ q E1). destruct (kl =? 0); [by injection Hr as <-|]. unfold readChunk in *.
  destruct (maxSnapshotChunk <? kl - 1); [done|]. destruct (readFull _ r1) as [[kb r2]|] eqn:E2; [|done].
  rewrite (readFull_more _ _ _ _ q E2). destruct (readUvarint 0 10 0 0 r2) as [[vl r3]|] eqn:E3; [|done].
  rewrite (readUvarint_more _ _ _ _ _ _ _ q E3). destruct (maxSnapshotChunk <? vl); [done|].
  destruct (readFull _ r3) as [[vb r4]|] eqn:E4; [|done]. rewrite (readFull_more _ _ _ _ q E4).
  destruct (readUvarint 0 10 0 0 r4) as [[life r5]|] eqn:E5; [|done]. rewrite (readUvarint_more _ _ _ _ _ _ _ q E5).
  by injection Hr as <-.
Qed.

(** An item in the stream. *)
Definition encodeItem (kb vb : bytes) (life : Z) : bytes :=
  PutUvarint (Z.of_nat (length kb) + 1) ++ kb ++ PutUvarint (Z.of_nat (length vb)) ++ vb ++ PutUvarint life.

Lemma readItem_encode kb vb life r :
  Z.of_nat (length kb) ≤ maxSnapshotChunk → Z.of_nat (length vb) ≤ maxSnapshotChunk → 0 ≤ life < 2 ^ 64 →
  readItem (encodeItem kb vb life ++ r) = Some (inr (kb, vb, life, r)).
Proof.
  unfold maxSnapshotChunk. intros Hk Hv Hl. unfold encodeItem, readItem. rewrite <- !app_assoc. rewrite ReadUvarint_Put by lia.
  rewrite (proj2 (Z.eqb_neq _ 0)) by lia. unfold readChunk, maxSnapshotChunk. rewrite (proj2 (Z.ltb_ge _ _)) by lia.
  replace (Z.to_nat (Z.of_nat (length kb) + 1 - 1)) with (length kb) by lia. rewrite readFull_exact, ReadUvarint_Put by lia.
  rewrite (proj2 (Z.ltb_ge _ _)) by lia. rewrite Nat2Z.id, readFull_exact, ReadUvarint_Put by lia. done.
Qed.

(** What is cut inside an item does not read. *)
Lemma readItem_cut kb vb life p q :
  Z.of_nat (length kb) ≤ maxSnapshotChunk → Z.of_nat (length vb) ≤ maxSnapshotChunk → 0 ≤ life < 2 ^ 64 →
  encodeItem kb vb life = p ++ q → q ≠ [] → readItem p = None.
Proof.
  intros Hk Hv Hl He Hq. pose proof (readItem_encode kb vb life [] Hk Hv Hl) as Hr. rewrite app_nil_r, He in Hr.
  destruct (readItem p) as [x|] eqn:Ep; [|done]. exfalso. rewrite (readItem_more _ _ q Ep) in Hr.
  destruct x as [u|[[[a b] n] r]]; [done|]. cbn in Hr. injection Hr as _ _ _ Hr. by apply app_nil in Hr as [_ ?].
Qed.

(** ** Saving *)

(** A writer into memory. *)
Definition memWriter (E : Type) : Writer bytes E := mkWriter (λ x l, (x ++ l, None)) (λ x, (x, None)).

Lemma lifeSeconds_range life : 0 ≤ lifeSeconds life < 2 ^ 64.
Proof. unfold lifeSeconds. case_match; [|lia]. apply Z.mod_pos_bound. lia. Qed.

Section Items.
Context {K V P L E : Type} `{!EqDecision K} `{!GoType K} `{!GoType V}.
Context `{!EvictionPolicy K V P} `{!L2Cache K V L E}.
Context (hash : K → Z) (c : Consts K V).
Abbreviation W := (World K V P L E).
Context (keys : Codec K E) (values : Codec V E).
Implicit Types (l : list (K * V * Z)).

(** A codec that reads back what it wrote, within the size of a chunk. *)
Definition codes {A} (cd : Codec A E) (a : A) (bs : bytes) : Prop :=
  Marshal cd a = inr bs ∧ Unmarshal cd bs = inr a ∧ Z.of_nat (length bs) ≤ maxSnapshotChunk.

Definition coded l : Prop := Forall (λ '(k, v, _), (∃ kb, codes keys k kb) ∧ (∃ vb, codes values v vb)) l.

(** The bytes of the items, and what loading them one by one does; [final] is the error at the end. *)
Inductive encodes : list (K * V * Z) → bytes → Prop :=
| encodes_nil : encodes [] []
| encodes_cons k v life kb vb l bs : codes keys k kb → codes values v vb → encodes l bs →
    encodes ((k, v, life) :: l) (encodeItem kb vb (lifeSeconds life) ++ bs).

Lemma saveItem_spec x k v life kb vb :
  codes keys k kb → codes values v vb →
  saveItem (memWriter E) keys values x k v life = (x ++ encodeItem kb vb (lifeSeconds life), None).
Proof.
  intros (Hk & _ & Hkl) (Hv & _ & Hvl). unfold saveItem, maxSnapshotChunk in *. rewrite Hk, Hv. cbn [writeChunk memWriter bput fmap option_fmap option_map].
  unfold encodeItem. rewrite u64_id by lia. rewrite <- !app_assoc. by rewrite app_nil_r.
Qed.

Lemma saveItems_spec l : ∀ x, coded l → ∃ bs, saveItems (memWriter E) keys values x l = (x ++ bs, None) ∧ encodes l bs.
Proof.
  induction l as [|[[k v] life] l IH]; intros x Hl.
  - exists []. by rewrite app_nil_r; split; [|constructor].
  - apply Forall_cons in Hl as [[[kb Hkb] [vb Hvb]] Hl]. cbn [saveItems]. rewrite (saveItem_spec x k v life kb vb) by done.
    destruct (IH (x ++ encodeItem kb vb (lifeSeconds life)) Hl) as (bs & -> & Hbs). eexists. split; [by rewrite <- app_assoc|by constructor].
Qed.

(** ** Loading *)

Context (keepTTL toL2 : bool) (savedAt : Z) (clock : nat → Z).

Fixpoint loadAll (n : nat) l (final : option (SnapError E)) : M W (option (SnapError E)) :=
  match l with
  | [] => mret final
  | (k, v, life) :: l =>
    err ← loadItem hash c keepTTL toL2 savedAt (clock n) k v (lifeSeconds life);
    match err with Some err => mret (Some (ErrL2 err)) | None => loadAll (S n) l final end
  end.

Lemma mbind_ext {A B} (m : M W A) (g1 g2 : A → M W B) w : (∀ a w, g1 a w = g2 a w) → (m ≫= g1) w = (m ≫= g2) w.
Proof. intros H. unfold mbind, M_bind. destruct (m w) as [[a w']|]; [apply H|done]. Qed.

(** One turn of the loop. *)
Lemma loadLoop_item fuel n k v life kb vb bs w :
  codes keys k kb → codes values v vb →
  loadLoop hash c (S fuel) keys values keepTTL toL2 savedAt clock n (encodeItem kb vb (lifeSeconds life) ++ bs) w =
  (err ← loadItem hash c keepTTL toL2 savedAt (clock n) k v (lifeSeconds life);
   match err with Some err => mret (Some (ErrL2 err)) | None => loadLoop hash c fuel keys values keepTTL toL2 savedAt clock (S n) bs end) w.
Proof.
  intros (_ & Hk & Hkl) (_ & Hv & Hvl). cbn [loadLoop]. rewrite readItem_encode by (done || apply lifeSeconds_range). by rewrite Hk, Hv.
Qed.

Lemma encodeItem_length kb vb life : (1 ≤ length (encodeItem kb vb life))%nat.
Proof.
  unfold encodeItem. rewrite !length_app. assert (1 ≤ length (PutUvarint life))%nat; [|lia].
  unfold PutUvarint. cbn [putUvarint]. case_match; cbn [length]; lia.
Qed.

Lemma encodes_fuel l bs : encodes l bs → (length l ≤ length bs)%nat.
Proof.
  induction 1 as [|k v life kb vb l bs _ _ _ IH]; [done|]. cbn [length]. rewrite length_app.
  pose proof (encodeItem_length kb vb (lifeSeconds life)). lia.
Qed.

(** The whole stream. *)
Lemma loadLoop_all l bs : encodes l bs → ∀ fuel n w, (length l < fuel)%nat →
  loadLoop hash c fuel keys values keepTTL toL2 savedAt clock n (bs ++ [0]) w = loadAll n l None w.
Proof.
  induction 1 as [|k v life kb vb l bs Hk Hv _ IH]; intros fuel n w Hf; (destruct fuel as [|fuel]; cbn [length] in Hf; [lia|]).
  - done.
  - rewrite <- app_assoc, (loadLoop_item fuel n k v life kb vb) by done. cbn [loadAll]. apply mbind_ext. intros [err|] w'; [done|].
    apply IH. lia.
Qed.

(** A cut one: the items before the cut, and then the error. *)
Lemma loadLoop_cut l bs : encodes l bs → ∀ fuel n p q, (length p < fuel)%nat → bs ++ [0] = p ++ q → q ≠ [] →
  ∃ m, (m ≤ length l)%nat ∧ ∀ w,
    loadLoop hash c fuel keys values keepTTL toL2 savedAt clock n p w = loadAll n (take m l) (Some ErrBadSnapshot) w.
Proof.
  induction 1 as [|k v life kb vb l bs Hk Hv _ IH]; intros fuel n p q Hf Hpq Hq; (destruct fuel as [|fuel]; [lia|]).
  - exists 0%nat. split; [done|]. destruct p as [|b p]; [done|]. cbn in Hpq. injection Hpq as _ Hpq. by destruct p, q.
  - rewrite <- app_assoc in Hpq. set (e := encodeItem kb vb (lifeSeconds life)) in *.
    assert (∀ p', bs ++ [0] = p' ++ q → p = e ++ p' → ∃ m, (m ≤ length ((k, v, life) :: l))%nat ∧ ∀ w,
      loadLoop hash c (S fuel) keys values keepTTL toL2 savedAt clock n p w =
      loadAll n (take m ((k, v, life) :: l)) (Some ErrBadSnapshot) w) as Hitem.
    { intros p' Hp' ->. pose proof (encodeItem_length kb vb (lifeSeconds life)) as Hel. rewrite length_app in Hf. fold e in Hel.
      destruct (IH fuel (S n) p' q ltac:(lia) Hp' Hq) as (m & Hm & E1). exists (S m). split; [cbn; lia|]. intros w.
      unfold e. rewrite (loadLoop_item fuel n k v life kb vb) by done. cbn [take loadAll]. apply mbind_ext. intros [err|] w'; [done|apply E1]. }
    destruct (app_eq_inv e (bs ++ [0]) p q Hpq) as [(q' & He & Hq')|(p' & Hp & Hpq')]; [|by apply (Hitem p')].
    destruct (decide (q' = [])) as [->|Hne].
    + apply (Hitem []); [by cbn in Hq' |]. by rewrite He, !app_nil_r.
    + exists 0%nat. split; [lia|]. intros w. cbn [take loadAll loadLoop]. destruct Hk as (_ & _ & Hkl), Hv as (_ & _ & Hvl).
      by rewrite (readItem_cut kb vb (lifeSeconds life) p q') by (done || apply lifeSeconds_range).
Qed.
End Items.

(** ** The stream *)

Lemma i64_u64 t : - 2 ^ 63 ≤ t < 2 ^ 63 → i64 (u64 t) = t.
Proof.
  intros Ht. unfold i64, u64. rewrite Zplus_mod_idemp_l. rewrite Z.mod_small by lia. lia.
Qed.

Definition header (t : Z) : bytes := snapshotMagic ++ [snapshotVersion] ++ bigEndian (u64 t).

Lemma header_length t : length (header t) = snapshotHeaderSize.
Proof. unfold header, snapshotHeaderSize. rewrite !length_app, bigEndian_length. done. Qed.

Lemma readHeader_spec t r : - 2 ^ 63 ≤ t < 2 ^ 63 → readHeader (header t ++ r) = Some (t, r).
Proof.
  intros Ht. unfold readHeader. rewrite <- (header_length t), readFull_exact. unfold header.
  rewrite take_app_length, bool_decide_eq_true_2 by done.
  change (default 0 ((snapshotMagic ++ [snapshotVersion] ++ bigEndian (u64 t)) !! length snapshotMagic)) with snapshotVersion.
  change (drop (length snapshotMagic + 1) (snapshotMagic ++ [snapshotVersion] ++ bigEndian (u64 t))) with (bigEndian (u64 t)).
  rewrite Z.eqb_refl.
  rewrite bigEndian_back by (apply Z.mod_pos_bound; lia). by rewrite i64_u64.
Qed.

Lemma readHeader_short r : (length r < snapshotHeaderSize)%nat → readHeader r = None.
Proof. intros Hl. unfold readHeader, readFull. by rewrite (proj2 (Nat.ltb_lt _ _)). Qed.

Section RoundTrip.
Context {K V P P2 L L2 E : Type} `{!EqDecision K} `{!GoType K} `{!GoType V}.
Context `{!EvictionPolicy K V P} `{!EvictionPolicy K V P2} `{!L2Cache K V L2 E}.
Context (hash : K → Z) (c c2 : Consts K V) (keys : Codec K E) (values : Codec V E).

Lemma loadAll_fresh savedAt clock n (l : list (K * V * Z)) (w2 : World K V P2 L2 E) :
  loadAll hash c2 false false savedAt clock n l None w2 =
  (forM l.*1 (λ kv, storeMemory hash c2 kv.1 kv.2) ≫= λ _, mret (M := M (World K V P2 L2 E)) (None : option (SnapError E))) w2.
Proof.
  revert n w2. induction l as [|[[k v] life] l IH]; intros n w2; [done|]. cbn [loadAll fmap list_fmap forM fst snd].
  unfold loadItem, storeMemory, cExpireOffset. cbn [andb]. unfold mbind, M_bind, get, mret, M_ret in *.
  destruct (cSetMemory hash c2 k v (expireOffset (envOf c2 w2)) w2) as [[[] w3]|]; [apply IH|done].
Qed.

(** C12: Snapshots round trip.  If the codecs read back what they wrote, within the size of a chunk, then
    [SaveTo] into memory succeeds, and the stream loads into any cache, of whatever policy, capacity,
    configuration and second level, as the saved items, in order and with the lifetimes they had left: by
    default exactly as if each were set in memory, one after the other.  Every proper prefix of the stream
    loads some of the first items and then answers [ErrBadSnapshot] (or an earlier error of the second
    level); no cut is mistaken for a whole snapshot. *)
Theorem snapshot_round_trip (w : World K V P L E) savedAt :
  coded keys values (iterateWithLife c w) → - 2 ^ 63 ≤ savedAt < 2 ^ 63 →
  ∃ stream, SaveTo c (memWriter E) [] (Some keys) (Some values) savedAt w = (stream, None) ∧
    (∀ clock w2, LoadFrom hash c2 stream (Some keys) (Some values) [] clock w2 =
      (forM (Iterator c w) (λ kv, storeMemory hash c2 kv.1 kv.2) ≫= λ _, mret (M := M (World K V P2 L2 E)) (None : option (SnapError E))) w2) ∧
    ∀ opts clock, (wantsTTL opts && wantsFresh opts) = false →
      (∀ w2, LoadFrom hash c2 stream (Some keys) (Some values) opts clock w2 =
        loadAll hash c2 (wantsTTL opts) (wantsL2 opts && kHasL2 c2) savedAt clock 0 (iterateWithLife c w) None w2) ∧
      (∀ cut rest, stream = cut ++ rest → rest ≠ [] → ∃ m, (m ≤ length (iterateWithLife c w))%nat ∧ ∀ w2,
        LoadFrom hash c2 cut (Some keys) (Some values) opts clock w2 =
        loadAll hash c2 (wantsTTL opts) (wantsL2 opts && kHasL2 c2) savedAt clock 0 (take m (iterateWithLife c w)) (Some ErrBadSnapshot) w2).
Proof.
  intros Hc Ht. set (l := iterateWithLife c w) in *. destruct (saveItems_spec keys values l (header savedAt) Hc) as (bs & Es & He).
  assert (∀ opts clock w2, (wantsTTL opts && wantsFresh opts) = false →
    LoadFrom hash c2 (header savedAt ++ bs ++ [0]) (Some keys) (Some values) opts clock w2 =
    loadAll hash c2 (wantsTTL opts) (wantsL2 opts && kHasL2 c2) savedAt clock 0 l None w2) as Hload.
  { intros opts clock w2 Ho. unfold LoadFrom. cbv zeta. rewrite Ho, readHeader_spec by done. apply (loadLoop_all hash c2 keys values); [done|].
    pose proof (encodes_fuel keys values l bs He). rewrite length_app. lia. }
  exists (header savedAt ++ bs ++ [0]). split_and!.
  - unfold SaveTo. cbn [memWriter bput]. change ([] ++ (snapshotMagic ++ [snapshotVersion] ++ bigEndian (u64 savedAt))) with (header savedAt).
    change (mkWriter _ _) with (memWriter E). fold l. rewrite Es. cbn [writeChunk memWriter bput bflush fmap option_fmap option_map].
    by rewrite app_nil_r, <- app_assoc.
  - intros clock w2. rewrite Hload by done. apply loadAll_fresh.
  - intros opts clock Ho. split; [intros w2; by apply Hload|]. intros cut rest Hcut Hrest.
    assert (∀ p, bs ++ [0] = p ++ rest → cut = header savedAt ++ p → ∃ m, (m ≤ length l)%nat ∧ ∀ w2,
      LoadFrom hash c2 cut (Some keys) (Some values) opts clock w2 =
      loadAll hash c2 (wantsTTL opts) (wantsL2 opts && kHasL2 c2) savedAt clock 0 (take m l) (Some ErrBadSnapshot) w2) as Hcutload.
    { intros p Hp ->. unfold LoadFrom. cbv zeta. rewrite Ho, readHeader_spec by done.
      apply (loadLoop_cut hash c2 keys values _ _ _ _ l bs He (S (length p)) 0 p rest); [lia|done|done]. }
    destruct (app_eq_inv _ _ _ _ Hcut) as [(q & Hh & Hq)|(p & Hp & Hpq)].
    + destruct (decide (q = [])) as [->|Hne].
      * rewrite app_nil_r in Hh. subst cut. cbn in Hq. apply (Hcutload []); [done|by rewrite app_nil_r].
      * exists 0%nat. split; [lia|]. intros w2. unfold LoadFrom. cbv zeta. rewrite Ho, readHeader_short; [done|].
        rewrite <- (header_length savedAt), Hh, length_app. destruct q; [done|]. cbn. lia.
    + by apply (Hcutload p).
Qed.
End RoundTrip.

(** ** An instance: a cache with live and expired items, saved and loaded into an empty one *)

Definition byteCodec : Codec Z Z :=
  mkCodec (λ z, inr [z]) (λ l, match l with [b] => inr b | _ => inl 1 end).

Lemma snapshot_round_trip_witness :
  ∃ stream, SaveTo bConsts (memWriter Z) [] (Some byteCodec) (Some byteCodec) 1700000000000000000 bWorld = (stream, None) ∧
    (λ r, (r.1, Iterator bConsts r.2)) <$> LoadFrom hashZ bConsts stream (Some byteCodec) (Some byteCodec) [] (λ _, 0) bNew =
      Some (None, [(4, 40); (2, 20); (7, 70)]) ∧
    fst <$> LoadFrom hashZ bConsts (take 20 stream) (Some byteCodec) (Some byteCodec) [] (λ _, 0) bNew = Some (Some ErrBadSnapshot).
Proof.
  destruct (snapshot_round_trip hashZ bConsts bConsts byteCodec byteCodec bWorld 1700000000000000000) as (stream & E1 & Hall & _).
  - apply Forall_forall. intros [[k v] life] _. split; eexists; (split_and!; [reflexivity|reflexivity|vm_compute; discriminate]).
  - lia.
  - exists stream. split; [exact E1|]. split.
    + rewrite (Hall (λ _, 0) bNew). vm_compute. reflexivity.
    + apply (f_equal fst) in E1. cbn [fst] in E1. rewrite <- E1. vm_compute. reflexivity.
Defined.
