(* ===== verification/L2Util.v ===== *)
(** * The adapters' shared helpers (l2/l2.go)

    Key functions and options, the batch operations made of single ones, sequentially or on several
    goroutines, the pass-through codecs, and the TTL conversions.  [runConcurrent] is a step relation:
    its workers share a counter, a stop flag and the first error, one atomic access at a time; a call of
    an operation is one step, and an operation that panics is one that fails. *)

From stdpp Require Import relations.
From S2P Require Import Prelude Expiry Config CacheState Snapshot.

(** ** Keys and options *)

(** The package's errors, and the option mismatch of the root package. *)
Inductive UtilError := ErrKeyFuncRequired | ErrNilClient | ErrNilCodec | ErrOptionMismatch.

Section Keys.
(** [str] are Go's strings; [isString] is the identity when the key type is [string], [None] when not. *)
Context {K str : Type} (isString : option (K → str)).

Definition ResolveKeyFunc (custom : option (K → str)) : UtilError + (K → str) :=
  match custom with
  | Some f => inr f
  | None => match isString with Some f => inr f | None => inl ErrKeyFuncRequired end
  end.

(** What the typed half of an option does to a key-function target of this key type. *)
Inductive keyOption := Untyped | OtherTarget | KeyFunc (f : K → str) | KeyFuncOfOther.

Definition applyKeyOption (target : option (K → str)) (o : keyOption) : UtilError + option (K → str) :=
  match o with
  | Untyped | OtherTarget => inr target
  | KeyFunc f => inr (Some f)
  | KeyFuncOfOther => inl ErrOptionMismatch
  end.

Fixpoint extractKeyFunc (target : option (K → str)) (opts : list keyOption) : UtilError + option (K → str) :=
  match opts with
  | [] => inr target
  | o :: opts => match applyKeyOption target o with inl err => inl err | inr target => extractKeyFunc target opts end
  end.

Definition ExtractKeyFunc (opts : list keyOption) : UtilError + (K → str) :=
  match extractKeyFunc None opts with inl err => inl err | inr custom => ResolveKeyFunc custom end.
End Keys.

Definition PrefixedString (prefix : list Z) : list Z → list Z := λ key, prefix ++ key.

Inductive DetectMode := AutoDetect | Disabled | Enabled.

(** [None] is an option that is not [WithOrderedMget]. *)
Definition ExtractOrderedMget (opts : list (option DetectMode)) : DetectMode :=
  foldl (λ mode o, default mode o) AutoDetect opts.

Definition ResolveOrderedMget (mode : DetectMode) (probe : bool) : bool :=
  match mode with Enabled => true | Disabled => false | AutoDetect => probe end.

(** ** Batches of single calls *)

Section Sequential.
Context {K V L E : Type} `{!L2Cache K V L E}.

Fixpoint batchGetLoop (store : L) (keys : list K) (found : list (K * V)) : L * (list (K * V) * option E) :=
  match keys with
  | [] => (store, (found, None))
  | key :: keys =>
    let '(store, (value, err)) := l2Get store key in
    match err with
    | Some _ => (store, (found, err))
    | None => batchGetLoop store keys (match value with Some v => found ++ [(key, v)] | None => found end)
    end
  end.

Definition BatchGetSequential (store : L) (keys : list K) : L * (list (K * V) * option E) := batchGetLoop store keys [].

Fixpoint BatchSetSequential (store : L) (items : list (K * V)) (ttl : Z) : L * option E :=
  match items with
  | [] => (store, None)
  | (key, value) :: items =>
    let '(store, err) := l2Set store key value ttl in
    match err with Some _ => (store, err) | None => BatchSetSequential store items ttl end
  end.

Fixpoint BatchDeleteSequential (store : L) (keys : list K) : L * option E :=
  match keys with
  | [] => (store, None)
  | key :: keys =>
    let '(store, err) := l2Delete store key in
    match err with Some _ => (store, err) | None => BatchDeleteSequential store keys end
  end.
End Sequential.

(** ** Batches on several goroutines *)

(** Where a worker is: about to take an index, to look at the flag, to call the operation, to record its
    error, to raise the flag, or gone. *)
Inductive workerPc (E : Type) := PTake | PTest (i : nat) | PCall (i : nat) | PFail (e : E) | PStop | PGone.
Arguments PTake {E}.
Arguments PTest {E}.
Arguments PCall {E}.
Arguments PFail {E}.
Arguments PStop {E}.
Arguments PGone {E}.

(** [crun] are the indexes whose operation ran, with what it returned; it is not part of the program. *)
Record conc (X E : Type) := mkConc {
  cnext : nat; cstopped : bool; cfirst : option E; cstore : X; crun : list (nat * option E); cworkers : list (workerPc E)
}.
Arguments mkConc {X E}.
Arguments cnext {X E}.
Arguments cstopped {X E}.
Arguments cfirst {X E}.
Arguments cstore {X E}.
Arguments crun {X E}.
Arguments cworkers {X E}.

Section Concurrent.
Context {X E : Type} (n : nat) (op : X → nat → X * option E).

Definition setWorker (j : nat) (pc : workerPc E) (st : conc X E) : conc X E :=
  mkConc (cnext st) (cstopped st) (cfirst st) (cstore st) (crun st) (<[j := pc]> (cworkers st)).

Inductive conc_step : conc X E → conc X E → Prop :=
| step_take st j : cworkers st !! j = Some PTake →
    conc_step st (setWorker j (PTest (cnext st)) (mkConc (cnext st + 1) (cstopped st) (cfirst st) (cstore st) (crun st) (cworkers st)))
| step_leave st j i : cworkers st !! j = Some (PTest i) → (n ≤ i)%nat ∨ cstopped st = true → conc_step st (setWorker j PGone st)
| step_enter st j i : cworkers st !! j = Some (PTest i) → (i < n)%nat → cstopped st = false → conc_step st (setWorker j (PCall i) st)
| step_call st j i s' r : cworkers st !! j = Some (PCall i) → op (cstore st) i = (s', r) →
    conc_step st (setWorker j (match r with Some e => PFail e | None => PTake end)
      (mkConc (cnext st) (cstopped st) (cfirst st) s' (crun st ++ [(i, r)]) (cworkers st)))
| step_fail st j e : cworkers st !! j = Some (PFail e) →
    conc_step st (setWorker j PStop
      (mkConc (cnext st) (cstopped st) (match cfirst st with None => Some e | Some _ => cfirst st end) (cstore st) (crun st) (cworkers st)))
| step_stop st j : cworkers st !! j = Some PStop →
    conc_step st (setWorker j PGone (mkConc (cnext st) true (cfirst st) (cstore st) (crun st) (cworkers st))).

Definition startConc (workers : nat) (s : X) : conc X E := mkConc 0 false None s [] (replicate (workers `min` n) PTake).

(** [wg.Wait] returns. *)
Definition allGone (st : conc X E) : Prop := Forall (λ pc, pc = PGone) (cworkers st).

(** [runConcurrent]: what it may return, and the store then. *)
Definition runConcurrent (workers : nat) (s s' : X) (err : option E) : Prop :=
  ∃ st, rtc conc_step (startConc workers s) st ∧ allGone st ∧ cfirst st = err ∧ cstore st = s'.
End Concurrent.

Section ConcurrentBatches.
Context {K V L E : Type} `{!L2Cache K V L E}.
Implicit Types (store : L) (keys : list K).

(** The operation of [BatchGetConcurrent]; the results are a slice beside the store. *)
Definition getOp keys (s : L * list (option V)) (i : nat) : (L * list (option V)) * option E :=
  match keys !! i with
  | None => (s, None)
  | Some key =>
    let '(store, (value, err)) := l2Get s.1 key in
    match err with Some _ => ((store, s.2), err) | None => ((store, <[i := value]> s.2), None) end
  end.

(** The hits, in the order of the keys. *)
Definition gather keys (results : list (option V)) : list (K * V) := omap (λ '(k, r), pair k <$> r) (zip keys results).

Definition BatchGetConcurrent store keys (workers : nat) (store' : L) (answer : list (K * V) * option E) : Prop :=
  if (length keys <=? 1)%nat || (workers <=? 1)%nat then BatchGetSequential store keys = (store', answer)
  else ∃ results err, runConcurrent (length keys) (getOp keys) workers (store, replicate (length keys) None) (store', results) err ∧
    answer = (gather keys results, err).

Definition setOp (items : list (K * V)) (ttl : Z) store (i : nat) : L * option E :=
  match items !! i with None => (store, None) | Some (key, value) => l2Set store key value ttl end.

Definition BatchSetConcurrent store (items : list (K * V)) (ttl : Z) (workers : nat) (store' : L) (err : option E) : Prop :=
  if (length items <=? 1)%nat || (workers <=? 1)%nat then BatchSetSequential store items ttl = (store', err)
  else runConcurrent (length items) (setOp items ttl) workers store store' err.

Definition deleteOp keys store (i : nat) : L * option E :=
  match keys !! i with None => (store, None) | Some key => l2Delete (V := V) store key end.

Definition BatchDeleteConcurrent store keys (workers : nat) (store' : L) (err : option E) : Prop :=
  if (length keys <=? 1)%nat || (workers <=? 1)%nat then BatchDeleteSequential (V := V) store keys = (store', err)
  else runConcurrent (length keys) (deleteOp keys) workers store store' err.
End ConcurrentBatches.

(** ** Codecs *)

Definition BytesCodec {E} : Codec bytes E := mkCodec inr inr.
(** A Go string is its bytes. *)
Definition StringCodec {E} : Codec bytes E := mkCodec inr inr.

(** ** TTL conversions *)

Definition memcachedRelativeMax : Z := 30 * 24 * 60 * 60.

(** [now] is the unix time. *)
Definition MemcacheExpiration (now ttl : Z) : Z :=
  if ttl <=? 0 then 0
  else
    let secs := i64 (ttl + second - 1) ÷ second in
    if secs <=? memcachedRelativeMax then i32 secs
    else
      let deadline := i64 (now + secs) in
      if 2 ^ 31 - 1 <? deadline then 2 ^ 31 - 1 else i32 deadline.

Definition millisecond : Z := 1000000.

Definition RedisMillis (ttl : Z) : Z :=
  let millis := i64 (ttl + millisecond - 1) ÷ millisecond in
  if millis <? 1 then 1 else millis.
