(* ===== verification/L2UtilLaws.v ===== *)
(** * Concurrent batches run every index once

    An invariant of [runConcurrent] over all interleavings of its workers, a measure every step lowers,
    and what follows for a batch of reads. *)

From stdpp Require Import relations.
From S2P Require Import Prelude Expiry Config Stats CacheState WriteBack WriteBackSteps Snapshot L2Util.

Section Conc.
Context {X E : Type} (n : nat) (op : X → nat → X * option E).
Implicit Types (st : conc X E) (pc : workerPc E) (s : X).
Abbreviation step := (conc_step n op).

(** The operations that ran, one after the other, and what they returned. *)
Inductive replay s : list (nat * option E) → X → Prop :=
| replay_nil : replay s [] s
| replay_snoc l s1 i s2 r : replay s l s1 → op s1 i = (s2, r) → replay s (l ++ [(i, r)]) s2.

(** The index a worker has taken and not run. *)
Definition heldBy pc : list nat := match pc with PTest i | PCall i => [i] | _ => [] end.
Definition held (l : list (workerPc E)) : list nat := l ≫= heldBy.

Lemma held_insert (l : list (workerPc E)) j pc pc' :
  l !! j = Some pc → held (<[j := pc']> l) ++ heldBy pc ≡ₚ held l ++ heldBy pc'.
Proof.
  intros Hj. unfold held. rewrite <- (take_drop_middle l j pc Hj) at 2. rewrite insert_take_drop by (by eapply lookup_lt_Some).
  rewrite !bind_app. cbn. solve_Permutation.
Qed.

Record conc_inv s0 st : Prop := {
  cv_replay : replay s0 (crun st) (cstore st);
  cv_nodup : NoDup ((crun st).*1 ++ held (cworkers st));
  cv_taken i : i ∈ (crun st).*1 ++ held (cworkers st) → (i < cnext st)%nat;
  cv_range i r : (i, r) ∈ crun st → (i < n)%nat;
  cv_call j i : cworkers st !! j = Some (PCall i) → (i < n)%nat;
  cv_all i : cstopped st = false → (i < cnext st)%nat → (i < n)%nat → i ∈ (crun st).*1 ++ held (cworkers st);
  cv_first e : cfirst st = Some e → ∃ i, (i, Some e) ∈ crun st;
  cv_fail j e : cworkers st !! j = Some (PFail e) → ∃ i, (i, Some e) ∈ crun st;
  cv_clean : cfirst st = None → cstopped st = false ∧ (∀ j, cworkers st !! j ≠ Some PStop) ∧
    ∀ i e, (i, Some e) ∈ crun st → ∃ j e', cworkers st !! j = Some (PFail e');
  cv_gone j : cworkers st !! j = Some PGone → cstopped st = true ∨ (n ≤ cnext st)%nat
}.

Lemma start_inv workers s : conc_inv s (startConc n workers s).
Proof.
  assert (held (cworkers (startConc (E := E) n workers s)) = []) as Hh.
  { cbn. induction (workers `min` n)%nat; [done|]. done. }
  assert (∀ j pc, cworkers (startConc (E := E) n workers s) !! j = Some pc → pc = PTake) as Hw.
  { intros j pc Hj. by apply lookup_replicate in Hj as [-> _]. }
  split; cbn [cnext cstopped cfirst cstore crun startConc fmap list_fmap app]; rewrite ?Hh; try done.
  - constructor.
  - apply NoDup_nil_2.
  - by intros i ?%elem_of_nil.
  - by intros i r ?%elem_of_nil.
  - intros j i Hj. by apply Hw in Hj.
  - intros i _ Hi. lia.
  - intros j e Hj. by apply Hw in Hj.
  - intros _. split_and!; [done|by intros j Hj; apply Hw in Hj|by intros i e ?%elem_of_nil].
  - intros j Hj. by apply Hw in Hj.
Qed.

(** A worker's move that runs nothing. *)
Lemma move_inv s0 st st' j pc pc' :
  conc_inv s0 st → cworkers st !! j = Some pc → cworkers st' = <[j := pc']> (cworkers st) →
  crun st' = crun st → cstore st' = cstore st → (cnext st ≤ cnext st')%nat →
  (* the indexes held *)
  NoDup ((crun st).*1 ++ held (cworkers st')) → (∀ i, i ∈ held (cworkers st') → (i < cnext st')%nat) →
  (∀ i, cstopped st' = false → (i < cnext st')%nat → (i < n)%nat → i ∈ (crun st).*1 ++ held (cworkers st')) →
  (∀ i, pc' = PCall i → (i < n)%nat) → (∀ e, pc' ≠ PFail e) →
  (* the error and the flag *)
  (cstopped st = true → cstopped st' = true) →
  (∀ e, cfirst st' = Some e → cfirst st = Some e ∨ pc = PFail e) →
  (cfirst st' = None → cfirst st = None ∧ cstopped st' = false ∧ pc' ≠ PStop ∧ ∀ e, pc ≠ PFail e) →
  (pc' = PGone → cstopped st' = true ∨ (n ≤ cnext st')%nat) →
  conc_inv s0 st'.
Proof.
  intros [Hrep Hnd Htk Hrg Hcall Hall Hfst Hfail Hcl Hgone] Hj Hw Hr Hs Hn Hnd' Hh' Hall' Hpc1 Hpc2 Hst1 Hst2 Hst3 Hg.
  assert (∀ j' x, cworkers st' !! j' = Some x → x = pc' ∨ cworkers st !! j' = Some x) as Hlook.
  { intros j' x. rewrite Hw. intros [(_ & -> & _)|[_ ?]]%list_lookup_insert_Some; [by left|by right]. }
  split; rewrite ?Hr, ?Hs; try done.
  - intros i [Hi|Hi]%elem_of_app; [|by apply Hh']. specialize (Htk i (proj2 (elem_of_app _ _ _) (or_introl Hi))). lia.
  - intros j' i [Hx|Hx]%Hlook; [by apply Hpc1|by eapply Hcall].
  - intros e [He| ->]%Hst2; [by apply Hfst|by apply (Hfail j)].
  - intros j' e [Hx|Hx]%Hlook; [by destruct (Hpc2 e)|by eapply Hfail].
  - intros (H1 & H2 & H3 & H4)%Hst3. destruct (Hcl H1) as (_ & Hc2 & Hc3). split_and!; [done|..].
    + intros j' [Hx|Hx]%Hlook; [done|by apply (Hc2 j')].
    + intros i e Hin. destruct (Hc3 i e Hin) as (j' & e' & Hj'). exists j', e'. rewrite Hw. destruct (decide (j' = j)) as [->|].
      * exfalso. apply (H4 e'). congruence.
      * by rewrite list_lookup_insert_ne.
  - intros j' [Hx|Hx]%Hlook; [by apply Hg|]. destruct (Hgone j' Hx); [left; auto|right; lia].
Qed.

Lemma NoDup_shrink (a h h' x : list nat) : NoDup (a ++ h) → h' ++ x ≡ₚ h → NoDup (a ++ h').
Proof. intros Hnd Hp. rewrite <- Hp, app_assoc in Hnd. by apply NoDup_app in Hnd as [? _]. Qed.

Lemma step_inv s0 st st' : conc_inv s0 st → step st st' → conc_inv s0 st'.
Proof.
  intros Hinv Hstep. pose proof Hinv as [Hrep Hnd Htk Hrg Hcall Hall Hfst Hfail Hcl Hgone].
  destruct Hstep as [st j Hj|st j i Hj Hout|st j i Hj Hlt Hst|st j i s' r Hj Hop|st j e Hj|st j Hj];
    pose proof (λ pc', held_insert (cworkers st) j _ pc' Hj) as Hh; cbn [heldBy] in Hh.
  - specialize (Hh (PTest (cnext st))). rewrite app_nil_r in Hh. cbn [heldBy] in Hh.
    assert (cnext st ∉ (crun st).*1 ++ held (cworkers st)) as Hnew by (intros Hi%Htk; lia).
    eapply (move_inv s0 st _ j PTake (PTest (cnext st))); cbn [cnext cstopped cfirst cstore crun cworkers setWorker]; try done; try lia.
    + rewrite Hh, app_assoc. apply NoDup_app. split_and!; [done|set_solver|apply NoDup_singleton].
    + intros i. rewrite Hh. intros [Hi|Hi%list_elem_of_singleton]%elem_of_app; [|lia]. specialize (Htk i (proj2 (elem_of_app _ _ _) (or_intror Hi))). lia.
    + intros i Hs Hi Hin. rewrite Hh, app_assoc. apply elem_of_app. destruct (decide (i = cnext st)) as [->|]; [right; by left|left]. apply Hall; [done|lia|done].
    + by left.
    + intros Hf. by destruct (Hcl Hf).
  - specialize (Hh PGone). cbn [heldBy] in Hh. rewrite app_nil_r in Hh.
    eapply (move_inv s0 st _ j (PTest i) PGone); cbn [cnext cstopped cfirst cstore crun cworkers setWorker]; try done.
    + by eapply NoDup_shrink.
    + intros i' Hi'. apply Htk. apply elem_of_app. right. rewrite <- Hh. set_solver.
    + intros i' Hs Hi Hin. assert (i' ∈ (crun st).*1 ++ held (cworkers st)) as Hm by by apply Hall.
      rewrite <- Hh in Hm. apply elem_of_app in Hm as [Hm|[Hm|Hm%list_elem_of_singleton]%elem_of_app]; [set_solver|set_solver|].
      subst i'. destruct Hout as [|Hout]; [lia|congruence].
    + by left.
    + intros Hf. by destruct (Hcl Hf).
    + intros _. destruct Hout as [Hout|Hout]; [right|by left]. specialize (Htk i). rewrite <- Hh in Htk. enough (i < cnext st)%nat by lia. apply Htk. set_solver.
  - specialize (Hh (PCall i)). cbn [heldBy] in Hh. apply (inj (.++ [i])) in Hh.
    eapply (move_inv s0 st _ j (PTest i) (PCall i)); cbn [cnext cstopped cfirst cstore crun cworkers setWorker]; try done.
    + by rewrite Hh.
    + intros i' Hi'. rewrite Hh in Hi'. apply Htk. set_solver.
    + intros i'. rewrite Hh. apply Hall.
    + by intros i' [= <-].
    + by left.
  - specialize (Hh (match r with Some e => PFail e | None => PTake end)). replace (heldBy (match r with Some e => PFail e | None => PTake end)) with (@nil nat) in Hh by by destruct r.
    rewrite app_nil_r in Hh.
    assert (∀ j' x, cworkers (setWorker j (match r with Some e => PFail e | None => PTake end) st) !! j' = Some x →
      x = match r with Some e => PFail e | None => PTake end ∨ cworkers st !! j' = Some x) as Hlook.
    { intros j' x. cbn. intros [(_ & -> & _)|[_ ?]]%list_lookup_insert_Some; [by left|by right]. }
    assert ((crun st ++ [(i, r)]).*1 ++ held (<[j := match r with Some e => PFail e | None => PTake end]> (cworkers st)) ≡ₚ
      (crun st).*1 ++ held (cworkers st)) as Hp.
    { rewrite fmap_app, <- Hh. cbn. rewrite <- app_assoc. cbn. solve_Permutation. }
    split; cbn [cnext cstopped cfirst cstore crun cworkers setWorker].
    + by eapply replay_snoc.
    + by rewrite Hp.
    + intros i'. rewrite Hp. apply Htk.
    + intros i' r' [Hin|Hin%list_elem_of_singleton]%elem_of_app; [by eapply Hrg|]. injection Hin as -> ->. by eapply Hcall.
    + intros j' i' [Hx|Hx]%Hlook; [by destruct r|by eapply Hcall].
    + intros i' Hs Hi Hin. rewrite Hp. by apply Hall.
    + intros e He. destruct (Hfst e He) as [i' Hi']. exists i'. set_solver.
    + intros j' e [Hx|Hx]%Hlook.
      * destruct r as [e'|]; [|done]. injection Hx as ->. exists i. set_solver.
      * destruct (Hfail j' e Hx) as [i' Hi']. exists i'. set_solver.
    + intros Hf. destruct (Hcl Hf) as (Hc1 & Hc2 & Hc3). split_and!; [done|..].
      * intros j' [Hx|Hx]%Hlook; [by destruct r|by apply (Hc2 j')].
      * intros i' e [Hin|Hin%list_elem_of_singleton]%elem_of_app.
        -- destruct (Hc3 i' e Hin) as (j' & e' & Hj'). exists j', e'. rewrite list_lookup_insert_ne; [done|]. intros <-. congruence.
        -- injection Hin as -> <-. exists j, e. rewrite list_lookup_insert_eq; [done|]. by eapply lookup_lt_Some.
    + intros j' [Hx|Hx]%Hlook; [by destruct r|by apply (Hgone j')].
  - specialize (Hh PStop). cbn [heldBy] in Hh. rewrite !app_nil_r in Hh.
    eapply (move_inv s0 st _ j (PFail e) PStop); cbn [cnext cstopped cfirst cstore crun cworkers setWorker]; try done.
    + by rewrite Hh.
    + intros i' Hi'. rewrite Hh in Hi'. apply Htk. set_solver.
    + intros i'. rewrite Hh. apply Hall.
    + intros e'. destruct (cfirst st); [by left|]. intros [= ->]. by right.
    + by destruct (cfirst st).
  - specialize (Hh PGone). cbn [heldBy] in Hh. rewrite !app_nil_r in Hh.
    eapply (move_inv s0 st _ j PStop PGone); cbn [cnext cstopped cfirst cstore crun cworkers setWorker]; try done.
    + by rewrite Hh.
    + intros i' Hi'. rewrite Hh in Hi'. apply Htk. set_solver.
    + by left.
    + intros Hf. destruct (Hcl Hf) as (_ & Hc & _). by destruct (Hc j).
    + by left.
Qed.

(** ** It ends *)

Definition weightOf pc : nat := match pc with PTake => 3 | PTest i => if (i <? n)%nat then 5 else 1 | PCall _ => 4 | PFail _ => 2 | PStop => 1 | PGone => 0 end.
Definition measure st : nat := 3 * (n - cnext st) + sum_list_with weightOf (cworkers st).

Lemma sum_insert (l : list (workerPc E)) j pc pc' :
  l !! j = Some pc → (sum_list_with weightOf (<[j := pc']> l) + weightOf pc = sum_list_with weightOf l + weightOf pc')%nat.
Proof.
  revert j. induction l as [|x l IH]; intros [|j] Hj; try done.
  - injection Hj as ->. change (<[0%nat := pc']> (pc :: l)) with (pc' :: l). cbn [sum_list_with]. lia.
  - specialize (IH j Hj). change (<[S j := pc']> (x :: l)) with (x :: <[j := pc']> l). cbn [sum_list_with]. lia.
Qed.

Lemma step_measure st st' : step st st' → (measure st' < measure st)%nat.
Proof.
  intros Hstep. unfold measure.
  destruct Hstep as [st j Hj|st j i Hj Hout|st j i Hj Hlt Hst|st j i s' r Hj Hop|st j e Hj|st j Hj];
    cbn [cnext cworkers setWorker];
    match goal with |- context [sum_list_with weightOf (<[j := ?pc']> _)] => pose proof (sum_insert _ j _ pc' Hj) as Hs end;
    cbn [weightOf] in Hs; try lia.
  - destruct (Nat.ltb_spec (cnext st) n); lia.
  - destruct (i <? n)%nat; lia.
  - rewrite (proj2 (Nat.ltb_lt i n)) in Hs by done. lia.
  - destruct r; cbn [weightOf] in *; lia.
Qed.

#[global] Instance gone_dec pc : Decision (pc = PGone).
Proof. destruct pc; solve [left; reflexivity|right; discriminate]. Defined.
#[global] Instance allGone_dec st : Decision (allGone st).
Proof. apply Forall_dec. intros pc. apply gone_dec. Defined.

Lemma can_step st : ¬ allGone st → ∃ st', step st st'.
Proof.
  intros Hg. apply not_Forall_Exists, Exists_exists in Hg as (pc & Hin & Hne); [|apply gone_dec].
  apply list_elem_of_lookup in Hin as [j Hj]. destruct pc as [|i|i|e| |]; [by eexists; apply (step_take _ _ st j)| | | | |by destruct Hne].
  - destruct (decide (n ≤ i)%nat); [by eexists; apply (step_leave _ _ st j i); [|left]|].
    destruct (cstopped st) eqn:Es; [by eexists; apply (step_leave _ _ st j i); [|right]|]. eexists. apply (step_enter _ _ st j i); [done|lia|done].
  - destruct (op (cstore st) i) as [s' r] eqn:Eo. eexists. by eapply (step_call _ _ st j i s' r).
  - by eexists; apply (step_fail _ _ st j e).
  - by eexists; apply (step_stop _ _ st j).
Qed.

(** From anywhere the workers can run to the end, and there is no other way to go on for ever. *)
Lemma run_out st : ∃ st', rtc step st st' ∧ allGone st'.
Proof.
  remember (measure st) as m eqn:Em. revert st Em. induction (lt_wf m) as [m _ IH]. intros st ->.
  destruct (decide (allGone st)) as [Hg|Hg]; [by exists st|].
  destruct (can_step st Hg) as [st1 H1].
  destruct (IH _ (step_measure _ _ H1) st1 eq_refl) as (st' & Hr & Ha). exists st'. split; [by eapply rtc_l|done].
Qed.

Lemma run_inv s workers st : rtc step (startConc n workers s) st → conc_inv s st ∧ length (cworkers st) = (workers `min` n)%nat.
Proof.
  intros Hr. assert (conc_inv s (startConc n workers s) ∧ length (cworkers (startConc (E := E) n workers s)) = (workers `min` n)%nat) as H0.
  { split; [apply start_inv|]. cbn. apply length_replicate. }
  revert H0. generalize (startConc (E := E) n workers s) Hr. clear. intros st0 Hr. induction Hr as [|st1 st2 st3 Hs _ IH]; [done|].
  intros [Hi Hl]. apply IH. split; [by eapply step_inv|]. rewrite <- Hl. destruct Hs; cbn; apply length_insert.
Qed.

Lemma held_gone (l : list (workerPc E)) : Forall (λ pc, pc = PGone) l → held l = [].
Proof. intros Hg. induction Hg as [|pc l -> _ IH]; [done|]. exact IH. Qed.

(** What a finished run did. *)
Lemma finished_run s workers st :
  (1 ≤ workers)%nat → rtc step (startConc n workers s) st → allGone st →
  NoDup (crun st).*1 ∧ replay s (crun st) (cstore st) ∧ (∀ i r, (i, r) ∈ crun st → (i < n)%nat) ∧
  match cfirst st with
  | None => (crun st).*1 ≡ₚ seq 0 n ∧ ∀ i r, (i, r) ∈ crun st → r = None
  | Some e => ∃ i, (i, Some e) ∈ crun st
  end.
Proof.
  intros Hwk Hr Hg. destruct (run_inv s workers st Hr) as [[Hrep Hnd Htk Hrg Hcall Hall Hfst Hfail Hcl Hgone] Hlen].
  assert (held (cworkers st) = []) as Hh by by apply held_gone.
  rewrite Hh, app_nil_r in *. split_and!; [done|done|done|]. destruct (cfirst st) as [e|] eqn:Ef; [by apply Hfst|].
  destruct (Hcl eq_refl) as (Hs & _ & Hno).
  assert (∀ j x, cworkers st !! j = Some x → x = PGone) as Hx by (intros j x Hj; by eapply Forall_lookup_1 in Hg; [|done]).
  split.
  - apply NoDup_Permutation; [done|apply NoDup_seq|]. intros i. rewrite elem_of_seq. split.
    + intros ([i' r] & -> & Hin)%list_elem_of_fmap. cbn. specialize (Hrg i' r Hin). lia.
    + intros Hi. destruct (lookup_lt_is_Some_2 (cworkers st) 0) as [pc Hpc]; [lia|].
      pose proof (Hx _ _ Hpc) as ->. destruct (Hgone 0%nat Hpc) as [|Hn]; [congruence|].
      specialize (Hall i Hs ltac:(lia) ltac:(lia)). exact Hall.
  - intros i [e|] Hin; [|done]. destruct (Hno i e Hin) as (j & e' & Hj). by apply Hx in Hj.
Qed.
End Conc.

(** C6: [runConcurrent] of the adapters' helpers with at least one worker. However the workers interleave, every step
    lowers a measure and the run ends. The operations that ran, taken in the order they ran in, lead from the store
    before to the store after; each ran for an index below [n] and no index ran twice. When it returns no error,
    every index ran and no operation failed; an error it returns is the error of an operation that ran. *)
Theorem concurrent_batch_runs_each_once {X E} (n : nat) (op : X → nat → X * option E) (workers : nat) (s : X) :
  (1 ≤ workers)%nat →
  (∀ st st', conc_step n op st st' → (measure n st' < measure n st)%nat) ∧
  (∃ s' err, runConcurrent n op workers s s' err) ∧
  ∀ s' err, runConcurrent n op workers s s' err →
    ∃ log, replay op s log s' ∧ NoDup log.*1 ∧ (∀ i r, (i, r) ∈ log → (i < n)%nat) ∧
      match err with
      | None => log.*1 ≡ₚ seq 0 n ∧ ∀ i r, (i, r) ∈ log → r = None
      | Some e => ∃ i, (i, Some e) ∈ log
      end.
Proof.
  intros Hw. split_and!; [apply step_measure|..].
  - destruct (run_out n op (startConc n workers s)) as (st & Hr & Hg). by exists (cstore st), (cfirst st), st.
  - intros s' err (st & Hr & Hg & <- & <-). destruct (finished_run n op s workers st Hw Hr Hg) as (H1 & H2 & H3 & H4). by exists (crun st).
Qed.

Lemma concurrent_batch_runs_each_once_witness :
  ∃ s' err, runConcurrent 3 (λ s i, if decide (i = 1)%nat then (s, Some i) else (i :: s, None)) 2 [] s' err.
Proof.
  apply (concurrent_batch_runs_each_once 3 (λ s i, if decide (i = 1)%nat then (s, Some i) else (i :: s, None)) 2 []). lia.
Defined.

(** ** A concurrent batch of reads *)

Section Reads.
Context {K V L E : Type} `{!L2Cache K V L E}.
Context (store : L) (reads : K → option V * option E) (Hreads : ∀ k, l2Get store k = (store, reads k)).
Implicit Types (keys : list K).

(** The keys that read something. *)
Definition readHits keys : list (K * V) := omap (λ k, pair k <$> (reads k).1) keys.

Definition answersOf keys (found : list (K * V)) (err : option E) : Prop :=
  match err with
  | None => found = readHits keys ∧ ∀ k, k ∈ keys → (reads k).2 = None
  | Some e => (∃ k, k ∈ keys ∧ (reads k).2 = Some e) ∧ found `sublist_of` readHits keys
  end.

Lemma batchGetLoop_spec keys found :
  ∃ more err, batchGetLoop store keys found = (store, (found ++ more, err)) ∧ answersOf keys more err.
Proof.
  revert found. induction keys as [|k keys IH]; intros found; cbn.
  { exists [], None. rewrite app_nil_r. split; [done|]. split; [done|]. by intros k ?%elem_of_nil. }
  rewrite Hreads. destruct (reads k) as [v err] eqn:Ek. destruct err as [e|].
  - exists [], (Some e). rewrite app_nil_r. split; [done|]. split; [|apply sublist_nil_l]. exists k. rewrite Ek. split; [by left|done].
  - destruct (IH (match v with Some v => found ++ [(k, v)] | None => found end)) as (more & err & -> & Ha).
    exists (match v with Some v => (k, v) :: more | None => more end), err. split; [destruct v; [by rewrite <- app_assoc|done]|].
    unfold answersOf, readHits in *. cbn. rewrite Ek. destruct err as [e|].
    + destruct Ha as [(k' & Hin & He) Hs]. split; [exists k'; split; [by right|done]|]. destruct v; cbn; [by apply sublist_skip|done].
    + destruct Ha as [-> Hc]. split; [by destruct v|]. intros k' [->|Hin]%elem_of_cons; [by rewrite Ek|by apply Hc].
Qed.

Lemma batchGetLoop_clean keys :
  (∀ k, k ∈ keys → (reads k).2 = None) → BatchGetSequential store keys = (store, (readHits keys, None)).
Proof.
  intros Hc. unfold BatchGetSequential. destruct (batchGetLoop_spec keys []) as (more & [e|] & -> & Ha); cbn.
  - destruct Ha as [(k & Hin & He) _]. rewrite Hc in He; done.
  - by destruct Ha as [-> _].
Qed.

(** The result slots: what was read at the indexes that ran without an error, nothing elsewhere. *)
Definition slotsOf keys (log : list (nat * option E)) (results : list (option V)) : Prop :=
  length results = length keys ∧
  ∀ i k, keys !! i = Some k →
    (((i, None) ∈ log) ∧ results !! i = Some ((reads k).1)) ∨ (¬ (i, None) ∈ log ∧ results !! i = Some None).

Lemma getOp_replay keys log s' :
  replay (getOp keys) (store, replicate (length keys) None) log s' →
  s'.1 = store ∧ slotsOf keys log s'.2 ∧ ∀ i r k, (i, r) ∈ log → keys !! i = Some k → r = (reads k).2.
Proof.
  induction 1 as [|l [st1 res1] i s2 r _ (Hs & [Hl Hsl] & Hr) Hop].
  - cbn [fst snd]. split_and!; [done| |by intros i r k ?%elem_of_nil]. split; [apply length_replicate|]. intros i k Hk. right.
    split; [by intros ?%elem_of_nil|]. apply lookup_replicate_2. by eapply lookup_lt_Some.
  - cbn [fst snd] in *. subst st1. unfold getOp in Hop. cbn [fst snd] in Hop. destruct (keys !! i) as [k|] eqn:Ek; cbn in Hop.
    + rewrite Hreads in Hop. destruct (reads k) as [v err] eqn:Er.
      assert (∀ i' r' k', (i', r') ∈ l ++ [(i, err)] → keys !! i' = Some k' → r' = (reads k').2) as Hr'.
      { intros i' r' k' [Hin|Hin%list_elem_of_singleton]%elem_of_app Hk'; [by eapply Hr|].
        injection Hin as -> ->. rewrite Ek in Hk'. injection Hk' as <-. by rewrite Er. }
      destruct err as [e|]; injection Hop as <- <-; cbn [fst snd]; split_and!; try done; (split; [by rewrite ?length_insert|]); intros i' k' Hk'.
      * destruct (Hsl i' k' Hk') as [[Hin Hv]|[Hin Hv]]; [left|right]; split; try done; [set_solver|].
        intros [?|[=]%list_elem_of_singleton]%elem_of_app. done.
      * destruct (decide (i' = i)) as [->|Hne].
        -- left. split; [set_solver|]. rewrite list_lookup_insert_eq by (rewrite Hl; by eapply lookup_lt_Some).
           rewrite Ek in Hk'. injection Hk' as <-. by rewrite Er.
        -- rewrite list_lookup_insert_ne by done. destruct (Hsl i' k' Hk') as [[Hin Hv]|[Hin Hv]]; [left|right]; split; try done; [set_solver|].
           intros [?|[= ?]%list_elem_of_singleton]%elem_of_app; done.
    + injection Hop as <- <-. cbn [fst snd]. assert (∀ i' k', keys !! i' = Some k' → i' ≠ i) as Hne by (intros i' k' Hk' ->; congruence).
      split_and!; [done| |].
      * split; [done|]. intros i' k' Hk'. specialize (Hne i' k' Hk').
        destruct (Hsl i' k' Hk') as [[Hin Hv]|[Hin Hv]]; [left|right]; split; try done; [set_solver|].
        intros [?|[= ?]%list_elem_of_singleton]%elem_of_app; done.
      * intros i' r' k' [Hin|Hin%list_elem_of_singleton]%elem_of_app Hk'; [by eapply Hr|].
        injection Hin as -> ->. by destruct (Hne i k').
Qed.

Lemma gather_all keys results :
  length results = length keys → (∀ i k, keys !! i = Some k → results !! i = Some ((reads k).1)) → gather keys results = readHits keys.
Proof.
  intros Hl Hr. assert (results = (λ k, (reads k).1) <$> keys) as ->.
  { apply list_eq. intros i. rewrite list_lookup_fmap. destruct (keys !! i) as [k|] eqn:Ek; cbn; [by apply Hr|].
    apply lookup_ge_None. rewrite Hl. by apply lookup_ge_None. }
  clear. unfold gather, readHits. induction keys as [|k keys IH]; cbn; [done|]. rewrite IH. by destruct (reads k).1.
Qed.

Lemma gather_some keys results :
  length results = length keys → (∀ i k, keys !! i = Some k → results !! i = Some ((reads k).1) ∨ results !! i = Some None) →
  gather keys results `sublist_of` readHits keys.
Proof.
  revert results. induction keys as [|k keys IH]; intros [|r results] Hl Hr; try done. unfold gather, readHits. cbn.
  specialize (IH results ltac:(by injection Hl) (λ i, Hr (S i))). destruct (Hr 0%nat k eq_refl) as [[= ->]|[= ->]]; cbn.
  - destruct (reads k).1; cbn; [by apply sublist_skip|done].
  - destruct (reads k).1; cbn; [by apply sublist_cons|done].
Qed.

Lemma finished_reads keys workers s' err :
  (1 ≤ workers)%nat → runConcurrent (length keys) (getOp keys) workers (store, replicate (length keys) None) s' err →
  s'.1 = store ∧ answersOf keys (gather keys s'.2) err.
Proof.
  intros Hw (st & Hr & Hg & <- & <-). destruct (finished_run _ _ _ workers st Hw Hr Hg) as (_ & Hrep & Hrg & Hfin).
  apply getOp_replay in Hrep as (Hs & [Hl Hsl] & Hret). split; [done|]. unfold answersOf. destruct (cfirst st) as [e|].
  - destruct Hfin as [i Hi]. split.
    + destruct (lookup_lt_is_Some_2 keys i) as [k Hk]; [by eapply Hrg|]. exists k. split; [by eapply list_elem_of_lookup_2|].
      symmetry. by eapply Hret.
    + apply gather_some; [done|]. intros i' k' Hk'. destruct (Hsl i' k' Hk') as [[_ ?]|[_ ?]]; [by left|by right].
  - destruct Hfin as [Hp Hno].
    assert (∀ i k, keys !! i = Some k → (i, None) ∈ crun st) as Hran.
    { intros i k Hk. apply lookup_lt_Some in Hk. assert (i ∈ (crun st).*1) as Hi by (rewrite Hp; apply elem_of_seq; lia).
      apply list_elem_of_fmap in Hi as ([i' r] & -> & Hin). cbn. by rewrite <- (Hno _ _ Hin). }
    split.
    + apply gather_all; [done|]. intros i k Hk. destruct (Hsl i k Hk) as [[_ ?]|[Hn _]]; [done|]. destruct Hn. by eapply Hran.
    + intros k [i Hk]%list_elem_of_lookup. symmetry. eapply Hret; [by eapply Hran|done].
Qed.

(** A concurrent batch of reads over a store that answers reads with [reads] and does not change: it ends, and an answer
    without an error is the answer of the sequential batch; with an error, it is the error of one of the keys and
    the hits are some of the keys' hits, in the order of the keys. *)
Theorem concurrent_reads_are_sequential keys workers :
  (∃ answer, BatchGetConcurrent store keys workers store answer) ∧
  ∀ store' found err, BatchGetConcurrent store keys workers store' (found, err) →
    store' = store ∧
    match err with
    | None => BatchGetSequential store keys = (store, (found, None))
    | Some e => (∃ k, k ∈ keys ∧ (reads k).2 = Some e) ∧ found `sublist_of` readHits keys
    end.
Proof.
  unfold BatchGetConcurrent. destruct (_ || _) eqn:Ec.
  - destruct (batchGetLoop_spec keys []) as (more & err & Hb & Ha). unfold BatchGetSequential. rewrite Hb. cbn [app]. split; [by exists (more, err)|].
    intros store' found err' [= <- <- <-]. split; [done|]. by destruct err.
  - apply orb_false_iff in Ec as [_ Hw%Nat.leb_gt]. split.
    + destruct (run_out (length keys) (getOp keys) (startConc (length keys) workers (store, replicate (length keys) None))) as (st & Hr & Hg).
      assert (runConcurrent (length keys) (getOp keys) workers (store, replicate (length keys) None) (cstore st) (cfirst st)) as Hrun by by exists st.
      destruct (finished_reads keys workers _ _ ltac:(lia) Hrun) as [Hs _]. destruct (cstore st) as [st' results]. cbn in Hs. subst st'.
      by exists (gather keys results, cfirst st), results, (cfirst st).
    + intros store' found err (results & err' & Hrun & [= -> ->]). destruct (finished_reads keys workers _ _ ltac:(lia) Hrun) as [Hs Ha]. split; [done|].
      destruct err' as [e|]; [done|]. destruct Ha as [Hf Hc]. cbn in Hf. rewrite Hf. by apply batchGetLoop_clean.
Qed.
End Reads.

(** ** TTL conversions *)

Lemma round_up x u : 0 < u → x ≤ (x + u - 1) / u * u < x + u.
Proof. intros Hu. pose proof (Z.div_mod (x + u - 1) u ltac:(lia)). pose proof (Z.mod_pos_bound (x + u - 1) u Hu). lia. Qed.

(** A positive TTL is rounded up to whole seconds and never becomes 0, memcached's "for ever", and beyond 30 days
    it is the unix time it ends at, up to the 32-bit horizon. *)
Lemma MemcacheExpiration_spec now ttl :
  0 ≤ now < 2 ^ 31 → 0 < ttl ≤ 2 ^ 63 - second →
  let secs := (ttl + second - 1) / second in
  ttl ≤ secs * second < ttl + second ∧ 1 ≤ MemcacheExpiration now ttl < 2 ^ 31 ∧
  MemcacheExpiration now ttl = if secs <=? memcachedRelativeMax then secs else Z.min (now + secs) (2 ^ 31 - 1).
Proof.
  intros Hn Ht secs. unfold MemcacheExpiration. rewrite (proj2 (Z.leb_gt ttl 0)) by lia.
  rewrite (i64_small (ttl + second - 1)) by (unfold second in *; lia). rewrite Z.quot_div_nonneg by (unfold second in *; lia). fold secs.
  assert (ttl ≤ secs * second < ttl + second) as Hs by by apply round_up.
  clearbody secs.
  assert (1 ≤ secs < 2 ^ 62) as Hr by (unfold second in *; lia). split; [done|]. unfold memcachedRelativeMax. destruct (Z.leb_spec secs (30 * 24 * 60 * 60)).
  - rewrite i32_small; lia.
  - rewrite i64_small by lia. destruct (Z.ltb_spec (2 ^ 31 - 1) (now + secs)); [lia|]. rewrite i32_small; lia.
Qed.

(** Whole milliseconds, rounded up, for every TTL that leaves room for the rounding; the longest durations do not. *)
Lemma RedisMillis_spec ttl :
  0 < ttl ≤ 2 ^ 63 - millisecond → ttl ≤ RedisMillis ttl * millisecond < ttl + millisecond.
Proof.
  intros Ht. unfold RedisMillis. rewrite i64_small by (unfold millisecond in *; lia). rewrite Z.quot_div_nonneg by (unfold millisecond in *; lia).
  pose proof (round_up ttl millisecond eq_refl). unfold millisecond in *. case_match; lia.
Qed.

Example RedisMillis_longest : RedisMillis (2 ^ 63 - 1) = 1.
Proof. reflexivity. Qed.
