(* ===== verification/Redis.v ===== *)
(** * What the Redis adapters share

    The commands they send, the replies, and the parts of l2/goredis_adapter, l2/redigo_adapter,
    l2/redispipe_adapter and l2/rueidis_adapter (of which l2/valkey_adapter is a copy over another client)
    that are the same in all four.  A client library and the server behind it are parameters: an operation
    takes the outside world [D] before and gives it back after. *)

From stdpp Require Import strings.
From S2P Require Import Prelude Expiry Config CacheState Snapshot L2Util.

(** [SETPX] carries milliseconds, [SETTTL] a duration that the client library converts. *)
Inductive Cmd :=
| GET (key : string) | SET (key : string) (data : bytes) | SETPX (key : string) (data : bytes) (millis : Z)
| SETTTL (key : string) (data : bytes) (ttl : Z) | DEL (keys : list string) | MGET (keys : list string)
| MSET (pairs : list (string * bytes)).

Inductive Reply (E : Type) := RNil | RBulk (data : bytes) | ROk | RInt (n : Z) | RArray (l : list (Reply E)) | RErr (e : E).
Arguments RNil {E}.
Arguments RBulk {E}.
Arguments ROk {E}.
Arguments RInt {E}.
Arguments RArray {E}.
Arguments RErr {E}.

(** What an operation may fail with: an error of the client, the server or the codec; the
    client's error for a nil reply; an error the adapter
    makes up about a reply it cannot use; [IndexPanic] stands for the panic of an index out of range. *)
Inductive OpError (E : Type) := Err (e : E) | ErrNil | BadReply | ReplyCount (got want : nat) | IndexPanic.
Arguments Err {E}.
Arguments ErrNil {E}.
Arguments BadReply {E}.
Arguments ReplyCount {E}.
Arguments IndexPanic {E}.

Definition argWireOverhead : Z := 16.

(** The wire size of a list of keys, and of key-value pairs. *)
Definition keysSize (storageKeys : list string) : Z :=
  foldl (λ size k, size + (Z.of_nat (String.length k) + argWireOverhead)) 0 storageKeys.

Definition pairsSize (pairs : list (string * bytes)) : Z :=
  foldl (λ size kv, size + (Z.of_nat (String.length kv.1) + Z.of_nat (length kv.2) + 2 * argWireOverhead)) 0 pairs.

Section Shared.
Context {K V E : Type} (keyFunc : K → string) (codec : Codec V E).

(** The loop over the replies of a batch of reads: [classify] skips a miss, fails, or gives the data, which is
    decoded for the key at the reply's position. *)
Fixpoint collectAt (classify : Reply E → OpError E + option bytes) (keys : list K) (i : nat) (replies : list (Reply E))
    (found : list (K * V)) : list (K * V) * option (OpError E) :=
  match replies with
  | [] => (found, None)
  | reply :: replies =>
    match classify reply with
    | inl err => (found, Some err)
    | inr None => collectAt classify keys (S i) replies found
    | inr (Some data) =>
      match Unmarshal codec data with
      | inl err => (found, Some (Err err))
      | inr value =>
        match keys !! i with
        | None => (found, Some IndexPanic)
        | Some key => collectAt classify keys (S i) replies (found ++ [(key, value)])
        end
      end
    end
  end.

(** A single read's answer, from the same classification. *)
Definition answerOf (r : OpError E + option bytes) : option V * option (OpError E) :=
  match r with
  | inl err => (None, Some err)
  | inr None => (None, None)
  | inr (Some data) => match Unmarshal codec data with inl err => (None, Some (Err err)) | inr value => (Some value, None) end
  end.

(** The values of a batch encoded one after the other, up to the first that fails. *)
Fixpoint marshalAll (items : list (K * V)) : E + list (string * bytes) :=
  match items with
  | [] => inr []
  | (key, value) :: items =>
    match Marshal codec value with
    | inl err => inl err
    | inr data => match marshalAll items with inl err => inl err | inr pairs => inr ((keyFunc key, data) :: pairs) end
    end
  end.
End Shared.

(** The first error among the replies of a batch of writes. *)
Fixpoint firstError {E} (replies : list (Reply E)) : option (OpError E) :=
  match replies with
  | [] => None
  | RErr e :: _ => Some (Err e)
  | _ :: replies => firstError replies
  end.
