(* ===== verification/KvStore.v ===== *)
(** * A second level over a key-value store

    What the adapters promise to the cache, in terms of the bytes a store holds under string keys and the lifetimes they
    have left, and that this promise is the interface's contract [L2Laws] when the codec reads back what it wrote and distinct
    keys have distinct storage keys. *)

From stdpp Require Import strings gmap.
From S2P Require Import Prelude Expiry Config CacheState Snapshot L2Util Redis.

(** A codec that does not fail and reads back what it wrote. *)
Class TotalCodec {V E : Type} (codec : Codec V E) := {
  enc : V → bytes;
  dec : bytes → V;
  Marshal_enc v : Marshal codec v = inr (enc v);
  Unmarshal_dec b : Unmarshal codec b = inr (dec b);
  dec_enc v : dec (enc v) = v
}.

#[global] Instance BytesCodec_total {E} : TotalCodec (V := bytes) (E := E) BytesCodec.
Proof. by refine {| enc := id; dec := id |}. Defined.

(** Bytes and the nanoseconds they have left; 0 is no deadline. *)
Abbreviation table := (gmap string (bytes * Z)).

Definition putAll {A} (m : gmap string A) (pairs : list (string * A)) : gmap string A := foldl (λ m kv, <[kv.1 := kv.2]> m) m pairs.
Definition removeAll {A} (m : gmap string A) (keys : list string) : gmap string A := foldl (λ m k, delete k m) m keys.

Lemma putAll_cons {A} (m : gmap string A) k a pairs : putAll m ((k, a) :: pairs) = putAll (<[k := a]> m) pairs.
Proof. done. Qed.

Lemma removeAll_cons {A} (m : gmap string A) k keys : removeAll m (k :: keys) = removeAll (delete k m) keys.
Proof. done. Qed.

(** The rows of a batch with one lifetime. *)
Definition rowsWith (life : Z) (pairs : list (string * bytes)) : list (string * (bytes * Z)) := (λ kv, (kv.1, (kv.2, life))) <$> pairs.

(** A batch of writes: the bytes are those of the last pair of each key, and for a TTL the store can express ([exact_]) each has the
    lifetime it asks for. *)
Definition puts (life : Z → Z) (exact_ : Z → Prop) (ttl : Z) (m : table) (pairs : list (string * bytes)) (m' : table) : Prop :=
  fst <$> m' = putAll (fst <$> m) pairs ∧ (exact_ ttl → m' = putAll m (rowsWith (life ttl) pairs)).

Lemma fmap_putAll {A B} (g : A → B) (m : gmap string A) pairs : g <$> putAll m pairs = putAll (g <$> m) (prod_map id g <$> pairs).
Proof.
  revert m. induction pairs as [|[k a] pairs IH]; intros m; [done|].
  cbn [fmap list_fmap prod_map fst snd]. rewrite !putAll_cons. by rewrite IH, fmap_insert.
Qed.

Lemma fst_rowsWith life m pairs : fst <$> putAll m (rowsWith life pairs) = putAll (fst <$> m) pairs.
Proof. rewrite fmap_putAll. f_equal. unfold rowsWith. rewrite <- list_fmap_compose. rewrite <- (list_fmap_id pairs) at 2. by apply list_fmap_ext; intros ? [? ?]. Qed.

Lemma puts_rows life exact_ ttl m pairs m' : m' = putAll m (rowsWith (life ttl) pairs) → puts life exact_ ttl m pairs m'.
Proof. intros ->. split; [apply fst_rowsWith|done]. Qed.

Section Kv.
Context {K V E E' D : Type} (keyFunc : K → string) (codec : Codec V E) `{!TotalCodec codec}.
Implicit Types (m : table) (k : K) (v : V).

Definition pairsOf (items : list (K * V)) : list (string * bytes) := (λ kv, (keyFunc kv.1, enc kv.2)) <$> items.

Lemma marshalAll_total items : marshalAll keyFunc codec items = inr (pairsOf items).
Proof. induction items as [|[k v] items IH]; [done|]. cbn. by rewrite Marshal_enc, IH. Qed.

Definition viewOf m k : option V := dec ∘ fst <$> m !! keyFunc k.

(** The adapter's operations over a store that holds [kv s]: none fails, and each does to the table what its name
    says. *)
Record kv_lawful (l2 : L2Cache K V D E') (kv : D → table) (life : Z → Z) (exact_ : Z → Prop) : Prop := {
  kv_get s k : let '(s', a) := l2Get (L2Cache := l2) s k in a = (viewOf (kv s) k, None) ∧ kv s' = kv s;
  kv_batchGet s ks : let '(s', (r, e)) := l2BatchGet (L2Cache := l2) s ks in
    e = None ∧ kv s' = kv s ∧ ∀ k v, (k, v) ∈ r ↔ k ∈ ks ∧ viewOf (kv s) k = Some v;
  kv_set s k v ttl : let '(s', e) := l2Set (L2Cache := l2) s k v ttl in
    e = None ∧ puts life exact_ ttl (kv s) [(keyFunc k, enc v)] (kv s');
  kv_batchSet s l ttl : let '(s', e) := l2BatchSet (L2Cache := l2) s l ttl in e = None ∧ puts life exact_ ttl (kv s) (pairsOf l) (kv s');
  kv_delete s k : let '(s', e) := l2Delete (L2Cache := l2) s k in e = None ∧ kv s' = delete (keyFunc k) (kv s);
  kv_batchDelete s ks : let '(s', e) := l2BatchDelete (L2Cache := l2) s ks in e = None ∧ kv s' = removeAll (kv s) (keyFunc <$> ks)
}.

Context `{!EqDecision K} (Hinj : Inj (=) (=) keyFunc).

(** The rows under the keys' storage keys. *)
Definition rowAt m k : option (bytes * Z) := m !! keyFunc k.

Lemma rowAt_insert m k r k' : rowAt (<[keyFunc k := r]> m) k' = upd (rowAt m) k (Some r) k'.
Proof.
  unfold rowAt, upd. case_decide as Hk; [subst; apply lookup_insert_eq|].
  rewrite lookup_insert_ne; [done|]. by intros ?%Hinj.
Qed.

Lemma rowAt_delete m k k' : rowAt (delete (keyFunc k) m) k' = upd (rowAt m) k None k'.
Proof.
  unfold rowAt, upd. case_decide as Hk; [subst; apply lookup_delete_eq|].
  rewrite lookup_delete_ne; [done|]. by intros ?%Hinj.
Qed.

Lemma rowAt_putAll t l m k' :
  rowAt (putAll m (rowsWith t (pairsOf l))) k' = updAll (rowAt m) ((λ kv, (kv.1, (enc kv.2, t))) <$> l) k'.
Proof.
  enough (∀ f, (∀ k, rowAt m k = f k) → ∀ k', rowAt (putAll m (rowsWith t (pairsOf l))) k' = updAll f ((λ kv, (kv.1, (enc kv.2, t))) <$> l) k') as H by by apply H.
  revert m. induction l as [|[k v] l IH]; intros m f Hf k''; [apply Hf|]. cbn. apply IH. intros k0. rewrite rowAt_insert. unfold upd.
  by case_decide.
Qed.

Lemma rowAt_removeAll ks m k' : rowAt (removeAll m (keyFunc <$> ks)) k' = dropAll (rowAt m) ks k'.
Proof.
  enough (∀ f, (∀ k, rowAt m k = f k) → ∀ k', rowAt (removeAll m (keyFunc <$> ks)) k' = dropAll f ks k') as H by by apply H.
  revert m. induction ks as [|k ks IH]; intros m f Hf k''; [apply Hf|]. cbn. apply IH. intros k0. rewrite rowAt_delete. unfold upd.
  by case_decide.
Qed.

(** The promise gives the contract the cache is proved against, over a store that can express every TTL and drops a key when its
    lifetime is over: [pass dt s] is the store [dt] nanoseconds later. *)
Definition kv_L2Laws (l2 : L2Cache K V D E') (kv : D → table) (life : Z → Z) (exact_ : Z → Prop) (H : kv_lawful l2 kv life exact_)
    (Hexact : ∀ ttl, exact_ ttl) (Hnone : life 0 = 0) (Hsome : ∀ ttl, 0 < ttl → 0 < life ttl)
    (pass : Z → D → D) (Hpass : ∀ dt s, kv (pass dt s) = omap (aged dt) (kv s)) : L2Laws K V D E'.
Proof.
  refine {| l2Data := bytes; l2enc := enc; l2dec := dec; l2dec_enc := dec_enc; l2life := life; l2life_none := Hnone; l2life_some := Hsome;
    l2rows := λ s, rowAt (kv s); l2pass := pass |}.
  - intros dt s k. unfold rowAt. by rewrite Hpass, lookup_omap.
  - intros s k. pose proof (kv_get _ _ _ _ H s k) as Hs. destruct (l2Get s k) as [s' [r e]]. destruct Hs as [[= -> ->] ->]. done.
  - intros s ks. pose proof (kv_batchGet _ _ _ _ H s ks) as Hs. destruct (l2BatchGet s ks) as [s' [r e]]. destruct Hs as (-> & -> & Hr). done.
  - intros s k v ttl. pose proof (kv_set _ _ _ _ H s k v ttl) as Hs. destruct (l2Set s k v ttl) as [s' e]. destruct Hs as [-> [_ Hs]]. split; [done|].
    intros k'. rewrite Hs by done. apply (rowAt_putAll (life ttl) [(k, v)]).
  - intros s l ttl. pose proof (kv_batchSet _ _ _ _ H s l ttl) as Hs. destruct (l2BatchSet s l ttl) as [s' e]. destruct Hs as [-> [_ Hs]]. split; [done|].
    intros k'. rewrite Hs by done. apply rowAt_putAll.
  - intros s k. pose proof (kv_delete _ _ _ _ H s k) as Hs. destruct (l2Delete s k) as [s' e]. destruct Hs as [-> ->]. split; [done|].
    intros k'. apply rowAt_delete.
  - intros s ks. pose proof (kv_batchDelete _ _ _ _ H s ks) as Hs. destruct (l2BatchDelete s ks) as [s' e]. destruct Hs as [-> ->]. split; [done|].
    intros k'. apply rowAt_removeAll.
Defined.
End Kv.

(** ** Tables *)

Section Tables.
Context {A : Type}.
Implicit Types (m : gmap string A) (pairs : list (string * A)).

Lemma lookup_putAll m pairs k : NoDup pairs.*1 → putAll m pairs !! k = ((list_to_map pairs : gmap string A) ∪ m) !! k.
Proof.
  revert m. induction pairs as [|[k' d] pairs IH]; intros m Hnd; [by cbn; rewrite (left_id_L ∅ (∪))|].
  apply NoDup_cons in Hnd as [Hk Hnd]. rewrite putAll_cons, IH by done. cbn. destruct (decide (k = k')) as [->|Hne].
  - rewrite !lookup_union, lookup_insert_eq, lookup_insert_eq, not_elem_of_list_to_map_1 by done. by destruct (m !! k').
  - by rewrite !lookup_union, !lookup_insert_ne.
Qed.

Lemma putAll_NoDup m pairs : NoDup pairs.*1 → putAll m pairs = (list_to_map pairs : gmap string A) ∪ m.
Proof. intros Hnd. apply map_eq. intros k. by apply lookup_putAll. Qed.

Lemma putAll_union m m0 pairs : putAll (m0 ∪ m) pairs = putAll m0 pairs ∪ m.
Proof. revert m0. induction pairs as [|[k d] pairs IH]; intros m0; [done|]. by rewrite !putAll_cons, insert_union_l, IH. Qed.

(** Building the batch's map first and writing its entries in any order. *)
Lemma putAll_map m pairs l :
  l ≡ₚ map_to_list (putAll ∅ pairs) → putAll m l = putAll m pairs.
Proof.
  intros Hl. assert (NoDup l.*1) as Hnd by (rewrite Hl; apply NoDup_fst_map_to_list). rewrite putAll_NoDup by done.
  rewrite (list_to_map_proper l (map_to_list (putAll ∅ pairs))) by done. rewrite list_to_map_to_list.
  by rewrite <- (putAll_union m ∅), (left_id_L ∅ (∪)).
Qed.

Lemma putAll_nonempty m pairs : m ≠ ∅ → putAll m pairs ≠ ∅.
Proof. revert m. induction pairs as [|[k d] pairs IH]; intros m Hm; [done|]. rewrite putAll_cons. apply IH, insert_non_empty. Qed.
End Tables.

(** A batch's map, its entries given one lifetime. *)
Lemma putAll_rows_map life (m : table) pairs l :
  l ≡ₚ map_to_list (putAll ∅ pairs) → putAll m (rowsWith life l) = putAll m (rowsWith life pairs).
Proof.
  intros Hl. apply putAll_map. unfold rowsWith. rewrite Hl.
  replace (putAll ∅ ((λ kv, (kv.1, (kv.2, life))) <$> pairs)) with ((λ d : bytes, (d, life)) <$> putAll ∅ pairs).
  - rewrite map_to_list_fmap. f_equiv.
  - rewrite fmap_putAll, fmap_empty. done.
Qed.

Lemma putAll_rows_union life (m : table) pairs : ((λ d : bytes, (d, life)) <$> putAll ∅ pairs) ∪ m = putAll m (rowsWith life pairs).
Proof. by rewrite fmap_putAll, fmap_empty, <- putAll_union, (left_id_L ∅ (∪)). Qed.
