(* ===== verification/GoRedis.v ===== *)
(** * The go-redis adapter (l2/goredis_adapter/goredis.go) *)

From stdpp Require Import strings.
From S2P Require Import Prelude Expiry Config CacheState Snapshot L2Util Redis.

(** The client: a command, and a pipeline of them with the error [Pipelined] reports, which is the first of its
    commands' errors ([Some None] is [redis.Nil]). *)
Class Cmdable (D E : Type) := {
  process : D → Cmd → D * Reply E;
  Pipelined : D → list Cmd → D * (list (Reply E) * option (option E))
}.

(** The client's type, as far as [isSingleNode] asks. *)
Inductive ClientType := RedisClient | RedisTx | OtherClient.

Definition isSingleNode (client : ClientType) : bool := match client with RedisClient | RedisTx => true | OtherClient => false end.

Definition IsOrderedMgetAvailable (client : ClientType) : bool := isSingleNode client.

Definition MultiKeyBudget : Z := 16 * 1024.
Definition MaxMsetItems : Z := MultiKeyBudget / (2 * argWireOverhead).

Record goredisCache (K V E : Type) := mkGoredis {
  grCodec : Codec V E; grKeyFunc : K → string; grSingleNode : bool; grOrderedMget : bool
}.
Arguments mkGoredis {K V E}.
Arguments grCodec {K V E}.
Arguments grKeyFunc {K V E}.
Arguments grSingleNode {K V E}.
Arguments grOrderedMget {K V E}.

(** [StringCmd.Bytes], [Cmd.Err], [SliceCmd.Result] and the element test of the MGET loop. *)
Definition grBytes {E} (r : Reply E) : OpError E + option bytes :=
  match r with RNil => inr None | RBulk data => inr (Some data) | RErr e => inl (Err e) | _ => inl BadReply end.

Definition grErr {E} (r : Reply E) : option (OpError E) := match r with RErr e => Some (Err e) | _ => None end.

Definition grSlice {E} (r : Reply E) : OpError E + list (Reply E) :=
  match r with RArray l => inr l | RErr e => inl (Err e) | _ => inl BadReply end.

Definition grElement {E} (r : Reply E) : OpError E + option bytes := match r with RBulk data => inr (Some data) | _ => inr None end.

(** The error of a pipeline of writes. *)
Definition grPipeErr {E} (err : option (option E)) : option (OpError E) :=
  match err with None => None | Some None => Some ErrNil | Some (Some e) => Some (Err e) end.

Section GoRedis.
Context {K V E D : Type} `{!Cmdable D E}.

Definition grNew (isString : option (K → string)) (client : option ClientType) (codec : option (Codec V E))
    (keyOpts : list (@keyOption K string)) (mgetOpts : list (option DetectMode)) : UtilError + goredisCache K V E :=
  match client, codec with
  | None, _ => inl ErrNilClient
  | _, None => inl ErrNilCodec
  | Some client, Some codec =>
    match ExtractKeyFunc isString keyOpts with
    | inl err => inl err
    | inr keyFunc =>
      inr (mkGoredis codec keyFunc (isSingleNode client) (ResolveOrderedMget (ExtractOrderedMget mgetOpts) (IsOrderedMgetAvailable client)))
    end
  end.

Context (c : goredisCache K V E).
Implicit Types (s : D) (key : K) (keys : list K) (value : V) (items : list (K * V)) (ttl : Z).

Definition grGet s key : D * (option V * option (OpError E)) :=
  let '(s, r) := process s (GET (grKeyFunc c key)) in (s, answerOf (grCodec c) (grBytes r)).

Definition grSet s key value ttl : D * option (OpError E) :=
  match Marshal (grCodec c) value with
  | inl err => (s, Some (Err err))
  | inr data => let '(s, r) := process s (SETTTL (grKeyFunc c key) data ttl) in (s, grErr r)
  end.

Definition grDelete s key : D * option (OpError E) :=
  let '(s, r) := process s (DEL [grKeyFunc c key]) in (s, grErr r).

Definition grBatchDelete s keys : D * option (OpError E) :=
  match keys with
  | [] => (s, None)
  | _ =>
    let storageKeys := grKeyFunc c <$> keys in
    if grSingleNode c && (keysSize storageKeys <=? MultiKeyBudget) then
      let '(s, r) := process s (DEL storageKeys) in (s, grErr r)
    else
      let '(s, (_, err)) := Pipelined s ((λ k, DEL [k]) <$> storageKeys) in (s, grPipeErr err)
  end.

Definition grBatchGet s keys : D * (list (K * V) * option (OpError E)) :=
  match keys with
  | [] => (s, ([], None))
  | _ =>
    let storageKeys := grKeyFunc c <$> keys in
    if grOrderedMget c && (keysSize storageKeys <=? MultiKeyBudget) then
      let '(s, r) := process s (MGET storageKeys) in
      match grSlice r with
      | inl err => (s, ([], Some err))
      | inr replies => (s, collectAt (grCodec c) grElement keys 0 replies [])
      end
    else
      let '(s, (replies, err)) := Pipelined s (GET <$> storageKeys) in
      match err with
      | Some (Some e) => (s, ([], Some (Err e)))
      | _ => (s, collectAt (grCodec c) grBytes keys 0 replies [])
      end
  end.

Definition grBatchSet s items ttl : D * option (OpError E) :=
  match items with
  | [] => (s, None)
  | _ =>
    if grSingleNode c && (ttl <=? 0) && (Z.of_nat (length items) <=? MaxMsetItems) then
      match marshalAll (grKeyFunc c) (grCodec c) items with
      | inl err => (s, Some (Err err))
      | inr pairs =>
        if pairsSize pairs <=? MultiKeyBudget then let '(s, r) := process s (MSET pairs) in (s, grErr r)
        else let '(s, (_, err)) := Pipelined s ((λ kv, SETTTL kv.1 kv.2 0) <$> pairs) in (s, grPipeErr err)
      end
    else
      match marshalAll (grKeyFunc c) (grCodec c) items with
      | inl err => (s, Some (Err err))
      | inr pairs => let '(s, (_, err)) := Pipelined s ((λ kv, SETTTL kv.1 kv.2 ttl) <$> pairs) in (s, grPipeErr err)
      end
  end.

Definition goredisL2 : L2Cache K V D (OpError E) := {|
  l2Get := grGet; l2BatchGet := grBatchGet; l2Set := grSet; l2BatchSet := grBatchSet; l2Delete := grDelete;
  l2BatchDelete := grBatchDelete
|}.
End GoRedis.
