(* ===== verification/RedisPipe.v ===== *)
(** * The redispipe adapter (l2/redispipe_adapter/redispipe.go) *)

From stdpp Require Import strings.
From S2P Require Import Prelude Expiry Config CacheState Snapshot L2Util Redis.

Class SyncCtx (D E : Type) := {
  rpDo : D → Cmd → D * Reply E;
  SendMany : D → list Cmd → D * list (Reply E)
}.

(** [true] is a plain connection. *)
Definition rpIsOrderedMgetAvailable (connection : bool) : bool := connection.

Definition rpMultiKeyBudget : Z := 12 * 1024.
Definition rpMaxMsetItems : Z := rpMultiKeyBudget / (2 * argWireOverhead).

Record redispipeCache (K V E : Type) := mkRedispipe {
  rpCodec : Codec V E; rpKeyFunc : K → string; rpSingleNode : bool; rpOrderedMget : bool
}.
Arguments mkRedispipe {K V E}.
Arguments rpCodec {K V E}.
Arguments rpKeyFunc {K V E}.
Arguments rpSingleNode {K V E}.
Arguments rpOrderedMget {K V E}.

Definition AsError {E} (r : Reply E) : option (OpError E) := match r with RErr e => Some (Err e) | _ => None end.

(** An error, a miss, the data, or a reply of another type. *)
Definition rpData {E} (r : Reply E) : OpError E + option bytes :=
  match r with RErr e => inl (Err e) | RNil => inr None | RBulk data => inr (Some data) | _ => inl BadReply end.

(** An element of an MGET reply; an error there is an element of another type. *)
Definition rpElement {E} (r : Reply E) : OpError E + option bytes :=
  match r with RNil => inr None | RBulk data => inr (Some data) | _ => inl BadReply end.

Definition sendManyErr {E} (results : list (Reply E)) : option (OpError E) := firstError results.

Section RedisPipe.
Context {K V E D : Type} `{!SyncCtx D E}.

Definition rpNew (isString : option (K → string)) (sender : option bool) (codec : option (Codec V E))
    (keyOpts : list (@keyOption K string)) (mgetOpts : list (option DetectMode)) : UtilError + redispipeCache K V E :=
  match sender, codec with
  | None, _ => inl ErrNilClient
  | _, None => inl ErrNilCodec
  | Some connection, Some codec =>
    match ExtractKeyFunc isString keyOpts with
    | inl err => inl err
    | inr keyFunc =>
      inr (mkRedispipe codec keyFunc connection (ResolveOrderedMget (ExtractOrderedMget mgetOpts) (rpIsOrderedMgetAvailable connection)))
    end
  end.

Context (c : redispipeCache K V E).
Implicit Types (s : D) (key : K) (keys : list K) (value : V) (items : list (K * V)) (ttl : Z).

Definition rpGet s key : D * (option V * option (OpError E)) :=
  let '(s, r) := rpDo s (GET (rpKeyFunc c key)) in (s, answerOf (rpCodec c) (rpData r)).

Definition rpSet s key value ttl : D * option (OpError E) :=
  match Marshal (rpCodec c) value with
  | inl err => (s, Some (Err err))
  | inr data =>
    let '(s, r) :=
      if 0 <? ttl then rpDo s (SETPX (rpKeyFunc c key) data (RedisMillis ttl)) else rpDo s (SET (rpKeyFunc c key) data) in
    (s, AsError r)
  end.

Definition rpDelete s key : D * option (OpError E) :=
  let '(s, r) := rpDo s (DEL [rpKeyFunc c key]) in (s, AsError r).

Definition rpBatchDelete s keys : D * option (OpError E) :=
  match keys with
  | [] => (s, None)
  | _ =>
    let storageKeys := rpKeyFunc c <$> keys in
    if rpSingleNode c && (keysSize storageKeys <=? rpMultiKeyBudget) then
      let '(s, r) := rpDo s (DEL storageKeys) in (s, AsError r)
    else
      let '(s, results) := SendMany s ((λ k, DEL [k]) <$> storageKeys) in (s, sendManyErr results)
  end.

Definition batchGetSendMany s keys (storageKeys : list string) : D * (list (K * V) * option (OpError E)) :=
  let '(s, results) := SendMany s (GET <$> storageKeys) in (s, collectAt (rpCodec c) rpData keys 0 results []).

Definition rpBatchGet s keys : D * (list (K * V) * option (OpError E)) :=
  match keys with
  | [] => (s, ([], None))
  | _ =>
    let storageKeys := rpKeyFunc c <$> keys in
    if rpOrderedMget c && (keysSize storageKeys <=? rpMultiKeyBudget) then
      let '(s, r) := rpDo s (MGET storageKeys) in
      match r with
      | RErr e => (s, ([], Some (Err e)))
      | RArray replies => (s, collectAt (rpCodec c) rpElement keys 0 replies [])
      | _ => (s, ([], Some BadReply))
      end
    else batchGetSendMany s keys storageKeys
  end.

Definition rpBatchSet s items ttl : D * option (OpError E) :=
  match items with
  | [] => (s, None)
  | _ =>
    if rpSingleNode c && (ttl <=? 0) && (Z.of_nat (length items) <=? rpMaxMsetItems) then
      match marshalAll (rpKeyFunc c) (rpCodec c) items with
      | inl err => (s, Some (Err err))
      | inr pairs =>
        if pairsSize pairs <=? rpMultiKeyBudget then let '(s, r) := rpDo s (MSET pairs) in (s, AsError r)
        else let '(s, results) := SendMany s ((λ kv, SET kv.1 kv.2) <$> pairs) in (s, sendManyErr results)
      end
    else
      let millis := if 0 <? ttl then RedisMillis ttl else 0 in
      match marshalAll (rpKeyFunc c) (rpCodec c) items with
      | inl err => (s, Some (Err err))
      | inr pairs =>
        let '(s, results) :=
          SendMany s ((λ kv, if 0 <? ttl then SETPX kv.1 kv.2 millis else SET kv.1 kv.2) <$> pairs) in
        (s, sendManyErr results)
      end
  end.

Definition redispipeL2 : L2Cache K V D (OpError E) := {|
  l2Get := rpGet; l2BatchGet := rpBatchGet; l2Set := rpSet; l2BatchSet := rpBatchSet; l2Delete := rpDelete;
  l2BatchDelete := rpBatchDelete
|}.
End RedisPipe.
