(* ===== verification/Redigo.v ===== *)
(** * The redigo adapter (l2/redigo_adapter/redigo.go)

    Commands go out on a connection borrowed from the pool; a pipeline is sent, flushed and its replies
    received one at a time on the same connection.  The pool and its connections are in the world [D]. *)

From stdpp Require Import strings.
From S2P Require Import Prelude Expiry Config CacheState Snapshot L2Util Redis.

Class RedigoPool (D E : Type) := {
  GetContext : D → D * option E;
  connDo : D → Cmd → D * Reply E;
  Send : D → Cmd → D * option E;
  Flush : D → D * option E;
  Receive : D → D * Reply E;
  connClose : D → D
}.

Definition rgIsOrderedMgetAvailable : bool := true.

Definition rgMultiKeyBudget : Z := 3500.
Definition rgMaxMsetItems : Z := rgMultiKeyBudget / (2 * argWireOverhead).

Record redigoCache (K V E : Type) := mkRedigo { rgCodec : Codec V E; rgKeyFunc : K → string; rgOrderedMget : bool }.
Arguments mkRedigo {K V E}.
Arguments rgCodec {K V E}.
Arguments rgKeyFunc {K V E}.
Arguments rgOrderedMget {K V E}.

(** [redigo.Bytes] with its nil error taken for a miss, and [redigo.Values]. *)
Definition rgBytes {E} (r : Reply E) : OpError E + option bytes :=
  match r with RNil => inr None | RBulk data => inr (Some data) | RErr e => inl (Err e) | _ => inl BadReply end.

Definition rgValues {E} (r : Reply E) : OpError E + list (Reply E) :=
  match r with RArray l => inr l | RErr e => inl (Err e) | RNil => inl ErrNil | _ => inl BadReply end.

Definition rgErr {E} (r : Reply E) : option (OpError E) := match r with RErr e => Some (Err e) | _ => None end.

Section Redigo.
Context {K V E D : Type} `{!RedigoPool D E}.

Definition rgNew (isString : option (K → string)) (pool : bool) (codec : option (Codec V E))
    (keyOpts : list (@keyOption K string)) (mgetOpts : list (option DetectMode)) : UtilError + redigoCache K V E :=
  match pool, codec with
  | false, _ => inl ErrNilClient
  | _, None => inl ErrNilCodec
  | true, Some codec =>
    match ExtractKeyFunc isString keyOpts with
    | inl err => inl err
    | inr keyFunc => inr (mkRedigo codec keyFunc (ResolveOrderedMget (ExtractOrderedMget mgetOpts) rgIsOrderedMgetAvailable))
    end
  end.

Context (c : redigoCache K V E).
Implicit Types (s : D) (key : K) (keys : list K) (value : V) (items : list (K * V)) (ttl : Z) (cmd : Cmd).

Definition rgDo s cmd : D * Reply E :=
  let '(s, err) := GetContext s in
  match err with
  | Some e => (s, RErr e)
  | None => let '(s, r) := connDo s cmd in (connClose s, r)
  end.

(** A body run on a borrowed connection, closed on every way out. *)
Definition withConn {A} (failed : E → A) (body : D → D * A) s : D * A :=
  let '(s, err) := GetContext s in
  match err with
  | Some e => (s, failed e)
  | None => let '(s, a) := body s in (connClose s, a)
  end.

Fixpoint sendAll s (cmds : list Cmd) : D * option E :=
  match cmds with
  | [] => (s, None)
  | cmd :: cmds => let '(s, err) := Send s cmd in match err with Some e => (s, Some e) | None => sendAll s cmds end
  end.

Fixpoint receiveN s (n : nat) : D * option (OpError E) :=
  match n with
  | O => (s, None)
  | S n => let '(s, r) := Receive s in match rgErr r with Some e => (s, Some e) | None => receiveN s n end
  end.

Definition flushReceive s (n : nat) : D * option (OpError E) :=
  let '(s, err) := Flush s in match err with Some e => (s, Some (Err e)) | None => receiveN s n end.

Definition sendFlush s (cmds : list Cmd) : D * option (OpError E) :=
  let '(s, err) := sendAll s cmds in
  match err with Some e => (s, Some (Err e)) | None => flushReceive s (length cmds) end.

Definition rgGet s key : D * (option V * option (OpError E)) :=
  let '(s, r) := rgDo s (GET (rgKeyFunc c key)) in (s, answerOf (rgCodec c) (rgBytes r)).

Definition rgSet s key value ttl : D * option (OpError E) :=
  match Marshal (rgCodec c) value with
  | inl err => (s, Some (Err err))
  | inr data =>
    let '(s, r) :=
      if 0 <? ttl then rgDo s (SETPX (rgKeyFunc c key) data (RedisMillis ttl)) else rgDo s (SET (rgKeyFunc c key) data) in
    (s, rgErr r)
  end.

Definition rgDelete s key : D * option (OpError E) :=
  let '(s, r) := rgDo s (DEL [rgKeyFunc c key]) in (s, rgErr r).

Definition rgBatchDelete s keys : D * option (OpError E) :=
  match keys with
  | [] => (s, None)
  | _ =>
    let storageKeys := rgKeyFunc c <$> keys in
    if keysSize storageKeys <=? rgMultiKeyBudget then let '(s, r) := rgDo s (DEL storageKeys) in (s, rgErr r)
    else withConn (λ e, Some (Err e)) (λ s, sendFlush s ((λ k, DEL [k]) <$> storageKeys)) s
  end.

(** The loop that receives one reply per key. *)
Fixpoint receiveKeys s keys (found : list (K * V)) : D * (list (K * V) * option (OpError E)) :=
  match keys with
  | [] => (s, (found, None))
  | key :: keys =>
    let '(s, r) := Receive s in
    match rgBytes r with
    | inl err => (s, (found, Some err))
    | inr None => receiveKeys s keys found
    | inr (Some data) =>
      match Unmarshal (rgCodec c) data with
      | inl err => (s, (found, Some (Err err)))
      | inr value => receiveKeys s keys (found ++ [(key, value)])
      end
    end
  end.

Definition pipelineGet keys (storageKeys : list string) s : D * (list (K * V) * option (OpError E)) :=
  let '(s, err) := sendAll s (GET <$> storageKeys) in
  match err with
  | Some e => (s, ([], Some (Err e)))
  | None =>
    let '(s, err) := Flush s in
    match err with Some e => (s, ([], Some (Err e))) | None => receiveKeys s keys [] end
  end.

Definition rgBatchGet s keys : D * (list (K * V) * option (OpError E)) :=
  match keys with
  | [] => (s, ([], None))
  | _ =>
    let storageKeys := rgKeyFunc c <$> keys in
    if rgOrderedMget c && (keysSize storageKeys <=? rgMultiKeyBudget) then
      let '(s, r) := rgDo s (MGET storageKeys) in
      match rgValues r with
      | inl err => (s, ([], Some err))
      | inr replies => (s, collectAt (rgCodec c) rgBytes keys 0 replies [])
      end
    else withConn (λ e, ([], Some (Err e))) (pipelineGet keys storageKeys) s
  end.

(** The values are encoded between the sends: those before a value that fails are already sent. *)
Fixpoint sendItems (millis : option Z) s items : D * option (OpError E) :=
  match items with
  | [] => (s, None)
  | (key, value) :: items =>
    match Marshal (rgCodec c) value with
    | inl err => (s, Some (Err err))
    | inr data =>
      let '(s, err) :=
        match millis with
        | Some millis => Send s (SETPX (rgKeyFunc c key) data millis)
        | None => Send s (SET (rgKeyFunc c key) data)
        end in
      match err with Some e => (s, Some (Err e)) | None => sendItems millis s items end
    end
  end.

Definition rgPipelineSet s items ttl : D * option (OpError E) :=
  withConn (λ e, Some (Err e)) (λ s,
    let millis := if 0 <? ttl then Some (RedisMillis ttl) else None in
    let '(s, err) := sendItems millis s items in
    match err with Some e => (s, Some e) | None => flushReceive s (length items) end) s.

Definition rgBatchSet s items ttl : D * option (OpError E) :=
  match items with
  | [] => (s, None)
  | _ =>
    if (0 <? ttl) || (rgMaxMsetItems <? Z.of_nat (length items)) then rgPipelineSet s items ttl
    else
      match marshalAll (rgKeyFunc c) (rgCodec c) items with
      | inl err => (s, Some (Err err))
      | inr pairs =>
        if pairsSize pairs <=? rgMultiKeyBudget then let '(s, r) := rgDo s (MSET pairs) in (s, rgErr r)
        else withConn (λ e, Some (Err e)) (λ s, sendFlush s ((λ kv, SET kv.1 kv.2) <$> pairs)) s
      end
  end.

Definition redigoL2 : L2Cache K V D (OpError E) := {|
  l2Get := rgGet; l2BatchGet := rgBatchGet; l2Set := rgSet; l2BatchSet := rgBatchSet; l2Delete := rgDelete;
  l2BatchDelete := rgBatchDelete
|}.
End Redigo.
