(* ===== verification/Rueidis.v ===== *)
(** * The rueidis adapter (l2/rueidis_adapter/rueidis.go)

    [MGet], [MSet] and [MDel] are the client library's helpers; they answer with a map, here the entries in
    the order in which the range over it visits them. *)

From stdpp Require Import strings gmap.
From S2P Require Import Prelude Expiry Config CacheState Snapshot L2Util Redis.

Class RueidisClient (D E : Type) := {
  ruDo : D → Cmd → D * Reply E;
  DoMulti : D → list Cmd → D * list (Reply E);
  Dedicate : D → D;
  dedicatedDoMulti : D → list Cmd → D * list (Reply E);
  cancelDedicated : D → D;
  MGetHelper : D → list string → D * (E + gmap string (Reply E));
  MSetHelper : D → gmap string bytes → D * list (string * option E);
  MDelHelper : D → list string → D * list (string * option E)
}.

(** [nodes] is the number of nodes the client knows, [None] a nil client. *)
Definition ruIsOrderedMgetAvailable (nodes : option nat) : bool :=
  match nodes with None => false | Some n => (n <=? 1)%nat end.

Definition ruMultiKeyBudget : Z := 16 * 1024.
Definition ruMaxMsetItems : Z := ruMultiKeyBudget / (2 * argWireOverhead).

Record rueidisCache (K V E : Type) := mkRueidis {
  ruCodec : Codec V E; ruKeyFunc : K → string; ruOrderedMget : bool; ruSingleNode : bool
}.
Arguments mkRueidis {K V E}.
Arguments ruCodec {K V E}.
Arguments ruKeyFunc {K V E}.
Arguments ruOrderedMget {K V E}.
Arguments ruSingleNode {K V E}.

(** [AsBytes] with the nil error taken for a miss; the element of an array, whose nil was tested before. *)
Definition ruBytes {E} (r : Reply E) : OpError E + option bytes :=
  match r with RNil => inr None | RBulk data => inr (Some data) | RErr e => inl (Err e) | _ => inl BadReply end.

Definition ruError {E} (r : Reply E) : option (OpError E) :=
  match r with RErr e => Some (Err e) | RNil => Some ErrNil | _ => None end.

Definition doMultiErr {E} : list (Reply E) → option (OpError E) :=
  fix go resps := match resps with
  | [] => None
  | r :: resps => match ruError r with Some err => Some err | None => go resps end
  end.

(** The first error of a helper's answer. *)
Definition rangeErr {E} : list (string * option E) → option (OpError E) :=
  fix go l := match l with
  | [] => None
  | (_, Some e) :: _ => Some (Err e)
  | (_, None) :: l => go l
  end.

Section Rueidis.
Context {K V E D : Type} `{!RueidisClient D E}.
(** The order in which a range over a map of commands visits it. *)
Context (rangeMap : gmap string bytes → list (string * bytes)).

Definition ruNew (isString : option (K → string)) (client : option nat) (codec : option (Codec V E))
    (keyOpts : list (@keyOption K string)) (mgetOpts : list (option DetectMode)) : UtilError + rueidisCache K V E :=
  match client, codec with
  | None, _ => inl ErrNilClient
  | _, None => inl ErrNilCodec
  | Some nodes, Some codec =>
    match ExtractKeyFunc isString keyOpts with
    | inl err => inl err
    | inr keyFunc =>
      inr (mkRueidis codec keyFunc (ResolveOrderedMget (ExtractOrderedMget mgetOpts) (ruIsOrderedMgetAvailable (Some nodes)))
        (nodes <=? 1)%nat)
    end
  end.

Context (c : rueidisCache K V E).
Implicit Types (s : D) (key : K) (keys : list K) (value : V) (items : list (K * V)) (ttl : Z).

Definition doMultiLargeResults s (cmds : list Cmd) : D * list (Reply E) :=
  if negb (ruSingleNode c) then DoMulti s cmds
  else let '(s, resps) := dedicatedDoMulti (Dedicate s) cmds in (cancelDedicated s, resps).

Definition doMultiLarge s (cmds : list Cmd) : D * option (OpError E) :=
  if negb (ruSingleNode c) then let '(s, resps) := DoMulti s cmds in (s, doMultiErr resps)
  else let '(s, resps) := dedicatedDoMulti (Dedicate s) cmds in (cancelDedicated s, doMultiErr resps).

Definition ruGet s key : D * (option V * option (OpError E)) :=
  let '(s, r) := ruDo s (GET (ruKeyFunc c key)) in (s, answerOf (ruCodec c) (ruBytes r)).

Definition ruSet s key value ttl : D * option (OpError E) :=
  match Marshal (ruCodec c) value with
  | inl err => (s, Some (Err err))
  | inr data =>
    let cmd := if 0 <? ttl then SETPX (ruKeyFunc c key) data (RedisMillis ttl) else SET (ruKeyFunc c key) data in
    let '(s, r) := ruDo s cmd in (s, ruError r)
  end.

Definition ruDelete s key : D * option (OpError E) :=
  let '(s, r) := ruDo s (DEL [ruKeyFunc c key]) in (s, ruError r).

Definition ruBatchDelete s keys : D * option (OpError E) :=
  match keys with
  | [] => (s, None)
  | _ =>
    let storageKeys := ruKeyFunc c <$> keys in
    if keysSize storageKeys <=? ruMultiKeyBudget then let '(s, errs) := MDelHelper s storageKeys in (s, rangeErr errs)
    else doMultiLarge s ((λ k, DEL [k]) <$> storageKeys)
  end.

(** The lookups in the helper's map, key by key. *)
Fixpoint collectMap keys (replies : gmap string (Reply E)) (found : list (K * V)) : list (K * V) * option (OpError E) :=
  match keys with
  | [] => (found, None)
  | key :: keys =>
    match replies !! ruKeyFunc c key with
    | None => collectMap keys replies found
    | Some msg =>
      match ruBytes msg with
      | inl err => (found, Some err)
      | inr None => collectMap keys replies found
      | inr (Some data) =>
        match Unmarshal (ruCodec c) data with
        | inl err => (found, Some (Err err))
        | inr value => collectMap keys replies (found ++ [(key, value)])
        end
      end
    end
  end.

Definition batchGetOrdered s keys (storageKeys : list string) : D * (list (K * V) * option (OpError E)) :=
  let '(s, r) := ruDo s (MGET storageKeys) in
  match r with
  | RArray replies =>
    if (length replies =? length keys)%nat then (s, collectAt (ruCodec c) ruBytes keys 0 replies [])
    else (s, ([], Some (ReplyCount (length replies) (length keys))))
  | RErr e => (s, ([], Some (Err e)))
  | RNil => (s, ([], Some ErrNil))
  | _ => (s, ([], Some BadReply))
  end.

Definition ruBatchGet s keys : D * (list (K * V) * option (OpError E)) :=
  match keys with
  | [] => (s, ([], None))
  | _ =>
    let storageKeys := ruKeyFunc c <$> keys in
    if keysSize storageKeys <=? ruMultiKeyBudget then
      if ruOrderedMget c then batchGetOrdered s keys storageKeys
      else
        let '(s, r) := MGetHelper s storageKeys in
        match r with inl e => (s, ([], Some (Err e))) | inr replies => (s, collectMap keys replies []) end
    else
      let '(s, resps) := doMultiLargeResults s (GET <$> storageKeys) in
      (s, collectAt (ruCodec c) ruBytes keys 0 resps [])
  end.

Definition ruPipelineSet s items (millis : Z) : D * option (OpError E) :=
  match marshalAll (ruKeyFunc c) (ruCodec c) items with
  | inl err => (s, Some (Err err))
  | inr pairs => doMultiLarge s ((λ kv, if 0 <? millis then SETPX kv.1 kv.2 millis else SET kv.1 kv.2) <$> pairs)
  end.

Definition ruBatchSet s items ttl : D * option (OpError E) :=
  match items with
  | [] => (s, None)
  | _ =>
    if 0 <? ttl then ruPipelineSet s items (RedisMillis ttl)
    else if ruMaxMsetItems <? Z.of_nat (length items) then ruPipelineSet s items 0
    else
      match marshalAll (ruKeyFunc c) (ruCodec c) items with
      | inl err => (s, Some (Err err))
      | inr pairs =>
        let kvs : gmap string bytes := foldl (λ m kv, <[kv.1 := kv.2]> m) ∅ pairs in
        if pairsSize pairs <=? ruMultiKeyBudget then let '(s, errs) := MSetHelper s kvs in (s, rangeErr errs)
        else doMultiLarge s ((λ kv, SET kv.1 kv.2) <$> rangeMap kvs)
      end
  end.

Definition rueidisL2 : L2Cache K V D (OpError E) := {|
  l2Get := ruGet; l2BatchGet := ruBatchGet; l2Set := ruSet; l2BatchSet := ruBatchSet; l2Delete := ruDelete;
  l2BatchDelete := ruBatchDelete
|}.
End Rueidis.
