(* ===== verification/Valkey.v ===== *)
(** * The valkey adapter (l2/valkey_adapter/valkey.go)

    valkey-go is a fork of rueidis with the same interface, and the adapter's source is that of l2/rueidis_adapter
    with the package renamed: every function has the same body, so the definitions are the same. *)

From stdpp Require Import strings gmap.
From S2P Require Import Prelude Expiry Config CacheState Snapshot L2Util Redis Rueidis.

Definition vkIsOrderedMgetAvailable : option nat → bool := ruIsOrderedMgetAvailable.
Definition vkMultiKeyBudget : Z := ruMultiKeyBudget.
Definition vkMaxMsetItems : Z := ruMaxMsetItems.
Definition valkeyCache : Type → Type → Type → Type := rueidisCache.

Section Valkey.
Context {K V E D : Type} `{!RueidisClient D E} (rangeMap : gmap string bytes → list (string * bytes)).

Definition vkNew : option (K → string) → option nat → option (Codec V E) → list keyOption → list (option DetectMode) →
  UtilError + valkeyCache K V E := ruNew.

Context (c : valkeyCache K V E).

Definition vkDoMultiErr : list (Reply E) → option (OpError E) := doMultiErr.
Definition vkDoMultiLargeResults : D → list Cmd → D * list (Reply E) := doMultiLargeResults c.
Definition vkDoMultiLarge : D → list Cmd → D * option (OpError E) := doMultiLarge c.
Definition vkGet : D → K → D * (option V * option (OpError E)) := ruGet c.
Definition vkSet : D → K → V → Z → D * option (OpError E) := ruSet c.
Definition vkDelete : D → K → D * option (OpError E) := ruDelete c.
Definition vkBatchDelete : D → list K → D * option (OpError E) := ruBatchDelete c.
Definition vkBatchGetOrdered : D → list K → list string → D * (list (K * V) * option (OpError E)) := batchGetOrdered c.
Definition vkBatchGet : D → list K → D * (list (K * V) * option (OpError E)) := ruBatchGet c.
Definition vkPipelineSet : D → list (K * V) → Z → D * option (OpError E) := ruPipelineSet c.
Definition vkBatchSet : D → list (K * V) → Z → D * option (OpError E) := ruBatchSet rangeMap c.

Definition valkeyL2 : L2Cache K V D (OpError E) := {|
  l2Get := vkGet; l2BatchGet := vkBatchGet; l2Set := vkSet; l2BatchSet := vkBatchSet; l2Delete := vkDelete; l2BatchDelete := vkBatchDelete
|}.
End Valkey.
