(* ===== verification/RedisLaws.v ===== *)
(** * The Redis adapters over a server that does what it documents

    What the commands do to a server's keys and their lifetimes, and what each client library promises of it, for a
    connection that does not fail and keys that do not expire during a call.  Under these each adapter is a lawful store,
    whichever of its paths a batch takes. *)

From stdpp Require Import strings gmap.
From S2P Require Import Prelude Expiry Config CacheState Snapshot L2Util L2UtilLaws Redis KvStore GoRedis RedisPipe Redigo Rueidis.

(** ** The server *)

Section Server.
Context {E : Type}.
Implicit Types (m : table) (c : Cmd) (r : Reply E).

Definition bulk (o : option bytes) : Reply E := match o with Some data => RBulk data | None => RNil end.

Definition valueAt m key : option bytes := fst <$> m !! key.
Definition lifeAt m key : Z := default 0 (snd <$> m !! key).

(** What a client library makes of a duration, as the lifetime a key gets; it may keep the one the key has (go-redis: KeepTTL). *)
Context (conv : Z → Z → Z).

(** The keys after a command, and the reply it gets.  SET and MSET drop the deadline a key has. *)
Definition after m c : table :=
  match c with
  | GET _ | MGET _ => m
  | SET key data => <[key := (data, 0)]> m
  | SETPX key data millis => <[key := (data, millis * millisecond)]> m
  | SETTTL key data ttl => <[key := (data, conv ttl (lifeAt m key))]> m
  | DEL keys => removeAll m keys
  | MSET pairs => putAll m (rowsWith 0 pairs)
  end.

Definition replied m c r : Prop :=
  match c with
  | GET key => r = bulk (valueAt m key)
  | MGET keys => r = RArray ((λ k, bulk (valueAt m k)) <$> keys)
  | DEL _ => ∃ n, r = RInt n
  | _ => r = ROk
  end.

(** What a server takes: no empty commands, a positive expiration that does not overflow, several keys only
    where they are on one node ([one]) and their values come back in order ([ordered]). *)
Definition accepts (one ordered : bool) c : Prop :=
  match c with
  | GET _ | SET _ _ | SETTTL _ _ _ => True
  | SETPX _ _ millis => 1 ≤ millis < 2 ^ 44
  | DEL keys => keys ≠ [] ∧ (one = true ∨ length keys = 1%nat)
  | MGET keys => keys ≠ [] ∧ ordered = true
  | MSET pairs => pairs ≠ [] ∧ one = true
  end.

(** Commands one after the other. *)
Inductive served : table → list Cmd → list (Reply E) → table → Prop :=
| served_nil m : served m [] [] m
| served_cons m c cs r rs m' : replied m c r → served (after m c) cs rs m' → served m (c :: cs) (r :: rs) m'.

Lemma served_gets m keys rs m' : served m (GET <$> keys) rs m' → m' = m ∧ rs = (λ k, bulk (valueAt m k)) <$> keys.
Proof.
  revert rs. induction keys as [|k keys IH]; intros rs Hr; cbn in *; inversion Hr as [|? ? ? ? ? ? Hk Hr']; subst; [done|].
  cbn in *. destruct (IH _ Hr') as [-> ->]. by rewrite Hk.
Qed.

(** A write's reply is not an error. *)
Definition fine r : Prop := match r with ROk | RInt _ => True | _ => False end.

Lemma served_sets (mk : string → bytes → Cmd) (life : table → string → Z) m pairs rs m' :
  (∀ k d, (∀ m, after m (mk k d) = <[k := (d, life m k)]> m) ∧ ∀ m r, replied m (mk k d) r → r = ROk) →
  served m ((λ kv, mk kv.1 kv.2) <$> pairs) rs m' →
  fst <$> m' = putAll (fst <$> m) pairs ∧ (∀ t, (∀ m k, life m k = t) → m' = putAll m (rowsWith t pairs)) ∧
  Forall fine rs ∧ length rs = length pairs.
Proof.
  intros Hmk. revert m rs. induction pairs as [|[k d] pairs IH]; intros m rs Hr; cbn [fmap list_fmap fst snd] in Hr; inversion Hr as [|? ? ? ? ? ? Hk Hr']; subst; [done|].
  destruct (Hmk k d) as [H1 H2]. rewrite H1 in Hr'. destruct (IH _ _ Hr') as (Hm & Ht & Hf & Hl). rewrite (H2 _ _ Hk). split_and!.
  - rewrite Hm, fmap_insert. done.
  - intros t Hlife. rewrite (Ht t Hlife), Hlife. done.
  - by constructor.
  - cbn. lia.
Qed.

Lemma served_dels m keys rs m' :
  served m ((λ k, DEL [k]) <$> keys) rs m' → m' = removeAll m keys ∧ Forall fine rs ∧ length rs = length keys.
Proof.
  revert m rs. induction keys as [|k keys IH]; intros m rs Hr; cbn in *; inversion Hr as [|? ? ? ? ? ? Hk Hr']; subst; [done|].
  destruct (IH _ _ Hr') as (-> & Hf & Hl). destruct Hk as [n ->]. split_and!; [done|by constructor|cbn; lia].
Qed.

Lemma fine_firstError rs : Forall fine rs → firstError rs = None.
Proof. induction 1 as [|r rs Hr _ IH]; [done|]. by destruct r. Qed.

Lemma fine_doMultiErr rs : Forall fine rs → doMultiErr rs = None.
Proof. induction 1 as [|r rs Hr _ IH]; [done|]. by destruct r. Qed.
End Server.

Lemma RedisMillis_range ttl : 1 ≤ RedisMillis ttl < 2 ^ 44.
Proof.
  unfold RedisMillis. pose proof (Z.mod_pos_bound (ttl + millisecond - 1 + 2 ^ 63) (2 ^ 64) eq_refl) as Hm.
  assert (- 2 ^ 63 ≤ i64 (ttl + millisecond - 1) < 2 ^ 63) as Hi by (unfold i64; revert Hm; generalize ((ttl + millisecond - 1 + 2 ^ 63) mod 2 ^ 64); lia). revert Hi. generalize (i64 (ttl + millisecond - 1)). intros x Hx. clear Hm.
  destruct (Z.ltb_spec (x ÷ millisecond) 1) as [|Hq]; [lia|]. split; [done|].
  destruct (Z.le_gt_cases 0 x); [apply Z.quot_lt_upper_bound; unfold millisecond; lia|].
  assert (x ÷ millisecond ≤ 0) by (rewrite <- (Z.opp_involutive x), Z.quot_opp_l by done; pose proof (Z.quot_pos (- x) millisecond); unfold millisecond in *; lia). lia.
Qed.

(** ** The loops over replies *)

Section Loops.
Context {K V E : Type} (keyFunc : K → string) (codec : Codec V E) `{!TotalCodec codec}.
Implicit Types (m : table) (keys : list K).

Definition kvHits m keys : list (K * V) := omap (λ k, pair k <$> viewOf keyFunc codec m k) keys.

Lemma kvHits_elem m keys k v : (k, v) ∈ kvHits m keys ↔ k ∈ keys ∧ viewOf keyFunc codec m k = Some v.
Proof.
  unfold kvHits. rewrite list_elem_of_omap. split.
  - intros (k' & Hk & Hv). destruct (viewOf keyFunc codec m k') eqn:Ev; simplify_eq/=. done.
  - intros [Hk Hv]. exists k. by rewrite Hv.
Qed.

Lemma collectAt_hits classify m keys :
  (∀ o, classify (bulk o) = inr o) →
  collectAt codec classify keys 0 ((λ k, bulk (valueAt m k)) <$> (keyFunc <$> keys)) [] = (kvHits m keys, None).
Proof.
  intros Hc. enough (∀ done rest found, collectAt codec classify (done ++ rest) (length done) ((λ k, bulk (valueAt m k)) <$> (keyFunc <$> rest)) found =
    (found ++ kvHits m rest, None)) as H by apply (H [] keys []).
  intros done rest. revert done. induction rest as [|k rest IH]; intros done found; cbn; [by rewrite app_nil_r|].
  rewrite Hc. specialize (IH (done ++ [k])). rewrite <- app_assoc, length_app in IH. cbn in IH. rewrite Nat.add_1_r in IH.
  unfold viewOf at 1, valueAt at 1. destruct (m !! keyFunc k) as [[data t]|]; cbn; [|apply IH].
  rewrite Unmarshal_dec, lookup_app_r, Nat.sub_diag by done. cbn. rewrite IH, <- app_assoc. done.
Qed.

Lemma answerOf_view (classify : Reply E → OpError E + option bytes) m k :
  (∀ o, classify (bulk o) = inr o) → answerOf codec (classify (bulk (valueAt m (keyFunc k)))) = (viewOf keyFunc codec m k, None).
Proof. intros Hc. rewrite Hc. unfold viewOf, valueAt. destruct (m !! keyFunc k) as [[data t]|]; cbn; [by rewrite Unmarshal_dec|done]. Qed.
End Loops.

(** ** go-redis *)

(** Of its conversion: 0 is no deadline, and a positive duration gives a lifetime of its own. *)
Class CmdableLaws {D E : Type} `{!Cmdable D E} (conv : Z → Z → Z) (kv : D → table) (one ordered : bool) := {
  conv_none old : conv 0 old = 0;
  conv_some ttl old : 0 < ttl → conv ttl old = conv ttl 0 ∧ 0 < conv ttl 0;
  process_law s c : accepts one ordered c → let '(s', r) := process s c in kv s' = after conv (kv s) c ∧ replied (kv s) c r;
  Pipelined_law s cs : Forall (accepts one ordered) cs → let '(s', (rs, err)) := Pipelined s cs in
    served conv (kv s) cs rs (kv s') ∧ (err = None ∨ err = Some None ∧ RNil ∈ rs)
}.

Section GoRedis.
Context {K V E D : Type} `{!Cmdable D E} (c : goredisCache K V E) `{!TotalCodec (grCodec c)}.
Context (conv : Z → Z → Z) (kv : D → table) `{!CmdableLaws conv kv (grSingleNode c) (grOrderedMget c)}.
Implicit Types (s : D) (keys : list K).
Abbreviation hits := (kvHits (grKeyFunc c) (grCodec c)).
Abbreviation pairs := (pairsOf (grKeyFunc c) (grCodec c)).

(** A command, and a pipeline of writes, from its documented effect. *)
Lemma gr_process s cmd :
  accepts (grSingleNode c) (grOrderedMget c) cmd → ∃ s' r, process s cmd = (s', r) ∧ kv s' = after conv (kv s) cmd ∧ replied (kv s) cmd r.
Proof. intros Hc. pose proof (process_law s cmd Hc) as Hp. destruct (process s cmd) as [s' r]. by exists s', r. Qed.

Lemma gr_pipe s (cs : list Cmd) (Q : table → Prop) :
  Forall (accepts (grSingleNode c) (grOrderedMget c)) cs →
  (∀ (rs : list (Reply E)) m', served conv (kv s) cs rs m' → Q m' ∧ Forall fine rs ∧ length rs = length cs) →
  ∃ s' rs err, Pipelined s cs = (s', (rs, err)) ∧ grPipeErr err = None ∧ Q (kv s').
Proof.
  intros Hc Hr. pose proof (Pipelined_law s cs Hc) as Hp. destruct (Pipelined s cs) as [s' [rs err]]. destruct Hp as [Hp He].
  destruct (Hr _ _ Hp) as (Hm & Hf & _). exists s', rs, err. split_and!; [done| |done]. destruct He as [-> |[-> Hin]]; [done|].
  by eapply Forall_forall in Hf; [|done].
Qed.

Lemma gr_batchGet s keys : ∃ s', grBatchGet c s keys = (s', (hits (kv s) keys, None)) ∧ kv s' = kv s.
Proof.
  unfold grBatchGet. destruct keys as [|k0 ks]; [by exists s|remember (k0 :: ks) as keys eqn:Ek].
  destruct (_ && _) eqn:Eb.
  - apply andb_true_iff in Eb as [Ho _]. destruct (gr_process s (MGET (grKeyFunc c <$> keys))) as (s' & r & -> & Hkv & ->); [by subst|].
    exists s'. cbn [grSlice]. by rewrite (collectAt_hits (grKeyFunc c) (grCodec c)) by (by intros []).
  - pose proof (Pipelined_law s (GET <$> (grKeyFunc c <$> keys))) as Hp. destruct (Pipelined _ _) as [s' [rs err]].
    destruct Hp as [Hp He]; [by apply Forall_fmap, Forall_true|]. apply served_gets in Hp as [Hkv ->]. exists s'.
    rewrite (collectAt_hits (grKeyFunc c) (grCodec c)) by (by intros []). destruct He as [-> |[-> _]]; done.
Qed.

Definition grLife (ttl : Z) : Z := conv ttl 0.
Abbreviation grPuts := (puts grLife (λ ttl, 0 ≤ ttl)).

Lemma served_setttl ttl m pairs (rs : list (Reply E)) m' :
  served conv m ((λ kv, SETTTL kv.1 kv.2 ttl) <$> pairs) rs m' → grPuts ttl m pairs m' ∧ Forall fine rs ∧ length rs = length pairs.
Proof.
  intros Hr. apply (served_sets conv (λ k d, SETTTL k d ttl) (λ m k, conv ttl (lifeAt m k))) in Hr as (Hm & Ht & Hf & Hl); [|by intros].
  split_and!; [|done|done]. split; [done|]. intros Hpos. apply Ht. intros m0 k. unfold grLife.
  destruct (decide (ttl = 0)) as [->|]; [by rewrite !conv_none|]. apply conv_some. lia.
Qed.

Lemma gr_batchSet s items ttl : ∃ s', grBatchSet c s items ttl = (s', None) ∧ grPuts ttl (kv s) (pairs items) (kv s').
Proof.
  unfold grBatchSet. destruct items as [|kv0 l]; [exists s; split; [done|]; by apply puts_rows|]. remember (kv0 :: l) as items eqn:Ei. rewrite (marshalAll_total (grKeyFunc c) (grCodec c)).
  assert (∀ t, ∃ s' rs err, Pipelined s ((λ kv, SETTTL kv.1 kv.2 t) <$> pairs items) = (s', (rs, err)) ∧
    grPipeErr err = None ∧ grPuts t (kv s) (pairs items) (kv s')) as Hpipe.
  { intros t. apply gr_pipe; [by apply Forall_fmap, Forall_true|]. rewrite length_fmap. intros rs m'. apply served_setttl. }
  assert (∀ m, putAll (kv s) (rowsWith 0 (pairs items)) = m → ttl ≤ 0 → grPuts ttl (kv s) (pairs items) m) as Hzero.
  { intros m <- Hle. split; [apply fst_rowsWith|]. intros Hge. unfold grLife. replace ttl with 0 by lia. by rewrite conv_none. }
  destruct (_ && _) eqn:Eb; [destruct (pairsSize _ <=? _)|].
  - apply andb_true_iff in Eb as [[Ho Hle%Z.leb_le]%andb_true_iff _]. destruct (gr_process s (MSET (pairs items))) as (s' & r & -> & Hkv & ->); [by subst|].
    exists s'. split; [done|]. by apply Hzero.
  - apply andb_true_iff in Eb as [[Ho Hle%Z.leb_le]%andb_true_iff _]. destruct (Hpipe 0) as (s' & rs & err & -> & -> & Hkv). exists s'.
    split; [done|]. apply Hzero; [|done]. destruct Hkv as [_ Hkv]. rewrite Hkv by done. unfold grLife. by rewrite conv_none.
  - destruct (Hpipe ttl) as (s' & rs & err & -> & -> & Hkv). by exists s'.
Qed.

Lemma gr_batchDelete s keys : ∃ s', grBatchDelete c s keys = (s', None) ∧ kv s' = removeAll (kv s) (grKeyFunc c <$> keys).
Proof.
  unfold grBatchDelete. destruct keys as [|k0 ks]; [by exists s|]. remember (k0 :: ks) as keys eqn:Ek. destruct (_ && _) eqn:Eb.
  - apply andb_true_iff in Eb as [Ho _]. destruct (gr_process s (DEL (grKeyFunc c <$> keys))) as (s' & r & -> & Hkv & n & ->); [|by exists s'].
    subst. split; [done|by left].
  - destruct (gr_pipe s ((λ k, DEL [k]) <$> (grKeyFunc c <$> keys)) (λ m, m = removeAll (kv s) (grKeyFunc c <$> keys))) as (s' & rs & err & -> & -> & Hkv).
    + apply Forall_fmap, Forall_true. intros k. split; [done|by right].
    + rewrite length_fmap. intros rs m'. apply served_dels.
    + by exists s'.
Qed.

Lemma goredis_lawful : kv_lawful (grKeyFunc c) (grCodec c) (goredisL2 c) kv grLife (λ ttl, 0 ≤ ttl).
Proof.
  split; intros s; cbn.
  - intros k. unfold grGet. destruct (gr_process s (GET (grKeyFunc c k)) I) as (s' & r & -> & -> & ->). split; [|done].
    by apply answerOf_view; intros [].
  - intros ks. destruct (gr_batchGet s ks) as (s' & -> & Hkv). split_and!; [done..|]. apply kvHits_elem.
  - intros k v ttl. unfold grSet. rewrite Marshal_enc. destruct (gr_process s (SETTTL (grKeyFunc c k) (enc v) ttl) I) as (s' & r & -> & Hkv & ->).
    split; [done|]. destruct (served_setttl ttl (kv s) [(grKeyFunc c k, enc v)] [ROk] (kv s')) as [Hp _]; [|exact Hp].
    cbn [fmap list_fmap fst snd]. rewrite Hkv. repeat constructor.
  - intros l ttl. by destruct (gr_batchSet s l ttl) as (s' & -> & Hkv).
  - intros k. unfold grDelete. destruct (gr_process s (DEL [grKeyFunc c k])) as (s' & r & -> & -> & n & ->); [|done]. split; [done|by right].
  - intros ks. by destruct (gr_batchDelete s ks) as (s' & -> & ->).
Qed.
End GoRedis.

(** ** The redispipe, redigo and rueidis adapters over a server that does what it documents *)

(** The facts about commands all three need: what single commands, and the commands of a batch of writes, do. *)
Section Writes.
Context {E : Type} (conv : Z → Z → Z).
Implicit Types (m : table) (one ordered : bool).

(** The SET an adapter sends for a TTL. *)
Definition setFor (ttl : Z) (k : string) (d : bytes) : Cmd := if 0 <? ttl then SETPX k d (RedisMillis ttl) else SET k d.

(** The lifetime it gets a key: whole milliseconds. *)
Definition pxLife (ttl : Z) : Z := if 0 <? ttl then RedisMillis ttl * millisecond else 0.

Lemma pxLife_none : pxLife 0 = 0.
Proof. done. Qed.

Lemma pxLife_some ttl : 0 < ttl → 0 < pxLife ttl.
Proof. intros Ht. unfold pxLife. rewrite (proj2 (Z.ltb_lt 0 ttl) Ht). pose proof (RedisMillis_range ttl). unfold millisecond. lia. Qed.

Lemma pxLife_nonneg ttl : 0 ≤ pxLife ttl.
Proof. destruct (Z.lt_ge_cases 0 ttl) as [Ht|Ht]; [by apply Z.lt_le_incl, pxLife_some|]. unfold pxLife. by rewrite (proj2 (Z.ltb_ge 0 ttl) Ht). Qed.

Lemma setFor_after ttl m k d : after conv m (setFor ttl k d) = <[k := (d, pxLife ttl)]> m.
Proof. unfold setFor, pxLife. by destruct (0 <? ttl). Qed.

Lemma setFor_replied ttl m k d (r : Reply E) : replied m (setFor ttl k d) r → r = ROk.
Proof. unfold setFor. by case_match. Qed.

Lemma setFor_accepts one ordered ttl k d : accepts one ordered (setFor ttl k d).
Proof. unfold setFor. case_match; [apply RedisMillis_range|done]. Qed.

Lemma setFor_all one ordered ttl (pairs : list (string * bytes)) :
  Forall (accepts one ordered) ((λ kv, setFor ttl kv.1 kv.2) <$> pairs).
Proof. apply Forall_fmap, Forall_true. intros kv. apply setFor_accepts. Qed.

Lemma served_setFor ttl m pairs (rs : list (Reply E)) m' :
  served conv m ((λ kv, setFor ttl kv.1 kv.2) <$> pairs) rs m' →
  m' = putAll m (rowsWith (pxLife ttl) pairs) ∧ Forall fine rs ∧ length rs = length pairs.
Proof.
  intros Hr. apply (served_sets conv _ (λ _ _, pxLife ttl)) in Hr as (_ & Ht & Hf & Hl); [split_and!; [by apply Ht|done|done]|].
  intros k d. split; intros; [apply setFor_after|by eapply setFor_replied].
Qed.

Lemma served_plain m pairs (rs : list (Reply E)) m' :
  served conv m ((λ kv, SET kv.1 kv.2) <$> pairs) rs m' → m' = putAll m (rowsWith 0 pairs) ∧ Forall fine rs ∧ length rs = length pairs.
Proof. apply (served_setFor 0). Qed.

Lemma del_all one ordered keys : Forall (accepts one ordered) ((λ k, DEL [k]) <$> keys).
Proof. apply Forall_fmap, Forall_true. intros k. split; [done|by right]. Qed.

Lemma get_all one ordered keys : Forall (accepts one ordered) (GET <$> keys).
Proof. by apply Forall_fmap, Forall_true. Qed.
End Writes.

Abbreviation pxPuts := (puts pxLife (λ _, True)).

Lemma puts_one ttl m k d m' : m' = <[k := (d, pxLife ttl)]> m → pxPuts ttl m [(k, d)] m'.
Proof. intros ->. by apply puts_rows. Qed.

(** A batch without a TTL. *)
Lemma puts_plain ttl m pairs m' : (0 <? ttl) = false → m' = putAll m (rowsWith 0 pairs) → pxPuts ttl m pairs m'.
Proof. intros Ht ->. apply puts_rows. unfold pxLife. by rewrite Ht. Qed.

(** ** redispipe *)

Class SyncCtxLaws {D E : Type} `{!SyncCtx D E} (conv : Z → Z → Z) (kv : D → table) (one ordered : bool) := {
  rpDo_law s c : accepts one ordered c → let '(s', r) := rpDo s c in kv s' = after conv (kv s) c ∧ replied (kv s) c r;
  SendMany_law s cs : Forall (accepts one ordered) cs → let '(s', rs) := SendMany s cs in served conv (kv s) cs rs (kv s')
}.

Section RedisPipe.
Context {K V E D : Type} `{!SyncCtx D E} (c : redispipeCache K V E) `{!TotalCodec (rpCodec c)}.
Context (conv : Z → Z → Z) (kv : D → table) `{!SyncCtxLaws conv kv (rpSingleNode c) (rpOrderedMget c)}.
Implicit Types (s : D) (keys : list K).
Abbreviation hits := (kvHits (rpKeyFunc c) (rpCodec c)).
Abbreviation pairs := (pairsOf (rpKeyFunc c) (rpCodec c)).

Lemma rp_do s cmd :
  accepts (rpSingleNode c) (rpOrderedMget c) cmd → ∃ s' r, rpDo s cmd = (s', r) ∧ kv s' = after conv (kv s) cmd ∧ replied (kv s) cmd r.
Proof. intros Hc. pose proof (rpDo_law s cmd Hc) as Hp. destruct (rpDo s cmd) as [s' r]. by exists s', r. Qed.

Lemma rp_many s cs :
  Forall (accepts (rpSingleNode c) (rpOrderedMget c)) cs → ∃ s' rs, SendMany s cs = (s', rs) ∧ served conv (kv s) cs rs (kv s').
Proof. intros Hc. pose proof (SendMany_law s cs Hc) as Hp. destruct (SendMany s cs) as [s' rs]. by exists s', rs. Qed.

Lemma rp_batchGet s keys : ∃ s', rpBatchGet c s keys = (s', (hits (kv s) keys, None)) ∧ kv s' = kv s.
Proof.
  unfold rpBatchGet. destruct keys as [|k0 ks]; [by exists s|remember (k0 :: ks) as keys eqn:Ek]. destruct (_ && _) eqn:Eb.
  - apply andb_true_iff in Eb as [Ho _]. destruct (rp_do s (MGET (rpKeyFunc c <$> keys))) as (s' & r & -> & Hkv & ->); [by subst|].
    exists s'. by rewrite (collectAt_hits (rpKeyFunc c) (rpCodec c)) by (by intros []).
  - unfold batchGetSendMany. destruct (rp_many s (GET <$> (rpKeyFunc c <$> keys)) (get_all _ _ _)) as (s' & rs & -> & [Hkv ->]%served_gets).
    exists s'. by rewrite (collectAt_hits (rpKeyFunc c) (rpCodec c)) by (by intros []).
Qed.

Lemma rp_batchSet s items ttl : ∃ s', rpBatchSet c s items ttl = (s', None) ∧ pxPuts ttl (kv s) (pairs items) (kv s').
Proof.
  unfold rpBatchSet. destruct items as [|kv0 l]; [exists s; split; [done|by apply puts_rows]|]. remember (kv0 :: l) as items eqn:Ei. rewrite (marshalAll_total (rpKeyFunc c) (rpCodec c)).
  assert (∀ t, ∃ s' rs, SendMany s ((λ kv, setFor t kv.1 kv.2) <$> pairs items) = (s', rs) ∧ firstError rs = None ∧
    kv s' = putAll (kv s) (rowsWith (pxLife t) (pairs items))) as Hmany.
  { intros t. destruct (rp_many s _ (setFor_all _ _ t (pairs items))) as (s' & rs & -> & (Hkv & Hf & _)%served_setFor).
    exists s', rs. split_and!; [done|by apply fine_firstError|done]. }
  destruct (_ && _) eqn:Eb; [destruct (pairsSize _ <=? _)|].
  - apply andb_true_iff in Eb as [[Ho Ht%Z.leb_le%Z.ltb_ge]%andb_true_iff _]. destruct (rp_do s (MSET (pairs items))) as (s' & r & -> & Hkv & ->); [by subst|].
    exists s'. split; [done|]. by apply puts_plain.
  - apply andb_true_iff in Eb as [[Ho Ht%Z.leb_le%Z.ltb_ge]%andb_true_iff _]. destruct (Hmany 0) as (s' & rs & Hm & He & Hkv). exists s'.
    change (λ kv, setFor 0 kv.1 kv.2) with (λ kv : string * bytes, SET kv.1 kv.2) in Hm. rewrite Hm. unfold sendManyErr. rewrite He. split; [done|]. by apply puts_plain.
  - destruct (Hmany ttl) as (s' & rs & Hm & He & Hkv). exists s'. apply (puts_rows pxLife (λ _, True)) in Hkv. unfold setFor in Hm.
    destruct (0 <? ttl); rewrite Hm; unfold sendManyErr; by rewrite He.
Qed.

Lemma rp_batchDelete s keys : ∃ s', rpBatchDelete c s keys = (s', None) ∧ kv s' = removeAll (kv s) (rpKeyFunc c <$> keys).
Proof.
  unfold rpBatchDelete. destruct keys as [|k0 ks]; [by exists s|]. remember (k0 :: ks) as keys eqn:Ek. destruct (_ && _) eqn:Eb.
  - apply andb_true_iff in Eb as [Ho _]. destruct (rp_do s (DEL (rpKeyFunc c <$> keys))) as (s' & r & -> & Hkv & n & ->); [|by exists s'].
    subst. split; [done|by left].
  - destruct (rp_many s _ (del_all _ _ (rpKeyFunc c <$> keys))) as (s' & rs & -> & (Hkv & Hf & _)%served_dels). exists s'.
    unfold sendManyErr. by rewrite fine_firstError.
Qed.

Lemma redispipe_lawful : kv_lawful (rpKeyFunc c) (rpCodec c) (redispipeL2 c) kv pxLife (λ _, True).
Proof.
  split; intros s; cbn.
  - intros k. unfold rpGet. destruct (rp_do s (GET (rpKeyFunc c k)) I) as (s' & r & -> & -> & ->). split; [|done].
    by apply answerOf_view; intros [].
  - intros ks. destruct (rp_batchGet s ks) as (s' & -> & Hkv). split_and!; [done..|]. apply kvHits_elem.
  - intros k v ttl. unfold rpSet. rewrite Marshal_enc. destruct (rp_do s _ (setFor_accepts _ _ ttl (rpKeyFunc c k) (enc v))) as (s' & r & Hd & Hkv & Hr).
    rewrite setFor_after in Hkv. apply setFor_replied in Hr as ->. apply puts_one in Hkv. unfold setFor in Hd.
    destruct (0 <? ttl); by rewrite Hd.
  - intros l ttl. by destruct (rp_batchSet s l ttl) as (s' & -> & Hkv).
  - intros k. unfold rpDelete. destruct (rp_do s (DEL [rpKeyFunc c k])) as (s' & r & -> & -> & n & ->); [|done]. split; [done|by right].
  - intros ks. by destruct (rp_batchDelete s ks) as (s' & -> & ->).
Qed.
End RedisPipe.

(** ** redigo *)

(** The borrowed connection: the commands sent and not flushed, and the replies not received.  A command sent is run
    by the flush at the latest. *)
Class RedigoLaws {D E : Type} `{!RedigoPool D E} (conv : Z → Z → Z) (kv : D → table) (sent : D → list Cmd) (waiting : D → list (Reply E)) (ordered : bool) := {
  GetContext_law s : let '(s', err) := GetContext s in err = None ∧ kv s' = kv s ∧ sent s' = [] ∧ waiting s' = [];
  connDo_law s c : sent s = [] → waiting s = [] → accepts true ordered c →
    let '(s', r) := connDo s c in kv s' = after conv (kv s) c ∧ replied (kv s) c r ∧ sent s' = [] ∧ waiting s' = [];
  Send_law s c : accepts true ordered c →
    let '(s', err) := Send s c in err = None ∧ kv s' = kv s ∧ sent s' = sent s ++ [c] ∧ waiting s' = waiting s;
  Flush_law s : let '(s', err) := Flush s in
    err = None ∧ sent s' = [] ∧ ∃ rs, served conv (kv s) (sent s) rs (kv s') ∧ waiting s' = waiting s ++ rs;
  Receive_law s r rs : waiting s = r :: rs →
    let '(s', r') := Receive s in r' = r ∧ waiting s' = rs ∧ kv s' = kv s ∧ sent s' = sent s;
  connClose_law s : sent s = [] → kv (connClose s) = kv s
}.

Section Redigo.
Context {K V E D : Type} `{!RedigoPool D E} (c : redigoCache K V E) `{!TotalCodec (rgCodec c)}.
Context (conv : Z → Z → Z) (kv : D → table) (sent : D → list Cmd) (waiting : D → list (Reply E)) `{!RedigoLaws conv kv sent waiting (rgOrderedMget c)}.
Implicit Types (s : D) (keys : list K).
Abbreviation hits := (kvHits (rgKeyFunc c) (rgCodec c)).
Abbreviation pairs := (pairsOf (rgKeyFunc c) (rgCodec c)).
Abbreviation ok := (accepts true (rgOrderedMget c)).

Lemma rg_do s cmd : ok cmd → ∃ s' r, rgDo s cmd = (s', r) ∧ kv s' = after conv (kv s) cmd ∧ replied (kv s) cmd r.
Proof.
  intros Hc. unfold rgDo. pose proof (GetContext_law s) as Hg. destruct (GetContext s) as [s1 err]. destruct Hg as (-> & Hk1 & Hs1 & Hw1).
  pose proof (connDo_law s1 cmd Hs1 Hw1 Hc) as Hd. destruct (connDo s1 cmd) as [s2 r]. destruct Hd as (Hk2 & Hr & Hs2 & Hw2).
  exists (connClose s2), r. rewrite connClose_law by done. by rewrite Hk2, <- Hk1.
Qed.

(** A body on a clean connection that leaves nothing unflushed. *)
Lemma rg_withConn {A} (failed : E → A) body s (a : A) m' :
  (∀ s1, kv s1 = kv s → sent s1 = [] → waiting s1 = [] → ∃ s2, body s1 = (s2, a) ∧ kv s2 = m' ∧ sent s2 = []) →
  ∃ s', withConn failed body s = (s', a) ∧ kv s' = m'.
Proof.
  intros Hb. unfold withConn. pose proof (GetContext_law s) as Hg. destruct (GetContext s) as [s1 err]. destruct Hg as (-> & Hk1 & Hs1 & Hw1).
  destruct (Hb s1 Hk1 Hs1 Hw1) as (s2 & -> & Hk2 & Hs2). exists (connClose s2). split; [done|]. by rewrite connClose_law.
Qed.

Lemma rg_sendAll s cs :
  Forall ok cs → ∃ s', sendAll s cs = (s', None) ∧ kv s' = kv s ∧ sent s' = sent s ++ cs ∧ waiting s' = waiting s.
Proof.
  intros Hc. revert s. induction Hc as [|cmd cs Hcmd _ IH]; intros s; cbn; [exists s; by rewrite app_nil_r|].
  pose proof (Send_law s cmd Hcmd) as Hs. destruct (Send s cmd) as [s1 err]. destruct Hs as (-> & Hk & Hse & Hwa).
  destruct (IH s1) as (s' & -> & Hk' & Hs' & Hw'). exists s'. split_and!; [done|congruence| |congruence]. by rewrite Hs', Hse, <- app_assoc.
Qed.

Lemma rg_receiveN s rs :
  waiting s = rs → Forall fine rs → ∃ s', receiveN s (length rs) = (s', None) ∧ kv s' = kv s ∧ sent s' = sent s.
Proof.
  intros Hw Hf. revert s Hw. induction Hf as [|r rs Hr _ IH]; intros s Hw; cbn; [by exists s|].
  pose proof (Receive_law s r rs Hw) as Hx. destruct (Receive s) as [s1 r']. destruct Hx as (-> & Hw1 & Hk1 & Hs1).
  destruct (IH s1 Hw1) as (s' & Hr' & Hk' & Hs'). exists s'. replace (rgErr r) with (@None (OpError E)) by by destruct r. split_and!; [done|congruence..].
Qed.

(** A pipeline of writes: what was sent is flushed and its replies received. *)
Lemma rg_flushReceive s cs m' :
  sent s = cs → waiting s = [] →
  (∀ (rs : list (Reply E)) m'', served conv (kv s) cs rs m'' → m'' = m' ∧ Forall fine rs ∧ length rs = length cs) →
  ∃ s', flushReceive s (length cs) = (s', None) ∧ kv s' = m' ∧ sent s' = [].
Proof.
  intros <- Hw Hr. unfold flushReceive. pose proof (Flush_law s) as Hfl. destruct (Flush s) as [s1 err].
  destruct Hfl as (-> & Hs1 & rs & Hrun & Hw1). destruct (Hr _ _ Hrun) as (Hm & Hf & Hl). rewrite Hw in Hw1. rewrite <- Hl.
  destruct (rg_receiveN s1 rs Hw1 Hf) as (s' & -> & Hk' & Hs'). exists s'. split_and!; [done|congruence..].
Qed.

Lemma rg_sendFlush s cs m' :
  Forall ok cs → (∀ (rs : list (Reply E)) m'', served conv (kv s) cs rs m'' → m'' = m' ∧ Forall fine rs ∧ length rs = length cs) →
  ∃ s', withConn (λ e, Some (Err e)) (λ s, sendFlush s cs) s = (s', None) ∧ kv s' = m'.
Proof.
  intros Hc Hr. apply rg_withConn. intros s1 Hk1 Hs1 Hw1. unfold sendFlush. destruct (rg_sendAll s1 cs Hc) as (s2 & -> & Hk2 & Hs2 & Hw2).
  apply (rg_flushReceive s2 cs); [by rewrite Hs2, Hs1|congruence|]. by rewrite Hk2, Hk1.
Qed.

Lemma rg_receiveKeys s m keys found :
  waiting s = (λ k, bulk (valueAt m k)) <$> (rgKeyFunc c <$> keys) →
  ∃ s', receiveKeys c s keys found = (s', (found ++ hits m keys, None)) ∧ kv s' = kv s ∧ sent s' = sent s.
Proof.
  revert s found. induction keys as [|k keys IH]; intros s found Hw; cbn; [exists s; by rewrite app_nil_r|].
  cbn in Hw. pose proof (Receive_law s _ _ Hw) as Hx. destruct (Receive s) as [s1 r']. destruct Hx as (-> & Hw1 & Hk1 & Hs1).
  unfold viewOf at 1; unfold valueAt in *. destruct (m !! rgKeyFunc c k) as [[data t]|]; cbn; [rewrite Unmarshal_dec|];
    [destruct (IH s1 (found ++ [(k, dec data)]) Hw1) as (s' & Hr & Hk' & Hs')|destruct (IH s1 found Hw1) as (s' & Hr & Hk' & Hs')];
    exists s'; rewrite Hr, <- ?app_assoc; (split_and!; [done|congruence..]).
Qed.

Lemma rg_batchGet s keys : ∃ s', rgBatchGet c s keys = (s', (hits (kv s) keys, None)) ∧ kv s' = kv s.
Proof.
  unfold rgBatchGet. destruct keys as [|k0 ks]; [by exists s|remember (k0 :: ks) as keys eqn:Ek]. destruct (_ && _) eqn:Eb.
  - apply andb_true_iff in Eb as [Ho _]. destruct (rg_do s (MGET (rgKeyFunc c <$> keys))) as (s' & r & -> & Hkv & ->); [by subst|].
    exists s'. cbn [rgValues]. by rewrite (collectAt_hits (rgKeyFunc c) (rgCodec c)) by (by intros []).
  - apply rg_withConn. intros s1 Hk1 Hs1 Hw1. unfold pipelineGet.
    destruct (rg_sendAll s1 _ (get_all true (rgOrderedMget c) (rgKeyFunc c <$> keys))) as (s2 & -> & Hk2 & Hs2 & Hw2).
    pose proof (Flush_law s2) as Hfl. destruct (Flush s2) as [s3 err]. destruct Hfl as (-> & Hs3 & rs & Hrun & Hw3).
    rewrite Hs2, Hs1 in Hrun. apply served_gets in Hrun as [Hk3 ->]. rewrite Hw2, Hw1 in Hw3.
    destruct (rg_receiveKeys s3 (kv s2) keys [] Hw3) as (s' & Hr & Hk' & Hs'). exists s'. rewrite Hr. split_and!; [|congruence..].
    cbn. by rewrite Hk2, Hk1.
Qed.

Lemma rg_sendItems millis s items :
  (∀ x, millis = Some x → 1 ≤ x < 2 ^ 44) →
  ∃ s', sendItems c millis s items = (s', None) ∧ kv s' = kv s ∧ waiting s' = waiting s ∧
    sent s' = sent s ++ ((λ kv, match millis with Some x => SETPX kv.1 kv.2 x | None => SET kv.1 kv.2 end) <$> pairs items).
Proof.
  intros Hx. revert s. induction items as [|[k v] items IH]; intros s; cbn; [exists s; by rewrite app_nil_r|]. rewrite Marshal_enc.
  assert (ok (match millis with Some x => SETPX (rgKeyFunc c k) (enc v) x | None => SET (rgKeyFunc c k) (enc v) end)) as Hok by (destruct millis; [by apply Hx|done]).
  pose proof (Send_law s _ Hok) as Hs. destruct millis as [x|]; destruct (Send s _) as [s1 err]; destruct Hs as (-> & Hk & Hse & Hwa);
    destruct (IH s1) as (s' & -> & Hk' & Hw' & Hs'); exists s'; (split_and!; [done|congruence..|]); by rewrite Hs', Hse, <- app_assoc.
Qed.

Lemma rg_pipelineSet s items ttl : ∃ s', rgPipelineSet c s items ttl = (s', None) ∧ pxPuts ttl (kv s) (pairs items) (kv s').
Proof.
  enough (∃ s', rgPipelineSet c s items ttl = (s', None) ∧ kv s' = putAll (kv s) (rowsWith (pxLife ttl) (pairs items))) as (s' & E1 & Hkv)
    by (exists s'; split; [done|by apply puts_rows]).
  unfold rgPipelineSet. apply rg_withConn. intros s1 Hk1 Hs1 Hw1.
  destruct (rg_sendItems (if 0 <? ttl then Some (RedisMillis ttl) else None) s1 items) as (s2 & -> & Hk2 & Hw2 & Hs2).
  { intros x. case_match; [|done]. intros [= <-]. apply RedisMillis_range. }
  assert (sent s2 = (λ kv, setFor ttl kv.1 kv.2) <$> pairs items) as Hs2' by (rewrite Hs2, Hs1; unfold setFor; by destruct (0 <? ttl)).
  destruct (rg_flushReceive s2 _ (putAll (kv s) (rowsWith (pxLife ttl) (pairs items))) Hs2' ltac:(congruence)) as (s' & Hf & Hk' & Hs').
  - rewrite Hk2, Hk1, length_fmap. intros rs m''. apply served_setFor.
  - exists s'. unfold pairsOf in Hf. rewrite !length_fmap in Hf. by rewrite Hf.
Qed.

Lemma rg_batchSet s items ttl : ∃ s', rgBatchSet c s items ttl = (s', None) ∧ pxPuts ttl (kv s) (pairs items) (kv s').
Proof.
  unfold rgBatchSet. destruct items as [|kv0 l]; [exists s; split; [done|by apply puts_rows]|]. remember (kv0 :: l) as items eqn:Ei. destruct (_ || _) eqn:Et; [apply rg_pipelineSet|].
  apply orb_false_iff in Et as [Et _]. rewrite (marshalAll_total (rgKeyFunc c) (rgCodec c)). destruct (_ <=? _).
  - destruct (rg_do s (MSET (pairs items))) as (s' & r & -> & Hkv & ->); [by subst|]. exists s'. split; [done|]. by apply puts_plain.
  - destruct (rg_sendFlush s ((λ kv, SET kv.1 kv.2) <$> pairs items) (putAll (kv s) (rowsWith 0 (pairs items)))) as (s' & -> & Hkv).
    + by apply Forall_fmap, Forall_true.
    + rewrite length_fmap. intros rs m''. apply served_plain.
    + exists s'. split; [done|]. by apply puts_plain.
Qed.

Lemma rg_batchDelete s keys : ∃ s', rgBatchDelete c s keys = (s', None) ∧ kv s' = removeAll (kv s) (rgKeyFunc c <$> keys).
Proof.
  unfold rgBatchDelete. destruct keys as [|k0 ks]; [by exists s|]. remember (k0 :: ks) as keys eqn:Ek. destruct (_ <=? _).
  - destruct (rg_do s (DEL (rgKeyFunc c <$> keys))) as (s' & r & -> & Hkv & n & ->); [|by exists s']. subst. split; [done|by left].
  - apply rg_sendFlush; [apply del_all|]. rewrite length_fmap. intros rs m''. apply served_dels.
Qed.

Lemma redigo_lawful : kv_lawful (rgKeyFunc c) (rgCodec c) (redigoL2 c) kv pxLife (λ _, True).
Proof.
  split; intros s; cbn.
  - intros k. unfold rgGet. destruct (rg_do s (GET (rgKeyFunc c k)) I) as (s' & r & -> & -> & ->). split; [|done].
    by apply answerOf_view; intros [].
  - intros ks. destruct (rg_batchGet s ks) as (s' & -> & Hkv). split_and!; [done..|]. apply kvHits_elem.
  - intros k v ttl. unfold rgSet. rewrite Marshal_enc. destruct (rg_do s _ (setFor_accepts _ _ ttl (rgKeyFunc c k) (enc v))) as (s' & r & Hd & Hkv & Hr).
    rewrite setFor_after in Hkv. apply setFor_replied in Hr as ->. apply puts_one in Hkv. unfold setFor in Hd.
    destruct (0 <? ttl); by rewrite Hd.
  - intros l ttl. by destruct (rg_batchSet s l ttl) as (s' & -> & Hkv).
  - intros k. unfold rgDelete. destruct (rg_do s (DEL [rgKeyFunc c k])) as (s' & r & -> & -> & n & ->); [|done]. split; [done|by right].
  - intros ks. by destruct (rg_batchDelete s ks) as (s' & -> & ->).
Qed.
End Redigo.

(** ** rueidis and valkey-go *)

Class RueidisLaws {D E : Type} `{!RueidisClient D E} (conv : Z → Z → Z) (kv : D → table) (one ordered : bool) := {
  ruDo_law s c : accepts one ordered c → let '(s', r) := ruDo s c in kv s' = after conv (kv s) c ∧ replied (kv s) c r;
  DoMulti_law s cs : Forall (accepts one ordered) cs → let '(s', rs) := DoMulti s cs in served conv (kv s) cs rs (kv s');
  Dedicate_law s : one = true → kv (Dedicate s) = kv s;
  dedicatedDoMulti_law s cs : one = true → Forall (accepts one ordered) cs →
    let '(s', rs) := dedicatedDoMulti s cs in served conv (kv s) cs rs (kv s');
  cancelDedicated_law s : kv (cancelDedicated s) = kv s;
  MGetHelper_law s keys : keys ≠ [] → let '(s', r) := MGetHelper s keys in
    kv s' = kv s ∧ ∃ replies, r = inr replies ∧ ∀ k, k ∈ keys → replies !! k = Some (bulk (valueAt (kv s) k));
  MSetHelper_law s kvs : kvs ≠ ∅ → let '(s', errs) := MSetHelper s kvs in
    kv s' = ((λ d, (d, 0)) <$> kvs) ∪ kv s ∧ Forall (λ p, p.2 = None) errs;
  MDelHelper_law s keys : keys ≠ [] → let '(s', errs) := MDelHelper s keys in
    kv s' = removeAll (kv s) keys ∧ Forall (λ p, p.2 = None) errs
}.

Lemma rangeErr_clean {E} (l : list (string * option E)) : Forall (λ p, p.2 = None) l → rangeErr l = None.
Proof. induction 1 as [|[k e] l He _ IH]; [done|]. cbn in *. by subst e. Qed.

Section Rueidis.
Context {K V E D : Type} `{!RueidisClient D E} (rangeMap : gmap string bytes → list (string * bytes)).
Context (c : rueidisCache K V E) `{!TotalCodec (ruCodec c)} (Hrange : ∀ m, rangeMap m ≡ₚ map_to_list m).
Context (conv : Z → Z → Z) (kv : D → table) `{!RueidisLaws conv kv (ruSingleNode c) (ruOrderedMget c)}.
Implicit Types (s : D) (keys : list K).
Abbreviation hits := (kvHits (ruKeyFunc c) (ruCodec c)).
Abbreviation pairs := (pairsOf (ruKeyFunc c) (ruCodec c)).
Abbreviation ok := (accepts (ruSingleNode c) (ruOrderedMget c)).

Lemma ru_do s cmd : ok cmd → ∃ s' r, ruDo s cmd = (s', r) ∧ kv s' = after conv (kv s) cmd ∧ replied (kv s) cmd r.
Proof. intros Hc. pose proof (ruDo_law s cmd Hc) as Hp. destruct (ruDo s cmd) as [s' r]. by exists s', r. Qed.

Lemma ru_results s cs : Forall ok cs → ∃ s' rs, doMultiLargeResults c s cs = (s', rs) ∧ served conv (kv s) cs rs (kv s').
Proof.
  intros Hc. unfold doMultiLargeResults. case_eq (ruSingleNode c); intros Eo; cbn [negb].
  - pose proof (dedicatedDoMulti_law (Dedicate s) cs Eo Hc) as Hp. rewrite Dedicate_law in Hp by done. destruct (dedicatedDoMulti _ cs) as [s' rs]. exists (cancelDedicated s'), rs. by rewrite cancelDedicated_law.
  - pose proof (DoMulti_law s cs Hc) as Hp. destruct (DoMulti s cs) as [s' rs]. by exists s', rs.
Qed.

Lemma ru_large s cs m' :
  Forall ok cs → (∀ (rs : list (Reply E)) m'', served conv (kv s) cs rs m'' → m'' = m' ∧ Forall fine rs ∧ length rs = length cs) →
  ∃ s', doMultiLarge c s cs = (s', None) ∧ kv s' = m'.
Proof.
  intros Hc Hr. destruct (ru_results s cs Hc) as (s' & rs & Hd & Hrun). destruct (Hr _ _ Hrun) as (Hm & Hf & _). exists s'.
  unfold doMultiLarge, doMultiLargeResults in *. rewrite <- (fine_doMultiErr rs Hf). split; [|done].
  destruct (negb _); [by rewrite Hd|]. destruct (dedicatedDoMulti _ _) as [s1 rs1]. by injection Hd as <- <-.
Qed.

Lemma ru_collectMap m (replies : gmap string (Reply E)) keys found :
  (∀ k, k ∈ keys → replies !! ruKeyFunc c k = Some (bulk (valueAt m (ruKeyFunc c k)))) →
  collectMap c keys replies found = (found ++ hits m keys, None).
Proof.
  revert found. induction keys as [|k keys IH]; intros found Hr; cbn; [by rewrite app_nil_r|]. rewrite Hr by (by left).
  assert (∀ k', k' ∈ keys → replies !! ruKeyFunc c k' = Some (bulk (valueAt m (ruKeyFunc c k')))) as Hr' by (intros; apply Hr; by right).
  unfold viewOf at 1; unfold valueAt in *. destruct (m !! ruKeyFunc c k) as [[data t]|]; cbn; [|by apply IH]. rewrite Unmarshal_dec, IH by done. by rewrite <- app_assoc.
Qed.

Lemma ru_batchGet s keys : ∃ s', ruBatchGet c s keys = (s', (hits (kv s) keys, None)) ∧ kv s' = kv s.
Proof.
  unfold ruBatchGet. destruct keys as [|k0 ks]; [by exists s|remember (k0 :: ks) as keys eqn:Ek]. destruct (_ <=? _); [case_eq (ruOrderedMget c); intros Eo|].
  - unfold batchGetOrdered. destruct (ru_do s (MGET (ruKeyFunc c <$> keys))) as (s' & r & -> & Hkv & ->); [by subst|]. exists s'.
    rewrite !length_fmap, Nat.eqb_refl. by rewrite (collectAt_hits (ruKeyFunc c) (ruCodec c)) by (by intros []).
  - pose proof (MGetHelper_law s (ruKeyFunc c <$> keys)) as Hp. destruct (MGetHelper _ _) as [s' r]. destruct Hp as (Hkv & replies & -> & Hr); [by subst|].
    exists s'. split; [|done]. rewrite (ru_collectMap (kv s)); [done|]. intros k Hk. apply Hr. apply list_elem_of_fmap. by exists k.
  - destruct (ru_results s _ (get_all _ _ (ruKeyFunc c <$> keys))) as (s' & rs & -> & [Hkv ->]%served_gets). exists s'.
    by rewrite (collectAt_hits (ruKeyFunc c) (ruCodec c)) by (by intros []).
Qed.

Lemma ru_pipelineSet s items ttl :
  ∃ s', ruPipelineSet c s items (if 0 <? ttl then RedisMillis ttl else 0) = (s', None) ∧ pxPuts ttl (kv s) (pairs items) (kv s').
Proof.
  unfold ruPipelineSet. rewrite (marshalAll_total (ruKeyFunc c) (ruCodec c)).
  destruct (ru_large s ((λ kv, setFor ttl kv.1 kv.2) <$> pairs items) (putAll (kv s) (rowsWith (pxLife ttl) (pairs items)))) as (s' & Hl & Hkv).
  - apply setFor_all.
  - rewrite length_fmap. intros rs m''. apply served_setFor.
  - exists s'. split; [|by apply puts_rows]. rewrite <- Hl. f_equal. unfold setFor. pose proof (RedisMillis_range ttl).
    destruct (0 <? ttl); [|done]. by rewrite (proj2 (Z.ltb_lt 0 (RedisMillis ttl))) by lia.
Qed.

Lemma ru_batchSet s items ttl : ∃ s', ruBatchSet rangeMap c s items ttl = (s', None) ∧ pxPuts ttl (kv s) (pairs items) (kv s').
Proof.
  unfold ruBatchSet. destruct items as [|kv0 l]; [exists s; split; [done|by apply puts_rows]|]. remember (kv0 :: l) as items eqn:Ei.
  destruct (0 <? ttl) eqn:Et; [|destruct (ruMaxMsetItems <? _)].
  - pose proof (ru_pipelineSet s items ttl) as Hp. by rewrite Et in Hp.
  - pose proof (ru_pipelineSet s items ttl) as Hp. by rewrite Et in Hp.
  - rewrite (marshalAll_total (ruKeyFunc c) (ruCodec c)). fold (putAll ∅ (pairs items)). destruct (_ <=? _).
    + pose proof (MSetHelper_law s (putAll ∅ (pairs items))) as Hp. destruct (MSetHelper _ _) as [s' errs]. destruct Hp as [Hkv He].
      { subst items. apply (putAll_nonempty (<[ruKeyFunc c kv0.1 := enc kv0.2]> ∅)), insert_non_empty. }
      exists s'. rewrite rangeErr_clean by done. split; [done|]. apply puts_plain; [done|]. by rewrite Hkv, putAll_rows_union.
    + destruct (ru_large s ((λ kv, SET kv.1 kv.2) <$> rangeMap (putAll ∅ (pairs items))) (putAll (kv s) (rowsWith 0 (pairs items)))) as (s' & -> & Hkv).
      * by apply Forall_fmap, Forall_true.
      * rewrite length_fmap, <- (putAll_rows_map 0 (kv s) (pairs items) (rangeMap _)) by apply Hrange. intros rs m''. apply served_plain.
      * exists s'. split; [done|]. by apply puts_plain.
Qed.

Lemma ru_batchDelete s keys : ∃ s', ruBatchDelete c s keys = (s', None) ∧ kv s' = removeAll (kv s) (ruKeyFunc c <$> keys).
Proof.
  unfold ruBatchDelete. destruct keys as [|k0 ks]; [by exists s|]. remember (k0 :: ks) as keys eqn:Ek. destruct (_ <=? _).
  - pose proof (MDelHelper_law s (ruKeyFunc c <$> keys)) as Hp. destruct (MDelHelper _ _) as [s' errs]. destruct Hp as [Hkv He]; [by subst|].
    exists s'. by rewrite rangeErr_clean.
  - apply ru_large; [apply del_all|]. rewrite length_fmap. intros rs m''. apply served_dels.
Qed.

Lemma rueidis_lawful : kv_lawful (ruKeyFunc c) (ruCodec c) (rueidisL2 rangeMap c) kv pxLife (λ _, True).
Proof.
  split; intros s; cbn.
  - intros k. unfold ruGet. destruct (ru_do s (GET (ruKeyFunc c k)) I) as (s' & r & -> & -> & ->). split; [|done].
    by apply answerOf_view; intros [].
  - intros ks. destruct (ru_batchGet s ks) as (s' & -> & Hkv). split_and!; [done..|]. apply kvHits_elem.
  - intros k v ttl. unfold ruSet. rewrite Marshal_enc. destruct (ru_do s _ (setFor_accepts _ _ ttl (ruKeyFunc c k) (enc v))) as (s' & r & Hd & Hkv & Hr).
    rewrite setFor_after in Hkv. apply setFor_replied in Hr as ->. apply puts_one in Hkv. unfold setFor in Hd.
    by rewrite Hd.
  - intros l ttl. by destruct (ru_batchSet s l ttl) as (s' & -> & Hkv).
  - intros k. unfold ruDelete. destruct (ru_do s (DEL [ruKeyFunc c k])) as (s' & r & -> & -> & n & ->); [|done]. split; [done|by right].
  - intros ks. by destruct (ru_batchDelete s ks) as (s' & -> & ->).
Qed.
End Rueidis.
