(* ===== verification/RedisTheorems.v ===== *)
(** * The Redis adapters are lawful second levels

    A server in memory shows that the clients' promises can be kept; a cache over an adapter over such a
    server keeps a value readable for the lifetime the server gave it, and write-back arrives there with bytes and lifetime. *)

From stdpp Require Import strings gmap pretty.
From S2P Require Import Prelude Item Table Policy ClockPolicy Shard ShardInv GetMemory ShardSpec ShardTheorems Expiry Config Stats CacheState CacheLaws WriteBack WriteBackSteps WriteBackTheorems CacheOps WriteThrough Snapshot L2Util Redis KvStore GoRedis RedisPipe Redigo Rueidis Valkey RedisLaws.

(** C8: The five Redis adapters (go-redis, redispipe, redigo, rueidis, valkey) over clients and a server that do what they
    document and do not fail, with a codec that decodes every byte string and reads back what it wrote: no operation fails;
    single and batch reads answer exactly what the server holds under the keys' storage keys, single and batch writes and
    deletions change exactly these, the last of a repeated key winning, whether a batch goes out as one multi-key command,
    through the client's helpers or as a pipeline.  A written key gets the lifetime its TTL asks for and loses the one it had: none
    without a TTL, else whole milliseconds, at least one; go-redis converts a duration itself, and a negative one may keep
    the lifetime of the key. *)
Theorem redis_adapters_lawful :
  (∀ K V E D `(!Cmdable D E) (c : goredisCache K V E) (Hc : TotalCodec (grCodec c)) conv (kv : D → table),
    CmdableLaws conv kv (grSingleNode c) (grOrderedMget c) →
    kv_lawful (grKeyFunc c) (grCodec c) (goredisL2 c) kv (grLife conv) (λ ttl, 0 ≤ ttl)) ∧
  (∀ K V E D `(!SyncCtx D E) (c : redispipeCache K V E) (Hc : TotalCodec (rpCodec c)) conv (kv : D → table),
    SyncCtxLaws conv kv (rpSingleNode c) (rpOrderedMget c) →
    kv_lawful (rpKeyFunc c) (rpCodec c) (redispipeL2 c) kv pxLife (λ _, True)) ∧
  (∀ K V E D `(!RedigoPool D E) (c : redigoCache K V E) (Hc : TotalCodec (rgCodec c)) conv (kv : D → table) sent waiting,
    RedigoLaws conv kv sent waiting (rgOrderedMget c) →
    kv_lawful (rgKeyFunc c) (rgCodec c) (redigoL2 c) kv pxLife (λ _, True)) ∧
  (∀ K V E D `(!RueidisClient D E) (c : rueidisCache K V E) (Hc : TotalCodec (ruCodec c)) conv (kv : D → table) rangeMap,
    (∀ m, rangeMap m ≡ₚ map_to_list m) → RueidisLaws conv kv (ruSingleNode c) (ruOrderedMget c) →
    kv_lawful (ruKeyFunc c) (ruCodec c) (rueidisL2 rangeMap c) kv pxLife (λ _, True)) ∧
  (∀ K V E D `(!RueidisClient D E) (c : valkeyCache K V E) (Hc : TotalCodec (ruCodec c)) conv (kv : D → table) rangeMap,
    (∀ m, rangeMap m ≡ₚ map_to_list m) → RueidisLaws conv kv (ruSingleNode c) (ruOrderedMget c) →
    kv_lawful (ruKeyFunc c) (ruCodec c) (valkeyL2 rangeMap c) kv pxLife (λ _, True)).
Proof.
  split_and!; intros.
  - by apply goredis_lawful.
  - by eapply redispipe_lawful.
  - by eapply redigo_lawful.
  - by eapply rueidis_lawful.
  - by eapply rueidis_lawful.
Qed.

(** ** A server in memory *)

Module Sim.
Section Sim.
Context {E : Type}.

(** Durations as they are; -1 keeps the lifetime a key has. *)
Definition conv (ttl old : Z) : Z := if 0 <? ttl then ttl else if ttl =? -1 then old else 0.
Abbreviation after := (after conv).
Abbreviation served := (served conv).

Definition answer (m : table) (c : Cmd) : Reply E :=
  match c with
  | GET key => bulk (valueAt m key)
  | MGET keys => RArray ((λ k, bulk (valueAt m k)) <$> keys)
  | DEL _ => RInt 0
  | _ => ROk
  end.

Fixpoint answerAll (m : table) (cs : list Cmd) : table * list (Reply E) :=
  match cs with
  | [] => (m, [])
  | c :: cs => let '(m', rs) := answerAll (after m c) cs in (m', answer m c :: rs)
  end.

Lemma answer_replied m c : replied m c (answer m c).
Proof. destruct c; cbn; try done. by exists 0. Qed.

Lemma answerAll_served m cs : let '(m', rs) := answerAll m cs in served m cs rs m'.
Proof.
  revert m. induction cs as [|c cs IH]; intros m; cbn; [constructor|]. specialize (IH (after m c)). destruct (answerAll (after m c) cs) as [m' rs].
  constructor; [apply answer_replied|done].
Qed.

#[global] Instance simCmdable : Cmdable table E := {
  process m c := (after m c, answer m c);
  Pipelined m cs := let '(m', rs) := answerAll m cs in (m', (rs, None))
}.

#[global] Instance simCmdable_laws one ordered : CmdableLaws (E := E) conv id one ordered.
Proof.
  split; cbn.
  - done.
  - intros ttl old Ht. unfold conv. by rewrite (proj2 (Z.ltb_lt 0 ttl) Ht).
  - intros m c _. split; [done|apply answer_replied].
  - intros m c _. pose proof (answerAll_served m c) as H. destruct (answerAll m c) as [m' rs]. split; [done|by left].
Qed.

#[global] Instance simSync : SyncCtx table E := { rpDo m c := (after m c, answer m c); SendMany := answerAll }.

#[global] Instance simSync_laws one ordered : SyncCtxLaws (E := E) conv id one ordered.
Proof. split; cbn; intros m c _; [split; [done|apply answer_replied]|apply answerAll_served]. Qed.

#[global] Instance simRueidis : RueidisClient table E := {
  ruDo m c := (after m c, answer m c);
  DoMulti := answerAll;
  Dedicate m := m;
  dedicatedDoMulti := answerAll;
  cancelDedicated m := m;
  MGetHelper m keys := (m, inr (list_to_map ((λ k, (k, bulk (valueAt m k))) <$> keys)));
  MSetHelper m kvs := (((λ d, (d, 0)) <$> kvs) ∪ m, (λ kv, (kv.1, None)) <$> map_to_list kvs);
  MDelHelper m keys := (removeAll m keys, (λ k, (k, None)) <$> keys)
}.

Lemma list_to_map_graph {A} (f : string → A) keys k : k ∈ keys → (list_to_map ((λ k, (k, f k)) <$> keys) : gmap string A) !! k = Some (f k).
Proof.
  induction keys as [|k' keys IH]; [by intros ?%elem_of_nil|]. cbn. intros [->|Hk]%elem_of_cons; [by rewrite lookup_insert_eq|].
  destruct (decide (k = k')) as [->|]; [by rewrite lookup_insert_eq|]. rewrite lookup_insert_ne by done. by apply IH.
Qed.

#[global] Instance simRueidis_laws one ordered : RueidisLaws (E := E) conv id one ordered.
Proof.
  split; cbn; try done.
  - intros m c _. split; [done|apply answer_replied].
  - intros m cs _. apply answerAll_served.
  - intros m cs _ _. apply answerAll_served.
  - intros m keys _. split; [done|]. eexists. split; [done|]. intros k. apply (list_to_map_graph (λ k, bulk (valueAt m k))).
  - intros m kvs _. split; [done|]. by apply Forall_fmap, Forall_true.
  - intros m keys _. split; [done|]. by apply Forall_fmap, Forall_true.
Qed.

(** The keys, and a connection's unflushed commands and unread replies. *)
#[global] Instance simPool : RedigoPool (table * list Cmd * list (Reply E)) E := {
  GetContext s := ((s.1.1, [], []), None);
  connDo s c := ((after s.1.1 c, s.1.2, s.2), answer s.1.1 c);
  Send s c := ((s.1.1, s.1.2 ++ [c], s.2), None);
  Flush s := let '(m, rs) := answerAll s.1.1 s.1.2 in ((m, [], s.2 ++ rs), None);
  Receive s := match s.2 with r :: rs => ((s.1.1, s.1.2, rs), r) | [] => (s, RNil) end;
  connClose s := s
}.

#[global] Instance simPool_laws ordered : RedigoLaws (E := E) conv (λ s, s.1.1) (λ s, s.1.2) snd ordered.
Proof.
  split; cbn; try done.
  - intros [[m cs] ws] c Hs Hw _. cbn in *. split_and!; [done|apply answer_replied|done..].
  - intros [[m cs] ws]. cbn. pose proof (answerAll_served m cs) as H. destruct (answerAll m cs) as [m' rs]. split_and!; [done..|].
    by exists rs.
  - intros [[m cs] ws] r rs Hw. cbn in *. by subst ws.
Qed.
End Sim.
End Sim.

Definition exGoredis : goredisCache string bytes Z := mkGoredis BytesCodec id true false.
Definition exRedispipe : redispipeCache string bytes Z := mkRedispipe BytesCodec id false false.
Definition exRedigo : redigoCache string bytes Z := mkRedigo BytesCodec id true.
Definition exRueidis : rueidisCache string bytes Z := mkRueidis BytesCodec id true false.
Definition exItems : list (string * bytes) := [("a", [1]); ("b", [2]); ("a", [3])].

(** A batch with a repeated key: one MSET, a pipeline with a TTL on a cluster, a pipeline with a TTL on a borrowed connection,
    the client's helper. *)
Lemma redis_adapters_lawful_witness :
  (∃ s', grBatchSet exGoredis (∅ : table) exItems 0 = (s', None) ∧ s' !! "a" = Some ([3], 0)) ∧
  (∃ s', rpBatchSet exRedispipe (∅ : table) exItems 1000001 = (s', None) ∧ s' !! "a" = Some ([3], 2000000)) ∧
  (∃ s', rgBatchSet exRedigo (∅ : table, [], []) exItems 5 = (s', None) ∧ s'.1.1 !! "a" = Some ([3], 1000000)) ∧
  ∃ s', ruBatchSet map_to_list exRueidis (∅ : table) exItems 0 = (s', None) ∧ s' !! "a" = Some ([3], 0).
Proof.
  destruct redis_adapters_lawful as (H1 & H2 & H3 & H4 & _). split_and!.
  - pose proof (kv_batchSet _ _ _ _ _ _ (H1 _ _ _ _ _ exGoredis _ Sim.conv id _) ∅ exItems 0) as H. cbn [l2BatchSet goredisL2] in H.
    destruct (grBatchSet _ _ _ _) as [s' e]. destruct H as [-> [_ H]]. exists s'. split; [done|]. change (id s') with s' in H. rewrite H by done. reflexivity.
  - pose proof (kv_batchSet _ _ _ _ _ _ (H2 _ _ _ _ _ exRedispipe _ Sim.conv id _) ∅ exItems 1000001) as H. cbn [l2BatchSet redispipeL2] in H.
    destruct (rpBatchSet _ _ _ _) as [s' e]. destruct H as [-> [_ H]]. exists s'. split; [done|]. change (id s') with s' in H. rewrite H by done. reflexivity.
  - pose proof (kv_batchSet _ _ _ _ _ _ (H3 _ _ _ _ _ exRedigo _ Sim.conv (λ s, s.1.1) (λ s, s.1.2) snd _) (∅, [], []) exItems 5) as H.
    cbn [l2BatchSet redigoL2] in H. destruct (rgBatchSet _ _ _ _) as [s' e]. destruct H as [-> [_ H]]. exists s'. split; [done|]. rewrite H by done. reflexivity.
  - pose proof (kv_batchSet _ _ _ _ _ _ (H4 _ _ _ _ _ exRueidis _ Sim.conv id map_to_list (λ _, reflexivity _) _) ∅ exItems 0) as H. cbn [l2BatchSet rueidisL2] in H.
    destruct (ruBatchSet _ _ _ _ _) as [s' e]. destruct H as [-> [_ H]]. exists s'. split; [done|]. change (id s') with s' in H. rewrite H by done. reflexivity.
Defined.

(** ** The cache over an adapter *)

Section OverAdapter.
Context {K V P D E E' : Type} `{!EqDecision K} `{!GoType K} `{!GoType V} `{!EvictionPolicy K V P}.
Context (hash : K → Z) (c : Consts K V).
Context (keyFunc : K → string) (codec : Codec V E) `{!TotalCodec codec} `{!Inj (=) (=) keyFunc}.
Context (l2 : L2Cache K V D E') (kv : D → table) (Hlaw : kv_lawful keyFunc codec l2 kv pxLife (λ _, True)).
#[local] Existing Instance l2.
(** The server some time later: it drops the keys whose deadline came. *)
Context (pass : Z → D → D) (Hpass : ∀ dt s, kv (pass dt s) = omap (aged dt) (kv s)).

#[local] Instance overServer : L2Laws K V D E' :=
  kv_L2Laws keyFunc codec _ l2 kv pxLife (λ _, True) Hlaw (λ _, I) pxLife_none pxLife_some pass Hpass.


(** C17: Write-back over an adapter that keeps its promise on a Redis server arrives there.  With a codec that decodes every byte string
    and a key function without collisions, no lifetime ending meanwhile: after any interleaving of tasks that find room in their
    queue, [Wait] markers and worker turns, [Close] returns with empty queues and no error, and the server holds under the storage
    key of every key the bytes and the lifetime of the last write to it since the start (the encoding of the value, and the TTL of
    that write in whole milliseconds), no row if it was deleted after that, and the very row it held before if the run did
    not touch the key. *)
Theorem write_back_reaches_server (w0 : World K V P D E') evs w :
  idle w0 → wb_run hash c w0 evs w →
  ∃ w', Close c w = Some ((), w') ∧ (∀ i, queues w' i = []) ∧ wErrors w' = wErrors w0 ∧
    ∀ k, kv (wL2 w') !! keyFunc k =
      match last (filter (λ t, wflush t = None ∧ wkey t = k) (tasksOf evs)) with
      | Some t => if wdel t then None else Some (enc (wvalue t), pxLife (wttl t))
      | None => kv (wL2 w0) !! keyFunc k
      end.
Proof.
  intros Hi Hr. destruct (close_delivers hash c w0 evs w Hi Hr) as (w' & E1 & Hq & He & _ & Hl & _). exists w'. split_and!; [done..|].
  intros k. specialize (Hl k). cbn [l2rows overServer kv_L2Laws] in Hl. unfold rowAt in Hl. rewrite Hl. clear.
  induction (tasksOf evs) as [|t l IH] using rev_ind; [done|]. rewrite applyTasks_app, filter_app. cbn [applyTasks foldl].
  unfold applyTask. rewrite filter_cons, filter_nil. destruct (wflush t) eqn:Ef.
  - rewrite decide_False by naive_solver. by rewrite app_nil_r.
  - unfold upd. destruct (decide (k = wkey t)) as [->|Hne].
    + rewrite decide_True by done. by rewrite last_snoc.
    + rewrite decide_False by naive_solver. by rewrite app_nil_r.
Qed.
End OverAdapter.

(** Over the redigo adapter and the server in memory: integers under their decimal keys. *)
Definition exCodec : Codec Z Z := mkCodec (λ v, inr [v]) (λ b, inr (default 0 (head b))).
#[global] Instance exCodec_total : TotalCodec exCodec.
Proof. by refine {| enc := λ v, [v]; dec := λ b, default 0 (head b) |}. Defined.

Definition exAdapter : redigoCache Z Z Z := mkRedigo exCodec pretty true.

Abbreviation exServer := (table * list Cmd * list (Reply Z))%type.

#[local] Instance exAdapterL2 : L2Cache Z Z exServer (OpError Z) := redigoL2 exAdapter.

Lemma exAdapter_lawful : kv_lawful pretty exCodec exAdapterL2 (λ s : exServer, s.1.1) pxLife (λ _, True).
Proof. exact (redigo_lawful exAdapter Sim.conv _ (λ s, s.1.2) snd). Qed.

Definition exPass (dt : Z) (s : exServer) : exServer := (omap (aged dt) s.1.1, s.1.2, s.2).

#[local] Instance exServerLaws : L2Laws Z Z exServer (OpError Z) :=
  overServer pretty exCodec exAdapterL2 (λ s, s.1.1) exAdapter_lawful exPass (λ _ _, eq_refl).







(** Write-back over the same adapter: two writes of key 1, one of key 2 and its deletion. *)
Definition redisIdle : World Z Z ClockPolicy exServer (OpError Z) :=
  mkWorld [] 0 (newStats true) ({[ "9" := ([90], 0) ]}, [], []) [[]; []] false [] [] [].

Definition redisEvents : list (event Z Z) := [Put (wset 1 10); Put (wset 2 20); Put (wset 1 11); Turn 0; Put (wdelete 2)].

Definition redisAfter (l : list (event Z Z)) : World Z Z ClockPolicy exServer (OpError Z) :=
  foldl (λ w e, match (match e with Put t => enqueueL2 wbHash wbConsts t w | Mark i n => putMarker i n w | Turn i => workerTurn wbConsts i w end) with
    Some (_, w) => w | None => w end) redisIdle l.

Lemma redisEvents_run : wb_run wbHash wbConsts redisIdle redisEvents (redisAfter redisEvents).
Proof.
  unfold redisEvents. repeat match goal with
  | |- wb_run _ _ _ [] _ => apply run_nil
  | |- wb_run _ _ _ ?l _ =>
    let l1 := eval vm_compute in (removelast l) in let e := eval vm_compute in (List.last l (Turn 0)) in
    change l with (l1 ++ [e]);
    eapply (run_snoc _ _ _ _ (redisAfter l1));
      [|first [eapply step_put; [reflexivity|reflexivity|eexists; split; [vm_compute; reflexivity|vm_compute; lia]|vm_compute; reflexivity]
              |eapply step_turn; vm_compute; reflexivity]]
  end.
Qed.

Lemma write_back_reaches_server_witness :
  ∃ w', Close wbConsts (redisAfter redisEvents) = Some ((), w') ∧ (wL2 w').1.1 !! pretty 1 = Some ([11], 1000000) ∧
    (wL2 w').1.1 !! pretty 2 = None ∧ (wL2 w').1.1 !! pretty 9 = Some ([90], 0).
Proof.
  destruct (write_back_reaches_server wbHash wbConsts pretty exCodec exAdapterL2 (λ s, s.1.1) exAdapter_lawful exPass (λ _ _, eq_refl)
    redisIdle redisEvents (redisAfter redisEvents)) as (w' & E' & _ & _ & Hl).
  - split_and!; [repeat constructor|vm_compute; lia|reflexivity].
  - apply redisEvents_run.
  - exists w'. split_and!; [exact E'|exact (eq_trans (Hl 1) eq_refl)|exact (eq_trans (Hl 2) eq_refl)|exact (eq_trans (Hl 9) eq_refl)].
Defined.
