(* ===== verification/Strconv.v ===== *)
(** * Decimal integers as strings: [strconv.FormatInt] and [strconv.ParseInt] in base 10, 64 bits *)

From Stdlib Require Import Ascii DecimalString DecimalZ DecimalPos.
From stdpp Require Import strings.
From S2P Require Import Prelude.

Definition FormatInt (x : Z) : string := NilZero.string_of_int (Z.to_int x).

(** An optional sign and at least one digit, in the range of int64; [None] is a parse error. *)
Definition ParseInt (s : string) : option Z :=
  match match s with
        | String "+"%char rest => option_map Decimal.Pos (NilZero.uint_of_string rest)
        | _ => NilZero.int_of_string s
        end with
  | None => None
  | Some d => let x := Z.of_int d in if (- 2 ^ 63 <=? x) && (x <? 2 ^ 63) then Some x else None
  end.

Lemma string_of_uint_head d s : NilZero.string_of_uint d ≠ String "+"%char s.
Proof. destruct d; cbn; intros [=]. Qed.

Lemma to_int_nonnil x : Z.to_int x ≠ Decimal.Pos Decimal.Nil ∧ Z.to_int x ≠ Decimal.Neg Decimal.Nil.
Proof. destruct x as [|p|p]; cbn; (split; [|]); try done; intros [= H]; by apply (DecimalPos.Unsigned.to_uint_nonnil p). Qed.

Lemma ParseInt_FormatInt x : - 2 ^ 63 ≤ x < 2 ^ 63 → ParseInt (FormatInt x) = Some x.
Proof.
  intros Hx. unfold ParseInt, FormatInt. destruct (to_int_nonnil x) as [Hp Hn].
  assert (∀ s, NilZero.string_of_int (Z.to_int x) ≠ String "+"%char s) as Hne.
  { intros s. destruct (Z.to_int x); cbn; [apply string_of_uint_head|done]. }
  replace (match NilZero.string_of_int (Z.to_int x) with String "+"%char rest => _ | _ => _ end)
    with (NilZero.int_of_string (NilZero.string_of_int (Z.to_int x))).
  - rewrite NilZero.isi by done. rewrite DecimalZ.of_to. rewrite (proj2 (Z.leb_le _ _)), (proj2 (Z.ltb_lt _ _)) by lia. done.
  - destruct (NilZero.string_of_int (Z.to_int x)) as [|a s] eqn:Es; [done|].
    destruct a as [[] [] [] [] [] [] [] []]; try done. by destruct (Hne s).
Qed.

Example ParseInt_examples :
  ParseInt "-42" = Some (-42) ∧ ParseInt "+7" = Some 7 ∧ ParseInt "007" = Some 7 ∧ ParseInt "" = None ∧ ParseInt "1x" = None ∧
  ParseInt "9223372036854775808" = None ∧ FormatInt 1700000000 = "1700000000".
Proof. repeat split; vm_compute; reflexivity. Qed.
