(* ===== verification/Dedup.v ===== *)
(** * Batches without repeated storage keys, and batches cut into chunks

    The loops that several adapters share word for word: l2/dynamo_adapter, l2/sql_adapter, l2/pgx_adapter and
    l2/mongo_adapter collapse the repeated keys of a batch before they send it. *)

From stdpp Require Import strings gmap.
From S2P Require Import Prelude.

Section Keys.
Context {K : Type} (keyFunc : K → string).
Implicit Types keys : list K.

(** The distinct storage keys in order, and the last key of each. *)
Definition dedupKeys keys : gmap string K * list string :=
  foldl (λ st key,
    let storageKey := keyFunc key in
    (<[storageKey := key]> st.1, match st.1 !! storageKey with Some _ => st.2 | None => st.2 ++ [storageKey] end)) (∅, []) keys.

(** The distinct storage keys only. *)
Definition dedupStorage keys : list string :=
  (foldl (λ (st : gset string * list string) key,
    let storageKey := keyFunc key in
    if decide (storageKey ∈ st.1) then st else ({[storageKey]} ∪ st.1, st.2 ++ [storageKey])) (∅, []) keys).2.

Record deduped keys (by_ : gmap string K) (sks : list string) : Prop := {
  dd_nodup : NoDup sks;
  dd_keys sk : sk ∈ sks ↔ ∃ k, by_ !! sk = Some k;
  dd_by sk k : by_ !! sk = Some k → k ∈ keys ∧ keyFunc k = sk;
  dd_all k : k ∈ keys → keyFunc k ∈ sks
}.

Lemma dedupKeys_spec keys : deduped keys (dedupKeys keys).1 (dedupKeys keys).2.
Proof.
  unfold dedupKeys. induction keys as [|k keys IH] using rev_ind.
  { split; cbn; [apply NoDup_nil_2|..]; intros ?; rewrite ?elem_of_nil, ?lookup_empty; naive_solver. }
  rewrite foldl_app. cbn. destruct (foldl _ _ keys) as [by_ sks]. cbn in *. destruct IH as [Hnd Hk Hby Hall].
  assert (∀ sk, sk ∈ (match by_ !! keyFunc k with Some _ => sks | None => sks ++ [keyFunc k] end) ↔ sk = keyFunc k ∨ sk ∈ sks) as Hin.
  { intros sk. destruct (by_ !! keyFunc k) as [k'|] eqn:Ek; [|set_solver]. split; [by right|]. intros [->|]; [|done]. apply Hk. eauto. }
  split.
  - destruct (by_ !! keyFunc k) as [k'|] eqn:Ek; [done|]. apply NoDup_app. split_and!; [done| |apply NoDup_singleton].
    intros sk Hs ->%list_elem_of_singleton. apply Hk in Hs as [k' Hk']. congruence.
  - intros sk. rewrite Hin, Hk. destruct (decide (sk = keyFunc k)) as [->|Hne]; [rewrite lookup_insert_eq; naive_solver|].
    rewrite lookup_insert_ne by done. naive_solver.
  - intros sk k'. destruct (decide (sk = keyFunc k)) as [->|Hne].
    + rewrite lookup_insert_eq. intros [= <-]. split; [set_solver|done].
    + rewrite lookup_insert_ne by done. intros [? ?]%Hby. split; [set_solver|done].
  - intros k' [Hk'|Hk'%list_elem_of_singleton]%elem_of_app; apply Hin; [right; by apply Hall|left; congruence].
Qed.

Lemma dedupStorage_ok keys : NoDup (dedupStorage keys) ∧ ∀ sk, sk ∈ dedupStorage keys ↔ sk ∈ keyFunc <$> keys.
Proof.
  unfold dedupStorage. set (f := λ (st : gset string * list string) key, _).
  enough ((∀ sk, sk ∈ (foldl f (∅, []) keys).1 ↔ sk ∈ (foldl f (∅, []) keys).2) ∧ NoDup (foldl f (∅, []) keys).2 ∧
    ∀ sk, sk ∈ (foldl f (∅, []) keys).2 ↔ sk ∈ keyFunc <$> keys) as (_ & ? & ?) by done.
  induction keys as [|k keys IH] using rev_ind; [cbn; split_and!; [set_solver|apply NoDup_nil_2|set_solver]|].
  rewrite foldl_app. cbn [foldl]. destruct (foldl f (∅, []) keys) as [seen l]. cbn [fst snd] in IH. destruct IH as (H1 & H2 & H3).
  unfold f. cbn [fst snd]. rewrite fmap_app. cbn [fmap list_fmap]. case_decide as Hd; cbn [fst snd].
  - split_and!; [done..|]. intros sk. rewrite elem_of_app, <- H3. split; [by left|]. intros [|Hs%list_elem_of_singleton]; [done|]. subst. by apply H1.
  - split_and!; [intros sk; rewrite elem_of_union, elem_of_app, elem_of_singleton, list_elem_of_singleton, H1; tauto| |].
    + apply NoDup_app. split_and!; [done| |apply NoDup_singleton]. intros x Hx ->%list_elem_of_singleton. apply Hd. by apply H1.
    + intros sk. by rewrite !elem_of_app, H3.
Qed.
End Keys.

Section Items.
Context {A : Type} (key : A → string).
Implicit Types (items l : list A) (kv it : A).

(** The items with the last one of each storage key, at the place of its first. *)
Definition dedupItems items : list A :=
  (foldl (λ (st : gmap string nat * list A) item,
    let storageKey := key item in
    match st.1 !! storageKey with
    | Some i => (st.1, <[i := item]> st.2)
    | None => (<[storageKey := length st.2]> st.1, st.2 ++ [item])
    end) (∅, []) items).2.

(** The last item of a storage key. *)
Definition lastOf (sk : string) items : option A := last (filter (λ kv, key kv = sk) items).

Lemma lastOf_snoc sk items it : lastOf sk (items ++ [it]) = if decide (key it = sk) then Some it else lastOf sk items.
Proof.
  unfold lastOf. rewrite filter_app, filter_cons, filter_nil. case_decide; [by rewrite last_snoc|by rewrite app_nil_r].
Qed.

Lemma lastOf_key sk items kv : lastOf sk items = Some kv → kv ∈ items ∧ key kv = sk.
Proof. intros H%last_Some_elem_of. by apply list_elem_of_filter in H as [? ?]. Qed.

Lemma lastOf_is_Some it items : it ∈ items → is_Some (lastOf (key it) items).
Proof.
  induction items as [|it' items IH] using rev_ind; [by intros ?%elem_of_nil|]. rewrite lastOf_snoc. intros [Hin|Hin%list_elem_of_singleton]%elem_of_app.
  - case_decide; [by eexists|by apply IH].
  - subst. rewrite decide_True by done. by eexists.
Qed.

(** The loop's index and list after [items]. *)
Record dedup_ok items (idx : gmap string nat) l : Prop := {
  do_nodup : NoDup (key <$> l);
  do_idx sk i : idx !! sk = Some i ↔ ∃ kv, l !! i = Some kv ∧ key kv = sk;
  do_last i kv : l !! i = Some kv → lastOf (key kv) items = Some kv;
  do_all sk kv : lastOf sk items = Some kv → is_Some (idx !! sk)
}.

Lemma keys_lookup l i kv : l !! i = Some kv → (key <$> l) !! i = Some (key kv).
Proof. intros H. by rewrite list_lookup_fmap, H. Qed.

Lemma dedup_seen items idx l it i :
  dedup_ok items idx l → idx !! key it = Some i → dedup_ok (items ++ [it]) idx (<[i := it]> l).
Proof.
  intros [Hnd Hidx Hlast Hall] Ei.
  pose proof Ei as (kv0 & Hi & Hk0)%Hidx. assert (i < length l)%nat as Hlt by by eapply lookup_lt_Some.
  assert (key <$> <[i:=it]> l = key <$> l) as Hkeys.
  { rewrite list_fmap_insert. apply list_insert_id. by rewrite (keys_lookup _ _ _ Hi), Hk0. }
  split; [by rewrite Hkeys| | |].
  - intros sk j. rewrite Hidx. split.
    + intros (kv & Hj & Hk). destruct (decide (i = j)) as [->|]; [exists it; rewrite list_lookup_insert_eq by done; split; [done|congruence]|].
      exists kv. by rewrite list_lookup_insert_ne.
    + intros (kv & [(-> & -> & _)|[_ Hj]]%list_lookup_insert_Some & Hk); [exists kv0; split; [done|congruence]|by exists kv].
  - intros j kv [(-> & <- & _)|[Hne Hj]]%list_lookup_insert_Some; rewrite lastOf_snoc; [by rewrite decide_True|].
    rewrite decide_False; [by apply (Hlast j)|]. intros Hk. apply Hne. apply (NoDup_lookup _ _ _ (key it) Hnd).
    + by rewrite (keys_lookup _ _ _ Hi), Hk0.
    + by rewrite (keys_lookup _ _ _ Hj), Hk.
  - intros sk kv. rewrite lastOf_snoc. case_decide as Hd; [intros _; rewrite <- Hd, Ei; by eexists|by apply Hall].
Qed.

Lemma dedup_new items idx l it :
  dedup_ok items idx l → idx !! key it = None → dedup_ok (items ++ [it]) (<[key it := length l]> idx) (l ++ [it]).
Proof.
  intros [Hnd Hidx Hlast Hall] Ei.
  assert (key it ∉ key <$> l) as Hnew.
  { intros [j Hj]%list_elem_of_lookup. rewrite list_lookup_fmap in Hj. destruct (l !! j) as [kv|] eqn:Ej; [|done]. injection Hj as Hj.
    assert (idx !! key it = Some j) as He by (apply Hidx; by exists kv). congruence. }
  assert (∀ j kv, (l ++ [it]) !! j = Some kv ↔ l !! j = Some kv ∨ j = length l ∧ kv = it) as Hsn.
  { intros j kv. rewrite lookup_app. destruct (l !! j) eqn:Ej.
    - split; [by left|]. intros [|[-> _]]; [done|]. apply lookup_lt_Some in Ej. lia.
    - apply lookup_ge_None in Ej. rewrite list_lookup_singleton_Some. split; [intros [? ->]; right; split; [lia|done]|intros [?|[-> ->]]; [done|split; [lia|done]]]. }
  split.
  - rewrite fmap_app. apply NoDup_app. split_and!; [done| |apply NoDup_singleton]. by intros x Hx ->%list_elem_of_singleton.
  - intros sk j. destruct (decide (sk = key it)) as [->|Hne].
    + rewrite lookup_insert_eq. split; [intros [= <-]; exists it; split; [by apply Hsn; right|done]|].
      intros (kv & [Hj|[-> ->]]%Hsn & Hk); [|done]. destruct Hnew. rewrite <- Hk. eapply list_elem_of_lookup_2. by apply keys_lookup.
    + rewrite lookup_insert_ne by done. rewrite Hidx. split; intros (kv & Hj & Hk); exists kv; (split; [|done]); [by apply Hsn; left|].
      apply Hsn in Hj as [?|[-> ->]]; [done|congruence].
  - intros j kv [Hj|[-> ->]]%Hsn; rewrite lastOf_snoc; [|by rewrite decide_True]. rewrite decide_False; [by apply (Hlast j)|].
    intros Hk. apply Hnew. rewrite Hk. eapply list_elem_of_lookup_2. by apply keys_lookup.
  - intros sk kv. rewrite lastOf_snoc. case_decide as Hd; [intros _; rewrite <- Hd, lookup_insert_eq; by eexists|]. intros Hx%Hall.
    by rewrite lookup_insert_ne.
Qed.

Lemma dedupItems_ok items : ∃ idx, dedup_ok items idx (dedupItems items).
Proof.
  unfold dedupItems. set (f := λ (st : gmap string nat * list A) item, _).
  enough (dedup_ok items (foldl f (∅, []) items).1 (foldl f (∅, []) items).2) by eauto.
  induction items as [|it items IH] using rev_ind.
  { split; cbn; [apply NoDup_nil_2| |done|done]. intros sk i. rewrite lookup_empty. split; [done|]. by intros (kv & ? & _). }
  rewrite foldl_app. cbn [foldl]. destruct (foldl f (∅, []) items) as [idx l]. cbn [fst snd] in IH. unfold f. cbn [fst snd].
  destruct (idx !! key it) as [i|] eqn:Ei; cbn [fst snd]; [by apply dedup_seen|by apply dedup_new].
Qed.
End Items.

(** ** Chunks of a list *)

(** [l[i*limit : min((i+1)*limit, len(l))]] for every [i] *)
Definition numChunks (limit n : nat) : nat := ((n + limit - 1) / limit)%nat.

Definition chunkAt {A} (limit : nat) (l : list A) (i : nat) : list A :=
  take (((i + 1) * limit) `min` length l - i * limit) (drop (i * limit) l).

Definition chunksOf {A} (limit : nat) (l : list A) : list (list A) := chunkAt limit l <$> seq 0 (numChunks limit (length l)).

Section Chunks.
Context {A : Type} (limit : nat) (Hlimit : (0 < limit)%nat).
Implicit Types l : list A.

Lemma chunkAt_take l i : chunkAt limit l i = take limit (drop (i * limit) l).
Proof.
  unfold chunkAt. destruct (decide ((i + 1) * limit ≤ length l)%nat).
  - f_equal. lia.
  - rewrite !take_ge; [done|rewrite length_drop; lia..].
Qed.

Lemma chunks_drop l i n :
  (length l ≤ (i + n) * limit)%nat → concat (chunkAt limit l <$> seq i n) = drop (i * limit) l.
Proof.
  revert i. induction n as [|n IH]; intros i Hl; cbn; [rewrite drop_ge; [done|lia]|]. rewrite IH by lia. rewrite chunkAt_take.
  replace (S i * limit)%nat with (i * limit + limit)%nat by lia. by rewrite <- drop_drop, take_drop.
Qed.

(** The chunks, one after the other, are the list. *)
Lemma concat_chunksOf l : concat (chunksOf limit l) = l.
Proof.
  unfold chunksOf, numChunks. rewrite chunks_drop; [done|]. cbn.
  pose proof (Nat.div_mod (length l + limit - 1) limit ltac:(lia)). pose proof (Nat.mod_upper_bound (length l + limit - 1) limit ltac:(lia)). lia.
Qed.

Lemma chunksOf_length l chunk : chunk ∈ chunksOf limit l → (1 ≤ length chunk ≤ limit)%nat.
Proof.
  intros (i & -> & Hi)%list_elem_of_fmap. apply elem_of_seq in Hi as [_ Hi]. rewrite chunkAt_take, length_take, length_drop. split; [|lia].
  unfold numChunks in Hi. pose proof (Nat.div_mod (length l + limit - 1) limit ltac:(lia)). nia.
Qed.
End Chunks.

(** ** Members of a concatenation *)

Lemma NoDup_concat_elem {A} (ls : list (list A)) l : NoDup (concat ls) → l ∈ ls → NoDup l.
Proof.
  induction ls as [|l' ls IH]; [by intros _ ?%elem_of_nil|]. cbn. intros (H1 & _ & H2)%NoDup_app [->|Hl]%elem_of_cons; [done|by apply IH].
Qed.

Lemma elem_of_concat {A} (ls : list (list A)) x : x ∈ concat ls ↔ ∃ l, l ∈ ls ∧ x ∈ l.
Proof. induction ls as [|l ls IH]; cbn; [split; [by intros ?%elem_of_nil|intros (? & ?%elem_of_nil & _); done]|]. rewrite elem_of_app, IH. set_solver. Qed.

Lemma concat_fmap {A B} (f : A → B) (ls : list (list A)) : concat ((fmap f : list A → list B) <$> ls) = f <$> concat ls.
Proof. induction ls as [|l ls IH]; cbn; [done|]. by rewrite fmap_app, IH. Qed.

Lemma omap_fmap_Some {A B} (f : A → B) (g : B → option A) (l : list A) : (∀ x, g (f x) = Some x) → omap g (f <$> l) = l.
Proof. intros H. induction l as [|x l IH]; [done|]. cbn. by rewrite H, IH. Qed.
