(* ===== verification/Dynamo.v ===== *)
(** * The DynamoDB adapter (l2/dynamo_adapter/dynamo.go)

    The SDK client, the table behind it and the wall clock are the world [D].  A large batch is cut into
    chunks, one goroutine each; what a goroutine does between two moments at which another may run is a
    [turn], which makes at most one call of the client, and a schedule, a list of chunk numbers, says who
    moves next.  Every interleaving of the goroutines is a schedule. *)

From stdpp Require Import strings gmap.
From S2P Require Import Prelude Expiry Config CacheState Snapshot L2Util Strconv Dedup.

Inductive AttributeValue := AttrS (s : string) | AttrN (s : string) | AttrB (b : bytes) | AttrOther.

(** An item, and a key, are maps of attributes. *)
Abbreviation attrs := (gmap string AttributeValue).

Inductive WriteRequest := PutRequest (item : attrs) | DeleteRequest (key : attrs).

Definition keyAttr : string := "cache_key".
Definition valueAttr : string := "value".
Definition ttlAttr : string := "ttl".
Definition batchGetLimit : nat := 100.
Definition batchWriteLimit : nat := 25.
Definition maxBatchRetries : nat := 1.

(** [time.Now] in nanoseconds, and the five calls: the table, then the item, the key, or requests per table. *)
Class DynamoAPI (D E : Type) := {
  dynNow : D → Z;
  GetItem : D → string → attrs → D * (E + option attrs);
  PutItem : D → string → attrs → D * option E;
  DeleteItem : D → string → attrs → D * option E;
  BatchGetItem : D → gmap string (list attrs) → D * (E + gmap string (list attrs) * gmap string (list attrs));
  BatchWriteItem : D → gmap string (list WriteRequest) → D * (E + gmap string (list WriteRequest))
}.

Inductive DynError (E : Type) := DErr (e : E) | errUnprocessed | DJoin (l : list (DynError E)).
Arguments DErr {E}.
Arguments errUnprocessed {E}.
Arguments DJoin {E}.

(** [errors.Join] *)
Definition joinErrors {E} (errs : list (option (DynError E))) : option (DynError E) :=
  match omap id errs with [] => None | l => Some (DJoin l) end.

Record dynamoCache (K V E : Type) := mkDynamo { dyTable : string; dyCodec : Codec V E; dyKeyFunc : K → string }.
Arguments mkDynamo {K V E}.
Arguments dyTable {K V E}.
Arguments dyCodec {K V E}.
Arguments dyKeyFunc {K V E}.

(** ** Chunks on goroutines *)

Section Schedule.
Context {D A R : Type} (turn : D → A → D * (A + R)).

(** A chunk that is still running moves. *)
Definition moveChunk (st : D * list (A + R)) (i : nat) : D * list (A + R) :=
  match st.2 !! i with
  | Some (inl a) => let '(s, x) := turn st.1 a in (s, <[i := x]> st.2)
  | _ => st
  end.

Definition runSchedule (sched : list nat) (st : D * list (A + R)) : D * list (A + R) := foldl moveChunk st sched.

(** [wg.Wait]: after the schedule, each chunk gets the turns it may still need. *)
Definition runChunks (turns : nat) (sched : list nat) (s : D) (chunks : list A) : D * list (A + R) :=
  runSchedule (sched ++ concat (replicate turns <$> seq 0 (length chunks))) (s, inl <$> chunks).

(** What a chunk returned. *)
Definition resultOf (d : R) (x : A + R) : R := match x with inr r => r | inl _ => d end.
End Schedule.

(** ** The adapter *)

Section Dynamo.
Context {K V E D : Type} `{!DynamoAPI D E}.

Definition dyNew (isString : option (K → string)) (client : bool) (codec : option (Codec V E)) (tableName : string)
    (keyOpts : list (@keyOption K string)) : UtilError + dynamoCache K V E :=
  match client, codec with
  | false, _ => inl ErrNilClient
  | _, None => inl ErrNilCodec
  | true, Some codec =>
    match ExtractKeyFunc isString keyOpts with inl err => inl err | inr keyFunc => inr (mkDynamo tableName codec keyFunc) end
  end.

Context (c : dynamoCache K V E).
Implicit Types (s : D) (key : K) (keys : list K) (value : V) (items : list (K * V)) (ttl now : Z).
Abbreviation Err := (DynError E).

Definition keyOf (storageKey : string) : attrs := {[ keyAttr := AttrS storageKey ]}.

Definition expired now (item : attrs) : bool :=
  match item !! ttlAttr with
  | Some (AttrN text) =>
    match ParseInt text with Some deadline => negb (deadline =? 0) && (deadline <=? now / second) | None => false end
  | _ => false
  end.

Definition decodeItem now (item : option attrs) : option V * option Err :=
  match item with
  | None => (None, None)
  | Some item =>
    if expired now item then (None, None)
    else match item !! valueAttr with
    | Some (AttrB raw) => match Unmarshal (dyCodec c) raw with inl e => (None, Some (DErr e)) | inr value => (Some value, None) end
    | _ => (None, None)
    end
  end.

Definition encodeItem now (storageKey : string) value ttl : E + attrs :=
  match Marshal (dyCodec c) value with
  | inl e => inl e
  | inr data =>
    let item := <[valueAttr := AttrB data]> (keyOf storageKey) in
    inr (if 0 <? ttl then <[ttlAttr := AttrN (FormatInt ((now + ttl) / second))]> item else item)
  end.

Definition dyGet s key : D * (option V * option Err) :=
  let '(s, out) := GetItem s (dyTable c) (keyOf (dyKeyFunc c key)) in
  match out with inl e => (s, (None, Some (DErr e))) | inr item => (s, decodeItem (dynNow s) item) end.

Definition dySet s key value ttl : D * option Err :=
  match encodeItem (dynNow s) (dyKeyFunc c key) value ttl with
  | inl e => (s, Some (DErr e))
  | inr item => let '(s, err) := PutItem s (dyTable c) item in (s, DErr <$> err)
  end.

Definition dyDelete s key : D * option Err :=
  let '(s, err) := DeleteItem s (dyTable c) (keyOf (dyKeyFunc c key)) in (s, DErr <$> err).

(** *** Batch reads *)

(** The items of one answer. *)
Fixpoint readItems (byStorageKey : gmap string K) now (items : list attrs) (found : list (K * V)) : list (K * V) * option Err :=
  match items with
  | [] => (found, None)
  | item :: items =>
    match item !! keyAttr with
    | Some (AttrS storageKey) =>
      match byStorageKey !! storageKey with
      | None => readItems byStorageKey now items found
      | Some key =>
        match decodeItem now (Some item) with
        | (_, Some err) => (found, Some err)
        | (Some value, None) => readItems byStorageKey now items (found ++ [(key, value)])
        | (None, None) => readItems byStorageKey now items found
        end
      end
    | _ => readItems byStorageKey now items found
    end
  end.

(** The loop of [batchGetChunk]: what is pending, the attempts made, the hits. *)
Definition getState : Type := gmap string (list attrs) * nat * list (K * V).

Definition getTurn (byStorageKey : gmap string K) s (st : getState) : D * (getState + list (K * V) * option Err) :=
  let '(pending, attempt, found) := st in
  if decide (pending = ∅) then (s, inr (found, None))
  else if (maxBatchRetries <? attempt)%nat then (s, inr (found, Some errUnprocessed))
  else
    let '(s, out) := BatchGetItem s pending in
    match out with
    | inl e => (s, inr (found, Some (DErr e)))
    | inr (responses, unprocessed) =>
      match readItems byStorageKey (dynNow s) (default [] (responses !! dyTable c)) found with
      | (found, Some err) => (s, inr (found, Some err))
      | (found, None) => (s, inl (unprocessed, S attempt, found))
      end
    end.

Definition getStart (storageKeys : list string) (found : list (K * V)) : getState :=
  ({[ dyTable c := keyOf <$> storageKeys ]}, 0%nat, found).

(** The attempts, and the look at what is left after the last. *)
Definition getTurns : nat := maxBatchRetries + 2.

(** The results in order up to the first error. *)
Fixpoint joinFound (found : list (K * V)) (results : list (list (K * V) * option Err)) : list (K * V) * option Err :=
  match results with
  | [] => (found, None)
  | (more, None) :: results => joinFound (found ++ more) results
  | (more, Some err) :: _ => (found ++ more, Some err)
  end.

Definition dyBatchGet (sched : list nat) s keys : D * (list (K * V) * option Err) :=
  match keys with
  | [] => (s, ([], None))
  | _ =>
    let '(byStorageKey, storageKeys) := dedupKeys (dyKeyFunc c) keys in
    if (length storageKeys <=? batchGetLimit)%nat then
      let '(s, results) := runChunks (getTurn byStorageKey) getTurns [] s [getStart storageKeys []] in
      (s, match results with [x] => resultOf ([], None) x | _ => ([], None) end)
    else
      let '(s, results) := runChunks (getTurn byStorageKey) getTurns sched s ((λ chunk, getStart chunk []) <$> chunksOf batchGetLimit storageKeys) in
      (s, joinFound [] (resultOf ([], None) <$> results))
  end.

(** *** Batch writes *)

Fixpoint encodeAll now items ttl : E + list WriteRequest :=
  match items with
  | [] => inr []
  | (key, value) :: items =>
    match encodeItem now (dyKeyFunc c key) value ttl with
    | inl e => inl e
    | inr item => match encodeAll now items ttl with inl e => inl e | inr writes => inr (PutRequest item :: writes) end
    end
  end.

(** A chunk of writes: its items still to be encoded, or the loop with what is pending and the attempts. *)
Inductive writeState := WEncode (items : list (K * V)) (ttl : Z) | WSend (pending : gmap string (list WriteRequest)) (attempt : nat).

Definition writeTurn s (st : writeState) : D * (writeState + option Err) :=
  match st with
  | WEncode items ttl =>
    match encodeAll (dynNow s) items ttl with
    | inl e => (s, inr (Some (DErr e)))
    | inr writes => (s, inl (WSend {[ dyTable c := writes ]} 0))
    end
  | WSend pending attempt =>
    if decide (pending = ∅) then (s, inr None)
    else if (maxBatchRetries <? attempt)%nat then (s, inr (Some errUnprocessed))
    else
      let '(s, out) := BatchWriteItem s pending in
      match out with inl e => (s, inr (Some (DErr e))) | inr unprocessed => (s, inl (WSend unprocessed (S attempt))) end
  end.

Definition writeTurns : nat := maxBatchRetries + 3.

Definition runWrites (sched : list nat) s (chunks : list writeState) : D * option Err :=
  let '(s, results) := runChunks writeTurn writeTurns sched s chunks in
  (s, match results with [x] => resultOf None x | _ => joinErrors (resultOf None <$> results) end).

Definition dyBatchSet (sched : list nat) s items ttl : D * option Err :=
  match items with
  | [] => (s, None)
  | _ =>
    let items := dedupItems (λ item, dyKeyFunc c item.1) items in
    if (length items <=? batchWriteLimit)%nat then runWrites [] s [WEncode items ttl]
    else runWrites sched s ((λ chunk, WEncode chunk ttl) <$> chunksOf batchWriteLimit items)
  end.

Definition deleteStart (storageKeys : list string) : writeState :=
  WSend {[ dyTable c := (λ k, DeleteRequest (keyOf k)) <$> storageKeys ]} 0.

Definition dyBatchDelete (sched : list nat) s keys : D * option Err :=
  match keys with
  | [] => (s, None)
  | _ =>
    let storageKeys := dedupStorage (dyKeyFunc c) keys in
    if (length storageKeys <=? batchWriteLimit)%nat then runWrites [] s [deleteStart storageKeys]
    else runWrites sched s (deleteStart <$> chunksOf batchWriteLimit storageKeys)
  end.

Definition dynamoL2 (sched : list nat) : L2Cache K V D Err := {|
  l2Get := dyGet; l2BatchGet := dyBatchGet sched; l2Set := dySet; l2BatchSet := dyBatchSet sched; l2Delete := dyDelete;
  l2BatchDelete := dyBatchDelete sched
|}.
End Dynamo.

(** ** Schedules of chunks *)

Section Schedule.
Context {D A R : Type} (turn : D → A → D * (A + R)).
Implicit Types (s : D) (cs : list (A + R)) (st : D * list (A + R)).

(** An invariant that every turn of a running chunk keeps holds after any schedule. *)
Lemma runSchedule_inv (Inv : D → list (A + R) → Prop) sched st :
  Inv st.1 st.2 →
  (∀ s cs i a s' x, Inv s cs → cs !! i = Some (inl a) → turn s a = (s', x) → Inv s' (<[i := x]> cs)) →
  Inv (runSchedule turn sched st).1 (runSchedule turn sched st).2.
Proof.
  intros H0 Hstep. unfold runSchedule. revert st H0. induction sched as [|i sched IH]; intros st H0; cbn; [done|]. apply IH.
  unfold moveChunk. destruct (st.2 !! i) as [[a|r]|] eqn:Ei; [|done..]. destruct (turn st.1 a) as [s' x] eqn:Et. by eapply Hstep.
Qed.

Context (left : A → nat) (turns : nat).
Hypothesis Hleft : ∀ s a s' a', turn s a = (s', inl a') → (left a' < left a)%nat.

(** How many turns a chunk still needs; none when it is done. *)
Definition need (x : A + R) : nat := match x with inl a => S (left a) | inr _ => 0 end.

Lemma move_length st i : length (moveChunk turn st i).2 = length st.2.
Proof.
  unfold moveChunk. destruct (st.2 !! i) as [[a|r]|]; [|done..]. destruct (turn st.1 a). apply length_insert.
Qed.

Lemma move_need st i j x :
  st.2 !! j = Some x → ∃ x', (moveChunk turn st i).2 !! j = Some x' ∧ (need x' ≤ need x)%nat ∧ (i = j → (need x' ≤ need x - 1)%nat).
Proof.
  intros Hj. unfold moveChunk. destruct (st.2 !! i) as [[a|r]|] eqn:Ei.
  - destruct (turn st.1 a) as [s' x'] eqn:Et. destruct (decide (i = j)) as [->|Hne].
    + exists x'. cbn. rewrite list_lookup_insert_eq by (by eapply lookup_lt_Some). rewrite Hj in Ei. injection Ei as ->.
      enough (need x' ≤ need (inl a) - 1)%nat by (split_and!; [done|lia|done]). cbn. destruct x' as [a'|r]; cbn; [|lia]. apply Hleft in Et. lia.
    + exists x. cbn. rewrite list_lookup_insert_ne by done. split_and!; [done|lia|done].
  - exists x. split_and!; [done|lia|]. intros ->. rewrite Hj in Ei. injection Ei as ->. cbn. lia.
  - exists x. split_and!; [done|lia|]. intros ->. congruence.
Qed.

Lemma run_need sched st j x :
  st.2 !! j = Some x →
  ∃ x', (runSchedule turn sched st).2 !! j = Some x' ∧ (need x' ≤ need x - count_occ Nat.eq_dec sched j)%nat.
Proof.
  revert st x. induction sched as [|i sched IH]; intros st x Hj; cbn; [exists x; split; [done|lia]|].
  destruct (move_need st i j x Hj) as (x1 & H1 & Hle & Hlt). destruct (IH _ _ H1) as (x' & H' & Hn). exists x'. split; [done|].
  destruct (Nat.eq_dec i j) as [->|]; [specialize (Hlt eq_refl); lia|lia].
Qed.

Lemma count_replicate n j : count_occ Nat.eq_dec (replicate n j) j = n.
Proof. induction n as [|n IH]; cbn; [done|]. destruct (Nat.eq_dec j j); [by rewrite IH|done]. Qed.

Lemma count_turns n m j : (j < m)%nat → (n ≤ count_occ Nat.eq_dec (concat (replicate n <$> seq 0 m)) j)%nat.
Proof.
  intros Hj. assert (∀ b, (b ≤ j < b + m)%nat → (n ≤ count_occ Nat.eq_dec (concat (replicate n <$> seq b m)) j)%nat) as H; [|apply (H 0%nat); lia].
  clear Hj. induction m as [|m IH]; intros b Hb; [lia|]. cbn. rewrite count_occ_app. destruct (decide (b = j)) as [->|].
  - rewrite count_replicate. lia.
  - specialize (IH (S b) ltac:(lia)). lia.
Qed.

Lemma run_length sched st : length (runSchedule turn sched st).2 = length st.2.
Proof. unfold runSchedule. revert st. induction sched as [|i sched IH]; intros st; cbn [foldl]; [done|]. by rewrite IH, move_length. Qed.

(** After all its turns every chunk has returned. *)
Lemma runChunks_done sched s chunks :
  (∀ a, a ∈ chunks → (left a < turns)%nat) →
  ∃ s' rs, runChunks turn turns sched s chunks = (s', inr <$> rs) ∧ length rs = length chunks.
Proof.
  intros Hl. unfold runChunks. set (full := sched ++ _). destruct (runSchedule turn full (s, inl <$> chunks)) as [s' xs] eqn:Est.
  pose proof (run_length full (s, inl <$> chunks)) as Hlen. rewrite Est in Hlen. cbn in Hlen. rewrite length_fmap in Hlen.
  assert (∀ x, x ∈ xs → ∃ r, x = inr r) as Hall.
  { intros x [j Hj]%list_elem_of_lookup. assert (j < length chunks)%nat as Hlt by (rewrite <- Hlen; by eapply lookup_lt_Some).
    destruct (lookup_lt_is_Some_2 chunks j Hlt) as [a Ha].
    destruct (run_need full (s, inl <$> chunks) j (inl a)) as (x' & Hx & Hn).
    { cbn. by rewrite list_lookup_fmap, Ha. }
    rewrite Est in Hx. cbn in Hx. rewrite Hj in Hx. injection Hx as <-. unfold full in Hn. rewrite count_occ_app in Hn.
    pose proof (count_turns turns (length chunks) j Hlt). specialize (Hl a ltac:(by eapply list_elem_of_lookup_2)). cbn [need] in Hn.
    destruct x as [a'|r]; [cbn in Hn; lia|by exists r]. }
  assert (∃ rs, xs = inr <$> rs) as [rs ->].
  { clear -Hall. induction xs as [|x xs IH]; [by exists []|]. destruct (Hall x) as [r ->]; [by left|].
    destruct IH as [rs ->]; [intros; apply Hall; by right|]. by exists (r :: rs). }
  exists s', rs. split; [done|]. by rewrite length_fmap in Hlen.
Qed.
End Schedule.
