(* ===== verification/DynamoLaws.v ===== *)
(** * The DynamoDB adapter over a table that does what it documents

    What the service promises: requests of at most 100 keys or 25 writes, without repeated keys, are answered
    or carried out in part, and the rest is handed back; anything else may happen to other requests. *)

From stdpp Require Import strings gmap.
From S2P Require Import Prelude Expiry Config CacheState Snapshot L2Util Strconv Dedup Dynamo.

(** The key a request is for, and what it leaves there. *)
Definition reqKey (r : WriteRequest) : option string :=
  match (match r with PutRequest item => item | DeleteRequest key => key end) !! keyAttr with Some (AttrS k) => Some k | _ => None end.

Definition reqValue (r : WriteRequest) : option attrs := match r with PutRequest item => Some item | DeleteRequest _ => None end.

Definition applyReq (m : gmap string attrs) (r : WriteRequest) : gmap string attrs :=
  match reqKey r with Some k => partial_alter (λ _, reqValue r) k m | None => m end.

(** What is handed back: nothing, or the rest under the table's name. *)
Definition pend {A} (t : string) (rest : list A) : gmap string (list A) := match rest with [] => ∅ | _ => {[ t := rest ]} end.

(** The service: reads see every write that was answered before (strongly consistent reads; the adapter does not ask for them, and the
    service's default is eventual). *)
Class DynamoLaws {D E : Type} `{!DynamoAPI D E} (t : string) (rows : D → gmap string attrs) := {
  rows_keyed s k item : rows s !! k = Some item → item !! keyAttr = Some (AttrS k);
  GetItem_law s k : let '(s', out) := GetItem s t (keyOf k) in
    rows s' = rows s ∧ dynNow s ≤ dynNow s' ∧ match out with inl _ => True | inr item => item = rows s !! k end;
  PutItem_law s item : is_Some (reqKey (PutRequest item)) → let '(s', err) := PutItem s t item in
    dynNow s ≤ dynNow s' ∧ (rows s' = applyReq (rows s) (PutRequest item) ∨ rows s' = rows s ∧ err ≠ None);
  DeleteItem_law s k : let '(s', err) := DeleteItem s t (keyOf k) in
    dynNow s ≤ dynNow s' ∧ (rows s' = delete k (rows s) ∨ rows s' = rows s ∧ err ≠ None);
  BatchGetItem_law s keys : NoDup keys → (1 ≤ length keys ≤ 100)%nat →
    let '(s', out) := BatchGetItem s {[ t := keyOf <$> keys ]} in
    rows s' = rows s ∧ dynNow s ≤ dynNow s' ∧
    match out with
    | inl _ => True
    | inr (responses, unprocessed) => ∃ got rest, keys ≡ₚ got ++ rest ∧ unprocessed = pend t (keyOf <$> rest) ∧
        default [] (responses !! t) ≡ₚ omap (rows s !!.) got
    end;
  BatchWriteItem_law s reqs ks : reqKey <$> reqs = Some <$> ks → NoDup ks → (1 ≤ length ks ≤ 25)%nat →
    let '(s', out) := BatchWriteItem s {[ t := reqs ]} in
    dynNow s ≤ dynNow s' ∧
    ∃ applied rest, reqs ≡ₚ applied ++ rest ∧ rows s' = foldl applyReq (rows s) applied ∧
      match out with inl _ => True | inr unprocessed => unprocessed = pend t rest end
}.

Lemma pend_empty {A} t (rest : list A) : pend t rest = ∅ ↔ rest = [].
Proof. destruct rest; cbn; [done|]. split; [|done]. intros H. apply (f_equal (.!! t)) in H. by rewrite lookup_singleton_eq in H. Qed.

Section Reads.
Context {K V E D : Type} `{!DynamoAPI D E} (c : dynamoCache K V E).
Implicit Types (s : D) (keys : list K) (now : Z).

(** The value a storage key has at a moment. *)
Definition liveAt (m : gmap string attrs) now (sk : string) (v : V) : Prop := decodeItem (E := E) c now (m !! sk) = (Some v, None).

Lemma expired_later now now' item : now ≤ now' → expired now item = true → expired now' item = true.
Proof.
  intros Hn. unfold expired. repeat case_match; try done. rewrite !andb_true_iff, !Z.leb_le. intros [? ?]. split; [done|].
  assert (now / second ≤ now' / second) by (apply Z.div_le_mono; done). lia.
Qed.

Lemma liveAt_earlier m now now' sk v : now ≤ now' → liveAt m now' sk v → liveAt m now sk v.
Proof.
  intros Hn. unfold liveAt, decodeItem. destruct (m !! sk) as [item|]; [|done]. destruct (expired now item) eqn:Ee; [|by destruct (expired now' item)].
  by rewrite (expired_later _ _ _ Hn Ee).
Qed.

(** *** One answer *)

Context (by_ : gmap string K) (m0 : gmap string attrs) (t0 : Z).
Hypothesis Hby : ∀ sk k, by_ !! sk = Some k → dyKeyFunc c k = sk.

(** The hits are right for the moment the batch started, one per storage key, and among [got]. *)
Definition hits_ok (found : list (K * V)) (got : list string) : Prop :=
  (∀ k v, (k, v) ∈ found → dyKeyFunc c k ∈ got ∧ by_ !! dyKeyFunc c k = Some k ∧ liveAt m0 t0 (dyKeyFunc c k) v) ∧
  NoDup (dyKeyFunc c <$> found.*1).

(** Nothing alive at [now] is missing. *)
Definition hits_all (found : list (K * V)) (got : list string) now : Prop :=
  ∀ sk v, sk ∈ got → is_Some (by_ !! sk) → liveAt m0 now sk v → ∃ k, by_ !! sk = Some k ∧ (k, v) ∈ found.

Lemma hits_all_later found got now now' : now ≤ now' → hits_all found got now → hits_all found got now'.
Proof. intros Hn H sk v Hs Hb Hl. apply (H sk v Hs Hb). by eapply liveAt_earlier. Qed.

(** The key of an item. *)
Definition itemKey (item : attrs) : option string := match item !! keyAttr with Some (AttrS k) => Some k | _ => None end.

Definition stored (got : list string) (item : attrs) : Prop :=
  ∃ k, m0 !! k = Some item ∧ item !! keyAttr = Some (AttrS k) ∧ k ∈ got.

Lemma hits_ok_more found got got' : (∀ sk, sk ∈ got → sk ∈ got') → hits_ok found got → hits_ok found got'.
Proof. intros Hsub [H1 H2]. split; [|done]. intros k v Hkv. destruct (H1 k v Hkv) as (? & ? & ?). auto. Qed.

Lemma readItems_spec now items found got :
  t0 ≤ now → Forall (stored got) items → NoDup (omap itemKey items) →
  hits_ok found got → (∀ k, k ∈ found.*1 → dyKeyFunc c k ∉ omap itemKey items) →
  let '(found', err) := readItems c by_ now items found in
  hits_ok found' got ∧ (∀ kv, kv ∈ found → kv ∈ found') ∧
  (err = None → ∀ sk k v, Some sk ∈ itemKey <$> items → by_ !! sk = Some k → liveAt m0 now sk v → (k, v) ∈ found').
Proof.
  intros Hn Hst. revert found. induction Hst as [|item items (sk & Hm & Hk & Hg) _ IH]; intros found Hnd Hok Hdis; cbn [readItems].
  { split_and!; [done..|]. intros _ sk k v Hs%elem_of_nil. done. }
  assert (itemKey item = Some sk) as Hik by (unfold itemKey; by rewrite Hk). cbn in Hnd, Hdis. rewrite Hik in Hnd, Hdis.
  apply NoDup_cons in Hnd as [Hnew Hnd]. rewrite Hk.
  assert (∀ k, k ∈ found.*1 → dyKeyFunc c k ∉ omap itemKey items) as Hdis' by (intros k Hx Hy; apply (Hdis k Hx); by right).
  destruct (by_ !! sk) as [k0|] eqn:Eb.
  2: { specialize (IH found Hnd Hok Hdis'). destruct (readItems c by_ now items found) as [found' err]. destruct IH as (I1 & I2 & I3).
    split_and!; [done..|]. intros He sk' k v. cbn. rewrite Hik. intros [[= ->]|Hs]%elem_of_cons; [congruence|by apply I3]. }
  destruct (decodeItem c now (Some item)) as [[v|] [err|]] eqn:Ed; try (split_and!; done).
  - assert (hits_ok (found ++ [(k0, v)]) got) as Hok'.
    { destruct Hok as [H1 H2]. pose proof (Hby _ _ Eb) as Hf. split.
      - intros k v' [Hin|Hin%list_elem_of_singleton]%elem_of_app; [by apply H1|]. injection Hin as -> ->. rewrite Hf. split_and!; [done..|].
        apply (liveAt_earlier _ t0 now); [done|]. unfold liveAt. by rewrite Hm.
      - rewrite !fmap_app. apply NoDup_app. split_and!; [done| |apply NoDup_singleton]. cbn. rewrite Hf.
        intros x (k & -> & Hin)%list_elem_of_fmap Hx%list_elem_of_singleton. apply (Hdis k Hin). rewrite Hx. by left. }
    specialize (IH (found ++ [(k0, v)]) Hnd Hok'). destruct (readItems c by_ now items (found ++ [(k0, v)])) as [found' err].
    destruct IH as (I1 & I2 & I3).
    { intros k. rewrite fmap_app. intros [Hin|Hin%list_elem_of_singleton]%elem_of_app; [by apply Hdis'|]. cbn in Hin. subst k. by rewrite (Hby _ _ Eb). }
    split_and!; [done|intros kv Hkv; apply I2; set_solver|]. intros He sk' k v'. cbn. rewrite Hik. intros [[= ->]|Hs]%elem_of_cons; [|by apply I3].
    intros Hb Hl. rewrite Eb in Hb. injection Hb as ->. unfold liveAt in Hl. rewrite Hm, Ed in Hl. injection Hl as ->. apply I2. set_solver.
  - specialize (IH found Hnd Hok Hdis'). destruct (readItems c by_ now items found) as [found' err]. destruct IH as (I1 & I2 & I3).
    split_and!; [done..|]. intros He sk' k v. cbn. rewrite Hik. intros [[= ->]|Hs]%elem_of_cons; [|by apply I3].
    intros _ Hl. unfold liveAt in Hl. by rewrite Hm, Ed in Hl.
Qed.

(** *** A chunk *)

Context (rows : D → gmap string attrs) `{!DynamoLaws (dyTable c) rows}.
Abbreviation t := (dyTable c).

Definition getInv (ks : list string) s (x : getState (K := K) (V := V) + list (K * V) * option (DynError E)) : Prop :=
  match x with
  | inl (pending, attempt, found) => ∃ got rest, ks ≡ₚ got ++ rest ∧ pending = pend t (keyOf <$> rest) ∧
      hits_ok found got ∧ hits_all found got (dynNow s)
  | inr (found, err) => hits_ok found ks ∧ (err = None → hits_all found ks (dynNow s))
  end.

Lemma getInv_later ks s s' x : dynNow s ≤ dynNow s' → getInv ks s x → getInv ks s' x.
Proof.
  intros Hn. destruct x as [[[pending attempt] found]|[found err]]; cbn.
  - intros (got & rest & H1 & H2 & H3 & H4). exists got, rest. split_and!; [done..|]. by eapply hits_all_later.
  - intros [H1 H2]. split; [done|]. intros He. eapply hits_all_later; [done|by apply H2].
Qed.

Lemma omap_itemKey (ks : list string) : (∀ k item, m0 !! k = Some item → item !! keyAttr = Some (AttrS k)) →
  omap itemKey (omap (m0 !!.) ks) = filter (λ k, is_Some (m0 !! k)) ks.
Proof.
  intros Hk. induction ks as [|k ks IH]; [done|]. rewrite filter_cons.
  change (omap (m0 !!.) (k :: ks)) with (match m0 !! k with Some y => y :: omap (m0 !!.) ks | None => omap (m0 !!.) ks end).
  destruct (m0 !! k) as [item|] eqn:Em.
  - rewrite decide_True by (by eexists). change (omap itemKey (item :: omap (m0 !!.) ks)) with
      (match itemKey item with Some y => y :: omap itemKey (omap (m0 !!.) ks) | None => omap itemKey (omap (m0 !!.) ks) end).
    assert (itemKey item = Some k) as -> by (unfold itemKey; by rewrite (Hk _ _ Em)). by rewrite IH.
  - rewrite decide_False; [done|]. by intros [? [=]].
Qed.

(** A turn of a chunk of at most 100 keys keeps what it has found right. *)
Lemma getTurn_inv ks s a s' x :
  rows s = m0 → t0 ≤ dynNow s → NoDup ks → (length ks ≤ 100)%nat → (∀ sk, sk ∈ ks → is_Some (by_ !! sk)) →
  getInv ks s (inl a) → getTurn c by_ s a = (s', x) → rows s' = m0 ∧ dynNow s ≤ dynNow s' ∧ getInv ks s' x.
Proof.
  intros Hm Ht Hnd Hlen Hbys Hinv Hturn. destruct a as [[pending attempt] found]. destruct Hinv as (got & rest & Hp & -> & Hok & Hall). unfold getTurn in Hturn. cbn [fst snd] in Hturn.
  assert (NoDup (got ++ rest)) as Hnd' by by rewrite <- Hp.
  assert (hits_ok found ks) as Hok' by (eapply hits_ok_more; [|exact Hok]; intros; rewrite Hp; set_solver).
  case_decide as Hd.
  { injection Hturn as <- <-. apply pend_empty, fmap_nil_inv in Hd. subst rest. rewrite app_nil_r in Hp. split_and!; [done..|].
    split; [done|]. intros _ sk v Hs. apply Hall. by rewrite <- Hp. }
  destruct (maxBatchRetries <? attempt)%nat; [injection Hturn as <- <-; by split_and!|].
  assert (rest ≠ []) as Hne by (intros ->; done).
  assert (pend t (keyOf <$> rest) = {[ t := keyOf <$> rest ]}) as Hpe by by destruct rest.
  pose proof (BatchGetItem_law s rest) as Hl. rewrite <- Hpe in Hl.
  assert (NoDup rest ∧ (1 ≤ length rest ≤ 100)%nat) as [Hr1 Hr2].
  { apply NoDup_app in Hnd' as (_ & _ & ?). apply Permutation_length in Hp. rewrite length_app in Hp. destruct rest; [done|]. split; [done|]. cbn in *. lia. }
  specialize (Hl Hr1 Hr2). destruct (BatchGetItem s _) as [s1 out]. destruct Hl as (Hm1 & Hn1 & Hout).
  destruct out as [e|[responses unprocessed]]; [injection Hturn as <- <-; split_and!; [congruence|done..]|].
  destruct Hout as (got2 & rest2 & Hp2 & -> & Hresp). set (items := default [] (responses !! t)) in *. rewrite Hm in Hresp.
  assert (∀ k item, m0 !! k = Some item → item !! keyAttr = Some (AttrS k)) as Hkeyed by (intros k item; rewrite <- Hm; apply rows_keyed).
  assert (got ++ rest ≡ₚ (got ++ got2) ++ rest2) as Hp3 by (by rewrite Hp2, app_assoc).
  pose proof (readItems_spec (dynNow s1) items found (got ++ got2)) as Hread.
  destruct (readItems c by_ (dynNow s1) items found) as [found' err]. destruct Hread as (I1 & I2 & I3).
  - lia.
  - rewrite Hresp. apply Forall_forall. intros item (k & Hk & Hi)%list_elem_of_omap. exists k. split_and!; [done|by apply Hkeyed|set_solver].
  - rewrite Hresp, omap_itemKey by done. apply NoDup_filter. rewrite Hp2 in Hr1. by apply NoDup_app in Hr1 as [? _].
  - eapply hits_ok_more; [|exact Hok]. set_solver.
  - intros k (kv & -> & Hin)%list_elem_of_fmap. destruct kv as [k v]. cbn. apply Hok in Hin as (Hg & _). rewrite Hresp, omap_itemKey by done.
    intros [_ Hx]%list_elem_of_filter. rewrite Hp2 in Hnd'. apply NoDup_app in Hnd' as (_ & Hdis & _). apply (Hdis _ Hg). set_solver.
  - assert (hits_all found (got) (dynNow s1)) as Hall1 by (by eapply hits_all_later).
    assert (err = None → hits_all found' (got ++ got2) (dynNow s1)) as Hall2.
    { intros He sk v [Hs|Hs]%elem_of_app Hb Hl.
      - destruct (Hall1 sk v Hs Hb Hl) as (k & Hk & Hin). exists k. split; [done|by apply I2].
      - destruct Hb as [k Hk]. exists k. split; [done|]. apply (I3 He sk); [|done..]. rewrite Hresp.
        unfold liveAt in Hl. destruct (m0 !! sk) as [item|] eqn:Em; [|done]. apply list_elem_of_fmap. exists item.
        split; [unfold itemKey; by rewrite (Hkeyed _ _ Em)|]. apply list_elem_of_omap. by exists sk. }
    destruct err as [err|]; injection Hturn as <- <-; (split_and!; [congruence|done|]).
    + split; [|done]. eapply hits_ok_more; [|exact I1]. intros sk Hs. rewrite Hp, Hp3. set_solver.
    + exists (got ++ got2), rest2. split_and!; [by rewrite Hp, Hp3|done|done|by apply Hall2].
Qed.

(** *** All chunks *)

Lemma getTurns_enough s a s' a' : getTurn c by_ s a = (s', inl a') → (2 - a'.1.2 < 2 - a.1.2)%nat.
Proof.
  destruct a as [[pending attempt] found]. unfold getTurn. cbn [fst snd]. case_decide; [done|].
  destruct (Nat.ltb_spec maxBatchRetries attempt) as [|Hlt]; [done|]. destruct (BatchGetItem _ _) as [s1 [e|[resp un]]]; [done|].
  destruct (readItems _ _ _ _ _) as [found' [err|]]; [done|]. intros [= <- <-]. cbn. unfold maxBatchRetries in Hlt. lia.
Qed.

(** Every chunk returns, and what it returns is right. *)
Lemma run_gets sched s kss :
  rows s = m0 → t0 ≤ dynNow s → Forall (λ ks, NoDup ks ∧ (1 ≤ length ks ≤ 100)%nat ∧ ∀ sk, sk ∈ ks → is_Some (by_ !! sk)) kss →
  ∃ s' rs, runChunks (getTurn c by_) getTurns sched s ((λ ks, getStart c ks []) <$> kss) = (s', inr <$> rs) ∧
    rows s' = m0 ∧ t0 ≤ dynNow s' ∧ Forall2 (λ ks r, getInv ks s' (inr r)) kss rs.
Proof.
  intros Hm Ht Hks.
  destruct (runChunks_done (getTurn c by_) (λ a, 2 - a.1.2)%nat 3 getTurns_enough sched s ((λ ks, getStart c ks []) <$> kss)) as (s' & rs & Hrun & _).
  { intros a (ks & -> & _)%list_elem_of_fmap. cbn. lia. }
  exists s', rs. split; [exact Hrun|].
  pose proof (runSchedule_inv (getTurn c by_) (λ s xs, rows s = m0 ∧ t0 ≤ dynNow s ∧ Forall2 (λ ks x, getInv ks s x) kss xs)
    (sched ++ concat (replicate 3 <$> seq 0 (length ((λ ks, getStart c ks []) <$> kss)))) (s, inl <$> ((λ ks, getStart c ks []) <$> kss))) as Hinv.
  unfold runChunks in Hrun. change getTurns with 3%nat in Hrun. rewrite Hrun in Hinv. cbn [fst snd] in Hinv. destruct Hinv as (H1 & H2 & H3).
  - split_and!; [done..|]. apply Forall2_same_length_lookup_2; [by rewrite !length_fmap|]. intros i ks x Hi. rewrite !list_lookup_fmap, Hi. intros [= <-].
    cbn. exists [], ks. rewrite Forall_forall in Hks. destruct (Hks ks) as (Hnd & Hl & _); [by eapply list_elem_of_lookup_2|]. split_and!; [done| |..].
    + by destruct ks; [cbn in Hl; lia|].
    + split; [by intros k v ?%elem_of_nil|apply NoDup_nil_2].
    + by intros sk v ?%elem_of_nil.
  - intros s1 cs i a s2 x (J1 & J2 & J3) Hi Hturn. destruct (Forall2_lookup_r _ _ _ _ _ J3 Hi) as (ks & Hki & Hgi).
    rewrite Forall_forall in Hks. destruct (Hks ks) as (Hnd & Hl & Hb); [by eapply list_elem_of_lookup_2|].
    destruct (getTurn_inv ks s1 a s2 x J1 J2 Hnd ltac:(lia) Hb Hgi Hturn) as (K1 & K2 & K3). split_and!; [done|lia|].
    rewrite <- (list_insert_id kss i ks Hki). apply Forall2_insert; [|done]. eapply Forall2_impl; [exact J3|]. intros ks' x'. by apply getInv_later.
  - split_and!; [done..|]. by apply Forall2_fmap_r in H3.
Qed.

Lemma hits_ok_key found got x : hits_ok found got → x ∈ dyKeyFunc c <$> found.*1 → x ∈ got.
Proof. intros [H _] (k & -> & ([k' v] & -> & Hin)%list_elem_of_fmap)%list_elem_of_fmap. by apply H in Hin as [? _]. Qed.

Lemma joinFound_spec s kss rs acc accKeys :
  Forall2 (λ ks r, getInv ks s (inr r)) kss rs → NoDup (accKeys ++ concat kss) →
  hits_ok acc accKeys → hits_all acc accKeys (dynNow s) →
  let '(found, err) := joinFound acc rs in
  hits_ok found (accKeys ++ concat kss) ∧ (err = None → hits_all found (accKeys ++ concat kss) (dynNow s)).
Proof.
  intros Hr. revert acc accKeys. induction Hr as [|ks [more err] kss rs [Hok Hall] _ IH]; intros acc accKeys Hnd Ha Haa; cbn.
  { rewrite app_nil_r in *. done. }
  cbn in Hnd. rewrite app_assoc in Hnd |- *.
  assert (hits_ok (acc ++ more) (accKeys ++ ks)) as Hok'.
  { destruct Ha as [A1 A2], Hok as [B1 B2]. split.
    - intros k v [Hin|Hin]%elem_of_app; [destruct (A1 k v Hin) as (? & ? & ?)|destruct (B1 k v Hin) as (? & ? & ?)]; split_and!; set_solver.
    - rewrite !fmap_app. apply NoDup_app. split_and!; [done| |done]. intros x Hx1 Hx2.
      apply (hits_ok_key acc accKeys) in Hx1; [|done]. apply (hits_ok_key more ks) in Hx2; [|done].
      apply NoDup_app in Hnd as (Hnd & _ & _). apply NoDup_app in Hnd as (_ & Hdis & _). by apply (Hdis x). }
  destruct err as [err|].
  - split; [|done]. eapply hits_ok_more; [|exact Hok']. set_solver.
  - apply IH; [done|done|]. intros sk v [Hs|Hs]%elem_of_app Hb Hl.
    + destruct (Haa sk v Hs Hb Hl) as (k & ? & ?). exists k. set_solver.
    + destruct (Hall eq_refl sk v Hs Hb Hl) as (k & ? & ?). exists k. set_solver.
Qed.
End Reads.

(** ** Batch reads *)

Section BatchGet.
Context {K V E D : Type} `{!DynamoAPI D E} (c : dynamoCache K V E) (rows : D → gmap string attrs) `{!DynamoLaws (dyTable c) rows}.

(** A batch in one request or in many: what it found is right, and all of it when it did not fail. *)
Lemma batchGet_hits sched s keys :
  let '(by_, sks) := dedupKeys (dyKeyFunc c) keys in
  ∃ s' found err, dyBatchGet c sched s keys = (s', (found, err)) ∧ rows s' = rows s ∧
    hits_ok (E := E) c by_ (rows s) (dynNow s) found sks ∧ (err = None → hits_all (E := E) c by_ (rows s) found sks (dynNow s')).
Proof.
  pose proof (dedupKeys_spec (dyKeyFunc c) keys) as Hdd. unfold dyBatchGet. destruct keys as [|k0 keys0].
  { cbn. exists s, [], None. split_and!; [done..| |]; [split; [by intros k v ?%elem_of_nil|apply NoDup_nil_2]|by intros _ sk v ?%elem_of_nil]. }
  remember (k0 :: keys0) as keys eqn:Ek. destruct (dedupKeys (dyKeyFunc c) keys) as [by_ sks]. cbn in Hdd. destruct Hdd as [Hnd Hsk Hby Hall].
  assert (sks ≠ []) as Hne by (intros ->; assert (k0 ∈ keys) as Hin%Hall%elem_of_nil by (subst; by left); done).
  assert (∀ sk k, by_ !! sk = Some k → dyKeyFunc c k = sk) as Hbk by (intros sk k Hb; by apply Hby in Hb as [_ ?]).
  destruct (Nat.leb_spec (length sks) batchGetLimit) as [Hle|Hgt].
  - destruct (run_gets c by_ (rows s) (dynNow s) Hbk rows [] s [sks]) as (s' & rs & Hrun & Hrows & Hnow & Hrs); [done|lia| |].
    { apply Forall_singleton. unfold batchGetLimit in Hle. split_and!; [done|destruct sks; [done|cbn; lia]|lia|]. intros sk. rewrite Hsk. done. }
    cbn [fmap list_fmap] in Hrun. rewrite Hrun. inversion Hrs as [|? [found err] ? ? Hr Hnil]; subst. inversion Hnil; subst. cbn.
    exists s', found, err. destruct Hr as [H1 H2]. by split_and!.
  - destruct (run_gets c by_ (rows s) (dynNow s) Hbk rows sched s (chunksOf batchGetLimit sks)) as (s' & rs & Hrun & Hrows & Hnow & Hrs); [done|lia| |].
    { apply Forall_forall. intros ks Hks. pose proof (chunksOf_length batchGetLimit ltac:(unfold batchGetLimit; lia) sks ks Hks) as Hl.
      pose proof (concat_chunksOf batchGetLimit ltac:(unfold batchGetLimit; lia) sks) as Hc. split_and!; [|unfold batchGetLimit in Hl; lia..|].
      - apply (NoDup_concat_elem (chunksOf batchGetLimit sks)); [by rewrite Hc|done].
      - intros sk Hs. apply Hsk. rewrite <- Hc. apply elem_of_concat. by exists ks. }
    rewrite Hrun. assert (resultOf ([], None) <$> (inr <$> rs) = rs) as -> by (clear; induction rs as [|r rs IH]; cbn; [done|by f_equal]).
    pose proof (joinFound_spec c by_ (rows s) (dynNow s) Hbk rows s' _ rs [] [] Hrs) as Hj. destruct (joinFound [] rs) as [found err].
    cbn [app] in Hj. rewrite concat_chunksOf in Hj by (unfold batchGetLimit; lia). exists s', found, err. destruct Hj as [J1 J2]; [done|..].
    + split; [by intros k v ?%elem_of_nil|apply NoDup_nil_2].
    + by intros sk v ?%elem_of_nil.
    + by split_and!.
Qed.
End BatchGet.

(** ** Batch writes of the DynamoDB adapter, whatever the schedule and whatever is handed back *)

Lemma applyReqs_spec m reqs :
  NoDup (omap reqKey reqs) →
  (∀ r k, r ∈ reqs → reqKey r = Some k → foldl applyReq m reqs !! k = reqValue r) ∧
  (∀ k, k ∉ omap reqKey reqs → foldl applyReq m reqs !! k = m !! k).
Proof.
  revert m. induction reqs as [|r reqs IH]; intros m Hnd; cbn [foldl].
  { split; [by intros r k ?%elem_of_nil|done]. }
  assert (omap reqKey (r :: reqs) = match reqKey r with Some k => k :: omap reqKey reqs | None => omap reqKey reqs end) as Ho by by cbn; destruct (reqKey r).
  rewrite Ho in Hnd |- *. unfold applyReq at 2 4. destruct (reqKey r) as [k0|] eqn:Ek.
  - apply NoDup_cons in Hnd as [Hk0 Hnd]. destruct (IH (partial_alter (λ _, reqValue r) k0 m) Hnd) as [H1 H2]. split.
    + intros r' k [->|Hr]%elem_of_cons Hk; [|by apply H1]. rewrite Ek in Hk. injection Hk as ->. rewrite H2 by done. by rewrite lookup_partial_alter_eq.
    + intros k [Hne Hk]%not_elem_of_cons. rewrite H2 by done. by rewrite lookup_partial_alter_ne.
  - destruct (IH m Hnd) as [H1 H2]. split; [|done]. intros r' k [->|Hr]%elem_of_cons Hk; [congruence|by apply H1].
Qed.

Section Writes.
Context {K V E D : Type} `{!DynamoAPI D E} (c : dynamoCache K V E) (rows : D → gmap string attrs) `{!DynamoLaws (dyTable c) rows}.
Implicit Types (s : D).

(** What the batch may leave under a key by a moment. *)
Context (m0 : gmap string attrs) (intended : Z → string → option attrs → Prop).
Hypothesis Hmono : ∀ now now' sk o, now ≤ now' → intended now sk o → intended now' sk o.

Definition good s (r : WriteRequest) : Prop := ∃ k, reqKey r = Some k ∧ intended (dynNow s) k (reqValue r).

Lemma good_keys s reqs : Forall (good s) reqs → reqKey <$> reqs = Some <$> omap reqKey reqs.
Proof. induction 1 as [|r reqs (k & Hk & _) _ IH]; [done|]. cbn. rewrite Hk. cbn. by rewrite IH. Qed.

(** Some requests of a chunk carried out, the rest not. *)
Record sending (ks : list string) s (applied rest : list WriteRequest) : Prop := {
  sd_keys : ks ≡ₚ omap reqKey applied ++ omap reqKey rest;
  sd_good : Forall (good s) (applied ++ rest);
  sd_applied r k : r ∈ applied → reqKey r = Some k → rows s !! k = reqValue r;
  sd_rest k : k ∈ omap reqKey rest → rows s !! k = m0 !! k
}.

(** A chunk with the storage keys [ks]: nothing written yet; some requests carried out, the rest pending; or done, and then
    every key is written unless there is an error. *)
Definition writeInv (ks : list string) s (x : writeState (K := K) (V := V) + option (DynError E)) : Prop :=
  match x with
  | inl (WEncode items ttl) => ks = dyKeyFunc c <$> items.*1 ∧ (∀ sk, sk ∈ ks → rows s !! sk = m0 !! sk) ∧
      ∀ k v now item, (k, v) ∈ items → dynNow s ≤ now → encodeItem c now (dyKeyFunc c k) v ttl = inr item → intended now (dyKeyFunc c k) (Some item)
  | inl (WSend pending attempt) => ∃ applied rest, pending = pend (dyTable c) rest ∧ sending ks s applied rest
  | inr err => ∀ sk, sk ∈ ks → intended (dynNow s) sk (rows s !! sk) ∨ err ≠ None ∧ rows s !! sk = m0 !! sk
  end.

Lemma good_later s s' r : dynNow s ≤ dynNow s' → good s r → good s' r.
Proof. intros Hn (k & Hk & Hi). exists k. split; [done|]. by eapply Hmono. Qed.

Lemma writeInv_later ks s s' x :
  dynNow s ≤ dynNow s' → (∀ sk, sk ∈ ks → rows s' !! sk = rows s !! sk) → writeInv ks s x → writeInv ks s' x.
Proof.
  intros Hn Hrows. destruct x as [[items ttl|pending attempt]|err]; cbn.
  - intros (-> & H1 & H2). split_and!; [done|intros sk Hs; rewrite Hrows by done; by apply H1|]. intros k v now item Hin Hle. apply H2; [done|lia].
  - intros (applied & rest & H2 & [H1 H3 H4 H5]). exists applied, rest. split; [done|]. split; [done|..].
    + eapply Forall_impl; [exact H3|]. intros r. by apply good_later.
    + intros r k Hr Hk. rewrite Hrows; [by apply H4|]. rewrite H1. apply elem_of_app. left. apply list_elem_of_omap. by exists r.
    + intros k Hk. rewrite Hrows; [by apply H5|]. rewrite H1. apply elem_of_app. by right.
  - intros H sk Hs. rewrite Hrows by done. destruct (H sk Hs) as [Hi|?]; [left|by right]. by eapply Hmono.
Qed.

Lemma encodeAll_reqs s now items ttl writes :
  dynNow s ≤ now → encodeAll c now items ttl = inr writes → now = dynNow s →
  (∀ k v item, (k, v) ∈ items → encodeItem c now (dyKeyFunc c k) v ttl = inr item → intended now (dyKeyFunc c k) (Some item)) →
  Forall (good s) writes ∧ omap reqKey writes = dyKeyFunc c <$> items.*1.
Proof.
  intros Hle Henc Hnow. revert writes Henc. induction items as [|[k v] items IH]; intros writes; cbn [encodeAll].
  { intros [= <-] _. split; [constructor|done]. }
  destruct (encodeItem c now (dyKeyFunc c k) v ttl) as [e|item] eqn:Ei; [done|]. destruct (encodeAll c now items ttl) as [e|writes'] eqn:Ea; [done|].
  intros [= <-] Hint. assert (reqKey (PutRequest item) = Some (dyKeyFunc c k)) as Hk.
  { unfold encodeItem in Ei. destruct (Marshal _ v) as [e|data]; [done|]. injection Ei as <-. unfold reqKey.
    destruct (0 <? ttl); [rewrite lookup_insert_ne by done|]; rewrite lookup_insert_ne by done; unfold keyOf; by rewrite lookup_singleton_eq. }
  destruct (IH writes' eq_refl) as [H1 H2]; [intros k' v' i Hin; apply Hint; by right|]. split.
  - constructor; [|done]. exists (dyKeyFunc c k). split; [done|]. cbn. rewrite <- Hnow. apply (Hint k v); [by left|done].
  - cbn [omap list_omap]. change (omap reqKey (PutRequest item :: writes')) with (match reqKey (PutRequest item) with Some k => k :: omap reqKey writes' | None => omap reqKey writes' end).
    rewrite Hk, H2. done.
Qed.

Lemma sending_mid ks s applied rest sk :
  sending ks s applied rest → sk ∈ ks → intended (dynNow s) sk (rows s !! sk) ∨ rows s !! sk = m0 !! sk ∧ sk ∈ omap reqKey rest.
Proof.
  intros [Hp Hg Ha Hr]. rewrite Hp. intros [Hs|Hs]%elem_of_app; [left|right; split; [by apply Hr|done]]. apply list_elem_of_omap in Hs as (r & Hin & Hk).
  rewrite (Ha r sk Hin Hk). rewrite Forall_forall in Hg. destruct (Hg r) as (k & Hk' & Hi); [set_solver|congruence].
Qed.

(** The service carried out some of what was pending. *)
Lemma sending_more ks s s1 applied rest applied2 rest2 :
  NoDup ks → sending ks s applied rest → rest ≡ₚ applied2 ++ rest2 → dynNow s ≤ dynNow s1 → rows s1 = foldl applyReq (rows s) applied2 →
  sending ks s1 (applied ++ applied2) rest2 ∧ ∀ sk, sk ∉ ks → rows s1 !! sk = rows s !! sk.
Proof.
  intros Hnd [Hp Hg Ha Hr] Hp2 Hn Hrows. assert (ks ≡ₚ omap reqKey applied ++ omap reqKey applied2 ++ omap reqKey rest2) as Hp3 by (by rewrite Hp, Hp2, omap_app).
  rewrite Hp3 in Hnd. apply NoDup_app in Hnd as (_ & Hdis & Hnd2). apply NoDup_app in Hnd2 as (Hnd2 & Hdis2 & _).
  destruct (applyReqs_spec (rows s) applied2 Hnd2) as [S1 S2]. rewrite <- Hrows in S1, S2.
  assert (∀ r k, reqKey r = Some k → ∀ l, r ∈ l → k ∈ omap reqKey l) as Hel by (intros r k Hk l Hin; apply list_elem_of_omap; by exists r).
  split; [split|].
  - by rewrite omap_app, <- app_assoc.
  - rewrite <- app_assoc, <- Hp2. eapply Forall_impl; [exact Hg|]. intros r. by apply good_later.
  - intros r k [Hin|Hin]%elem_of_app Hk; [|by apply S1]. rewrite S2; [by apply Ha|]. intros Hx. apply (Hdis k); [by eapply Hel|set_solver].
  - intros k Hk. rewrite S2; [|intros Hx; by apply (Hdis2 k)]. apply Hr. rewrite Hp2, omap_app. set_solver.
  - intros sk Hs. apply S2. intros Hx. apply Hs. rewrite Hp3. set_solver.
Qed.

(** A turn keeps to its own keys. *)
Lemma writeTurn_inv ks s a s' x :
  NoDup ks → (1 ≤ length ks ≤ 25)%nat → writeInv ks s (inl a) → writeTurn c s a = (s', x) →
  dynNow s ≤ dynNow s' ∧ (∀ sk, sk ∉ ks → rows s' !! sk = rows s !! sk) ∧ writeInv ks s' x.
Proof.
  intros Hnd Hlen Hinv Hturn. destruct a as [items ttl|pending attempt]; cbn [writeTurn] in Hturn.
  - destruct Hinv as (-> & Hrows & Hint). destruct (encodeAll c (dynNow s) items ttl) as [e|writes] eqn:Ee; injection Hturn as <- <-.
    + split_and!; [lia|done|]. intros sk Hs. right. split; [done|by apply Hrows].
    + destruct (encodeAll_reqs s (dynNow s) items ttl writes) as [Hg Hk]; [lia|done|done|intros k v item Hin; by apply Hint|].
      split_and!; [lia|done|]. exists [], writes. split; [by destruct writes; [destruct items as [|[]]; cbn in *; [lia|done]|]|].
      split; cbn; [by rewrite Hk|done|by intros r k ?%elem_of_nil|]. by rewrite Hk.
  - destruct Hinv as (applied & rest & -> & Hsd). pose proof (λ sk, sending_mid ks s applied rest sk Hsd) as Hmid. case_decide as Hd.
    { injection Hturn as <- <-. apply pend_empty in Hd as ->. split_and!; [lia|done|]. intros sk Hs. left.
      by destruct (Hmid sk Hs) as [|[_ ?%elem_of_nil]]. }
    destruct (maxBatchRetries <? attempt)%nat.
    { injection Hturn as <- <-. split_and!; [lia|done|]. intros sk Hs. destruct (Hmid sk Hs) as [|[]]; [by left|by right]. }
    pose proof Hsd as [Hp [_ Hgr]%Forall_app _ _]. assert (NoDup (omap reqKey rest)) as Hndr by (rewrite Hp in Hnd; by apply NoDup_app in Hnd as (_ & _ & ?)).
    rewrite pend_empty in Hd. assert (pend (dyTable c) rest = {[ dyTable c := rest ]}) as Hpe by by destruct rest. rewrite Hpe in Hturn.
    pose proof (BatchWriteItem_law s rest (omap reqKey rest) (good_keys s rest Hgr) Hndr) as Hl.
    assert (length (omap reqKey rest) = length rest) as Hlr by (rewrite <- (length_fmap Some), <- (good_keys s rest Hgr); apply length_fmap).
    destruct (BatchWriteItem s {[ dyTable c := rest ]}) as [s1 out]. destruct Hl as (Hn & applied2 & rest2 & Hp2 & Hrows & Hout).
    { apply Permutation_length in Hp. rewrite length_app in Hp. destruct rest; [done|]. cbn [length] in *. lia. }
    destruct (sending_more ks s s1 applied rest applied2 rest2 Hnd Hsd Hp2 Hn Hrows) as [Hsd' Hframe].
    destruct out as [e|un]; injection Hturn as <- <-; (split_and!; [done|done|]).
    + intros sk Hs. destruct (sending_mid _ _ _ _ sk Hsd' Hs) as [|[]]; [by left|by right].
    + exists (applied ++ applied2), rest2. done.
Qed.

(** *** All chunks *)

Definition writeLeft (a : writeState (K := K) (V := V)) : nat := match a with WEncode _ _ => 3 | WSend _ attempt => 2 - attempt end.

Lemma writeTurns_enough s a s' a' : writeTurn c s a = (s', inl a') → (writeLeft a' < writeLeft a)%nat.
Proof.
  destruct a as [items ttl|pending attempt]; cbn [writeTurn].
  - destruct (encodeAll _ _ _ _); [done|]. intros [= <- <-]. cbn. lia.
  - case_decide; [done|]. destruct (Nat.ltb_spec maxBatchRetries attempt) as [|Hlt]; [done|]. destruct (BatchWriteItem _ _) as [s1 [e|un]]; [done|].
    intros [= <- <-]. cbn. unfold maxBatchRetries in Hlt. lia.
Qed.

Lemma concat_disjoint (kss : list (list string)) i j ks ks' sk :
  NoDup (concat kss) → kss !! i = Some ks → kss !! j = Some ks' → sk ∈ ks → sk ∈ ks' → i = j.
Proof.
  revert i j. induction kss as [|l kss IH]; intros i j Hnd Hi Hj Hs Hs'; [done|]. cbn in Hnd. apply NoDup_app in Hnd as (_ & Hdis & Hnd).
  assert (∀ n l', kss !! n = Some l' → sk ∈ l' → sk ∈ concat kss) as Hc by (intros n l' Hn Hin; apply (proj2 (elem_of_concat kss sk)); exists l'; split; [by eapply list_elem_of_lookup_2|done]).
  destruct i as [|i], j as [|j]; cbn in *; simplify_eq; [done|exfalso; by eapply (Hdis sk); eauto..|]. f_equal. by eapply IH.
Qed.

Lemma run_writes sched s kss chunks :
  NoDup (concat kss) → (∀ sk, sk ∉ concat kss → rows s !! sk = m0 !! sk) → Forall (λ ks, (1 ≤ length ks ≤ 25)%nat) kss →
  Forall2 (λ ks a, writeInv ks s (inl a) ∧ (writeLeft a < writeTurns)%nat) kss chunks →
  ∃ s' rs, runChunks (writeTurn c) writeTurns sched s chunks = (s', inr <$> rs) ∧ dynNow s ≤ dynNow s' ∧
    (∀ sk, sk ∉ concat kss → rows s' !! sk = m0 !! sk) ∧ Forall2 (λ ks r, writeInv ks s' (inr r)) kss rs.
Proof.
  intros Hnd H0 Hlen Hch.
  destruct (runChunks_done (writeTurn c) writeLeft writeTurns writeTurns_enough sched s chunks) as (s' & rs & Hrun & _).
  { intros a [i Hi]%list_elem_of_lookup. by destruct (Forall2_lookup_r _ _ _ _ _ Hch Hi) as (ks & _ & _ & ?). }
  exists s', rs. split; [exact Hrun|].
  pose proof (runSchedule_inv (writeTurn c) (λ s1 xs, dynNow s ≤ dynNow s1 ∧ (∀ sk, sk ∉ concat kss → rows s1 !! sk = m0 !! sk) ∧
    Forall2 (λ ks x, writeInv ks s1 x) kss xs) (sched ++ concat (replicate writeTurns <$> seq 0 (length chunks))) (s, inl <$> chunks)) as Hinv.
  unfold runChunks in Hrun. rewrite Hrun in Hinv. cbn [fst snd] in Hinv. destruct Hinv as (H1 & H2 & H3).
  - split_and!; [lia|done|]. apply Forall2_fmap_r. eapply Forall2_impl; [exact Hch|]. by intros ks a [? _].
  - intros s1 cs i a s2 x (J1 & J2 & J3) Hi Hturn. destruct (Forall2_lookup_r _ _ _ _ _ J3 Hi) as (ks & Hki & Hgi).
    rewrite Forall_forall in Hlen. assert (ks ∈ kss) as Hin by by eapply list_elem_of_lookup_2.
    destruct (writeTurn_inv ks s1 a s2 x (NoDup_concat_elem _ _ Hnd Hin) (Hlen ks Hin) Hgi Hturn) as (K1 & K2 & K3). split_and!; [lia| |].
    + intros sk Hs. rewrite K2; [by apply J2|]. intros Hx. apply Hs, elem_of_concat. by exists ks.
    + rewrite <- (list_insert_id kss i ks Hki). apply Forall2_same_length_lookup_2.
      { rewrite !length_insert. by apply Forall2_length in J3. }
      intros j ks' x' Hj Hx. rewrite (list_insert_id kss i ks Hki) in Hj. apply list_lookup_insert_Some in Hx as [(<- & <- & _)|[Hne Hx]].
      * congruence.
      * pose proof (Forall2_lookup_lr _ _ _ _ _ _ J3 Hj Hx) as Hw. apply (writeInv_later ks' s1); [done| |done].
        intros sk Hs. apply K2. intros Hs'. apply Hne. by eapply concat_disjoint.
  - split_and!; [done..|]. by apply Forall2_fmap_r in H3.
Qed.
End Writes.
