(* ===== verification/DynamoTheorems.v ===== *)
(** * The DynamoDB adapter: what its batches leave in the table and read from it *)

From stdpp Require Import strings gmap.
From S2P Require Import Prelude Strconv Dedup Expiry Config CacheState Snapshot L2Util Dynamo DynamoLaws.

(** ** Batch writes *)

Section Batches.
Context {K V E D : Type} `{!DynamoAPI D E} (c : dynamoCache K V E) (rows : D → gmap string attrs) `{!DynamoLaws (dyTable c) rows}.
Implicit Types (s : D) (items : list (K * V)).

Lemma joinErrors_none (errs : list (option (DynError E))) : joinErrors errs = None → Forall (λ e, e = None) errs.
Proof.
  unfold joinErrors. induction errs as [|[e|] errs IH]; cbn; [constructor|done|]. intros H. constructor; [done|]. by apply IH.
Qed.

(** The chunks of a batch of writes, run by any schedule. *)
Lemma runWrites_spec (intended : Z → string → option attrs → Prop) sched s kss chunks :
  (∀ now now' sk o, now ≤ now' → intended now sk o → intended now' sk o) →
  NoDup (concat kss) → Forall (λ ks, (1 ≤ length ks ≤ 25)%nat) kss →
  Forall2 (λ ks a, writeInv c rows (rows s) intended ks s (inl a) ∧ (writeLeft a < writeTurns)%nat) kss chunks →
  ∃ s' err, runWrites c sched s chunks = (s', err) ∧ dynNow s ≤ dynNow s' ∧
    ∀ sk, (sk ∉ concat kss → rows s' !! sk = rows s !! sk) ∧
      (sk ∈ concat kss → intended (dynNow s') sk (rows s' !! sk) ∨ err ≠ None ∧ rows s' !! sk = rows s !! sk).
Proof.
  intros Hmono Hnd Hlen Hch. destruct (run_writes c rows (rows s) intended Hmono sched s kss chunks Hnd) as (s' & rs & Hrun & Hn & Hout & Hrs); [done..|].
  unfold runWrites. rewrite Hrun. eexists s', _. split; [done|]. split; [done|]. intros sk. split; [apply Hout|].
  intros (ks & Hks & Hs)%elem_of_concat. apply list_elem_of_lookup in Hks as [i Hi]. destruct (Forall2_lookup_l _ _ _ _ _ Hrs Hi) as (r & Hr & Hw).
  destruct (Hw sk Hs) as [|[He Heq]]; [by left|]. right. split; [|done]. intros Hnone. apply He.
  assert (Forall (λ e : option (DynError E), e = None) rs) as Hall.
  { destruct rs as [|r0 [|r1 rs]]; [constructor|by repeat constructor|]. apply joinErrors_none in Hnone.
    revert Hnone. generalize (r0 :: r1 :: rs). clear. intros l Hl. induction l as [|x l IH]; [constructor|]. cbn in Hl. apply Forall_cons in Hl as [? ?]. constructor; auto. }
  by eapply Forall_lookup_1 in Hall; [|done].
Qed.

(** A list of one chunk's length is one chunk, a longer one is cut; both are chunks for [runWrites_spec]. *)
Lemma write_chunks {A} (key : A → string) (mk : list A → writeState (K := K) (V := V)) (intended : Z → string → option attrs → Prop) sched s l :
  (∀ now now' sk o, now ≤ now' → intended now sk o → intended now' sk o) → l ≠ [] → NoDup (key <$> l) →
  (∀ l', l' ≠ [] → (∀ x, x ∈ l' → x ∈ l) → writeInv c rows (rows s) intended (key <$> l') s (inl (mk l')) ∧ (writeLeft (mk l') < writeTurns)%nat) →
  ∃ s' err, (if (length l <=? batchWriteLimit)%nat then runWrites c [] s [mk l] else runWrites c sched s (mk <$> chunksOf batchWriteLimit l)) = (s', err) ∧
    dynNow s ≤ dynNow s' ∧
    ∀ sk, (sk ∉ key <$> l → rows s' !! sk = rows s !! sk) ∧
      (sk ∈ key <$> l → intended (dynNow s') sk (rows s' !! sk) ∨ err ≠ None ∧ rows s' !! sk = rows s !! sk).
Proof.
  intros Hmono Hne Hnd Hmk. destruct (Nat.leb_spec (length l) batchWriteLimit) as [Hle|Hgt].
  - destruct (runWrites_spec intended [] s [key <$> l] [mk l] Hmono) as (s' & err & Hrun & Hn & Hsk).
    + cbn. by rewrite app_nil_r.
    + apply Forall_singleton. rewrite length_fmap. unfold batchWriteLimit in Hle. destruct l; [done|]. cbn in *. lia.
    + constructor; [|constructor]. by apply Hmk.
    + exists s', err. cbn in Hsk. rewrite app_nil_r in Hsk. done.
  - assert (0 < batchWriteLimit)%nat as Hl by (unfold batchWriteLimit; lia).
    destruct (runWrites_spec intended sched s ((fmap key : list A → list string) <$> chunksOf batchWriteLimit l) (mk <$> chunksOf batchWriteLimit l) Hmono)
      as (s' & err & Hrun & Hn & Hsk); rewrite ?concat_fmap, ?concat_chunksOf by done; [done|..].
    + apply Forall_fmap, Forall_forall. intros ch Hch. cbn. rewrite length_fmap. by apply (chunksOf_length batchWriteLimit Hl l).
    + apply Forall2_fmap, Forall_Forall2_diag, Forall_forall. intros ch Hch. apply Hmk.
      * intros ->. apply (chunksOf_length batchWriteLimit Hl) in Hch. cbn in Hch. lia.
      * intros x Hx. rewrite <- (concat_chunksOf batchWriteLimit Hl l). apply elem_of_concat. by exists ch.
    + rewrite concat_fmap, concat_chunksOf in Hsk by done. by exists s', err.
Qed.

Lemma batchSet_rows sched s items ttl :
  ∃ s' err, dyBatchSet c sched s items ttl = (s', err) ∧ ∀ sk,
    match lastOf (λ kv, dyKeyFunc c kv.1) sk items with
    | None => rows s' !! sk = rows s !! sk
    | Some (_, v) =>
      (∃ now item, dynNow s ≤ now ≤ dynNow s' ∧ encodeItem c now sk v ttl = inr item ∧ rows s' !! sk = Some item) ∨
      err ≠ None ∧ rows s' !! sk = rows s !! sk
    end.
Proof.
  destruct items as [|it items]; [by exists s, None|]. unfold dyBatchSet. remember (it :: items) as its eqn:Eits.
  destruct (dedupItems_ok (λ kv, dyKeyFunc c kv.1) its) as (idx & [Hnd Hidx Hlast Hall]). set (l := dedupItems (λ kv, dyKeyFunc c kv.1) its) in *.
  destruct (write_chunks (λ kv, dyKeyFunc c kv.1) (λ l, WEncode l ttl) (λ now sk o, ∃ t kv item, dynNow s ≤ t ≤ now ∧
    lastOf (λ kv, dyKeyFunc c kv.1) sk its = Some kv ∧ encodeItem c t sk kv.2 ttl = inr item ∧ o = Some item) sched s l) as (s' & err & Hrun & Hn & Hsk).
  - intros now now' sk o Hle (t & kv & item & ? & ?). exists t, kv, item. split; [lia|done].
  - intros Hl. destruct (lastOf_is_Some (λ kv, dyKeyFunc c kv.1) it its) as [kv0 Hkv]; [subst; by left|].
    destruct (Hall _ _ Hkv) as [i (kv & Hi & _)%Hidx]. by rewrite Hl in Hi.
  - done.
  - intros l' Hl' Hsub. split; [|cbn; unfold writeTurns, maxBatchRetries; lia]. split_and!; [by rewrite <- list_fmap_compose|done|].
    intros k v now item Hin Hle Henc. apply Hsub, list_elem_of_lookup in Hin as [i Hi]. exists now, (k, v), item. split_and!; [lia..| |done|done].
    by apply (Hlast i (k, v)).
  - exists s', err. split; [exact Hrun|]. intros sk. specialize (Hsk sk) as [Hout Hin]. destruct (lastOf (λ kv, dyKeyFunc c kv.1) sk its) as [[k v]|] eqn:El.
    + destruct Hin as [(t & kv & item & ? & [= <-] & Henc & Hr)|?]; [|left; by exists t, item|by right].
      destruct (Hall sk _ El) as [i (kv & Hi & Hk)%Hidx]. apply list_elem_of_fmap. exists kv. split; [done|by eapply list_elem_of_lookup_2].
    + apply Hout. intros ([k v] & -> & Hkv)%list_elem_of_fmap. apply list_elem_of_lookup in Hkv as [i Hi]. apply Hlast in Hi. cbn in *. congruence.
Qed.

Lemma reqKey_deletes (l : list string) : omap reqKey ((λ k, DeleteRequest (keyOf k)) <$> l) = l.
Proof. apply omap_fmap_Some. intros k. unfold reqKey, keyOf. by rewrite lookup_singleton_eq. Qed.

Lemma batchDelete_rows sched s keys :
  ∃ s' err, dyBatchDelete c sched s keys = (s', err) ∧ ∀ sk,
    if decide (sk ∈ dyKeyFunc c <$> keys) then rows s' !! sk = None ∨ err ≠ None ∧ rows s' !! sk = rows s !! sk
    else rows s' !! sk = rows s !! sk.
Proof.
  destruct keys as [|k0 keys]; [by exists s, None|]. unfold dyBatchDelete. remember (k0 :: keys) as ks eqn:Eks.
  destruct (dedupStorage_ok (dyKeyFunc c) ks) as [Hnd Hel]. set (l := dedupStorage (dyKeyFunc c) ks) in *.
  destruct (write_chunks (λ sk, sk) (deleteStart c) (λ now sk o, o = None) sched s l) as (s' & err & Hrun & Hn & Hsk).
  - done.
  - intros Hl. assert (dyKeyFunc c k0 ∈ l) as Hin by (apply Hel; subst; by left).
    rewrite Hl in Hin. by apply elem_of_nil in Hin.
  - by rewrite list_fmap_id.
  - intros l' Hl' Hsub. split; [|cbn; unfold writeTurns, maxBatchRetries; lia]. rewrite list_fmap_id.
    exists [], ((λ k, DeleteRequest (keyOf k)) <$> l'). split; [by destruct l'|]. split.
    + rewrite reqKey_deletes. done.
    + rewrite app_nil_l. apply Forall_fmap, Forall_true. intros k. exists k. split; [|done]. unfold reqKey, keyOf. by rewrite lookup_singleton_eq.
    + by intros r k ?%elem_of_nil.
    + done.
  - exists s', err. split; [exact Hrun|]. intros sk. specialize (Hsk sk). rewrite list_fmap_id, Hel in Hsk. destruct Hsk as [Hout Hin].
    case_decide; auto.
Qed.

(** C26: Batch writes of the DynamoDB adapter, whatever of each request the service leaves undone or fails, and
    however the goroutines of the chunks interleave: the call returns; keys the batch does not name are
    untouched; each storage key it names holds the last value given for it, encoded with the TTL counted from a moment of
    the call, or, only when an error is returned, what it held before; a batch deletion removes exactly the
    keys it names, unless it returns an error. *)
Theorem dynamo_batch_writes :
  (∀ sched s items ttl, ∃ s' err, dyBatchSet c sched s items ttl = (s', err) ∧ ∀ sk,
    match lastOf (λ kv, dyKeyFunc c kv.1) sk items with
    | None => rows s' !! sk = rows s !! sk
    | Some (_, v) =>
      (∃ now item, dynNow s ≤ now ≤ dynNow s' ∧ encodeItem c now sk v ttl = inr item ∧ rows s' !! sk = Some item) ∨
      err ≠ None ∧ rows s' !! sk = rows s !! sk
    end) ∧
  (∀ sched s keys, ∃ s' err, dyBatchDelete c sched s keys = (s', err) ∧ ∀ sk,
    if decide (sk ∈ dyKeyFunc c <$> keys) then rows s' !! sk = None ∨ err ≠ None ∧ rows s' !! sk = rows s !! sk
    else rows s' !! sk = rows s !! sk).
Proof. split; intros; [apply batchSet_rows|apply batchDelete_rows]. Qed.

(** C24: Batch reads of the DynamoDB adapter, over strongly consistent reads of the service, whatever of each request the service leaves undone or fails, and
    however the goroutines of the chunks interleave: the call returns and changes nothing; every hit is a
    key of the batch with the value it had, unexpired, when the call started, one hit per storage key; and when there is no
    error, every key of the batch whose value is unexpired when the call returns is among the hits. *)
Theorem dynamo_batch_reads sched s keys :
  ∃ s' found err, dyBatchGet c sched s keys = (s', (found, err)) ∧ rows s' = rows s ∧
    (∀ k v, (k, v) ∈ found → k ∈ keys ∧ liveAt c (rows s) (dynNow s) (dyKeyFunc c k) v) ∧
    NoDup (dyKeyFunc c <$> found.*1) ∧
    (err = None → ∀ k v, k ∈ keys → liveAt c (rows s) (dynNow s') (dyKeyFunc c k) v →
      ∃ k', dyKeyFunc c k' = dyKeyFunc c k ∧ (k', v) ∈ found).
Proof.
  pose proof (batchGet_hits c rows sched s keys) as H. pose proof (dedupKeys_spec (dyKeyFunc c) keys) as Hdd. destruct (dedupKeys (dyKeyFunc c) keys) as [by_ sks].
  destruct H as (s' & found & err & Hrun & Hrows & [Hok Hnd] & Hall). destruct Hdd as [_ Hsk Hby Hkeys]. cbn [fst snd] in *.
  exists s', found, err. split_and!; [done|done| |done|].
  - intros k v Hin. destruct (Hok k v Hin) as (_ & Hb & Hl). by apply Hby in Hb as [? _].
  - intros He k v Hk Hl. destruct (Hall He (dyKeyFunc c k) v) as (k' & Hb & Hin); [by apply Hkeys|by apply Hsk, Hkeys|done|].
    exists k'. split; [by apply Hby in Hb as [_ ?]|done].
Qed.
End Batches.

(** ** What was set is read until its deadline *)

Section RoundTrip.
Context {K V E D : Type} `{!DynamoAPI D E} (c : dynamoCache K V E).

(** A value written at [now] with a TTL is read from then on until the second its deadline falls in, and not after;
    without a TTL it is always read.  The deadline is rounded down to a second, so a TTL shorter than what is left of
    the current second is over at once. *)
Lemma dynamo_encode_decode now now' sk (v : V) ttl (data : bytes) item :
  Marshal (dyCodec c) v = inr data → Unmarshal (dyCodec c) data = inr v → 0 ≤ now → now + ttl < 2 ^ 63 →
  encodeItem c now sk v ttl = inr item →
  decodeItem (E := E) c now' (Some item) =
    (if (0 <? ttl) && negb ((now + ttl) / second =? 0) && ((now + ttl) / second <=? now' / second) then None else Some v, None).
Proof.
  intros Hm Hu Hn Ho. unfold encodeItem. rewrite Hm. intros [= <-]. unfold decodeItem, expired, keyOf.
  destruct (Z.ltb_spec 0 ttl) as [Ht|Ht]; cbn [andb].
  - rewrite lookup_insert_eq, ParseInt_FormatInt.
    + rewrite lookup_insert_ne, lookup_insert_eq, Hu by done. by destruct (_ && _).
    + assert (0 ≤ (now + ttl) / second) by (apply Z.div_pos; [lia|done]). assert ((now + ttl) / second ≤ now + ttl) by (apply Z.div_le_upper_bound; unfold second; lia). lia.
  - rewrite lookup_insert_ne, lookup_singleton_ne, lookup_insert_eq, Hu by done. done.
Qed.
End RoundTrip.

(** ** A service in memory that carries out two requests per call *)

Module SimTable.

Definition rowsOf (m : gmap string attrs) : gmap string attrs := map_imap (λ k item, Some (<[keyAttr := AttrS k]> item)) m.

Definition keysOfReq (l : list attrs) : list string := omap itemKey l.

#[global] Instance simDynamo : DynamoAPI (gmap string attrs) Z := {
  dynNow _ := 10 * second;
  GetItem m _ key := (m, inr (itemKey key ≫= (rowsOf m !!.)));
  PutItem m _ item := (applyReq m (PutRequest item), None);
  DeleteItem m _ key := (applyReq m (DeleteRequest key), None);
  BatchGetItem m req :=
    let ks := keysOfReq (default [] (req !! "t")) in
    (m, inr ({[ "t" := omap (rowsOf m !!.) (take 2 ks) ]}, pend "t" (keyOf <$> drop 2 ks)));
  BatchWriteItem m req := let l := default [] (req !! "t") in (foldl applyReq m (take 2 l), inr (pend "t" (drop 2 l)))
}.

Lemma rowsOf_lookup m k : rowsOf m !! k = (λ item, <[keyAttr := AttrS k]> item) <$> m !! k.
Proof. unfold rowsOf. rewrite map_lookup_imap. by destruct (m !! k). Qed.

Lemma rowsOf_apply m r : rowsOf (applyReq m r) = applyReq (rowsOf m) r.
Proof.
  apply map_eq. intros k. rewrite rowsOf_lookup. unfold applyReq. destruct (reqKey r) as [k0|] eqn:Ek; [|by rewrite rowsOf_lookup].
  destruct (decide (k = k0)) as [->|Hne]; [|by rewrite !lookup_partial_alter_ne, rowsOf_lookup].
  rewrite !lookup_partial_alter_eq. destruct r as [item|key]; cbn; [|done]. unfold reqKey in Ek. cbn in Ek.
  destruct (item !! keyAttr) as [[]|] eqn:Ei; simplify_eq. by rewrite insert_id.
Qed.

Lemma rowsOf_applies m l : rowsOf (foldl applyReq m l) = foldl applyReq (rowsOf m) l.
Proof. revert m. induction l as [|r l IH]; intros m; cbn; [done|]. by rewrite IH, rowsOf_apply. Qed.

Lemma itemKey_keyOf k : itemKey (keyOf k) = Some k.
Proof. unfold itemKey, keyOf. by rewrite lookup_singleton_eq. Qed.

Lemma keysOfReq_keys ks : keysOfReq (keyOf <$> ks) = ks.
Proof. apply omap_fmap_Some, itemKey_keyOf. Qed.

#[global] Instance simDynamo_laws : DynamoLaws "t" rowsOf.
Proof.
  split; cbn [dynNow GetItem PutItem DeleteItem BatchGetItem BatchWriteItem simDynamo].
  - intros m k item. rewrite rowsOf_lookup. destruct (m !! k); [|done]. intros [= <-]. by rewrite lookup_insert_eq.
  - intros m k. split_and!; [done|lia|]. rewrite itemKey_keyOf. done.
  - intros m item _. split; [lia|]. left. apply rowsOf_apply.
  - intros m k. split; [lia|]. left. rewrite rowsOf_apply. unfold applyReq, reqKey. change (keyOf k !! keyAttr) with (({[ keyAttr := AttrS k ]} : attrs) !! keyAttr).
    by rewrite lookup_singleton_eq.
  - intros m keys _ _. cbv zeta. rewrite lookup_singleton_eq. change (default [] (Some (keyOf <$> keys))) with (keyOf <$> keys). rewrite keysOfReq_keys. split_and!; [done|lia|]. exists (take 2 keys), (drop 2 keys).
    split_and!; [by rewrite take_drop|done|]. by rewrite lookup_singleton_eq.
  - intros m reqs ks _ _ _. cbv zeta. split; [lia|]. rewrite lookup_singleton_eq. change (default [] (Some reqs)) with reqs. exists (take 2 reqs), (drop 2 reqs).
    split_and!; [by rewrite take_drop|apply rowsOf_applies|done].
Qed.
End SimTable.

Definition exDynamo : dynamoCache string bytes Z := mkDynamo "t" BytesCodec id.
Definition exPuts : list (string * bytes) := [("a", [1]); ("b", [2]); ("a", [3]); ("c", [4])].

(** Three distinct keys take two calls of the service; the repeated one keeps its last value. *)
Lemma dynamo_batch_writes_witness :
  ∃ s', dyBatchSet exDynamo [] (∅ : gmap string attrs) exPuts 0 = (s', None) ∧
    ∃ now item, encodeItem exDynamo now "a" [3] 0 = inr item ∧ SimTable.rowsOf s' !! "a" = Some item.
Proof.
  destruct (dynamo_batch_writes exDynamo SimTable.rowsOf) as [H _]. destruct (H [] ∅ exPuts 0) as (s' & err & Hrun & Hrows).
  assert (err = None) as ->.
  { assert ((dyBatchSet exDynamo [] (∅ : gmap string attrs) exPuts 0).2 = None) as He by (vm_compute; reflexivity). by rewrite Hrun in He. }
  exists s'. split; [exact Hrun|]. specialize (Hrows "a"). assert (lastOf (λ kv, dyKeyFunc exDynamo kv.1) "a" exPuts = Some ("a", [3])) as Hl by (vm_compute; reflexivity).
  rewrite Hl in Hrows. destruct Hrows as [(now & item & _ & He & Hr)|[]]; [|done]. by exists now, item.
Defined.

Definition exRows : gmap string attrs := (dyBatchSet exDynamo [] (∅ : gmap string attrs) exPuts 0).1.

Lemma dynamo_batch_reads_witness :
  ∃ s' found, dyBatchGet exDynamo [] exRows ["a"; "x"; "c"; "a"] = (s', (found, None)) ∧ NoDup found.*1 ∧
    ∃ k', k' = "a" ∧ (k', [3]) ∈ found.
Proof.
  destruct (dynamo_batch_reads exDynamo SimTable.rowsOf [] exRows ["a"; "x"; "c"; "a"]) as (s' & found & err & Hrun & Hrows & _ & Hnd & Hall).
  assert (err = None) as ->.
  { assert ((dyBatchGet exDynamo [] exRows ["a"; "x"; "c"; "a"]).2.2 = None) as He by (vm_compute; reflexivity). by rewrite Hrun in He. }
  exists s', found. split; [exact Hrun|]. split; [by rewrite list_fmap_id in Hnd|]. apply (Hall eq_refl "a" [3]); [by left|]. vm_compute. reflexivity.
Defined.
