(* ===== verification/Sql.v ===== *)
(** * The database/sql adapter (l2/sql_adapter/sql.go)

    The database, its driver and the wall clock are the world [D]; a statement is its text and its arguments. *)

From stdpp Require Import strings gmap.
From S2P Require Import Prelude Strconv Dedup Expiry Config CacheState Snapshot L2Util Redis.

Inductive Arg := ArgText (s : string) | ArgBlob (b : bytes) | ArgInt (x : Z).

(** A result set is its rows, each scanned on demand, and the error found at their end. *)
Class SqlDB (D E Row : Type) := {
  sqlNow : D → Z;
  QueryContext : D → string → list Arg → D * (E + list Row * option E);
  ExecContext : D → string → list Arg → D * (E + Z);
  scanValue : Row → E + bytes;
  scanPair : Row → E + string * bytes
}.

Definition DefaultTable : string := "github.com/zakonnic/memstash_cache".

Record Dialect := mkDialect { Placeholder : option (Z → string); Upsert : string; MultiRowUpsert : bool }.

Definition qmark (n : Z) : string := "?".
Definition dollar (n : Z) : string := "$" +:+ FormatInt n.

Definition SQLite : Dialect := mkDialect (Some qmark) "ON CONFLICT(cache_key) DO UPDATE SET value = excluded.value, expires_at = excluded.expires_at" true.
Definition Postgres : Dialect := mkDialect (Some dollar) "ON CONFLICT (cache_key) DO UPDATE SET value = EXCLUDED.value, expires_at = EXCLUDED.expires_at" true.
Definition MySQL : Dialect := mkDialect (Some qmark) "ON DUPLICATE KEY UPDATE value = VALUES(value), expires_at = VALUES(expires_at)" true.

Definition maxStatementParams : nat := 900.

Definition CreateTableSQL (tableName : string) : string :=
  let tableName := if decide (tableName = "") then DefaultTable else tableName in
  "CREATE TABLE IF NOT EXISTS " +:+ tableName +:+ " (cache_key TEXT PRIMARY KEY, value BLOB, expires_at BIGINT NOT NULL DEFAULT 0)".

Record sqlCache (K V E : Type) := mkSql {
  sqCodec : Codec V E; sqKeyFunc : K → string; sqTable : string; sqPh : Z → string; sqUpsert : string; sqMultiRow : bool;
  getQuery : string; setQuery : string; deleteQuery : string; reapQuery : string
}.
Arguments mkSql {K V E}.
Arguments sqCodec {K V E}.
Arguments sqKeyFunc {K V E}.
Arguments sqTable {K V E}.
Arguments sqPh {K V E}.
Arguments sqUpsert {K V E}.
Arguments sqMultiRow {K V E}.
Arguments getQuery {K V E}.
Arguments setQuery {K V E}.
Arguments deleteQuery {K V E}.
Arguments reapQuery {K V E}.

Inductive SqlNewError := SqlUtil (e : UtilError) | ErrNoPlaceholder.

(** The loop over the rows of a batch read, which pgx_adapter has word for word. *)
Section Scan.
Context {K V E Row : Type} (codec : Codec V E) (scan : Row → E + string * bytes).

Fixpoint scanRows (byStorageKey : gmap string K) (rows : list Row) (err : option E) (found : list (K * V)) : list (K * V) * option E :=
  match rows with
  | [] => (found, err)
  | row :: rows =>
    match scan row with
    | inl e => (found, Some e)
    | inr (storageKey, data) =>
      match byStorageKey !! storageKey with
      | None => scanRows byStorageKey rows err found
      | Some key =>
        match Unmarshal codec data with
        | inl e => (found, Some e)
        | inr value => scanRows byStorageKey rows err (found ++ [(key, value)])
        end
      end
    end
  end.
End Scan.

Section Sql.
Context {K V E D Row : Type} `{!SqlDB D E Row}.

Definition sqNew (isString : option (K → string)) (db : bool) (codec : option (Codec V E)) (tableName : string) (dialect : Dialect)
    (keyOpts : list (@keyOption K string)) : SqlNewError + sqlCache K V E :=
  match db, codec, Placeholder dialect with
  | false, _, _ => inl (SqlUtil ErrNilClient)
  | _, None, _ => inl (SqlUtil ErrNilCodec)
  | _, _, None => inl ErrNoPlaceholder
  | true, Some codec, Some ph =>
    let tableName := if decide (tableName = "") then DefaultTable else tableName in
    match ExtractKeyFunc isString keyOpts with
    | inl err => inl (SqlUtil err)
    | inr keyFunc =>
      inr (mkSql codec keyFunc tableName ph (Upsert dialect) (MultiRowUpsert dialect)
        ("SELECT value FROM " +:+ tableName +:+ " WHERE cache_key = " +:+ ph 1 +:+ " AND (expires_at = 0 OR expires_at > " +:+ ph 2 +:+ ")")
        ("INSERT INTO " +:+ tableName +:+ " (cache_key, value, expires_at) VALUES (" +:+ ph 1 +:+ ", " +:+ ph 2 +:+ ", " +:+ ph 3 +:+ ") " +:+ Upsert dialect)
        ("DELETE FROM " +:+ tableName +:+ " WHERE cache_key = " +:+ ph 1)
        ("DELETE FROM " +:+ tableName +:+ " WHERE expires_at <> 0 AND expires_at <= " +:+ ph 1))
    end
  end.

Context (c : sqlCache K V E).
Implicit Types (s : D) (key : K) (keys : list K) (value : V) (items : list (K * V)) (ttl now : Z).

(** [time.Now().Unix()] and the stored deadline. *)
Definition unixNow s : Z := sqlNow s / second.

Definition expiresAt s ttl : Z := if ttl <=? 0 then 0 else (sqlNow s + ttl) / second.

Definition sqGet s key : D * (option V * option E) :=
  let '(s, r) := QueryContext s (getQuery c) [ArgText (sqKeyFunc c key); ArgInt (unixNow s)] in
  match r with
  | inl e => (s, (None, Some e))
  | inr ([], err) => (s, (None, err))
  | inr (row :: _, _) =>
    match scanValue row with
    | inl e => (s, (None, Some e))
    | inr data => match Unmarshal (sqCodec c) data with inl e => (s, (None, Some e)) | inr value => (s, (Some value, None)) end
    end
  end.

Definition sqExec s (query : string) (args : list Arg) : D * option E :=
  let '(s, r) := ExecContext s query args in (s, match r with inl e => Some e | inr _ => None end).

Definition sqSet s key value ttl : D * option E :=
  match Marshal (sqCodec c) value with
  | inl e => (s, Some e)
  | inr data => sqExec s (setQuery c) [ArgText (sqKeyFunc c key); ArgBlob data; ArgInt (expiresAt s ttl)]
  end.

Definition sqDelete s key : D * option E := sqExec s (deleteQuery c) [ArgText (sqKeyFunc c key)].

(** The placeholders of a list, from the [i]-th on. *)
Fixpoint inList (i : Z) (n : nat) : string :=
  match n with O => "" | S n => (if 0 <? i then ", " else "") +:+ sqPh c (i + 1) +:+ inList (i + 1) n end.

Definition selectQuery (n : nat) : string :=
  "SELECT cache_key, value FROM " +:+ sqTable c +:+ " WHERE cache_key IN (" +:+ inList 0 n +:+ ") AND (expires_at = 0 OR expires_at > " +:+
  sqPh c (Z.of_nat n + 1) +:+ ")".

Definition sqBatchGetChunk s (chunk : list string) now (byStorageKey : gmap string K) (found : list (K * V)) : D * (list (K * V) * option E) :=
  let '(s, r) := QueryContext s (selectQuery (length chunk)) ((ArgText <$> chunk) ++ [ArgInt now]) in
  match r with inl e => (s, (found, Some e)) | inr (rows, err) => (s, scanRows (sqCodec c) scanPair byStorageKey rows err found) end.

Fixpoint getChunks s (chunks : list (list string)) now (byStorageKey : gmap string K) (found : list (K * V)) : D * (list (K * V) * option E) :=
  match chunks with
  | [] => (s, (found, None))
  | chunk :: chunks =>
    let '(s, (found, err)) := sqBatchGetChunk s chunk now byStorageKey found in
    match err with Some _ => (s, (found, err)) | None => getChunks s chunks now byStorageKey found end
  end.

Definition sqBatchGet s keys : D * (list (K * V) * option E) :=
  match keys with
  | [] => (s, ([], None))
  | _ =>
    let '(byStorageKey, storageKeys) := dedupKeys (sqKeyFunc c) keys in
    getChunks s (chunksOf (maxStatementParams - 1) storageKeys) (unixNow s) byStorageKey []
  end.

(** The rows of a multi-row insert. *)
Fixpoint valuesList (i : Z) (n : nat) : string :=
  match n with
  | O => ""
  | S n => (if 0 <? i then ", " else "") +:+ "(" +:+ sqPh c (3 * i + 1) +:+ ", " +:+ sqPh c (3 * i + 2) +:+ ", " +:+ sqPh c (3 * i + 3) +:+ ")" +:+
      valuesList (i + 1) n
  end.

Definition insertQuery (n : nat) : string :=
  "INSERT INTO " +:+ sqTable c +:+ " (cache_key, value, expires_at) VALUES " +:+ valuesList 0 n +:+ " " +:+ sqUpsert c.

Definition rowArgs (deadline : Z) (row : string * bytes) : list Arg := [ArgText row.1; ArgBlob row.2; ArgInt deadline].

(** Statements one after the other up to the first error. *)
Fixpoint execAll {A} (query : nat → string) (args : A → list Arg) s (chunks : list (list A)) : D * option E :=
  match chunks with
  | [] => (s, None)
  | chunk :: chunks =>
    let '(s, err) := sqExec s (query (length chunk)) (chunk ≫= args) in
    match err with Some _ => (s, err) | None => execAll query args s chunks end
  end.

Definition deleteInQuery (n : nat) : string := "DELETE FROM " +:+ sqTable c +:+ " WHERE cache_key IN (" +:+ inList 0 n +:+ ")".

Definition sqBatchDelete s keys : D * option E :=
  execAll deleteInQuery (λ k, [ArgText k]) s (chunksOf maxStatementParams (sqKeyFunc c <$> keys)).

Definition sqBatchSetRows s items ttl : D * option E :=
  match marshalAll (sqKeyFunc c) (sqCodec c) items with
  | inl e => (s, Some e)
  | inr pairs => execAll insertQuery (rowArgs (expiresAt s ttl)) s (chunksOf (maxStatementParams / 3) (dedupItems fst pairs))
  end.

Definition DeleteExpired s : D * (E + Z) := ExecContext s (reapQuery c) [ArgInt (unixNow s)].

(** The single-key operations as a store, for the sequential batch of an engine without multi-row inserts. *)
Definition sqSingles : L2Cache K V D E := {|
  l2Get := sqGet; l2BatchGet := sqBatchGet; l2Set := sqSet; l2BatchSet s _ _ := (s, None); l2Delete := sqDelete;
  l2BatchDelete := sqBatchDelete
|}.

Definition sqBatchSet s items ttl : D * option E :=
  match items with
  | [] => (s, None)
  | _ => if negb (sqMultiRow c) then BatchSetSequential (L2Cache0 := sqSingles) s items ttl else sqBatchSetRows s items ttl
  end.

Definition sqlL2 : L2Cache K V D E := {|
  l2Get := sqGet; l2BatchGet := sqBatchGet; l2Set := sqSet; l2BatchSet := sqBatchSet; l2Delete := sqDelete; l2BatchDelete := sqBatchDelete
|}.
End Sql.
