(* ===== verification/TimedStore.v ===== *)
(** * A second level over a store whose rows carry a deadline

    What the adapters promise over a store that keeps, under a string key, bytes and the deadline after which a
    read no longer sees them: databases (l2/sql_adapter, l2/pgx_adapter, l2/mongo_adapter, l2/tarantool_adapter), Badger,
    Aerospike and memcached.  Any call may fail; the promise says what a failed one may leave behind. *)

From stdpp Require Import strings gmap.
From S2P Require Import Prelude Expiry Config CacheState Snapshot L2Util Redis KvStore Dedup.

Lemma lastOf_cons {A} (key : A → string) sk x l :
  lastOf key sk (x :: l) = match lastOf key sk l with Some y => Some y | None => if decide (key x = sk) then Some x else None end.
Proof.
  unfold lastOf. rewrite filter_cons. case_decide as Hx; [|by destruct (last _)]. rewrite last_cons. by destruct (last _).
Qed.

(** ** Deletions *)

Section Deletes.
Context {K V E' D DL : Type} (keyFunc : K → string).
(** What the store holds, and the clock. *)
Context (rows : D → gmap string (bytes * DL)) (now : D → Z).
Implicit Types (s : D) (k : K) (ks : list K) (sk : string) (e : option E').

Definition deletes_all s ks s' e : Prop :=
  now s ≤ now s' ∧ ∀ sk, if decide (sk ∈ keyFunc <$> ks) then rows s' !! sk = None ∨ e ≠ None ∧ rows s' !! sk = rows s !! sk
    else rows s' !! sk = rows s !! sk.

Lemma deletes_nothing s s' ks e : rows s' = rows s → now s ≤ now s' → (e = None → ks = []) → deletes_all s ks s' e.
Proof.
  intros Hr Hn He. split; [done|]. intros sk. rewrite Hr. case_decide as Hk; [|done]. right. split; [|done]. intros ->. rewrite He in Hk by done.
  by apply elem_of_nil in Hk.
Qed.

Lemma deletes_single s k s' e :
  now s ≤ now s' → rows s' = delete (keyFunc k) (rows s) ∨ e ≠ None ∧ rows s' = rows s → deletes_all s [k] s' e.
Proof.
  intros Hn [Hr|[He Hr]]; [|by apply deletes_nothing]. split; [done|]. intros sk. rewrite Hr. cbn. case_decide as Hk.
  - apply list_elem_of_singleton in Hk as ->. left. apply lookup_delete_eq.
  - rewrite lookup_delete_ne; [done|]. intros <-. apply Hk. set_solver.
Qed.

Lemma deletes_cons s k ks s1 s' e1 e2 e :
  deletes_all s [k] s1 e1 → deletes_all s1 ks s' e2 → (e = None → e1 = None ∧ e2 = None) → deletes_all s (k :: ks) s' e.
Proof.
  intros [Hn1 H1] [Hn2 H2] He. split; [lia|]. intros sk. specialize (H1 sk). specialize (H2 sk). cbn in *.
  assert (e1 ≠ None ∨ e2 ≠ None → e ≠ None) as Herr by (intros ? ->; destruct (He eq_refl); tauto).
  destruct (decide (sk ∈ keyFunc <$> ks)) as [Hin|Hin].
  - rewrite decide_True by set_solver. destruct H2 as [?|[He2 Hr]]; [by left|]. rewrite Hr. case_decide; [|right; auto].
    destruct H1 as [?|[? ?]]; [by left|right; auto].
  - rewrite H2. destruct (decide (sk ∈ [keyFunc k])) as [Hk|Hk]; [rewrite decide_True by set_solver|rewrite decide_False by set_solver; done].
    destruct H1 as [?|[? ?]]; [by left|right; auto].
Qed.

Lemma deletes_later s ks s1 s' e : deletes_all s ks s1 e → rows s' = rows s1 → now s1 ≤ now s' → deletes_all s ks s' e.
Proof. intros [Hn H] Hr Hn'. split; [lia|]. intros sk. rewrite Hr. apply H. Qed.

Lemma deletes_earlier s0 s ks s' e : rows s = rows s0 → now s0 ≤ now s → deletes_all s ks s' e → deletes_all s0 ks s' e.
Proof. intros Hr Hn [Hn' H]. split; [lia|]. intros sk. rewrite <- Hr. apply H. Qed.

Lemma BatchDeleteSequential_deletes `{!L2Cache K V D E'} :
  (∀ s k, let '(s', e) := l2Delete (V := V) s k in deletes_all s [k] s' e) →
  ∀ ks s, let '(s', e) := BatchDeleteSequential (V := V) s ks in deletes_all s ks s' e.
Proof.
  intros Hdel. induction ks as [|k ks IH]; intros s; cbn; [by apply deletes_nothing|].
  pose proof (Hdel s k) as H1. destruct (l2Delete s k) as [s1 e1]. specialize (IH s1).
  destruct e1 as [e1|]; [by eapply deletes_cons; [exact H1|apply (deletes_nothing s1 s1 ks (Some e1))|]|].
  destruct (BatchDeleteSequential s1 ks) as [s' e]. by eapply deletes_cons; [exact H1|exact IH|].
Qed.
End Deletes.

(** ** Writes *)

Section Writes.
Context {K V E E' D DL : Type} (keyFunc : K → string) (codec : Codec V E) `{!TotalCodec codec}.
Context (rows : D → gmap string (bytes * DL)) (now : D → Z).
(** The deadline of a write at a time with a TTL. *)
Context (deadline : Z → Z → DL).
Implicit Types (s : D) (k : K) (v : V) (items : list (K * V)) (sk : string) (e : option E').

(** The row of a write during the call. *)
Definition written s s' ttl v (r : option (bytes * DL)) : Prop :=
  ∃ t, now s ≤ t ≤ now s' ∧ r = Some (enc v, deadline t ttl).

Definition one_of s s' items ttl sk (r : option (bytes * DL)) : Prop :=
  ∃ k v, (k, v) ∈ items ∧ keyFunc k = sk ∧ written s s' ttl v r.

Abbreviation lastItem := (lastOf (λ kv : K * V, keyFunc kv.1)).

(** A batch of writes: keys it does not name are left alone; a key it names holds the last value given for it,
    or, after an error, may hold what it held or another value given for it. *)
Definition writes_all s items ttl s' e : Prop :=
  now s ≤ now s' ∧ ∀ sk,
    match lastItem sk items with
    | None => rows s' !! sk = rows s !! sk
    | Some (_, v) => written s s' ttl v (rows s' !! sk) ∨
        e ≠ None ∧ (rows s' !! sk = rows s !! sk ∨ one_of s s' items ttl sk (rows s' !! sk))
    end.

Lemma one_of_named s s' items ttl sk r : one_of s s' items ttl sk r → is_Some (lastItem sk items).
Proof. intros (k & v & Hin & <- & _). exact (lastOf_is_Some (λ kv : K * V, keyFunc kv.1) (k, v) items Hin). Qed.

(** A batch of writes made in no order: a key may end with any value given for it. *)
Definition writes_some s items ttl s' e : Prop :=
  now s ≤ now s' ∧ ∀ sk,
    match lastItem sk items with
    | None => rows s' !! sk = rows s !! sk
    | Some _ => one_of s s' items ttl sk (rows s' !! sk) ∨ e ≠ None ∧ rows s' !! sk = rows s !! sk
    end.

(** Without repeated keys that is the same. *)
Lemma writes_some_all s items ttl s' e : NoDup ((λ kv, keyFunc kv.1) <$> items) → writes_some s items ttl s' e → writes_all s items ttl s' e.
Proof.
  intros Hnd [Hn H]. split; [done|]. intros sk. specialize (H sk). destruct (lastItem sk items) as [[k v]|] eqn:El; [|done].
  destruct H as [(k' & v' & Hin & Hk & Hw)|[He H]]; [left|right; split; [done|by left]]. apply lastOf_key in El as [Hin' Hk'].
  apply list_elem_of_lookup in Hin as [i Hi]. apply list_elem_of_lookup in Hin' as [j Hj].
  assert (i = j) as ->; [|congruence]. apply (NoDup_lookup _ _ _ sk Hnd); rewrite list_lookup_fmap; [by rewrite Hi; cbn; congruence|by rewrite Hj; cbn in *; congruence].
Qed.

Lemma written_wider s0 s1 s2 s3 ttl v r : now s0 ≤ now s1 → now s2 ≤ now s3 → written s1 s2 ttl v r → written s0 s3 ttl v r.
Proof. intros ?? (t & ? & Hr). exists t. split; [lia|done]. Qed.

Lemma one_of_wider s0 s1 s2 s3 items items' ttl sk r : now s0 ≤ now s1 → now s2 ≤ now s3 → items ⊆ items' →
  one_of s1 s2 items ttl sk r → one_of s0 s3 items' ttl sk r.
Proof. intros ?? Hi (k & v & Hin & Hk & Hw). exists k, v. split_and!; [by apply Hi|done|by eapply written_wider]. Qed.

Lemma writes_nothing s s' ttl e items : rows s' = rows s → now s ≤ now s' → (e = None → items = []) → writes_all s items ttl s' e.
Proof.
  intros Hr Hn He. split; [done|]. intros sk. rewrite Hr. destruct (lastItem sk items) as [[k v]|] eqn:El; [|done]. right.
  split; [|by left]. intros ->. by rewrite He in El.
Qed.

Lemma writes_single s k v ttl s' e :
  now s ≤ now s' → (∃ t, now s ≤ t ≤ now s' ∧ rows s' = <[keyFunc k := (enc v, deadline t ttl)]> (rows s)) ∨ e ≠ None ∧ rows s' = rows s →
  writes_all s [(k, v)] ttl s' e.
Proof.
  intros Hn [(t & Ht & Hr)|[He Hr]]; [|by apply writes_nothing].
  split; [done|]. intros sk. rewrite Hr. rewrite lastOf_cons. cbn. case_decide as Hk.
  - left. exists t. subst. by rewrite lookup_insert_eq.
  - by rewrite lookup_insert_ne.
Qed.

(** One write, then the others. *)
Lemma writes_cons s k v items ttl s1 s' e1 e2 e :
  writes_all s [(k, v)] ttl s1 e1 → writes_all s1 items ttl s' e2 → (e = None → e1 = None ∧ e2 = None) → writes_all s ((k, v) :: items) ttl s' e.
Proof.
  intros [Hn1 H1] [Hn2 H2] He. split; [lia|]. intros sk. specialize (H1 sk). specialize (H2 sk). rewrite lastOf_cons in H1 |- *. cbn in H1 |- *.
  assert (∀ v', written s s1 ttl v' (rows s1 !! sk) → rows s' !! sk = rows s1 !! sk → written s s' ttl v' (rows s' !! sk)) as Hw
    by (intros v' ? ->; by apply (written_wider s s s1 s')).
  assert (e1 ≠ None ∨ e2 ≠ None → e ≠ None) as Herr by (intros ? ->; destruct (He eq_refl); tauto).
  destruct (lastItem sk items) as [[k' v']|].
  - destruct H2 as [Hw2|[He2 H2]]; [left; by apply (written_wider s s1 s' s')|]. right. split; [auto|]. destruct H2 as [Hr|Ho].
    + case_decide as Hk; [|left; congruence]. destruct H1 as [H1|[_ [H1|Ho]]]; [right; exists k, v; split_and!; [set_solver|done|by apply Hw]|left; congruence|].
      right. destruct Ho as (k1 & v1 & Hin & Hk1 & Hw1). exists k1, v1. split_and!; [set_solver|done|by apply Hw].
    + right. eapply (one_of_wider s s1 s' s'); [done|done| |exact Ho]. set_solver.
  - case_decide as Hk; [|congruence]. destruct H1 as [H1|[He1 H1]]; [left; by apply Hw|]. right. split; [auto|].
    destruct H1 as [H1|(k1 & v1 & Hin & Hk1 & Hw1)]; [left; congruence|]. right. exists k1, v1. split_and!; [set_solver|done|by apply Hw].
Qed.

Lemma writes_later s items ttl s1 s' e : writes_all s items ttl s1 e → rows s' = rows s1 → now s1 ≤ now s' → writes_all s items ttl s' e.
Proof.
  intros [Hn H] Hr Hn'. split; [lia|]. intros sk. specialize (H sk). rewrite Hr. destruct (lastItem sk items) as [[k v]|]; [|done].
  destruct H as [Hw|[He [H|Ho]]]; [left; by apply (written_wider s s s1 s')|right; split; [done|by left]|right; split; [done|right]].
  by eapply (one_of_wider s s s1 s').
Qed.

Lemma writes_earlier s0 s items ttl s' e : rows s = rows s0 → now s0 ≤ now s → writes_all s items ttl s' e → writes_all s0 items ttl s' e.
Proof.
  intros Hr Hn [Hn' H]. split; [lia|]. intros sk. specialize (H sk). rewrite Hr in H. destruct (lastItem sk items) as [[k v]|]; [|done].
  destruct H as [Hw|[He [H|Ho]]]; [left; by apply (written_wider s0 s s' s')|right; split; [done|by left]|right; split; [done|right]].
  by eapply (one_of_wider s0 s s' s').
Qed.

Lemma writes_all_some s items ttl s' e : writes_all s items ttl s' e → writes_some s items ttl s' e.
Proof.
  intros [Hn H]. split; [done|]. intros sk. specialize (H sk). destruct (lastItem sk items) as [[k v]|] eqn:El; [|done].
  apply lastOf_key in El as [Hin Hk]. destruct H as [Hw|[He [H|Ho]]]; [left; by exists k, v|by right|by left].
Qed.

Lemma BatchSetSequential_writes `{!L2Cache K V D E'} :
  (∀ s k v ttl, let '(s', e) := l2Set s k v ttl in writes_all s [(k, v)] ttl s' e) →
  ∀ items s ttl, let '(s', e) := BatchSetSequential s items ttl in writes_all s items ttl s' e.
Proof.
  intros Hset. induction items as [|[k v] items IH]; intros s ttl; cbn; [by apply writes_nothing|].
  pose proof (Hset s k v ttl) as H1. destruct (l2Set s k v ttl) as [s1 e1]. specialize (IH s1 ttl).
  destruct e1 as [e1|]; [by eapply writes_cons; [exact H1|apply (writes_nothing s1 s1 ttl (Some e1))|]|].
  destruct (BatchSetSequential s1 items ttl) as [s' e]. by eapply writes_cons; [exact H1|exact IH|].
Qed.

End Writes.

(** ** Reads, and the promise *)

Section Timed.
Context {K V E E' D DL : Type} (keyFunc : K → string) (codec : Codec V E) `{!TotalCodec codec}.
Context (rows : D → gmap string (bytes * DL)) (now : D → Z) (visible : Z → DL → bool).
Implicit Types (s : D) (k : K) (ks : list K) (v : V) (sk : string).

Definition shown (m : gmap string (bytes * DL)) (t : Z) sk v : Prop :=
  ∃ d dl, m !! sk = Some (d, dl) ∧ visible t dl = true ∧ dec d = v.

(** [visible] says whether a row is seen at a time.  A read that answers saw the row at a moment of the call. *)
Definition reads_one s k s' (a : option V * option E') : Prop :=
  now s ≤ now s' ∧ rows s' = rows s ∧ (∀ v, a.1 = Some v → shown (rows s) (now s) (keyFunc k) v) ∧
  (a.2 = None → ∀ v, shown (rows s) (now s') (keyFunc k) v → a.1 = Some v).

Definition reads_all s ks s' (a : list (K * V) * option E') : Prop :=
  now s ≤ now s' ∧ rows s' = rows s ∧ (∀ k v, (k, v) ∈ a.1 → k ∈ ks ∧ shown (rows s) (now s) (keyFunc k) v) ∧
  (a.2 = None → ∀ k v, k ∈ ks → shown (rows s) (now s') (keyFunc k) v → ∃ k', keyFunc k' = keyFunc k ∧ (k', v) ∈ a.1).

Lemma shown_earlier m t t' sk v :
  (∀ t t' dl, t ≤ t' → visible t' dl = true → visible t dl = true) → t ≤ t' → shown m t' sk v → shown m t sk v.
Proof. intros Hvis Ht (d & dl & Hm & Hv & Hd). exists d, dl. split_and!; [done|by eapply Hvis|done]. Qed.

Context (deadline : Z → Z → DL).

(** [ordered] adapters write a batch as if its items were written in order. *)
Record timed_lawful (ordered : bool) (l2 : L2Cache K V D E') : Prop := {
  tl_get s k : let '(s', a) := l2Get (L2Cache := l2) s k in reads_one s k s' a;
  tl_batchGet s ks : let '(s', a) := l2BatchGet (L2Cache := l2) s ks in reads_all s ks s' a;
  tl_set s k v ttl : let '(s', e) := l2Set (L2Cache := l2) s k v ttl in writes_all keyFunc codec rows now deadline s [(k, v)] ttl s' e;
  tl_batchSet s items ttl : let '(s', e) := l2BatchSet (L2Cache := l2) s items ttl in
    (if ordered then writes_all keyFunc codec rows now deadline else writes_some keyFunc codec rows now deadline) s items ttl s' e;
  tl_delete s k : let '(s', e) := l2Delete (L2Cache := l2) s k in deletes_all keyFunc rows now s [k] s' e;
  tl_batchDelete s ks : let '(s', e) := l2BatchDelete (L2Cache := l2) s ks in deletes_all keyFunc rows now s ks s' e
}.

End Timed.
