(* ===== verification/SqlLaws.v ===== *)
(** * Statements and what a database does with them

    The statements the database/sql adapter sends as syntax trees with numbered parameters, their texts, and their
    meaning on a table; the class [SqlLaws] is what the adapter relies on: a statement with the text of a tree whose
    parameters are numbered in order, within the engine's limit, does what the tree means, or fails. *)

From stdpp Require Import strings gmap.
From S2P Require Import Prelude Expiry Config CacheState Snapshot L2Util Redis KvStore Strconv Dedup Sql TimedStore.

Abbreviation rowTable := (gmap string (bytes * Z)).

Inductive Stmt :=
| SelectOne (key now : Z) | SelectIn (keys : list Z) (now : Z) | InsertRows (rows : list (Z * Z * Z)) | DeleteKey (key : Z)
| DeleteIn (keys : list Z) | Reap (now : Z).

Fixpoint commas (l : list string) : string :=
  match l with [] => "" | [x] => x | x :: l => x +:+ ", " +:+ commas l end.

Definition tuple (ph : Z → string) (r : Z * Z * Z) : string :=
  "(" +:+ ph r.1.1 +:+ ", " +:+ ph r.1.2 +:+ ", " +:+ ph r.2 +:+ ")".

Definition printStmt (tbl : string) (ph : Z → string) (upsert : string) (st : Stmt) : string :=
  match st with
  | SelectOne k n => "SELECT value FROM " +:+ tbl +:+ " WHERE cache_key = " +:+ ph k +:+ " AND (expires_at = 0 OR expires_at > " +:+ ph n +:+ ")"
  | SelectIn ks n => "SELECT cache_key, value FROM " +:+ tbl +:+ " WHERE cache_key IN (" +:+ commas (ph <$> ks) +:+
      ") AND (expires_at = 0 OR expires_at > " +:+ ph n +:+ ")"
  | InsertRows rs => "INSERT INTO " +:+ tbl +:+ " (cache_key, value, expires_at) VALUES " +:+ commas (tuple ph <$> rs) +:+ " " +:+ upsert
  | DeleteKey k => "DELETE FROM " +:+ tbl +:+ " WHERE cache_key = " +:+ ph k
  | DeleteIn ks => "DELETE FROM " +:+ tbl +:+ " WHERE cache_key IN (" +:+ commas (ph <$> ks) +:+ ")"
  | Reap n => "DELETE FROM " +:+ tbl +:+ " WHERE expires_at <> 0 AND expires_at <= " +:+ ph n
  end.

(** The parameters in the order of the text. *)
Definition params (st : Stmt) : list Z :=
  match st with
  | SelectOne k n => [k; n] | SelectIn ks n => ks ++ [n] | InsertRows rs => rs ≫= λ r, [r.1.1; r.1.2; r.2]
  | DeleteKey k => [k] | DeleteIn ks => ks | Reap n => [n]
  end.

Definition numbered (st : Stmt) (args : list Arg) : Prop := params st = seqZ 1 (Z.of_nat (length args)).

Definition argAt (args : list Arg) (i : Z) : option Arg := args !! Z.to_nat (i - 1).
Definition textAt args i : option string := match argAt args i with Some (ArgText s) => Some s | _ => None end.
Definition intAt args i : option Z := match argAt args i with Some (ArgInt x) => Some x | _ => None end.
Definition rowAt args (r : Z * Z * Z) : option (string * (bytes * Z)) :=
  match argAt args r.1.1, argAt args r.1.2, argAt args r.2 with
  | Some (ArgText k), Some (ArgBlob d), Some (ArgInt dl) => Some (k, (d, dl))
  | _, _, _ => None
  end.

Definition putRows (m : rowTable) (l : list (string * (bytes * Z))) : rowTable := foldl (λ m r, <[r.1 := r.2]> m) m l.
Definition dropRows (m : rowTable) (ks : list string) : rowTable := foldl (λ m k, delete k m) m ks.

(** A row is seen in the seconds before its deadline, or always. *)
Definition seen (sec dl : Z) : bool := (dl =? 0) || (sec <? dl).

(** What a statement that changes the table makes of it; an upsert that names a key twice has no meaning, as
    PostgreSQL rejects it. *)
Definition effect (st : Stmt) (args : list Arg) (m : rowTable) : option rowTable :=
  match st with
  | InsertRows rs => l ← mapM (rowAt args) rs; if decide (NoDup l.*1) then Some (putRows m l) else None
  | DeleteKey k => k ← textAt args k; Some (delete k m)
  | DeleteIn ks => ks ← mapM (textAt args) ks; Some (dropRows m ks)
  | Reap n => n ← intAt args n; Some (filter (λ kv, seen n kv.2.2) m)
  | SelectOne _ _ | SelectIn _ _ => None
  end.

(** The keys and the second a query asks for. *)
Definition selection (st : Stmt) (args : list Arg) : option (list string * Z) :=
  match st with
  | SelectOne k n => k ← textAt args k; n ← intAt args n; Some ([k], n)
  | SelectIn ks n => ks ← mapM (textAt args) ks; n ← intAt args n; Some (ks, n)
  | _ => None
  end.

Definition selects (m : rowTable) (sec : Z) (k : string) (d : bytes) : Prop := ∃ dl, m !! k = Some (d, dl) ∧ seen sec dl = true.

(** The parameters an engine takes in one statement: SQLite's historical limit. *)
Definition engineLimit : nat := 999.

Class SqlLaws {D E Row : Type} `{!SqlDB D E Row} (tbl : string) (ph : Z → string) (upsert : string) (rows : D → rowTable) : Prop := {
  sl_exec s st args m' :
    numbered st args → (length args ≤ engineLimit)%nat → effect st args (rows s) = Some m' →
    let '(s', r) := ExecContext s (printStmt tbl ph upsert st) args in
    sqlNow s ≤ sqlNow s' ∧ match r with inr _ => rows s' = m' | inl _ => rows s' = rows s ∨ rows s' = m' end;
  sl_one s args k i n sec :
    numbered (SelectOne i n) args → selection (SelectOne i n) args = Some ([k], sec) →
    let '(s', r) := QueryContext s (printStmt tbl ph upsert (SelectOne i n)) args in
    sqlNow s ≤ sqlNow s' ∧ rows s' = rows s ∧
    match r with
    | inl _ => True
    | inr (l, err) =>
      (∀ row d, row ∈ l → scanValue row = inr d → selects (rows s) sec k d) ∧
      (err = None → l = [] → ∀ d, ¬ selects (rows s) sec k d)
    end;
  sl_in s args ks n is_ sec :
    numbered (SelectIn is_ n) args → (length args ≤ engineLimit)%nat → selection (SelectIn is_ n) args = Some (ks, sec) →
    let '(s', r) := QueryContext s (printStmt tbl ph upsert (SelectIn is_ n)) args in
    sqlNow s ≤ sqlNow s' ∧ rows s' = rows s ∧
    match r with
    | inl _ => True
    | inr (l, err) =>
      (∀ row k d, row ∈ l → scanPair row = inr (k, d) → k ∈ ks ∧ selects (rows s) sec k d) ∧
      (err = None → ∀ k d, k ∈ ks → selects (rows s) sec k d → ∃ row, row ∈ l ∧ ∀ x, scanPair row = inr x → x = (k, d))
    end
}.

(** ** The adapter's texts are the statements' *)

Lemma append_nil_r (x : string) : x +:+ "" = x.
Proof. induction x as [|a x IH]; [done|]. exact (f_equal (String a) IH). Qed.

Lemma append_assoc (x y z : string) : (x +:+ y) +:+ z = x +:+ y +:+ z.
Proof. induction x as [|a x IH]; [done|]. exact (f_equal (String a) IH). Qed.

(** A list printed with a separator before every element but the first. *)
Fixpoint separated (f : Z → string) (i : Z) (n : nat) : string :=
  match n with O => "" | S n => (if 0 <? i then ", " else "") +:+ f i +:+ separated f (i + 1) n end.

Lemma separated_commas f n i : 0 ≤ i →
  separated f i n = (if (0 <? i) && (0 <? n)%nat then ", " else "") +:+ commas (f <$> seqZ i (Z.of_nat n)).
Proof.
  revert i. induction n as [|n IH]; intros i Hi; [by destruct (0 <? i)|]. cbn [separated]. rewrite IH, andb_true_r by lia. f_equal.
  rewrite (seqZ_cons i), (proj2 (Z.ltb_lt 0 (i + 1))) by lia. replace (Z.pred (Z.of_nat (S n))) with (Z.of_nat n) by lia. rewrite <- Z.add_1_r.
  destruct n as [|n]; [apply append_nil_r|]. rewrite (seqZ_cons (i + 1)) by lia. done.
Qed.

Definition triple (i : Z) : Z * Z * Z := (3 * i + 1, 3 * i + 2, 3 * i + 3).

Section Texts.
Context {K V E : Type} (c : sqlCache K V E).
Abbreviation print := (printStmt (sqTable c) (sqPh c) (sqUpsert c)).

Lemma inList_commas n : inList c 0 n = commas (sqPh c <$> seqZ 1 (Z.of_nat n)).
Proof.
  rewrite <- (fmap_add_seqZ 1 0). rewrite <- list_fmap_compose.
  assert (∀ i, inList c i n = separated (sqPh c ∘ Z.add 1) i n) as ->.
  { induction n as [|n IH]; intros i; [done|]. cbn. rewrite IH. by rewrite Z.add_comm. }
  by rewrite separated_commas.
Qed.

Lemma valuesList_commas n : valuesList c 0 n = commas (tuple (sqPh c) <$> (triple <$> seqZ 0 (Z.of_nat n))).
Proof.
  rewrite <- list_fmap_compose.
  assert (∀ i, valuesList c i n = separated (tuple (sqPh c) ∘ triple) i n) as ->.
  { induction n as [|n IH]; intros i; [done|]. cbn [valuesList separated]. rewrite IH. unfold tuple, triple, compose. cbn [fst snd].
    by rewrite !append_assoc. }
  by rewrite separated_commas.
Qed.

Lemma selectQuery_print n : selectQuery c n = print (SelectIn (seqZ 1 (Z.of_nat n)) (Z.of_nat n + 1)).
Proof. unfold selectQuery. by rewrite inList_commas. Qed.

Lemma insertQuery_print n : insertQuery c n = print (InsertRows (triple <$> seqZ 0 (Z.of_nat n))).
Proof. unfold insertQuery. by rewrite valuesList_commas. Qed.

Lemma deleteInQuery_print n : deleteInQuery c n = print (DeleteIn (seqZ 1 (Z.of_nat n))).
Proof. unfold deleteInQuery. by rewrite inList_commas. Qed.

(** The statements of a cache made by [New]. *)
Record fixed_texts : Prop := {
  ft_get : getQuery c = print (SelectOne 1 2);
  ft_set : setQuery c = print (InsertRows [(1, 2, 3)]);
  ft_delete : deleteQuery c = print (DeleteKey 1);
  ft_reap : reapQuery c = print (Reap 1)
}.

End Texts.

Lemma sqNew_texts {K V E} isString db codec tbl dialect opts (c : sqlCache K V E) :
  sqNew isString db codec tbl dialect opts = inr c → fixed_texts c.
Proof.
  unfold sqNew. destruct db, codec as [codec|], (Placeholder dialect) as [ph|]; try done.
  destruct (ExtractKeyFunc isString opts) as [?|kf]; [done|]. intros [= <-]. split; try reflexivity. cbn [setQuery sqTable sqPh sqUpsert printStmt fmap list_fmap commas].
  unfold tuple. cbn [fst snd]. by rewrite !append_assoc.
Qed.

(** ** The arguments are the parameters' *)

Lemma argAt_app pre l i j : i = Z.of_nat (length pre + j) + 1 → argAt (pre ++ l) i = l !! j.
Proof. intros ->. unfold argAt. rewrite Z.add_simpl_r, Nat2Z.id, lookup_app_r by lia. f_equal. lia. Qed.

Lemma mapM_cons {A B} (f : A → option B) x l y ys : f x = Some y → mapM f l = Some ys → mapM f (x :: l) = Some (y :: ys).
Proof. intros Hx Hl. cbn. by rewrite Hx, Hl. Qed.

Lemma seqZ_S i n : seqZ i (Z.of_nat (S n)) = i :: seqZ (i + 1) (Z.of_nat n).
Proof. rewrite seqZ_cons by lia. f_equal. f_equal; lia. Qed.

Lemma texts_at pre ks post i :
  i = Z.of_nat (length pre) + 1 → mapM (textAt (pre ++ (ArgText <$> ks) ++ post)) (seqZ i (Z.of_nat (length ks))) = Some ks.
Proof.
  revert pre i. induction ks as [|k ks IH]; intros pre i Hi; [done|]. cbn [length]. rewrite seqZ_S. apply mapM_cons.
  - cbn [fmap list_fmap app]. unfold textAt. by rewrite (argAt_app _ _ _ 0) by lia.
  - specialize (IH (pre ++ [ArgText k]) (i + 1)). rewrite length_app, <- app_assoc in IH. apply IH. cbn. lia.
Qed.

Lemma rows_at dl pre l j :
  Z.of_nat (length pre) = 3 * j →
  mapM (rowAt (pre ++ (l ≫= rowArgs dl))) (triple <$> seqZ j (Z.of_nat (length l))) = Some ((λ r, (r.1, (r.2, dl))) <$> l).
Proof.
  revert pre j. induction l as [|[k d] l IH]; intros pre j Hj; [done|]. cbn [length]. rewrite seqZ_S. apply mapM_cons.
  - change (((k, d) :: l) ≫= rowArgs dl) with (ArgText k :: ArgBlob d :: ArgInt dl :: (l ≫= rowArgs dl)). unfold rowAt, triple. cbn [fst snd].
    by rewrite (argAt_app _ _ (3 * j + 1) 0), (argAt_app _ _ (3 * j + 2) 1), (argAt_app _ _ (3 * j + 3) 2) by lia.
  - specialize (IH (pre ++ rowArgs dl (k, d)) (j + 1)). rewrite length_app, <- app_assoc in IH. apply IH. cbn. lia.
Qed.

Lemma numbered_rows dl l : numbered (InsertRows (triple <$> seqZ 0 (Z.of_nat (length l)))) (l ≫= rowArgs dl).
Proof.
  unfold numbered. cbn [params]. enough (∀ j, ((triple <$> seqZ j (Z.of_nat (length l))) ≫= λ r, [r.1.1; r.1.2; r.2]) =
    seqZ (3 * j + 1) (Z.of_nat (length (l ≫= rowArgs dl)))) as H by apply (H 0).
  induction l as [|[k d] l IH]; intros j; [done|]. cbn [length]. rewrite seqZ_S.
  change (((k, d) :: l) ≫= rowArgs dl) with (ArgText k :: ArgBlob d :: ArgInt dl :: (l ≫= rowArgs dl)). cbn [length]. rewrite !seqZ_S.
  change (3 * j + 1 :: 3 * j + 2 :: 3 * j + 3 :: ((triple <$> seqZ (j + 1) (Z.of_nat (length l))) ≫= λ r, [r.1.1; r.1.2; r.2]) =
    3 * j + 1 :: 3 * j + 1 + 1 :: 3 * j + 1 + 1 + 1 :: seqZ (3 * j + 1 + 1 + 1 + 1) (Z.of_nat (length (l ≫= rowArgs dl)))).
  rewrite IH. do 3 (apply (f_equal2 cons); [lia|]). f_equal. lia.
Qed.

Lemma rowArgs_length dl l : length (l ≫= rowArgs dl) = (3 * length l)%nat.
Proof. induction l as [|r l IH]; [done|]. change (length ((r :: l) ≫= rowArgs dl)) with (3 + length (l ≫= rowArgs dl))%nat. rewrite IH. cbn. lia. Qed.

(** ** Rows written and removed *)

Lemma lookup_putRows m l k : putRows m l !! k = match lastOf fst k l with Some r => Some r.2 | None => m !! k end.
Proof.
  unfold putRows. induction l as [|[k' r] l IH] using rev_ind; [done|]. rewrite foldl_app, lastOf_snoc. cbn [foldl fst snd].
  case_decide as Hk; [subst; apply lookup_insert_eq|]. by rewrite lookup_insert_ne.
Qed.

Lemma lookup_dropRows m ks k : dropRows m ks !! k = if decide (k ∈ ks) then None else m !! k.
Proof.
  unfold dropRows. induction ks as [|k' ks IH] using rev_ind; [done|]. rewrite foldl_app. cbn [foldl].
  destruct (decide (k = k')) as [->|Hne]; [rewrite lookup_delete_eq, decide_True by set_solver; done|]. rewrite lookup_delete_ne, IH by done.
  repeat case_decide; set_solver.
Qed.

(** ** The database/sql adapter keeps its promise

    Every operation against [SqlLaws], whatever statements fail; a database in memory that has the laws. *)

(** Rows are seen until the second of their deadline; a deadline is a unix second, 0 for none. *)
Definition visibleSec (t dl : Z) : bool := seen (t / second) dl.
Definition deadlineSec (t ttl : Z) : Z := if ttl <=? 0 then 0 else (t + ttl) / second.

Lemma visibleSec_earlier t t' dl : t ≤ t' → visibleSec t' dl = true → visibleSec t dl = true.
Proof.
  unfold visibleSec, seen. intros Ht. pose proof (Z.div_le_mono t t' second ltac:(done) Ht). rewrite !orb_true_iff, !Z.ltb_lt. lia.
Qed.

Lemma selects_shown {V E} (codec : Codec V E) `{!TotalCodec codec} m t sk (d : bytes) :
  selects m (t / second) sk d → shown codec visibleSec m t sk (dec d).
Proof. intros (dl & Hm & Hs). by exists d, dl. Qed.

Lemma shown_selects {V E} (codec : Codec V E) `{!TotalCodec codec} m t t' sk (v : V) :
  t ≤ t' → shown codec visibleSec m t' sk v → ∃ d, selects m (t / second) sk d ∧ v = dec d.
Proof. intros Ht (d & dl & Hm & Hv & <-)%(shown_earlier _ _ m t t' sk v visibleSec_earlier Ht). exists d. split; [by exists dl|done]. Qed.

(** Removing the rows past their deadline hides nothing from a later read. *)
Lemma reap_shown {V E} (codec : Codec V E) `{!TotalCodec codec} (m : rowTable) n t sk (v : V) :
  n ≤ t → shown codec visibleSec (filter (λ kv, seen (n / second) kv.2.2) m) t sk v ↔ shown codec visibleSec m t sk v.
Proof.
  intros Ht. unfold shown. split; intros (d & dl & Hm & Hv & Hd); exists d, dl.
  - by apply map_lookup_filter_Some in Hm as [? _].
  - split_and!; [|done|done]. apply map_lookup_filter_Some. split; [done|]. by apply Is_true_true, (visibleSec_earlier n t).
Qed.

(** ** Batches without repeated keys *)

Lemma lastOf_fmap {A B} (f : A → B) (key : B → string) sk l : lastOf key sk (f <$> l) = f <$> lastOf (key ∘ f) sk l.
Proof.
  induction l as [|x l IH] using rev_ind; [done|]. rewrite fmap_app. cbn [fmap list_fmap]. rewrite !lastOf_snoc. change ((key ∘ f) x) with (key (f x)).
  case_decide; [done|exact IH].
Qed.

(** Any part of the deduplicated batch holds, for a key, nothing or the batch's last. *)
Lemma lastOf_part {A} (key : A → string) sk (l p : list A) r : p ⊆ dedupItems key l → lastOf key sk p = Some r → lastOf key sk l = Some r.
Proof.
  intros Hp [Hin <-]%lastOf_key. destruct (dedupItems_ok key l) as [idx [_ _ Hlast _]]. apply Hp in Hin as [i Hi]%list_elem_of_lookup. by eapply Hlast.
Qed.

Lemma lastOf_dedup {A} (key : A → string) sk (l : list A) : lastOf key sk (dedupItems key l) = lastOf key sk l.
Proof.
  destruct (lastOf key sk l) as [r|] eqn:El.
  - destruct (dedupItems_ok key l) as [idx [_ Hidx _ Hall]]. destruct (Hall sk r El) as [i Hi]. apply Hidx in Hi as (kv & Hkv & <-).
    destruct (lastOf_is_Some key kv (dedupItems key l)) as [r' Hr']; [by eapply list_elem_of_lookup_2|]. rewrite Hr'.
    pose proof (lastOf_part key _ l _ _ (reflexivity _) Hr'). congruence.
  - destruct (lastOf key sk (dedupItems key l)) as [r|] eqn:Ed; [|done]. pose proof (lastOf_part key sk l _ _ (reflexivity _) Ed). congruence.
Qed.

Lemma dedup_nodup {A} (key : A → string) (l : list A) : NoDup (key <$> dedupItems key l).
Proof. destruct (dedupItems_ok key l) as [idx [Hnd _ _ _]]. done. Qed.

Section Batch.
Context {K V E E' D : Type} (keyFunc : K → string) (codec : Codec V E) `{!TotalCodec codec}.
Context (rows : D → rowTable) (now : D → Z).

(** Some rows of the deduplicated batch were written, all of them when there is no error. *)
Lemma writes_rows s s' (e : option E') ttl items p t :
  now s ≤ t ≤ now s' → p ⊆ dedupItems fst (pairsOf keyFunc codec items) → (e = None → p = dedupItems fst (pairsOf keyFunc codec items)) →
  rows s' = putRows (rows s) ((λ r, (r.1, (r.2, deadlineSec t ttl))) <$> p) → writes_all keyFunc codec rows now deadlineSec s items ttl s' e.
Proof.
  intros Ht Hp He Hr. split; [lia|]. intros sk. rewrite Hr, lookup_putRows, lastOf_fmap.
  change (fst ∘ (λ r : string * bytes, (r.1, (r.2, deadlineSec t ttl)))) with (fst : string * bytes → string).
  assert (lastOf fst sk (pairsOf keyFunc codec items) = (λ kv, (keyFunc kv.1, enc kv.2)) <$> lastOf (λ kv, keyFunc kv.1) sk items) as El by apply lastOf_fmap.
  destruct (lastOf fst sk p) as [r|] eqn:Ep.
  - apply (lastOf_part _ _ _ _ _ Hp) in Ep. rewrite El in Ep. destruct (lastOf _ sk items) as [[k v]|]; [|done]. injection Ep as <-. left. by exists t.
  - destruct (lastOf _ sk items) as [[k v]|]; [|done]. right. split; [|by left]. intros ->. rewrite (He eq_refl), lastOf_dedup, El in Ep. done.
Qed.

Lemma deletes_rows s s' (e : option E') ks p :
  now s ≤ now s' → p ⊆ keyFunc <$> ks → (e = None → p = keyFunc <$> ks) → rows s' = dropRows (rows s) p → deletes_all keyFunc rows now s ks s' e.
Proof.
  intros Hn Hp He Hr. split; [done|]. intros sk. rewrite Hr, lookup_dropRows. destruct (decide (sk ∈ p)) as [Hin|Hout].
  - rewrite decide_True by by apply Hp. by left.
  - case_decide as Hk; [|done]. right. split; [|done]. intros ->. by rewrite He in Hout.
Qed.
End Batch.

(** The rows of an answer in the order they come. *)
Lemma scanRows_spec {K V E Row} (codec : Codec V E) `{!TotalCodec codec} (scan : Row → E + string * bytes) by_ l err found :
  ∃ more e, scanRows (K := K) codec scan by_ l err found = (found ++ more, e) ∧
    (∀ k v, (k, v) ∈ more → ∃ row sk d, row ∈ l ∧ scan row = inr (sk, d) ∧ by_ !! sk = Some k ∧ v = dec d) ∧
    (e = None → err = None ∧ ∀ row, row ∈ l → ∃ sk d, scan row = inr (sk, d) ∧ ∀ k, by_ !! sk = Some k → (k, dec d) ∈ more).
Proof.
  revert found. induction l as [|row l IH]; intros found; cbn [scanRows].
  { exists [], err. rewrite app_nil_r. split_and!; [done|by intros k v ?%elem_of_nil|]. intros ->. split; [done|]. by intros row ?%elem_of_nil. }
  destruct (scan row) as [e|[sk d]] eqn:Es; [by exists [], (Some e); rewrite app_nil_r; split_and!; [done|intros k v ?%elem_of_nil|]|].
  destruct (by_ !! sk) as [k|] eqn:Ek.
  - rewrite Unmarshal_dec. destruct (IH (found ++ [(k, dec d)])) as (more & e & -> & Hin & Hall). exists ((k, dec d) :: more), e.
    split_and!; [by rewrite <- app_assoc| |].
    + intros k' v' [[= -> ->]|Hin']%elem_of_cons; [exists row, sk, d; set_solver|].
      destruct (Hin _ _ Hin') as (row' & sk' & d' & ? & ?). exists row', sk', d'. set_solver.
    + intros He. destruct (Hall He) as [? Hrows]. split; [done|]. intros row' [->|Hr]%elem_of_cons.
      * exists sk, d. split; [done|]. intros k' Hk'. rewrite Ek in Hk'. injection Hk' as ->. by left.
      * destruct (Hrows _ Hr) as (sk' & d' & ? & Hmore). exists sk', d'. split; [done|]. intros k' Hk'. right. by apply Hmore.
  - destruct (IH found) as (more & e & -> & Hin & Hall). exists more, e. split_and!; [done| |].
    + intros k' v' Hin'. destruct (Hin _ _ Hin') as (row' & sk' & d' & ? & ?). exists row', sk', d'. set_solver.
    + intros He. destruct (Hall He) as [? Hrows]. split; [done|]. intros row' [->|Hr]%elem_of_cons; [|by apply Hrows].
      exists sk, d. split; [done|]. intros k' Hk'. congruence.
Qed.

(** ** Prefixes *)

Lemma foldl_concat {A B} (f : B → A → B) m (ls : list (list A)) : foldl (λ m l, foldl f m l) m ls = foldl f m (concat ls).
Proof. revert m. induction ls as [|l ls IH]; intros m; [done|]. cbn. by rewrite foldl_app, IH. Qed.

Lemma prefix_concat {A} (p ls : list (list A)) : p `prefix_of` ls → concat p `prefix_of` concat ls.
Proof. intros [q ->]. rewrite concat_app. by eexists. Qed.

Lemma prefix_subset {A} (p l : list A) : p `prefix_of` l → p ⊆ l.
Proof. intros [q ->] x. set_solver. Qed.

(** ** The adapter *)

Section Adapter.
Context {K V E D Row : Type} `{!SqlDB D E Row} (c : sqlCache K V E) (Htexts : fixed_texts c) `{!TotalCodec (sqCodec c)}.
Context (rows : D → rowTable) `{!SqlLaws (sqTable c) (sqPh c) (sqUpsert c) rows}.
Abbreviation print := (printStmt (sqTable c) (sqPh c) (sqUpsert c)).
Abbreviation kf := (sqKeyFunc c).

Lemma effect_insert rs args m l : mapM (rowAt args) rs = Some l → NoDup l.*1 → effect (InsertRows rs) args m = Some (putRows m l).
Proof. intros Hl Hnd. unfold effect. rewrite Hl. cbn [mbind option_bind]. by rewrite decide_True. Qed.

Lemma exec_spec s st args m' :
  numbered st args → (length args ≤ engineLimit)%nat → effect st args (rows s) = Some m' →
  let '(s', e) := sqExec s (print st) args in sqlNow s ≤ sqlNow s' ∧ (rows s' = m' ∨ e ≠ None ∧ rows s' = rows s).
Proof.
  intros Hn Hl He. pose proof (sl_exec s st args m' Hn Hl He) as H. unfold sqExec. destruct (ExecContext s (print st) args) as [s' [e|n]];
    destruct H as [? H]; split; [done| |done|by left]. destruct H as [H|H]; [right; by split|by left].
Qed.

Lemma sqSet_writes s k v ttl : let '(s', e) := sqSet c s k v ttl in writes_all kf (sqCodec c) rows sqlNow deadlineSec s [(k, v)] ttl s' e.
Proof.
  unfold sqSet. rewrite Marshal_enc, (ft_set c Htexts).
  pose proof (exec_spec s (InsertRows [(1, 2, 3)]) [ArgText (kf k); ArgBlob (enc v); ArgInt (expiresAt s ttl)]
    (<[kf k := (enc v, expiresAt s ttl)]> (rows s)) eq_refl) as H.
  destruct (sqExec _ _ _) as [s' e]. destruct H as [Hn Hr]; [by vm_compute; lia| |].
  { apply (effect_insert _ _ _ [(kf k, (enc v, expiresAt s ttl))]); [done|apply NoDup_singleton]. }
  apply writes_single; [done|]. destruct Hr as [Hr|?]; [left|by right]. exists (sqlNow s). split; [lia|done].
Qed.

Lemma sqDelete_deletes s k : let '(s', e) := sqDelete c s k in deletes_all kf rows sqlNow s [k] s' e.
Proof.
  unfold sqDelete. rewrite (ft_delete c Htexts). pose proof (exec_spec s (DeleteKey 1) [ArgText (kf k)] (delete (kf k) (rows s)) eq_refl) as H.
  destruct (sqExec _ _ _) as [s' e]. destruct H as [Hn Hr]; [by vm_compute; lia|done|]. by apply deletes_single.
Qed.

(** Statements one after the other: the first few were executed, all of them when there is no error. *)
Lemma execAll_spec {A} query (args : A → list Arg) (st : nat → Stmt) (f : rowTable → list A → rowTable) chunks s :
  (∀ n, query n = print (st n)) →
  (∀ chunk, chunk ∈ chunks → numbered (st (length chunk)) (chunk ≫= args) ∧ (length (chunk ≫= args) ≤ engineLimit)%nat ∧
    ∀ m, effect (st (length chunk)) (chunk ≫= args) m = Some (f m chunk)) →
  let '(s', e) := execAll query args s chunks in
    sqlNow s ≤ sqlNow s' ∧ ∃ p, p `prefix_of` chunks ∧ rows s' = foldl f (rows s) p ∧ (e = None → p = chunks).
Proof.
  intros Hq. revert s. induction chunks as [|chunk chunks IH]; intros s Hc; cbn [execAll]; [split; [done|]; by exists []|].
  destruct (Hc chunk) as (Hn & Hl & He); [set_solver|]. rewrite Hq. pose proof (exec_spec s _ _ _ Hn Hl (He (rows s))) as H.
  destruct (sqExec s _ _) as [s1 [e|]]; destruct H as [Hnow Hr].
  - split; [done|]. destruct Hr as [Hr|[_ Hr]]; [exists [chunk]|exists []]; (split_and!; [|done|done]); [by exists chunks|apply prefix_nil].
  - destruct Hr as [Hr|[? _]]; [|done]. specialize (IH s1 (λ ch Hch, Hc ch (list_elem_of_further _ _ _ Hch))).
    destruct (execAll query args s1 chunks) as [s' e]. destruct IH as (Hnow' & p & Hp & Hr' & Hall). split; [lia|].
    exists (chunk :: p). split_and!; [by apply prefix_cons|by rewrite Hr', Hr|]. intros ->. by rewrite Hall.
Qed.

Lemma sqBatchDelete_deletes s ks : let '(s', e) := sqBatchDelete c s ks in deletes_all kf rows sqlNow s ks s' e.
Proof.
  unfold sqBatchDelete. assert (0 < maxStatementParams)%nat as Hpos by (by vm_compute; lia).
  opose proof* (execAll_spec (deleteInQuery c) (λ k, [ArgText k]) (λ n, DeleteIn (seqZ 1 (Z.of_nat n))) dropRows
    (chunksOf maxStatementParams (kf <$> ks)) s (deleteInQuery_print c)) as H.
  { intros chunk Hin. assert ((chunk ≫= λ k, [ArgText k]) = ArgText <$> chunk) as -> by (by induction chunk as [|?? IH]; [|cbn; f_equal; apply IH; set_solver]).
    apply (chunksOf_length _ Hpos) in Hin. unfold numbered. cbn [params]. rewrite length_fmap. split_and!; [done|by vm_compute in Hin |- *; lia|].
    intros m. cbn [effect]. pose proof (texts_at [] chunk [] 1 eq_refl) as Ht. rewrite app_nil_r in Ht. cbn [app] in Ht. by rewrite Ht. }
  destruct (execAll _ _ _ _) as [s' e]. destruct H as (Hn & p & Hp & Hr & Hall).
  apply (deletes_rows _ _ _ _ _ _ _ (concat p)); [done| | |].
  - rewrite <- (concat_chunksOf _ Hpos (kf <$> ks)). by apply prefix_subset, prefix_concat.
  - intros He. by rewrite (Hall He), concat_chunksOf.
  - rewrite Hr. exact (foldl_concat _ _ p).
Qed.

Lemma sqBatchSet_writes s items ttl : let '(s', e) := sqBatchSet c s items ttl in writes_all kf (sqCodec c) rows sqlNow deadlineSec s items ttl s' e.
Proof.
  destruct items as [|i0 items0] eqn:Ei; [by apply writes_nothing|]. unfold sqBatchSet. rewrite <- Ei. clear Ei.
  destruct (sqMultiRow c); cbn [negb]; [|exact (BatchSetSequential_writes kf (sqCodec c) rows sqlNow deadlineSec (L2Cache0 := sqSingles c) sqSet_writes items s ttl)].
  unfold sqBatchSetRows. rewrite (marshalAll_total kf (sqCodec c)). set (d := dedupItems fst (pairsOf kf (sqCodec c) items)).
  set (dl := expiresAt s ttl). assert (0 < maxStatementParams / 3)%nat as Hpos by (by vm_compute; lia).
  opose proof* (execAll_spec (insertQuery c) (rowArgs dl) (λ n, InsertRows (triple <$> seqZ 0 (Z.of_nat n)))
    (λ m chunk, putRows m ((λ r, (r.1, (r.2, dl))) <$> chunk)) (chunksOf (maxStatementParams / 3) d) s (insertQuery_print c)) as H.
  { intros chunk Hin. split_and!; [apply numbered_rows| |].
    - apply (chunksOf_length _ Hpos) in Hin. rewrite rowArgs_length. change (maxStatementParams / 3)%nat with 300%nat in Hin. unfold engineLimit. lia.
    - intros m. apply (effect_insert _ _ _ _ (rows_at dl [] chunk 0 eq_refl)).
      rewrite <- list_fmap_compose. apply (NoDup_concat_elem ((fmap fst : list (string * bytes) → list string) <$> chunksOf (maxStatementParams / 3) d)).
      + rewrite concat_fmap, concat_chunksOf by done. apply dedup_nodup.
      + apply list_elem_of_fmap. by exists chunk. }
  destruct (execAll _ _ _ _) as [s' e]. destruct H as (Hn & p & Hp & Hr & Hall).
  apply (writes_rows _ _ _ _ _ _ _ _ _ (concat p) (sqlNow s)); [lia| | |].
  - fold d. rewrite <- (concat_chunksOf _ Hpos d). by apply prefix_subset, prefix_concat.
  - intros He. by rewrite (Hall He), concat_chunksOf.
  - rewrite Hr. clear. unfold putRows. rewrite <- concat_fmap, <- foldl_concat. generalize (rows s). induction p as [|ch p IH]; intros m; [done|]. apply IH.
Qed.

Lemma sqGet_reads s k : let '(s', a) := sqGet c s k in reads_one kf (sqCodec c) rows sqlNow visibleSec s k s' a.
Proof.
  unfold sqGet. rewrite (ft_get c Htexts). pose proof (sl_one s [ArgText (kf k); ArgInt (unixNow s)] (kf k) 1 2 (unixNow s) eq_refl eq_refl) as H.
  destruct (QueryContext _ _ _) as [s' [e|[[|row l] err]]]; destruct H as (Hn & Hr & H).
  - by split_and!.
  - split_and!; [done..|]. cbn. intros -> v Hv. apply (shown_selects _ _ (sqlNow s)) in Hv as (d & Hd & _); [|done]. by destruct (proj2 H eq_refl eq_refl d).
  - destruct (scanValue row) as [e|d] eqn:Es; [by split_and!|]. rewrite Unmarshal_dec. destruct H as [H _].
    pose proof (H row d ltac:(set_solver) Es) as Hd. split_and!; [done|done| |]; cbn.
    + intros v [= <-]. by apply selects_shown.
    + intros _ v Hv. apply (shown_selects _ _ (sqlNow s)) in Hv as (d' & (dl' & Hd' & _) & ->); [|done]. destruct Hd as (dl & Hd & _). congruence.
Qed.

(** The hits of some chunks of a batch read. *)
Definition chunk_hits (m : rowTable) sec (by_ : gmap string K) (sks : list string) (hits : list (K * V)) (e : option E) : Prop :=
  (∀ k v, (k, v) ∈ hits → ∃ sk d, by_ !! sk = Some k ∧ selects m sec sk d ∧ v = dec d) ∧
  (e = None → ∀ sk k d, sk ∈ sks → by_ !! sk = Some k → selects m sec sk d → (k, dec d) ∈ hits).

Lemma getChunk_spec s chunk sec by_ found :
  (length chunk < maxStatementParams)%nat →
  ∃ s' more e, sqBatchGetChunk c s chunk sec by_ found = (s', (found ++ more, e)) ∧ sqlNow s ≤ sqlNow s' ∧ rows s' = rows s ∧
    chunk_hits (rows s) sec by_ chunk more e.
Proof.
  intros Hlen. unfold sqBatchGetChunk. rewrite selectQuery_print.
  opose proof* (sl_in s ((ArgText <$> chunk) ++ [ArgInt sec]) chunk (Z.of_nat (length chunk) + 1) (seqZ 1 (Z.of_nat (length chunk))) sec) as H.
  - unfold numbered. cbn [params]. rewrite length_app, length_fmap. cbn [length].
    replace (Z.of_nat (length chunk + 1)) with (Z.of_nat (length chunk) + 1) by lia. rewrite seqZ_app by lia. f_equal.
    rewrite (seqZ_cons _ 1) by lia. apply (f_equal2 cons); [lia|done].
  - rewrite length_app, length_fmap. cbn [length]. unfold maxStatementParams in Hlen. unfold engineLimit. lia.
  - cbn [selection]. pose proof (texts_at [] chunk [ArgInt sec] 1 eq_refl) as Ht. cbn [app] in Ht. rewrite Ht. cbn [mbind option_bind]. unfold intAt.
    by rewrite (argAt_app (ArgText <$> chunk) [ArgInt sec] _ 0) by (rewrite length_fmap; lia).
  - destruct (QueryContext _ _ _) as [s' [e|[l err]]]; destruct H as (Hn & Hr & H).
    { exists s', [], (Some e). rewrite app_nil_r. split_and!; [done..|]. split; [by intros k v ?%elem_of_nil|done]. }
    destruct H as [Hsound Hcomplete]. destruct (scanRows_spec (sqCodec c) scanPair by_ l err found) as (more & e & -> & Hin & Hall).
    exists s', more, e. split_and!; [done..|]. split.
    + intros k v (row & sk & d & Hrow & Hs & Hb & ->)%Hin. exists sk, d. split_and!; [done|by eapply Hsound|done].
    + intros He sk k d Hsk Hb Hd. destruct (Hall He) as [Herr Hrows]. destruct (Hcomplete Herr sk d Hsk Hd) as (row & Hrow & Hx).
      destruct (Hrows row Hrow) as (sk' & d' & Hs & Hk). apply Hx in Hs as Heq. injection Heq as -> ->. by apply Hk.
Qed.

Lemma getChunks_spec chunks s sec by_ found :
  Forall (λ chunk, length chunk < maxStatementParams)%nat chunks →
  ∃ s' more e, getChunks c s chunks sec by_ found = (s', (found ++ more, e)) ∧ sqlNow s ≤ sqlNow s' ∧ rows s' = rows s ∧
    chunk_hits (rows s) sec by_ (concat chunks) more e.
Proof.
  revert s found. induction chunks as [|chunk chunks IH]; intros s found Hall; cbn [getChunks].
  { exists s, [], None. rewrite app_nil_r. split_and!; [done..|]. split; [by intros k v ?%elem_of_nil|]. by intros _ sk k d ?%elem_of_nil. }
  apply Forall_cons in Hall as [Hlen Hall]. destruct (getChunk_spec s chunk sec by_ found Hlen) as (s1 & more & e & -> & Hn & Hr & [Hs Hc]).
  destruct e as [e|]; [by exists s1, more, (Some e); split_and!|].
  destruct (IH s1 (found ++ more) Hall) as (s' & more' & e & -> & Hn' & Hr' & [Hs' Hc']). rewrite Hr in *.
  exists s', (more ++ more'), e. split_and!; [by rewrite app_assoc|lia|done|]. split.
  - intros k v [?|?]%elem_of_app; [by apply Hs|by apply Hs'].
  - intros He sk k d [?|?]%elem_of_app Hb Hd; apply elem_of_app; [left; by eapply Hc|right; by eapply Hc'].
Qed.

Lemma sqBatchGet_reads s ks : let '(s', a) := sqBatchGet c s ks in reads_all kf (sqCodec c) rows sqlNow visibleSec s ks s' a.
Proof.
  unfold sqBatchGet. destruct ks as [|k0 ks0] eqn:Ek; [split_and!; [done|done|by intros k v ?%elem_of_nil|by intros _ k v ?%elem_of_nil]|]. rewrite <- Ek. clear Ek.
  pose proof (dedupKeys_spec kf ks) as [_ Hkeys Hby Hall]. destruct (dedupKeys kf ks) as [by_ sks]. cbn [fst snd] in *.
  assert (0 < maxStatementParams - 1)%nat as Hpos by (by vm_compute; lia).
  destruct (getChunks_spec (chunksOf (maxStatementParams - 1) sks) s (unixNow s) by_ []) as (s' & hits & e & -> & Hn & Hr & [Hs Hc]).
  { apply Forall_forall. intros chunk Hin%(chunksOf_length _ Hpos). unfold maxStatementParams in *. lia. }
  rewrite concat_chunksOf in Hc by done. split_and!; [done|done| |]; cbn.
  - intros k v (sk & d & [Hk <-]%Hby & Hd & ->)%Hs. split; [done|by apply selects_shown].
  - intros -> k v Hk Hv. apply (shown_selects _ _ (sqlNow s)) in Hv as (d & Hd & ->); [|done]. pose proof Hk as [k' Hk']%Hall%Hkeys.
    exists k'. split; [by apply Hby in Hk' as [_ ?]|]. apply (Hc eq_refl (kf k)); [by apply Hall|done|done].
Qed.

Lemma sql_lawful : timed_lawful kf (sqCodec c) rows sqlNow visibleSec deadlineSec true (sqlL2 c).
Proof.
  split; intros; cbn [l2Get l2BatchGet l2Set l2BatchSet l2Delete l2BatchDelete sqlL2].
  - apply sqGet_reads.
  - apply sqBatchGet_reads.
  - apply sqSet_writes.
  - apply sqBatchSet_writes.
  - apply sqDelete_deletes.
  - apply sqBatchDelete_deletes.
Qed.

(** The reaper removes no row that a read from then on would see. *)
Lemma DeleteExpired_invisible s :
  let '(s', _) := DeleteExpired c s in
  sqlNow s ≤ sqlNow s' ∧ ∀ t sk v, sqlNow s ≤ t → shown (sqCodec c) visibleSec (rows s') t sk v ↔ shown (sqCodec c) visibleSec (rows s) t sk v.
Proof.
  unfold DeleteExpired. rewrite (ft_reap c Htexts).
  pose proof (sl_exec s (Reap 1) [ArgInt (unixNow s)] (filter (λ kv, seen (unixNow s) kv.2.2) (rows s)) eq_refl) as H.
  destruct (ExecContext _ _ _) as [s' r]. destruct H as [Hn H]; [by vm_compute; lia|done|]. split; [done|]. intros t sk v Ht.
  destruct r as [e|n]; [destruct H as [-> | ->]; [done|]|rewrite H]; by apply reap_shown.
Qed.
End Adapter.
