(* ===== verification/Pgx.v ===== *)
(** * The pgx adapter (l2/pgx_adapter/pgx.go)

    A batch is one statement whose parameters are arrays. *)

From stdpp Require Import strings gmap.
From S2P Require Import Prelude Expiry Config CacheState Snapshot L2Util Redis KvStore Strconv Dedup Sql TimedStore SqlLaws.

Inductive PgArg := PgText (s : string) | PgBytea (b : bytes) | PgInt (x : Z) | PgTexts (l : list string) | PgByteas (l : list bytes) | PgInts (l : list Z).

(** [QueryRow(...).Scan] answers [None] for [pgx.ErrNoRows]. *)
Class PgxDB (D E Row : Type) := {
  pgNow : D → Z;
  pgExec : D → string → list PgArg → D * (E + Z);
  QueryRow : D → string → list PgArg → D * (E + option bytes);
  Query : D → string → list PgArg → D * (E + list Row * option E);
  pgScan : Row → E + string * bytes
}.

Definition pgDefaultTable : string := "memstash_cache".

Definition pgCreateTableSQL (tableName : string) : string :=
  let tableName := if decide (tableName = "") then pgDefaultTable else tableName in
  "CREATE TABLE IF NOT EXISTS " +:+ tableName +:+ " (cache_key TEXT PRIMARY KEY, value BYTEA, expires_at BIGINT NOT NULL DEFAULT 0)".

Record pgxCache (K V E : Type) := mkPgx {
  pgCodec : Codec V E; pgKeyFunc : K → string;
  pgGetQuery : string; pgSetQuery : string; pgDeleteQuery : string; pgReapQuery : string;
  batchGetQuery : string; batchSetQuery : string; batchDeleteQuery : string
}.
Arguments mkPgx {K V E}.
Arguments pgCodec {K V E}.
Arguments pgKeyFunc {K V E}.
Arguments pgGetQuery {K V E}.
Arguments pgSetQuery {K V E}.
Arguments pgDeleteQuery {K V E}.
Arguments pgReapQuery {K V E}.
Arguments batchGetQuery {K V E}.
Arguments batchSetQuery {K V E}.
Arguments batchDeleteQuery {K V E}.

Section Pgx.
Context {K V E D Row : Type} `{!PgxDB D E Row}.

Definition pgNew (isString : option (K → string)) (db : bool) (codec : option (Codec V E)) (tableName : string)
    (keyOpts : list (@keyOption K string)) : UtilError + pgxCache K V E :=
  match db, codec with
  | false, _ => inl ErrNilClient
  | _, None => inl ErrNilCodec
  | true, Some codec =>
    let tableName := if decide (tableName = "") then pgDefaultTable else tableName in
    match ExtractKeyFunc isString keyOpts with
    | inl err => inl err
    | inr keyFunc =>
      inr (mkPgx codec keyFunc
        ("SELECT value FROM " +:+ tableName +:+ " WHERE cache_key = $1 AND (expires_at = 0 OR expires_at > $2)")
        ("INSERT INTO " +:+ tableName +:+ " (cache_key, value, expires_at) VALUES ($1, $2, $3)" +:+
         " ON CONFLICT (cache_key) DO UPDATE SET value = EXCLUDED.value, expires_at = EXCLUDED.expires_at")
        ("DELETE FROM " +:+ tableName +:+ " WHERE cache_key = $1")
        ("DELETE FROM " +:+ tableName +:+ " WHERE expires_at <> 0 AND expires_at <= $1")
        ("SELECT cache_key, value FROM " +:+ tableName +:+ " WHERE cache_key = ANY($1) AND (expires_at = 0 OR expires_at > $2)")
        ("INSERT INTO " +:+ tableName +:+ " (cache_key, value, expires_at)" +:+
         " SELECT * FROM unnest($1::text[], $2::bytea[], $3::bigint[])" +:+
         " ON CONFLICT (cache_key) DO UPDATE SET value = EXCLUDED.value, expires_at = EXCLUDED.expires_at")
        ("DELETE FROM " +:+ tableName +:+ " WHERE cache_key = ANY($1)"))
    end
  end.

Context (c : pgxCache K V E).
Implicit Types (s : D) (key : K) (keys : list K) (value : V) (items : list (K * V)) (ttl : Z).

Definition pgUnix s : Z := pgNow s / second.

Definition pgExpiresAt s ttl : Z := if ttl <=? 0 then 0 else (pgNow s + ttl) / second.

Definition pgRun s (query : string) (args : list PgArg) : D * option E :=
  let '(s, r) := pgExec s query args in (s, match r with inl e => Some e | inr _ => None end).

Definition pgGet s key : D * (option V * option E) :=
  let '(s, r) := QueryRow s (pgGetQuery c) [PgText (pgKeyFunc c key); PgInt (pgUnix s)] in
  match r with
  | inl e => (s, (None, Some e))
  | inr None => (s, (None, None))
  | inr (Some data) => match Unmarshal (pgCodec c) data with inl e => (s, (None, Some e)) | inr value => (s, (Some value, None)) end
  end.

Definition pgSet s key value ttl : D * option E :=
  match Marshal (pgCodec c) value with
  | inl e => (s, Some e)
  | inr data => pgRun s (pgSetQuery c) [PgText (pgKeyFunc c key); PgBytea data; PgInt (pgExpiresAt s ttl)]
  end.

Definition pgDelete s key : D * option E := pgRun s (pgDeleteQuery c) [PgText (pgKeyFunc c key)].

Definition pgBatchGet s keys : D * (list (K * V) * option E) :=
  match keys with
  | [] => (s, ([], None))
  | _ =>
    let '(byStorageKey, storageKeys) := dedupKeys (pgKeyFunc c) keys in
    let '(s, r) := Query s (batchGetQuery c) [PgTexts storageKeys; PgInt (pgUnix s)] in
    match r with inl e => (s, ([], Some e)) | inr (rows, err) => (s, scanRows (pgCodec c) pgScan byStorageKey rows err []) end
  end.

(** The keys and the values are two slices filled together. *)
Definition pgBatchSet s items ttl : D * option E :=
  match items with
  | [] => (s, None)
  | _ =>
    match marshalAll (pgKeyFunc c) (pgCodec c) items with
    | inl e => (s, Some e)
    | inr pairs =>
      let rows := dedupItems fst pairs in
      pgRun s (batchSetQuery c) [PgTexts rows.*1; PgByteas rows.*2; PgInts (replicate (length rows) (pgExpiresAt s ttl))]
    end
  end.

Definition pgBatchDelete s keys : D * option E :=
  match keys with [] => (s, None) | _ => pgRun s (batchDeleteQuery c) [PgTexts (pgKeyFunc c <$> keys)] end.

Definition pgDeleteExpired s : D * (E + Z) := pgExec s (pgReapQuery c) [PgInt (pgUnix s)].

Definition pgxL2 : L2Cache K V D E := {|
  l2Get := pgGet; l2BatchGet := pgBatchGet; l2Set := pgSet; l2BatchSet := pgBatchSet; l2Delete := pgDelete; l2BatchDelete := pgBatchDelete
|}.
End Pgx.

(** ** The pgx adapter keeps its promise

    The adapter's statements, their texts and their meaning on a table, and every operation against a database that does
    what they mean, or fails. *)

Inductive PgStmt := PgSelectOne | PgSelectAny | PgUpsert | PgUpsertAll | PgDeleteOne | PgDeleteAny | PgReap.

Definition onConflict : string := " ON CONFLICT (cache_key) DO UPDATE SET value = EXCLUDED.value, expires_at = EXCLUDED.expires_at".

Definition pgQuery (tbl : string) (st : PgStmt) : string :=
  match st with
  | PgSelectOne => "SELECT value FROM " +:+ tbl +:+ " WHERE cache_key = $1 AND (expires_at = 0 OR expires_at > $2)"
  | PgSelectAny => "SELECT cache_key, value FROM " +:+ tbl +:+ " WHERE cache_key = ANY($1) AND (expires_at = 0 OR expires_at > $2)"
  | PgUpsert => "INSERT INTO " +:+ tbl +:+ " (cache_key, value, expires_at) VALUES ($1, $2, $3)" +:+ onConflict
  | PgUpsertAll => "INSERT INTO " +:+ tbl +:+ " (cache_key, value, expires_at) SELECT * FROM unnest($1::text[], $2::bytea[], $3::bigint[])" +:+ onConflict
  | PgDeleteOne => "DELETE FROM " +:+ tbl +:+ " WHERE cache_key = $1"
  | PgDeleteAny => "DELETE FROM " +:+ tbl +:+ " WHERE cache_key = ANY($1)"
  | PgReap => "DELETE FROM " +:+ tbl +:+ " WHERE expires_at <> 0 AND expires_at <= $1"
  end.

(** [unnest] of arrays of one length gives their rows; an upsert that names a key twice is rejected. *)
Definition pgEffect (st : PgStmt) (args : list PgArg) (m : rowTable) : option rowTable :=
  match st, args with
  | PgUpsert, [PgText k; PgBytea d; PgInt dl] => Some (<[k := (d, dl)]> m)
  | PgUpsertAll, [PgTexts ks; PgByteas ds; PgInts dls] =>
    if decide (NoDup ks ∧ length ks = length ds ∧ length ds = length dls) then Some (putRows m (zip ks (zip ds dls))) else None
  | PgDeleteOne, [PgText k] => Some (delete k m)
  | PgDeleteAny, [PgTexts ks] => Some (dropRows m ks)
  | PgReap, [PgInt n] => Some (filter (λ kv, seen n kv.2.2) m)
  | _, _ => None
  end.

Class PgxLaws {D E Row : Type} `{!PgxDB D E Row} (tbl : string) (rows : D → rowTable) : Prop := {
  pl_exec s st args m' :
    pgEffect st args (rows s) = Some m' →
    let '(s', r) := pgExec s (pgQuery tbl st) args in
    pgNow s ≤ pgNow s' ∧ match r with inr _ => rows s' = m' | inl _ => rows s' = rows s ∨ rows s' = m' end;
  pl_one s k sec :
    let '(s', r) := QueryRow s (pgQuery tbl PgSelectOne) [PgText k; PgInt sec] in
    pgNow s ≤ pgNow s' ∧ rows s' = rows s ∧
    match r with inl _ => True | inr None => ∀ d, ¬ selects (rows s) sec k d | inr (Some d) => selects (rows s) sec k d end;
  pl_any s ks sec :
    let '(s', r) := Query s (pgQuery tbl PgSelectAny) [PgTexts ks; PgInt sec] in
    pgNow s ≤ pgNow s' ∧ rows s' = rows s ∧
    match r with
    | inl _ => True
    | inr (l, err) =>
      (∀ row k d, row ∈ l → pgScan row = inr (k, d) → k ∈ ks ∧ selects (rows s) sec k d) ∧
      (err = None → ∀ k d, k ∈ ks → selects (rows s) sec k d → ∃ row, row ∈ l ∧ ∀ x, pgScan row = inr x → x = (k, d))
    end
}.

(** The statements of a cache made by [New] for a table. *)
Record pg_texts {K V E} (tbl : string) (c : pgxCache K V E) : Prop := {
  pt_get : pgGetQuery c = pgQuery tbl PgSelectOne;
  pt_set : pgSetQuery c = pgQuery tbl PgUpsert;
  pt_delete : pgDeleteQuery c = pgQuery tbl PgDeleteOne;
  pt_reap : pgReapQuery c = pgQuery tbl PgReap;
  pt_batchGet : batchGetQuery c = pgQuery tbl PgSelectAny;
  pt_batchSet : batchSetQuery c = pgQuery tbl PgUpsertAll;
  pt_batchDelete : batchDeleteQuery c = pgQuery tbl PgDeleteAny
}.

Lemma pgNew_texts {K V E} isString db codec tbl opts (c : pgxCache K V E) :
  pgNew isString db codec tbl opts = inr c → pg_texts (if decide (tbl = "") then pgDefaultTable else tbl) c.
Proof.
  unfold pgNew. destruct db, codec as [codec|]; try done. destruct (ExtractKeyFunc isString opts) as [?|kf]; [done|]. intros [= <-].
  by split.
Qed.

Section Adapter.
Context {K V E D Row : Type} `{!PgxDB D E Row} (tbl : string) (c : pgxCache K V E) (Htexts : pg_texts tbl c) `{!TotalCodec (pgCodec c)}.
Context (rows : D → rowTable) `{!PgxLaws tbl rows}.
Abbreviation kf := (pgKeyFunc c).

Lemma pgRun_spec s st args m' :
  pgEffect st args (rows s) = Some m' →
  let '(s', e) := pgRun s (pgQuery tbl st) args in pgNow s ≤ pgNow s' ∧ (rows s' = m' ∨ e ≠ None ∧ rows s' = rows s).
Proof.
  intros He. pose proof (pl_exec s st args m' He) as H. unfold pgRun. destruct (pgExec s _ args) as [s' [e|n]];
    destruct H as [? H]; split; [done| |done|by left]. destruct H as [H|H]; [right; by split|by left].
Qed.

Lemma pgBatchSet_writes s items ttl : let '(s', e) := pgBatchSet c s items ttl in writes_all kf (pgCodec c) rows pgNow deadlineSec s items ttl s' e.
Proof.
  destruct items as [|i0 items0] eqn:Ei; [by apply writes_nothing|]. unfold pgBatchSet. rewrite <- Ei. clear Ei.
  rewrite (marshalAll_total kf (pgCodec c)), (pt_batchSet tbl c Htexts). set (d := dedupItems fst (pairsOf kf (pgCodec c) items)).
  assert (zip d.*1 (zip d.*2 (replicate (length d) (pgExpiresAt s ttl))) = (λ r, (r.1, (r.2, deadlineSec (pgNow s) ttl))) <$> d) as Hz.
  { clear. induction d as [|[k b] d IH]; [done|]. cbn. f_equal. exact IH. }
  opose proof* (pgRun_spec s PgUpsertAll [PgTexts d.*1; PgByteas d.*2; PgInts (replicate (length d) (pgExpiresAt s ttl))]) as H.
  { cbn [pgEffect]. apply decide_True. split; [apply dedup_nodup|]. by rewrite !length_fmap, length_replicate. }
  rewrite Hz in H. destruct (pgRun _ _ _) as [s' e]. destruct H as [Hn [Hr|[He Hr]]]; [|by apply writes_nothing].
  by apply (writes_rows _ _ _ _ _ _ _ _ _ d (pgNow s)); [lia| | |].
Qed.

Lemma pgBatchGet_reads s ks : let '(s', a) := pgBatchGet c s ks in reads_all kf (pgCodec c) rows pgNow visibleSec s ks s' a.
Proof.
  unfold pgBatchGet. destruct ks as [|k0 ks0] eqn:Ek; [split_and!; [done|done|by intros k v ?%elem_of_nil|by intros _ k v ?%elem_of_nil]|].
  rewrite <- Ek. clear Ek. pose proof (dedupKeys_spec kf ks) as [_ Hkeys Hby Hall]. destruct (dedupKeys kf ks) as [by_ sks]. cbn [fst snd] in *.
  rewrite (pt_batchGet tbl c Htexts). pose proof (pl_any s sks (pgUnix s)) as H.
  destruct (Query _ _ _) as [s' [e|[l err]]]; destruct H as (Hn & Hr & H); [by split_and!; [..|intros k v ?%elem_of_nil|]|].
  destruct H as [Hsound Hcomplete]. destruct (scanRows_spec (pgCodec c) pgScan by_ l err []) as (more & e & -> & Hin & Hrows).
  split_and!; [done|done| |]; cbn.
  - intros k v (row & sk & d & Hrow & Hs & [Hk <-]%Hby & ->)%Hin. destruct (Hsound _ _ _ Hrow Hs) as [_ Hd]. split; [done|by apply selects_shown].
  - intros -> k v Hk Hv. apply (shown_selects _ _ (pgNow s)) in Hv as (d & Hd & ->); [|done]. destruct (Hrows eq_refl) as [Herr Hscan].
    destruct (Hcomplete Herr (kf k) d (Hall k Hk) Hd) as (row & Hrow & Hx). destruct (Hscan row Hrow) as (sk & d' & Hs & Hmore).
    apply Hx in Hs as Heq. injection Heq as -> ->. destruct (proj1 (Hkeys (kf k)) (Hall k Hk)) as [k' Hk']. exists k'.
    split; [by apply Hby in Hk' as [_ ?]|by apply Hmore].
Qed.

Lemma pgx_lawful : timed_lawful kf (pgCodec c) rows pgNow visibleSec deadlineSec true (pgxL2 c).
Proof.
  split; cbn [l2Get l2BatchGet l2Set l2BatchSet l2Delete l2BatchDelete pgxL2].
  - intros s k. unfold pgGet. rewrite (pt_get tbl c Htexts). pose proof (pl_one s (kf k) (pgUnix s)) as H.
    destruct (QueryRow _ _ _) as [s' [e|[d|]]]; destruct H as (Hn & Hr & H); [by split_and!| |].
    + rewrite Unmarshal_dec. split_and!; [done|done| |]; cbn; [intros v [= <-]; by apply selects_shown|]. intros _ v Hv.
      apply (shown_selects _ _ (pgNow s)) in Hv as (d' & (dl' & Hd' & _) & ->); [|done]. destruct H as (dl & Hd & _). congruence.
    + split_and!; [done..|]. cbn. intros _ v Hv. apply (shown_selects _ _ (pgNow s)) in Hv as (d & Hd & _); [|done]. by destruct (H d).
  - apply pgBatchGet_reads.
  - intros s k v ttl. unfold pgSet. rewrite Marshal_enc, (pt_set tbl c Htexts).
    pose proof (pgRun_spec s PgUpsert [PgText (kf k); PgBytea (enc v); PgInt (pgExpiresAt s ttl)] _ eq_refl) as H.
    destruct (pgRun _ _ _) as [s' e]. destruct H as [Hn Hr]. apply writes_single; [done|]. destruct Hr as [Hr|?]; [left|by right].
    exists (pgNow s). split; [lia|done].
  - apply pgBatchSet_writes.
  - intros s k. unfold pgDelete. rewrite (pt_delete tbl c Htexts). pose proof (pgRun_spec s PgDeleteOne [PgText (kf k)] _ eq_refl) as H.
    destruct (pgRun _ _ _) as [s' e]. destruct H. by apply deletes_single.
  - intros s [|k0 ks0]; [by apply deletes_nothing|]. unfold pgBatchDelete. rewrite (pt_batchDelete tbl c Htexts).
    pose proof (pgRun_spec s PgDeleteAny [PgTexts (kf <$> k0 :: ks0)] _ eq_refl) as H. destruct (pgRun _ _ _) as [s' e].
    destruct H as [Hn [Hr|[He Hr]]]; [|by apply deletes_nothing]. by apply (deletes_rows _ _ _ _ _ _ _ (kf <$> k0 :: ks0)).
Qed.

Lemma pgDeleteExpired_invisible s :
  let '(s', _) := pgDeleteExpired c s in
  pgNow s ≤ pgNow s' ∧ ∀ t sk v, pgNow s ≤ t → shown (pgCodec c) visibleSec (rows s') t sk v ↔ shown (pgCodec c) visibleSec (rows s) t sk v.
Proof.
  unfold pgDeleteExpired. rewrite (pt_reap tbl c Htexts). pose proof (pl_exec s PgReap [PgInt (pgUnix s)] _ eq_refl) as H.
  destruct (pgExec _ _ _) as [s' r]. destruct H as [Hn H]. split; [done|]. intros t sk v Ht.
  destruct r as [e|n]; [destruct H as [-> | ->]; [done|]|rewrite H]; by apply reap_shown.
Qed.
End Adapter.
