(* ===== verification/Mongo.v ===== *)
(** * The MongoDB adapter (l2/mongo_adapter/mongo.go)

    The collection, the driver and the wall clock are the world [D]; a document that is decoded has no [ExpireAt]
    when the field is absent, Go's zero time. *)

From stdpp Require Import strings gmap.
From S2P Require Import Prelude Expiry Config CacheState Snapshot L2Util Redis KvStore Dedup Sql TimedStore SqlLaws.

Record doc := mkDoc { docID : string; docValue : bytes; docExpireAt : option Z }.

(** The update documents of the adapter: the new value, and [Some] date to set or [None] to unset the expiry. *)
Record update := mkUpdate { setValue : bytes; setExpireAt : option Z; unsetExpireAt : bool }.

(** [FindOne] answers [None] for [mongo.ErrNoDocuments]; [UpdateOne] and the models of a bulk write upsert. *)
Class MongoCollection (D E : Type) := {
  mgNow : D → Z;
  FindOne : D → string → D * (E + option doc);
  UpdateOne : D → string → update → D * option E;
  DeleteOne : D → string → D * option E;
  DeleteMany : D → list string → D * option E;
  Find : D → list string → D * (E + list doc);
  BulkWrite : D → list (string * update) → D * option E;
  CreateTTLIndex : D → string → Z → D * option E
}.

Record mongoCache (K V E : Type) := mkMongo { mgCodec : Codec V E; mgKeyFunc : K → string }.
Arguments mkMongo {K V E}.
Arguments mgCodec {K V E}.
Arguments mgKeyFunc {K V E}.

Definition mgNew {K V E} (isString : option (K → string)) (coll : bool) (codec : option (Codec V E))
    (keyOpts : list (@keyOption K string)) : UtilError + mongoCache K V E :=
  match coll, codec with
  | false, _ => inl ErrNilClient
  | _, None => inl ErrNilCodec
  | true, Some codec => match ExtractKeyFunc isString keyOpts with inl err => inl err | inr keyFunc => inr (mkMongo codec keyFunc) end
  end.

Definition isExpired (now : Z) (d : doc) : bool := match docExpireAt d with None => false | Some at_ => at_ <? now end.

Section Mongo.
Context {K V E D : Type} `{!MongoCollection D E} (c : mongoCache K V E).
Implicit Types (s : D) (key : K) (keys : list K) (value : V) (items : list (K * V)) (ttl : Z).

Definition EnsureTTLIndex s : D * option E := CreateTTLIndex s "expireAt" 0.

Definition updateDoc s value ttl : E + update :=
  match Marshal (mgCodec c) value with
  | inl e => inl e
  | inr data => inr (if 0 <? ttl then mkUpdate data (Some (mgNow s + ttl)) false else mkUpdate data None true)
  end.

Definition mgGet s key : D * (option V * option E) :=
  let '(s, r) := FindOne s (mgKeyFunc c key) in
  match r with
  | inl e => (s, (None, Some e))
  | inr None => (s, (None, None))
  | inr (Some d) =>
    if isExpired (mgNow s) d then (s, (None, None))
    else match Unmarshal (mgCodec c) (docValue d) with inl e => (s, (None, Some e)) | inr value => (s, (Some value, None)) end
  end.

Definition mgSet s key value ttl : D * option E :=
  match updateDoc s value ttl with inl e => (s, Some e) | inr update => UpdateOne s (mgKeyFunc c key) update end.

Definition mgDelete s key : D * option E := DeleteOne s (mgKeyFunc c key).

Definition mgBatchDelete s keys : D * option E :=
  match keys with [] => (s, None) | _ => DeleteMany s (mgKeyFunc c <$> keys) end.

Fixpoint readDocs (byStorageKey : gmap string K) (now : Z) (docs : list doc) (found : list (K * V)) : list (K * V) * option E :=
  match docs with
  | [] => (found, None)
  | d :: docs =>
    if isExpired now d then readDocs byStorageKey now docs found
    else
      match byStorageKey !! docID d with
      | None => readDocs byStorageKey now docs found
      | Some key =>
        match Unmarshal (mgCodec c) (docValue d) with
        | inl e => (found, Some e)
        | inr value => readDocs byStorageKey now docs (found ++ [(key, value)])
        end
      end
  end.

(** The last key of each storage key. *)
Definition byStorage keys : gmap string K := foldl (λ m key, <[mgKeyFunc c key := key]> m) ∅ keys.

Definition mgBatchGet s keys : D * (list (K * V) * option E) :=
  match keys with
  | [] => (s, ([], None))
  | _ =>
    let '(s, r) := Find s (mgKeyFunc c <$> keys) in
    match r with inl e => (s, ([], Some e)) | inr docs => (s, readDocs (byStorage keys) (mgNow s) docs []) end
  end.

(** The update of every item, up to the first value that cannot be encoded. *)
Fixpoint updates s items ttl : E + list (string * update) :=
  match items with
  | [] => inr []
  | (key, value) :: items =>
    match updateDoc s value ttl with
    | inl e => inl e
    | inr update => match updates s items ttl with inl e => inl e | inr l => inr ((mgKeyFunc c key, update) :: l) end
    end
  end.

Definition mgBatchSet s items ttl : D * option E :=
  match items with
  | [] => (s, None)
  | _ => match updates s items ttl with inl e => (s, Some e) | inr models => BulkWrite s (dedupItems fst models) end
  end.

Definition mongoL2 : L2Cache K V D E := {|
  l2Get := mgGet; l2BatchGet := mgBatchGet; l2Set := mgSet; l2BatchSet := mgBatchSet; l2Delete := mgDelete; l2BatchDelete := mgBatchDelete
|}.
End Mongo.

(** ** The MongoDB adapter keeps its promise *)

(** BSON dates count milliseconds. *)
Definition bsonDate (t : Z) : Z := t / millisecond * millisecond.

Definition visibleDate (t : Z) (dl : option Z) : bool := match dl with None => true | Some at_ => negb (at_ <? t) end.
Definition deadlineDate (t ttl : Z) : option Z := if 0 <? ttl then Some (bsonDate (t + ttl)) else None.

Abbreviation docTable := (gmap string (bytes * option Z)).

(** An update sets the value and sets, clears or keeps the expiry. *)
Definition applyUpdate (u : update) (old : option (bytes * option Z)) : bytes * option Z :=
  (setValue u, match setExpireAt u with Some at_ => Some (bsonDate at_) | None => if unsetExpireAt u then None else old ≫= snd end).

Definition docOf (k : string) (r : bytes * option Z) : doc := mkDoc k r.1 r.2.

(** What the collection does.  [rows] has the documents the TTL monitor removed still in it: it removes only expired
    ones, which the adapter does not show either.  A bulk write that fails has done some of its models. *)
Class MongoLaws {D E : Type} `{!MongoCollection D E} (rows : D → docTable) : Prop := {
  ml_findOne s k :
    let '(s', r) := FindOne s k in mgNow s ≤ mgNow s' ∧ rows s' = rows s ∧
    match r with
    | inl _ => True
    | inr (Some d) => ∃ row, rows s !! k = Some row ∧ d = docOf k row
    | inr None => ∀ d dl, rows s !! k = Some (d, dl) → visibleDate (mgNow s') dl = false
    end;
  ml_find s ks :
    let '(s', r) := Find s ks in mgNow s ≤ mgNow s' ∧ rows s' = rows s ∧
    match r with
    | inl _ => True
    | inr docs =>
      (∀ d, d ∈ docs → ∃ k row, k ∈ ks ∧ rows s !! k = Some row ∧ d = docOf k row) ∧
      (∀ k d dl, k ∈ ks → rows s !! k = Some (d, dl) → visibleDate (mgNow s') dl = true → docOf k (d, dl) ∈ docs)
    end;
  ml_update s k u :
    let '(s', e) := UpdateOne s k u in mgNow s ≤ mgNow s' ∧
    ((∃ old, (old = rows s !! k ∨ old = None) ∧ rows s' = <[k := applyUpdate u old]> (rows s)) ∨ e ≠ None ∧ rows s' = rows s);
  ml_bulk s models :
    NoDup models.*1 →
    let '(s', e) := BulkWrite s models in mgNow s ≤ mgNow s' ∧
    ∀ k, match (list_to_map models : gmap string update) !! k with
      | None => rows s' !! k = rows s !! k
      | Some u => (∃ old, (old = rows s !! k ∨ old = None) ∧ rows s' !! k = Some (applyUpdate u old)) ∨ e ≠ None ∧ rows s' !! k = rows s !! k
      end;
  ml_delete s k :
    let '(s', e) := DeleteOne s k in mgNow s ≤ mgNow s' ∧ (rows s' = delete k (rows s) ∨ e ≠ None ∧ rows s' = rows s);
  ml_deleteMany s ks :
    let '(s', e) := DeleteMany s ks in mgNow s ≤ mgNow s' ∧
    ∀ k, if decide (k ∈ ks) then rows s' !! k = None ∨ e ≠ None ∧ rows s' !! k = rows s !! k else rows s' !! k = rows s !! k
}.

Lemma visibleDate_earlier t t' dl : t ≤ t' → visibleDate t' dl = true → visibleDate t dl = true.
Proof. unfold visibleDate. destruct dl as [a|]; [|done]. rewrite !negb_true_iff, !Z.ltb_ge. lia. Qed.

Lemma not_expired now d : isExpired now d = negb (visibleDate now (docExpireAt d)).
Proof. unfold isExpired, visibleDate. destruct (docExpireAt d); [by rewrite negb_involutive|done]. Qed.

Lemma list_to_map_lastOf {A} (l : list (string * A)) k : NoDup l.*1 → (list_to_map l : gmap string A) !! k = snd <$> lastOf fst k l.
Proof.
  induction l as [|[k' x] l IH]; [done|]. rewrite fmap_cons, NoDup_cons, lastOf_cons. intros [Hk Hnd]. cbn [list_to_map foldr uncurry fst snd].
  destruct (decide (k' = k)) as [->|Hne]; [rewrite lookup_insert_eq|rewrite lookup_insert_ne, IH by done; by destruct (lastOf fst k l)].
  destruct (lastOf fst k l) as [r|] eqn:Er; [|done]. apply lastOf_key in Er as [Hin <-]. destruct Hk. apply list_elem_of_fmap. by exists r.
Qed.

Section Adapter.
Context {K V E D : Type} `{!MongoCollection D E} (c : mongoCache K V E) `{!TotalCodec (mgCodec c)}.
Context (rows : D → docTable) `{!MongoLaws rows}.
Abbreviation kf := (mgKeyFunc c).

Definition updateOf s (v : V) ttl : update := if 0 <? ttl then mkUpdate (enc v) (Some (mgNow s + ttl)) false else mkUpdate (enc v) None true.

Lemma updateDoc_total s v ttl : updateDoc c s v ttl = inr (updateOf s v ttl).
Proof. unfold updateDoc. by rewrite Marshal_enc. Qed.

(** The adapter's updates leave nothing of the old document. *)
Lemma applyUpdate_of s v ttl old : applyUpdate (updateOf s v ttl) old = (enc v, deadlineDate (mgNow s) ttl).
Proof. unfold updateOf, deadlineDate. by destruct (0 <? ttl). Qed.

Lemma updates_total s items ttl : updates c s items ttl = inr ((λ kv, (kf kv.1, updateOf s kv.2 ttl)) <$> items).
Proof. induction items as [|[k v] items IH]; [done|]. cbn. by rewrite updateDoc_total, IH. Qed.

Lemma byStorage_spec keys : byStorage c keys = (dedupKeys kf keys).1.
Proof.
  unfold byStorage, dedupKeys. induction keys as [|k keys IH] using rev_ind; [done|]. rewrite !foldl_app. cbn [foldl fst]. by rewrite IH.
Qed.

Lemma readDocs_spec by_ now docs found :
  ∃ more, readDocs c by_ now docs found = (found ++ more, None) ∧
    ∀ k v, (k, v) ∈ more ↔ ∃ d, d ∈ docs ∧ visibleDate now (docExpireAt d) = true ∧ by_ !! docID d = Some k ∧ v = dec (docValue d).
Proof.
  revert found. induction docs as [|d docs IH]; intros found; cbn [readDocs].
  { exists []. rewrite app_nil_r. split; [done|]. intros k v. split; [by intros ?%elem_of_nil|]. by intros (d & ?%elem_of_nil & _). }
  rewrite not_expired. destruct (visibleDate now (docExpireAt d)) eqn:Ev; cbn [negb].
  - destruct (by_ !! docID d) as [k0|] eqn:Eb.
    + rewrite Unmarshal_dec. destruct (IH (found ++ [(k0, dec (docValue d))])) as (more & -> & Hm). exists ((k0, dec (docValue d)) :: more).
      split; [by rewrite <- app_assoc|]. intros k v. rewrite elem_of_cons, Hm. split.
      * intros [[= -> ->]|(d' & ? & ?)]; [exists d|exists d']; set_solver.
      * intros (d' & [->|Hd]%elem_of_cons & Hv & Hb & ->); [left; congruence|right; by exists d'].
    + destruct (IH found) as (more & -> & Hm). exists more. split; [done|]. intros k v. rewrite Hm. split.
      * intros (d' & ? & ?). exists d'. set_solver.
      * intros (d' & [->|Hd]%elem_of_cons & Hv & Hb & ->); [congruence|by exists d'].
  - destruct (IH found) as (more & -> & Hm). exists more. split; [done|]. intros k v. rewrite Hm. split.
    + intros (d' & ? & ?). exists d'. set_solver.
    + intros (d' & [->|Hd]%elem_of_cons & Hv & Hb & ->); [congruence|by exists d'].
Qed.

Lemma mgBatchGet_reads s ks : let '(s', a) := mgBatchGet c s ks in reads_all kf (mgCodec c) rows mgNow visibleDate s ks s' a.
Proof.
  unfold mgBatchGet. destruct ks as [|k0 ks0] eqn:Ek; [split_and!; [done|done|by intros k v ?%elem_of_nil|by intros _ k v ?%elem_of_nil]|].
  rewrite <- Ek. clear Ek. pose proof (dedupKeys_spec kf ks) as [_ Hkeys Hby Hall]. pose proof (ml_find s (kf <$> ks)) as H.
  destruct (Find _ _) as [s' [e|docs]]; destruct H as (Hn & Hr & H); [by split_and!; [..|intros k v ?%elem_of_nil|]|].
  destruct H as [Hsound Hcomplete]. rewrite byStorage_spec. destruct (readDocs_spec (dedupKeys kf ks).1 (mgNow s') docs []) as (more & -> & Hm).
  split_and!; [done|done| |]; cbn.
  - intros k v (d & Hd & Hv & [Hk Hkd]%Hby & ->)%Hm. split; [done|]. destruct (Hsound d Hd) as (sk & [b dl] & Hsk & Hrow & ->). cbn in *. subst.
    exists b, dl. split_and!; [done|by eapply visibleDate_earlier|done].
  - intros _ k v Hk (d & dl & Hrow & Hv & <-). destruct (proj1 (Hkeys (kf k)) (Hall k Hk)) as [k' Hk']. exists k'.
    split; [by apply Hby in Hk' as [_ ?]|]. apply Hm. exists (docOf (kf k) (d, dl)). split_and!; [|done..].
    apply Hcomplete; [set_solver|done|done].
Qed.

Lemma mgBatchSet_writes s items ttl : let '(s', e) := mgBatchSet c s items ttl in writes_all kf (mgCodec c) rows mgNow deadlineDate s items ttl s' e.
Proof.
  destruct items as [|i0 items0] eqn:Ei; [by apply writes_nothing|]. unfold mgBatchSet. rewrite <- Ei. clear Ei. rewrite updates_total.
  set (l := (λ kv, (kf kv.1, updateOf s kv.2 ttl)) <$> items). pose proof (ml_bulk s (dedupItems fst l) (dedup_nodup fst l)) as H.
  destruct (BulkWrite _ _) as [s' e]. destruct H as [Hn H]. split; [done|]. intros sk. specialize (H sk).
  assert (lastOf fst sk l = (λ kv, (kf kv.1, updateOf s kv.2 ttl)) <$> lastOf (λ kv, kf kv.1) sk items) as El by apply lastOf_fmap.
  rewrite list_to_map_lastOf, lastOf_dedup, El in H by apply dedup_nodup. destruct (lastOf _ sk items) as [[k v]|]; [|done]. cbn in H.
  destruct H as [(old & _ & H)|[He H]]; [left|right; split; [done|by left]]. exists (mgNow s). split; [lia|]. by rewrite H, applyUpdate_of.
Qed.

Lemma mongo_lawful : timed_lawful kf (mgCodec c) rows mgNow visibleDate deadlineDate true (mongoL2 c).
Proof.
  split; cbn [l2Get l2BatchGet l2Set l2BatchSet l2Delete l2BatchDelete mongoL2].
  - intros s k. unfold mgGet. pose proof (ml_findOne s (kf k)) as H. destruct (FindOne _ _) as [s' [e|[d|]]]; destruct H as (Hn & Hr & H); [by split_and!| |].
    + destruct H as ([b dl] & Hrow & ->). rewrite not_expired. cbn [docOf docExpireAt docValue fst snd]. destruct (visibleDate (mgNow s') dl) eqn:Ev; cbn [negb].
      * rewrite Unmarshal_dec. split_and!; [done|done| |]; cbn; [|intros _ v (b' & dl' & Hb & _ & <-); congruence].
        intros v [= <-]. exists b, dl. split_and!; [done|by eapply visibleDate_earlier|done].
      * split_and!; [done..|]. intros _ v (b' & dl' & Hb & Hv & _). congruence.
    + split_and!; [done..|]. intros _ v (b & dl & Hb & Hv & _). apply H in Hb. congruence.
  - apply mgBatchGet_reads.
  - intros s k v ttl. unfold mgSet. rewrite updateDoc_total. pose proof (ml_update s (kf k) (updateOf s v ttl)) as H.
    destruct (UpdateOne _ _ _) as [s' e]. destruct H as [Hn Hr]. apply writes_single; [done|]. destruct Hr as [(old & _ & Hr)|?]; [left|by right].
    exists (mgNow s). split; [lia|]. by rewrite Hr, applyUpdate_of.
  - apply mgBatchSet_writes.
  - intros s k. unfold mgDelete. pose proof (ml_delete s (kf k)) as H. destruct (DeleteOne _ _) as [s' e]. destruct H. by apply deletes_single.
  - intros s [|k0 ks0]; [by apply deletes_nothing|]. unfold mgBatchDelete. pose proof (ml_deleteMany s (kf <$> k0 :: ks0)) as H.
    by destruct (DeleteMany _ _) as [s' e].
Qed.
End Adapter.
