(* ===== verification/Tarantool.v ===== *)
(** * The Tarantool adapter (l2/tarantool_adapter/tarantool.go)

    Requests are sent to a [Doer], which answers with a future; batches send all requests first and then resolve the
    futures in order. *)

From stdpp Require Import strings gmap.
From S2P Require Import Prelude Expiry Config CacheState Snapshot L2Util Redis KvStore Dedup Sql TimedStore SqlLaws.

Definition DefaultSpace : string := "github.com/zakonnic/memstash_cache".
Definition primaryIndex : Z := 0.

Record row := mkRow { rowKey : string; rowValue : bytes; rowExpireAt : Z }.

(** The requests of the adapter; a select asks for one tuple. *)
Inductive TRequest :=
| TSelect (space : string) (index : Z) (key : string) | TReplace (space : string) (tuple : row) | TDelete (space : string) (index : Z) (key : string).

(** [GetTyped] of a select's future, [Get] of the others'. *)
Class Doer (D E F : Type) := {
  taNow : D → Z;
  taDo : D → TRequest → D * F;
  futureGetTyped : D → F → D * (E + list row);
  futureGet : D → F → D * option E
}.

Record tarantoolCache (K V E : Type) := mkTarantool { taSpace : string; taCodec : Codec V E; taKeyFunc : K → string }.
Arguments mkTarantool {K V E}.
Arguments taSpace {K V E}.
Arguments taCodec {K V E}.
Arguments taKeyFunc {K V E}.

Definition taNew {K V E} (isString : option (K → string)) (doer : bool) (codec : option (Codec V E)) (space : string)
    (keyOpts : list (@keyOption K string)) : UtilError + tarantoolCache K V E :=
  match doer, codec with
  | false, _ => inl ErrNilClient
  | _, None => inl ErrNilCodec
  | true, Some codec =>
    let space := if decide (space = "") then DefaultSpace else space in
    match ExtractKeyFunc isString keyOpts with inl err => inl err | inr keyFunc => inr (mkTarantool space codec keyFunc) end
  end.

(** [now] is the clock in nanoseconds. *)
Definition rowExpired (now : Z) (r : row) : bool := negb (rowExpireAt r =? 0) && (rowExpireAt r <=? now / second).

Section Tarantool.
Context {K V E D F : Type} `{!Doer D E F} (c : tarantoolCache K V E).
Implicit Types (s : D) (key : K) (keys : list K) (value : V) (items : list (K * V)) (ttl : Z) (futures : list F).

Definition taExpiresAt s ttl : Z := if ttl <=? 0 then 0 else u64 ((taNow s + ttl) / second).

Definition selectOf key : TRequest := TSelect (taSpace c) primaryIndex (taKeyFunc c key).
Definition deleteOf key : TRequest := TDelete (taSpace c) primaryIndex (taKeyFunc c key).

(** What the rows of a select answer. *)
Definition taAnswer (now : Z) (r : E + list row) : option V * option E :=
  match r with
  | inl e => (None, Some e)
  | inr [] => (None, None)
  | inr (r :: _) =>
    if rowExpired now r then (None, None)
    else match Unmarshal (taCodec c) (rowValue r) with inl e => (None, Some e) | inr value => (Some value, None) end
  end.

Definition taGet s key : D * (option V * option E) :=
  let '(s, future) := taDo s (selectOf key) in
  let '(s, r) := futureGetTyped s future in (s, taAnswer (taNow s) r).

Definition taSet s key value ttl : D * option E :=
  match Marshal (taCodec c) value with
  | inl e => (s, Some e)
  | inr data => let '(s, future) := taDo s (TReplace (taSpace c) (mkRow (taKeyFunc c key) data (taExpiresAt s ttl))) in futureGet s future
  end.

Definition taDelete s key : D * option E := let '(s, future) := taDo s (deleteOf key) in futureGet s future.

Fixpoint sendRequests s (reqs : list TRequest) : D * list F :=
  match reqs with
  | [] => (s, [])
  | req :: reqs => let '(s, future) := taDo s req in let '(s, futures) := sendRequests s reqs in (s, future :: futures)
  end.

Fixpoint resolve s futures : D * option E :=
  match futures with
  | [] => (s, None)
  | future :: futures => let '(s, err) := futureGet s future in match err with Some _ => (s, err) | None => resolve s futures end
  end.

Definition taBatchDelete s keys : D * option E :=
  match keys with [] => (s, None) | _ => let '(s, futures) := sendRequests s (deleteOf <$> keys) in resolve s futures end.

(** The futures of the keys, resolved in order. *)
Fixpoint resolveGets s keys futures (found : list (K * V)) : D * (list (K * V) * option E) :=
  match keys, futures with
  | key :: keys, future :: futures =>
    let '(s, r) := futureGetTyped s future in
    match taAnswer (taNow s) r with
    | (_, Some e) => (s, (found, Some e))
    | (None, None) => resolveGets s keys futures found
    | (Some value, None) => resolveGets s keys futures (found ++ [(key, value)])
    end
  | _, _ => (s, (found, None))
  end.

Definition taBatchGet s keys : D * (list (K * V) * option E) :=
  match keys with
  | [] => (s, ([], None))
  | _ => let '(s, futures) := sendRequests s (selectOf <$> keys) in resolveGets s keys futures []
  end.

(** Every value is encoded and its request sent before the next. *)
Fixpoint sendReplaces s items (deadline : Z) : D * (E + list F) :=
  match items with
  | [] => (s, inr [])
  | (key, value) :: items =>
    match Marshal (taCodec c) value with
    | inl e => (s, inl e)
    | inr data =>
      let '(s, future) := taDo s (TReplace (taSpace c) (mkRow (taKeyFunc c key) data deadline)) in
      let '(s, r) := sendReplaces s items deadline in
      (s, match r with inl e => inl e | inr futures => inr (future :: futures) end)
    end
  end.

Definition taBatchSet s items ttl : D * option E :=
  match items with
  | [] => (s, None)
  | _ =>
    let '(s, r) := sendReplaces s items (taExpiresAt s ttl) in
    match r with inl e => (s, Some e) | inr futures => resolve s futures end
  end.

Definition tarantoolL2 : L2Cache K V D E := {|
  l2Get := taGet; l2BatchGet := taBatchGet; l2Set := taSet; l2BatchSet := taBatchSet; l2Delete := taDelete; l2BatchDelete := taBatchDelete
|}.
End Tarantool.

(** ** The Tarantool adapter keeps its promise *)

(** The deadline as the adapter stores it, an unsigned second. *)
Definition deadlineUnsigned (t ttl : Z) : Z := if ttl <=? 0 then 0 else u64 ((t + ttl) / second).

(** It is the deadline for every clock and TTL that fit 64 bits. *)
Lemma deadlineUnsigned_fits t ttl : 0 ≤ t < 2 ^ 63 → ttl < 2 ^ 63 → deadlineUnsigned t ttl = deadlineSec t ttl.
Proof.
  intros Ht Httl. unfold deadlineUnsigned, deadlineSec. destruct (Z.leb_spec ttl 0); [done|]. unfold u64. apply Z.mod_small.
  pose proof (Z.div_pos (t + ttl) second ltac:(lia) ltac:(done)). pose proof (Z.div_le_upper_bound (t + ttl) second (t + ttl) ltac:(done) ltac:(unfold second; lia)). lia.
Qed.

Lemma rowExpired_visible now r : rowExpired now r = negb (visibleSec now (rowExpireAt r)).
Proof. unfold rowExpired, visibleSec, seen. rewrite negb_orb. f_equal. apply Z.leb_antisym. Qed.

Definition tuplesOf (k : string) (r : option (bytes * Z)) : list row := match r with Some (d, dl) => [mkRow k d dl] | None => [] end.

Definition afterReq (req : TRequest) (m : rowTable) : rowTable :=
  match req with
  | TSelect _ _ _ => m
  | TReplace _ r => <[rowKey r := (rowValue r, rowExpireAt r)]> m
  | TDelete _ _ k => delete k m
  end.

Definition addressed (space : string) (req : TRequest) : Prop :=
  match req with TSelect sp i _ | TDelete sp i _ => sp = space ∧ i = primaryIndex | TReplace sp _ => sp = space end.

(** Requests take effect in the order they are sent, which the server promises for a stream and which the adapter, that sends them
    over the connection, relies on for a key given twice in a batch; [outcome] is what a future will answer, and a request whose
    future fails has been executed or not. *)
Class TarantoolLaws {D E F : Type} `{!Doer D E F} (space : string) (rows : D → rowTable) (outcome : F → E + list row) : Prop := {
  ta_do s req :
    addressed space req →
    let '(s', f) := taDo s req in taNow s ≤ taNow s' ∧
    match outcome f with
    | inl _ => rows s' = rows s ∨ rows s' = afterReq req (rows s)
    | inr l => rows s' = afterReq req (rows s) ∧ match req with TSelect _ _ k => l = tuplesOf k (rows s !! k) | _ => True end
    end;
  ta_typed s f : let '(s', r) := futureGetTyped s f in taNow s ≤ taNow s' ∧ rows s' = rows s ∧ r = outcome f;
  ta_get s f : let '(s', e) := futureGet s f in taNow s ≤ taNow s' ∧ rows s' = rows s ∧ e = match outcome f with inl e => Some e | inr _ => None end
}.

Section Adapter.
Context {K V E D F : Type} `{!Doer D E F} (c : tarantoolCache K V E) `{!TotalCodec (taCodec c)}.
Context (rows : D → rowTable) (outcome : F → E + list row) `{!TarantoolLaws (taSpace c) rows outcome}.
Abbreviation kf := (taKeyFunc c).

Definition failure (f : F) : option E := match outcome f with inl e => Some e | inr _ => None end.
Fixpoint firstFailure (fs : list F) : option E :=
  match fs with [] => None | f :: fs => match failure f with Some e => Some e | None => firstFailure fs end end.

Lemma do_spec s req :
  addressed (taSpace c) req → let '(s', f) := taDo s req in
  taNow s ≤ taNow s' ∧ (rows s' = afterReq req (rows s) ∨ failure f ≠ None ∧ rows s' = rows s).
Proof.
  intros Ha. pose proof (ta_do s req Ha) as H. destruct (taDo s req) as [s' f]. unfold failure. destruct (outcome f); destruct H as [? H]; split; try done.
  - destruct H as [H|H]; [right|left]; by split_and?.
  - left. by destruct H.
Qed.

Lemma resolve_spec fs s : let '(s', e) := resolve s fs in taNow s ≤ taNow s' ∧ rows s' = rows s ∧ e = firstFailure fs.
Proof.
  revert s. induction fs as [|f fs IH]; intros s; cbn [resolve firstFailure]; [done|]. unfold failure. pose proof (ta_get s f) as H.
  destruct (futureGet s f) as [s1 e]. destruct H as (Hn & Hr & ->). destruct (outcome f); [done|]. specialize (IH s1).
  destruct (resolve s1 fs) as [s' e']. destruct IH as (? & ? & ?). split_and!; [lia|congruence|done].
Qed.

Lemma first_none f fs : firstFailure (f :: fs) = None → failure f = None ∧ firstFailure fs = None.
Proof. cbn. by destruct (failure f). Qed.

Lemma sendDeletes_spec ks s : let '(s', fs) := sendRequests s (deleteOf c <$> ks) in deletes_all kf rows taNow s ks s' (firstFailure fs).
Proof.
  revert s. induction ks as [|k ks IH]; intros s; cbn [fmap list_fmap sendRequests]; [by apply deletes_nothing|].
  pose proof (do_spec s (deleteOf c k) ltac:(done)) as H. destruct (taDo s _) as [s1 f]. specialize (IH s1).
  unfold fmap in IH. destruct (sendRequests s1 _) as [s' fs].
  eapply deletes_cons; [apply (deletes_single kf rows taNow s k s1 (failure f)); apply H|exact IH|apply first_none].
Qed.

(** With the deadline fixed for the whole batch. *)
Lemma sendReplaces_spec items ttl dl s :
  let '(s', r) := sendReplaces c s items dl in
  ∃ fs, r = inr fs ∧ writes_all kf (taCodec c) rows taNow (λ _ _, dl) s items ttl s' (firstFailure fs).
Proof.
  revert s. induction items as [|[k v] items IH]; intros s; cbn [sendReplaces]; [exists []; split; [done|by apply writes_nothing]|].
  rewrite Marshal_enc. pose proof (do_spec s (TReplace (taSpace c) (mkRow (kf k) (enc v) dl)) ltac:(done)) as H. destruct (taDo s _) as [s1 f].
  specialize (IH s1). destruct (sendReplaces c s1 items dl) as [s' r]. destruct IH as (fs & -> & IH). exists (f :: fs). split; [done|].
  eapply writes_cons; [|exact IH|apply first_none]. destruct H as [Hn H]. apply (writes_single kf (taCodec c)); [done|].
  destruct H as [H|H]; [left|right; exact H]. exists (taNow s). split; [lia|done].
Qed.

Lemma writes_fixed s items ttl s' (e : option E) :
  writes_all kf (taCodec c) rows taNow (λ _ _, deadlineUnsigned (taNow s) ttl) s items ttl s' e →
  writes_all kf (taCodec c) rows taNow deadlineUnsigned s items ttl s' e.
Proof.
  intros [Hn H]. split; [done|]. assert (∀ v r, written (taCodec c) taNow (λ _ _, deadlineUnsigned (taNow s) ttl) s s' ttl v r →
    written (taCodec c) taNow deadlineUnsigned s s' ttl v r) as Hw by (intros v r (t & ? & ->); exists (taNow s); split; [lia|done]).
  intros sk. specialize (H sk). destruct (lastOf _ sk items) as [[k v]|]; [|done]. destruct H as [H|[He [H|(k' & v' & Hin & Hk & H)]]]; [left; by apply Hw| |];
    (right; split; [done|]); [by left|right; exists k', v'; auto].
Qed.

Lemma taBatchSet_writes s items ttl : let '(s', e) := taBatchSet c s items ttl in writes_all kf (taCodec c) rows taNow deadlineUnsigned s items ttl s' e.
Proof.
  destruct items as [|i0 items0] eqn:Ei; [by apply writes_nothing|]. unfold taBatchSet. rewrite <- Ei. clear Ei.
  pose proof (sendReplaces_spec items ttl (taExpiresAt s ttl) s) as H. destruct (sendReplaces _ _ _ _) as [s1 r]. destruct H as (fs & -> & H).
  pose proof (resolve_spec fs s1) as Hres. destruct (resolve s1 fs) as [s' e]. destruct Hres as (Hn & Hr & ->).
  apply writes_fixed. by eapply writes_later.
Qed.

(** A select's future, once it answers, has the row as it is. *)
Definition selected (m : rowTable) (k : K) (f : F) : Prop := ∀ l, outcome f = inr l → l = tuplesOf (kf k) (m !! kf k).

Lemma doSelect_spec s k : let '(s', f) := taDo s (selectOf c k) in taNow s ≤ taNow s' ∧ rows s' = rows s ∧ selected (rows s) k f.
Proof.
  pose proof (ta_do s (selectOf c k) ltac:(done)) as H. destruct (taDo s _) as [s' f]. unfold selected. destruct (outcome f) as [e|l]; destruct H as [? H].
  - split_and!; [done|by destruct H|done].
  - destruct H as [? ->]. split_and!; [done|done|]. by intros l [= <-].
Qed.

Lemma sendSelects_spec ks s :
  let '(s', fs) := sendRequests s (selectOf c <$> ks) in taNow s ≤ taNow s' ∧ rows s' = rows s ∧ Forall2 (selected (rows s)) ks fs.
Proof.
  revert s. induction ks as [|k ks IH]; intros s; cbn [fmap list_fmap sendRequests]; [split_and!; [done..|constructor]|].
  pose proof (doSelect_spec s k) as H. destruct (taDo s _) as [s1 f]. destruct H as (Hn & Hr & Hf). specialize (IH s1). unfold fmap in IH.
  destruct (sendRequests s1 _) as [s' fs]. destruct IH as (Hn' & Hr' & Hfs). rewrite Hr in *. split_and!; [lia|done|by constructor].
Qed.

(** A resolved select: the value if the row is visible. *)
Lemma answer_spec m k f now : selected m k f →
  (∀ v, (taAnswer c now (outcome f)).1 = Some v → shown (taCodec c) visibleSec m now (kf k) v) ∧
  ((taAnswer c now (outcome f)).2 = None → ∀ v, shown (taCodec c) visibleSec m now (kf k) v → (taAnswer c now (outcome f)).1 = Some v).
Proof.
  unfold selected, taAnswer. destruct (outcome f) as [e|l]; [done|]. intros H. rewrite (H l eq_refl). clear H l. unfold tuplesOf, shown.
  destruct (m !! kf k) as [[d dl]|]; [|split; [done|]; intros _ v (d & dl & ? & _); done]. rewrite rowExpired_visible. cbn [rowExpireAt rowValue].
  destruct (visibleSec now dl) eqn:Ev; cbn [negb].
  - rewrite Unmarshal_dec. cbn. split; [intros v [= <-]; by exists d, dl|]. intros _ v (d' & dl' & [= <- <-] & _ & <-). done.
  - split; [done|]. intros _ v (d' & dl' & [= <- <-] & ? & _). congruence.
Qed.

Lemma resolveGets_spec ks fs s found : Forall2 (selected (rows s)) ks fs →
  ∃ s' more e, resolveGets c s ks fs found = (s', (found ++ more, e)) ∧ taNow s ≤ taNow s' ∧ rows s' = rows s ∧
    (∀ k v, (k, v) ∈ more → k ∈ ks ∧ shown (taCodec c) visibleSec (rows s) (taNow s) (kf k) v) ∧
    (e = None → ∀ k v, k ∈ ks → shown (taCodec c) visibleSec (rows s) (taNow s') (kf k) v → (k, v) ∈ more).
Proof.
  intros Hall. revert fs s found Hall. induction ks as [|k ks IH]; intros fs s found Hall; inversion Hall as [|? f ? fs' Hf Hfs]; subst; cbn [resolveGets].
  { exists s, [], None. rewrite app_nil_r. split_and!; [done..|by intros k v ?%elem_of_nil|by intros _ k v ?%elem_of_nil]. }
  pose proof (ta_typed s f) as H. destruct (futureGetTyped s f) as [s1 r]. destruct H as (Hn & Hr & ->). rewrite <- Hr in Hf, Hfs.
  pose proof (answer_spec (rows s1) k f (taNow s1) Hf) as [Ha1 Ha2]. destruct (taAnswer c (taNow s1) (outcome f)) as [a [e|]]; cbn [fst snd] in *.
  { exists s1, [], (Some e). rewrite app_nil_r. destruct a as [a0|]; (split_and!; [done..|by intros k' v ?%elem_of_nil|done]). }
  set (hit := match a with Some v => [(k, v)] | None => [] end). destruct (IH fs' s1 (found ++ hit) Hfs) as (s' & more & e & Hrun & Hn' & Hr' & Hs & Hc).
  exists s', (hit ++ more), e. split_and!; [|lia|congruence| |].
  - rewrite app_assoc, <- Hrun. unfold hit. destruct a; [done|by rewrite app_nil_r].
  - rewrite <- Hr. assert (∀ sk v, shown (taCodec c) visibleSec (rows s1) (taNow s1) sk v → shown (taCodec c) visibleSec (rows s1) (taNow s) sk v) as Hback
      by (intros sk v; by apply shown_earlier, Hn; apply visibleSec_earlier).
    intros k' v [Hh|Hm]%elem_of_app; [|apply Hs in Hm as [? ?]; split; [by right|by apply Hback]].
    destruct a as [v0|]; [|by apply elem_of_nil in Hh]. apply list_elem_of_singleton in Hh as [= -> ->]. split; [by left|by apply Hback, Ha1].
  - intros He k' v [->|Hk]%elem_of_cons Hv; apply elem_of_app; rewrite <- Hr in Hv; [|right; by apply Hc]. left.
    assert (a = Some v) as ->; [|set_solver]. apply Ha2; [done|]. revert Hv. apply shown_earlier; [apply visibleSec_earlier|done].
Qed.

Lemma taBatchGet_reads s ks : let '(s', a) := taBatchGet c s ks in reads_all kf (taCodec c) rows taNow visibleSec s ks s' a.
Proof.
  unfold taBatchGet. destruct ks as [|k0 ks0] eqn:Ek; [split_and!; [done|done|by intros k v ?%elem_of_nil|by intros _ k v ?%elem_of_nil]|].
  rewrite <- Ek. clear Ek. pose proof (sendSelects_spec ks s) as H. destruct (sendRequests _ _) as [s1 fs]. destruct H as (Hn & Hr & Hfs).
  rewrite <- Hr in Hfs. destruct (resolveGets_spec ks fs s1 [] Hfs) as (s' & more & e & -> & Hn' & Hr' & Hs & Hc).
  split_and!; [lia|congruence| |]; cbn; rewrite <- Hr.
  - intros k v [Hk Hv]%Hs. split; [done|]. revert Hv. apply shown_earlier; [apply visibleSec_earlier|done].
  - intros He k v Hk Hv. exists k. split; [done|by apply Hc].
Qed.

Lemma tarantool_lawful : timed_lawful kf (taCodec c) rows taNow visibleSec deadlineUnsigned true (tarantoolL2 c).
Proof.
  split; cbn [l2Get l2BatchGet l2Set l2BatchSet l2Delete l2BatchDelete tarantoolL2].
  - intros s k. unfold taGet. pose proof (doSelect_spec s k) as H. destruct (taDo s _) as [s1 f]. destruct H as (Hn & Hr & Hf).
    pose proof (ta_typed s1 f) as H. destruct (futureGetTyped s1 f) as [s' r]. destruct H as (Hn' & Hr' & ->).
    destruct (answer_spec (rows s) k f (taNow s') Hf) as [Ha1 Ha2]. split_and!; [lia|congruence| |done].
    intros v Hv%Ha1. revert Hv. apply shown_earlier; [apply visibleSec_earlier|lia].
  - apply taBatchGet_reads.
  - intros s k v ttl. unfold taSet. rewrite Marshal_enc.
    pose proof (do_spec s (TReplace (taSpace c) (mkRow (kf k) (enc v) (taExpiresAt s ttl))) ltac:(done)) as H. destruct (taDo s _) as [s1 f].
    pose proof (ta_get s1 f) as Hg. destruct (futureGet s1 f) as [s' e]. destruct H as [Hn H], Hg as (Hn' & Hr & ->).
    apply writes_single; [lia|]. rewrite Hr. destruct H as [H|H]; [left; exists (taNow s); split; [lia|done]|by right].
  - apply taBatchSet_writes.
  - intros s k. unfold taDelete. pose proof (do_spec s (deleteOf c k) ltac:(done)) as H. destruct (taDo s _) as [s1 f].
    pose proof (ta_get s1 f) as Hg. destruct (futureGet s1 f) as [s' e]. destruct H as [Hn H], Hg as (Hn' & Hr & ->).
    apply deletes_single; [lia|]. rewrite Hr. exact H.
  - intros s [|k0 ks0]; [by apply deletes_nothing|]. unfold taBatchDelete. pose proof (sendDeletes_spec (k0 :: ks0) s) as H.
    destruct (sendRequests _ _) as [s1 fs]. pose proof (resolve_spec fs s1) as Hres. destruct (resolve s1 fs) as [s' e].
    destruct Hres as (Hn & Hr & ->). by eapply deletes_later.
Qed.
End Adapter.
