(* ===== verification/Badger.v ===== *)
(** * The Badger adapter (l2/badger_adapter/badger.go)

    An embedded store: reads run in a read transaction, single writes in a transaction of their own, batches through a
    write batch, which the library may commit in parts. *)

From stdpp Require Import strings gmap.
From S2P Require Import Prelude Expiry Config CacheState Snapshot L2Util Redis KvStore Dedup Sql TimedStore SqlLaws.

Record bgEntry := mkBgEntry { bgKey : string; bgData : bytes; bgTTL : option Z }.

Inductive BgOp := BgSetEntry (e : bgEntry) | BgDelete (key : string).

(** [View] gives the transaction the closure runs on, or fails without calling it; [txnGet] answers [None] for
    [ErrKeyNotFound]; [Update] runs a closure that makes one operation. *)
Class BadgerDB (D E Txn Item WB : Type) := {
  bgView : D → D * (E + Txn);
  txnGet : Txn → string → E + option Item;
  itemValue : Item → E + bytes;
  bgUpdate : D → BgOp → D * option E;
  NewWriteBatch : D → D * WB;
  wbAdd : D → WB → BgOp → D * (WB * option E);
  wbFlush : D → WB → D * option E;
  wbCancel : D → WB → D
}.

Record badgerCache (K V E : Type) := mkBadger { bgCodec : Codec V E; bgKeyFunc : K → string }.
Arguments mkBadger {K V E}.
Arguments bgCodec {K V E}.
Arguments bgKeyFunc {K V E}.

Definition bgNew {K V E} (isString : option (K → string)) (db : bool) (codec : option (Codec V E))
    (keyOpts : list (@keyOption K string)) : UtilError + badgerCache K V E :=
  match db, codec with
  | false, _ => inl ErrNilClient
  | _, None => inl ErrNilCodec
  | true, Some codec => match ExtractKeyFunc isString keyOpts with inl err => inl err | inr keyFunc => inr (mkBadger codec keyFunc) end
  end.

Definition newEntry (key : string) (data : bytes) (ttl : Z) : bgEntry := mkBgEntry key data (if 0 <? ttl then Some ttl else None).

Section Badger.
Context {K V E D Txn Item WB : Type} `{!BadgerDB D E Txn Item WB} (c : badgerCache K V E).
Implicit Types (s : D) (key : K) (keys : list K) (value : V) (items : list (K * V)) (ttl : Z) (txn : Txn) (wb : WB).

(** A key read in a transaction. *)
Definition bgRead txn key : option V * option E :=
  match txnGet txn (bgKeyFunc c key) with
  | inl e => (None, Some e)
  | inr None => (None, None)
  | inr (Some item) =>
    match itemValue item with
    | inl e => (None, Some e)
    | inr data => match Unmarshal (bgCodec c) data with inl e => (None, Some e) | inr value => (Some value, None) end
    end
  end.

Definition bgGet s key : D * (option V * option E) :=
  let '(s, r) := bgView s in match r with inl e => (s, (None, Some e)) | inr txn => (s, bgRead txn key) end.

Definition bgSet s key value ttl : D * option E :=
  match Marshal (bgCodec c) value with
  | inl e => (s, Some e)
  | inr data => bgUpdate s (BgSetEntry (newEntry (bgKeyFunc c key) data ttl))
  end.

Definition bgDelete s key : D * option E := bgUpdate s (BgDelete (bgKeyFunc c key)).

Fixpoint bgReadAll txn keys (found : list (K * V)) : list (K * V) * option E :=
  match keys with
  | [] => (found, None)
  | key :: keys =>
    match bgRead txn key with
    | (_, Some e) => (found, Some e)
    | (None, None) => bgReadAll txn keys found
    | (Some value, None) => bgReadAll txn keys (found ++ [(key, value)])
    end
  end.

(** After an error the hits are dropped. *)
Definition bgBatchGet s keys : D * (list (K * V) * option E) :=
  match keys with
  | [] => (s, ([], None))
  | _ =>
    let '(s, r) := bgView s in
    match r with
    | inl e => (s, ([], Some e))
    | inr txn => match bgReadAll txn keys [] with (_, Some e) => (s, ([], Some e)) | (found, None) => (s, (found, None)) end
    end
  end.

(** The operations of a batch, each value encoded before the next is added. *)
Fixpoint bgAddItems s wb items ttl : D * (WB * option E) :=
  match items with
  | [] => (s, (wb, None))
  | (key, value) :: items =>
    match Marshal (bgCodec c) value with
    | inl e => (s, (wb, Some e))
    | inr data =>
      let '(s, (wb, err)) := wbAdd s wb (BgSetEntry (newEntry (bgKeyFunc c key) data ttl)) in
      match err with Some _ => (s, (wb, err)) | None => bgAddItems s wb items ttl end
    end
  end.

Fixpoint bgAddDeletes s wb keys : D * (WB * option E) :=
  match keys with
  | [] => (s, (wb, None))
  | key :: keys =>
    let '(s, (wb, err)) := wbAdd s wb (BgDelete (bgKeyFunc c key)) in
    match err with Some _ => (s, (wb, err)) | None => bgAddDeletes s wb keys end
  end.

(** A write batch: filled, flushed when that went well, and cancelled on the way out. *)
Definition inWriteBatch s (fill : D → WB → D * (WB * option E)) : D * option E :=
  let '(s, wb) := NewWriteBatch s in
  let '(s, (wb, err)) := fill s wb in
  let '(s, err) := match err with Some _ => (s, err) | None => wbFlush s wb end in
  (wbCancel s wb, err).

Definition bgBatchSet s items ttl : D * option E :=
  match items with [] => (s, None) | _ => inWriteBatch s (λ s wb, bgAddItems s wb items ttl) end.

Definition bgBatchDelete s keys : D * option E :=
  match keys with [] => (s, None) | _ => inWriteBatch s (λ s wb, bgAddDeletes s wb keys) end.

Definition badgerL2 : L2Cache K V D E := {|
  l2Get := bgGet; l2BatchGet := bgBatchGet; l2Set := bgSet; l2BatchSet := bgBatchSet; l2Delete := bgDelete; l2BatchDelete := bgBatchDelete
|}.
End Badger.

(** ** The Badger adapter keeps its promise *)

(** What an operation does to the table. *)
Inductive RowOp := RPut (k : string) (r : bytes * Z) | RDrop (k : string).

Definition applyOp (m : rowTable) (o : RowOp) : rowTable := match o with RPut k r => <[k := r]> m | RDrop k => delete k m end.
Definition applyOps (m : rowTable) (l : list RowOp) : rowTable := foldl applyOp m l.

(** An entry expires at the second of its TTL from when it was made. *)
Definition resolves (t0 t1 : Z) (op : BgOp) (o : RowOp) : Prop :=
  match op with
  | BgSetEntry e => ∃ t, t0 ≤ t ≤ t1 ∧ o = RPut (bgKey e) (bgData e, match bgTTL e with None => 0 | Some ttl => (t + ttl) / second end)
  | BgDelete k => o = RDrop k
  end.

(** Badger hides expired entries itself; [rows] has them still in it.  A write batch commits its operations in order, some of
    them before it is flushed; [filling wb m l s] says that [wb] was made on the table [m] and given [l]. *)
Class BadgerLaws {D E Txn Item WB : Type} `{!BadgerDB D E Txn Item WB} (rows : D → rowTable) (now : D → Z)
    (filling : WB → rowTable → list RowOp → D → Prop) : Prop := {
  bl_view s :
    let '(s', r) := bgView s in now s ≤ now s' ∧ rows s' = rows s ∧
    match r with
    | inl _ => True
    | inr txn => ∀ k,
      match txnGet txn k with
      | inl _ => True
      | inr None => ∀ d dl, rows s !! k = Some (d, dl) → visibleSec (now s') dl = false
      | inr (Some item) => ∃ d dl, rows s !! k = Some (d, dl) ∧ visibleSec (now s) dl = true ∧ ∀ x, itemValue item = inr x → x = d
      end
    end;
  bl_update s op :
    let '(s', e) := bgUpdate s op in now s ≤ now s' ∧
    ((∃ o, resolves (now s) (now s') op o ∧ rows s' = applyOp (rows s) o) ∨ e ≠ None ∧ rows s' = rows s);
  bl_new s : let '(s', wb) := NewWriteBatch s in now s ≤ now s' ∧ filling wb (rows s) [] s';
  bl_filling wb m l s : filling wb m l s → ∃ p, p `prefix_of` l ∧ rows s = applyOps m p;
  bl_add s wb op m l :
    filling wb m l s → let '(s', (wb', e)) := wbAdd s wb op in now s ≤ now s' ∧
    ∃ o, resolves (now s) (now s') op o ∧ match e with None => filling wb' m (l ++ [o]) s' | Some _ => filling wb' m l s' end;
  bl_flush s wb m l :
    filling wb m l s → let '(s', e) := wbFlush s wb in now s ≤ now s' ∧
    ∃ p, p `prefix_of` l ∧ rows s' = applyOps m p ∧ (e = None → p = l);
  bl_cancel s wb : rows (wbCancel s wb) = rows s ∧ now s ≤ now (wbCancel s wb)
}.

(** ** A log of writes *)

Lemma lastOf_Forall2 {A B} (key : A → string) (key' : B → string) (R : A → B → Prop) q l sk :
  (∀ x y, R x y → key x = key' y) → Forall2 R q l →
  match lastOf key sk q, lastOf key' sk l with Some x, Some y => R x y | None, None => True | _, _ => False end.
Proof.
  intros Hkey H. induction H as [|x y q l Hxy _ IH]; [done|]. rewrite !lastOf_cons, (Hkey x y Hxy).
  destruct (lastOf key sk q), (lastOf key' sk l); try done. by case_decide.
Qed.

Lemma applyOps_puts m (l : list (string * (bytes * Z))) : applyOps m ((λ r, RPut r.1 r.2) <$> l) = putRows m l.
Proof. unfold applyOps, putRows. revert m. induction l as [|r l IH]; intros m; [done|]. apply IH. Qed.

Lemma applyOps_drops m ks : applyOps m (RDrop <$> ks) = dropRows m ks.
Proof. unfold applyOps, dropRows. revert m. induction ks as [|k ks IH]; intros m; [done|]. apply IH. Qed.

Section Log.
Context {K V E E' D : Type} (keyFunc : K → string) (codec : Codec V E) `{!TotalCodec codec}.
Context (rows : D → rowTable) (now : D → Z).

Definition logged_as (t0 t1 ttl : Z) (kv : K * V) (r : string * (bytes * Z)) : Prop :=
  ∃ t, t0 ≤ t ≤ t1 ∧ r = (keyFunc kv.1, (enc kv.2, deadlineSec t ttl)).

(** The first items of a batch written in order. *)
Lemma writes_log s s' (e : option E') ttl items q l :
  now s ≤ now s' → q `prefix_of` items → (e = None → q = items) → Forall2 (logged_as (now s) (now s') ttl) q l →
  rows s' = putRows (rows s) l → writes_all keyFunc codec rows now deadlineSec s items ttl s' e.
Proof.
  intros Hn Hq He Hl Hr. split; [done|]. intros sk. rewrite Hr, lookup_putRows.
  pose proof (lastOf_Forall2 (λ kv, keyFunc kv.1) fst (logged_as (now s) (now s') ttl) q l sk ltac:(by intros x y (t & _ & ->)) Hl) as H2.
  destruct (lastOf (λ kv, keyFunc kv.1) sk q) as [[k v]|] eqn:Eq, (lastOf fst sk l) as [r|]; try done.
  - destruct H2 as (t & Ht & ->). cbn. pose proof (lastOf_key _ _ _ _ Eq) as [Hin Hk]. cbn in Hk.
    assert ((k, v) ∈ items) as Hin' by by apply (prefix_subset q).
    destruct (lastOf (λ kv, keyFunc kv.1) sk items) as [[k' v']|] eqn:Ei.
    + destruct e as [e|]; [right; split; [done|right; exists k, v; split_and!; [done|done|by exists t]]|].
      left. rewrite He, Ei in Eq by done. injection Eq as -> ->. by exists t.
    + destruct (lastOf_is_Some (λ kv, keyFunc kv.1) (k, v) items Hin') as [y Hy]. cbn in Hy. congruence.
  - destruct (lastOf (λ kv, keyFunc kv.1) sk items) as [[k' v']|] eqn:Ei; [|done]. right. split; [|by left]. intros ->. rewrite He in Eq by done. congruence.
Qed.
End Log.

Section Adapter.
Context {K V E D Txn Item WB : Type} `{!BadgerDB D E Txn Item WB} (c : badgerCache K V E) `{!TotalCodec (bgCodec c)}.
Context (rows : D → rowTable) (now : D → Z) (filling : WB → rowTable → list RowOp → D → Prop) `{!BadgerLaws rows now filling}.
Abbreviation kf := (bgKeyFunc c).

Lemma entry_resolves t0 t1 k (v : V) ttl o :
  resolves t0 t1 (BgSetEntry (newEntry (kf k) (enc v) ttl)) o ↔ ∃ t, t0 ≤ t ≤ t1 ∧ o = RPut (kf k) (enc v, deadlineSec t ttl).
Proof.
  unfold resolves, newEntry, deadlineSec. cbn. rewrite (Z.ltb_antisym ttl 0). by destruct (ttl <=? 0).
Qed.

Lemma logged_wider t0 t1 t2 t3 ttl q l : t0 ≤ t1 → t2 ≤ t3 → Forall2 (logged_as kf (bgCodec c) t1 t2 ttl) q l → Forall2 (logged_as kf (bgCodec c) t0 t3 ttl) q l.
Proof. intros ?? H. eapply Forall2_impl; [exact H|]. intros kv r (t & ? & ->). exists t. split; [lia|done]. Qed.

Lemma addItems_spec items ttl s wb m l0 :
  filling wb m l0 s → let '(s', (wb', e)) := bgAddItems c s wb items ttl in
  now s ≤ now s' ∧ ∃ q l, q `prefix_of` items ∧ (e = None → q = items) ∧ Forall2 (logged_as kf (bgCodec c) (now s) (now s') ttl) q l ∧
    filling wb' m (l0 ++ ((λ r, RPut r.1 r.2) <$> l)) s'.
Proof.
  revert s wb l0. induction items as [|[k v] items IH]; intros s wb l0 Hf; cbn [bgAddItems].
  { split; [done|]. exists [], []. rewrite app_nil_r. by split_and!. }
  rewrite Marshal_enc. pose proof (bl_add s wb (BgSetEntry (newEntry (kf k) (enc v) ttl)) m l0 Hf) as H.
  destruct (wbAdd _ _ _) as [s1 [wb1 [e|]]]; destruct H as (Hn & o & Ho & Hf1).
  { split; [done|]. exists [], []. rewrite app_nil_r. split_and!; [apply prefix_nil|done|constructor|done]. }
  apply entry_resolves in Ho as (t & Ht & ->). specialize (IH s1 wb1 _ Hf1). destruct (bgAddItems c s1 wb1 items ttl) as [s' [wb' e]].
  destruct IH as (Hn' & q & l & Hq & He & Hl & Hf'). split; [lia|]. exists ((k, v) :: q), ((kf k, (enc v, deadlineSec t ttl)) :: l). split_and!.
  - by apply prefix_cons.
  - intros ->. by rewrite He.
  - constructor; [exists t; split; [lia|done]|]. by eapply logged_wider; [| |exact Hl].
  - by rewrite <- app_assoc in Hf'.
Qed.

Lemma addDeletes_spec ks s wb m l0 :
  filling wb m l0 s → let '(s', (wb', e)) := bgAddDeletes c s wb ks in
  now s ≤ now s' ∧ ∃ q, q `prefix_of` ks ∧ (e = None → q = ks) ∧ filling wb' m (l0 ++ (RDrop <$> (kf <$> q))) s'.
Proof.
  revert s wb l0. induction ks as [|k ks IH]; intros s wb l0 Hf; cbn [bgAddDeletes].
  { split; [done|]. exists []. rewrite app_nil_r. by split_and!. }
  pose proof (bl_add s wb (BgDelete (kf k)) m l0 Hf) as H. destruct (wbAdd _ _ _) as [s1 [wb1 [e|]]]; destruct H as (Hn & o & Ho & Hf1).
  { split; [done|]. exists []. rewrite app_nil_r. split_and!; [apply prefix_nil|done|done]. }
  cbn in Ho. subst o. specialize (IH s1 wb1 _ Hf1). destruct (bgAddDeletes c s1 wb1 ks) as [s' [wb' e]].
  destruct IH as (Hn' & q & Hq & He & Hf'). split; [lia|]. exists (k :: q). split_and!; [by apply prefix_cons|intros ->; by rewrite He|].
  by rewrite <- app_assoc in Hf'.
Qed.

(** What a filled batch leaves in the table: a prefix of its operations, all of them when nothing failed. *)
Lemma finish_spec s wb (e : option E) m l :
  filling wb m l s →
  let '(s', e') := match e with Some _ => (s, e) | None => wbFlush s wb end in
  now s ≤ now (wbCancel s' wb) ∧ ∃ p, p `prefix_of` l ∧ rows (wbCancel s' wb) = applyOps m p ∧ (e' = None → e = None ∧ p = l).
Proof.
  intros Hf. destruct e as [e|].
  - destruct (bl_cancel s wb) as [Hr Hn]. split; [done|]. destruct (bl_filling wb m l s Hf) as (p & Hp & Hrows). exists p. by rewrite Hr.
  - pose proof (bl_flush s wb m l Hf) as H. destruct (wbFlush s wb) as [s' e]. destruct H as (Hn & p & Hp & Hrows & He).
    destruct (bl_cancel s' wb) as [Hr Hn']. split; [lia|]. exists p. rewrite Hr. split_and!; [done|done|by intros ->; auto].
Qed.

Lemma fmap_prefix {A B} (f : A → B) (l : list A) p : p `prefix_of` f <$> l → ∃ p', p' `prefix_of` l ∧ p = f <$> p'.
Proof.
  intros [r Hr]. exists (take (length p) l). split; [apply prefix_take|]. by rewrite fmap_take, Hr, take_app_length.
Qed.

Lemma bgBatchSet_writes s items ttl : let '(s', e) := bgBatchSet c s items ttl in writes_all kf (bgCodec c) rows now deadlineSec s items ttl s' e.
Proof.
  destruct items as [|i0 items0] eqn:Ei; [by apply writes_nothing|]. unfold bgBatchSet, inWriteBatch. rewrite <- Ei. clear Ei.
  pose proof (bl_new s) as H. destruct (NewWriteBatch s) as [s1 wb]. destruct H as [Hn1 Hf].
  pose proof (addItems_spec items ttl s1 wb _ [] Hf) as H. destruct (bgAddItems _ _ _ _ _) as [s2 [wb' e]].
  destruct H as (Hn2 & q & l & Hq & He & Hl & Hf2). pose proof (finish_spec s2 wb' e _ _ Hf2) as H.
  destruct (match e with Some _ => _ | None => _ end) as [s3 e']. destruct H as (Hn3 & p & Hp & Hr & He'). cbn [app] in Hp, He'.
  apply fmap_prefix in Hp as (p' & Hp' & ->). rewrite applyOps_puts in Hr. destruct Hp' as [l2 ->].
  apply Forall2_app_inv_r in Hl as (q1 & q2 & Hl1 & Hl2 & ->).
  apply (writes_log kf (bgCodec c) rows now _ _ _ _ _ q1 p'); [lia| | |by eapply logged_wider; [| |exact Hl1]; lia|done].
  - etrans; [by eexists|exact Hq].
  - intros ->. destruct (He' eq_refl) as [-> Heq]. rewrite fmap_app in Heq. apply (f_equal length) in Heq. rewrite length_app, !length_fmap in Heq.
    rewrite <- He by done. assert (length l2 = 0%nat) as ->%nil_length_inv by lia. apply Forall2_nil_inv_r in Hl2 as ->. by rewrite app_nil_r.
Qed.

Lemma bgBatchDelete_deletes s ks : let '(s', e) := bgBatchDelete c s ks in deletes_all kf rows now s ks s' e.
Proof.
  destruct ks as [|k0 ks0] eqn:Ei; [by apply deletes_nothing|]. unfold bgBatchDelete, inWriteBatch. rewrite <- Ei. clear Ei.
  pose proof (bl_new s) as H. destruct (NewWriteBatch s) as [s1 wb]. destruct H as [Hn1 Hf].
  pose proof (addDeletes_spec ks s1 wb _ [] Hf) as H. destruct (bgAddDeletes _ _ _ _) as [s2 [wb' e]].
  destruct H as (Hn2 & q & Hq & He & Hf2). pose proof (finish_spec s2 wb' e _ _ Hf2) as H.
  destruct (match e with Some _ => _ | None => _ end) as [s3 e']. destruct H as (Hn3 & p & Hp & Hr & He'). cbn [app] in Hp, He'.
  apply fmap_prefix in Hp as (p' & Hp' & ->). rewrite applyOps_drops in Hr.
  apply (deletes_rows kf rows now _ _ _ _ p'); [lia| | |done].
  - etrans; [by apply prefix_subset|]. destruct Hq as [q2 ->]. rewrite fmap_app. set_solver.
  - intros ->. destruct (He' eq_refl) as [-> Heq]. rewrite He in Heq by done. by apply list_fmap_eq_inj in Heq; [|intros ?? [=]].
Qed.

(** A key read in a transaction of a view. *)
Definition view_ok (m : rowTable) (t0 t1 : Z) (txn : Txn) : Prop := ∀ k,
  (∀ v, (bgRead c txn k).1 = Some v → shown (bgCodec c) visibleSec m t0 (kf k) v) ∧
  ((bgRead c txn k).2 = None → ∀ v, shown (bgCodec c) visibleSec m t1 (kf k) v → (bgRead c txn k).1 = Some v).

Lemma view_spec s :
  let '(s', r) := bgView s in now s ≤ now s' ∧ rows s' = rows s ∧ match r with inl _ => True | inr txn => view_ok (rows s) (now s) (now s') txn end.
Proof.
  pose proof (bl_view s) as H. destruct (bgView s) as [s' [e|txn]]; destruct H as (Hn & Hr & H); split_and!; try done.
  intros k. specialize (H (kf k)). unfold bgRead. destruct (txnGet txn (kf k)) as [e|[item|]]; [done| |].
  - destruct H as (d & dl & Hrow & Hv & Hx). destruct (itemValue item) as [e|x]; [done|]. rewrite (Hx x eq_refl), Unmarshal_dec. cbn.
    split; [intros v [= <-]; by exists d, dl|]. intros _ v (d' & dl' & Hd & _ & <-). congruence.
  - split; [done|]. cbn. intros _ v (d & dl & Hd & Hv & _). apply H in Hd. congruence.
Qed.

Lemma readAll_spec m t0 t1 txn ks found : view_ok m t0 t1 txn →
  ∃ more e, bgReadAll c txn ks found = (found ++ more, e) ∧
    (∀ k v, (k, v) ∈ more → k ∈ ks ∧ shown (bgCodec c) visibleSec m t0 (kf k) v) ∧
    (e = None → ∀ k v, k ∈ ks → shown (bgCodec c) visibleSec m t1 (kf k) v → (k, v) ∈ more).
Proof.
  intros Hview. revert found. induction ks as [|k ks IH]; intros found; cbn [bgReadAll].
  { exists [], None. rewrite app_nil_r. split_and!; [done|by intros k v ?%elem_of_nil|by intros _ k v ?%elem_of_nil]. }
  destruct (Hview k) as [H1 H2]. destruct (bgRead c txn k) as [a [e|]]; cbn [fst snd] in *.
  { exists [], (Some e). rewrite app_nil_r. destruct a as [a0|]; (split_and!; [done|by intros k' v ?%elem_of_nil|done]). }
  set (hit := match a with Some v => [(k, v)] | None => [] end). destruct (IH (found ++ hit)) as (more & e & Hrun & Hs & Hc).
  exists (hit ++ more), e. split_and!.
  - rewrite app_assoc, <- Hrun. unfold hit. destruct a; [done|by rewrite app_nil_r].
  - intros k' v [Hh|Hm]%elem_of_app; [|apply Hs in Hm as [? ?]; split; [by right|done]].
    destruct a as [v0|]; [|by apply elem_of_nil in Hh]. apply list_elem_of_singleton in Hh as [= -> ->]. split; [by left|by apply H1].
  - intros He k' v [->|Hk]%elem_of_cons Hv; apply elem_of_app; [left|right; by apply Hc]. unfold hit.
    rewrite (H2 eq_refl v Hv). by left.
Qed.

Lemma badger_lawful : timed_lawful kf (bgCodec c) rows now visibleSec deadlineSec true (badgerL2 c).
Proof.
  split; cbn [l2Get l2BatchGet l2Set l2BatchSet l2Delete l2BatchDelete badgerL2].
  - intros s k. unfold bgGet. pose proof (view_spec s) as H. destruct (bgView s) as [s' [e|txn]]; destruct H as (Hn & Hr & H); [by split_and!|].
    destruct (H k). by split_and!.
  - intros s [|k0 ks0]; [split_and!; [done|done|by intros k v ?%elem_of_nil|by intros _ k v ?%elem_of_nil]|]. unfold bgBatchGet.
    pose proof (view_spec s) as H. destruct (bgView s) as [s' [e|txn]]; destruct H as (Hn & Hr & H); [by split_and!; [..|intros k v ?%elem_of_nil|]|].
    destruct (readAll_spec _ _ _ txn (k0 :: ks0) [] H) as (more & e & -> & Hs & Hc). destruct e as [e|]; [by split_and!; [..|intros k v ?%elem_of_nil|]|].
    split_and!; [done|done|exact Hs|]. intros _ k v Hk Hv. exists k. split; [done|by apply Hc].
  - intros s k v ttl. unfold bgSet. rewrite Marshal_enc. pose proof (bl_update s (BgSetEntry (newEntry (kf k) (enc v) ttl))) as H.
    destruct (bgUpdate _ _) as [s' e]. destruct H as [Hn H]. apply writes_single; [done|]. destruct H as [(o & Ho & Hr)|H]; [left|by right].
    apply entry_resolves in Ho as (t & Ht & ->). by exists t.
  - apply bgBatchSet_writes.
  - intros s k. unfold bgDelete. pose proof (bl_update s (BgDelete (kf k))) as H. destruct (bgUpdate _ _) as [s' e]. destruct H as [Hn H].
    apply deletes_single; [done|]. destruct H as [(o & -> & Hr)|H]; [by left|by right].
  - apply bgBatchDelete_deletes.
Qed.
End Adapter.
