(* ===== verification/Aerospike.v ===== *)
(** * The Aerospike adapter (l2/aerospike_adapter/aerospike.go) *)

From stdpp Require Import strings gmap.
From S2P Require Import Prelude Expiry Config CacheState Snapshot L2Util L2UtilLaws Redis KvStore Dedup TimedStore.

Definition binName : string := "value".

(** A record's bins, of which those that hold bytes are kept. *)
Abbreviation asRecord := (gmap string bytes).

Inductive asBatchRecord (Key : Type) := BatchWrite (expiration : Z) (key : Key) (bin : string) (data : bytes) | BatchDeleteOf (key : Key).
Arguments BatchWrite {Key}.
Arguments BatchDeleteOf {Key}.

(** Error codes: whether an error matches KEY_NOT_FOUND_ERROR or UNSUPPORTED_FEATURE.  [BatchOperate] answers with its own error, or
    the error of each record. *)
Class AerospikeClient (D E Key : Type) := {
  asNewKey : string → string → string → E + Key;
  keyNotFound : E → bool;
  unsupportedFeature : E → bool;
  asGetRecord : D → Key → string → D * (E + asRecord);
  asPut : D → Z → Key → string → bytes → D * option E;
  asDeleteRecord : D → Key → D * option E;
  asBatchGetRecords : D → list Key → string → D * (E + list (option asRecord));
  BatchOperate : D → list (asBatchRecord Key) → D * (E + list (option E))
}.

Record aerospikeCache (K V E : Type) := mkAerospike { asNamespace : string; asSetName : string; asCodec : Codec V E; asKeyFunc : K → string }.
Arguments mkAerospike {K V E}.
Arguments asNamespace {K V E}.
Arguments asSetName {K V E}.
Arguments asCodec {K V E}.
Arguments asKeyFunc {K V E}.

Definition asNew {K V E} (isString : option (K → string)) (client : bool) (codec : option (Codec V E)) (namespace set : string)
    (keyOpts : list (@keyOption K string)) : UtilError + aerospikeCache K V E :=
  match client, codec with
  | false, _ => inl ErrNilClient
  | _, None => inl ErrNilCodec
  | true, Some codec => match ExtractKeyFunc isString keyOpts with inl err => inl err | inr keyFunc => inr (mkAerospike namespace set codec keyFunc) end
  end.

Definition TTLDontExpire : Z := 2 ^ 32 - 1.

Definition expiration (ttl : Z) : Z := if ttl <=? 0 then TTLDontExpire else u32 (i64 (ttl + second - 1) ÷ second).

Section Aerospike.
Context {K V E D Key : Type} `{!AerospikeClient D E Key} (c : aerospikeCache K V E).
Implicit Types (s : D) (key : K) (keys : list K) (value : V) (items : list (K * V)) (ttl : Z).

Definition newKey key : E + Key := asNewKey (asNamespace c) (asSetName c) (asKeyFunc c key).

Definition decode (rec : option asRecord) : option V * option E :=
  match rec with
  | None => (None, None)
  | Some bins =>
    match bins !! binName with
    | None => (None, None)
    | Some raw => match Unmarshal (asCodec c) raw with inl e => (None, Some e) | inr value => (Some value, None) end
    end
  end.

Definition asGet s key : D * (option V * option E) :=
  match newKey key with
  | inl e => (s, (None, Some e))
  | inr asKey =>
    let '(s, r) := asGetRecord s asKey binName in
    match r with
    | inl e => if keyNotFound e then (s, (None, None)) else (s, (None, Some e))
    | inr rec => (s, decode (Some rec))
    end
  end.

Definition asSet s key value ttl : D * option E :=
  match Marshal (asCodec c) value with
  | inl e => (s, Some e)
  | inr data => match newKey key with inl e => (s, Some e) | inr asKey => asPut s (expiration ttl) asKey binName data end
  end.

Definition asDelete s key : D * option E :=
  match newKey key with inl e => (s, Some e) | inr asKey => asDeleteRecord s asKey end.

(** The keys of a batch, up to the first that cannot be made. *)
Fixpoint newKeys keys : E + list Key :=
  match keys with
  | [] => inr []
  | key :: keys =>
    match newKey key with inl e => inl e | inr asKey => match newKeys keys with inl e => inl e | inr asKeys => inr (asKey :: asKeys) end end
  end.

(** The records in the order of the keys; an index past the keys would panic, and stops here. *)
Fixpoint readRecords keys (records : list (option asRecord)) (found : list (K * V)) : list (K * V) * option E :=
  match records, keys with
  | rec :: records, key :: keys =>
    match decode rec with
    | (_, Some e) => (found, Some e)
    | (Some value, None) => readRecords keys records (found ++ [(key, value)])
    | (None, None) => readRecords keys records found
    end
  | _, _ => (found, None)
  end.

Definition asBatchGet s keys : D * (list (K * V) * option E) :=
  match keys with
  | [] => (s, ([], None))
  | _ =>
    match newKeys keys with
    | inl e => (s, ([], Some e))
    | inr asKeys =>
      let '(s, r) := asBatchGetRecords s asKeys binName in
      match r with inl e => (s, ([], Some e)) | inr records => (s, readRecords keys records []) end
    end
  end.

Fixpoint writeRecords (exp : Z) items : E + list (asBatchRecord Key) :=
  match items with
  | [] => inr []
  | (key, value) :: items =>
    match Marshal (asCodec c) value with
    | inl e => inl e
    | inr data =>
      match newKey key with
      | inl e => inl e
      | inr asKey => match writeRecords exp items with inl e => inl e | inr records => inr (BatchWrite exp asKey binName data :: records) end
      end
    end
  end.

(** The first error of the records that [skip] does not allow. *)
Fixpoint firstRecordError (skip : E → bool) (errs : list (option E)) : option E :=
  match errs with
  | [] => None
  | Some e :: errs => if skip e then firstRecordError skip errs else Some e
  | None :: errs => firstRecordError skip errs
  end.

(** The adapter as the sequential helpers see it: they call its single operations only. *)
Definition asSingles : L2Cache K V D E := {|
  l2Get := asGet; l2BatchGet := asBatchGet; l2Set := asSet; l2BatchSet s _ _ := (s, None); l2Delete := asDelete; l2BatchDelete s _ := (s, None)
|}.

Definition asBatchSet s items ttl : D * option E :=
  if (length items <=? 1)%nat then BatchSetSequential (L2Cache0 := asSingles) s items ttl
  else
    match writeRecords (expiration ttl) items with
    | inl e => (s, Some e)
    | inr records =>
      let '(s, r) := BatchOperate s records in
      match r with
      | inl e => if unsupportedFeature e then BatchSetSequential (L2Cache0 := asSingles) s items ttl else (s, Some e)
      | inr errs => (s, firstRecordError (λ _, false) errs)
      end
    end.

Definition asBatchDelete s keys : D * option E :=
  if (length keys <=? 1)%nat then BatchDeleteSequential (L2Cache0 := asSingles) s keys
  else
    match newKeys keys with
    | inl e => (s, Some e)
    | inr asKeys =>
      let '(s, r) := BatchOperate s (BatchDeleteOf <$> asKeys) in
      match r with
      | inl e => if unsupportedFeature e then BatchDeleteSequential (L2Cache0 := asSingles) s keys else (s, Some e)
      | inr errs => (s, firstRecordError keyNotFound errs)
      end
    end.

Definition aerospikeL2 : L2Cache K V D E := {|
  l2Get := asGet; l2BatchGet := asBatchGet; l2Set := asSet; l2BatchSet := asBatchSet; l2Delete := asDelete; l2BatchDelete := asBatchDelete
|}.
End Aerospike.

(** ** The Aerospike adapter keeps its promise *)

Section Laws.
Context {D E Key DL : Type} `{!AerospikeClient D E Key}.
(** [rows] is what the set holds, expired records included; [storageKey] the user key of a client key; [serverDeadline] what the
    server makes of an expiration. *)
Context (rows : D → gmap string (bytes * DL)) (now : D → Z) (visible : Z → DL → bool) (serverDeadline : Z → Z → DL) (storageKey : Key → string).
Context (namespace set : string).

Definition recKey (r : asBatchRecord Key) : string := match r with BatchWrite _ k _ _ => storageKey k | BatchDeleteOf k => storageKey k end.

(** The row a record of a batch leaves. *)
Definition leaves (t0 t1 : Z) (r : asBatchRecord Key) (row : option (bytes * DL)) : Prop :=
  match r with BatchWrite exp _ _ d => ∃ t, t0 ≤ t ≤ t1 ∧ row = Some (d, serverDeadline t exp) | BatchDeleteOf _ => row = None end.

Definition failed (r : asBatchRecord Key) (err : option E) : Prop :=
  match err with None => False | Some e => match r with BatchWrite _ _ _ _ => True | BatchDeleteOf _ => keyNotFound e = false end end.

Definition hasRecord (m : gmap string (bytes * DL)) (t0 t1 : Z) (k : Key) (rec : option asRecord) : Prop :=
  match rec with
  | None => ∀ d dl, m !! storageKey k = Some (d, dl) → visible t1 dl = false
  | Some bins => ∃ d dl, m !! storageKey k = Some (d, dl) ∧ visible t0 dl = true ∧ bins !! binName = Some d
  end.

(** The records of a batch are executed in no particular order; a server without batch writes says so and does nothing. *)
Class AerospikeLaws : Prop := {
  al_key sk k : asNewKey namespace set sk = inr k → storageKey k = sk;
  al_get s k :
    let '(s', r) := asGetRecord s k binName in now s ≤ now s' ∧ rows s' = rows s ∧
    match r with
    | inl e => keyNotFound e = true → hasRecord (rows s) (now s) (now s') k None
    | inr rec => hasRecord (rows s) (now s) (now s') k (Some rec)
    end;
  al_put s exp k d :
    let '(s', e) := asPut s exp k binName d in now s ≤ now s' ∧
    ((∃ t, now s ≤ t ≤ now s' ∧ rows s' = <[storageKey k := (d, serverDeadline t exp)]> (rows s)) ∨ e ≠ None ∧ rows s' = rows s);
  al_delete s k :
    let '(s', e) := asDeleteRecord s k in now s ≤ now s' ∧ (rows s' = delete (storageKey k) (rows s) ∨ e ≠ None ∧ rows s' = rows s);
  al_batchGet s ks :
    let '(s', r) := asBatchGetRecords s ks binName in now s ≤ now s' ∧ rows s' = rows s ∧
    match r with inl _ => True | inr l => Forall2 (hasRecord (rows s) (now s) (now s')) ks l end;
  al_operate s recs :
    (∀ exp k bin d, BatchWrite exp k bin d ∈ recs → bin = binName) →
    let '(s', r) := BatchOperate s recs in now s ≤ now s' ∧
    match r with
    | inl e => if unsupportedFeature e then rows s' = rows s
        else ∀ sk, rows s' !! sk = rows s !! sk ∨ ∃ rec, rec ∈ recs ∧ recKey rec = sk ∧ leaves (now s) (now s') rec (rows s' !! sk)
    | inr errs => length errs = length recs ∧ ∀ sk,
        (rows s' !! sk = rows s !! sk ∧ ∀ i rec err, recs !! i = Some rec → errs !! i = Some err → recKey rec = sk → failed rec err) ∨
        ∃ rec, rec ∈ recs ∧ recKey rec = sk ∧ leaves (now s) (now s') rec (rows s' !! sk)
    end
}.
End Laws.
Arguments al_key {D E Key DL _ rows now visible serverDeadline storageKey namespace set _}.
Arguments al_get {D E Key DL _ rows now visible serverDeadline storageKey namespace set _}.
Arguments al_put {D E Key DL _ rows now visible serverDeadline storageKey namespace set _}.
Arguments al_delete {D E Key DL _ rows now visible serverDeadline storageKey namespace set _}.
Arguments al_batchGet {D E Key DL _ rows now visible serverDeadline storageKey namespace set _}.
Arguments al_operate {D E Key DL _ rows now visible serverDeadline storageKey namespace set _}.

Section Adapter.
Context {K V E D Key DL : Type} `{!AerospikeClient D E Key} (c : aerospikeCache K V E) `{!TotalCodec (asCodec c)}.
Context (rows : D → gmap string (bytes * DL)) (now : D → Z) (visible : Z → DL → bool) (serverDeadline : Z → Z → DL) (storageKey : Key → string).
Context `{!AerospikeLaws rows now visible serverDeadline storageKey (asNamespace c) (asSetName c)}.
Abbreviation kf := (asKeyFunc c).
Abbreviation deadline := (λ t ttl, serverDeadline t (expiration ttl)).

Lemma newKey_spec k ak : newKey c k = inr ak → storageKey ak = kf k.
Proof. exact (al_key (kf k) ak). Qed.

Lemma decode_spec m t0 t1 k ak rec : storageKey ak = kf k → hasRecord visible storageKey m t0 t1 ak rec →
  (∀ v, (decode c rec).1 = Some v → shown (asCodec c) visible m t0 (kf k) v) ∧ (decode c rec).2 = None ∧
  ∀ v, shown (asCodec c) visible m t1 (kf k) v → (decode c rec).1 = Some v.
Proof.
  intros Hk. unfold hasRecord, shown. rewrite Hk. destruct rec as [bins|]; cbn [decode].
  - intros (d & dl & Hm & Hv & ->). rewrite Unmarshal_dec. cbn. split_and!; [intros v [= <-]; by exists d, dl|done|].
    intros v (d' & dl' & Hd & _ & <-). congruence.
  - intros H. split_and!; [done..|]. intros v (d & dl & Hd & Hv & _). apply H in Hd. congruence.
Qed.

Lemma newKeys_spec ks aks : newKeys c ks = inr aks → Forall2 (λ k ak, storageKey ak = kf k) ks aks.
Proof.
  revert aks. induction ks as [|k ks IH]; intros aks; cbn [newKeys]; [by intros [= <-]|]. destruct (newKey c k) as [e|ak] eqn:Ek; [done|].
  destruct (newKeys c ks) as [e|aks']; [done|]. intros [= <-]. constructor; [by apply newKey_spec|by apply IH].
Qed.

Lemma readRecords_spec m t0 t1 ks aks l found :
  Forall2 (λ k ak, storageKey ak = kf k) ks aks → Forall2 (hasRecord visible storageKey m t0 t1) aks l →
  ∃ more, readRecords c ks l found = (found ++ more, None) ∧
    (∀ k v, (k, v) ∈ more → k ∈ ks ∧ shown (asCodec c) visible m t0 (kf k) v) ∧
    (∀ k v, k ∈ ks → shown (asCodec c) visible m t1 (kf k) v → (k, v) ∈ more).
Proof.
  intros Hks. revert l found. induction Hks as [|k ak ks aks Hk Hks IH]; intros l found Hl; inversion Hl as [|? rec ? l' Hrec Hl']; subst; cbn [readRecords].
  { exists []. rewrite app_nil_r. split_and!; [done|by intros k v ?%elem_of_nil|by intros k v ?%elem_of_nil]. }
  destruct (decode_spec _ _ _ _ _ _ Hk Hrec) as (H1 & H2 & H3). destruct (decode c rec) as [a e]. cbn [fst snd] in *. subst e.
  set (hit := match a with Some v => [(k, v)] | None => [] end). destruct (IH l' (found ++ hit) Hl') as (more & Hrun & Hs & Hc).
  exists (hit ++ more). split_and!.
  - rewrite app_assoc, <- Hrun. unfold hit. destruct a; [done|by rewrite app_nil_r].
  - intros k' v [Hh|Hm]%elem_of_app; [|apply Hs in Hm as [? ?]; split; [by right|done]].
    destruct a as [v0|]; [|by apply elem_of_nil in Hh]. apply list_elem_of_singleton in Hh as [= -> ->]. split; [by left|by apply H1].
  - intros k' v [->|Hk']%elem_of_cons Hv; apply elem_of_app; [left|right; by apply Hc]. unfold hit. rewrite (H3 v Hv). by left.
Qed.

Lemma asSet_writes s k v ttl : let '(s', e) := asSet c s k v ttl in writes_all kf (asCodec c) rows now deadline s [(k, v)] ttl s' e.
Proof.
  unfold asSet. rewrite Marshal_enc. destruct (newKey c k) as [e|ak] eqn:Ek; [by apply writes_nothing|].
  pose proof (al_put s (expiration ttl) ak (enc v)) as H. destruct (asPut _ _ _ _ _) as [s' e]. destruct H as [Hn H].
  apply newKey_spec in Ek. rewrite Ek in H. by apply writes_single.
Qed.

Lemma asDelete_deletes s k : let '(s', e) := asDelete c s k in deletes_all kf rows now s [k] s' e.
Proof.
  unfold asDelete. destruct (newKey c k) as [e|ak] eqn:Ek; [by apply deletes_nothing|].
  pose proof (al_delete s ak) as H. destruct (asDeleteRecord _ _) as [s' e]. destruct H as [Hn H].
  apply newKey_spec in Ek. rewrite Ek in H. by apply deletes_single.
Qed.

(** The record of an item, and of a key to delete. *)
Definition writeOf ttl (kv : K * V) (r : asBatchRecord Key) : Prop :=
  ∃ ak, storageKey ak = kf kv.1 ∧ r = BatchWrite (expiration ttl) ak binName (enc kv.2).

Lemma writeRecords_spec ttl items recs : writeRecords c (expiration ttl) items = inr recs → Forall2 (writeOf ttl) items recs.
Proof.
  revert recs. induction items as [|[k v] items IH]; intros recs; cbn [writeRecords]; [by intros [= <-]|]. rewrite Marshal_enc.
  destruct (newKey c k) as [e|ak] eqn:Ek; [done|]. destruct (writeRecords c (expiration ttl) items) as [e|recs']; [done|].
  intros [= <-]. constructor; [exists ak; split; [by apply newKey_spec|done]|by apply IH].
Qed.

(** An error among the records is reported. *)
Lemma firstRecordError_some (skip : E → bool) errs i e : errs !! i = Some (Some e) → skip e = false → firstRecordError skip errs ≠ None.
Proof.
  revert i. induction errs as [|[e'|] errs IH]; intros [|i]; cbn; try done.
  - intros [= ->] ->. done.
  - intros Hi Hs. destruct (skip e'); [by eapply IH|done].
  - intros Hi Hs. by eapply IH.
Qed.

Lemma operate_writes s items ttl recs :
  Forall2 (writeOf ttl) items recs → let '(s', r) := BatchOperate s recs in now s ≤ now s' ∧
  match r with
  | inl e => if unsupportedFeature e then rows s' = rows s else writes_some kf (asCodec c) rows now deadline s items ttl s' (Some e)
  | inr errs => writes_some kf (asCodec c) rows now deadline s items ttl s' (firstRecordError (λ _, false) errs)
  end.
Proof.
  intros Hrecs. opose proof* (al_operate s recs) as H.
  { intros exp ak bin d Hin. apply list_elem_of_lookup in Hin as [i Hi]. destruct (Forall2_lookup_r _ _ _ _ _ Hrecs Hi) as (kv & _ & ak' & _ & [= -> -> -> ->]). done. }
  destruct (BatchOperate s recs) as [s' r]. destruct H as [Hn H]. split; [done|].
  assert (∀ sk rec, rec ∈ recs → recKey storageKey rec = sk → leaves serverDeadline (now s) (now s') rec (rows s' !! sk) →
    one_of kf (asCodec c) now deadline s s' items ttl sk (rows s' !! sk)) as Hone.
  { intros sk rec [i Hi]%list_elem_of_lookup Hk Hl. destruct (Forall2_lookup_r _ _ _ _ _ Hrecs Hi) as ([k v] & Hkv & ak & Hak & ->). cbn in *.
    exists k, v. split_and!; [by eapply list_elem_of_lookup_2|congruence|done]. }
  destruct r as [e|errs].
  - destruct (unsupportedFeature e); [done|]. split; [done|]. intros sk. destruct (H sk) as [H0|(rec & Hrec & Hk & Hl)].
    + destruct (lastOf _ sk items); [by right|done].
    + specialize (Hone sk rec Hrec Hk Hl). destruct (one_of_named _ _ _ _ _ _ _ _ _ _ Hone) as [y ->]. by left.
  - destruct H as [Hlen H]. split; [done|]. intros sk. destruct (H sk) as [[H0 Hf]|(rec & Hrec & Hk & Hl)].
    + destruct (lastOf _ sk items) as [[k v]|] eqn:El; [|done]. right. split; [|done]. apply lastOf_key in El as [Hkv Hk].
      apply list_elem_of_lookup in Hkv as [i Hi]. destruct (Forall2_lookup_l _ _ _ _ _ Hrecs Hi) as (rec & Hrec & ak & Hak & ->).
      destruct (lookup_lt_is_Some_2 errs i) as [err Herr]; [rewrite Hlen; by eapply lookup_lt_Some|].
      specialize (Hf i _ err Hrec Herr ltac:(cbn in *; congruence)). destruct err as [e|]; [|done]. by eapply firstRecordError_some.
    + specialize (Hone sk rec Hrec Hk Hl). destruct (one_of_named _ _ _ _ _ _ _ _ _ _ Hone) as [y ->]. by left.
Qed.

Lemma asBatchSet_writes s items ttl : let '(s', e) := asBatchSet c s items ttl in writes_some kf (asCodec c) rows now deadline s items ttl s' e.
Proof.
  pose proof (BatchSetSequential_writes kf (asCodec c) rows now deadline (L2Cache0 := asSingles c) asSet_writes items) as Hseq.
  unfold asBatchSet. destruct (length items <=? 1)%nat.
  { specialize (Hseq s ttl). destruct (BatchSetSequential _ _ _). by apply writes_all_some. }
  destruct (writeRecords c (expiration ttl) items) as [e|recs] eqn:Er; [by apply writes_all_some, writes_nothing|].
  apply writeRecords_spec in Er. pose proof (operate_writes s items ttl recs Er) as H. destruct (BatchOperate s recs) as [s1 [e|errs]]; destruct H as [Hn H]; [|done].
  destruct (unsupportedFeature e); [|done]. specialize (Hseq s1 ttl). destruct (BatchSetSequential _ _ _). by apply writes_all_some, (writes_earlier _ _ _ _ _ s s1).
Qed.

Lemma operate_deletes s ks aks :
  Forall2 (λ k ak, storageKey ak = kf k) ks aks → let '(s', r) := BatchOperate s (BatchDeleteOf <$> aks) in now s ≤ now s' ∧
  match r with
  | inl e => if unsupportedFeature e then rows s' = rows s else deletes_all kf rows now s ks s' (Some e)
  | inr errs => deletes_all kf rows now s ks s' (firstRecordError keyNotFound errs)
  end.
Proof.
  intros Hks. assert (∀ sk rec, rec ∈ BatchDeleteOf <$> aks → recKey storageKey rec = sk → sk ∈ kf <$> ks ∧ ∀ t0 t1 row, leaves serverDeadline t0 t1 rec row → row = None) as Hrec.
  { intros sk rec (ak & -> & [i Hi]%list_elem_of_lookup)%list_elem_of_fmap Hk. destruct (Forall2_lookup_r _ _ _ _ _ Hks Hi) as (k & Hkk & Hak). cbn in *.
    split; [|done]. apply list_elem_of_fmap. exists k. split; [congruence|by eapply list_elem_of_lookup_2]. }
  opose proof* (al_operate s (BatchDeleteOf <$> aks)) as H; [by intros ? ? ? ? (? & ? & _)%list_elem_of_fmap|].
  destruct (BatchOperate _ _) as [s' r]. destruct H as [Hn H]. split; [done|]. destruct r as [e|errs].
  - destruct (unsupportedFeature e); [done|]. split; [done|]. intros sk. destruct (H sk) as [H0|(rec & Hin & Hk & Hl)]; [case_decide; auto|].
    destruct (Hrec sk rec Hin Hk) as [? Hnone]. rewrite decide_True by done. left. by eapply Hnone.
  - destruct H as [Hlen H]. split; [done|]. intros sk. destruct (H sk) as [[H0 Hf]|(rec & Hin & Hk & Hl)].
    + case_decide as Hd; [|done]. right. split; [|done]. apply list_elem_of_fmap in Hd as (k & -> & [i Hi]%list_elem_of_lookup).
      destruct (Forall2_lookup_l _ _ _ _ _ Hks Hi) as (ak & Hak & Heq).
      assert ((BatchDeleteOf <$> aks) !! i = Some (BatchDeleteOf ak)) as Hr by by rewrite list_lookup_fmap, Hak.
      destruct (lookup_lt_is_Some_2 errs i) as [err Herr]; [rewrite Hlen; by eapply lookup_lt_Some|].
      specialize (Hf i _ err Hr Herr Heq). destruct err as [e|]; [|done]. by eapply firstRecordError_some.
    + destruct (Hrec sk rec Hin Hk) as [? Hnone]. rewrite decide_True by done. left. by eapply Hnone.
Qed.

Lemma asBatchDelete_deletes s ks : let '(s', e) := asBatchDelete c s ks in deletes_all kf rows now s ks s' e.
Proof.
  pose proof (BatchDeleteSequential_deletes kf rows now (L2Cache0 := asSingles c) asDelete_deletes ks) as Hseq.
  unfold asBatchDelete. destruct (length ks <=? 1)%nat; [apply Hseq|].
  destruct (newKeys c ks) as [e|aks] eqn:Er; [by apply deletes_nothing|].
  apply newKeys_spec in Er. pose proof (operate_deletes s ks aks Er) as H. destruct (BatchOperate _ _) as [s1 [e|errs]]; destruct H as [Hn H]; [|done].
  destruct (unsupportedFeature e); [|done]. specialize (Hseq s1). destruct (BatchDeleteSequential _ _). by apply (deletes_earlier _ _ _ s s1).
Qed.

Lemma aerospike_lawful : timed_lawful kf (asCodec c) rows now visible deadline false (aerospikeL2 c).
Proof.
  split; cbn [l2Get l2BatchGet l2Set l2BatchSet l2Delete l2BatchDelete aerospikeL2].
  - intros s k. unfold asGet. destruct (newKey c k) as [e|ak] eqn:Ek; [by split_and!|]. apply newKey_spec in Ek.
    pose proof (al_get s ak) as H. destruct (asGetRecord _ _ _) as [s' [e|rec]]; destruct H as (Hn & Hr & H).
    + destruct (keyNotFound e); [|by split_and!]. destruct (decode_spec _ _ _ k ak None Ek (H eq_refl)) as (_ & _ & H3). split_and!; [done..|]. by intros _.
    + destruct (decode_spec _ _ _ k ak (Some rec) Ek H) as (H1 & _ & H3). by split_and!.
  - intros s [|k0 ks0]; [split_and!; [done|done|by intros k v ?%elem_of_nil|by intros _ k v ?%elem_of_nil]|]. unfold asBatchGet.
    destruct (newKeys c (k0 :: ks0)) as [e|aks] eqn:Er; [by split_and!; [..|intros k v ?%elem_of_nil|]|]. apply newKeys_spec in Er.
    pose proof (al_batchGet s aks) as H. destruct (asBatchGetRecords _ _ _) as [s' [e|l]]; destruct H as (Hn & Hr & H); [by split_and!; [..|intros k v ?%elem_of_nil|]|].
    destruct (readRecords_spec _ _ _ _ _ l [] Er H) as (more & -> & Hs & Hc). split_and!; [done|done|exact Hs|]. intros _ k v Hk Hv. exists k. split; [done|by apply Hc].
  - apply asSet_writes.
  - apply asBatchSet_writes.
  - apply asDelete_deletes.
  - apply asBatchDelete_deletes.
Qed.
End Adapter.

(** ** The expiration *)

(** For the TTLs the field can hold, the expiration is the TTL in whole seconds, rounded up. *)
Lemma expiration_spec ttl : 0 < ttl → ttl ≤ (2 ^ 32 - 2) * second → ttl ≤ expiration ttl * second < ttl + second.
Proof.
  intros H1 H2. unfold expiration. rewrite (proj2 (Z.leb_gt ttl 0)) by done. pose proof (round_up ttl second ltac:(done)) as Hr.
  rewrite i64_small by (unfold second in *; lia). rewrite Z.quot_div_nonneg by (unfold second; lia). unfold u32. rewrite Z.mod_small; [done|].
  unfold second in *. lia.
Qed.

(** A longer TTL wraps around: 2^32 seconds become 0, the server's default. *)
Example expiration_wraps : expiration (2 ^ 32 * second) = 0 ∧ expiration ((2 ^ 32 + 1) * second) = 1.
Proof. split; reflexivity. Qed.
