(* ===== verification/Memcache.v ===== *)
(** * The memcached adapters (l2/gomemcache_adapter, l2/rainycape_adapter, l2/mc_adapter)

    The first two are the same source over clients with the same interface; mc speaks the binary protocol and
    has no multi-get.  Batches the client has no call for run on several goroutines, so they are relations. *)

From stdpp Require Import strings gmap relations.
From S2P Require Import Prelude Item Expiry Config Stats CacheState WriteBack WriteBackSteps Snapshot L2Util L2UtilLaws Redis KvStore Dedup TimedStore.

(** What an operation answers besides an error of its own: the client's error for a missing key. *)
Inductive McError (E : Type) := CacheMiss | McErr (e : E).
Arguments CacheMiss {E}.
Arguments McErr {E}.

Class MemcacheClient (D E : Type) := {
  mcNow : D → Z;
  mcClientGet : D → string → D * (McError E + bytes);
  mcClientSet : D → string → bytes → Z → D * option (McError E);
  mcClientDelete : D → string → D * option (McError E);
  GetMulti : D → list string → D * (McError E + gmap string bytes)
}.

Record memcacheCache (K V E : Type) := mkMemcache { mmCodec : Codec V E; mmKeyFunc : K → string }.
Arguments mkMemcache {K V E}.
Arguments mmCodec {K V E}.
Arguments mmKeyFunc {K V E}.

Definition mmNew {K V E} (isString : option (K → string)) (client : bool) (codec : option (Codec V E))
    (keyOpts : list (@keyOption K string)) : UtilError + memcacheCache K V E :=
  match client, codec with
  | false, _ => inl ErrNilClient
  | _, None => inl ErrNilCodec
  | true, Some codec => match ExtractKeyFunc isString keyOpts with inl err => inl err | inr keyFunc => inr (mkMemcache codec keyFunc) end
  end.

Definition rcNew {K V E} : option (K → string) → bool → option (Codec V E) → list keyOption → UtilError + memcacheCache K V E := mmNew.
Definition mcNew {K V E} : option (K → string) → bool → option (Codec V E) → list keyOption → UtilError + memcacheCache K V E := mmNew.

Definition BatchWorkers : nat := 8.

Section Memcache.
Context {K V E D : Type} `{!GoType K} `{!MemcacheClient D E} (c : memcacheCache K V E).
(** The order in which a range over a map visits it. *)
Context (rangeItems : gmap string bytes → list (string * bytes)).
Implicit Types (s : D) (key : K) (keys : list K) (value : V) (items : list (K * V)) (ttl : Z).
Abbreviation Err := (McError E).

Definition mmGet s key : D * (option V * option Err) :=
  let '(s, r) := mcClientGet s (mmKeyFunc c key) in
  match r with
  | inl CacheMiss => (s, (None, None))
  | inl e => (s, (None, Some e))
  | inr data => match Unmarshal (mmCodec c) data with inl e => (s, (None, Some (McErr e))) | inr value => (s, (Some value, None)) end
  end.

Definition mmSet s key value ttl : D * option Err :=
  match Marshal (mmCodec c) value with
  | inl e => (s, Some (McErr e))
  | inr data => mcClientSet s (mmKeyFunc c key) data (MemcacheExpiration (mcNow s / second) ttl)
  end.

(** A missing key is not an error. *)
Definition mmDelete s key : D * option Err :=
  let '(s, err) := mcClientDelete s (mmKeyFunc c key) in
  (s, match err with Some CacheMiss => None | _ => err end).

(** A key the server made up is given to the zero key. *)
Fixpoint readItemsOf (byStorageKey : gmap string K) (l : list (string * bytes)) (found : list (K * V)) : list (K * V) * option Err :=
  match l with
  | [] => (found, None)
  | (storageKey, data) :: l =>
    match Unmarshal (mmCodec c) data with
    | inl e => (found, Some (McErr e))
    | inr value => readItemsOf byStorageKey l (found ++ [(default go_zero (byStorageKey !! storageKey), value)])
    end
  end.

Definition mmByStorage keys : gmap string K := foldl (λ m key, <[mmKeyFunc c key := key]> m) ∅ keys.

Definition mmBatchGet s keys : D * (list (K * V) * option Err) :=
  match keys with
  | [] => (s, ([], None))
  | _ =>
    let '(s, r) := GetMulti s (mmKeyFunc c <$> keys) in
    match r with inl e => (s, ([], Some e)) | inr items => (s, readItemsOf (mmByStorage keys) (rangeItems items) []) end
  end.

(** The adapter as the concurrent helpers see it: they call its single operations only. *)
Definition mmSingles : L2Cache K V D Err := {|
  l2Get := mmGet; l2BatchGet := mmBatchGet; l2Set := mmSet; l2BatchSet s _ _ := (s, None); l2Delete := mmDelete; l2BatchDelete s _ := (s, None)
|}.

Definition mmBatchSet s items ttl (s' : D) (err : option Err) : Prop := BatchSetConcurrent (L2Cache0 := mmSingles) s items ttl BatchWorkers s' err.

Definition mmBatchDelete s keys (s' : D) (err : option Err) : Prop := BatchDeleteConcurrent (L2Cache0 := mmSingles) s keys BatchWorkers s' err.

(** ** rainycape: the same functions over another client *)

Definition rcGet : D → K → D * (option V * option Err) := mmGet.
Definition rcSet : D → K → V → Z → D * option Err := mmSet.
Definition rcDelete : D → K → D * option Err := mmDelete.
Definition rcBatchGet : D → list K → D * (list (K * V) * option Err) := mmBatchGet.
Definition rcBatchSet : D → list (K * V) → Z → D → option Err → Prop := mmBatchSet.
Definition rcBatchDelete : D → list K → D → option Err → Prop := mmBatchDelete.

(** ** mc *)

(** The expiration of the binary protocol is unsigned. *)
Definition mcSet s key value ttl : D * option Err :=
  match Marshal (mmCodec c) value with
  | inl e => (s, Some (McErr e))
  | inr data => mcClientSet s (mmKeyFunc c key) data (u32 (MemcacheExpiration (mcNow s / second) ttl))
  end.

Definition mcGet : D → K → D * (option V * option Err) := mmGet.
Definition mcDelete : D → K → D * option Err := mmDelete.

(** As for gomemcache; here the helpers also make the batch read. *)
Definition mcSingles : L2Cache K V D Err := {|
  l2Get := mcGet; l2BatchGet s _ := (s, ([], None)); l2Set := mcSet; l2BatchSet s _ _ := (s, None); l2Delete := mcDelete; l2BatchDelete s _ := (s, None)
|}.

Definition mcBatchGet s keys (s' : D) (answer : list (K * V) * option Err) : Prop :=
  BatchGetConcurrent (L2Cache0 := mcSingles) s keys BatchWorkers s' answer.

Definition mcBatchSet s items ttl (s' : D) (err : option Err) : Prop := BatchSetConcurrent (L2Cache0 := mcSingles) s items ttl BatchWorkers s' err.

Definition mcBatchDelete s keys (s' : D) (err : option Err) : Prop := BatchDeleteConcurrent (L2Cache0 := mcSingles) s keys BatchWorkers s' err.
End Memcache.

(** ** The memcached adapters keep their promise

    Batches on several goroutines write each item once, in any order. *)

(** ** Concurrent batches of single operations *)

Section Writes.
Context {K V E E' D DL : Type} (keyFunc : K → string) (codec : Codec V E) `{!TotalCodec codec}.
Context (rows : D → gmap string (bytes * DL)) (now : D → Z) (deadline : Z → Z → DL) `{!L2Cache K V D E'}.
Context (Hset : ∀ s k v ttl, let '(s', e) := l2Set s k v ttl in writes_all keyFunc codec rows now deadline s [(k, v)] ttl s' e).

(** What the writes of a log leave: a key was written by one of them, or all of its writes failed. *)
Lemma replay_writes items ttl s log s' :
  replay (setOp items ttl) s log s' → now s ≤ now s' ∧ ∀ sk,
    one_of keyFunc codec now deadline s s' items ttl sk (rows s' !! sk) ∨
    rows s' !! sk = rows s !! sk ∧ ∀ i r kv, (i, r) ∈ log → items !! i = Some kv → keyFunc kv.1 = sk → r ≠ None.
Proof.
  induction 1 as [|l s1 i s2 r _ [Hn IH] Hop]; [split; [done|]; intros sk; right; split; [done|]; by intros i r kv ?%elem_of_nil|].
  unfold setOp in Hop. destruct (items !! i) as [[k v]|] eqn:Ei; [|injection Hop as <- <-; split; [done|]; intros sk].
  - pose proof (Hset s1 k v ttl) as H. rewrite Hop in H. destruct H as [Hn2 H]. split; [lia|]. intros sk. specialize (H sk).
    rewrite lastOf_cons in H. cbn in H.
    assert (∀ v', written codec now deadline s1 s2 ttl v' (rows s2 !! sk) → v' = v → keyFunc k = sk →
      one_of keyFunc codec now deadline s s2 items ttl sk (rows s2 !! sk)) as Hnew.
    { intros v' Hw -> Hk. exists k, v. split_and!; [by eapply list_elem_of_lookup_2|done|]. by apply (written_wider _ _ _ s s1 s2 s2). }
    assert (rows s2 !! sk = rows s1 !! sk → (keyFunc k = sk → r ≠ None) →
      one_of keyFunc codec now deadline s s2 items ttl sk (rows s2 !! sk) ∨
      rows s2 !! sk = rows s !! sk ∧ ∀ j r' kv, (j, r') ∈ l ++ [(i, r)] → items !! j = Some kv → keyFunc kv.1 = sk → r' ≠ None) as Hsame.
    { intros Heq Hr. destruct (IH sk) as [Ho|[H0 Hall]]; [left|right]; rewrite Heq; [by eapply (one_of_wider _ _ _ _ s s s1 s2)|].
      split; [done|]. intros j r' kv [Hin|[= -> ->]%list_elem_of_singleton]%elem_of_app Hj Hk; [by eapply Hall|].
      rewrite Ei in Hj. injection Hj as <-. by apply Hr. }
    case_decide as Hk; [|by apply Hsame]. destruct H as [Hw|[He [Heq|(k' & v' & Hin & Hk' & Hw)]]]; [left; by eapply Hnew|by apply Hsame|].
    apply list_elem_of_singleton in Hin as [= -> ->]. left. by eapply Hnew.
  - destruct (IH sk) as [Ho|[H0 Hall]]; [by left|right]. split; [done|].
    intros j r' kv [Hin|[= -> ->]%list_elem_of_singleton]%elem_of_app Hj Hk; [by eapply Hall|congruence].
Qed.

Lemma BatchSetConcurrent_writes s items ttl workers s' err :
  BatchSetConcurrent s items ttl workers s' err → writes_some keyFunc codec rows now deadline s items ttl s' err.
Proof.
  unfold BatchSetConcurrent. destruct (_ || _) eqn:Ec.
  { intros Hrun. pose proof (BatchSetSequential_writes keyFunc codec rows now deadline Hset items s ttl) as H. rewrite Hrun in H. by apply writes_all_some. }
  apply orb_false_iff in Ec as [_ Hw%Nat.leb_gt]. intros (st & Hr & Hg & <- & <-).
  destruct (finished_run (length items) (setOp items ttl) s workers st ltac:(lia) Hr Hg) as (_ & Hrep & _ & Hend). destruct (replay_writes _ _ _ _ _ Hrep) as [Hn H].
  split; [done|]. intros sk. destruct (H sk) as [Ho|[H0 Hall]]; [destruct (one_of_named _ _ _ _ _ _ _ _ _ _ Ho) as [y ->]; by left|].
  destruct (lastOf _ sk items) as [[k v]|] eqn:El; [|done]. right. split; [|done]. intros Hnone. rewrite Hnone in Hend. destruct Hend as [Hperm Hok].
  apply lastOf_key in El as [Hin Hk]. apply list_elem_of_lookup in Hin as [i Hi].
  assert (i ∈ (crun st).*1) as ([i' r] & -> & Hir)%list_elem_of_fmap by (rewrite Hperm; apply elem_of_seq; apply lookup_lt_Some in Hi; lia).
  exact (Hall _ _ _ Hir Hi Hk (Hok _ _ Hir)).
Qed.

(** Some run ends. *)
Lemma BatchSetConcurrent_ends s items ttl workers : ∃ s' err, BatchSetConcurrent s items ttl workers s' err.
Proof.
  unfold BatchSetConcurrent. destruct (_ || _); [destruct (BatchSetSequential s items ttl) as [s' e] eqn:E0; by exists s', e|].
  destruct (run_out (length items) (setOp items ttl) (startConc (length items) workers s)) as (st & Hr & Hg). by exists (cstore st), (cfirst st), st.
Qed.
End Writes.

Section Deletes.
Context {K V E' D DL : Type} (keyFunc : K → string) (rows : D → gmap string (bytes * DL)) (now : D → Z) `{!L2Cache K V D E'}.
Context (Hdel : ∀ s k, let '(s', e) := l2Delete (V := V) s k in deletes_all keyFunc rows now s [k] s' e).

Lemma replay_deletes ks s log s' :
  replay (deleteOp (V := V) ks) s log s' → now s ≤ now s' ∧ ∀ sk,
    sk ∈ keyFunc <$> ks ∧ rows s' !! sk = None ∨
    rows s' !! sk = rows s !! sk ∧ ∀ i r k, (i, r) ∈ log → ks !! i = Some k → keyFunc k = sk → r ≠ None.
Proof.
  induction 1 as [|l s1 i s2 r _ [Hn IH] Hop]; [split; [done|]; intros sk; right; split; [done|]; by intros i r k ?%elem_of_nil|].
  unfold deleteOp in Hop. destruct (ks !! i) as [k|] eqn:Ei; [|injection Hop as <- <-; split; [done|]; intros sk].
  - pose proof (Hdel s1 k) as H. rewrite Hop in H. destruct H as [Hn2 H]. split; [lia|]. intros sk. specialize (H sk). cbn in H.
    assert (rows s2 !! sk = rows s1 !! sk → (keyFunc k = sk → r ≠ None) →
      sk ∈ keyFunc <$> ks ∧ rows s2 !! sk = None ∨
      rows s2 !! sk = rows s !! sk ∧ ∀ j r' k', (j, r') ∈ l ++ [(i, r)] → ks !! j = Some k' → keyFunc k' = sk → r' ≠ None) as Hsame.
    { intros Heq Hr. destruct (IH sk) as [[? ?]|[H0 Hall]]; [left|right]; rewrite Heq; [done|].
      split; [done|]. intros j r' k' [Hin|[= -> ->]%list_elem_of_singleton]%elem_of_app Hj Hk; [by eapply Hall|].
      rewrite Ei in Hj. injection Hj as <-. by apply Hr. }
    case_decide as Hk; [|apply Hsame; [done|]; intros <-; destruct Hk; by left]. apply list_elem_of_singleton in Hk as ->.
    destruct H as [Hw|[He Heq]]; [left|by apply Hsame]. split; [|done]. apply list_elem_of_fmap_2. by eapply list_elem_of_lookup_2.
  - destruct (IH sk) as [Ho|[H0 Hall]]; [by left|right]. split; [done|].
    intros j r' k [Hin|[= -> ->]%list_elem_of_singleton]%elem_of_app Hj Hk; [by eapply Hall|congruence].
Qed.

Lemma BatchDeleteConcurrent_deletes s ks workers s' err :
  BatchDeleteConcurrent (V := V) s ks workers s' err → deletes_all keyFunc rows now s ks s' err.
Proof.
  unfold BatchDeleteConcurrent. destruct (_ || _) eqn:Ec.
  { intros Hrun. pose proof (BatchDeleteSequential_deletes keyFunc rows now Hdel ks s) as H. by rewrite Hrun in H. }
  apply orb_false_iff in Ec as [_ Hw%Nat.leb_gt]. intros (st & Hr & Hg & <- & <-).
  destruct (finished_run (length ks) (deleteOp (V := V) ks) s workers st ltac:(lia) Hr Hg) as (_ & Hrep & _ & Hend).
  destruct (replay_deletes _ _ _ _ Hrep) as [Hn H]. split; [done|]. intros sk. destruct (H sk) as [[Hin H0]|[H0 Hall]]; [rewrite decide_True by done; by left|].
  case_decide as Hd; [|done]. right. split; [|done]. intros Hnone. rewrite Hnone in Hend. destruct Hend as [Hperm Hok].
  apply list_elem_of_fmap in Hd as (k & -> & [i Hi]%list_elem_of_lookup).
  assert (i ∈ (crun st).*1) as ([i' r] & -> & Hir)%list_elem_of_fmap by (rewrite Hperm; apply elem_of_seq; apply lookup_lt_Some in Hi; lia).
  exact (Hall _ _ _ Hir Hi eq_refl (Hok _ _ Hir)).
Qed.
End Deletes.

Section Reads.
Context {K V E E' D DL : Type} (keyFunc : K → string) (codec : Codec V E) `{!TotalCodec codec}.
Context (rows : D → gmap string (bytes * DL)) (now : D → Z) (visible : Z → DL → bool) `{!L2Cache K V D E'}.
Context (Hvis : ∀ t t' dl, t ≤ t' → visible t' dl = true → visible t dl = true).
Context (Hget : ∀ s k, let '(s', a) := l2Get (V := V) s k in reads_one keyFunc codec rows now visible s k s' a).

Lemma BatchGetSequential_reads ks s : let '(s', a) := BatchGetSequential (V := V) s ks in reads_all keyFunc codec rows now visible s ks s' a.
Proof.
  unfold BatchGetSequential. enough (∀ found, ∃ s' more e, batchGetLoop s ks found = (s', (found ++ more, e)) ∧
    reads_all keyFunc codec rows now visible s ks s' (more, e)) as H by (by destruct (H []) as (s' & more & e & -> & ?)).
  revert s. induction ks as [|k ks IH]; intros s found; cbn [batchGetLoop].
  { exists s, [], None. rewrite app_nil_r. split; [done|]. split_and!; [done|done|by intros k v ?%elem_of_nil|by intros _ k v ?%elem_of_nil]. }
  pose proof (Hget s k) as H. destruct (l2Get s k) as [s1 [a [e|]]]; destruct H as (Hn & Hr & H1 & H2); cbn [fst snd] in *.
  { exists s1, [], (Some e). rewrite app_nil_r. split; [done|]. split_and!; [done|done|by intros k' v ?%elem_of_nil|done]. }
  set (hit := match a with Some v => [(k, v)] | None => [] end). destruct (IH s1 (found ++ hit)) as (s' & more & e & Hrun & Hn' & Hr' & Hs & Hc).
  rewrite Hr in Hs, Hc. cbn [fst snd] in *. exists s', (hit ++ more), e. split; [|split_and!; [lia|congruence|..]]; cbn [fst snd].
  - rewrite app_assoc, <- Hrun. unfold hit. destruct a; [done|by rewrite app_nil_r].
  - intros k' v [Hh|Hm]%elem_of_app; [|apply Hs in Hm as [? Hv]; split; [by right|by eapply shown_earlier]].
    destruct a as [v0|]; [|by apply elem_of_nil in Hh]. apply list_elem_of_singleton in Hh as [= -> ->]. split; [by left|by apply H1].
  - intros He k' v [->|Hk]%elem_of_cons Hv.
    + exists k. split; [done|]. apply elem_of_app. left. unfold hit. rewrite (H2 eq_refl v); [by left|]. by eapply shown_earlier.
    + destruct (Hc He k' v Hk Hv) as (k'' & ? & ?). exists k''. split; [done|]. apply elem_of_app. by right.
Qed.

Lemma elem_of_gather (ks : list K) (results : list (option V)) k v : (k, v) ∈ gather ks results ↔ ∃ i, ks !! i = Some k ∧ results !! i = Some (Some v).
Proof.
  unfold gather. rewrite list_elem_of_omap. split.
  - intros ([k' r] & [i Hi]%list_elem_of_lookup & Hkv). apply lookup_zip_Some in Hi as [? ?]. destruct r as [v'|]; [|done]. injection Hkv as -> ->. by exists i.
  - intros (i & Hk & Hr). exists (k, Some v). split; [|done]. apply list_elem_of_lookup. exists i. by apply lookup_zip_Some.
Qed.

(** The slots after some reads: what was read at a moment since, or nothing. *)
Lemma replay_reads (ks : list K) s n log s' :
  replay (getOp ks) (s, replicate n None) log s' → now s ≤ now s'.1 ∧ rows s'.1 = rows s ∧ length s'.2 = n ∧
  ∀ i k, ks !! i = Some k → (i < n)%nat →
    (∀ v, s'.2 !! i = Some (Some v) → shown codec visible (rows s) (now s) (keyFunc k) v) ∧
    ((i, None) ∈ log → ∀ v, shown codec visible (rows s) (now s'.1) (keyFunc k) v → s'.2 !! i = Some (Some v)).
Proof.
  induction 1 as [|l [s1 res] i s2 r _ (Hn & Hr & Hlen & IH) Hop]; cbn [fst snd] in *.
  { split_and!; [done|done|apply length_replicate|]. intros i k Hk Hi. rewrite lookup_replicate_2 by done. split; [done|by intros ?%elem_of_nil]. }
  unfold getOp in Hop. cbn [fst snd] in Hop. destruct (ks !! i) as [k|] eqn:Ek.
  - pose proof (Hget s1 k) as H. destruct (l2Get s1 k) as [s1' [a e]]. destruct H as (Hn1 & Hr1 & H1 & H2). cbn [fst snd] in *. rewrite Hr in *.
    destruct e as [e|]; injection Hop as <- <-; cbn [fst snd].
    + split_and!; [lia|congruence|done|]. intros j k' Hj Hlt. destruct (IH j k' Hj Hlt) as [A B]. split; [done|].
      intros [Hin|[=]%list_elem_of_singleton]%elem_of_app v Hv. apply B; [done|]. by eapply shown_earlier.
    + split_and!; [lia|congruence|by rewrite length_insert|]. intros j k' Hj Hlt. destruct (IH j k' Hj Hlt) as [A B].
      destruct (decide (i = j)) as [->|Hne].
      * rewrite list_lookup_insert_eq by lia. rewrite Ek in Hj. injection Hj as <-. split; [|intros _ v Hv; by rewrite (H2 eq_refl v)].
        intros v [= ->]. eapply shown_earlier; [done|exact Hn|by apply H1].
      * rewrite list_lookup_insert_ne by done. split; [done|]. intros [Hin|[= ->]%list_elem_of_singleton]%elem_of_app v Hv; [|done].
        apply B; [done|]. by eapply shown_earlier.
  - injection Hop as <- <-. cbn [fst snd]. split_and!; [done..|]. intros j k' Hj Hlt. destruct (IH j k' Hj Hlt) as [A B]. split; [done|].
    intros [Hin|[= ->]%list_elem_of_singleton]%elem_of_app; [by apply B|congruence].
Qed.

Lemma BatchGetConcurrent_reads s ks workers s' a :
  BatchGetConcurrent (V := V) s ks workers s' a → reads_all keyFunc codec rows now visible s ks s' a.
Proof.
  unfold BatchGetConcurrent. destruct (_ || _) eqn:Ec.
  { intros Hrun. pose proof (BatchGetSequential_reads ks s) as H. by rewrite Hrun in H. }
  apply orb_false_iff in Ec as [_ Hw%Nat.leb_gt]. intros (results & err & (st & Hr & Hg & <- & Hst) & ->).
  destruct (finished_run (length ks) (getOp (V := V) ks) (s, replicate (length ks) None) workers st ltac:(lia) Hr Hg) as (_ & Hrep & _ & Hend).
  rewrite Hst in Hrep. destruct (replay_reads _ _ _ _ _ Hrep) as (Hn & Hrows & Hlen & H). cbn [fst snd] in *. split_and!; [done|done| |]; cbn [fst snd].
  - intros k v (i & Hk & Hi)%elem_of_gather. split; [by eapply list_elem_of_lookup_2|].
    exact (proj1 (H i k Hk (lookup_lt_Some _ _ _ Hk)) v Hi).
  - intros Hnone k v [i Hk]%list_elem_of_lookup Hv. exists k. split; [done|]. apply elem_of_gather. exists i. split; [done|].
    rewrite Hnone in Hend. destruct Hend as [Hperm Hok]. pose proof (lookup_lt_Some _ _ _ Hk) as Hlt.
    assert (i ∈ (crun st).*1) as ([i' r] & -> & Hir)%list_elem_of_fmap by (rewrite Hperm; apply elem_of_seq; lia).
    rewrite (Hok _ _ Hir) in Hir. exact (proj2 (H i' k Hk Hlt) Hir v Hv).
Qed.
End Reads.

(** ** The promise with batches in any order *)

Section Promise.
Context {K V E E' D DL : Type} (keyFunc : K → string) (codec : Codec V E) `{!TotalCodec codec}.
Context (rows : D → gmap string (bytes * DL)) (now : D → Z) (visible : Z → DL → bool) (deadline : Z → Z → DL).

(** Batch operations are relations: what a call may return, and the store then. *)
Record unordered_lawful (get : D → K → D * (option V * option E')) (batchGet : D → list K → D → list (K * V) * option E' → Prop)
    (set : D → K → V → Z → D * option E') (batchSet : D → list (K * V) → Z → D → option E' → Prop)
    (del : D → K → D * option E') (batchDelete : D → list K → D → option E' → Prop) : Prop := {
  ul_get s k : let '(s', a) := get s k in reads_one keyFunc codec rows now visible s k s' a;
  ul_set s k v ttl : let '(s', e) := set s k v ttl in writes_all keyFunc codec rows now deadline s [(k, v)] ttl s' e;
  ul_delete s k : let '(s', e) := del s k in deletes_all keyFunc rows now s [k] s' e;
  ul_batchGet s ks : (∃ s' a, batchGet s ks s' a) ∧ ∀ s' a, batchGet s ks s' a → reads_all keyFunc codec rows now visible s ks s' a;
  ul_batchSet s items ttl : (∃ s' e, batchSet s items ttl s' e) ∧ ∀ s' e, batchSet s items ttl s' e →
    writes_some keyFunc codec rows now deadline s items ttl s' e ∧
    (NoDup ((λ kv, keyFunc kv.1) <$> items) → writes_all keyFunc codec rows now deadline s items ttl s' e);
  ul_batchDelete s ks : (∃ s' e, batchDelete s ks s' e) ∧ ∀ s' e, batchDelete s ks s' e → deletes_all keyFunc rows now s ks s' e
}.
End Promise.

Lemma BatchDeleteConcurrent_ends {K V D E'} `{!L2Cache K V D E'} s ks workers : ∃ s' err, BatchDeleteConcurrent (V := V) s ks workers s' err.
Proof.
  unfold BatchDeleteConcurrent. destruct (_ || _); [destruct (BatchDeleteSequential s ks) as [s' e] eqn:E0; by exists s', e|].
  destruct (run_out (length ks) (deleteOp ks) (startConc (length ks) workers s)) as (st & Hr & Hg). by exists (cstore st), (cfirst st), st.
Qed.

Lemma BatchGetConcurrent_ends {K V D E'} `{!L2Cache K V D E'} s ks workers : ∃ s' a, BatchGetConcurrent (V := V) s ks workers s' a.
Proof.
  unfold BatchGetConcurrent. destruct (_ || _); [destruct (BatchGetSequential s ks) as [s' a] eqn:E0; by exists s', a|].
  destruct (run_out (length ks) (getOp ks) (startConc (length ks) workers (s, replicate (length ks) None))) as (st & Hr & Hg).
  destruct (cstore st) as [s' results] eqn:Es. exists s', (gather ks results, cfirst st), results, (cfirst st). split; [by exists st|done].
Qed.

(** ** The server *)

(** The protocol's exptime: 0 is never, up to 30 days it is relative to the server's clock, otherwise a unix time. *)
Definition memcacheDeadline (t exptime : Z) : option Z :=
  if exptime =? 0 then None else if exptime <=? memcachedRelativeMax then Some (t / second + exptime) else Some exptime.

Definition visibleUnix (t : Z) (dl : option Z) : bool := match dl with None => true | Some sec => t / second <? sec end.

Lemma visibleUnix_earlier t t' dl : t ≤ t' → visibleUnix t' dl = true → visibleUnix t dl = true.
Proof.
  intros Ht. pose proof (Z.div_le_mono t t' second ltac:(done) Ht). unfold visibleUnix. destruct dl as [sec|]; [|done]. rewrite !Z.ltb_lt. lia.
Qed.

(** The deadline of a write at a time; [conv] is the client's conversion of the exptime. *)
Definition deadlineExp (conv : Z → Z) (t ttl : Z) : option Z := memcacheDeadline t (conv (MemcacheExpiration (t / second) ttl)).

(** The adapter reads the clock for a far deadline, the server for a near one. *)
Lemma deadlineExp_between conv t1 t2 ttl :
  (∀ x, 0 ≤ x < 2 ^ 31 → conv x = x) → 0 ≤ t1 < 2 ^ 63 → t1 ≤ t2 →
  ∃ t, t1 ≤ t ≤ t2 ∧ memcacheDeadline t2 (conv (MemcacheExpiration (t1 / second) ttl)) = deadlineExp conv t ttl.
Proof.
  intros Hconv H1 H2. unfold deadlineExp, MemcacheExpiration. destruct (ttl <=? 0); [exists t2; split; [lia|done]|]. cbv zeta.
  set (secs := i64 (ttl + second - 1) ÷ second). destruct (Z.leb_spec secs memcachedRelativeMax) as [Hs|Hs]; [exists t2; split; [lia|done]|].
  exists t1. split; [lia|].
  assert (secs < 2 ^ 62) as Hlt.
  { unfold secs. pose proof (Z.quot_rem' (i64 (ttl + second - 1)) second). pose proof (Z.rem_bound_abs (i64 (ttl + second - 1)) second ltac:(done)).
    pose proof (Z.mod_pos_bound (ttl + second - 1 + 2 ^ 63) (2 ^ 64) ltac:(lia)). unfold i64, second in *. lia. }
  pose proof (Z.div_pos t1 second ltac:(lia) ltac:(done)) as Hp. pose proof (Z.div_le_upper_bound t1 second (2 ^ 62) ltac:(done) ltac:(unfold second; lia)) as Hu.
  unfold memcachedRelativeMax in *. set (d := t1 / second) in *. clearbody d secs.
  rewrite i64_small by lia.
  destruct (Z.ltb_spec (2 ^ 31 - 1) (d + secs)) as [Hd|Hd]; rewrite ?i32_small by lia; rewrite Hconv by lia; unfold memcacheDeadline, memcachedRelativeMax;
    rewrite (proj2 (Z.eqb_neq _ 0)), (proj2 (Z.leb_gt _ _)) by lia; done.
Qed.

(** A server that does not evict: [rows] has expired items still in it, which a deletion that misses removes. *)
Class MemcacheLaws {D E : Type} `{!MemcacheClient D E} (rows : D → gmap string (bytes * option Z)) : Prop := {
  mm_clock s : 0 ≤ mcNow s < 2 ^ 63;
  mm_get s k :
    let '(s', r) := mcClientGet s k in mcNow s ≤ mcNow s' ∧ rows s' = rows s ∧
    match r with
    | inl CacheMiss => ∀ d dl, rows s !! k = Some (d, dl) → visibleUnix (mcNow s') dl = false
    | inl (McErr _) => True
    | inr d => ∃ dl, rows s !! k = Some (d, dl) ∧ visibleUnix (mcNow s) dl = true
    end;
  mm_set s k d exptime :
    let '(s', e) := mcClientSet s k d exptime in mcNow s ≤ mcNow s' ∧
    ((∃ t, mcNow s ≤ t ≤ mcNow s' ∧ rows s' = <[k := (d, memcacheDeadline t exptime)]> (rows s)) ∨ e ≠ None ∧ rows s' = rows s);
  mm_delete s k :
    let '(s', e) := mcClientDelete s k in mcNow s ≤ mcNow s' ∧
    match e with None | Some CacheMiss => rows s' = delete k (rows s) | Some (McErr _) => rows s' = rows s ∨ rows s' = delete k (rows s) end;
  mm_multi s ks :
    let '(s', r) := GetMulti s ks in mcNow s ≤ mcNow s' ∧ rows s' = rows s ∧
    match r with
    | inl _ => True
    | inr m =>
      (∀ k d, m !! k = Some d → k ∈ ks ∧ ∃ dl, rows s !! k = Some (d, dl) ∧ visibleUnix (mcNow s) dl = true) ∧
      (∀ k d dl, k ∈ ks → rows s !! k = Some (d, dl) → visibleUnix (mcNow s') dl = true → m !! k = Some d)
    end
}.

Section Adapter.
Context {K V E D : Type} `{!GoType K} `{!MemcacheClient D E} (c : memcacheCache K V E) `{!TotalCodec (mmCodec c)}.
Context (rangeItems : gmap string bytes → list (string * bytes)) (Hrange : ∀ m, rangeItems m ≡ₚ map_to_list m).
Context (rows : D → gmap string (bytes * option Z)) `{!MemcacheLaws rows}.
Abbreviation kf := (mmKeyFunc c).
Abbreviation shows := (shown (mmCodec c) visibleUnix).

Lemma mmGet_reads s k : let '(s', a) := mmGet c s k in reads_one kf (mmCodec c) rows mcNow visibleUnix s k s' a.
Proof.
  unfold mmGet. pose proof (mm_get s (kf k)) as H. destruct (mcClientGet s (kf k)) as [s' [[|e]|d]]; destruct H as (Hn & Hr & H); [| by split_and!|].
  - split_and!; [done..|]. intros _ v (d & dl & Hd & Hv & _). apply H in Hd. congruence.
  - rewrite Unmarshal_dec. destruct H as (dl & Hd & Hv). split_and!; [done|done| |]; cbn; [intros v [= <-]; by exists d, dl|].
    intros _ v (d' & dl' & Hd' & _ & <-). congruence.
Qed.

(** Both clients' [Set]: the exptime as it is, or as an unsigned number. *)
Lemma clientSet_writes conv s k (v : V) ttl :
  (∀ x, 0 ≤ x < 2 ^ 31 → conv x = x) →
  let '(s', e) := mcClientSet s (kf k) (enc v) (conv (MemcacheExpiration (mcNow s / second) ttl)) in
  writes_all kf (mmCodec c) rows mcNow (deadlineExp conv) s [(k, v)] ttl s' e.
Proof.
  intros Hconv. pose proof (mm_set s (kf k) (enc v) (conv (MemcacheExpiration (mcNow s / second) ttl))) as H.
  destruct (mcClientSet _ _ _ _) as [s' e]. destruct H as [Hn H]. apply writes_single; [done|]. destruct H as [(t & Ht & Hr)|H]; [left|by right].
  destruct (deadlineExp_between conv (mcNow s) t ttl Hconv (mm_clock s) (proj1 Ht)) as (t' & Ht' & Hd). exists t'. split; [lia|]. by rewrite Hr, Hd.
Qed.

Lemma mmSet_writes s k v ttl : let '(s', e) := mmSet c s k v ttl in writes_all kf (mmCodec c) rows mcNow (deadlineExp id) s [(k, v)] ttl s' e.
Proof. unfold mmSet. rewrite Marshal_enc. by apply (clientSet_writes id). Qed.

Lemma mcSet_writes s k v ttl : let '(s', e) := mcSet c s k v ttl in writes_all kf (mmCodec c) rows mcNow (deadlineExp u32) s [(k, v)] ttl s' e.
Proof. unfold mcSet. rewrite Marshal_enc. apply (clientSet_writes u32). intros x Hx. apply u32_small. lia. Qed.

Lemma mmDelete_deletes s k : let '(s', e) := mmDelete c s k in deletes_all kf rows mcNow s [k] s' e.
Proof.
  unfold mmDelete. pose proof (mm_delete s (kf k)) as H. destruct (mcClientDelete s (kf k)) as [s' [[|e]|]]; destruct H as [Hn H]; apply deletes_single; auto.
  destruct H as [H|H]; [right; by split|by left].
Qed.

Lemma readItemsOf_spec by_ l found :
  readItemsOf c by_ l found = (found ++ ((λ kd, (default go_zero (by_ !! kd.1), dec kd.2)) <$> l), None).
Proof.
  revert found. induction l as [|[k d] l IH]; intros found; cbn [readItemsOf]; [by rewrite app_nil_r|]. rewrite Unmarshal_dec, IH, <- app_assoc. done.
Qed.

Lemma mmByStorage_spec keys : mmByStorage c keys = (dedupKeys kf keys).1.
Proof.
  unfold mmByStorage, dedupKeys. induction keys as [|k keys IH] using rev_ind; [done|]. rewrite !foldl_app. cbn [foldl fst]. by rewrite IH.
Qed.

Lemma mmBatchGet_reads s ks : let '(s', a) := mmBatchGet c rangeItems s ks in reads_all kf (mmCodec c) rows mcNow visibleUnix s ks s' a.
Proof.
  unfold mmBatchGet. destruct ks as [|k0 ks0] eqn:Ek; [split_and!; [done|done|by intros k v ?%elem_of_nil|by intros _ k v ?%elem_of_nil]|].
  rewrite <- Ek. clear Ek. pose proof (dedupKeys_spec kf ks) as [_ Hkeys Hby Hall]. rewrite mmByStorage_spec.
  pose proof (mm_multi s (kf <$> ks)) as H. destruct (GetMulti _ _) as [s' [e|m]]; destruct H as (Hn & Hr & H); [by split_and!; [..|intros k v ?%elem_of_nil|]|].
  destruct H as [Hsound Hcomplete]. rewrite readItemsOf_spec. cbn [app].
  assert (∀ k, k ∈ ks → ∃ k', (dedupKeys kf ks).1 !! kf k = Some k' ∧ k' ∈ ks ∧ kf k' = kf k) as Hk.
  { intros k Hk. destruct (proj1 (Hkeys (kf k)) (Hall k Hk)) as [k' Hk']. exists k'. split; [done|by apply Hby]. }
  split_and!; [done|done| |]; cbn [fst snd].
  - intros k v ([sk d] & [= -> ->] & Hin)%list_elem_of_fmap. rewrite Hrange in Hin. apply elem_of_map_to_list in Hin.
    destruct (Hsound _ _ Hin) as [(k & -> & (k' & -> & ? & Hk')%Hk)%list_elem_of_fmap (dl & Hd & Hv)]. split; [done|]. cbn. rewrite Hk'. by exists d, dl.
  - intros _ k v (k' & Hb & _ & Hk')%Hk (d & dl & Hd & Hv & <-). exists k'. split; [done|]. apply list_elem_of_fmap. exists (kf k, d).
    cbn. rewrite Hb. split; [done|]. rewrite Hrange. apply elem_of_map_to_list. apply (Hcomplete _ d dl); [|done..].
    rewrite <- Hk'. apply list_elem_of_fmap_2. by apply Hby in Hb as [? _].
Qed.
End Adapter.
