(* ===== verification/SimStores.v ===== *)
(** * Stores in memory

    A table and a clock that stands still behind each client interface, and that they do what the adapters rely on. *)

From stdpp Require Import strings gmap.
From S2P Require Import Prelude Item Strconv Dedup Expiry Config CacheState Snapshot L2Util Redis KvStore TimedStore Sql SqlLaws Pgx Mongo Tarantool Badger Aerospike Memcache.

Abbreviation store := (rowTable * Z)%type.

(** The rows of some keys a read at a second sees. *)
Definition seenRows (m : rowTable) (sec : Z) (ks : list string) : list (string * bytes) :=
  omap (λ k, match m !! k with Some (d, dl) => if seen sec dl then Some (k, d) else None | None => None end) ks.

Lemma elem_of_seenRows m sec ks k d : (k, d) ∈ seenRows m sec ks ↔ k ∈ ks ∧ selects m sec k d.
Proof.
  unfold seenRows, selects. rewrite list_elem_of_omap. split.
  - intros (k' & Hk & H). destruct (m !! k') as [[d' dl]|] eqn:Em; [|done]. destruct (seen sec dl) eqn:Es; [|done]. injection H as -> ->. eauto.
  - intros (Hk & dl & Hm & Hs). exists k. by rewrite Hm, Hs.
Qed.

(** ** database/sql: the statement is found by its text *)

Module SimSql.
Abbreviation print := (printStmt "t" qmark "U").

Definition changes (n : nat) : list Stmt := [InsertRows (triple <$> seqZ 0 (Z.of_nat (n / 3))); DeleteKey 1; DeleteIn (seqZ 1 (Z.of_nat n)); Reap 1].
Definition queries (n : nat) : list Stmt := [SelectOne 1 2; SelectIn (seqZ 1 (Z.of_nat (n - 1))) (Z.of_nat n)].

Definition named (q : string) (l : list Stmt) : option Stmt := head (filter (λ st, print st = q) l).

#[global] Instance simSql : SqlDB store Z (string * bytes) := {
  sqlNow := snd;
  QueryContext s q args :=
    (s, match named q (queries (length args)) ≫= λ st, selection st args with Some (ks, sec) => inr (seenRows s.1 sec ks, None) | None => inl 0 end);
  ExecContext s q args :=
    match named q (changes (length args)) ≫= λ st, effect st args s.1 with Some m => ((m, s.2), inr 0) | None => (s, inl 0) end;
  scanValue r := inr r.2;
  scanPair r := inr r
}.

Lemma triples_numbered rs j n :
  (rs ≫= λ r, [r.1.1; r.1.2; r.2]) = seqZ (3 * j + 1) (Z.of_nat n) → rs = triple <$> seqZ j (Z.of_nat (n / 3)).
Proof.
  revert j n. induction rs as [|[[a b] d] rs IH]; intros j n; cbn [mbind list_bind app fst snd].
  - destruct n as [|n]; [done|]. by rewrite seqZ_S.
  - destruct n as [|[|[|n]]]; [done|by rewrite !seqZ_S|by rewrite !seqZ_S|]. rewrite !seqZ_S. intros [= -> -> -> H].
    assert (S (S (S n)) / 3 = S (n / 3))%nat as -> by (replace (S (S (S n))) with (n + 1 * 3)%nat by lia; rewrite Nat.div_add by lia; lia).
    rewrite seqZ_S. cbn [fmap list_fmap]. apply (f_equal2 cons); [unfold triple; apply (f_equal2 pair); [apply (f_equal2 pair); lia|lia]|]. apply IH. etrans; [exact H|]. f_equal. lia.
Qed.

Lemma named_changes st args m m' : numbered st args → effect st args m = Some m' → named (print st) (changes (length args)) = Some st.
Proof.
  unfold numbered, changes, named. destruct st as [k n|ks n|rs|k|ks|n]; cbn [params effect]; intros Hn He; try done.
  - apply (triples_numbered _ 0) in Hn. rewrite <- Hn. rewrite filter_cons_True by done. done.
  - destruct args as [|a [|b args]]; [done| |by cbn [length] in Hn; rewrite !seqZ_S in Hn]. injection Hn as ->.
    rewrite filter_cons_False by discriminate. by rewrite filter_cons_True.
  - rewrite <- Hn. rewrite !filter_cons_False by discriminate. by rewrite filter_cons_True.
  - destruct args as [|a [|b args]]; [done| |by cbn [length] in Hn; rewrite !seqZ_S in Hn]. injection Hn as ->.
    rewrite !filter_cons_False by discriminate. by rewrite filter_cons_True.
Qed.

#[global] Instance simSql_laws : SqlLaws "t" qmark "U" (fst : store → rowTable).
Proof.
  split.
  - intros [m t] st args m' Hn _ He. cbn [fst] in He. cbn [ExecContext simSql fst snd]. rewrite (named_changes _ _ _ _ Hn He). cbn [mbind option_bind]. by rewrite He.
  - intros [m t] args k i n sec Hn Hs. cbn [QueryContext simSql fst snd].
    assert (i = 1 ∧ n = 2 ∧ length args = 2%nat) as (-> & -> & Hl).
    { unfold numbered in Hn. cbn in Hn. destruct args as [|a [|b [|d args]]]; [done|done| |by cbn [length] in Hn; rewrite !seqZ_S in Hn]. by injection Hn as -> ->. }
    unfold named, queries. rewrite filter_cons_True by done. cbn [head mbind option_bind]. rewrite Hs.
    split_and!; [done|done| |]; [intros row d Hin Hd|intros _ Hl0 d Hd].
    + destruct row as [k' d']. cbn in Hd. injection Hd as ->. apply elem_of_seenRows in Hin as [->%list_elem_of_singleton ?]. done.
    + assert ((k, d) ∈ seenRows m sec [k]) as Hin by (apply elem_of_seenRows; split; [by left|done]). rewrite Hl0 in Hin. by apply elem_of_nil in Hin.
  - intros [m t] args ks n is_ sec Hn _ Hs. cbn [QueryContext simSql fst snd].
    assert (is_ = seqZ 1 (Z.of_nat (length args - 1)) ∧ n = Z.of_nat (length args)) as [-> ->].
    { unfold numbered in Hn. cbn in Hn. destruct args as [|a args] using rev_ind; [by destruct is_|]. rewrite length_app in *. cbn [length] in *.
      replace (Z.of_nat (length args + 1)) with (Z.of_nat (length args) + 1) in * by lia. rewrite seqZ_app, (seqZ_cons _ 1) in Hn by lia.
      apply app_inj_2 in Hn as [-> [= ->]]; [|done]. split; [f_equal; lia|lia]. }
    unfold named, queries. rewrite filter_cons_False by discriminate. rewrite filter_cons_True by done. cbn [head mbind option_bind]. rewrite Hs.
    split_and!; [done|done| |].
    + intros row k d Hin [= ->]. by apply elem_of_seenRows.
    + intros _ k d Hk Hd. exists (k, d). split; [by apply elem_of_seenRows|]. by intros x [= <-].
Qed.
End SimSql.

(** ** pgx *)

Module SimPgx.
Definition statements : list PgStmt := [PgSelectOne; PgSelectAny; PgUpsert; PgUpsertAll; PgDeleteOne; PgDeleteAny; PgReap].
Definition named (q : string) : option PgStmt := head (filter (λ st, pgQuery "t" st = q) statements).

#[global] Instance simPgx : PgxDB store Z (string * bytes) := {
  pgNow := snd;
  pgExec s q args := match named q ≫= λ st, pgEffect st args s.1 with Some m => ((m, s.2), inr 0) | None => (s, inl 0) end;
  QueryRow s q args :=
    (s, match named q, args with Some PgSelectOne, [PgText k; PgInt sec] => inr (snd <$> head (seenRows s.1 sec [k])) | _, _ => inl 0 end);
  Query s q args :=
    (s, match named q, args with Some PgSelectAny, [PgTexts ks; PgInt sec] => inr (seenRows s.1 sec ks, None) | _, _ => inl 0 end);
  pgScan r := inr r
}.

Lemma named_query st : named (pgQuery "t" st) = Some st.
Proof. destruct st; vm_compute; reflexivity. Qed.

#[global] Instance simPgx_laws : PgxLaws "t" (fst : store → rowTable).
Proof.
  split.
  - intros [m t] st args m' He. cbn [fst] in He. cbn [pgExec simPgx fst snd]. rewrite named_query. cbn [mbind option_bind]. by rewrite He.
  - intros [m t] k sec. cbn [QueryRow simPgx fst snd]. rewrite named_query. split_and!; [done|done|].
    destruct (seenRows m sec [k]) as [|[k' d] l] eqn:El; cbn.
    + intros d Hd. assert ((k, d) ∈ seenRows m sec [k]) as Hin by (apply elem_of_seenRows; split; [by left|done]). rewrite El in Hin. by apply elem_of_nil in Hin.
    + assert ((k', d) ∈ seenRows m sec [k]) as Hin by (rewrite El; by left). by apply elem_of_seenRows in Hin as [->%list_elem_of_singleton ?].
  - intros [m t] ks sec. cbn [Query simPgx fst snd]. rewrite named_query. split_and!; [done|done| |].
    + intros row k d Hin [= ->]. by apply elem_of_seenRows.
    + intros _ k d Hk Hd. exists (k, d). split; [by apply elem_of_seenRows|]. by intros x [= <-].
Qed.
End SimPgx.

(** ** MongoDB *)

Module SimMongo.
Abbreviation docs := (docTable * Z)%type.

Definition upsert (m : docTable) (ku : string * update) : docTable := <[ku.1 := applyUpdate ku.2 (m !! ku.1)]> m.

#[global] Instance simMongo : MongoCollection docs Z := {
  mgNow := snd;
  FindOne s k := (s, inr (docOf k <$> s.1 !! k));
  UpdateOne s k u := ((upsert s.1 (k, u), s.2), None);
  DeleteOne s k := ((delete k s.1, s.2), None);
  DeleteMany s ks := ((foldl (λ m k, delete k m) s.1 ks, s.2), None);
  Find s ks := (s, inr (omap (λ k, docOf k <$> s.1 !! k) ks));
  BulkWrite s l := ((foldl upsert s.1 l, s.2), None);
  CreateTTLIndex s _ _ := (s, None)
}.

Lemma lookup_upserts l m k : NoDup l.*1 →
  foldl upsert m l !! k = match (list_to_map l : gmap string update) !! k with Some u => Some (applyUpdate u (m !! k)) | None => m !! k end.
Proof.
  revert m. induction l as [|[k' u] l IH]; intros m; [done|]. rewrite fmap_cons, NoDup_cons. intros [Hk Hnd]. cbn [foldl list_to_map foldr uncurry fst snd].
  rewrite IH by done. unfold upsert. cbn [fst snd]. destruct (decide (k = k')) as [->|Hne]; [|by rewrite !lookup_insert_ne].
  rewrite !lookup_insert_eq. by rewrite not_elem_of_list_to_map_1.
Qed.

Lemma lookup_deletes (m : docTable) ks k : foldl (λ m k, delete k m) m ks !! k = if decide (k ∈ ks) then None else m !! k.
Proof.
  induction ks as [|k' ks IH] using rev_ind; [done|]. rewrite foldl_app. cbn [foldl].
  destruct (decide (k = k')) as [->|Hne]; [rewrite lookup_delete_eq, decide_True by set_solver; done|]. rewrite lookup_delete_ne, IH by done.
  repeat case_decide; set_solver.
Qed.

#[global] Instance simMongo_laws : MongoLaws (fst : docs → docTable).
Proof.
  split.
  - intros [m t] k. cbn. split_and!; [done|done|]. destruct (m !! k) as [row|]; cbn; [by exists row|done].
  - intros [m t] ks. cbn [Find simMongo fst snd]. split_and!; [done|done| |].
    + intros d (k & Hk & Hd)%list_elem_of_omap. destruct (m !! k) as [row|] eqn:Em; [|done]. injection Hd as <-. by exists k, row.
    + intros k d dl Hk Hm _. apply list_elem_of_omap. exists k. by rewrite Hm.
  - intros [m t] k u. cbn. split; [done|]. left. exists (m !! k). split; [by left|done].
  - intros [m t] l Hnd. cbn [BulkWrite simMongo fst snd]. split; [done|]. intros k. rewrite lookup_upserts by done.
    destruct (_ !! k); [left; eexists; split; [by left|done]|done].
  - intros [m t] k. cbn. split; [done|by left].
  - intros [m t] ks. cbn [DeleteMany simMongo fst snd]. split; [done|]. intros k. rewrite lookup_deletes. case_decide; [by left|done].
Qed.
End SimMongo.

(** ** Tarantool: a future is its answer *)

Module SimTarantool.
#[global] Instance simDoer : Doer store Z (Z + list row) := {
  taNow := snd;
  taDo s req := ((afterReq req s.1, s.2), inr match req with TSelect _ _ k => tuplesOf k (s.1 !! k) | _ => [] end);
  futureGetTyped s f := (s, f);
  futureGet s f := (s, match f with inl e => Some e | inr _ => None end)
}.

#[global] Instance simDoer_laws space : TarantoolLaws space (fst : store → rowTable) id.
Proof. split; [|done|done]. intros [m t] req _. cbn. split; [done|]. split; [done|]. by destruct req. Qed.
End SimTarantool.

(** ** Badger: a write batch is the table it was made on and its operations, committed by the flush *)

Module SimBadger.
Definition rowOpOf (t : Z) (op : BgOp) : RowOp :=
  match op with
  | BgSetEntry e => RPut (bgKey e) (bgData e, match bgTTL e with None => 0 | Some ttl => (t + ttl) / second end)
  | BgDelete k => RDrop k
  end.

Lemma rowOpOf_resolves t op : resolves t t op (rowOpOf t op).
Proof. destruct op; [|done]. cbn. exists t. split; [lia|done]. Qed.

#[global] Instance simBadger : BadgerDB store Z store bytes (list RowOp) := {
  bgView s := (s, inr s);
  txnGet s k := inr (head (seenRows s.1 (s.2 / second) [k]).*2);
  itemValue d := inr d;
  bgUpdate s op := ((applyOp s.1 (rowOpOf s.2 op), s.2), None);
  NewWriteBatch s := (s, []);
  wbAdd s wb op := (s, (wb ++ [rowOpOf s.2 op], None));
  wbFlush s wb := ((applyOps s.1 wb, s.2), None);
  wbCancel s wb := s
}.

#[global] Instance simBadger_laws : BadgerLaws (fst : store → rowTable) snd (λ wb m l s, wb = l ∧ s.1 = m).
Proof.
  split.
  - intros [m t]. cbn [bgView simBadger fst snd]. split_and!; [done|done|]. intros k. cbn [txnGet simBadger itemValue fst snd].
    unfold seenRows. cbn [omap list_omap]. unfold visibleSec. destruct (m !! k) as [[d dl]|]; [|by intros d dl ?].
    destruct (seen (t / second) dl) eqn:Es; cbn; [exists d, dl; split_and!; [done|done|by intros x [= <-]]|]. by intros d' dl' [= <- <-].
  - intros [m t] op. cbn. split; [done|]. left. exists (rowOpOf t op). split; [apply rowOpOf_resolves|done].
  - intros [m t]. done.
  - intros wb m l [m' t] [_ H]. cbn in H. subst. exists []. split; [apply prefix_nil|done].
  - intros [m t] wb op m' l [-> <-]. cbn. split; [done|]. exists (rowOpOf t op). split; [apply rowOpOf_resolves|done].
  - intros [m t] wb m' l [-> <-]. cbn. split; [done|]. by exists l.
  - by intros [m t] wb.
Qed.
End SimBadger.

(** ** Aerospike *)

Module SimAerospike.
Abbreviation records := (docTable * Z)%type.

Definition serverDeadline (t exp : Z) : option Z := if exp =? TTLDontExpire then None else Some (t / second + exp).

Definition recordOf (s : records) (k : string) : option asRecord :=
  match s.1 !! k with Some (d, dl) => if visibleUnix s.2 dl then Some {[ binName := d ]} else None | None => None end.

Definition operate (t : Z) (m : docTable) (r : asBatchRecord string) : docTable :=
  match r with BatchWrite exp k _ d => <[k := (d, serverDeadline t exp)]> m | BatchDeleteOf k => delete k m end.

#[global] Instance simAerospike : AerospikeClient records bool string := {
  asNewKey _ _ k := inr k;
  keyNotFound e := e;
  unsupportedFeature e := negb e;
  asGetRecord s k _ := (s, match recordOf s k with Some rec => inr rec | None => inl true end);
  asPut s exp k _ d := ((<[k := (d, serverDeadline s.2 exp)]> s.1, s.2), None);
  asDeleteRecord s k := ((delete k s.1, s.2), None);
  asBatchGetRecords s ks _ := (s, inr (recordOf s <$> ks));
  BatchOperate s recs := ((foldl (operate s.2) s.1 recs, s.2), inr (replicate (length recs) None))
}.

Lemma recordOf_has s k : hasRecord visibleUnix id s.1 s.2 s.2 k (recordOf s k).
Proof.
  unfold recordOf, hasRecord. destruct (s.1 !! k) as [[d dl]|] eqn:Em; [|cbn; intros d dl; unfold id; congruence]. destruct (visibleUnix s.2 dl) eqn:Ev.
  - exists d, dl. split_and!; [done|done|apply lookup_singleton_eq].
  - cbn. intros d' dl'. unfold id. rewrite Em. by intros [= <- <-].
Qed.

Lemma operate_all t m recs sk :
  (foldl (operate t) m recs !! sk = m !! sk ∧ ∀ rec, rec ∈ recs → recKey id rec ≠ sk) ∨
  ∃ rec, rec ∈ recs ∧ recKey id rec = sk ∧ leaves serverDeadline t t rec (foldl (operate t) m recs !! sk).
Proof.
  induction recs as [|rec recs IH] using rev_ind; [left; split; [done|]; by intros rec ?%elem_of_nil|]. rewrite foldl_app. cbn [foldl].
  destruct (decide (recKey id rec = sk)) as [Hk|Hk].
  - right. exists rec. split_and!; [set_solver|done|]. destruct rec as [exp k bin d|k]; cbn in *; unfold id in Hk; subst.
    + exists t. split; [lia|apply lookup_insert_eq].
    + apply lookup_delete_eq.
  - assert (operate t (foldl (operate t) m recs) rec !! sk = foldl (operate t) m recs !! sk) as ->.
    { destruct rec as [exp k bin d|k]; cbn in *; [by apply lookup_insert_ne|by apply lookup_delete_ne]. }
    destruct IH as [[H0 Hn]|(rec' & Hin & H)]; [left|right; exists rec'; split; [set_solver|done]]. split; [done|].
    intros rec' [Hin| ->%list_elem_of_singleton]%elem_of_app; auto.
Qed.

#[global] Instance simAerospike_laws ns set : AerospikeLaws (fst : records → docTable) snd visibleUnix serverDeadline id ns set.
Proof.
  split.
  - by intros sk k [= <-].
  - intros s k. cbn [asGetRecord simAerospike]. pose proof (recordOf_has s k) as H. split_and!; [done|done|]. by destruct (recordOf s k).
  - intros [m t] exp k d. cbn. split; [done|]. left. exists t. split; [lia|done].
  - intros [m t] k. cbn. split; [done|by left].
  - intros s ks. cbn [asBatchGetRecords simAerospike]. split_and!; [done|done|]. apply Forall2_fmap_r.
    induction ks as [|k ks IH]; constructor; [apply recordOf_has|exact IH].
  - intros [m t] recs _. cbn [BatchOperate simAerospike fst snd]. split; [done|]. split; [apply length_replicate|]. intros sk.
    destruct (operate_all t m recs sk) as [[H0 Hn]|H]; [left|by right]. split; [done|]. intros i rec err Hi _ Hk. destruct (Hn rec); [|done].
    by eapply list_elem_of_lookup_2.
Qed.
End SimAerospike.

(** ** memcached *)

Module SimMemcache.
Abbreviation items := (docTable * nat)%type.

(** The clock counts seconds. *)
Definition clock (s : items) : Z := Z.of_nat s.2 mod 2 ^ 31 * second.

Definition live (s : items) (k : string) : option bytes :=
  match s.1 !! k with Some (d, dl) => if visibleUnix (clock s) dl then Some d else None | None => None end.

Definition multi (s : items) (ks : list string) : gmap string bytes :=
  foldr (λ k m, match live s k with Some d => <[k := d]> m | None => m end) ∅ ks.

#[global] Instance simMemcache : MemcacheClient items Z := {
  mcNow := clock;
  mcClientGet s k := (s, match live s k with Some d => inr d | None => inl CacheMiss end);
  mcClientSet s k d exptime := ((<[k := (d, memcacheDeadline (clock s) exptime)]> s.1, s.2), None);
  mcClientDelete s k := ((delete k s.1, s.2), match s.1 !! k with Some _ => None | None => Some CacheMiss end);
  GetMulti s ks := (s, inr (multi s ks))
}.

Lemma live_Some s k d : live s k = Some d ↔ ∃ dl, s.1 !! k = Some (d, dl) ∧ visibleUnix (clock s) dl = true.
Proof.
  unfold live. destruct (s.1 !! k) as [[d' dl]|]; [|split; [done|]; by intros (dl & ? & _)]. destruct (visibleUnix (clock s) dl) eqn:Ev.
  - split; [intros [= ->]; by exists dl|]. by intros (dl' & [= -> ->] & _).
  - split; [done|]. intros (dl' & [= -> ->] & ?). congruence.
Qed.

Lemma lookup_multi s ks k : multi s ks !! k = if decide (k ∈ ks) then live s k else None.
Proof.
  unfold multi. induction ks as [|k' ks IH]; [done|]. cbn [foldr]. destruct (decide (k = k')) as [->|Hne].
  - rewrite decide_True by by left. destruct (live s k') as [d|] eqn:El; [apply lookup_insert_eq|]. rewrite IH. by case_decide.
  - transitivity (if decide (k ∈ ks) then live s k else None); [|repeat case_decide; set_solver].
    rewrite <- IH. destruct (live s k'); [by apply lookup_insert_ne|done].
Qed.

#[global] Instance simMemcache_laws : MemcacheLaws (fst : items → docTable).
Proof.
  split.
  - intros s. cbn. unfold clock. pose proof (Z.mod_pos_bound (Z.of_nat s.2) (2 ^ 31) ltac:(lia)). unfold second. lia.
  - intros s k. cbn [mcClientGet simMemcache]. split_and!; [done|done|]. destruct (live s k) as [d|] eqn:El; [by apply live_Some in El|].
    intros d dl Hd. cbn. destruct (visibleUnix (clock s) dl) eqn:Ev; [|done]. assert (live s k = Some d) by (apply live_Some; eauto). congruence.
  - intros s k d e. cbn. split; [done|]. left. exists (clock s). split; [unfold clock; cbn; lia|done].
  - intros s k. cbn. split; [done|]. by destruct (s.1 !! k).
  - intros s ks. cbn [GetMulti simMemcache]. split_and!; [done|done| |].
    + intros k d. rewrite lookup_multi. case_decide; [|done]. intros Hd%live_Some. done.
    + intros k d dl Hk Hd Hv. rewrite lookup_multi, decide_True by done. apply live_Some. eauto.
Qed.
End SimMemcache.
