(* ===== verification/TimedTheorems.v ===== *)
(** * The adapters over stores with deadlines keep their promise

    The theorem over all of them, and stores in memory that show that what it assumes of the clients can hold. *)

From stdpp Require Import strings gmap.
From S2P Require Import Prelude Strconv Dedup Expiry Config CacheState Snapshot L2Util Redis KvStore TimedStore Sql SqlLaws Pgx Mongo Tarantool Badger Aerospike SimStores.

(** C25: The SQL, pgx, MongoDB, Tarantool, Badger and Aerospike adapters over a store that does what its requests say or
    fails, with a codec that reads back what it wrote.  A read answers a value only if the store held it, unexpired, when the
    call began, and without an error misses nothing that is unexpired when it returns; a write stores the value with the deadline
    of its TTL; a batch names its keys once, or the last value wins (Aerospike: one of the values), whatever statements, chunks,
    futures or fallbacks it is made of; keys it does not name are untouched; and what a failed call leaves of a key is what it held or a
    value given for it.  (The codec decodes every byte string; Tarantool runs requests in the order they were sent.) *)
Theorem timed_adapters_lawful :
  (∀ K V E D Row `(!SqlDB D E Row) isString db codec tbl dialect opts (c : sqlCache K V E) (Hc : TotalCodec (sqCodec c)) (rows : D → rowTable),
    sqNew isString db codec tbl dialect opts = inr c → SqlLaws (sqTable c) (sqPh c) (sqUpsert c) rows →
    timed_lawful (sqKeyFunc c) (sqCodec c) rows sqlNow visibleSec deadlineSec true (sqlL2 c)) ∧
  (∀ K V E D Row `(!PgxDB D E Row) isString db codec tbl opts (c : pgxCache K V E) (Hc : TotalCodec (pgCodec c)) (rows : D → rowTable),
    pgNew isString db codec tbl opts = inr c → PgxLaws (if decide (tbl = "") then pgDefaultTable else tbl) rows →
    timed_lawful (pgKeyFunc c) (pgCodec c) rows pgNow visibleSec deadlineSec true (pgxL2 c)) ∧
  (∀ K V E D `(!MongoCollection D E) (c : mongoCache K V E) (Hc : TotalCodec (mgCodec c)) (rows : D → docTable),
    MongoLaws rows → timed_lawful (mgKeyFunc c) (mgCodec c) rows mgNow visibleDate deadlineDate true (mongoL2 c)) ∧
  (∀ K V E D F `(!Doer D E F) (c : tarantoolCache K V E) (Hc : TotalCodec (taCodec c)) (rows : D → rowTable) (outcome : F → E + list row),
    TarantoolLaws (taSpace c) rows outcome → timed_lawful (taKeyFunc c) (taCodec c) rows taNow visibleSec deadlineUnsigned true (tarantoolL2 c)) ∧
  (∀ K V E D Txn Item WB `(!BadgerDB D E Txn Item WB) (c : badgerCache K V E) (Hc : TotalCodec (bgCodec c)) (rows : D → rowTable) now
      (filling : WB → rowTable → list RowOp → D → Prop),
    BadgerLaws rows now filling → timed_lawful (bgKeyFunc c) (bgCodec c) rows now visibleSec deadlineSec true (badgerL2 c)) ∧
  (∀ K V E D Key DL `(!AerospikeClient D E Key) (c : aerospikeCache K V E) (Hc : TotalCodec (asCodec c)) (rows : D → gmap string (bytes * DL)) now
      (visible : Z → DL → bool) serverDeadline storageKey,
    AerospikeLaws rows now visible serverDeadline storageKey (asNamespace c) (asSetName c) →
    timed_lawful (asKeyFunc c) (asCodec c) rows now visible (λ t ttl, serverDeadline t (expiration ttl)) false (aerospikeL2 c)).
Proof.
  split_and!; intros.
  - apply sql_lawful; [by eapply sqNew_texts|done].
  - eapply pgx_lawful; [by eapply pgNew_texts|done].
  - by apply mongo_lawful.
  - by eapply tarantool_lawful.
  - by eapply badger_lawful.
  - by eapply aerospike_lawful.
Qed.

(** ** Over the stores in memory *)

Definition exCodec : Codec bytes Z := BytesCodec.
Definition exDialect : Dialect := mkDialect (Some qmark) "U" true.
Definition exSql : sqlCache string bytes Z := mkSql BytesCodec id "t" qmark "U" true
  "SELECT value FROM t WHERE cache_key = ? AND (expires_at = 0 OR expires_at > ?)"
  "INSERT INTO t (cache_key, value, expires_at) VALUES (?, ?, ?) U" "DELETE FROM t WHERE cache_key = ?"
  "DELETE FROM t WHERE expires_at <> 0 AND expires_at <= ?".
Definition exPgx : pgxCache string bytes Z := mkPgx BytesCodec id
  "SELECT value FROM t WHERE cache_key = $1 AND (expires_at = 0 OR expires_at > $2)"
  "INSERT INTO t (cache_key, value, expires_at) VALUES ($1, $2, $3) ON CONFLICT (cache_key) DO UPDATE SET value = EXCLUDED.value, expires_at = EXCLUDED.expires_at"
  "DELETE FROM t WHERE cache_key = $1" "DELETE FROM t WHERE expires_at <> 0 AND expires_at <= $1"
  "SELECT cache_key, value FROM t WHERE cache_key = ANY($1) AND (expires_at = 0 OR expires_at > $2)"
  "INSERT INTO t (cache_key, value, expires_at) SELECT * FROM unnest($1::text[], $2::bytea[], $3::bigint[]) ON CONFLICT (cache_key) DO UPDATE SET value = EXCLUDED.value, expires_at = EXCLUDED.expires_at"
  "DELETE FROM t WHERE cache_key = ANY($1)".
Definition exMongo : mongoCache string bytes Z := mkMongo BytesCodec id.
Definition exTarantool : tarantoolCache string bytes Z := mkTarantool "s" BytesCodec id.
Definition exBadger : badgerCache string bytes Z := mkBadger BytesCodec id.
Definition exAerospike : aerospikeCache string bytes bool := mkAerospike "ns" "set" BytesCodec id.
Definition exBatch : list (string * bytes) := [("a", [1]); ("b", [2]); ("a", [3])].
Definition exStart : rowTable * Z := ({[ "c" := ([7], 0) ]}, 5 * second).
Definition exDocs : docTable * Z := ({[ "c" := ([7], None) ]}, 5 * second).

Lemma ends_well {E T A : Type} (x : (T * Z) * option E) (look : T → A) (P : T * Z → option E → Prop) r :
  (let '(s', e) := x in P s' e) → x.2 = None → look x.1.1 = r → let '(s', e) := x in e = None ∧ P s' e ∧ look s'.1 = r.
Proof. by destruct x. Qed.

(** A batch with a repeated key and a TTL of two seconds, in every store. *)
Lemma timed_adapters_lawful_witness :
  (let '(s', e) := sqBatchSet exSql exStart exBatch (2 * second) in
    e = None ∧ writes_all id exCodec fst sqlNow deadlineSec exStart exBatch (2 * second) s' e ∧ s'.1 !! "a" = Some ([3], 7)) ∧
  (let '(s', e) := pgBatchSet exPgx exStart exBatch (2 * second) in
    e = None ∧ writes_all id exCodec fst pgNow deadlineSec exStart exBatch (2 * second) s' e ∧ s'.1 !! "a" = Some ([3], 7)) ∧
  (let '(s', e) := mgBatchSet exMongo exDocs exBatch (2 * second) in
    e = None ∧ writes_all id exCodec fst mgNow deadlineDate exDocs exBatch (2 * second) s' e ∧ s'.1 !! "a" = Some ([3], Some (7 * second))) ∧
  (let '(s', e) := taBatchSet exTarantool exStart exBatch (2 * second) in
    e = None ∧ writes_all id exCodec fst taNow deadlineUnsigned exStart exBatch (2 * second) s' e ∧ s'.1 !! "a" = Some ([3], 7)) ∧
  (let '(s', e) := bgBatchSet exBadger exStart exBatch (2 * second) in
    e = None ∧ writes_all id exCodec fst snd deadlineSec exStart exBatch (2 * second) s' e ∧ s'.1 !! "a" = Some ([3], 7)) ∧
  (let '(s', e) := asBatchSet exAerospike exDocs exBatch (2 * second) in
    e = None ∧ writes_some id (BytesCodec : Codec bytes bool) fst snd (λ t ttl, SimAerospike.serverDeadline t (expiration ttl)) exDocs exBatch (2 * second) s' e ∧
    s'.1 !! "a" = Some ([3], Some 7)).
Proof.
  destruct timed_adapters_lawful as (H1 & H2 & H3 & H4 & H5 & H6). split_and!.
  - apply (ends_well _ (.!! "a")), eq_refl; [|vm_compute; reflexivity].
    exact (tl_batchSet _ _ _ _ _ _ _ _ (H1 _ _ _ _ _ _ (Some id) true (Some BytesCodec) "t" exDialect [] exSql _ fst eq_refl _) exStart exBatch (2 * second)).
  - apply (ends_well _ (.!! "a")), eq_refl; [|vm_compute; reflexivity].
    exact (tl_batchSet _ _ _ _ _ _ _ _ (H2 _ _ _ _ _ _ (Some id) true (Some BytesCodec) "t" [] exPgx _ fst eq_refl _) exStart exBatch (2 * second)).
  - apply (ends_well _ (.!! "a")), eq_refl; [|vm_compute; reflexivity].
    exact (tl_batchSet _ _ _ _ _ _ _ _ (H3 _ _ _ _ _ exMongo _ fst _) exDocs exBatch (2 * second)).
  - apply (ends_well _ (.!! "a")), eq_refl; [|vm_compute; reflexivity].
    exact (tl_batchSet _ _ _ _ _ _ _ _ (H4 _ _ _ _ _ _ exTarantool _ fst id _) exStart exBatch (2 * second)).
  - apply (ends_well _ (.!! "a")), eq_refl; [|vm_compute; reflexivity].
    exact (tl_batchSet _ _ _ _ _ _ _ _ (H5 _ _ _ _ _ _ _ _ exBadger _ fst snd _ _) exStart exBatch (2 * second)).
  - apply (ends_well _ (.!! "a")), eq_refl; [|vm_compute; reflexivity].
    exact (tl_batchSet _ _ _ _ _ _ _ _ (H6 _ _ _ _ _ _ _ exAerospike _ fst snd _ _ id _) exDocs exBatch (2 * second)).
Defined.
