(* ===== verification/MemcacheTheorems.v ===== *)
(** * The memcached adapters, and what a batch on several goroutines may do *)

From stdpp Require Import strings gmap relations.
From S2P Require Import Prelude Item Dedup Expiry Config Stats CacheState WriteBack WriteBackSteps Snapshot L2Util L2UtilLaws Redis KvStore TimedStore Sql SqlLaws Memcache SimStores.

(** C14: The three memcached adapters over a server that does what the protocol says or fails, and does not evict: reads answer
    what the server holds, unexpired; writes store the value with the deadline of its TTL, however the client and the
    server read the clock in between; batches can end, and whatever way their goroutines interleaved they then name every key, touch no other, and
    report an error if one of their operations failed; a key given several times holds one of its values, the last one if
    it was given once. *)
Theorem memcached_adapters_lawful {K V E D : Type} `{!GoType K} `{!MemcacheClient D E} (c : memcacheCache K V E) `{!TotalCodec (mmCodec c)}
    (rangeItems : gmap string bytes → list (string * bytes)) (rows : D → gmap string (bytes * option Z)) :
  (∀ m, rangeItems m ≡ₚ map_to_list m) → MemcacheLaws rows →
  unordered_lawful (mmKeyFunc c) (mmCodec c) rows mcNow visibleUnix (deadlineExp id)
    (mmGet c) (λ s ks s' a, mmBatchGet c rangeItems s ks = (s', a)) (mmSet c) (mmBatchSet c rangeItems) (mmDelete c) (mmBatchDelete c rangeItems) ∧
  unordered_lawful (mmKeyFunc c) (mmCodec c) rows mcNow visibleUnix (deadlineExp id)
    (rcGet c) (λ s ks s' a, rcBatchGet c rangeItems s ks = (s', a)) (rcSet c) (rcBatchSet c rangeItems) (rcDelete c) (rcBatchDelete c rangeItems) ∧
  unordered_lawful (mmKeyFunc c) (mmCodec c) rows mcNow visibleUnix (deadlineExp u32)
    (mcGet c) (mcBatchGet c) (mcSet c) (mcBatchSet c) (mcDelete c) (mcBatchDelete c).
Proof.
  intros Hrange Hlaws.
  assert (unordered_lawful (mmKeyFunc c) (mmCodec c) rows mcNow visibleUnix (deadlineExp id)
    (mmGet c) (λ s ks s' a, mmBatchGet c rangeItems s ks = (s', a)) (mmSet c) (mmBatchSet c rangeItems) (mmDelete c) (mmBatchDelete c rangeItems)) as Hmm.
  { split; [by apply mmGet_reads|by apply mmSet_writes|by apply mmDelete_deletes|intros s ks|intros s items ttl|intros s ks].
    - pose proof (mmBatchGet_reads c rangeItems Hrange rows s ks) as H. destruct (mmBatchGet c rangeItems s ks) as [s' a].
      split; [by exists s', a|]. by intros ? ? [= <- <-].
    - split; [apply BatchSetConcurrent_ends|]. intros s' e H%(BatchSetConcurrent_writes (mmKeyFunc c) (mmCodec c) rows mcNow (deadlineExp id)); [|by apply mmSet_writes].
      split; [done|]. intros Hnd. by apply writes_some_all.
    - split; [apply BatchDeleteConcurrent_ends|]. intros s' e. apply BatchDeleteConcurrent_deletes. by apply mmDelete_deletes. }
  split_and!; [exact Hmm|exact Hmm|]. split; [by apply mmGet_reads|by apply mcSet_writes|by apply mmDelete_deletes|intros s ks|intros s items ttl|intros s ks].
  - split; [apply BatchGetConcurrent_ends|]. intros s' a. apply BatchGetConcurrent_reads; [apply visibleUnix_earlier|by apply mmGet_reads].
  - split; [apply BatchSetConcurrent_ends|]. intros s' e H%(BatchSetConcurrent_writes (mmKeyFunc c) (mmCodec c) rows mcNow (deadlineExp u32)); [|by apply mcSet_writes].
    split; [done|]. intros Hnd. by apply writes_some_all.
  - split; [apply BatchDeleteConcurrent_ends|]. intros s' e. apply BatchDeleteConcurrent_deletes. by apply mmDelete_deletes.
Qed.

(** ** A batch may keep an older value *)

(** A concurrent batch of two writes may make the second one first: if the store takes them in that order without an error,
    the batch may return no error and leave the first value, so a key given twice may keep its older value.  The write-back
    worker relies on batches to keep the last one. *)
Theorem concurrent_batch_may_reorder {K V L E : Type} `{!L2Cache K V L E} (s s1 s2 : L) (k1 k2 : K) (v1 v2 : V) (ttl : Z) (workers : nat) :
  (2 ≤ workers)%nat → l2Set s k2 v2 ttl = (s1, None) → l2Set s1 k1 v1 ttl = (s2, None) →
  BatchSetConcurrent s [(k1, v1); (k2, v2)] ttl workers s2 None.
Proof.
  intros Hw H2 H1. unfold BatchSetConcurrent. rewrite (proj2 (Nat.leb_gt workers 1)) by lia. cbn [length Nat.leb orb].
  set (op := setOp [(k1, v1); (k2, v2)] ttl). pose (st n b (x : L) l w0 w1 := mkConc (E := E) n b None x l [w0; w1]).
  assert (startConc 2 workers s = st 0%nat false s [] PTake PTake) as Hstart.
  { unfold startConc. by replace (workers `min` 2)%nat with 2%nat by lia. }
  exists (st 4%nat false s2 [(1%nat, None); (0%nat, None)] PGone PGone). split_and!; [|by repeat constructor|done|done]. rewrite Hstart.
  assert (op s 1%nat = (s1, None)) as Hop1 by exact H2. assert (op s1 0%nat = (s2, None)) as Hop0 by exact H1.
  etrans; [apply rtc_once, (step_take _ _ _ 0); done|]. etrans; [apply rtc_once, (step_take _ _ _ 1); done|]. cbn.
  etrans; [apply rtc_once, (step_enter _ _ _ 0 0); [done|lia|done]|]. etrans; [apply rtc_once, (step_enter _ _ _ 1 1); [done|lia|done]|]. cbn.
  etrans; [apply rtc_once, (step_call _ _ _ 1 1 s1 None); done|]. etrans; [apply rtc_once, (step_call _ _ _ 0 0 s2 None); done|]. cbn.
  etrans; [apply rtc_once, (step_take _ _ _ 0); done|]. etrans; [apply rtc_once, (step_take _ _ _ 1); done|]. cbn.
  etrans; [apply rtc_once, (step_leave _ _ _ 0 2); [done|left; lia]|]. etrans; [apply rtc_once, (step_leave _ _ _ 1 3); [done|left; lia]|]. done.
Qed.

(** ** A server in memory *)

Definition exMemcache : memcacheCache string bytes Z := mkMemcache BytesCodec id.
#[local] Instance stringGo : GoType string := {| go_zero := ""; go_sizeof := 16 |}.

(** A batch of two keys ends on some schedule, and unless it failed its keys hold their values. *)
Lemma memcached_adapters_lawful_witness :
  ∃ s' e, mmBatchSet exMemcache map_to_list (∅, 0%nat) [("a", [1]); ("b", [2])] 0 s' e ∧
    (e = None → s'.1 !! "a" = Some ([1], None) ∧ s'.1 !! "b" = Some ([2], None)).
Proof.
  destruct (memcached_adapters_lawful exMemcache map_to_list fst (λ m, reflexivity _) SimMemcache.simMemcache_laws) as [H _].
  destruct (ul_batchSet _ _ _ _ _ _ _ _ _ _ _ _ H (∅, 0%nat) [("a", [1]); ("b", [2])] 0) as [(s' & e & Hrun) Hall].
  exists s', e. split; [exact Hrun|]. intros ->. destruct (Hall s' None Hrun) as [_ [_ Hk]].
  - repeat constructor; set_solver.
  - split; [destruct (Hk "a") as [(t & _ & Hw)|[He _]]|destruct (Hk "b") as [(t & _ & Hw)|[He _]]]; [|done| |done]; rewrite Hw; reflexivity.
Defined.

(** Two values for one key: the older one stays. *)
Example repeated_key_keeps_older :
  ∃ s', mmBatchSet exMemcache map_to_list (∅, 0%nat) [("a", [1]); ("a", [2])] 0 s' None ∧ s'.1 !! "a" = Some ([1], None).
Proof.
  eexists. split.
  - eapply (concurrent_batch_may_reorder (L2Cache0 := mmSingles exMemcache map_to_list)); [vm_compute; lia|reflexivity|reflexivity].
  - vm_compute. reflexivity.
Qed.
