(* ===== verification/AdapterCache.v ===== *)
(** * A cache and its adapter in one call (cache.go: New; l2/*_adapter: NewCache)

    The options of a two-level cache are one list: the adapter's [New] and the cache's [New] are both given all of it, and
    each option fills the targets it knows and leaves the others alone. *)

From stdpp Require Import strings gmap.
From S2P Require Import Prelude Budget Expiry Config Options CacheState Snapshot L2Util Redis GoRedis RedisPipe Redigo Rueidis Valkey Dynamo Sql Pgx Mongo Tarantool Badger Aerospike Memcache.

(** The last of a list, or what there was before. *)
Definition last_or {A} (t : option A) (l : list A) : option A := foldl (λ _ x, Some x) t l.

Lemma last_or_None {A} (l : list A) : last_or None l = last l.
Proof. induction l as [|x l IH] using rev_ind; [done|]. unfold last_or. by rewrite foldl_app, last_snoc. Qed.

Section Shared.
Context {K Cost Pol A ErrH DelH PanicH : Type}.
Abbreviation Config := (Config Cost Pol A ErrH DelH PanicH).
Abbreviation CacheOption := (Option Cost Pol A ErrH DelH PanicH).
Abbreviation CacheOpt := (Opt Cost Pol A ErrH DelH PanicH).

(** [types] stands for the cache's key and value types; [gomaxprocs] and [autoCost] are what [NewWithConfig] asks the runtime. *)
Context (types : nat) (gomaxprocs : Z) (autoCost : option Cost).

Definition New (opts : list CacheOption) : ConfigErr + Built Pol :=
  let '(cfg, err) := buildConfig types opts in
  match err with
  | Some e => inl e
  | None => (NewWithConfig gomaxprocs autoCost (Some cfg)).2
  end.

(** An option of the cache, a key function for these keys or for others, or the mode of ordered multi-gets. *)
Inductive SharedOption :=
| ForCache (o : CacheOpt) | WithKeyFunc (f : K → string) | WithForeignKeyFunc | WithOrderedMget (mode : DetectMode).

(** What each target sees of it: the cache's configuration, the key function, the mode. *)
Definition toCache (o : SharedOption) : CacheOption :=
  match o with ForCache o => with_ types o | _ => mkOption None (Some (λ target, (target, None))) end.

Definition toKeyFunc (o : SharedOption) : @keyOption K string :=
  match o with
  | ForCache o => match ApplyTyped (with_ types o) with None => Untyped | Some _ => OtherTarget end
  | WithKeyFunc f => KeyFunc f
  | WithForeignKeyFunc => KeyFuncOfOther
  | WithOrderedMget _ => OtherTarget
  end.

Definition toMget (o : SharedOption) : option DetectMode := match o with WithOrderedMget mode => Some mode | _ => None end.

(** [NewCache], over the [New] of an adapter. *)
Definition NewCache {Err} (new : list SharedOption → Err + A) (opts : list SharedOption) : (Err + ConfigErr) + Built Pol :=
  match new opts with
  | inl err => inl (inl err)
  | inr adapter =>
    match New ((toCache <$> opts) ++ [WithL2Cache types (Some adapter)]) with
    | inl err => inl (inr err)
    | inr cache => inr cache
    end
  end.

(** ** The dispatch *)

Definition cacheOpt (o : SharedOption) : option CacheOpt := match o with ForCache o => Some o | _ => None end.
Definition keyFuncOf (o : SharedOption) : option (K → string) := match o with WithKeyFunc f => Some f | _ => None end.

Definition isForeign (o : SharedOption) : bool := match o with WithForeignKeyFunc => true | _ => false end.

Lemma applyOptions_shared opts tail : ∀ f (c : Config),
  applyOptions types ((toCache <$> opts) ++ tail) f c = applyOptions types ((with_ types <$> omap cacheOpt opts) ++ tail) f c.
Proof.
  induction opts as [|o opts IH]; intros f c; [done|]. destruct o as [o|g| |mode]; cbn [fmap list_fmap toCache app omap list_omap cacheOpt].
  2-4: cbn [applyOptions ApplyField ApplyTyped]; apply IH.
  cbn [applyOptions]. destruct (ApplyTyped (with_ types o)) as [g|]; [|apply IH]. by destruct (g _) as [[t c'|] [e|]].
Qed.

(** The adapter is the second level of the cache, whatever the options say, and the other options are those of the cache in
    their order; a cache that cannot be built is refused for its adapter first, and then for its configuration. *)
Theorem NewCache_builds {Err} (new : list SharedOption → Err + A) opts :
  NewCache new opts =
    match new opts with
    | inl err => inl (inl err)
    | inr adapter =>
      match (NewWithConfig gomaxprocs autoCost (Some (set_L2Cache (Some adapter) (foldl setOpt zeroConfig (omap cacheOpt opts))))).2 with
      | inl err => inl (inr err)
      | inr cache => inr cache
      end
    end.
Proof.
  unfold NewCache, New. destruct (new opts) as [err|adapter]; [done|].
  assert (buildConfig types ((toCache <$> opts) ++ [WithL2Cache types (Some adapter)]) =
    (set_L2Cache (Some adapter) (foldl setOpt zeroConfig (omap cacheOpt opts)), None)) as ->; [|done].
  destruct (options_apply_in_order types (omap cacheOpt opts ++ [OptL2Cache (Some adapter)])) as [H _].
  rewrite fmap_app, foldl_app in H. etrans; [|exact H]. unfold buildConfig. by rewrite applyOptions_shared.
Qed.

(** The key function of an adapter: the last one given for its key type; one for another type fails the construction, and options of
    the cache do not matter. *)
Theorem key_func_of_shared isString opts :
  ExtractKeyFunc isString (toKeyFunc <$> opts) =
    if existsb isForeign opts then inl ErrOptionMismatch else ResolveKeyFunc isString (last (omap keyFuncOf opts)).
Proof.
  assert (∀ t, extractKeyFunc t (toKeyFunc <$> opts) =
    if existsb isForeign opts then inl ErrOptionMismatch else inr (last_or t (omap keyFuncOf opts))) as H.
  { induction opts as [|o opts IH]; intros t; [done|]. destruct o as [o|g| |mode]; cbn [fmap list_fmap toKeyFunc]; [|cbn; apply IH|done|cbn; apply IH].
    destruct (ApplyTyped (with_ types o)); cbn; apply IH. }
  unfold ExtractKeyFunc. rewrite H. by destruct (existsb isForeign opts); [|rewrite last_or_None].
Qed.
End Shared.

(** ** The constructors of an adapter

    They hand [New] the codec of their name: encoding/json, bytes as they are, or a string's bytes. *)

Section Constructors.
Context {K E Err Cost Pol ErrH DelH PanicH : Type} (types : nat) (gomaxprocs : Z) (autoCost : option Cost).
(** The adapter for values of a type; its [New] behind the client; the JSON codec of the type. *)
Context (A : Type → Type) (jsonCodec : ∀ V, Codec V E).
Abbreviation opts V := (list (@SharedOption K Cost Pol (A V) ErrH DelH PanicH)).
Abbreviation result := ((Err + ConfigErr) + Built Pol)%type.

Record Constructors := mkConstructors {
  NewJSON : ∀ V, opts V → Err + A V;
  NewBytes : opts bytes → Err + A bytes;
  NewCacheOf : ∀ V, option (Codec V E) → opts V → result;
  NewJSONCache : ∀ V, opts V → result;
  NewBytesCache : opts bytes → result;
  NewStringCache : opts bytes → result
}.

Definition constructorsOf (new : ∀ V, option (Codec V E) → opts V → Err + A V) : Constructors :=
  let newCache V codec := NewCache types gomaxprocs autoCost (new V codec) in {|
  NewJSON V := new V (Some (jsonCodec V));
  NewBytes := new bytes (Some BytesCodec);
  NewCacheOf := newCache;
  NewJSONCache V := newCache V (Some (jsonCodec V));
  NewBytesCache := newCache bytes (Some BytesCodec);
  NewStringCache := newCache bytes (Some StringCodec)
|}.
End Constructors.

(** ** The adapters

    Each hands its own [New] the list; the client is given before it. *)

Section Adapters.
Context {K E Cost Pol ErrH DelH PanicH : Type} (types : nat) (gomaxprocs : Z) (autoCost : option Cost).
Context (isString : option (K → string)) (jsonCodec : ∀ V, Codec V E).
Abbreviation family Err A := (@Constructors K E Err Cost Pol ErrH DelH PanicH A).
Abbreviation build := (constructorsOf types gomaxprocs autoCost).
Abbreviation keys o := (toKeyFunc types <$> o).

Definition grConstructors (client : option ClientType) : family UtilError (λ V, goredisCache K V E) :=
  build _ jsonCodec (λ V codec o, grNew isString client codec (keys o) (toMget <$> o)).
Definition rpConstructors (sender : option bool) : family UtilError (λ V, redispipeCache K V E) :=
  build _ jsonCodec (λ V codec o, rpNew isString sender codec (keys o) (toMget <$> o)).
Definition rgConstructors (pool : bool) : family UtilError (λ V, redigoCache K V E) :=
  build _ jsonCodec (λ V codec o, rgNew isString pool codec (keys o) (toMget <$> o)).
Definition ruConstructors (client : option nat) : family UtilError (λ V, rueidisCache K V E) :=
  build _ jsonCodec (λ V codec o, ruNew isString client codec (keys o) (toMget <$> o)).
Definition vkConstructors (client : option nat) : family UtilError (λ V, valkeyCache K V E) :=
  build _ jsonCodec (λ V codec o, vkNew isString client codec (keys o) (toMget <$> o)).
Definition dyConstructors (client : bool) (tableName : string) : family UtilError (λ V, dynamoCache K V E) :=
  build _ jsonCodec (λ V codec o, dyNew isString client codec tableName (keys o)).
Definition sqConstructors (db : bool) (tableName : string) (dialect : Dialect) : family SqlNewError (λ V, sqlCache K V E) :=
  build _ jsonCodec (λ V codec o, sqNew isString db codec tableName dialect (keys o)).
Definition pgConstructors (db : bool) (tableName : string) : family UtilError (λ V, pgxCache K V E) :=
  build _ jsonCodec (λ V codec o, pgNew isString db codec tableName (keys o)).
Definition mgConstructors (coll : bool) : family UtilError (λ V, mongoCache K V E) :=
  build _ jsonCodec (λ V codec o, mgNew isString coll codec (keys o)).
Definition taConstructors (doer : bool) (space : string) : family UtilError (λ V, tarantoolCache K V E) :=
  build _ jsonCodec (λ V codec o, taNew isString doer codec space (keys o)).
Definition bgConstructors (db : bool) : family UtilError (λ V, badgerCache K V E) :=
  build _ jsonCodec (λ V codec o, bgNew isString db codec (keys o)).
Definition asConstructors (client : bool) (namespace set : string) : family UtilError (λ V, aerospikeCache K V E) :=
  build _ jsonCodec (λ V codec o, asNew isString client codec namespace set (keys o)).
Definition mmConstructors (client : bool) : family UtilError (λ V, memcacheCache K V E) :=
  build _ jsonCodec (λ V codec o, mmNew isString client codec (keys o)).
Definition rcConstructors (client : bool) : family UtilError (λ V, memcacheCache K V E) :=
  build _ jsonCodec (λ V codec o, rcNew isString client codec (keys o)).
Definition mcConstructors (client : bool) : family UtilError (λ V, memcacheCache K V E) :=
  build _ jsonCodec (λ V codec o, mcNew isString client codec (keys o)).

(** For instance: a cache of bytes over go-redis is refused without a client; with one it has the adapter over the pass-through codec and
    the last key function given as its second level, whatever second level the options name. *)
Theorem goredis_bytes_cache client opts :
  NewBytesCache _ (grConstructors client) opts =
    match client with
    | None => inl (inl ErrNilClient)
    | Some client' =>
      if existsb isForeign opts then inl (inl ErrOptionMismatch)
      else match ResolveKeyFunc isString (last (omap keyFuncOf opts)) with
      | inl err => inl (inl err)
      | inr keyFunc =>
        let adapter := mkGoredis BytesCodec keyFunc (isSingleNode client')
          (ResolveOrderedMget (ExtractOrderedMget (toMget <$> opts)) (IsOrderedMgetAvailable client')) in
        match (NewWithConfig gomaxprocs autoCost (Some (set_L2Cache (Some adapter) (foldl setOpt zeroConfig (omap cacheOpt opts))))).2 with
        | inl err => inl (inr err)
        | inr cache => inr cache
        end
      end
    end.
Proof.
  unfold grConstructors, constructorsOf, NewBytesCache. rewrite NewCache_builds. unfold grNew. destruct client as [client|]; [|done].
  rewrite key_func_of_shared. destruct (existsb isForeign opts); [done|]. by destruct (ResolveKeyFunc isString _).
Qed.
End Adapters.
